(* ===== verification/_CoqProject ===== *)
-Q . S2P
Prelude.v
Errors.v
Event.v
Relation.v
RelationFacts.v
ExecutionGraph.v
ExplorationGraph.v
Porf.v
Consistency.v
StorageFacts.v
ExecutionGraphFacts.v
ExplorationFacts.v
Rollback.v
Queries.v
PorfFacts.v
PorfClocks.v
DerivedOrder.v
CycleSearch.v
ConsistencyFacts.v
CheckerFacts.v
FifoFacts.v
Program.v
Masked.v
Dpor.v
Revisit.v
Explorer.v
Observers.v
EntryPoints.v
Format.v
Parallel.v
Fatal.v
RestrictFacts.v
SoundFacts.v
BuiltFacts.v
Tiebreaker.v
MaskedFacts.v
RevisitFacts.v
NextEvent.v
Conformance.v
Runs.v
Totality.v
EngineFacts.v
RunFacts.v
Faults.v
Termination.v
VerifyFacts.v
EntryFacts.v
ExecutorFacts.v
PoolFacts.v
PoolRule.v
FatalFacts.v
SingleWorker.v
Samples.v
GraphTheorems.v
CheckerTheorems.v
StepTheorems.v
StorageTheorems.v
EngineTheorems.v
FaultTheorems.v
ParallelTheorems.v
FatalTheorems.v
TwoPhase.v
Benchmark.v
Bridge.v
Simulation.v
BridgeFacts.v
Replay.v
ReplayFacts.v
SimulationFacts.v
SteadyRuns.v
Network.v
SimulationLogs.v
SimulationSafety.v
Udp.v
UdpFacts.v
TwoPhaseTheorems.v
UdpTheorems.v
EntryTheorems.v
BenchmarkTheorems.v
