(* ===== verification/Prelude.v ===== *)
(** * A verification library for the dpor model checker

    The program is a header-only C++20 library, under [include/dpor/], that explores all
    executions of a program of message-passing threads, up to a communication model, with
    the Must algorithm (dynamic partial order reduction over execution graphs).  Its parts
    and the files that model them:

    - [errors.hpp]: exceptions and the frame around user callbacks -> [Errors];
    - [model/event.hpp]: labels, events, observed values -> [Event];
    - [model/relation.hpp]: the [Relation] concept and its adapters -> [Relation];
    - [model/execution_graph.hpp]: events, reads-from storage, used indices, derived
      relations -> [ExecutionGraph];
    - [model/exploration_graph.hpp]: caches, undo logs, checkpoints, restriction ->
      [ExplorationGraph]; the causal-order cache (topological order, vector clocks) ->
      [Porf];
    - [model/consistency.hpp]: validation, cycle search, FIFO clauses, the two checkers ->
      [Consistency];
    - [algo/program.hpp]: thread maps and programs -> [Program];
    - [algo/dpor.hpp]: next events and Previous sets -> [Dpor]; the masked causality view ->
      [Masked]; tiebreaker, revisit condition, backward revisits, reschedules -> [Revisit];
      executors, frames, contexts, handlers, the loop and [verify] -> [Explorer]; terminal
      executions and the callables that observe them -> [Observers]; the entry points on a
      given graph -> [EntryPoints]; the parallel executor, its worker loop and
      [verify_parallel] -> [Parallel]; the engine at the point where a step throws, the
      diagnostic hook and the unwinding -> [Fatal];
    - [model/format.hpp]: graphs as text -> [Format];
    - [examples/two_phase_commit_timeout/]: the protocol and its messages, [protocol.hpp] ->
      [TwoPhase]; messages as values of the checker, [sim/dpor_types.hpp] and
      [sim/bridge.hpp] -> [Bridge]; the protocol as a program of the checker,
      [sim/crash_before_decision.hpp] -> [Simulation]; the protocol over sockets,
      [udp_network.hpp] -> [Udp];
    - [benchmarks/common/two_phase_commit_benchmark.hpp]: options, runs, comparisons and the
      exit code of the benchmark harness -> [Benchmark].

    How the parts interact.  [verify] builds a sequential executor and runs the engine on an
    empty exploration graph.  The engine asks [compute_next_event] for the next event, which
    calls the thread functions of the program with their traces; it appends events, assigns
    reads-from sources, and rolls the graph back through checkpoints.  After a send it asks
    for backward revisits, whose children are restrictions of the graph in contexts of their
    own; children that may be inconsistent are checked by the consistency checker before
    they are visited.  Terminal executions go to the executor, which counts them and calls
    the observers.  [verify_parallel] runs the same engine on worker threads that share a
    queue of tasks; [Parallel] is a step relation on the threads' phases, with the mutex and
    the condition variable.  The example protocol is written against the class
    [Environment]; the simulation, the network of [Network], the recorded runs of [Replay]
    and the sockets of [Udp] are instances of it.

    ** Conventions

    A C++ function that may throw returns [res A], a result or an exception of type [exn]
    (file [Errors]); undefined behaviour of the source is the exception [undefined_behavior],
    so a theorem that a call returns [Ok] also excludes it.  State is passed explicitly: a
    method takes the object and returns it changed.  Vectors are lists, ids are [nat]
    positions, thread ids and event indices are [N] with their limits [kMaxThreadId] and
    [kMaxIndex] written out; sizes and counters are [nat].  Values are a type parameter with
    decidable equality, and an order parameter where the source uses [<].  User code (thread
    functions, receive matchers, observers) is an argument: a function that may throw, with a
    state for observers; clock readings and the answers of the operating system are
    arguments.  A [mutable] cache is part of the
    graph and queries return it updated.

    Loops with a bound that the code makes visible are folds or structural; the others are
    [while] with fuel.  Fuel is computed inside the definitions where the source bounds the
    loop (queue lengths, index scans), and shown sufficient by the theorems that the calls
    return; the engine's loop takes its fuel as an argument, and [verify_terminates] shows
    that some fuel always suffices.  The replay loop of [Simulation] has one iteration more
    than the step it is called for, which [simulation_is_accepted] shows to be enough; the
    socket loops of [Udp] may wait forever, so their theorem allows for it.

    ** Theorems

    Library facts: [RelationFacts] (laws of the relation interface, one instance per
    adapter), [StorageFacts], [ExecutionGraphFacts], [ExplorationFacts] (the invariant [Inv]
    of exploration graphs), [Rollback], [Queries], [PorfFacts] and [PorfClocks] (Kahn's
    algorithm, vector clocks), [DerivedOrder], [CycleSearch], [ConsistencyFacts],
    [CheckerFacts], [FifoFacts] (the declarative notion [consistent]), [RestrictFacts],
    [SoundFacts] (graphs fit to be explored: [Good], [Sound]), [BuiltFacts] (graphs built with
    the public operations used as documented), [RevisitFacts], [NextEvent],
    [Tiebreaker] and [MaskedFacts] (the masked tiebreaker and its reference), [Conformance]
    (executions that follow the program, and which properties of executions the engine's
    mutations carry along), [Runs] (the semantics of message-passing programs as a
    transition system, and consistent executions as its runs), [Totality] (the revisit
    machinery returns), [EngineFacts] (the invariant of the engine's stack), [RunFacts] (what
    is published is a run that ends as its kind says), [Faults] (what a run may throw),
    [Termination], [VerifyFacts], [EntryFacts],
    [ExecutorFacts] (runs on two executors that answer alike), [PoolFacts], [PoolRule] and
    [SingleWorker] (the pool of workers), [FatalFacts] (the point of failure and the
    unwinding).  [Samples] holds concrete programs.  For the
    example: [BridgeFacts], [Replay] and [ReplayFacts] (a recorded run, and that replaying is
    indexing it), [SimulationFacts], [Network] (the protocol on a network that loses,
    duplicates and reorders messages, and its invariant), [SteadyRuns] (more observations
    extend a recorded run), [SimulationLogs] (a program logic for recorded runs, and what
    coordinators and participants may do in them), [SimulationSafety] (executions that
    follow the simulation are safe), [UdpFacts].

    Receive matchers that throw.  [NextEvent.total_program] says that no receive matcher
    of a program throws.  The theorems on what is published, on the counters, and on the
    graphs of fatal errors assume it, as their comments say: a consistency check calls the
    matchers, so on a candidate whose matcher throws there is no verdict to speak of.
    Termination, the agreement of one worker with [verify], the progress of the pool, and
    the part of [fatal_error_reported] on the hook and the result hold of every program.

    - [EngineTheorems]: observers see only consistent, rightly classified executions, and
      each is a run of the program's semantics; the
      counters are the account of what was published; nothing is published after a stop;
      [verify] terminates; unwinding never fails; the caller's graph is given back.
    - [FaultTheorems]: the masked tiebreaker is its reference; revisits return; [verify]
      throws nothing but errors of user code.
    - [ParallelTheorems]: counters and log of a parallel run; one worker is [verify]; the
      pool makes progress; a stop request can be missed by a worker going to wait.
    - [FatalTheorems]: the diagnostic hook changes nothing, is called once, and is given an
      execution of the program; unwinding succeeds.
    - [EntryTheorems]: observers that only watch never stop a run; the loop over backward
      revisits is a loop over receives.
    - [StepTheorems]: the next event; the per-thread bound is wrapping of thread functions;
      Previous sets; backward revisits; reschedules; choice deduplication.
    - [CheckerTheorems]: causality queries, cycle tests, topological order; the checkers
      decide consistency and agree; fresh events keep consistency.
    - [GraphTheorems]: the invariant of the graphs built as documented; rollback; [add_event];
      exactness of the caches and of restriction.
    - [StorageTheorems]: replay of events, used indices, reads-from storage, the relation
      algebra, thread maps, tagging of callback errors.
    - [TwoPhaseTheorems]: two-phase commit is safe; both encodings of messages; thread
      functions index one run; the simulation is a program the engine accepts; the
      executions published of it are safe, for any number of participants.
    - [UdpTheorems]: what runs over sockets is a node of the network.
    - [BenchmarkTheorems]: the command line round-trips; runs are complete; what the exit
      code means.

    ** Not modelled

    What a graph mutation that throws leaves of its graph: [Fatal] takes it as an argument,
    and its theorems say nothing of that graph. The parallel executor's atomics are
    sequentially consistent, and memory exhaustion does not occur (but in the harness's
    reservation of its measurements). Deadlines of timers are unbounded integers. The depth
    at which an exploration was cut off is not a part of the graph, so of an execution
    published as cut off by [max_depth] the theorems say what they say of every kind. Of the
    benchmark harness the text it prints (but not when it prints a snapshot) and its clock
    readings; the oracle it compares with belongs to the tests and is an argument. Deleted
    functions, type aliases, moves and the compile-time selection of the observer's
    signature have no run-time behaviour of their own; [header_check.cpp] only includes the
    headers.

    ** Left for later

    That every run of the semantics in [Runs] is published, up to the equivalence of
    executions: soundness is proved here, completeness of the reduction is not.  That a
    parallel run publishes the executions of the sequential one. *)

From stdpp Require Import base tactics decidable numbers relations list.

(** ** Results: normal return or a thrown exception *)

Inductive result (E A : Type) : Type :=
| Ok (a : A)
| Throw (e : E).
Arguments Ok {E A} a.
Arguments Throw {E A} e.

#[export] Instance result_ret {E} : MRet (result E) := λ A a, Ok a.

#[export] Instance result_bind {E} : MBind (result E) :=
  λ A B f r, match r with Ok a => f a | Throw e => Throw e end.

#[export] Instance result_fmap {E} : FMap (result E) :=
  λ A B f r, match r with Ok a => Ok (f a) | Throw e => Throw e end.

Definition is_Ok {E A} (r : result E A) : bool :=
  match r with Ok _ => true | Throw _ => false end.

Section result_lemmas.
Context {E A B : Type}.
Implicit Types (r : result E A) (f : A → result E B).

Lemma bind_Ok_inv r f b : (r ≫= f) = Ok b → ∃ a, r = Ok a ∧ f a = Ok b.
Proof. destruct r as [a|e]; [by exists a | done]. Qed.

Lemma bind_Ok_intro r f a b : r = Ok a → f a = Ok b → (r ≫= f) = Ok b.
Proof. by intros ->. Qed.

Lemma fmap_Ok_inv (g : A → B) r b : g <$> r = Ok b → ∃ a, r = Ok a ∧ b = g a.
Proof. destruct r as [a|e]; [intros [= <-]; by exists a | done]. Qed.

Lemma bind_Throw_inv r f e :
  (r ≫= f) = Throw e → r = Throw e ∨ ∃ a, r = Ok a ∧ f a = Throw e.
Proof. destruct r as [a|e']; cbn; [by right; exists a | intros [= <-]; by left]. Qed.

End result_lemmas.

(** [inv_bind] opens every hypothesis that says a monadic computation returned. *)
Ltac inv_bind :=
  repeat match goal with
  | H : (_ ≫= _) = Ok _ |- _ =>
      let a := fresh "v" in let Ha := fresh "Hv" in
      apply bind_Ok_inv in H as (a & Ha & H)
  | H : (_ <$> _) = Ok _ |- _ =>
      let a := fresh "v" in let Ha := fresh "Hv" in
      apply fmap_Ok_inv in H as (a & Ha & H)
  | H : Ok _ = Ok _ |- _ => injection H as H; try subst
  | H : Throw _ = Ok _ |- _ => discriminate H
  | H : mret _ = Ok _ |- _ => cbn in H
  end.

(** [step_bind] runs the first computation of the left-hand side; when it throws, both
    sides throw. *)
Ltac step_bind :=
  match goal with |- (?r ≫= _) = _ => destruct r as [?|?]; simpl; [|done] end.

(** ** Loops *)

(** A C++ range-for loop whose body may throw, as a fold over the elements. *)
Fixpoint foldM {E S A} (f : S → A → result E S) (s : S) (l : list A) : result E S :=
  match l with
  | [] => Ok s
  | a :: l' => s' ← f s a; foldM f s' l'
  end.

(** [std::any_of]: stops at the first element that satisfies the predicate. *)
Fixpoint existsM {E A} (p : A → result E bool) (l : list A) : result E bool :=
  match l with
  | [] => Ok false
  | a :: l' => b ← p a; if (b : bool) then Ok true else existsM p l'
  end.

(** Collects, in order, the elements that satisfy a predicate that may throw. *)
Fixpoint filterM {E A} (p : A → result E bool) (l : list A) : result E (list A) :=
  match l with
  | [] => Ok []
  | a :: l' =>
      b ← p a;
      rest ← filterM p l';
      Ok (if (b : bool) then a :: rest else rest)
  end.

(** The first element that satisfies the predicate: a loop that [break]s on success. *)
Fixpoint findM {E A} (p : A → result E bool) (l : list A) : result E (option A) :=
  match l with
  | [] => Ok None
  | a :: l' => b ← p a; if (b : bool) then Ok (Some a) else findM p l'
  end.

(** A [while] loop: [step] either continues with a new state or leaves the loop
    with a value.  [oof] is thrown when [fuel] iterations did not suffice. *)
Fixpoint while {E S A} (fuel : nat) (oof : E) (step : S → result E (S + A)) (s : S)
    : result E A :=
  match fuel with
  | O => Throw oof
  | S fuel' =>
      r ← step s;
      match r with
      | inl s' => while fuel' oof step s'
      | inr a => Ok a
      end
  end.

#[global] Arguments while : simpl never.

Section loops.
Context {E : Type}.

Lemma foldM_app {St A} (f : St → A → result E St) s l1 l2 :
  foldM f s (l1 ++ l2) = (s' ← foldM f s l1; foldM f s' l2).
Proof.
  revert s. induction l1 as [|a l1 IH]; intros s; simpl; [done|].
  destruct (f s a) as [s'|e]; simpl; [apply IH | done].
Qed.

(** Loop invariant rule for [foldM]: the invariant is indexed by the elements
    already processed. *)
Lemma foldM_inv {St A} (f : St → A → result E St) (I : list A → St → Prop) l s :
  I [] s →
  (∀ l1 a l2 s, l = l1 ++ a :: l2 → I l1 s → ∃ s', f s a = Ok s' ∧ I (l1 ++ [a]) s') →
  ∃ s', foldM f s l = Ok s' ∧ I l s'.
Proof.
  intros H0 Hstep.
  assert (∀ l2 l1 s, l = l1 ++ l2 → I l1 s → ∃ s', foldM f s l2 = Ok s' ∧ I l s') as H.
  { intros l2. induction l2 as [|a l2 IH]; intros l1 s1 Hl HI; simpl.
    - exists s1. rewrite Hl, app_nil_r. done.
    - destruct (Hstep l1 a l2 s1 Hl HI) as (s' & -> & HI').
      apply (IH (l1 ++ [a]) s'); [by rewrite <-app_assoc|done]. }
  by apply (H l []).
Qed.

(** The same rule for a loop that is known to have returned. *)
Lemma foldM_Ok_inv {St A} (f : St → A → result E St) (I : list A → St → Prop) l s s' :
  foldM f s l = Ok s' → I [] s →
  (∀ l1 a l2 s s', l = l1 ++ a :: l2 → I l1 s → f s a = Ok s' → I (l1 ++ [a]) s') →
  I l s'.
Proof.
  intros Hf H0 Hstep.
  assert (∀ l2 l1 s, l = l1 ++ l2 → I l1 s → foldM f s l2 = Ok s' → I l s') as H.
  { intros l2. induction l2 as [|a l2 IH]; intros l1 s1 Hl HI Hf'; simpl in Hf'.
    - injection Hf' as ->. by rewrite Hl, app_nil_r.
    - apply bind_Ok_inv in Hf' as (s2 & Ha & Hf').
      apply (IH (l1 ++ [a]) s2); [by rewrite <-app_assoc| |done].
      by eapply Hstep. }
  by apply (H l [] s).
Qed.

Lemma foldM_pure {St A} (f : St → A → result E St) (g : St → A → St) l s :
  (∀ s a, a ∈ l → f s a = Ok (g s a)) → foldM f s l = Ok (foldl g s l).
Proof.
  revert s. induction l as [|a l IH]; intros s Hf; simpl; [done|].
  rewrite Hf by set_solver. simpl. apply IH. intros; apply Hf; set_solver.
Qed.

Lemma existsM_pure {A} (p : A → result E bool) (q : A → bool) l :
  (∀ a, a ∈ l → p a = Ok (q a)) → existsM p l = Ok (existsb q l).
Proof.
  induction l as [|a l IH]; intros Hp; simpl; [done|].
  rewrite Hp by set_solver. simpl. destruct (q a); [done|].
  apply IH. intros; apply Hp; set_solver.
Qed.

(** A search whose test decides [Q] decides whether some element satisfies [Q]. *)
Lemma existsM_spec {A} (p : A → result E bool) (Q : A → Prop) l :
  (∀ a, a ∈ l → ∃ b, p a = Ok b ∧ (b = true ↔ Q a)) →
  ∃ b, existsM p l = Ok b ∧ (b = true ↔ ∃ a, a ∈ l ∧ Q a).
Proof.
  induction l as [|a l IH]; intros Hp; simpl.
  { exists false. set_solver. }
  destruct (Hp a) as (b & -> & Hb); [set_solver|]. simpl. destruct b.
  { exists true. split; [done|]. split; [|done]. intros _. exists a. set_solver. }
  destruct IH as (b & Hb' & Hiff); [intros; apply Hp; set_solver|]. exists b. split; [done|].
  rewrite Hiff. set_solver.
Qed.

Lemma findM_pure {A} (p : A → result E bool) (q : A → bool) l :
  (∀ a, a ∈ l → p a = Ok (q a)) → findM p l = Ok (List.find q l).
Proof.
  induction l as [|a l IH]; intros Hp; simpl; [done|].
  rewrite Hp by set_solver. simpl. destruct (q a); [done|].
  apply IH. intros; apply Hp; set_solver.
Qed.

Lemma filterM_pure {A} (p : A → result E bool) (q : A → bool) l :
  (∀ a, a ∈ l → p a = Ok (q a)) → filterM p l = Ok (List.filter q l).
Proof.
  induction l as [|a l IH]; intros Hp; simpl; [done|].
  rewrite Hp by set_solver. simpl.
  rewrite IH by (intros; apply Hp; set_solver). simpl. by destruct (q a).
Qed.

Lemma while_S {St A} (oof : E) (step : St → result E (St + A)) fuel s :
  while (S fuel) oof step s =
    (r ← step s; match r with inl s' => while fuel oof step s' | inr a => Ok a end).
Proof. done. Qed.

(** A loop that returned returns the same with more fuel. *)
Lemma while_more {St A} (oof : E) (step : St → result E (St + A)) fuel fuel' s a :
  while fuel oof step s = Ok a → fuel ≤ fuel' → while fuel' oof step s = Ok a.
Proof.
  revert fuel' s. induction fuel as [|fuel IH]; intros fuel' s Hrun Hle; [done|].
  destruct fuel' as [|fuel']; [lia|]. rewrite while_S in *.
  destruct (step s) as [[s'|b]|e]; [|done..]. apply IH; [done|lia].
Qed.

(** Total correctness of [while], exceptional exits included: an invariant, and a
    measure that decreases on every iteration and is smaller than the fuel. *)
Lemma while_outcome {St A} (oof : E) (step : St → result E (St + A))
    (I : St → Prop) (m : St → nat) (Q : result E A → Prop) :
  (∀ s, I s → match step s with
              | Ok (inl s') => I s' ∧ m s' < m s
              | Ok (inr a) => Q (Ok a)
              | Throw e => Q (Throw e)
              end) →
  ∀ fuel s, I s → m s < fuel → Q (while fuel oof step s).
Proof.
  intros Hstep fuel. induction fuel as [|fuel IH]; intros s HI Hm; [lia|].
  specialize (Hstep s HI). unfold while; fold (@while E St A).
  destruct (step s) as [[s'|a]|e]; simpl; [|done..].
  destruct Hstep as [HI' Hlt]. apply IH; [done|lia].
Qed.

Lemma while_total {St A} (oof : E) (step : St → result E (St + A))
    (I : St → Prop) (m : St → nat) (Q : A → Prop) :
  (∀ s, I s → ∃ r, step s = Ok r ∧
     match r with inl s' => I s' ∧ m s' < m s | inr a => Q a end) →
  ∀ fuel s, I s → m s < fuel → ∃ a, while fuel oof step s = Ok a ∧ Q a.
Proof.
  intros Hstep. apply (while_outcome oof step I m (λ r, ∃ a, r = Ok a ∧ Q a)).
  intros s HI. destruct (Hstep s HI) as (r & -> & Hr). destruct r; [done|eauto].
Qed.

End loops.

(** ** Lists *)

Section lists.
Context {A : Type}.
Implicit Types (p q : A → bool) (l : list A).

Lemma filter_length_le p q l :
  (∀ x, q x = true → p x = true) → length (List.filter q l) ≤ length (List.filter p l).
Proof.
  intros Hqp. induction l as [|x l IH]; simpl; [done|].
  destruct (q x) eqn:Eq; [rewrite (Hqp x Eq); simpl; lia|]. destruct (p x); simpl; lia.
Qed.

Lemma filter_length_lt p q l x :
  (∀ x, q x = true → p x = true) → x ∈ l → p x = true → q x = false →
  length (List.filter q l) < length (List.filter p l).
Proof.
  intros Hqp Hx Hp Hq.
  induction l as [|y l IH]; [set_solver|]. simpl. apply elem_of_cons in Hx as [<-|Hx].
  - rewrite Hp, Hq. simpl. pose proof (filter_length_le p q l Hqp). lia.
  - specialize (IH Hx). destruct (q y) eqn:Eq; [rewrite (Hqp y Eq); simpl; lia|]. destruct (p y); simpl; lia.
Qed.

End lists.
