(* ===== verification/Errors.v ===== *)
(** * Errors: the exception taxonomy of [dpor/errors.hpp]

    Every C++ exception the library can raise or pass on is a value of [exn];
    a function that may throw returns a [res].  Two constructors are not C++
    exceptions: [undefined_behavior] stands for an unchecked vector access out of
    range (the [vec_*] operations below), and [nontermination] for a loop that
    outran the fuel its model was given.  Neither can be caught, and the theorems
    of the development show that neither occurs. *)

From stdpp Require Import base tactics numbers pretty list strings.
From S2P Require Import Prelude.

(** Which user-provided callback surface a [user_code_error] originated from. *)
Inductive UserCallbackKind :=
| ThreadFunction
| ReceiveMatcher
| TerminalObserver
| ProgressObserver.

#[warnings="-register-all"]
Inductive exn :=
| internal_error (what : string)
| precondition_error (what : string)
| user_code_error (kind : UserCallbackKind) (thread : option N) (original : option exn)
    (what : string)
| std_exception (what : string)
| foreign_exception
| undefined_behavior
| nontermination.

Abbreviation res := (result exn).

#[export] Instance UserCallbackKind_eq_dec : EqDecision UserCallbackKind.
Proof. solve_decision. Defined.

Open Scope string_scope.

Definition to_string (kind : UserCallbackKind) : string :=
  match kind with
  | ThreadFunction => "thread function"
  | ReceiveMatcher => "receive matcher"
  | TerminalObserver => "terminal execution observer"
  | ProgressObserver => "progress observer"
  end.

(** [std::exception::what()]; [None] for a payload that is not a [std::exception]. *)
Definition what (e : exn) : option string :=
  match e with
  | internal_error w | precondition_error w | user_code_error _ _ _ w
  | std_exception w => Some w
  | foreign_exception | undefined_behavior | nontermination => None
  end.

Definition compose_user_code_message (kind : UserCallbackKind) (thread : option N)
    (original : option exn) (detail : string) : string :=
  let message := "exception escaped user " +:+ to_string kind in
  let message :=
    match thread with
    | Some t => message +:+ " (thread " +:+ pretty t +:+ ")"
    | None => message
    end in
  let message := if decide (detail = "") then message else message +:+ ": " +:+ detail in
  match original with
  | Some e =>
      match what e with
      | Some w => message +:+ ": " +:+ w
      | None => message +:+ ": non-std::exception payload"
      end
  | None => message
  end.

(** The constructor of class [user_code_error]. *)
Definition make_user_code_error (kind : UserCallbackKind) (thread : option N)
    (original : option exn) (detail : string) : exn :=
  user_code_error kind thread original
    (compose_user_code_message kind thread original detail).

(** Accessors of class [user_code_error]; [None] when the exception is of another class. *)
Definition user_code_kind (e : exn) : option UserCallbackKind :=
  match e with user_code_error k _ _ _ => Some k | _ => None end.

Definition user_code_thread (e : exn) : option (option N) :=
  match e with user_code_error _ t _ _ => Some t | _ => None end.

Definition has_original (e : exn) : bool :=
  match e with user_code_error _ _ (Some _) _ => true | _ => false end.

(** [rethrow_original] of a [user_code_error] with the given original exception. *)
Definition rethrow_original {A} (original : option exn) : res A :=
  match original with
  | None => Throw (precondition_error "user_code_error carries no original exception")
  | Some e => Throw e
  end.

(** What a [catch (...)] clause can intercept. *)
Definition catchable (e : exn) : bool :=
  match e with undefined_behavior | nontermination => false | _ => true end.

(** The [try { return f(); } catch (const user_code_error&) { throw; } catch (...)
    { throw user_code_error(kind, tid, current_exception()); }] frame the library puts
    around every call of a user callback; [r] is the outcome of the callback. *)
Definition invoke_user_code {A} (kind : UserCallbackKind) (tid : option N) (r : res A)
    : res A :=
  match r with
  | Ok a => Ok a
  | Throw (user_code_error _ _ _ _ as e) => Throw e
  | Throw e => if catchable e then Throw (make_user_code_error kind tid (Some e) "") else Throw e
  end.

Close Scope string_scope.

(** ** [std::vector] *)

(** [v[i]]: unchecked, undefined behaviour out of range. *)
Definition vec_get {A} (v : list A) (i : nat) : res A :=
  match v !! i with Some a => Ok a | None => Throw undefined_behavior end.

(** [v[i] = a]. *)
Definition vec_set {A} (v : list A) (i : nat) (a : A) : res (list A) :=
  match v !! i with Some _ => Ok (<[i := a]> v) | None => Throw undefined_behavior end.

Definition push_back {A} (v : list A) (a : A) : list A := v ++ [a].

(** [v.back()]. *)
Definition vec_back {A} (v : list A) : res A :=
  match last v with Some a => Ok a | None => Throw undefined_behavior end.

(** [v.pop_back()]. *)
Definition pop_back {A} (v : list A) : res (list A) :=
  match v with [] => Throw undefined_behavior | _ => Ok (take (length v - 1) v) end.

(** [if (n > v.size()) v.resize(n)]: grow with default elements, never shrink. *)
Definition grow {A} (n : nat) (d : A) (v : list A) : list A :=
  if decide (n ≤ length v) then v else resize n d v.

Section vectors.
Context {A : Type}.
Implicit Types (v : list A) (a d : A) (i n : nat).

Lemma vec_get_Ok v i a : v !! i = Some a → vec_get v i = Ok a.
Proof. unfold vec_get. by intros ->. Qed.

Lemma vec_get_inv v i a : vec_get v i = Ok a → v !! i = Some a.
Proof. unfold vec_get. by destruct (v !! i); intros; simplify_eq. Qed.

Lemma vec_set_Ok v i a : i < length v → vec_set v i a = Ok (<[i := a]> v).
Proof. intros [x Hx]%lookup_lt_is_Some. unfold vec_set. by rewrite Hx. Qed.

Lemma vec_set_inv v i a v' : vec_set v i a = Ok v' → i < length v ∧ v' = <[i := a]> v.
Proof.
  unfold vec_set. destruct (v !! i) eqn:E; [|done].
  intros [= <-]. split; [by eapply lookup_lt_Some|done].
Qed.

Lemma vec_back_snoc v a : vec_back (v ++ [a]) = Ok a.
Proof. unfold vec_back. by rewrite last_snoc. Qed.

Lemma pop_back_snoc v a : pop_back (v ++ [a]) = Ok v.
Proof.
  unfold pop_back. destruct (v ++ [a]) as [|x l] eqn:E; [by destruct v|].
  rewrite <-E, length_app. simpl. f_equal.
  replace (length v + 1 - 1) with (length v) by lia. apply take_app_length.
Qed.

Lemma length_grow n d v : length (grow n d v) = n `max` length v.
Proof. unfold grow. case_decide; [lia|]. rewrite length_resize. lia. Qed.

Lemma lookup_grow n d v i a : v !! i = Some a → grow n d v !! i = Some a.
Proof.
  intros Hi. unfold grow. case_decide; [done|].
  pose proof (lookup_lt_Some _ _ _ Hi).
  rewrite lookup_resize by lia. done.
Qed.

(** Growing never changes what a lookup with the default element returns. *)
Lemma lookup_grow_default n d v i : default d (grow n d v !! i) = default d (v !! i).
Proof.
  unfold grow. case_decide as Hn; [done|].
  destruct (decide (i < length v)) as [Hi|Hi].
  - rewrite lookup_resize by lia. done.
  - rewrite (lookup_ge_None_2 v i) by lia.
    destruct (decide (i < n)).
    + by rewrite lookup_resize_new by lia.
    + by rewrite lookup_resize_old by lia.
Qed.

Lemma lookup_insert_default v i j a d :
  i < length v →
  default d (<[i := a]> v !! j) = if decide (i = j) then a else default d (v !! j).
Proof.
  intros Hi. case_decide as E; subst.
  - by rewrite list_lookup_insert_eq.
  - by rewrite list_lookup_insert_ne.
Qed.

Lemma lookup_default_Some v i d : i < length v → v !! i = Some (default d (v !! i)).
Proof. intros [x Hx]%lookup_lt_is_Some. by rewrite Hx. Qed.

End vectors.

(** ** The theorems *)

Create HintDb dpor.
#[export] Hint Resolve vec_get_Ok vec_set_Ok lookup_grow : dpor.
