(* ===== verification/Event.v ===== *)
(** * Event: the event layer of [dpor/model/event.hpp]

    Thread ids and event indices are 32-bit unsigned integers, here [N] with the
    bounds written out; event ids are vector positions, here [nat].  The payload
    type [V] is a parameter, as [ValueT] is in the source.  A receive matcher is a
    user callback: a function from a payload to a [bool] that may throw. *)

From stdpp Require Import base tactics numbers list strings.
From S2P Require Import Prelude Errors.

Abbreviation ThreadId := N.
Abbreviation EventIndex := N.
Abbreviation EventId := nat.

(** [std::numeric_limits<EventIndex>::max()]. *)
Definition kMaxIndex : EventIndex := 4294967295.

(** Upper bound on thread ids accepted by the graph layer: [(1U << 20U) - 1U]. *)
Definition kMaxThreadId : ThreadId := N.shiftl 1 20 - 1.

Inductive CommunicationModel := Async | FifoP2P.

Inductive ReceiveMode := Blocking | NonBlocking.

#[export] Instance CommunicationModel_eq_dec : EqDecision CommunicationModel.
Proof. solve_decision. Defined.

#[export] Instance ReceiveMode_eq_dec : EqDecision ReceiveMode.
Proof. solve_decision. Defined.

(** What a thread observes: a payload, or bottom
    ([std::variant<ValueT, BottomValue>]). *)
Inductive ObservedValue (V : Type) : Type :=
| Observed (v : V)
| BottomValue.
Arguments Observed {V} v.
Arguments BottomValue {V}.

#[export] Instance ObservedValue_eq_dec {V} `{EqDecision V} : EqDecision (ObservedValue V).
Proof. solve_decision. Defined.

Record ReceiveLabel (V : Type) : Type := MkReceiveLabel {
  mode : ReceiveMode;
  matches : V → res bool;
}.
Arguments MkReceiveLabel {V} mode matches.
Arguments mode {V} r.
Arguments matches {V} r v.

Record SendLabel (V : Type) : Type := MkSendLabel {
  destination : ThreadId;
  value : V;
}.
Arguments MkSendLabel {V} destination value.
Arguments destination {V} s.
Arguments value {V} s.

Record NondeterministicChoiceLabel (V : Type) : Type := MkNdLabel {
  nd_value : V;
  choices : list V;
}.
Arguments MkNdLabel {V} nd_value choices.
Arguments nd_value {V} n.
Arguments choices {V} n.

(** [EventLabelT]: the variant of the five label kinds. *)
Inductive EventLabel (V : Type) : Type :=
| LReceive (r : ReceiveLabel V)
| LSend (s : SendLabel V)
| LNd (n : NondeterministicChoiceLabel V)
| LBlock
| LError (message : string).
Arguments LReceive {V} r.
Arguments LSend {V} s.
Arguments LNd {V} n.
Arguments LBlock {V}.
Arguments LError {V} message.

Record Event (V : Type) : Type := MkEvent {
  thread : ThreadId;
  index : EventIndex;
  label : EventLabel V;
}.
Arguments MkEvent {V} thread index label.
Arguments thread {V} e.
Arguments index {V} e.
Arguments label {V} e.

Section event.
Context {V : Type}.
Implicit Types (v : V) (o : ObservedValue V) (r : ReceiveLabel V) (e : Event V).

(** ** Observed values *)

Definition is_bottom o : bool :=
  match o with BottomValue => true | Observed _ => false end.

Definition as_value o : option V :=
  match o with Observed v => Some v | BottomValue => None end.

Definition observed_value o : res V :=
  match as_value o with
  | None => Throw (precondition_error "observed value is bottom")
  | Some v => Ok v
  end.

(** [operator==(const ValueT&)]. *)
Definition observed_eq_value `{EqDecision V} o v : bool :=
  match as_value o with Some w => bool_decide (w = v) | None => false end.

(** ** Receive labels *)

Definition is_blocking r : bool := bool_decide (mode r = Blocking).

Definition is_nonblocking r : bool := bool_decide (mode r = NonBlocking).

(** The single choke point for invoking the user-provided matcher: whatever it
    throws surfaces as a [user_code_error]. *)
Definition accepts r v : res bool := invoke_user_code ReceiveMatcher None (matches r v).

Definition match_any_value : V → res bool := λ _, Ok true.

Definition make_receive_label (matcher : V → res bool) (m : ReceiveMode) : ReceiveLabel V :=
  MkReceiveLabel m matcher.

Definition make_nonblocking_receive_label (matcher : V → res bool) : ReceiveLabel V :=
  make_receive_label matcher NonBlocking.

Definition make_receive_label_from_values `{EqDecision V} (accepted_values : list V)
    (m : ReceiveMode) : ReceiveLabel V :=
  make_receive_label (λ candidate, Ok (bool_decide (candidate ∈ accepted_values))) m.

(** ** Kinds of events *)

Definition as_receive e : option (ReceiveLabel V) :=
  match label e with LReceive r => Some r | _ => None end.

Definition as_send e : option (SendLabel V) :=
  match label e with LSend s => Some s | _ => None end.

Definition as_nondeterministic_choice e : option (NondeterministicChoiceLabel V) :=
  match label e with LNd n => Some n | _ => None end.

Definition as_block e : option unit :=
  match label e with LBlock => Some tt | _ => None end.

Definition as_error e : option string :=
  match label e with LError m => Some m | _ => None end.

Definition is_receive e : bool := match label e with LReceive _ => true | _ => false end.
Definition is_send e : bool := match label e with LSend _ => true | _ => false end.
Definition is_nondeterministic_choice e : bool :=
  match label e with LNd _ => true | _ => false end.
Definition is_block e : bool := match label e with LBlock => true | _ => false end.
Definition is_error e : bool := match label e with LError _ => true | _ => false end.

(** ** Matchers that do not throw *)

(** The verdict of a matcher, with a throwing matcher read as a refusal. *)
Definition accepts_pure r v : bool :=
  match accepts r v with Ok b => b | Throw _ => false end.

(** A label whose matcher, if it has one, returns on every payload. *)
Definition total_label (l : EventLabel V) : Prop :=
  match l with LReceive r => ∀ v, ∃ b, matches r v = Ok b | _ => True end.

Definition total_events (es : list (Event V)) : Prop :=
  ∀ i e, es !! i = Some e → total_label (label e).

(** *** Lemmas *)

Lemma as_receive_Some e r : as_receive e = Some r ↔ label e = LReceive r.
Proof. unfold as_receive. destruct (label e); split; intros; by simplify_eq. Qed.

Lemma as_send_Some e s : as_send e = Some s ↔ label e = LSend s.
Proof. unfold as_send. destruct (label e); split; intros; by simplify_eq. Qed.

Lemma is_receive_as e : is_receive e = bool_decide (is_Some (as_receive e)).
Proof. unfold is_receive, as_receive. by destruct (label e). Qed.

Lemma is_send_as e : is_send e = bool_decide (is_Some (as_send e)).
Proof. unfold is_send, as_send. by destruct (label e). Qed.

Lemma is_receive_true e : is_receive e = true ↔ ∃ r, as_receive e = Some r.
Proof. unfold is_receive, as_receive. destruct (label e); naive_solver. Qed.

Lemma is_send_true e : is_send e = true ↔ ∃ s, as_send e = Some s.
Proof. unfold is_send, as_send. destruct (label e); naive_solver. Qed.

Lemma is_receive_not_send e : is_receive e = true → is_send e = false.
Proof. unfold is_receive, is_send. by destruct (label e). Qed.

Lemma accepts_total l r v :
  total_label l → l = LReceive r → accepts r v = Ok (accepts_pure r v).
Proof.
  intros Ht ->. destruct (Ht v) as [b Hb]. unfold accepts_pure, accepts. by rewrite Hb.
Qed.

Lemma as_receive_total es i e r v :
  total_events es → es !! i = Some e → as_receive e = Some r →
  accepts r v = Ok (accepts_pure r v).
Proof.
  intros Ht Hi Hr%as_receive_Some. eapply accepts_total; [by eapply Ht|done].
Qed.

Lemma total_events_app es1 es2 :
  total_events (es1 ++ es2) ↔ total_events es1 ∧ total_events es2.
Proof.
  unfold total_events. split.
  - intros H. split; intros i e Hi.
    + apply (H i). by apply lookup_app_l_Some.
    + apply (H (length es1 + i)). rewrite lookup_app_r by lia.
      by replace (length es1 + i - length es1) with i by lia.
  - intros [H1 H2] i e [Hi|[_ Hi]]%lookup_app_Some; eauto.
Qed.

(** Whatever a matcher does, [accepts] returns its verdict or throws a
    [user_code_error]. *)
Lemma accepts_outcome r v :
  (∃ b, matches r v = Ok b ∧ accepts r v = Ok b) ∨
  (∃ e : exn, matches r v = Throw e ∧ catchable e = false ∧ accepts r v = Throw e) ∨
  (∃ e e' : exn, matches r v = Throw e ∧ accepts r v = Throw e' ∧
     (e' = e ∧ is_Some (user_code_kind e) ∨
      e' = make_user_code_error ReceiveMatcher None (Some e) "")).
Proof.
  unfold accepts, invoke_user_code.
  destruct (matches r v) as [b|e]; [naive_solver|].
  destruct e; simpl; naive_solver.
Qed.

End event.

#[export] Hint Resolve as_receive_total : dpor.
