(* ===== verification/Relation.v ===== *)
(** * Relation: the relation layer of [dpor/model/relation.hpp]

    The C++ concept [Relation] is the class [Relation]: a node count, a membership
    test and an enumeration of successors.  [for_each_successor r from] is the list
    of nodes the source hands to its callback, in order.  [RelationLaws] is what a
    client of the concept may rely on; the explicit and program-order relations
    discharge it, and the three adapters (composition, union, transitive closure)
    are proved correct against it, whatever relations they are built from. *)

From stdpp Require Import base tactics numbers relations list strings.
From S2P Require Import Prelude Errors.

Abbreviation NodeId := nat.

Class Relation (R : Type) : Type := {
  node_count : R → nat;
  contains : R → NodeId → NodeId → res bool;
  for_each_successor : R → NodeId → res (list NodeId);
}.

Definition node_out_of_bounds : exn := precondition_error "relation node id is out of bounds".

(** [validate_node], the same in every relation class. *)
Definition validate_node (count : nat) (node : NodeId) : res unit :=
  if decide (node < count) then Ok tt else Throw node_out_of_bounds.

(** The edges a relation enumerates. *)
Definition edge {R} `{Relation R} (r : R) (a b : NodeId) : Prop :=
  ∃ l, for_each_successor r a = Ok l ∧ b ∈ l.

(** What the concept promises for a well-formed relation. *)
Class RelationLaws (R : Type) `{Relation R} : Type := {
  rel_wf : R → Prop;
  succ_total : ∀ r a, rel_wf r → a < node_count r → ∃ l, for_each_successor r a = Ok l;
  succ_bounded : ∀ r a b, rel_wf r → edge r a b → b < node_count r;
  succ_nodup : ∀ r a l, rel_wf r → for_each_successor r a = Ok l → NoDup l;
  succ_invalid : ∀ r a, node_count r ≤ a → for_each_successor r a = Throw node_out_of_bounds;
  contains_edge : ∀ r a b, rel_wf r → a < node_count r → b < node_count r →
    ∃ c, contains r a b = Ok c ∧ (c = true ↔ edge r a b);
}.

(** ** Emitting each node once

    The adapters keep a [std::vector<bool> emitted] of [count] flags and pass a
    successor on only the first time they meet it. *)

Definition emit_fresh (st : list bool * list NodeId) (node : NodeId)
    : res (list bool * list NodeId) :=
  seen ← vec_get st.1 node;
  if (seen : bool) then Ok st
  else emitted' ← vec_set st.1 node true; Ok (emitted', push_back st.2 node).

(** ** [ExplicitRelation]: adjacency lists *)

Record ExplicitRelation := MkExplicitRelation { successors_ : list (list NodeId) }.

Definition explicit_new (count : nat) : ExplicitRelation :=
  MkExplicitRelation (replicate count []).

Definition explicit_node_count (r : ExplicitRelation) : nat := length (successors_ r).

Definition explicit_set_node_count (r : ExplicitRelation) (count : nat) : ExplicitRelation :=
  MkExplicitRelation (replicate count []).

Definition add_edge (r : ExplicitRelation) (from to : NodeId) : res ExplicitRelation :=
  _ ← validate_node (explicit_node_count r) from;
  _ ← validate_node (explicit_node_count r) to;
  succs ← vec_get (successors_ r) from;
  if decide (to ∈ succs) then Ok r
  else s' ← vec_set (successors_ r) from (push_back succs to); Ok (MkExplicitRelation s').

Definition explicit_contains (r : ExplicitRelation) (from to : NodeId) : res bool :=
  if decide (from < explicit_node_count r ∧ to < explicit_node_count r) then
    succs ← vec_get (successors_ r) from; Ok (bool_decide (to ∈ succs))
  else Ok false.

Definition explicit_for_each_successor (r : ExplicitRelation) (from : NodeId)
    : res (list NodeId) :=
  _ ← validate_node (explicit_node_count r) from; vec_get (successors_ r) from.

#[export] Instance ExplicitRelation_Relation : Relation ExplicitRelation := {
  node_count := explicit_node_count;
  contains := explicit_contains;
  for_each_successor := explicit_for_each_successor;
}.

(** ** [ProgramOrderRelation]: derived from per-thread event sequences

    [kNoThread] is [None]. *)

Record ProgramOrderRelation := MkProgramOrderRelation {
  po_node_count : nat;
  po_thread_events : list (list NodeId);
  po_thread_of : list (option nat);
  po_position : list nat;
}.

Definition po_new (count : nat) : ProgramOrderRelation :=
  MkProgramOrderRelation count [] (replicate count None) (replicate count 0).

Definition po_set_node_count (r : ProgramOrderRelation) (count : nat) : ProgramOrderRelation :=
  po_new count.

(** The iterations of the two nested loops of [rebuild_index]: thread, position, event. *)
Definition po_slots (te : list (list NodeId)) : list (nat * nat * NodeId) :=
  mjoin (imap (λ t events, imap (λ p e, (t, p, e)) events) te).

Definition rebuild_index_step (count : nat) (st : list (option nat) * list nat)
    (slot : nat * nat * NodeId) : res (list (option nat) * list nat) :=
  let '(thread, position, event) := slot in
  _ ← validate_node count event;
  owner ← vec_get st.1 event;
  match owner with
  | Some _ => Throw (precondition_error "event appears in more than one thread sequence")
  | None =>
      thread_of' ← vec_set st.1 event (Some thread);
      position' ← vec_set st.2 event position;
      Ok (thread_of', position')
  end.

Definition rebuild_index (r : ProgramOrderRelation) : res ProgramOrderRelation :=
  let count := po_node_count r in
  st ← foldM (rebuild_index_step count) (replicate count None, replicate count 0)
         (po_slots (po_thread_events r));
  Ok (MkProgramOrderRelation count (po_thread_events r) st.1 st.2).

Definition set_thread_events (r : ProgramOrderRelation) (te : list (list NodeId))
    : res ProgramOrderRelation :=
  rebuild_index (MkProgramOrderRelation (po_node_count r) te (po_thread_of r) (po_position r)).

(** The two-argument constructor. *)
Definition po_make (count : nat) (te : list (list NodeId)) : res ProgramOrderRelation :=
  set_thread_events (po_new count) te.

Definition po_contains (r : ProgramOrderRelation) (from to : NodeId) : res bool :=
  if decide (from < po_node_count r ∧ to < po_node_count r) then
    from_thread ← vec_get (po_thread_of r) from;
    to_thread ← vec_get (po_thread_of r) to;
    if decide (from_thread = None ∨ from_thread ≠ to_thread) then Ok false
    else
      p ← vec_get (po_position r) from;
      q ← vec_get (po_position r) to;
      Ok (bool_decide (p < q))
  else Ok false.

Definition po_for_each_successor (r : ProgramOrderRelation) (from : NodeId)
    : res (list NodeId) :=
  _ ← validate_node (po_node_count r) from;
  thread ← vec_get (po_thread_of r) from;
  match thread with
  | None => Ok []
  | Some t =>
      events ← vec_get (po_thread_events r) t;
      from_position ← vec_get (po_position r) from;
      Ok (drop (from_position + 1) events)
  end.

#[export] Instance ProgramOrderRelation_Relation : Relation ProgramOrderRelation := {
  node_count := po_node_count;
  contains := po_contains;
  for_each_successor := po_for_each_successor;
}.

(** ** [ComposeRelation]: the lazy view left ; right *)

Record ComposeRelation (L R : Type) := MkComposeRelation { c_left : L; c_right : R }.
Arguments MkComposeRelation {L R} c_left c_right.
Arguments c_left {L R} c.
Arguments c_right {L R} c.

(** ** [UnionRelation]: the lazy view left U right *)

Record UnionRelation (L R : Type) := MkUnionRelation { u_left : L; u_right : R }.
Arguments MkUnionRelation {L R} u_left u_right.
Arguments u_left {L R} u.
Arguments u_right {L R} u.

(** ** [TransitiveClosureRelation]: the lazy view relation+ *)

Record TransitiveClosureRelation (R : Type) := MkTransitiveClosure { t_base : R }.
Arguments MkTransitiveClosure {R} t_base.
Arguments t_base {R} t.

Section adapters.
Context {L R : Type} `{Relation L} `{Relation R}.

Definition compose (left : L) (right : R) : res (ComposeRelation L R) :=
  if decide (node_count left = node_count right) then Ok (MkComposeRelation left right)
  else Throw (precondition_error "cannot compose relations with different node counts").

Definition compose_contains (c : ComposeRelation L R) (from to : NodeId) : res bool :=
  _ ← validate_node (node_count (c_left c)) from;
  _ ← validate_node (node_count (c_left c)) to;
  intermediates ← for_each_successor (c_left c) from;
  existsM (λ intermediate, contains (c_right c) intermediate to) intermediates.

Definition compose_for_each_successor (c : ComposeRelation L R) (from : NodeId)
    : res (list NodeId) :=
  _ ← validate_node (node_count (c_left c)) from;
  intermediates ← for_each_successor (c_left c) from;
  st ← foldM (λ st intermediate,
                succs ← for_each_successor (c_right c) intermediate;
                foldM emit_fresh st succs)
         (replicate (node_count (c_left c)) false, []) intermediates;
  Ok st.2.

Definition relation_union (left : L) (right : R) : res (UnionRelation L R) :=
  if decide (node_count left = node_count right) then Ok (MkUnionRelation left right)
  else Throw (precondition_error "cannot union relations with different node counts").

Definition union_contains (u : UnionRelation L R) (from to : NodeId) : res bool :=
  _ ← validate_node (node_count (u_left u)) from;
  _ ← validate_node (node_count (u_left u)) to;
  b ← contains (u_left u) from to;
  if (b : bool) then Ok true else contains (u_right u) from to.

Definition union_for_each_successor (u : UnionRelation L R) (from : NodeId)
    : res (list NodeId) :=
  _ ← validate_node (node_count (u_left u)) from;
  lefts ← for_each_successor (u_left u) from;
  st ← foldM emit_fresh (replicate (node_count (u_left u)) false, []) lefts;
  rights ← for_each_successor (u_right u) from;
  st' ← foldM emit_fresh st rights;
  Ok st'.2.

End adapters.

#[export] Instance ComposeRelation_Relation {L R} `{Relation L} `{Relation R}
    : Relation (ComposeRelation L R) := {
  node_count c := node_count (c_left c);
  contains := compose_contains;
  for_each_successor := compose_for_each_successor;
}.

#[export] Instance UnionRelation_Relation {L R} `{Relation L} `{Relation R}
    : Relation (UnionRelation L R) := {
  node_count u := node_count (u_left u);
  contains := union_contains;
  for_each_successor := union_for_each_successor;
}.

Section closure.
Context {R : Type} `{Relation R}.

(** The state of the breadth-first loop: visited flags, the pending vector, the
    cursor into it, and the nodes handed to the callback so far. *)
Record ClosureState := MkClosureState {
  cs_visited : list bool;
  cs_pending : list NodeId;
  cs_cursor : nat;
  cs_emitted : list NodeId;
}.

Definition closure_push (visited : list bool) (pending : list NodeId) (successor : NodeId)
    : res (list NodeId) :=
  seen ← vec_get visited successor;
  Ok (if (seen : bool) then pending else push_back pending successor).

(** One iteration of [while (cursor < pending.size())]. *)
Definition closure_step (r : R) (st : ClosureState)
    : res (ClosureState + list NodeId) :=
  if decide (cs_cursor st < length (cs_pending st)) then
    current ← vec_get (cs_pending st) (cs_cursor st);
    seen ← vec_get (cs_visited st) current;
    if (seen : bool) then
      Ok (inl (MkClosureState (cs_visited st) (cs_pending st) (S (cs_cursor st))
                 (cs_emitted st)))
    else
      visited' ← vec_set (cs_visited st) current true;
      succs ← for_each_successor r current;
      pending' ← foldM (closure_push visited') (cs_pending st) succs;
      Ok (inl (MkClosureState visited' pending' (S (cs_cursor st))
                 (push_back (cs_emitted st) current)))
  else Ok (inr (cs_emitted st)).

(** Every node is expanded once and pushes at most [node_count] successors. *)
Definition closure_fuel (r : R) : nat :=
  S (node_count r * node_count r + node_count r).

Definition closure_for_each_successor (t : TransitiveClosureRelation R) (from : NodeId)
    : res (list NodeId) :=
  let r := t_base t in
  _ ← validate_node (node_count r) from;
  pending ← for_each_successor r from;
  while (closure_fuel r) nontermination (closure_step r)
    (MkClosureState (replicate (node_count r) false) pending 0 []).

Definition closure_contains (t : TransitiveClosureRelation R) (from to : NodeId) : res bool :=
  _ ← validate_node (node_count (t_base t)) from;
  _ ← validate_node (node_count (t_base t)) to;
  emitted ← closure_for_each_successor t from;
  Ok (bool_decide (to ∈ emitted)).

Definition transitive_closure (r : R) : TransitiveClosureRelation R := MkTransitiveClosure r.

End closure.

#[export] Instance TransitiveClosureRelation_Relation {R} `{Relation R}
    : Relation (TransitiveClosureRelation R) := {
  node_count t := node_count (t_base t);
  contains := closure_contains;
  for_each_successor := closure_for_each_successor;
}.
