(* ===== verification/RelationFacts.v ===== *)
(** * RelationFacts: correctness of the relation layer

    The explicit and program-order relations satisfy the laws of the concept, and
    the adapters denote composition, union and transitive closure for every pair of
    lawful operands.  The breadth-first closure loop terminates. *)

From stdpp Require Import base tactics numbers relations list strings.
From S2P Require Import Prelude Errors Relation.

Lemma validate_node_Ok count node : node < count → validate_node count node = Ok tt.
Proof. intros. unfold validate_node. by rewrite decide_True. Qed.

Lemma validate_node_Throw count node :
  count ≤ node → validate_node count node = Throw node_out_of_bounds.
Proof. intros. unfold validate_node. rewrite decide_False by lia. done. Qed.

Lemma edge_succ {R} `{Relation R} (r : R) a l b :
  for_each_successor r a = Ok l → (edge r a b ↔ b ∈ l).
Proof. unfold edge. intros ->. split; [intros (?&[= <-]&?); done | eauto]. Qed.

(** ** The [emitted] flags *)

Definition flags_ok (n : nat) (flags : list bool) (out : list NodeId) : Prop :=
  length flags = n ∧ NoDup out ∧ (∀ x, flags !! x = Some true ↔ x ∈ out).

Lemma flags_ok_init n : flags_ok n (replicate n false) [].
Proof.
  split_and!; [apply length_replicate|constructor|]. intros x.
  rewrite lookup_replicate. set_solver.
Qed.

Lemma flags_ok_bound n flags out x : flags_ok n flags out → x ∈ out → x < n.
Proof.
  intros (Hl & _ & Hx) Hin. apply Hx in Hin. rewrite <-Hl. by eapply lookup_lt_Some.
Qed.

Lemma flags_ok_false n flags out x :
  flags_ok n flags out → x < n → x ∉ out → flags !! x = Some false.
Proof.
  intros (Hl & _ & Hx) Hlt Hni. destruct (flags !! x) as [[]|] eqn:E; [|done|].
  - by apply Hx in E.
  - apply lookup_ge_None in E. lia.
Qed.

Lemma flags_ok_set n flags out x :
  flags_ok n flags out → x < n → x ∉ out →
  vec_set flags x true = Ok (<[x := true]> flags) ∧
  flags_ok n (<[x := true]> flags) (out ++ [x]).
Proof.
  intros Hok Hlt Hni. destruct Hok as (Hl & Hnd & Hx).
  split; [apply vec_set_Ok; lia|].
  split_and!.
  - by rewrite length_insert.
  - apply NoDup_app. split_and!; [done|set_solver|]. apply NoDup_singleton.
  - intros y. destruct (decide (x = y)) as [->|Hne].
    + rewrite list_lookup_insert_eq by lia. set_solver.
    + rewrite list_lookup_insert_ne by done. rewrite Hx. set_solver.
Qed.

Lemma emit_fresh_spec n flags out x :
  flags_ok n flags out → x < n →
  ∃ flags' out', emit_fresh (flags, out) x = Ok (flags', out') ∧ flags_ok n flags' out' ∧
    (∀ y, y ∈ out' ↔ y ∈ out ∨ y = x).
Proof.
  intros Hok Hlt. unfold emit_fresh. simpl. destruct (decide (x ∈ out)) as [Hin|Hni].
  - pose proof Hok as (_ & _ & Hx). apply Hx in Hin as E.
    rewrite (vec_get_Ok _ _ _ E). simpl. exists flags, out. set_solver.
  - rewrite (vec_get_Ok _ _ _ (flags_ok_false _ _ _ _ Hok Hlt Hni)). simpl.
    destruct (flags_ok_set _ _ _ _ Hok Hlt Hni) as [-> Hok']. simpl.
    eexists _, _. split_and!; [done|done|]. unfold push_back. set_solver.
Qed.

Lemma emit_all_spec n flags out l :
  flags_ok n flags out → Forall (λ x, x < n) l →
  ∃ flags' out', foldM emit_fresh (flags, out) l = Ok (flags', out') ∧
    flags_ok n flags' out' ∧ (∀ y, y ∈ out' ↔ y ∈ out ∨ y ∈ l).
Proof.
  intros Hok Hl. revert flags out Hok.
  induction Hl as [|x l Hx Hl IH]; intros flags out Hok; simpl.
  - exists flags, out. set_solver.
  - destruct (emit_fresh_spec _ _ _ _ Hok Hx) as (f1 & o1 & -> & Hok1 & Hin1). simpl.
    destruct (IH _ _ Hok1) as (f2 & o2 & -> & Hok2 & Hin2).
    exists f2, o2. split_and!; [done|done|]. set_solver.
Qed.

(** ** Explicit relations *)

Definition explicit_wf (r : ExplicitRelation) : Prop :=
  ∀ a l, successors_ r !! a = Some l → NoDup l ∧ Forall (λ b, b < explicit_node_count r) l.

Lemma explicit_succ (r : ExplicitRelation) a l :
  for_each_successor r a = Ok l ↔ successors_ r !! a = Some l.
Proof.
  unfold for_each_successor. simpl. unfold explicit_for_each_successor, validate_node.
  case_decide as Ha; simpl.
  - split; [apply vec_get_inv|apply vec_get_Ok].
  - split; [done|]. intros Hl%lookup_lt_Some. by unfold explicit_node_count in Ha.
Qed.

#[export] Program Instance ExplicitRelation_laws : RelationLaws ExplicitRelation := {
  rel_wf := explicit_wf;
}.
Next Obligation.
  intros r a _ Ha. apply lookup_lt_is_Some in Ha as [l Hl].
  exists l. by apply explicit_succ.
Qed.
Next Obligation.
  intros r a b Hwf (l & Hl%explicit_succ & Hb).
  destruct (Hwf a l Hl) as [_ HF]. by eapply Forall_forall in HF.
Qed.
Next Obligation. intros r a l Hwf Hl%explicit_succ. by eapply Hwf. Qed.
Next Obligation.
  intros r a Ha. simpl. unfold explicit_for_each_successor.
  by rewrite validate_node_Throw.
Qed.
Next Obligation.
  intros r a b Hwf Ha Hb. simpl. unfold explicit_contains. rewrite decide_True by done.
  apply lookup_lt_is_Some in Ha as [l Hl]. rewrite (vec_get_Ok _ _ _ Hl). simpl.
  eexists; split; [done|]. rewrite bool_decide_eq_true.
  by rewrite (edge_succ r a l b (proj2 (explicit_succ r a l) Hl)).
Qed.

Lemma explicit_new_wf n : explicit_wf (explicit_new n).
Proof.
  intros a l. simpl. rewrite lookup_replicate. intros [-> _]. split; constructor.
Qed.

Lemma explicit_new_edge n a b : ¬ edge (explicit_new n) a b.
Proof.
  intros (l & Hl%explicit_succ & Hb). simpl in Hl.
  rewrite lookup_replicate in Hl. destruct Hl as [-> _]. set_solver.
Qed.

(** [add_edge] adds exactly one edge and keeps the adjacency lists duplicate free. *)
Lemma add_edge_spec (r : ExplicitRelation) from to :
  explicit_wf r → from < node_count r → to < node_count r →
  ∃ r', add_edge r from to = Ok r' ∧ explicit_wf r' ∧ node_count r' = node_count r ∧
    ∀ a b, edge r' a b ↔ edge r a b ∨ (a = from ∧ b = to).
Proof.
  intros Hwf Hf Ht. simpl in *. unfold add_edge.
  rewrite !validate_node_Ok by done. simpl.
  destruct (lookup_lt_is_Some_2 _ _ Hf) as [l Hl]. rewrite (vec_get_Ok _ _ _ Hl). simpl.
  destruct (Hwf _ _ Hl) as [Hnd HF].
  case_decide as Hin.
  { exists r. split_and!; [done..|]. intros a b. split; [by left|].
    intros [?|[-> ->]]; [done|]. exists l. by rewrite explicit_succ. }
  rewrite vec_set_Ok by done. simpl. unfold push_back.
  set (r' := MkExplicitRelation (<[from:=l ++ [to]]> (successors_ r))).
  assert (Hlook : ∀ a, successors_ r' !! a =
                       if decide (a = from) then Some (l ++ [to]) else successors_ r !! a).
  { intros a. simpl. case_decide; subst; [by rewrite list_lookup_insert_eq|].
    by rewrite list_lookup_insert_ne. }
  assert (Hlen : explicit_node_count r' = explicit_node_count r).
  { unfold explicit_node_count. simpl. by rewrite length_insert. }
  exists r'. split_and!; [done| |done|].
  - intros a k Hk. rewrite Hlook in Hk. rewrite Hlen. case_decide; simplify_eq; [|by eapply Hwf].
    split; [apply NoDup_app; split_and!; [done|set_solver|apply NoDup_singleton]|].
    apply Forall_app. split; [done|]. by constructor.
  - intros a b. unfold edge. setoid_rewrite explicit_succ. rewrite Hlook.
    case_decide; subst; [|naive_solver]. rewrite Hl. split.
    + intros (k & [= <-] & [Hb|Hb]%elem_of_app); [by left; exists l|right; set_solver].
    + intros [(k & [= <-] & Hb)|[_ ->]]; exists (l ++ [to]); set_solver.
Qed.

(** ** Program order *)

(** Position [p] of thread sequence [t] holds event [e]. *)
Definition po_at (te : list (list NodeId)) (t p : nat) (e : NodeId) : Prop :=
  ∃ events, te !! t = Some events ∧ events !! p = Some e.

Lemma po_slots_elem te t p e : (t, p, e) ∈ po_slots te ↔ po_at te t p e.
Proof.
  unfold po_slots, po_at. rewrite list_elem_of_join. split.
  - intros (l & Hin & (t' & events & -> & Ht)%elem_of_lookup_imap).
    apply elem_of_lookup_imap in Hin as (p' & e' & [= <- <- <-] & Hp). eauto.
  - intros (events & Ht & Hp). exists (imap (λ p e, (t, p, e)) events).
    split; apply elem_of_lookup_imap; eauto.
Qed.

(** The index arrays describe exactly the slots in [P]. *)
Definition po_index_ok (count : nat) (P : nat → nat → NodeId → Prop)
    (st : list (option nat) * list nat) : Prop :=
  length st.1 = count ∧ length st.2 = count ∧
  ∀ t p e, P t p e ↔ st.1 !! e = Some (Some t) ∧ st.2 !! e = Some p.

Definition po_wf (r : ProgramOrderRelation) : Prop :=
  po_index_ok (po_node_count r) (po_at (po_thread_events r)) (po_thread_of r, po_position r).

Lemma rebuild_index_step_ok count L st st' t p e :
  po_index_ok count (λ t p e, (t, p, e) ∈ L) st →
  rebuild_index_step count st (t, p, e) = Ok st' →
  po_index_ok count (λ t' p' e', (t', p', e') ∈ L ++ [(t, p, e)]) st'.
Proof.
  intros (Hl1 & Hl2 & HL). unfold rebuild_index_step, validate_node.
  case_decide as He; simpl; [|done].
  destruct (lookup_lt_is_Some_2 st.1 e ltac:(lia)) as [o Ho].
  rewrite (vec_get_Ok _ _ _ Ho). simpl. destruct o as [t0|]; [done|].
  rewrite !vec_set_Ok by lia. simpl. intros [= <-]. split_and!.
  1-2: simpl; by rewrite length_insert.
  intros t' p' e'. rewrite elem_of_app, list_elem_of_singleton, HL. simpl.
  destruct (decide (e = e')) as [<-|Hne].
  - rewrite !list_lookup_insert_eq, Ho by lia. naive_solver.
  - rewrite !list_lookup_insert_ne by done. naive_solver.
Qed.

Lemma rebuild_index_wf r r' : rebuild_index r = Ok r' → po_wf r' ∧
  po_node_count r' = po_node_count r ∧ po_thread_events r' = po_thread_events r.
Proof.
  unfold rebuild_index. intros Hr. inv_bind. simpl. split_and!; [|done..].
  eapply (foldM_Ok_inv _ (λ L, po_index_ok _ (λ t p e, (t, p, e) ∈ L))) in Hv.
  - unfold po_wf. simpl. destruct v as [tof pos]. simpl in *.
    destruct Hv as (? & ? & HL). split_and!; [done..|].
    intros. by rewrite <-po_slots_elem, HL.
  - split_and!; simpl; [by rewrite length_replicate..|].
    intros t p e. rewrite !lookup_replicate. set_solver.
  - intros l1 [[t p] e] l2 s s' _ HI Hs. by eapply rebuild_index_step_ok.
Qed.

(** The constructor succeeds when every event is in range and occurs once. *)
Lemma rebuild_index_total r :
  Forall (λ slot, slot.2 < po_node_count r) (po_slots (po_thread_events r)) →
  NoDup (snd <$> po_slots (po_thread_events r)) →
  ∃ r', rebuild_index r = Ok r'.
Proof.
  intros HF Hnd. unfold rebuild_index.
  destruct (foldM_inv (rebuild_index_step (po_node_count r))
    (λ L, po_index_ok (po_node_count r) (λ t p e, (t, p, e) ∈ L))
    (po_slots (po_thread_events r))
    (replicate (po_node_count r) None, replicate (po_node_count r) 0))
    as (st & -> & _); [| |by eexists].
  - split_and!; simpl; [by rewrite length_replicate..|].
    intros t p e. rewrite !lookup_replicate. set_solver.
  - intros l1 [[t p] e] l2 st Hl HI.
    assert (He : e < po_node_count r).
    { rewrite Forall_forall in HF. apply (HF (t, p, e)). rewrite Hl. set_solver. }
    assert (Hfree : st.1 !! e = Some None).
    { destruct HI as (Hl1 & Hl2 & HL).
      destruct (lookup_lt_is_Some_2 st.1 e ltac:(lia)) as [[t0|] Ho]; [|done].
      destruct (lookup_lt_is_Some_2 st.2 e ltac:(lia)) as [p0 Hp].
      assert ((t0, p0, e) ∈ l1) as Hin by (by apply HL).
      rewrite Hl, fmap_app, fmap_cons in Hnd. apply NoDup_app in Hnd as (_ & Hdis & _).
      exfalso. apply (Hdis e); [|simpl; set_solver].
      apply list_elem_of_fmap. by exists (t0, p0, e). }
    assert (∃ st', rebuild_index_step (po_node_count r) st (t, p, e) = Ok st') as [st' Hst'].
    { destruct HI as (Hl1 & Hl2 & _). unfold rebuild_index_step.
      rewrite validate_node_Ok by done. simpl. rewrite (vec_get_Ok _ _ _ Hfree). simpl.
      rewrite !vec_set_Ok by lia. by eexists. }
    exists st'. split; [done|]. by eapply rebuild_index_step_ok.
Qed.

Lemma po_wf_inj r t p t' p' e :
  po_wf r → po_at (po_thread_events r) t p e → po_at (po_thread_events r) t' p' e →
  t = t' ∧ p = p'.
Proof. intros (_ & _ & HL) [H1 H2]%HL [H3 H4]%HL. by simplify_eq. Qed.

(** The successors a well-formed program order enumerates: the rest of the thread. *)
Lemma po_succ r a l :
  po_wf r → for_each_successor r a = Ok l →
  (po_thread_of r !! a = Some None ∧ l = []) ∨
  ∃ t events p, po_thread_events r !! t = Some events ∧ events !! p = Some a ∧
    l = drop (p + 1) events.
Proof.
  intros Hwf. simpl. unfold po_for_each_successor, validate_node.
  case_decide as Ha; simpl; [|done]. destruct Hwf as (Hl1 & Hl2 & HL); simpl in *.
  destruct (lookup_lt_is_Some_2 (po_thread_of r) a ltac:(lia)) as [o Ho].
  rewrite (vec_get_Ok _ _ _ Ho). simpl.
  destruct o as [t|]; [|intros [= <-]; by left].
  destruct (lookup_lt_is_Some_2 (po_position r) a ltac:(lia)) as [p Hp].
  destruct (proj2 (HL t p a) (conj Ho Hp)) as (events & Hte & Hev).
  rewrite (vec_get_Ok _ _ _ Hte). simpl. rewrite (vec_get_Ok _ _ _ Hp). simpl.
  intros [= <-]. right. eauto 10.
Qed.

(** Program order relates two events of one thread in sequence order. *)
Definition po_before (te : list (list NodeId)) (a b : NodeId) : Prop :=
  ∃ t p q, po_at te t p a ∧ po_at te t q b ∧ p < q.

Lemma po_edge r a b :
  po_wf r → edge r a b ↔ po_before (po_thread_events r) a b.
Proof.
  intros Hwf. split.
  - intros (l & Hl & Hb). destruct (po_succ r a l Hwf Hl) as [[_ ->]|(t&evs&p&Ht&Hp&->)].
    + set_solver.
    + apply list_elem_of_lookup in Hb as [i Hi]. rewrite lookup_drop in Hi.
      exists t, p, (p + 1 + i). split_and!; [by exists evs|by exists evs|lia].
  - intros (t & p & q & Ha & Hb & Hlt). pose proof Hwf as (Hl1 & Hl2 & HL).
    destruct (proj1 (HL _ _ _) Ha) as [Ho Hp]. destruct Ha as (evs & Ht & Hpa).
    destruct Hb as (evs' & Ht' & Hqb). simplify_eq. simpl in *.
    exists (drop (p + 1) evs). split.
    + simpl. unfold po_for_each_successor. rewrite validate_node_Ok
        by (rewrite <-Hl1; by eapply lookup_lt_Some). simpl.
      rewrite (vec_get_Ok _ _ _ Ho). simpl. rewrite (vec_get_Ok _ _ _ Ht). simpl.
      by rewrite (vec_get_Ok _ _ _ Hp).
    + apply list_elem_of_lookup. exists (q - (p + 1)). rewrite lookup_drop.
      by replace (p + 1 + (q - (p + 1))) with q by lia.
Qed.

Lemma po_bounded r t p e : po_wf r → po_at (po_thread_events r) t p e → e < po_node_count r.
Proof. intros (Hl & _ & HL) [He _]%HL. rewrite <-Hl. by eapply lookup_lt_Some. Qed.

#[export] Program Instance ProgramOrderRelation_laws : RelationLaws ProgramOrderRelation := {
  rel_wf := po_wf;
}.
Next Obligation.
  intros r a (Hl1 & Hl2 & HL) Ha. simpl in *. unfold po_for_each_successor.
  rewrite validate_node_Ok by done. simpl.
  destruct (lookup_lt_is_Some_2 (po_thread_of r) a ltac:(lia)) as [[t|] Ho];
    rewrite (vec_get_Ok _ _ _ Ho); simpl; [|by eexists].
  destruct (lookup_lt_is_Some_2 (po_position r) a ltac:(lia)) as [p Hp].
  destruct (proj2 (HL t p a) (conj Ho Hp)) as (events & Hte & _).
  rewrite (vec_get_Ok _ _ _ Hte). simpl. rewrite (vec_get_Ok _ _ _ Hp). by eexists.
Qed.
Next Obligation.
  intros r a b Hwf (t & p & q & _ & Hb & _)%po_edge; [|done]. by eapply po_bounded.
Qed.
Next Obligation.
  intros r a l Hwf Hl. destruct (po_succ r a l Hwf Hl) as [[_ ->]|(t&evs&p&Ht&Hp&->)].
  - constructor.
  - apply NoDup_alt. intros i j x Hi Hj. rewrite lookup_drop in Hi, Hj.
    destruct (po_wf_inj r t (p + 1 + i) t (p + 1 + j) x Hwf) as [_ ?];
      [by exists evs|by exists evs|lia].
Qed.
Next Obligation.
  intros r a Ha. simpl. unfold po_for_each_successor. by rewrite validate_node_Throw.
Qed.
Next Obligation.
  intros r a b Hwf Ha Hb. setoid_rewrite po_edge; [|done]. simpl. unfold po_contains.
  rewrite decide_True by done. pose proof Hwf as (Hl1 & Hl2 & HL). simpl in *.
  destruct (lookup_lt_is_Some_2 (po_thread_of r) a ltac:(lia)) as [oa Hoa].
  destruct (lookup_lt_is_Some_2 (po_thread_of r) b ltac:(lia)) as [ob Hob].
  destruct (lookup_lt_is_Some_2 (po_position r) a ltac:(lia)) as [pa Hpa].
  destruct (lookup_lt_is_Some_2 (po_position r) b ltac:(lia)) as [pb Hpb].
  rewrite (vec_get_Ok _ _ _ Hoa), (vec_get_Ok _ _ _ Hob). simpl.
  rewrite (vec_get_Ok _ _ _ Hpa), (vec_get_Ok _ _ _ Hpb). simpl.
  case_decide as Hd; eexists; (split; [done|]).
  - split; [done|]. intros (t & p & q & [H1 _]%HL & [H2 _]%HL & _). simplify_eq.
    destruct Hd; congruence.
  - rewrite bool_decide_eq_true. destruct oa as [t|]; [|tauto].
    assert (ob = Some t) as -> by (destruct (decide (Some t = ob)); [done|tauto]).
    split.
    + intros Hlt. exists t, pa, pb. rewrite !HL. done.
    + intros (t' & p & q & [H1 H2]%HL & [H3 H4]%HL & Hlt). by simplify_eq.
Qed.

(** ** The adapters *)

Section adapter_facts.
Context {L R : Type} `{RelationLaws L} `{RelationLaws R}.
Implicit Types (c : ComposeRelation L R) (u : UnionRelation L R).

Lemma succ_Forall (r : R) a l :
  rel_wf r → for_each_successor r a = Ok l → Forall (λ x, x < node_count r) l.
Proof.
  intros Hwf Hl. apply Forall_forall. intros x Hx. apply (succ_bounded r a x Hwf).
  by exists l.
Qed.

Lemma succ_valid (r : R) a l : for_each_successor r a = Ok l → a < node_count r.
Proof.
  intros Hl. destruct (decide (a < node_count r)) as [|Hge]; [done|].
  by rewrite succ_invalid in Hl by lia.
Qed.

Definition compose_wf c : Prop :=
  rel_wf (c_left c) ∧ rel_wf (c_right c) ∧ node_count (c_left c) = node_count (c_right c).

Definition union_wf u : Prop :=
  rel_wf (u_left u) ∧ rel_wf (u_right u) ∧ node_count (u_left u) = node_count (u_right u).

End adapter_facts.

Section compose_facts.
Context {L R : Type} `{RelationLaws L} `{RelationLaws R}.
Implicit Types (c : ComposeRelation L R).

(** The enumeration of a composition: total, duplicate free, and exactly [left ; right]. *)
Lemma compose_succ_spec c a :
  compose_wf c → a < node_count c →
  ∃ l, for_each_successor c a = Ok l ∧ NoDup l ∧ Forall (λ x, x < node_count c) l ∧
    ∀ b, b ∈ l ↔ ∃ m, edge (c_left c) a m ∧ edge (c_right c) m b.
Proof.
  intros (HwL & HwR & Hn) Ha. simpl in *. unfold compose_for_each_successor.
  rewrite validate_node_Ok by done. simpl.
  destruct (succ_total (c_left c) a HwL Ha) as [ms Hms]. rewrite Hms. simpl.
  pose proof (succ_Forall _ _ _ HwL Hms) as HF.
  set (step := λ st m, succs ← for_each_successor (c_right c) m; foldM emit_fresh st succs).
  destruct (foldM_inv step (λ done st, flags_ok (node_count (c_left c)) st.1 st.2 ∧
      ∀ b, b ∈ st.2 ↔ ∃ m, m ∈ done ∧ edge (c_right c) m b)
    ms (replicate (node_count (c_left c)) false, [])) as ([fl out] & -> & Hok & Hin).
  - split; [apply flags_ok_init|]. intros b. simpl. set_solver.
  - intros l1 m l2 [fl out] -> (Hok & Hin). simpl in *. unfold step.
    apply Forall_app in HF as [_ [Hm _]%Forall_cons].
    destruct (succ_total (c_right c) m HwR ltac:(lia)) as [ss Hss]. rewrite Hss. simpl.
    destruct (emit_all_spec _ _ _ ss Hok) as (fl' & out' & -> & Hok' & Hin').
    { rewrite Hn. by apply succ_Forall with m. }
    eexists. split; [done|]. split; [done|]. intros b. simpl.
    rewrite Hin', Hin, <-(edge_succ (c_right c) m ss b Hss). set_solver.
  - simpl in *. exists out. split_and!; [done|apply Hok| |].
    + apply Forall_forall. intros x Hx. by eapply flags_ok_bound.
    + intros b. rewrite Hin. by setoid_rewrite (edge_succ (c_left c) a ms _ Hms).
Qed.

Lemma compose_edge c a b :
  compose_wf c → edge c a b ↔ ∃ m, edge (c_left c) a m ∧ edge (c_right c) m b.
Proof.
  intros Hwf. destruct (decide (a < node_count c)) as [Ha|Ha].
  - destruct (compose_succ_spec c a Hwf Ha) as (l & Hl & _ & _ & Hin).
    by rewrite (edge_succ c a l b Hl).
  - split.
    + intros (l & Hl & _). simpl in Hl. unfold compose_for_each_successor in Hl.
      rewrite validate_node_Throw in Hl by (simpl in Ha; lia). done.
    + intros (m & (l & Hl & _) & _). exfalso. apply Ha. simpl. by eapply succ_valid.
Qed.

#[export] Program Instance ComposeRelation_laws : RelationLaws (ComposeRelation L R) := {
  rel_wf := compose_wf;
}.
Next Obligation.
  intros c a Hwf Ha. destruct (compose_succ_spec c a Hwf Ha) as (l & Hl & _). by exists l.
Qed.
Next Obligation.
  intros c a b Hwf (m & _ & Hb)%compose_edge; [|done]. simpl.
  destruct Hwf as (_ & Hw & ->). by eapply succ_bounded.
Qed.
Next Obligation.
  intros c a l Hwf Hl. destruct (decide (a < node_count c)) as [Ha|Ha].
  - destruct (compose_succ_spec c a Hwf Ha) as (l' & Hl' & Hnd & _).
    rewrite Hl in Hl'. by simplify_eq.
  - simpl in *. unfold compose_for_each_successor in Hl.
    rewrite validate_node_Throw in Hl by lia. done.
Qed.
Next Obligation.
  intros c a Ha. simpl in *. unfold compose_for_each_successor.
  by rewrite validate_node_Throw.
Qed.
Next Obligation.
  intros c a b Hwf Ha Hb. setoid_rewrite compose_edge; [|done].
  destruct Hwf as (HwL & HwR & Hn). simpl in *. unfold compose_contains.
  rewrite !validate_node_Ok by done. simpl.
  destruct (succ_total (c_left c) a HwL Ha) as [ms Hms]. rewrite Hms. simpl.
  pose proof (succ_Forall _ _ _ HwL Hms) as HF.
  setoid_rewrite (edge_succ (c_left c) a ms _ Hms). clear Hms.
  induction HF as [|m ms Hm HF IH]; simpl; [exists false; set_solver|].
  destruct (contains_edge (c_right c) m b HwR ltac:(lia) ltac:(lia)) as (ct & -> & Hct).
  simpl. destruct ct.
  - exists true. split; [done|]. split; [|done]. intros _. exists m. set_solver.
  - destruct IH as (ct & -> & IH). exists ct. split; [done|]. rewrite IH.
    split; [set_solver|]. intros (m' & [->|Hm']%elem_of_cons & He); [|by eauto].
    by apply Hct in He.
Qed.

End compose_facts.

Section union_facts.
Context {L R : Type} `{RelationLaws L} `{RelationLaws R}.
Implicit Types (u : UnionRelation L R).

Lemma union_succ_spec u a :
  union_wf u → a < node_count u →
  ∃ l, for_each_successor u a = Ok l ∧ NoDup l ∧ Forall (λ x, x < node_count u) l ∧
    ∀ b, b ∈ l ↔ edge (u_left u) a b ∨ edge (u_right u) a b.
Proof.
  intros (HwL & HwR & Hn) Ha. simpl in *. unfold union_for_each_successor.
  rewrite validate_node_Ok by done. simpl.
  destruct (succ_total (u_left u) a HwL Ha) as [ls Hls]. rewrite Hls. simpl.
  destruct (succ_total (u_right u) a HwR ltac:(lia)) as [rs Hrs].
  destruct (emit_all_spec _ _ _ ls (flags_ok_init (node_count (u_left u)))
    (succ_Forall _ _ _ HwL Hls)) as (f1 & o1 & -> & Hok1 & Hin1). simpl.
  rewrite Hrs. simpl.
  destruct (emit_all_spec _ _ _ rs Hok1) as (f2 & o2 & -> & Hok2 & Hin2).
  { rewrite Hn. by apply succ_Forall with a. }
  exists o2. split_and!; [done|apply Hok2| |].
  - apply Forall_forall. intros x Hx. by eapply flags_ok_bound.
  - intros b. rewrite Hin2, Hin1, (edge_succ _ _ _ b Hls), (edge_succ _ _ _ b Hrs). set_solver.
Qed.

Lemma union_edge u a b :
  union_wf u → edge u a b ↔ edge (u_left u) a b ∨ edge (u_right u) a b.
Proof.
  intros Hwf. destruct (decide (a < node_count u)) as [Ha|Ha].
  - destruct (union_succ_spec u a Hwf Ha) as (l & Hl & _ & _ & Hin).
    by rewrite (edge_succ u a l b Hl).
  - destruct Hwf as (_ & _ & Hn). simpl in Ha. split.
    + intros (l & Hl & _). simpl in Hl. unfold union_for_each_successor in Hl.
      rewrite validate_node_Throw in Hl by lia. done.
    + intros [(l & Hl & _)|(l & Hl & _)]; apply succ_valid in Hl; lia.
Qed.

#[export] Program Instance UnionRelation_laws : RelationLaws (UnionRelation L R) := {
  rel_wf := union_wf;
}.
Next Obligation.
  intros u a Hwf Ha. destruct (union_succ_spec u a Hwf Ha) as (l & Hl & _). by exists l.
Qed.
Next Obligation.
  intros u a b Hwf He%union_edge; [|done]. simpl. destruct Hwf as (HwL & HwR & Hn).
  destruct He as [He|He]; [|rewrite Hn]; by eapply succ_bounded.
Qed.
Next Obligation.
  intros u a l Hwf Hl. destruct (decide (a < node_count u)) as [Ha|Ha].
  - destruct (union_succ_spec u a Hwf Ha) as (l' & Hl' & Hnd & _).
    rewrite Hl in Hl'. by simplify_eq.
  - simpl in *. unfold union_for_each_successor in Hl.
    rewrite validate_node_Throw in Hl by lia. done.
Qed.
Next Obligation.
  intros u a Ha. simpl in *. unfold union_for_each_successor.
  by rewrite validate_node_Throw.
Qed.
Next Obligation.
  intros u a b Hwf Ha Hb. setoid_rewrite union_edge; [|done].
  destruct Hwf as (HwL & HwR & Hn). simpl in *. unfold union_contains.
  rewrite !validate_node_Ok by done. simpl.
  destruct (contains_edge (u_left u) a b HwL ltac:(lia) ltac:(lia)) as (c1 & -> & Hc1).
  simpl. destruct c1; [naive_solver|].
  destruct (contains_edge (u_right u) a b HwR ltac:(lia) ltac:(lia)) as (c2 & -> & Hc2).
  naive_solver.
Qed.

End union_facts.

Section closure_facts.
Context {R : Type} `{RelationLaws R}.
Implicit Types (r : R) (st : ClosureState).

(** The invariant of the breadth-first loop started at [from]. *)
Record closure_inv r (from : NodeId) st : Prop := {
  ci_flags : flags_ok (node_count r) (cs_visited st) (cs_emitted st);
  ci_pending : ∀ x, x ∈ cs_pending st → tc (edge r) from x ∧ x < node_count r;
  ci_emitted : ∀ x, x ∈ cs_emitted st → x ∈ cs_pending st;
  ci_first : ∀ x, edge r from x → x ∈ cs_pending st;
  ci_closed : ∀ x y, x ∈ cs_emitted st → edge r x y → y ∈ cs_pending st;
  ci_done : ∀ x, x ∈ take (cs_cursor st) (cs_pending st) → x ∈ cs_emitted st;
  ci_cursor : cs_cursor st ≤ length (cs_pending st);
}.

(** Unexpanded nodes, weighted by what an expansion may push, plus the backlog. *)
Definition closure_measure r st : nat :=
  (node_count r - length (cs_emitted st)) * node_count r
  + (length (cs_pending st) - cs_cursor st).

Lemma closure_push_all n visited emitted pending succs :
  flags_ok n visited emitted → Forall (λ x, x < n) succs →
  ∃ extra, foldM (closure_push visited) pending succs = Ok (pending ++ extra) ∧
    length extra ≤ length succs ∧
    (∀ x, x ∈ extra → x ∈ succs) ∧ (∀ x, x ∈ succs → x ∈ extra ∨ x ∈ emitted).
Proof.
  intros Hok HF. revert pending. induction HF as [|x succs Hx HF IH]; intros pending; simpl.
  { exists []. rewrite app_nil_r. set_solver. }
  assert (closure_push visited pending x =
          Ok (if decide (x ∈ emitted) then pending else push_back pending x)) as ->.
  { unfold closure_push. case_decide as Hin.
    - apply Hok in Hin. by rewrite (vec_get_Ok _ _ _ Hin).
    - by rewrite (vec_get_Ok _ _ _ (flags_ok_false _ _ _ _ Hok Hx Hin)). }
  simpl. case_decide.
  - destruct (IH pending) as (extra & -> & ? & ? & ?).
    exists extra. split_and!; [done|lia|set_solver|set_solver].
  - destruct (IH (push_back pending x)) as (extra & -> & ? & ? & ?).
    exists (x :: extra). unfold push_back. rewrite <-app_assoc. simpl.
    split_and!; [done|lia|set_solver|set_solver].
Qed.

Lemma NoDup_bounded_length n (l : list nat) :
  NoDup l → Forall (λ x, x < n) l → length l ≤ n.
Proof.
  intros Hnd HF. rewrite <-(length_seq n 0). apply submseteq_length, NoDup_submseteq; [done|].
  intros x Hx. apply elem_of_seq. rewrite Forall_forall in HF. specialize (HF x Hx). lia.
Qed.

Lemma closure_step_spec r from st :
  rel_wf r → closure_inv r from st →
  ∃ o, closure_step r st = Ok o ∧
    match o with
    | inl st' => closure_inv r from st' ∧ closure_measure r st' < closure_measure r st
    | inr out => NoDup out ∧ ∀ x, x ∈ out ↔ tc (edge r) from x
    end.
Proof.
  intros Hwf [Hfl Hpe Hem Hfi Hcl Hdo Hcu]. unfold closure_step. case_decide as Hc.
  - destruct (lookup_lt_is_Some_2 _ _ Hc) as [x Hx]. rewrite (vec_get_Ok _ _ _ Hx). simpl.
    assert (x ∈ cs_pending st) as Hxp by (by eapply list_elem_of_lookup_2).
    destruct (Hpe x Hxp) as [Htc Hlt].
    assert (Htake : take (S (cs_cursor st)) (cs_pending st) =
                    take (cs_cursor st) (cs_pending st) ++ [x]) by (by apply take_S_r).
    destruct (decide (x ∈ cs_emitted st)) as [Hin|Hni].
    + pose proof Hfl as (_ & _ & Hiff). apply Hiff in Hin as E.
      rewrite (vec_get_Ok _ _ _ E). simpl. eexists. split; [done|]. split.
      * constructor; simpl; [done..| |lia]. intros y. rewrite Htake. set_solver.
      * unfold closure_measure. simpl. lia.
    + rewrite (vec_get_Ok _ _ _ (flags_ok_false _ _ _ _ Hfl Hlt Hni)). simpl.
      destruct (flags_ok_set _ _ _ _ Hfl Hlt Hni) as [-> Hfl']. simpl.
      destruct (succ_total r x Hwf Hlt) as [ss Hss]. rewrite Hss. simpl.
      pose proof (succ_Forall _ _ _ Hwf Hss) as HF.
      destruct (closure_push_all _ _ _ (cs_pending st) ss Hfl' HF)
        as (extra & -> & Hlen & Hex & Hcov). simpl.
      eexists. split; [done|]. unfold push_back. split.
      * constructor; simpl; [done| | | | |  |rewrite length_app; lia].
        -- intros y [Hy|Hy]%elem_of_app; [by apply Hpe|].
           assert (edge r x y) as Hxy by (apply (edge_succ r x ss); [done|by apply Hex]).
           split; [by eapply tc_r|]. by eapply succ_bounded.
        -- intros y [Hy|Hy]%elem_of_app; set_solver.
        -- set_solver.
        -- intros y z [Hy|Hy]%elem_of_app Hyz; [set_solver|].
           apply list_elem_of_singleton in Hy as ->.
           apply (edge_succ r x ss z Hss) in Hyz. destruct (Hcov z Hyz); set_solver.
        -- intros y. rewrite take_app_le by lia. rewrite Htake. set_solver.
      * assert (length ss ≤ node_count r) by
          (apply NoDup_bounded_length; [by eapply succ_nodup|done]).
        assert (length (cs_emitted st ++ [x]) ≤ node_count r) as Hb.
        { apply NoDup_bounded_length; [apply Hfl'|]. apply Forall_forall. intros y Hy.
          by eapply flags_ok_bound. }
        unfold closure_measure. simpl. rewrite !length_app in *. simpl in *.
        replace (node_count r - length (cs_emitted st))
          with (S (node_count r - (length (cs_emitted st) + 1))) by lia.
        rewrite Nat.mul_succ_l. lia.
  - eexists. split; [done|]. split; [apply Hfl|]. intros x.
    rewrite take_ge in Hdo by lia. split; [intros Hx; by apply Hpe, Hem|].
    assert (∀ a b, tc (edge r) a b → a = from ∨ a ∈ cs_emitted st → b ∈ cs_emitted st) as Hc'.
    { induction 1 as [a b Hab|a b d Hab Hbd IH]; intros [->|Ha]; eauto. }
    intros Hx. by eapply Hc'; [|left].
Qed.

(** The closure enumerates exactly the nodes reachable in one or more steps, each
    once; in particular the loop terminates within its fuel. *)
Lemma closure_succ_spec (t : TransitiveClosureRelation R) from :
  rel_wf (t_base t) → from < node_count t →
  ∃ l, for_each_successor t from = Ok l ∧ NoDup l ∧
    ∀ x, x ∈ l ↔ tc (edge (t_base t)) from x.
Proof.
  intros Hwf Hf. simpl in *. unfold closure_for_each_successor. set (r := t_base t) in *.
  rewrite validate_node_Ok by done. simpl.
  destruct (succ_total r from Hwf Hf) as [ss Hss]. rewrite Hss. simpl.
  pose proof (succ_Forall _ _ _ Hwf Hss) as HF. rewrite Forall_forall in HF.
  apply (while_total _ _ (closure_inv r from) (closure_measure r)).
  - intros st Hinv. by apply closure_step_spec.
  - constructor; simpl; [apply flags_ok_init| |set_solver| |set_solver|set_solver|lia].
    + intros x Hx. split; [|by apply HF]. apply tc_once. by apply (edge_succ r from ss).
    + intros x Hx. by apply (edge_succ r from ss).
  - unfold closure_measure, closure_fuel. simpl.
    assert (length ss ≤ node_count r)
      by (apply NoDup_bounded_length; [by eapply succ_nodup|by apply Forall_forall]).
    rewrite Nat.sub_0_r. lia.
Qed.

Lemma closure_edge (t : TransitiveClosureRelation R) a b :
  rel_wf (t_base t) → edge t a b ↔ tc (edge (t_base t)) a b.
Proof.
  intros Hwf. destruct (decide (a < node_count t)) as [Ha|Ha].
  - destruct (closure_succ_spec t a Hwf Ha) as (l & Hl & _ & Hin).
    by rewrite (edge_succ t a l b Hl).
  - simpl in Ha. split.
    + intros (l & Hl & _). simpl in Hl. unfold closure_for_each_successor in Hl.
      rewrite validate_node_Throw in Hl by lia. done.
    + intros Htc. exfalso. apply Ha. by destruct Htc as [? ? (l & Hl & _)|? ? ? (l & Hl & _)];
        eapply succ_valid.
Qed.

#[export] Program Instance TransitiveClosureRelation_laws
    : RelationLaws (TransitiveClosureRelation R) := {
  rel_wf t := rel_wf (t_base t);
}.
Next Obligation.
  intros t a Hwf Ha. destruct (closure_succ_spec t a Hwf Ha) as (l & Hl & _). by exists l.
Qed.
Next Obligation.
  intros t a b Hwf Htc%closure_edge; [|done]. simpl.
  assert (∃ m, edge (t_base t) m b) as [m Hm].
  { induction Htc; eauto. }
  by eapply succ_bounded.
Qed.
Next Obligation.
  intros t a l Hwf Hl. destruct (decide (a < node_count t)) as [Ha|Ha].
  - destruct (closure_succ_spec t a Hwf Ha) as (l' & Hl' & Hnd & _).
    rewrite Hl in Hl'. by simplify_eq.
  - simpl in *. unfold closure_for_each_successor in Hl.
    rewrite validate_node_Throw in Hl by lia. done.
Qed.
Next Obligation.
  intros t a Ha. simpl in *. unfold closure_for_each_successor.
  by rewrite validate_node_Throw.
Qed.
Next Obligation.
  intros t a b Hwf Ha Hb. destruct (closure_succ_spec t a Hwf Ha) as (l & Hl & _ & Hin).
  setoid_rewrite closure_edge; [|done]. simpl in *. unfold closure_contains.
  rewrite !validate_node_Ok by done. simpl. rewrite Hl. simpl. eexists. split; [done|].
  by rewrite bool_decide_eq_true, Hin.
Qed.

End closure_facts.
