(* ===== verification/ExecutionGraph.v ===== *)
(** * ExecutionGraph: events and reads-from, [dpor/model/execution_graph.hpp]

    The storage classes ([ReadsFromRelation], [UsedEventIndexSet]) and the execution
    graph built from them.  A vector is a list, an unchecked access to it goes
    through [vec_get]/[vec_set], and a method that mutates the graph returns the
    graph it leaves behind. *)

From stdpp Require Import base tactics numbers list strings.
From S2P Require Import Prelude Errors Event Relation.

(** ** Reads-from sources *)

Record ReadsFromSource := MkReadsFromSource { rf_send : option EventId }.

Definition from_send (source : EventId) : ReadsFromSource := MkReadsFromSource (Some source).
Definition rf_bottom : ReadsFromSource := MkReadsFromSource None.

Definition source_is_send (s : ReadsFromSource) : bool :=
  match rf_send s with Some _ => true | None => false end.

Definition source_is_bottom (s : ReadsFromSource) : bool :=
  match rf_send s with Some _ => false | None => true end.

Definition send_id (s : ReadsFromSource) : res EventId :=
  match rf_send s with
  | None => Throw (precondition_error "reads-from source is bottom")
  | Some id => Ok id
  end.

#[export] Instance ReadsFromSource_eq_dec : EqDecision ReadsFromSource.
Proof. solve_decision. Defined.

(** ** [ReadsFromRelation]: a vector of optional sources indexed by receive id *)

Record ReadsFromRelation := MkReadsFromRelation {
  rf_entries : list (option ReadsFromSource);
  rf_size : nat;
}.

Definition rf_empty : ReadsFromRelation := MkReadsFromRelation [] 0.

(** [const_iterator::advance_to_present] from position [i]; [rest] is what the
    vector holds from [i] on. *)
Fixpoint advance_to_present (rest : list (option ReadsFromSource)) (i : nat) : nat :=
  match rest with
  | None :: rest' => advance_to_present rest' (S i)
  | _ => i
  end.

(** Iterators are positions. *)
Definition rf_iterator (r : ReadsFromRelation) (i : nat) : nat :=
  advance_to_present (drop i (rf_entries r)) i.

Definition rf_begin (r : ReadsFromRelation) : nat := rf_iterator r 0.
Definition rf_end (r : ReadsFromRelation) : nat := length (rf_entries r).
Definition rf_next (r : ReadsFromRelation) (it : nat) : nat := rf_iterator r (S it).

(** [operator*]. *)
Definition rf_deref (r : ReadsFromRelation) (it : nat) : res (EventId * ReadsFromSource) :=
  match rf_entries r !! it with
  | Some (Some s) => Ok (it, s)
  | Some None => Throw undefined_behavior
  | None => Throw (std_exception "vector::at")
  end.

(** [for (it = begin(); it != end(); ++it) ... *it ...]. *)
Definition rf_walk_step (r : ReadsFromRelation) (st : nat * list (EventId * ReadsFromSource))
    : res (nat * list (EventId * ReadsFromSource) + list (EventId * ReadsFromSource)) :=
  if decide (st.1 = rf_end r) then Ok (inr st.2)
  else entry ← rf_deref r st.1; Ok (inl (rf_next r st.1, push_back st.2 entry)).

Definition rf_walk (r : ReadsFromRelation) : res (list (EventId * ReadsFromSource)) :=
  while (S (length (rf_entries r))) nontermination (rf_walk_step r) (rf_begin r, []).

(** The pairs a range-for over the relation visits, in ascending receive id;
    [ReadsFromFacts] proves that [rf_walk] returns them. *)
Fixpoint present_entries (entries : list (option ReadsFromSource)) (i : nat)
    : list (EventId * ReadsFromSource) :=
  match entries with
  | [] => []
  | Some s :: rest => (i, s) :: present_entries rest (S i)
  | None :: rest => present_entries rest (S i)
  end.

Definition rf_to_list (r : ReadsFromRelation) : list (EventId * ReadsFromSource) :=
  present_entries (rf_entries r) 0.

(** [find]: [None] is [end()]. *)
Definition rf_find (r : ReadsFromRelation) (receive_id : EventId) : option ReadsFromSource :=
  match rf_entries r !! receive_id with
  | Some (Some s) => Some s
  | _ => None
  end.

Definition rf_at (r : ReadsFromRelation) (receive_id : EventId) : res ReadsFromSource :=
  match rf_find r receive_id with
  | None => Throw (precondition_error "reads-from entry not found")
  | Some s => Ok s
  end.

Definition rf_is_empty (r : ReadsFromRelation) : bool := bool_decide (rf_size r = 0).

Definition rf_set (r : ReadsFromRelation) (receive_id : EventId) (source : ReadsFromSource)
    : ReadsFromRelation :=
  let entries := grow (S receive_id) None (rf_entries r) in
  let size := match rf_find r receive_id with None => S (rf_size r) | Some _ => rf_size r end in
  MkReadsFromRelation (<[receive_id := Some source]> entries) size.

Definition rf_clear (r : ReadsFromRelation) (receive_id : EventId) : ReadsFromRelation :=
  match rf_find r receive_id with
  | None => r
  | Some _ => MkReadsFromRelation (<[receive_id := None]> (rf_entries r)) (rf_size r - 1)
  end.

(** ** [UsedEventIndexSet]: a dense prefix plus a sparse remainder *)

Record UsedEventIndexSet := MkUsedEventIndexSet {
  dense_end : EventIndex;
  sparse : list EventIndex;
}.

Definition used_empty : UsedEventIndexSet := MkUsedEventIndexSet 0 [].

(** Position of [index] in the sparse vector, if any. *)
Definition find_sparse (s : UsedEventIndexSet) (index : EventIndex) : option nat :=
  fst <$> list_find (λ x, x = index) (sparse s).

Definition used_contains (s : UsedEventIndexSet) (index : EventIndex) : bool :=
  bool_decide (index < dense_end s)%N || bool_decide (is_Some (find_sparse s index)).

(** [*it = v.back(); v.pop_back();] with [it] at position [i]. *)
Definition swap_remove {A} (i : nat) (l : list A) : list A :=
  match last l with
  | Some b => take (length l - 1) (<[i := b]> l)
  | None => l
  end.

(** The loop of [absorb_sparse]; every iteration that continues removes a sparse
    element, so [length (sparse s)] iterations reach the exit condition. *)
Fixpoint absorb_sparse_loop (fuel : nat) (s : UsedEventIndexSet) : UsedEventIndexSet :=
  match fuel with
  | O => s
  | S fuel' =>
      match find_sparse s (dense_end s) with
      | Some i =>
          if decide (dense_end s = kMaxIndex) then s
          else absorb_sparse_loop fuel'
                 (MkUsedEventIndexSet (dense_end s + 1) (swap_remove i (sparse s)))
      | None => s
      end
  end.

Definition absorb_sparse (s : UsedEventIndexSet) : UsedEventIndexSet :=
  absorb_sparse_loop (length (sparse s)) s.

Definition used_insert (s : UsedEventIndexSet) (index : EventIndex) : UsedEventIndexSet :=
  if decide (index = dense_end s ∧ index ≠ kMaxIndex) then
    absorb_sparse (MkUsedEventIndexSet (dense_end s + 1) (sparse s))
  else MkUsedEventIndexSet (dense_end s) (push_back (sparse s) index).

(** [index + 1, ..., end - 1], the elements the demotion loop of [erase] pushes. *)
Definition indices_above (index finish : EventIndex) : list EventIndex :=
  (λ k, index + 1 + N.of_nat k)%N <$> seq 0 (N.to_nat (finish - (index + 1))).

(** Returns the number of elements removed. *)
Definition used_erase (s : UsedEventIndexSet) (index : EventIndex) : nat * UsedEventIndexSet :=
  match find_sparse s index with
  | Some i => (1, MkUsedEventIndexSet (dense_end s) (swap_remove i (sparse s)))
  | None =>
      if decide (dense_end s ≤ index)%N then (0, s)
      else (1, MkUsedEventIndexSet index (sparse s ++ indices_above index (dense_end s)))
  end.

(** ** [ExecutionGraphT] *)

Record ExecutionGraph (V : Type) := MkExecutionGraph {
  events_ : list (Event V);
  reads_from_ : ReadsFromRelation;
  next_event_index_by_thread_ : list EventIndex;
  used_event_indices_by_thread_ : list UsedEventIndexSet;
}.
Arguments MkExecutionGraph {V} events_ reads_from_ next_event_index_by_thread_
  used_event_indices_by_thread_.
Arguments events_ {V} e.
Arguments reads_from_ {V} e.
Arguments next_event_index_by_thread_ {V} e.
Arguments used_event_indices_by_thread_ {V} e.

Section graph.
Context {V : Type}.
Implicit Types (g : ExecutionGraph V) (t : ThreadId).

Definition empty_graph : ExecutionGraph V := MkExecutionGraph [] rf_empty [] [].

Definition is_valid_event_id g (id : EventId) : bool := bool_decide (id < length (events_ g)).

Definition unknown_event_id : exn := precondition_error "event id not found in execution graph".

(** The checked accessor [event]. *)
Definition event g (id : EventId) : res (Event V) :=
  match events_ g !! id with Some e => Ok e | None => Throw unknown_event_id end.

(** *** Insertion *)

Definition ensure_thread_storage g t : res (ExecutionGraph V) :=
  let i := N.to_nat t in
  if decide (length (next_event_index_by_thread_ g) ≤ i) then
    if decide (kMaxThreadId < t)%N then
      Throw (precondition_error "thread id exceeds the maximum supported thread id")
    else Ok (MkExecutionGraph (events_ g) (reads_from_ g)
               (resize (i + 1) 0%N (next_event_index_by_thread_ g))
               (resize (i + 1) used_empty (used_event_indices_by_thread_ g)))
  else Ok g.

(** [while (used_indices.contains(next_index)) ...] of [next_event_index]. *)
Definition next_index_step (used : UsedEventIndexSet) (next : EventIndex)
    : res (EventIndex + EventIndex) :=
  if used_contains used next then
    if decide (next = kMaxIndex) then
      Throw (precondition_error "no available event index for thread")
    else Ok (inl (next + 1)%N)
  else Ok (inr next).

(** The loop leaves behind one used index per iteration. *)
Definition next_index_fuel (used : UsedEventIndexSet) (next : EventIndex) : nat :=
  S (S (N.to_nat (dense_end used - next) + length (sparse used))).

Definition next_event_index g t : res (EventIndex * ExecutionGraph V) :=
  g1 ← ensure_thread_storage g t;
  let i := N.to_nat t in
  next ← vec_get (next_event_index_by_thread_ g1) i;
  used ← vec_get (used_event_indices_by_thread_ g1) i;
  next' ← while (next_index_fuel used next) nontermination (next_index_step used) next;
  nexts' ← vec_set (next_event_index_by_thread_ g1) i next';
  Ok (next', MkExecutionGraph (events_ g1) (reads_from_ g1) nexts'
               (used_event_indices_by_thread_ g1)).

Definition append_event_unchecked g t (index : EventIndex) (l : EventLabel V)
    : res (EventId * ExecutionGraph V) :=
  let i := N.to_nat t in
  used ← vec_get (used_event_indices_by_thread_ g) i;
  useds' ← vec_set (used_event_indices_by_thread_ g) i (used_insert used index);
  nexts' ← vec_set (next_event_index_by_thread_ g) i
             (if decide (index = kMaxIndex) then index else (index + 1)%N);
  let events' := push_back (events_ g) (MkEvent t index l) in
  Ok (length events' - 1, MkExecutionGraph events' (reads_from_ g) nexts' useds').

Definition add_event g t (l : EventLabel V) : res (EventId * ExecutionGraph V) :=
  '(index, g1) ← next_event_index g t;
  append_event_unchecked g1 t index l.

(** Replay/import path: indices may have gaps but must increase within a thread. *)
Definition add_event_with_index g t (index : EventIndex) (l : EventLabel V)
    : res (EventId * ExecutionGraph V) :=
  g1 ← ensure_thread_storage g t;
  let i := N.to_nat t in
  used ← vec_get (used_event_indices_by_thread_ g1) i;
  if used_contains used index then
    Throw (precondition_error "event index already used in this thread")
  else
    next ← vec_get (next_event_index_by_thread_ g1) i;
    if decide (index < next)%N then
      Throw (precondition_error
               "event indices must be inserted in increasing order within each thread")
    else append_event_unchecked g1 t index l.

(** *** Reads-from assignment *)

Definition with_reads_from g (rf : ReadsFromRelation) : ExecutionGraph V :=
  MkExecutionGraph (events_ g) rf (next_event_index_by_thread_ g)
    (used_event_indices_by_thread_ g).

Definition set_reads_from_source g (receive_id : EventId) (source : ReadsFromSource)
    : ExecutionGraph V := with_reads_from g (rf_set (reads_from_ g) receive_id source).

Definition set_reads_from g (receive_id source_id : EventId) : ExecutionGraph V :=
  set_reads_from_source g receive_id (from_send source_id).

Definition set_reads_from_bottom g (receive_id : EventId) : ExecutionGraph V :=
  set_reads_from_source g receive_id rf_bottom.

(** *** Queries *)

(** The ids of the events that satisfy [p], in ascending order. *)
Definition ids_where (p : Event V → bool) (es : list (Event V)) : list EventId :=
  List.filter (λ i, match es !! i with Some e => p e | None => false end) (seq 0 (length es)).

Definition receive_event_ids g : list EventId := ids_where is_receive (events_ g).
Definition send_event_ids g : list EventId := ids_where is_send (events_ g).

Definition consumed_send_ids g : list EventId :=
  omap (λ entry, rf_send entry.2) (rf_to_list (reads_from_ g)).

Definition unread_send_event_ids g : list EventId :=
  List.filter (λ id, bool_decide (id ∉ consumed_send_ids g)) (send_event_ids g).

(** One iteration of [for_each_validated_rf_edge]; the edges handed to the callback
    are collected in order. *)
Definition validated_rf_edge g (edges : list (EventId * EventId))
    (entry : EventId * ReadsFromSource) : res (list (EventId * EventId)) :=
  let '(receive_id, source) := entry in
  match events_ g !! receive_id with
  | None =>
      Throw (precondition_error "reads-from relation refers to an unknown receive event id")
  | Some receive =>
      if is_receive receive then
        match rf_send source with
        | None => Ok edges
        | Some source_id =>
            match events_ g !! source_id with
            | None => Throw (precondition_error
                "reads-from relation source refers to an unknown send event id")
            | Some source_event =>
                if is_send source_event then Ok (push_back edges (source_id, receive_id))
                else Throw (precondition_error
                       "reads-from relation source event is not a send")
            end
        end
      else Throw (precondition_error "reads-from relation target event is not a receive")
  end.

Definition for_each_validated_rf_edge g : res (list (EventId * EventId)) :=
  foldM (validated_rf_edge g) [] (rf_to_list (reads_from_ g)).

Definition rf_relation g : res ExplicitRelation :=
  edges ← for_each_validated_rf_edge g;
  foldM (λ r e, add_edge r e.1 e.2) (explicit_new (length (events_ g))) edges.

(** *** Program order *)

(** [event_ids_by_thread[thread].push_back(id)] after growing the outer vector. *)
Definition collect_by_thread (acc : list (list EventId)) (entry : EventId * Event V)
    : res (list (list EventId)) :=
  let i := N.to_nat (thread entry.2) in
  let acc' := grow (i + 1) [] acc in
  ids ← vec_get acc' i;
  vec_set acc' i (push_back ids entry.1).

(** The validation loop over one thread: adjacent indices strictly increase. *)
Definition check_increasing g (pair : EventId * EventId) : res unit :=
  previous ← vec_get (events_ g) pair.1;
  current ← vec_get (events_ g) pair.2;
  if decide (index previous = index current) then
    Throw (internal_error
      "two events in the same thread have the same event index; program order is ambiguous")
  else if decide (index current < index previous)%N then
    Throw (internal_error
      "events in the same thread are not in increasing event index order; program order is ambiguous")
  else Ok tt.

(** Adjacent pairs [(ids[i - 1], ids[i])]. *)
Definition adjacent {A} (ids : list A) : list (A * A) := zip ids (tail ids).

Definition derive_thread_event_sequences g : res (list (list NodeId)) :=
  by_thread ← foldM collect_by_thread [] (imap pair (events_ g));
  foldM (λ sequences ids,
    match ids with
    | [] => Ok sequences
    | _ =>
        _ ← foldM (λ _ pair, check_increasing g pair) tt (adjacent ids);
        Ok (push_back sequences ids)
    end) [] by_thread.

Definition po_relation g : res ProgramOrderRelation :=
  sequences ← derive_thread_event_sequences g;
  po_make (length (events_ g)) sequences.

(** *** Rollback helpers, used by the exploration graph *)

Definition rollback_last_event g (expected_event_id : EventId) (expected_thread : ThreadId)
    (expected_index previous_next_index : EventIndex) : res (ExecutionGraph V) :=
  match last (events_ g) with
  | None => Throw (internal_error "rollback_last_event requires undoing the current tail event")
  | Some tail =>
      if decide (expected_event_id ≠ length (events_ g) - 1) then
        Throw (internal_error "rollback_last_event requires undoing the current tail event")
      else if decide (thread tail ≠ expected_thread ∨ index tail ≠ expected_index) then
        Throw (internal_error
          "rollback_last_event metadata does not match the current tail event")
      else
        events' ← pop_back (events_ g);
        let i := N.to_nat expected_thread in
        if decide (length (next_event_index_by_thread_ g) ≤ i ∨
                   length (used_event_indices_by_thread_ g) ≤ i) then
          Throw (internal_error "rollback_last_event thread storage missing")
        else
          used ← vec_get (used_event_indices_by_thread_ g) i;
          let '(removed, used') := used_erase used expected_index in
          if decide (removed ≠ 1) then
            Throw (internal_error "rollback_last_event missing used event index")
          else
            useds' ← vec_set (used_event_indices_by_thread_ g) i used';
            nexts' ← vec_set (next_event_index_by_thread_ g) i previous_next_index;
            Ok (MkExecutionGraph events' (reads_from_ g) nexts' useds')
  end.

Definition rollback_reads_from g (receive_id : EventId)
    (previous_source : option ReadsFromSource) : ExecutionGraph V :=
  match previous_source with
  | Some s => with_reads_from g (rf_set (reads_from_ g) receive_id s)
  | None => with_reads_from g (rf_clear (reads_from_ g) receive_id)
  end.

End graph.
