(* ===== verification/ExplorationGraph.v ===== *)
(** * ExplorationGraph: the DPOR graph of [dpor/model/exploration_graph.hpp]

    The record has the fields of [ExplorationGraphT]; the sentinel [kNoSource] is
    [None].  Mutators return the graph they leave behind.  The PORF queries, which
    read the graph and fill the lazily built cache, are in [Porf]. *)

From stdpp Require Import base tactics numbers list strings.
From S2P Require Import Prelude Errors Event Relation ExecutionGraph.

(** Per-thread structural metadata. *)
Record ThreadState := MkThreadState {
  ts_event_count : nat;
  ts_last_event_id : option EventId;
}.

Definition no_thread_state : ThreadState := MkThreadState 0 None.

Record PorfCache := MkPorfCache {
  clocks : list nat;
  position_in_thread : list nat;
  thread_clock_index : list (option nat);
  num_threads : nat;
  has_cycle : bool;
}.

Record EventUndo := MkEventUndo {
  eu_event_id : EventId;
  eu_thread : ThreadId;
  eu_event_index : EventIndex;
  eu_previous_thread_state : ThreadState;
  eu_previous_next_event_index : EventIndex;
}.

Record ReadsFromUndo := MkReadsFromUndo {
  ru_receive_id : EventId;
  ru_previous_source : option ReadsFromSource;
}.

Record Checkpoint := MkCheckpoint {
  cp_event_undo_size : nat;
  cp_rf_undo_size : nat;
  cp_known_acyclic : bool;
  cp_pending_fresh_receive_id : option EventId;
}.

Record ExplorationGraph (V : Type) := MkExplorationGraph {
  graph_ : ExecutionGraph V;
  thread_state_ : list ThreadState;
  thread_event_ids_ : list (list EventId);
  receive_event_ids_by_thread_ : list (list EventId);
  send_event_ids_ : list EventId;
  send_reader_counts_ : list nat;
  unread_send_mask_ : list bool;
  known_acyclic_ : bool;
  pending_fresh_receive_id_ : option EventId;
  porf_cache_ : option PorfCache;
  event_undo_log_ : list EventUndo;
  rf_undo_log_ : list ReadsFromUndo;
}.
Arguments MkExplorationGraph {V} graph_ thread_state_ thread_event_ids_
  receive_event_ids_by_thread_ send_event_ids_ send_reader_counts_ unread_send_mask_
  known_acyclic_ pending_fresh_receive_id_ porf_cache_ event_undo_log_ rf_undo_log_.
Arguments graph_ {V} e.
Arguments thread_state_ {V} e.
Arguments thread_event_ids_ {V} e.
Arguments receive_event_ids_by_thread_ {V} e.
Arguments send_event_ids_ {V} e.
Arguments send_reader_counts_ {V} e.
Arguments unread_send_mask_ {V} e.
Arguments known_acyclic_ {V} e.
Arguments pending_fresh_receive_id_ {V} e.
Arguments porf_cache_ {V} e.
Arguments event_undo_log_ {V} e.
Arguments rf_undo_log_ {V} e.

Section exploration_graph.
Context {V : Type}.
Implicit Types (g : ExplorationGraph V) (t : ThreadId).

Definition empty_exploration_graph : ExplorationGraph V :=
  MkExplorationGraph empty_graph [] [] [] [] [] [] true None None [] [].

(** *** Field updates *)

Definition set_graph g (x : ExecutionGraph V) : ExplorationGraph V :=
   MkExplorationGraph x (thread_state_ g) (thread_event_ids_ g)
  (receive_event_ids_by_thread_ g) (send_event_ids_ g) (send_reader_counts_ g)
  (unread_send_mask_ g) (known_acyclic_ g) (pending_fresh_receive_id_ g) (porf_cache_ g)
  (event_undo_log_ g) (rf_undo_log_ g).

Definition set_reader_state g (counts : list nat) (mask : list bool)
    : ExplorationGraph V :=
   MkExplorationGraph (graph_ g) (thread_state_ g)
  (thread_event_ids_ g) (receive_event_ids_by_thread_ g) (send_event_ids_ g) counts mask
  (known_acyclic_ g) (pending_fresh_receive_id_ g) (porf_cache_ g) (event_undo_log_ g)
  (rf_undo_log_ g).

Definition set_acyclicity g (known : bool) (pending : option EventId)
    : ExplorationGraph V :=
   MkExplorationGraph (graph_ g) (thread_state_ g)
  (thread_event_ids_ g) (receive_event_ids_by_thread_ g) (send_event_ids_ g)
  (send_reader_counts_ g) (unread_send_mask_ g) known pending (porf_cache_ g)
  (event_undo_log_ g) (rf_undo_log_ g).

Definition set_cache g (cache : option PorfCache) : ExplorationGraph V :=
   MkExplorationGraph (graph_ g) (thread_state_ g)
  (thread_event_ids_ g) (receive_event_ids_by_thread_ g) (send_event_ids_ g)
  (send_reader_counts_ g) (unread_send_mask_ g) (known_acyclic_ g)
  (pending_fresh_receive_id_ g) cache (event_undo_log_ g) (rf_undo_log_ g).

Definition set_logs g (elog : list EventUndo) (rlog : list ReadsFromUndo)
    : ExplorationGraph V :=
   MkExplorationGraph (graph_ g) (thread_state_ g)
  (thread_event_ids_ g) (receive_event_ids_by_thread_ g) (send_event_ids_ g)
  (send_reader_counts_ g) (unread_send_mask_ g) (known_acyclic_ g)
  (pending_fresh_receive_id_ g) (porf_cache_ g) elog rlog.

(** *** Accessors *)

Definition event g (id : EventId) : res (Event V) := ExecutionGraph.event (graph_ g) id.

Definition events g : list (Event V) := events_ (graph_ g).

Definition event_count g : nat := length (events g).

Definition is_valid_event_id g (id : EventId) : bool :=
  ExecutionGraph.is_valid_event_id (graph_ g) id.

Definition reads_from g : ReadsFromRelation := reads_from_ (graph_ g).

Definition insertion_order g : list EventId := seq 0 (event_count g).

Definition inserted_before_or_equal g (a b : EventId) : res bool :=
  if decide (event_count g ≤ a ∨ event_count g ≤ b) then
    Throw (precondition_error "event id not found in insertion order")
  else Ok (bool_decide (a ≤ b)).

Definition is_unread g (send_id : EventId) : bool :=
  match unread_send_mask_ g !! send_id with Some b => b | None => false end.

(** [for_each_unread_send]: the sends handed to the callback. *)
Definition unread_send_event_ids g : list EventId :=
  List.filter (is_unread g) (send_event_ids_ g).

Definition any_unread_send g (predicate : EventId → res bool) : res bool :=
  existsM (λ id, if is_unread g id then predicate id else Ok false) (send_event_ids_ g).

(** The metadata of thread [t], [ThreadState{}] when the thread has no storage. *)
Definition thread_state g t : ThreadState :=
  default no_thread_state (thread_state_ g !! N.to_nat t).

Definition last_event g (ts : ThreadState) : res (Event V) :=
  match ts_last_event_id ts with
  | Some id => event g id
  | None => Throw unknown_event_id
  end.

Definition thread_is_terminated g t : res bool :=
  if decide (ts_event_count (thread_state g t) = 0) then Ok false
  else e ← last_event g (thread_state g t); Ok (is_block e || is_error e).

Definition has_blocked_thread g : res bool :=
  existsM (λ ts, if decide (ts_event_count ts = 0) then Ok false
                 else e ← last_event g ts; Ok (is_block e)) (thread_state_ g).

Definition thread_event_count g t : nat := ts_event_count (thread_state g t).

Definition last_event_id g t : option EventId :=
  if decide (ts_event_count (thread_state g t) = 0) then None
  else ts_last_event_id (thread_state g t).

Definition receives_in_destination g (send_id : EventId) : res (list EventId) :=
  e ← event g send_id;
  match as_send e with
  | None => Throw (precondition_error "event is not a send")
  | Some s => Ok (default [] (receive_event_ids_by_thread_ g !! N.to_nat (destination s)))
  end.

(** *** Thread traces *)

(** The [emit] closure of [thread_trace_into]: the buffer and the write position. *)
Definition emit `{EqDecision V} (st : list (ObservedValue V) * nat) (v : ObservedValue V)
    : list (ObservedValue V) * nat :=
  let '(trace, written) := st in
  match trace !! written with
  | Some old => (if decide (old = v) then trace else <[written := v]> trace, S written)
  | None => (push_back trace v, S written)
  end.

(** What the event with id [id] contributes to its thread's trace. *)
Definition trace_entry g (id : EventId) : res (option (ObservedValue V)) :=
  e ← event g id;
  match label e with
  | LReceive _ =>
      match rf_find (reads_from g) id with
      | None => Ok None
      | Some source =>
          match rf_send source with
          | None => Ok (Some BottomValue)
          | Some send_id =>
              source_evt ← event g send_id;
              Ok (match as_send source_evt with
                  | Some s => Some (Observed (value s))
                  | None => None
                  end)
          end
      end
  | LNd n => Ok (Some (Observed (nd_value n)))
  | _ => Ok None
  end.

(** Writes the trace of thread [t] into a caller-owned buffer. *)
Definition thread_trace_into `{EqDecision V} g t (buffer : list (ObservedValue V))
    : res (list (ObservedValue V)) :=
  let ids := default [] (thread_event_ids_ g !! N.to_nat t) in
  '(trace, written) ← foldM (λ st id,
      o ← trace_entry g id;
      Ok (match o with Some v => emit st v | None => st end)) (buffer, 0) ids;
  Ok (resize written BottomValue trace).

Definition thread_trace `{EqDecision V} g t : res (list (ObservedValue V)) :=
  thread_trace_into g t [].

(** *** Reader counts *)

Definition current_reads_from_source g (receive_id : EventId) : option ReadsFromSource :=
  rf_find (reads_from g) receive_id.

Definition adjust_send_reader_count g (source : option ReadsFromSource) (delta : Z)
    : res (ExplorationGraph V) :=
  match source ≫= rf_send with
  | None => Ok g
  | Some send_id =>
      match events g !! send_id, send_reader_counts_ g !! send_id,
            unread_send_mask_ g !! send_id with
      | Some e, Some reader_count, Some _ =>
          if is_send e then
            count' ← (if decide (delta < 0)%Z then
                        if decide (reader_count < Z.to_nat (- delta)) then
                          Throw (internal_error "send reader count underflow")
                        else Ok (reader_count - Z.to_nat (- delta))
                      else Ok (reader_count + Z.to_nat delta));
            Ok (set_reader_state g (<[send_id := count']> (send_reader_counts_ g))
                  (<[send_id := bool_decide (count' = 0)]> (unread_send_mask_ g)))
          else Ok g
      | _, _, _ => Ok g
      end
  end.

Definition update_send_reader_state g (previous next : option ReadsFromSource)
    : res (ExplorationGraph V) :=
  g1 ← adjust_send_reader_count g previous (-1);
  adjust_send_reader_count g1 next 1.

(** *** Known acyclicity *)

Definition invalidate_known_acyclicity g : ExplorationGraph V := set_acyclicity g false None.

Definition mark_known_acyclic g : ExplorationGraph V := set_acyclicity g true None.

Definition is_known_acyclic g : bool := known_acyclic_ g.

Definition update_acyclicity_after_add_event g (id : EventId) : res (ExplorationGraph V) :=
  let g1 := set_acyclicity g (known_acyclic_ g) None in
  if known_acyclic_ g then
    e ← event g id;
    Ok (if is_receive e then set_acyclicity g true (Some id) else g1)
  else Ok g1.

(** The event with id [id] exists and satisfies [p]. *)
Definition holds_at g (p : Event V → bool) (id : EventId) : bool :=
  match events g !! id with Some e => p e | None => false end.

Definition update_acyclicity_after_rf_assignment g (receive_id : EventId)
    (source : ReadsFromSource) : ExplorationGraph V :=
  if known_acyclic_ g && bool_decide (pending_fresh_receive_id_ g = Some receive_id)
     && holds_at g is_receive receive_id then
    match rf_send source with
    | None => set_acyclicity g (known_acyclic_ g) None
    | Some source_id =>
        if holds_at g is_send source_id then set_acyclicity g (known_acyclic_ g) None
        else invalidate_known_acyclicity g
    end
  else invalidate_known_acyclicity g.

(** *** Insertion *)

(** The derived metadata for an event just appended to [graph_] as [id]; shared by
    [add_event] and [append_event_for_bulk_build]. *)
Definition index_new_event g (graph' : ExecutionGraph V) t (id : EventId)
    : res (ExplorationGraph V) :=
  let i := N.to_nat t in
  let states := grow (i + 1) no_thread_state (thread_state_ g) in
  ts ← vec_get states i;
  states' ← vec_set states i (MkThreadState (S (ts_event_count ts)) (Some id));
  let teids := grow (i + 1) [] (thread_event_ids_ g) in
  ids ← vec_get teids i;
  teids' ← vec_set teids i (push_back ids id);
  let reids := grow (i + 1) [] (receive_event_ids_by_thread_ g) in
  let counts := resize (id + 1) 0 (send_reader_counts_ g) in
  let mask := resize (id + 1) false (unread_send_mask_ g) in
  added ← ExecutionGraph.event graph' id;
  reids' ← (if is_receive added then
              r ← vec_get reids i; vec_set reids i (push_back r id)
            else Ok reids);
  '(sends', mask') ←
     (if is_send added then
        m ← vec_set mask id true; Ok (push_back (send_event_ids_ g) id, m)
      else Ok (send_event_ids_ g, mask));
  Ok (MkExplorationGraph graph' states' teids' reids' sends' counts mask'
        (known_acyclic_ g) (pending_fresh_receive_id_ g) (porf_cache_ g)
        (event_undo_log_ g) (rf_undo_log_ g)).

Definition add_event g t (l : EventLabel V) : res (EventId * ExplorationGraph V) :=
  let previous_thread_state := thread_state g t in
  let previous_next :=
    default 0%N (next_event_index_by_thread_ (graph_ g) !! N.to_nat t) in
  '(id, graph') ← ExecutionGraph.add_event (graph_ g) t l;
  added ← ExecutionGraph.event graph' id;
  let undo := MkEventUndo id t (index added) previous_thread_state previous_next in
  let g1 := set_cache (set_logs g (push_back (event_undo_log_ g) undo) (rf_undo_log_ g)) None in
  g2 ← index_new_event g1 graph' t id;
  g3 ← update_acyclicity_after_add_event g2 id;
  Ok (id, g3).

(** *** Reads-from assignment *)

Definition set_reads_from_source g (receive_id : EventId) (source : ReadsFromSource)
    : res (ExplorationGraph V) :=
  let previous := current_reads_from_source g receive_id in
  let g1 := set_graph g (ExecutionGraph.set_reads_from_source (graph_ g) receive_id source) in
  let g2 := set_cache (set_logs g1 (event_undo_log_ g1)
      (push_back (rf_undo_log_ g1) (MkReadsFromUndo receive_id previous))) None in
  g3 ← update_send_reader_state g2 previous (Some source);
  Ok (update_acyclicity_after_rf_assignment g3 receive_id source).

Definition set_reads_from g (receive_id source_id : EventId) : res (ExplorationGraph V) :=
  set_reads_from_source g receive_id (from_send source_id).

Definition set_reads_from_bottom g (receive_id : EventId) : res (ExplorationGraph V) :=
  set_reads_from_source g receive_id rf_bottom.

(** *** Checkpoint and rollback *)

Definition checkpoint g : Checkpoint :=
  MkCheckpoint (length (event_undo_log_ g)) (length (rf_undo_log_ g)) (known_acyclic_ g)
    (pending_fresh_receive_id_ g).

Definition undo_last_rf_assignment g : res (ExplorationGraph V) :=
  match last (rf_undo_log_ g) with
  | None => Throw (internal_error "rf undo log is empty")
  | Some undo =>
      rlog' ← pop_back (rf_undo_log_ g);
      let g1 := set_logs g (event_undo_log_ g) rlog' in
      let current := current_reads_from_source g1 (ru_receive_id undo) in
      let g2 := set_cache (set_graph g1 (rollback_reads_from (graph_ g1) (ru_receive_id undo)
                                           (ru_previous_source undo))) None in
      update_send_reader_state g2 current (ru_previous_source undo)
  end.

(** [v.empty() || v.back() != id] on the vector of thread index [i]. *)
Definition tail_mismatch (vs : list (list EventId)) (i : nat) (id : EventId) : bool :=
  match vs !! i with
  | Some ids => bool_decide (last ids ≠ Some id)
  | None => true
  end.

Definition undo_last_event_append g : res (ExplorationGraph V) :=
  match last (event_undo_log_ g) with
  | None => Throw (internal_error "event undo log is empty")
  | Some undo =>
      elog' ← pop_back (event_undo_log_ g);
      let id := eu_event_id undo in
      let i := N.to_nat (eu_thread undo) in
      tail_event ← event g id;
      if decide (event_count g = 0 ∨ event_count g - 1 ≠ id) then
        Throw (internal_error "event undo log does not match insertion order tail")
      else
      graph' ← rollback_last_event (graph_ g) id (eu_thread undo) (eu_event_index undo)
                 (eu_previous_next_event_index undo);
      if decide (length (thread_state_ g) ≤ i) then
        Throw (internal_error "event undo log thread state missing")
      else
      states' ← vec_set (thread_state_ g) i (eu_previous_thread_state undo);
      if tail_mismatch (thread_event_ids_ g) i id then
        Throw (internal_error "thread event cache does not match rolled back tail event")
      else
      ids ← vec_get (thread_event_ids_ g) i;
      ids' ← pop_back ids;
      teids' ← vec_set (thread_event_ids_ g) i ids';
      reids' ← (if is_receive tail_event then
                  if tail_mismatch (receive_event_ids_by_thread_ g) i id then
                    Throw (internal_error
                             "receive-event cache does not match rolled back tail event")
                  else
                    r ← vec_get (receive_event_ids_by_thread_ g) i;
                    r' ← pop_back r;
                    vec_set (receive_event_ids_by_thread_ g) i r'
                else Ok (receive_event_ids_by_thread_ g));
      if decide (send_reader_counts_ g = [] ∨ unread_send_mask_ g = []) then
        Throw (internal_error "send caches missing for rolled back tail event")
      else
      sends' ← (if is_send tail_event then
                  if decide (last (send_event_ids_ g) ≠ Some id) then
                    Throw (internal_error
                             "send-event cache does not match rolled back tail event")
                  else
                    readers ← vec_back (send_reader_counts_ g);
                    if decide (readers ≠ 0) then
                      Throw (internal_error "rolled back send still appears to have readers")
                    else pop_back (send_event_ids_ g)
                else Ok (send_event_ids_ g));
      counts' ← pop_back (send_reader_counts_ g);
      mask' ← pop_back (unread_send_mask_ g);
      Ok (MkExplorationGraph graph' states' teids' reids' sends' counts' mask'
            (known_acyclic_ g) (pending_fresh_receive_id_ g) None elog' (rf_undo_log_ g))
  end.

Definition rollback_rf_step (size : nat) g : res (ExplorationGraph V + ExplorationGraph V) :=
  if decide (size < length (rf_undo_log_ g)) then
    g' ← undo_last_rf_assignment g; Ok (inl g')
  else Ok (inr g).

Definition rollback_event_step (size : nat) g : res (ExplorationGraph V + ExplorationGraph V) :=
  if decide (size < length (event_undo_log_ g)) then
    g' ← undo_last_event_append g; Ok (inl g')
  else Ok (inr g).

(** Each undo shortens its log by one. *)
Definition rollback g (cp : Checkpoint) : res (ExplorationGraph V) :=
  if decide (length (event_undo_log_ g) < cp_event_undo_size cp ∨
             length (rf_undo_log_ g) < cp_rf_undo_size cp) then
    Throw (precondition_error "checkpoint does not belong to the current graph state")
  else
    g1 ← while (S (length (rf_undo_log_ g))) nontermination
           (rollback_rf_step (cp_rf_undo_size cp)) g;
    g2 ← while (S (length (event_undo_log_ g1))) nontermination
           (rollback_event_step (cp_event_undo_size cp)) g1;
    Ok (set_cache (set_acyclicity g2 (cp_known_acyclic cp) (cp_pending_fresh_receive_id cp))
          None).

(** *** Copies *)

Definition clear_worker_local_history g : ExplorationGraph V := set_logs g [] [].

(** The copy constructor: everything but the rollback history. *)
Definition copy g : ExplorationGraph V := clear_worker_local_history g.

Definition copy_with_rf_source g (recv : EventId) (source : ReadsFromSource)
    (preserve_known_acyclicity : bool) : res (ExplorationGraph V) :=
  c ← set_reads_from_source (copy g) recv source;
  Ok (clear_worker_local_history
        (if preserve_known_acyclicity then mark_known_acyclic c
         else invalidate_known_acyclicity c)).

Definition with_rf g (recv send : EventId) : res (ExplorationGraph V) :=
  copy_with_rf_source g recv (from_send send) false.

Definition with_rf_source g (recv : EventId) (source : ReadsFromSource)
    : res (ExplorationGraph V) := copy_with_rf_source g recv source false.

Definition with_rf_preserving_known_acyclicity g (recv send : EventId)
    : res (ExplorationGraph V) :=
  copy_with_rf_source g recv (from_send send)
    (known_acyclic_ g && holds_at g is_receive recv && holds_at g is_send send).

Definition with_bottom_rf g (recv : EventId) : res (ExplorationGraph V) :=
  copy_with_rf_source g recv rf_bottom (known_acyclic_ g && holds_at g is_receive recv).

Definition rebind_rf g (recv send : EventId) (preserve_known_acyclicity : bool)
    : res (ExplorationGraph V) :=
  if decide (event_undo_log_ g ≠ [] ∨ rf_undo_log_ g ≠ []) then
    Throw (precondition_error
             "rebind_rf_preserving_known_acyclicity requires clean rollback history")
  else
    let previous := current_reads_from_source g recv in
    let rebound := from_send send in
    let g1 := set_graph g (ExecutionGraph.set_reads_from_source (graph_ g) recv rebound) in
    g2 ← update_send_reader_state g1 previous (Some rebound);
    let g3 := set_cache g2 None in
    Ok (if preserve_known_acyclicity then mark_known_acyclic g3
        else invalidate_known_acyclicity g3).

Definition rebind_rf_preserving_known_acyclicity g (recv send : EventId)
    : res (ExplorationGraph V) :=
  rebind_rf g recv send
    (known_acyclic_ g && holds_at g is_receive recv && holds_at g is_send send).

Definition with_nd_value g (nd_event : EventId) (v : V) : res (ExplorationGraph V) :=
  match events g !! nd_event with
  | None => Throw (precondition_error "event id not found in exploration graph")
  | Some e =>
      match label e with
      | LNd n =>
          let e' := MkEvent (thread e) (index e) (LNd (MkNdLabel v (choices n))) in
          let graph' := MkExecutionGraph (<[nd_event := e']> (events g))
            (reads_from_ (graph_ g)) (next_event_index_by_thread_ (graph_ g))
            (used_event_indices_by_thread_ (graph_ g)) in
          Ok (set_graph (copy g) graph')
      | _ => Throw (precondition_error "event is not a nondeterministic choice")
      end
  end.

(** *** Restriction *)

(** [id_map] of [restrict_from_keep_mask]: the new id of every kept event. *)
Fixpoint dense_ids (mask : list bool) (next : nat) : list (option EventId) :=
  match mask with
  | [] => []
  | true :: mask' => Some next :: dense_ids mask' (S next)
  | false :: mask' => None :: dense_ids mask' next
  end.

(** [kept_ids]: the old ids of the kept events, ascending. *)
Definition kept_ids (mask : list bool) : list EventId :=
  List.filter (λ i, bool_decide (mask !! i = Some true)) (seq 0 (length mask)).

Definition reserve_for_bulk_build g (thread_capacity : nat) : ExplorationGraph V :=
  MkExplorationGraph (graph_ g) (resize thread_capacity no_thread_state (thread_state_ g))
    (resize thread_capacity [] (thread_event_ids_ g))
    (resize thread_capacity [] (receive_event_ids_by_thread_ g)) (send_event_ids_ g)
    (send_reader_counts_ g) (unread_send_mask_ g) (known_acyclic_ g)
    (pending_fresh_receive_id_ g) (porf_cache_ g) (event_undo_log_ g) (rf_undo_log_ g).

Definition append_event_for_bulk_build g t (l : EventLabel V) : res (ExplorationGraph V) :=
  '(id, graph') ← ExecutionGraph.add_event (graph_ g) t l;
  let g1 := if decide (length (thread_state_ g) ≤ N.to_nat t)
            then reserve_for_bulk_build g (N.to_nat t + 1) else g in
  g2 ← index_new_event g1 graph' t id;
  update_acyclicity_after_add_event g2 id.

(** One entry of the reads-from remapping loop. *)
Definition remap_rf (id_map : list (option EventId)) g (entry : EventId * ReadsFromSource)
    : res (ExplorationGraph V) :=
  remapped_recv ← vec_get id_map entry.1;
  match remapped_recv with
  | None => Ok g
  | Some recv =>
      match rf_send entry.2 with
      | None => set_reads_from_bottom g recv
      | Some source =>
          remapped_source ← vec_get id_map source;
          match remapped_source with
          | Some send => set_reads_from g recv send
          | None => Ok g
          end
      end
  end.

Definition restrict_from_keep_mask g (keep_mask : list bool) : res (ExplorationGraph V) :=
  if decide (length keep_mask ≠ event_count g) then
    Throw (internal_error "keep mask size must match event count")
  else
    let id_map := dense_ids keep_mask 0 in
    let r0 := reserve_for_bulk_build empty_exploration_graph (length (thread_state_ g)) in
    r1 ← foldM (λ r old_id,
           e ← event g old_id; append_event_for_bulk_build r (thread e) (label e))
         r0 (kept_ids keep_mask);
    r2 ← foldM (remap_rf id_map) r1 (rf_to_list (reads_from g));
    Ok (clear_worker_local_history
          (if known_acyclic_ g then mark_known_acyclic r2
           else invalidate_known_acyclicity r2)).

(** [restrict]: entries of [keep_set] that are not event ids are ignored. *)
Definition restrict g (keep_set : list EventId) : res (ExplorationGraph V) :=
  restrict_from_keep_mask g
    ((λ id, bool_decide (id ∈ keep_set)) <$> seq 0 (event_count g)).

End exploration_graph.
