(* ===== verification/Porf.v ===== *)
(** * Porf: (po U rf) reachability of the exploration graph

    The part of [dpor/model/exploration_graph.hpp] that answers causality queries:
    the compressed-sparse-row adjacency and Kahn's algorithm
    ([build_porf_adjacency_and_order]), the vector-clock cache built on top of it
    ([ensure_porf_cache]) and the queries [porf_contains] and [has_causal_cycle].
    The per-worker scratch buffers are reassigned at the start of every build, so
    they are local values here.  The cache is a mutable member that const queries
    fill: [ensure_porf_cache] returns the graph with its cache filled, and the
    queries take the cache from there. *)

From stdpp Require Import base tactics numbers list strings.
From S2P Require Import Prelude Errors Event Relation ExecutionGraph ExplorationGraph.

(** [++v[i]]. *)
Definition vec_incr (v : list nat) (i : nat) : res (list nat) :=
  x ← vec_get v i; vec_set v i (S x).

Section porf.
Context {V : Type}.
Implicit Types (g : ExplorationGraph V).

(** *** Adjacency *)

(** The immediate program-order edges, thread by thread. *)
Definition po_edges g : list (EventId * EventId) := mjoin (adjacent <$> thread_event_ids_ g).

(** Pass 1 on one edge: out-degree shifted by one, and in-degree. *)
Definition count_edge (st : list nat * list nat) (e : EventId * EventId)
    : res (list nat * list nat) :=
  offsets' ← vec_incr st.1 (e.1 + 1);
  in_degree' ← vec_incr st.2 e.2;
  Ok (offsets', in_degree').

(** [offsets[id + 1] += offsets[id]]. *)
Definition prefix_step (offsets : list nat) (id : nat) : res (list nat) :=
  x ← vec_get offsets id;
  y ← vec_get offsets (id + 1);
  vec_set offsets (id + 1) (y + x).

(** Pass 2 on one edge: [successors[cursor[from]++] = to]. *)
Definition fill_edge (st : list EventId * list nat) (e : EventId * EventId)
    : res (list EventId * list nat) :=
  c ← vec_get st.2 e.1;
  successors' ← vec_set st.1 c e.2;
  cursor' ← vec_set st.2 e.1 (S c);
  Ok (successors', cursor').

(** [--in_degree[succ] == 0U], pushing [succ] when it holds. *)
Definition relax (st : list nat * list EventId) (succ : EventId)
    : res (list nat * list EventId) :=
  d ← vec_get st.1 succ;
  match d with
  | O => Throw undefined_behavior
  | S d' =>
      in_degree' ← vec_set st.1 succ d';
      Ok (in_degree', if decide (d' = 0) then push_back st.2 succ else st.2)
  end.

Record KahnState := MkKahnState {
  ks_in_degree : list nat;
  ks_ready : list EventId;
  ks_topo : list EventId;
}.

(** The targets stored for [node]: [successors[offsets[node] .. offsets[node + 1])]. *)
Definition csr_targets (offsets : list nat) (successors : list EventId) (node : EventId)
    : res (list EventId) :=
  lo ← vec_get offsets node;
  hi ← vec_get offsets (node + 1);
  mapM (vec_get successors) (seq lo (hi - lo)).

(** One iteration of [while (!ready.empty())]. *)
Definition kahn_step (offsets : list nat) (successors : list EventId) (st : KahnState)
    : res (KahnState + list EventId) :=
  match last (ks_ready st) with
  | None => Ok (inr (ks_topo st))
  | Some node =>
      ready' ← pop_back (ks_ready st);
      targets ← csr_targets offsets successors node;
      '(in_degree', ready'') ← foldM relax (ks_in_degree st, ready') targets;
      Ok (inl (MkKahnState in_degree' ready'' (push_back (ks_topo st) node)))
  end.

(** [po_pred]: the immediate program-order predecessor of every event. *)
Definition po_predecessors g : res (list (option EventId)) :=
  foldM (λ pred e, vec_set pred e.2 (Some e.1)) (replicate (event_count g) None) (po_edges g).

(** Fills the CSR buffers and sorts; the order is complete iff there is no cycle. *)
Definition build_porf_adjacency_and_order g : res (bool * list EventId) :=
  let n := event_count g in
  '(offsets1, in_degree1) ← foldM count_edge (replicate (n + 1) 0, replicate n 0) (po_edges g);
  _ ← po_predecessors g;
  rf_edges ← for_each_validated_rf_edge (graph_ g);
  '(offsets2, in_degree) ← foldM count_edge (offsets1, in_degree1) rf_edges;
  offsets ← foldM prefix_step offsets2 (seq 0 n);
  total ← vec_get offsets n;
  '(successors1, cursor1) ← foldM fill_edge (replicate total 0, take n offsets) (po_edges g);
  '(successors, _) ← foldM fill_edge (successors1, cursor1) rf_edges;
  let ready := List.filter (λ id, bool_decide (in_degree !! id = Some 0)) (seq 0 n) in
  topo ← while (S n) nontermination (kahn_step offsets successors)
           (MkKahnState in_degree ready []);
  Ok (bool_decide (length topo = n), topo).

(** Cycle-only check without materializing vector clocks. *)
Definition has_causal_cycle_without_cache g : res bool :=
  '(acyclic, _) ← build_porf_adjacency_and_order g; Ok (negb acyclic).

(** *** Vector clocks *)

Definition empty_cache : PorfCache := MkPorfCache [] [] [] 0 false.

(** Dense clock indices for the threads that have events, and their number. *)
Fixpoint assign_clock_indices (teids : list (list EventId)) (next : nat)
    : list (option nat) * nat :=
  match teids with
  | [] => ([], next)
  | [] :: rest => let '(l, k) := assign_clock_indices rest next in (None :: l, k)
  | _ :: rest => let '(l, k) := assign_clock_indices rest (S next) in (Some next :: l, k)
  end.

Definition compute_positions g : res (list nat) :=
  foldM (λ pos slot, vec_set pos slot.2 slot.1.2) (replicate (event_count g) 0)
    (po_slots (thread_event_ids_ g)).

(** [rf_source]: the send every receive reads from. *)
Definition compute_rf_sources g : res (list (option EventId)) :=
  foldM (λ src entry, match rf_send entry.2 with
                      | Some s => vec_set src entry.1 (Some s)
                      | None => Ok src
                      end)
    (replicate (event_count g) None) (rf_to_list (reads_from g)).

Definition clock_row (width : nat) (cl : list nat) (id : EventId) : list nat :=
  take width (drop (id * width) cl).

Definition join_clocks (a b : list nat) : list nat := zip_with Nat.max a b.

(** The body of the vector-clock loop for event [id]. *)
Definition clock_step g (width : nat) (index_of : list (option nat)) (positions : list nat)
    (po_pred rf_source : list (option EventId)) (cl : list nat) (id : EventId)
    : res (list nat) :=
  pred ← vec_get po_pred id;
  source ← vec_get rf_source id;
  let row0 := clock_row width cl id in
  let row1 := match pred with Some p => clock_row width cl p | None => row0 end in
  let row2 := match source with
              | Some s => join_clocks row1 (clock_row width cl s)
              | None => row1
              end in
  e ← event g id;
  ci ← vec_get index_of (N.to_nat (thread e));
  position ← vec_get positions id;
  match ci with
  | None => Throw undefined_behavior
  | Some c =>
      row3 ← vec_set row2 c (position + 1);
      Ok (list_inserts (id * width) row3 cl)
  end.

(** What [ensure_porf_cache] builds when there is no cache. *)
Definition build_porf_cache g : res PorfCache :=
  let n := event_count g in
  if decide (n = 0) then Ok empty_cache
  else
    '(acyclic, topo) ← build_porf_adjacency_and_order g;
    let '(index_of, width) := assign_clock_indices (thread_event_ids_ g) 0 in
    positions ← compute_positions g;
    if acyclic : bool then
      rf_source ← compute_rf_sources g;
      po_pred ← po_predecessors g;
      cl ← foldM (clock_step g width index_of positions po_pred rf_source)
             (replicate (n * width) 0) topo;
      Ok (MkPorfCache cl positions index_of width false)
    else Ok (MkPorfCache [] positions index_of width true).

Definition ensure_porf_cache g : res (ExplorationGraph V * PorfCache) :=
  match porf_cache_ g with
  | Some cache => Ok (g, cache)
  | None => cache ← build_porf_cache g; Ok (set_cache g (Some cache), cache)
  end.

Definition has_porf_cache g : bool :=
  match porf_cache_ g with Some _ => true | None => false end.

(** Cache-backed causal cycle check, with the graph whose cache it filled. *)
Definition has_causal_cycle g : res (bool * ExplorationGraph V) :=
  '(g', cache) ← ensure_porf_cache g; Ok (has_cycle cache, g').

(** Is (from, to) in (po U rf)+ ? *)
Definition porf_contains g (from to : EventId) : res (bool * ExplorationGraph V) :=
  match events g !! from, events g !! to with
  | Some from_event, Some _ =>
      '(g', cache) ← ensure_porf_cache g;
      if has_cycle cache then
        Throw (precondition_error "porf_contains called on a graph with a causal cycle")
      else if decide (from = to) then Ok (false, g')
      else
        match thread_clock_index cache !! N.to_nat (thread from_event) with
        | Some (Some ci) =>
            stamp ← vec_get (clock_row (num_threads cache) (clocks cache) to) ci;
            position ← vec_get (position_in_thread cache) from;
            Ok (bool_decide (position + 1 ≤ stamp), g')
        | _ => Ok (false, g')
        end
  | _, _ => Throw (precondition_error "event id not found in exploration graph")
  end.

End porf.
