(* ===== verification/Consistency.v ===== *)
(** * Consistency: the checkers of [dpor/model/consistency.hpp]

    Validation of the reads-from relation with issue collection, the depth-first
    causal-cycle test, the FIFO point-to-point clauses, and the checkers composed
    from them, for execution graphs and for exploration graphs.  Matchers may throw,
    so every check that evaluates one returns a [res]. *)

From stdpp Require Import base tactics numbers pretty list strings.
From S2P Require Import Prelude Errors Event Relation ExplorationGraph Porf ExecutionGraph.

Inductive ConsistencyIssueCode :=
| InvalidEventReference
| ReadsFromTargetNotReceive
| ReadsFromSourceNotSend
| MissingReadsFromForReceive
| BlockingReceiveReadsBottom
| SendConsumedMultipleTimes
| ReceiveDestinationMismatch
| ReceiveValueMismatch
| CausalCycle
| FifoP2PUnreadEarlierMatchingSend
| FifoP2PReceiveOrderViolation.

#[export] Instance ConsistencyIssueCode_eq_dec : EqDecision ConsistencyIssueCode.
Proof. solve_decision. Defined.

Record ConsistencyIssue := MkIssue { code : ConsistencyIssueCode; message : string }.

(** [ConsistencyResult] is its vector of issues. *)
Abbreviation ConsistencyResult := (list ConsistencyIssue).

Definition is_consistent (r : ConsistencyResult) : bool :=
  match r with [] => true | _ => false end.

Definition add_issue (r : ConsistencyResult) (c : ConsistencyIssueCode) (m : string)
    : ConsistencyResult := push_back r (MkIssue c m).

Definition add_causal_cycle_issue (r : ConsistencyResult) : ConsistencyResult :=
  add_issue r CausalCycle "program order and reads-from relations form a causal cycle".

(** The state of the validation pass: [ValidationPassResultT] and the two tables. *)
Record Validation := MkValidation {
  v_result : ConsistencyResult;
  v_valid_rf_edges : list (EventId * EventId);
  v_cycle_query_safe : bool;
  v_receive_has_source : list bool;
  v_send_read_count : list nat;
}.

Definition v_issue (v : Validation) (c : ConsistencyIssueCode) (m : string) : Validation :=
  MkValidation (add_issue (v_result v) c m) (v_valid_rf_edges v) (v_cycle_query_safe v)
    (v_receive_has_source v) (v_send_read_count v).

Definition v_unsafe (v : Validation) : Validation :=
  MkValidation (v_result v) (v_valid_rf_edges v) false (v_receive_has_source v)
    (v_send_read_count v).

Definition v_edge (v : Validation) (e : EventId * EventId) : Validation :=
  MkValidation (v_result v) (push_back (v_valid_rf_edges v) e) (v_cycle_query_safe v)
    (v_receive_has_source v) (v_send_read_count v).

Definition v_mark_receive (v : Validation) (id : EventId) : res Validation :=
  flags ← vec_set (v_receive_has_source v) id true;
  Ok (MkValidation (v_result v) (v_valid_rf_edges v) (v_cycle_query_safe v) flags
        (v_send_read_count v)).

(** [if (read_count < 255) ++read_count]: the new count, saturated at one byte. *)
Definition v_count_read (v : Validation) (id : EventId) : res (nat * Validation) :=
  c ← vec_get (v_send_read_count v) id;
  let c' := if decide (c < 255) then S c else c in
  counts ← vec_set (v_send_read_count v) id c';
  Ok (c', MkValidation (v_result v) (v_valid_rf_edges v) (v_cycle_query_safe v)
            (v_receive_has_source v) counts).

Open Scope string_scope.

Section validate.
Context {V : Type}.
Implicit Types (g : ExecutionGraph V).

(** The part of the loop body for a receive that reads from a send. *)
Definition validate_read (collect : bool) (v : Validation) (receive_id source_id : EventId)
    (receive_event : Event V) (r : ReceiveLabel V) (s : SendLabel V) : res Validation :=
  '(read_count, v1) ← v_count_read v source_id;
  let v2 := if decide (1 < read_count)
            then v_issue v1 SendConsumedMultipleTimes
                   ("send event " +:+ pretty source_id +:+
                    " is consumed by more than one receive")
            else v1 in
  let v3 := if decide (destination s ≠ thread receive_event)
            then v_issue v2 ReceiveDestinationMismatch
                   ("receive event " +:+ pretty receive_id +:+ " in thread " +:+
                    pretty (thread receive_event) +:+ " reads from send event " +:+
                    pretty source_id +:+ " targeting thread " +:+ pretty (destination s))
            else v2 in
  accepted ← accepts r (value s);
  let v4 := if accepted : bool then v3
            else v_issue v3 ReceiveValueMismatch
                   ("receive event " +:+ pretty receive_id +:+
                    " does not accept the value sent by event " +:+ pretty source_id) in
  Ok (if collect then v_edge v4 (source_id, receive_id) else v4).

(** The loop body of [validate_graph] on one reads-from entry. *)
Definition validate_entry (collect : bool) g (v : Validation)
    (entry : EventId * ReadsFromSource) : res Validation :=
  let '(receive_id, source) := entry in
  let receive_valid := is_valid_event_id g receive_id in
  let v1 := if receive_valid then v
            else v_unsafe (v_issue v InvalidEventReference
                   ("reads-from target references unknown event id " +:+ pretty receive_id)) in
  let source_valid := match rf_send source with
                      | Some id => is_valid_event_id g id
                      | None => true
                      end in
  let v2 := if source_valid then v1
            else v_unsafe (v_issue v1 InvalidEventReference
                   ("reads-from source references unknown event id " +:+
                    pretty (default 0 (rf_send source)))) in
  if negb (receive_valid && source_valid) then Ok v2
  else
  v3 ← v_mark_receive v2 receive_id;
  receive_event ← event g receive_id;
  let v4 := if is_receive receive_event then v3
            else v_unsafe (v_issue v3 ReadsFromTargetNotReceive
                   ("reads-from target event " +:+ pretty receive_id +:+ " is not a receive")) in
  '(v5, source_label) ←
    match rf_send source with
    | None => Ok (v4, None)
    | Some source_id =>
        source_event ← event g source_id;
        Ok (if is_send source_event then v4
            else v_unsafe (v_issue v4 ReadsFromSourceNotSend
                   ("reads-from source event " +:+ pretty source_id +:+ " is not a send")),
            as_send source_event)
    end;
  match as_receive receive_event with
  | None => Ok v5
  | Some r =>
      match rf_send source with
      | None =>
          Ok (if is_blocking r
              then v_issue v5 BlockingReceiveReadsBottom
                     ("blocking receive event " +:+ pretty receive_id +:+
                      " reads from bottom")
              else v5)
      | Some source_id =>
          match source_label with
          | None => Ok v5
          | Some s => validate_read collect v5 receive_id source_id receive_event r s
          end
      end
  end.

(** The second loop: receives with no reads-from assignment. *)
Definition validate_missing g (tolerance : EventId → bool) (v : Validation) (id : EventId)
    : res Validation :=
  e ← event g id;
  has_source ← vec_get (v_receive_has_source v) id;
  Ok (if negb (is_receive e) || (has_source : bool) || tolerance id then v
      else v_issue v MissingReadsFromForReceive
             ("receive event " +:+ pretty id +:+ " has no reads-from assignment")).

Definition validate_graph (collect : bool) g (tolerance : EventId → bool) : res Validation :=
  let n := length (events_ g) in
  v ← foldM (validate_entry collect g)
        (MkValidation [] [] true (replicate n false) (replicate n 0))
        (rf_to_list (reads_from_ g));
  foldM (validate_missing g tolerance) v (seq 0 n).

(** [NoMissingReadsToleranceT]. *)
Definition no_missing_reads_tolerance (id : EventId) : bool := false.

End validate.
Close Scope string_scope.

(** ** Causal cycles by depth-first search *)

(** The states 0U, 1U and 2U of [visit_state]. *)
Inductive VisitState := Unvisited | OnStack | Finished.

#[export] Instance VisitState_eq_dec : EqDecision VisitState.
Proof. solve_decision. Defined.

(** The loop over the successors inside [dfs]; [visit] is the recursive call. *)
Fixpoint dfs_successors (visit : list VisitState → EventId → res (bool * list VisitState))
    (state : list VisitState) (succs : list EventId) : res (bool * list VisitState) :=
  match succs with
  | [] => Ok (false, state)
  | s :: rest =>
      st ← vec_get state s;
      match st with
      | OnStack => Ok (true, state)
      | Unvisited =>
          '(found, state') ← visit state s;
          if (found : bool) then Ok (true, state') else dfs_successors visit state' rest
      | Finished => dfs_successors visit state rest
      end
  end.

(** [fuel] bounds the recursion depth: the nodes on the stack are distinct. *)
Fixpoint dfs (fuel : nat) (successors : list (list EventId)) (state : list VisitState)
    (node : EventId) : res (bool * list VisitState) :=
  match fuel with
  | O => Throw nontermination
  | S fuel' =>
      state1 ← vec_set state node OnStack;
      succs ← vec_get successors node;
      '(found, state2) ← dfs_successors (dfs fuel' successors) state1 succs;
      if (found : bool) then Ok (true, state2)
      else state3 ← vec_set state2 node Finished; Ok (false, state3)
  end.

(** [for (event_id ...) if (visit_state[event_id] == 0U && dfs(event_id)) return true]. *)
Fixpoint dfs_roots (fuel : nat) (successors : list (list EventId)) (state : list VisitState)
    (roots : list EventId) : res bool :=
  match roots with
  | [] => Ok false
  | id :: rest =>
      st ← vec_get state id;
      match st with
      | Unvisited =>
          '(found, state') ← dfs fuel successors state id;
          if (found : bool) then Ok true else dfs_roots fuel successors state' rest
      | _ => dfs_roots fuel successors state rest
      end
  end.

Definition add_rf_edge (count : nat) (successors : list (list EventId))
    (e : EventId * EventId) : res (list (list EventId)) :=
  if decide (e.1 < count ∧ e.2 < count) then
    ss ← vec_get successors e.1; vec_set successors e.1 (push_back ss e.2)
  else Ok successors.

Definition has_causal_cycle (po : ProgramOrderRelation) (rf_edges : list (EventId * EventId))
    (count : nat) : res bool :=
  po_succs ← mapM (for_each_successor po) (seq 0 count);
  successors ← foldM (add_rf_edge count) po_succs rf_edges;
  dfs_roots (S count) successors (replicate count Unvisited) (seq 0 count).

(** ** FIFO point-to-point *)

Abbreviation Channel := (ThreadId * ThreadId)%type.

Definition channel_lt (a b : Channel) : bool :=
  (a.1 <? b.1)%N || ((a.1 =? b.1)%N && (a.2 <? b.2)%N).

(** [grouped[key].push_back(id)] in a [std::map], an association list sorted by key. *)
Fixpoint channel_push (groups : list (Channel * list EventId)) (key : Channel) (id : EventId)
    : list (Channel * list EventId) :=
  match groups with
  | [] => [(key, [id])]
  | (k, ids) :: rest =>
      if decide (k = key) then (k, push_back ids id) :: rest
      else if channel_lt key k then (key, [id]) :: (k, ids) :: rest
      else (k, ids) :: channel_push rest key id
  end.

Section fifo.
Context {V : Type}.
Implicit Types (g : ExecutionGraph V).

Definition group_fifo_sends g : res (list (Channel * list EventId)) :=
  foldM (λ groups id,
    e ← event g id;
    Ok (match as_send e with
        | None => groups
        | Some s => channel_push groups (thread e, destination s) id
        end)) [] (send_event_ids g).

Definition record_consumer g (consumers : list (option EventId))
    (entry : EventId * ReadsFromSource) : res (list (option EventId)) :=
  let '(receive_id, source) := entry in
  match rf_send source with
  | None => Ok consumers
  | Some source_id =>
      if negb (is_valid_event_id g receive_id && is_valid_event_id g source_id) then Ok consumers
      else
        receive_event ← event g receive_id;
        send_event ← event g source_id;
        match as_receive receive_event, as_send send_event with
        | Some r, Some s =>
            if decide (destination s ≠ thread receive_event) then Ok consumers
            else
              accepted ← accepts r (value s);
              if (accepted : bool) then vec_set consumers source_id (Some receive_id)
              else Ok consumers
        | _, _ => Ok consumers
        end
  end.

Definition compute_send_consumers g : res (list (option EventId)) :=
  foldM (record_consumer g) (replicate (length (events_ g)) None) (rf_to_list (reads_from_ g)).

(** The condition under which clause (b) reports [earlier_send_id]. *)
Definition clause_b_hit g (consumers : list (option EventId)) (r : ReceiveLabel V)
    (earlier_send_id : EventId) : res bool :=
  c ← vec_get consumers earlier_send_id;
  match c with
  | Some _ => Ok false
  | None =>
      e ← event g earlier_send_id;
      match as_send e with
      | None => Ok false
      | Some s => accepts r (value s)
      end
  end.

Definition clause_b_at g (consumers : list (option EventId)) (send_ids : list EventId)
    (result : ConsistencyResult) (later : nat * EventId) : res ConsistencyResult :=
  c ← vec_get consumers later.2;
  match c with
  | None => Ok result
  | Some consumer =>
      receive_event ← event g consumer;
      match as_receive receive_event with
      | None => Ok result
      | Some r =>
          hit ← findM (clause_b_hit g consumers r) (take later.1 send_ids);
          Ok (match hit with
              | None => result
              | Some earlier => add_issue result FifoP2PUnreadEarlierMatchingSend
                  ("receive event " +:+ pretty consumer +:+ " reads from send event " +:+
                   pretty later.2 +:+ " while unread earlier matching send event " +:+
                   pretty earlier +:+ " remains available")
              end)
      end
  end.

Definition add_fifo_p2p_clause_b_issues g (groups : list (Channel * list EventId))
    (consumers : list (option EventId)) (result : ConsistencyResult) : res ConsistencyResult :=
  foldM (λ result group,
    foldM (clause_b_at g consumers group.2) result (imap pair group.2)) result groups.

(** The condition under which clause (c) reports [earlier_send_id]; [er] is the
    receive event that consumed the later send. *)
Definition clause_c_hit g (consumers : list (option EventId)) (er : Event V)
    (r : ReceiveLabel V) (earlier_send_id : EventId) : res bool :=
  c ← vec_get consumers earlier_send_id;
  match c with
  | None => Ok false
  | Some later_receive_id =>
      lr ← event g later_receive_id;
      if decide (thread lr ≠ thread er ∨ (index lr ≤ index er)%N) then Ok false
      else
        e ← event g earlier_send_id;
        match as_send e with
        | None => Ok false
        | Some s => accepts r (value s)
        end
  end.

Definition clause_c_at g (consumers : list (option EventId)) (send_ids : list EventId)
    (result : ConsistencyResult) (later : nat * EventId) : res ConsistencyResult :=
  c ← vec_get consumers later.2;
  match c with
  | None => Ok result
  | Some earlier_receive_id =>
      er ← event g earlier_receive_id;
      match as_receive er with
      | None => Ok result
      | Some r =>
          hit ← findM (clause_c_hit g consumers er r) (take later.1 send_ids);
          match hit with
          | None => Ok result
          | Some earlier =>
              later_receive ← vec_get consumers earlier;
              Ok (add_issue result FifoP2PReceiveOrderViolation
                    ("receive event " +:+ pretty earlier_receive_id +:+
                     " consumes later send event " +:+ pretty later.2 +:+
                     " before receive event " +:+ pretty (default 0 later_receive) +:+
                     " consumes earlier matching send event " +:+ pretty earlier))
          end
      end
  end.

Definition add_fifo_p2p_clause_c_issues g (groups : list (Channel * list EventId))
    (consumers : list (option EventId)) (result : ConsistencyResult) : res ConsistencyResult :=
  foldM (λ result group,
    foldM (clause_c_at g consumers group.2) result (imap pair group.2)) result groups.

Definition add_fifo_p2p_issues g (result : ConsistencyResult) : res ConsistencyResult :=
  groups ← group_fifo_sends g;
  consumers ← compute_send_consumers g;
  r1 ← add_fifo_p2p_clause_b_issues g groups consumers result;
  add_fifo_p2p_clause_c_issues g groups consumers r1.

End fifo.

(** ** The checkers *)

Section checkers.
Context {V : Type}.

Definition check_async_execution_graph (g : ExecutionGraph V) (tolerance : EventId → bool)
    : res ConsistencyResult :=
  v ← validate_graph true g tolerance;
  po ← po_relation g;
  cyclic ← has_causal_cycle po (v_valid_rf_edges v) (length (events_ g));
  Ok (if (cyclic : bool) then add_causal_cycle_issue (v_result v) else v_result v).

(** Also returns the graph: the check may fill its cache and mark it acyclic. *)
Definition check_async_exploration_graph (g : ExplorationGraph V) (tolerance : EventId → bool)
    : res (ConsistencyResult * ExplorationGraph V) :=
  v ← validate_graph false (graph_ g) tolerance;
  if negb (v_cycle_query_safe v) then
    r ← check_async_execution_graph (graph_ g) tolerance; Ok (r, g)
  else
    '(cyclic, g1) ←
      (if is_known_acyclic g then Ok (false, g)
       else if has_porf_cache g then Porf.has_causal_cycle g
       else c ← has_causal_cycle_without_cache g; Ok (c, g));
    if (cyclic : bool) then Ok (add_causal_cycle_issue (v_result v), g1)
    else Ok (v_result v,
             if is_consistent (v_result v) then mark_known_acyclic g1 else g1).

Definition check_execution_graph (g : ExecutionGraph V) (model : CommunicationModel)
    (tolerance : EventId → bool) : res ConsistencyResult :=
  r ← check_async_execution_graph g tolerance;
  if decide (model = FifoP2P ∧ is_consistent r = true) then add_fifo_p2p_issues g r
  else Ok r.

Definition check_exploration_graph (g : ExplorationGraph V) (model : CommunicationModel)
    (tolerance : EventId → bool) : res (ConsistencyResult * ExplorationGraph V) :=
  '(r, g1) ← check_async_exploration_graph g tolerance;
  if decide (model = FifoP2P ∧ is_consistent r = true) then
    r' ← add_fifo_p2p_issues (graph_ g1) r; Ok (r', g1)
  else Ok (r, g1).

(** [ConsistencyCheckerT(model)::check] on both graph types; the [Async] and [FifoP2P]
    checker classes fix the model. *)
Definition check (model : CommunicationModel) (g : ExecutionGraph V) : res ConsistencyResult :=
  check_execution_graph g model no_missing_reads_tolerance.

Definition check_exploration (model : CommunicationModel) (g : ExplorationGraph V)
    : res (ConsistencyResult * ExplorationGraph V) :=
  check_exploration_graph g model no_missing_reads_tolerance.

End checkers.
