(* ===== verification/StorageFacts.v ===== *)
(** * StorageFacts: the storage classes of the execution graph

    [ReadsFromRelation] behaves as a finite map from receives to sources with a
    correct element count and an ascending iteration, and [UsedEventIndexSet] as a
    set of 32-bit indices, saturation at the largest index included. *)

From stdpp Require Import base tactics numbers sets list strings.
From S2P Require Import Prelude Errors Event ExecutionGraph.

(** ** Reads-from *)

Section reads_from.
Implicit Types (r : ReadsFromRelation) (s : ReadsFromSource).

Lemma rf_find_Some r i s : rf_find r i = Some s ↔ rf_entries r !! i = Some (Some s).
Proof. unfold rf_find. destruct (rf_entries r !! i) as [[]|]; naive_solver. Qed.

Lemma rf_find_default r i : rf_find r i = default None (rf_entries r !! i).
Proof. unfold rf_find. by destruct (rf_entries r !! i) as [[]|]. Qed.

Lemma rf_find_set r i j s :
  rf_find (rf_set r i s) j = if decide (i = j) then Some s else rf_find r j.
Proof.
  rewrite !rf_find_default. unfold rf_set. simpl.
  rewrite lookup_insert_default by (rewrite length_grow; lia).
  case_decide; [done|]. by rewrite lookup_grow_default.
Qed.

Lemma rf_find_clear r i j :
  rf_find (rf_clear r i) j = if decide (i = j) then None else rf_find r j.
Proof.
  unfold rf_clear. destruct (rf_find r i) as [s|] eqn:E.
  - rewrite !rf_find_default. simpl. apply rf_find_Some, lookup_lt_Some in E as Hlt.
    by rewrite lookup_insert_default by done.
  - case_decide; subst; done.
Qed.

Lemma present_entries_elem entries k i s :
  (i, s) ∈ present_entries entries k ↔ ∃ j, i = k + j ∧ entries !! j = Some (Some s).
Proof.
  revert k. induction entries as [|[s'|] entries IH]; intros k; simpl.
  - set_solver.
  - rewrite elem_of_cons, IH. split.
    + intros [[= -> ->]|(j & -> & Hj)]; [exists 0; split; [lia|done]|].
      exists (S j). split; [lia|done].
    + intros ([|j] & -> & Hj); simpl in Hj; [left; simplify_eq; f_equal; lia|].
      right. exists j. split; [lia|done].
  - rewrite IH. split.
    + intros (j & -> & Hj). exists (S j). split; [lia|done].
    + intros ([|j] & -> & Hj); simpl in Hj; [done|]. exists j. split; [lia|done].
Qed.

Lemma rf_to_list_elem r i s : (i, s) ∈ rf_to_list r ↔ rf_find r i = Some s.
Proof.
  unfold rf_to_list. rewrite present_entries_elem, rf_find_Some. split.
  - by intros (j & -> & Hj).
  - intros Hi. by exists i.
Qed.

Lemma present_entries_lower entries k i s : (i, s) ∈ present_entries entries k → k ≤ i.
Proof. intros (j & -> & _)%present_entries_elem. lia. Qed.

Lemma present_entries_nodup entries k : NoDup (fst <$> present_entries entries k).
Proof.
  revert k. induction entries as [|[s|] entries IH]; intros k; simpl; [constructor| |apply IH].
  constructor; [|apply IH].
  intros ([i s'] & -> & Hin%present_entries_lower)%list_elem_of_fmap. simpl in Hin. lia.
Qed.

Lemma rf_to_list_nodup r : NoDup (fst <$> rf_to_list r).
Proof. apply present_entries_nodup. Qed.

(** Iteration with [begin]/[operator++]/[end] visits the present entries in order. *)
Lemma present_entries_drop entries i :
  let it := advance_to_present (drop i entries) i in
  i ≤ length entries →
  it ≤ length entries ∧ i ≤ it ∧
  present_entries (drop i entries) i = present_entries (drop it entries) it ∧
  (it < length entries → ∃ s, entries !! it = Some (Some s)).
Proof.
  intros it Hi. remember (drop i entries) as rest eqn:Hrest.
  subst it. revert i Hi Hrest. induction rest as [|o rest IH]; intros i Hi Hrest.
  - simpl. rewrite <-Hrest. split_and!; [done|done|done|].
    intros Hlt. apply (f_equal length) in Hrest. rewrite length_drop in Hrest. simpl in *. lia.
  - assert (entries !! i = Some o) as Hio.
    { apply (f_equal (.!! 0)) in Hrest. rewrite lookup_drop in Hrest.
      by rewrite Nat.add_0_r in Hrest. }
    destruct o as [s|]; simpl.
    + rewrite <-Hrest. simpl. split_and!; [done|done|done|]. intros _. by exists s.
    + apply lookup_lt_Some in Hio as Hlt.
      assert (rest = drop (S i) entries) as Hrest'.
      { rewrite (drop_S entries None i Hio) in Hrest. by injection Hrest. }
      destruct (IH (S i) ltac:(lia) Hrest') as (? & ? & ? & ?). split_and!; [done|lia|done|done].
Qed.

Lemma rf_walk_correct r : rf_walk r = Ok (rf_to_list r).
Proof.
  unfold rf_walk, rf_begin, rf_iterator.
  destruct (while_total nontermination (rf_walk_step r)
    (λ st, st.1 ≤ length (rf_entries r) ∧
       (st.1 < length (rf_entries r) → ∃ s, rf_entries r !! st.1 = Some (Some s)) ∧
       st.2 ++ present_entries (drop st.1 (rf_entries r)) st.1 = rf_to_list r)
    (λ st, length (rf_entries r) - st.1) (λ l, l = rf_to_list r))
    with (fuel := S (length (rf_entries r)))
         (s := (advance_to_present (drop 0 (rf_entries r)) 0, @nil (EventId * ReadsFromSource)))
    as (l & Hl & ->); [| | |exact Hl].
  - intros [it acc] (Hle & Hpres & Hacc). simpl in *. unfold rf_walk_step, rf_end. simpl.
    case_decide as Hend.
    + eexists. split; [done|]. rewrite Hend, drop_all in Hacc. simpl in Hacc.
      by rewrite app_nil_r in Hacc.
    + destruct (Hpres ltac:(lia)) as [s Hs]. unfold rf_deref. rewrite Hs. simpl.
      eexists. split; [done|]. simpl. unfold rf_next, rf_iterator.
      destruct (present_entries_drop (rf_entries r) (S it) ltac:(lia)) as (H1 & H2 & H3 & H4).
      split_and!; [done|done| |lia].
      rewrite <-H3. unfold push_back. rewrite <-app_assoc. rewrite <-Hacc. f_equal.
      by rewrite (drop_S _ _ _ Hs).
  - destruct (present_entries_drop (rf_entries r) 0 ltac:(lia)) as (H1 & _ & H3 & H4).
    simpl. split_and!; [done|done|]. rewrite <-H3. by rewrite drop_0.
  - simpl. lia.
Qed.

(** *** The element count *)

Definition present (o : option ReadsFromSource) : nat :=
  match o with Some _ => 1 | None => 0 end.

Lemma present_entries_insert entries i k o o' :
  entries !! i = Some o →
  length (present_entries (<[i := o']> entries) k) + present o =
  length (present_entries entries k) + present o'.
Proof.
  revert i k. induction entries as [|x entries IH]; intros [|i] k Hi; simpl in *; [done..| |].
  - simplify_eq. destruct o, o'; simpl; lia.
  - specialize (IH i (S k) Hi). destruct x; simpl; lia.
Qed.

Lemma present_entries_app_none entries k m :
  length (present_entries (entries ++ replicate m None) k) = length (present_entries entries k).
Proof.
  revert k. induction entries as [|[x|] entries IH]; intros k; simpl.
  - revert k. induction m; intros k; simpl; auto.
  - by rewrite IH.
  - by rewrite IH.
Qed.

Lemma present_entries_grow entries n k :
  length (present_entries (grow n None entries) k) = length (present_entries entries k).
Proof.
  unfold grow. case_decide; [done|]. rewrite resize_ge by lia. apply present_entries_app_none.
Qed.

Definition rf_wf r : Prop := rf_size r = length (rf_to_list r).

Lemma rf_set_wf r i s : rf_wf r → rf_wf (rf_set r i s).
Proof.
  unfold rf_wf, rf_set, rf_to_list. intros ->. simpl.
  pose proof (present_entries_insert (grow (S i) None (rf_entries r)) i 0
    (default None (grow (S i) None (rf_entries r) !! i)) (Some s)) as Hp.
  rewrite present_entries_grow in Hp. simpl in Hp.
  rewrite lookup_grow_default, <-rf_find_default in Hp.
  specialize (Hp ltac:(rewrite rf_find_default, <-(lookup_grow_default (S i));
    apply lookup_default_Some; rewrite length_grow; lia)).
  destruct (rf_find r i); simpl in *; lia.
Qed.

Lemma rf_clear_wf r i : rf_wf r → rf_wf (rf_clear r i).
Proof.
  unfold rf_wf, rf_clear, rf_to_list. intros Hsz.
  destruct (rf_find r i) as [s|] eqn:E; [|done]. simpl.
  apply rf_find_Some in E. pose proof (present_entries_insert _ i 0 _ None E). simpl in *. lia.
Qed.

Lemma rf_empty_wf : rf_wf rf_empty.
Proof. done. Qed.

End reads_from.

(** ** Used indices *)

Section used.
Implicit Types (s : UsedEventIndexSet) (i j : EventIndex).

(** The sparse part lies at or above the dense prefix, has no duplicates, and meets
    the end of the prefix only at the largest index. *)
Record used_wf s : Prop := {
  uw_nodup : NoDup (sparse s);
  uw_above : ∀ i, i ∈ sparse s → (dense_end s ≤ i ≤ kMaxIndex)%N;
  uw_dense : (dense_end s ≤ kMaxIndex)%N;
  uw_gap : dense_end s ∈ sparse s → dense_end s = kMaxIndex;
}.

Lemma find_sparse_elem s i : is_Some (find_sparse s i) ↔ i ∈ sparse s.
Proof.
  unfold find_sparse. rewrite fmap_is_Some. split.
  - intros [[k x] (Hx & -> & _)%list_find_Some]. by eapply list_elem_of_lookup_2.
  - intros Hi. by eapply list_find_elem_of.
Qed.

Lemma find_sparse_Some s i k : find_sparse s i = Some k → sparse s !! k = Some i.
Proof.
  unfold find_sparse. intros ([k' x] & H & ->)%fmap_Some.
  apply list_find_Some in H as (Hx & -> & _). done.
Qed.

Lemma used_contains_spec s i :
  used_contains s i = true ↔ (i < dense_end s)%N ∨ i ∈ sparse s.
Proof.
  unfold used_contains. rewrite orb_true_iff, !bool_decide_eq_true, find_sparse_elem. done.
Qed.

Lemma used_contains_bound s i :
  used_wf s → used_contains s i = true → (i ≤ kMaxIndex)%N.
Proof.
  intros Hwf [Hi|Hi]%used_contains_spec; [pose proof (uw_dense s Hwf); lia|].
  by apply (uw_above s Hwf).
Qed.

(** Swap-and-pop removes one occurrence and permutes the rest. *)
Lemma swap_remove_perm {A} (l : list A) k x :
  l !! k = Some x → l ≡ₚ x :: swap_remove k l.
Proof.
  intros Hk. unfold swap_remove.
  destruct l as [|b l' _] using rev_ind; [done|].
  rewrite last_snoc, length_app. simpl.
  replace (length l' + 1 - 1) with (length l') by lia.
  apply lookup_app_Some in Hk as [Hk|[Hge Hk]].
  - apply lookup_lt_Some in Hk as Hlt.
    rewrite insert_app_l by done.
    rewrite take_app_le by (rewrite length_insert; lia).
    rewrite take_ge by (rewrite length_insert; lia).
    rewrite <-(take_drop_middle l' k x Hk) at 1.
    rewrite insert_take_drop by done. solve_Permutation.
  - destruct (k - length l') eqn:Ek; simpl in Hk; [|done]. simplify_eq.
    replace k with (length l' + 0) by lia. rewrite insert_app_r. simpl.
    rewrite take_app_length. solve_Permutation.
Qed.

Lemma swap_remove_elem s i k x :
  NoDup (sparse s) → find_sparse s i = Some k →
  (x ∈ swap_remove k (sparse s) ↔ x ∈ sparse s ∧ x ≠ i) ∧ NoDup (swap_remove k (sparse s)).
Proof.
  intros Hnd Hk%find_sparse_Some. pose proof (swap_remove_perm _ _ _ Hk) as Hp.
  generalize dependent (swap_remove k (sparse s)). intros rest Hp.
  rewrite Hp in Hnd. apply NoDup_cons in Hnd as [Hni Hnd]. split; [|done].
  rewrite Hp, elem_of_cons. split; [intros Hx; split; [by right|]; intros ->; done|].
  intros [[->|?] ?]; done.
Qed.

Lemma absorb_sparse_loop_spec fuel s :
  length (sparse s) ≤ fuel → NoDup (sparse s) →
  (∀ i, i ∈ sparse s → dense_end s ≤ i ≤ kMaxIndex)%N → (dense_end s ≤ kMaxIndex)%N →
  used_wf (absorb_sparse_loop fuel s) ∧
  ∀ i, used_contains (absorb_sparse_loop fuel s) i = true ↔ used_contains s i = true.
Proof.
  revert s. induction fuel as [|fuel IH]; intros s Hlen Hnd Hab Hd; simpl.
  { split; [|done]. split; [done..|]. destruct (sparse s); [set_solver|simpl in Hlen; lia]. }
  destruct (find_sparse s (dense_end s)) as [k|] eqn:E.
  - case_decide as Hmax; [split; [|done]; by split|].
    pose proof (swap_remove_perm _ _ _ (find_sparse_Some _ _ _ E)) as Hp.
    destruct (IH (MkUsedEventIndexSet (dense_end s + 1) (swap_remove k (sparse s))))
      as [Hwf Hc]; simpl.
    + apply Permutation_length in Hp. simpl in Hp. lia.
    + by apply (swap_remove_elem s (dense_end s) k 0%N).
    + intros i Hi. apply (swap_remove_elem s (dense_end s)) in Hi as [Hi Hne]; [|done..].
      specialize (Hab i Hi). lia.
    + lia.
    + split; [done|]. intros i. rewrite Hc, !used_contains_spec. simpl.
      rewrite (proj1 (swap_remove_elem s (dense_end s) k i Hnd E)).
      apply find_sparse_Some, list_elem_of_lookup_2 in E.
      destruct (decide (i = dense_end s)) as [->|]; [split; intros; [by right|left; lia]|].
      split; intros [?|?]; [left; lia|right; tauto|left; lia|right; tauto].
  - split; [|done]. split; [done..|]. intros Hin%find_sparse_elem. rewrite E in Hin.
    by destruct Hin.
Qed.

Lemma used_empty_wf : used_wf used_empty.
Proof. split; simpl; [constructor|set_solver|done|set_solver]. Qed.

Lemma used_empty_contains i : used_contains used_empty i = false.
Proof.
  destruct (used_contains used_empty i) eqn:E; [|done].
  apply used_contains_spec in E as [?|?]; simpl in *; [lia|set_solver].
Qed.

(** [insert] adds exactly the new index. *)
Lemma used_insert_spec s i :
  used_wf s → used_contains s i = false → (i ≤ kMaxIndex)%N →
  used_wf (used_insert s i) ∧
  ∀ j, used_contains (used_insert s i) j = true ↔ used_contains s j = true ∨ j = i.
Proof.
  intros [Hnd Hab Hd Hgap] Hnc Hi. apply not_true_iff_false in Hnc.
  rewrite used_contains_spec in Hnc. unfold used_insert. case_decide as Hcase.
  - destruct Hcase as [-> Hne]. unfold absorb_sparse.
    destruct (absorb_sparse_loop_spec (length (sparse s))
      (MkUsedEventIndexSet (dense_end s + 1) (sparse s))) as [Hwf Hc]; simpl.
    + done.
    + done.
    + intros j Hj. specialize (Hab j Hj). assert (j ≠ dense_end s) by naive_solver. lia.
    + lia.
    + split; [done|]. intros j. simpl in Hc. rewrite Hc, !used_contains_spec. simpl.
      split; [intros [?|?]|intros [[?|?]|?]]; try tauto; try (left; lia).
      destruct (decide (j = dense_end s)); [by right|]. left. left. lia.
  - unfold push_back. split.
    + split; simpl.
      * apply NoDup_app. split_and!; [done|set_solver|apply NoDup_singleton].
      * intros j [Hj|Hj%list_elem_of_singleton]%elem_of_app; [by apply Hab|]. subst j. lia.
      * done.
      * intros [Hj|Hj%list_elem_of_singleton]%elem_of_app; [by apply Hgap|].
        destruct (decide (dense_end s = kMaxIndex)); [done|]. exfalso. apply Hcase. by subst i.
    + intros j. rewrite !used_contains_spec. simpl.
      rewrite elem_of_app, list_elem_of_singleton. tauto.
Qed.

Lemma indices_above_elem i finish j :
  j ∈ indices_above i finish ↔ (i + 1 ≤ j < finish)%N.
Proof.
  unfold indices_above. rewrite list_elem_of_fmap. setoid_rewrite elem_of_seq. split.
  - intros (k & -> & Hk). lia.
  - intros Hj. exists (N.to_nat (j - (i + 1))). lia.
Qed.

Lemma indices_above_nodup i finish : NoDup (indices_above i finish).
Proof. apply NoDup_fmap_2; [intros ?? ?; lia|apply NoDup_seq]. Qed.

(** [erase] removes exactly the given index and reports whether it was there. *)
Lemma used_erase_spec s i :
  used_wf s →
  fst (used_erase s i) = (if used_contains s i then 1 else 0) ∧
  used_wf (snd (used_erase s i)) ∧
  ∀ j, used_contains (snd (used_erase s i)) j = true ↔ used_contains s j = true ∧ j ≠ i.
Proof.
  intros [Hnd Hab Hd Hgap]. unfold used_erase.
  destruct (find_sparse s i) as [k|] eqn:E.
  - pose proof (find_sparse_Some _ _ _ E) as Hin%list_elem_of_lookup_2.
    assert (used_contains s i = true) as -> by (apply used_contains_spec; by right).
    split; [done|]. simpl. split.
    + split; simpl; [by apply (swap_remove_elem s i k 0%N)| |done|].
      * intros j Hj. apply (swap_remove_elem s i) in Hj as [Hj _]; [by apply Hab|done..].
      * intros Hj. apply (swap_remove_elem s i) in Hj as [Hj _]; [by apply Hgap|done..].
    + intros j. rewrite !used_contains_spec. simpl.
      rewrite (proj1 (swap_remove_elem s i k j Hnd E)). specialize (Hab i Hin).
      split; [intros [?|?]|intros [[?|?] ?]]; try tauto.
      split; [by left|]. intros ->. lia.
  - assert (i ∉ sparse s) as Hni.
    { intros Hin%find_sparse_elem. rewrite E in Hin. by destruct Hin. }
    case_decide as Hle; simpl.
    + assert (used_contains s i = false) as Hc.
      { apply not_true_iff_false. rewrite used_contains_spec. intros [?|?]; [lia|done]. }
      rewrite Hc. split; [done|]. split; [by split|]. intros j. split; [|tauto].
      intros Hj. split; [done|]. intros ->. congruence.
    + assert (used_contains s i = true) as -> by (apply used_contains_spec; left; lia).
      split; [done|]. split.
      * split; simpl; [|intros j|lia|].
        -- apply NoDup_app. split_and!; [done| |apply indices_above_nodup].
           intros j Hj Hj'%indices_above_elem. specialize (Hab j Hj). lia.
        -- intros [Hj|Hj%indices_above_elem]%elem_of_app; [specialize (Hab j Hj)|]; lia.
        -- intros [Hj|Hj%indices_above_elem]%elem_of_app; [done|lia].
      * intros j. rewrite !used_contains_spec. simpl.
        rewrite elem_of_app, indices_above_elem. destruct (decide (j = i)) as [->|].
        -- split; [intros [?|[?|?]]; [lia|done|lia]|tauto].
        -- split; [intros [?|[?|?]]|intros [[?|?] _]].
           ++ split; [left; lia|done].
           ++ tauto.
           ++ split; [left; lia|done].
           ++ destruct (decide (j < i)%N); [by left|]. right. right. lia.
           ++ tauto.
Qed.

End used.
