(* ===== verification/ExecutionGraphFacts.v ===== *)
(** * ExecutionGraphFacts: the execution graph keeps its insertion invariant

    [graph_wf] is the invariant both insertion paths maintain: per-thread indices
    strictly increase, the used-index sets record exactly the indices present, and
    the next index lies above them.  From it follow the success and error behaviour
    of every mutator and the correctness of the derived program order. *)

From stdpp Require Import base tactics numbers sets relations list strings.
From S2P Require Import Prelude Errors Event Relation RelationFacts ExecutionGraph StorageFacts.

(** ** Ascending id lists *)

Section ids.
Context {V : Type}.
Implicit Types (es : list (Event V)) (p : Event V → bool).

Lemma ids_where_elem p es i : i ∈ ids_where p es ↔ ∃ e, es !! i = Some e ∧ p e = true.
Proof.
  unfold ids_where. rewrite list_elem_of_In, filter_In, <-list_elem_of_In, elem_of_seq. split.
  - intros [_ Hi]. destruct (es !! i) as [e|]; [by exists e|done].
  - intros (e & Hi & Hp). rewrite Hi. apply lookup_lt_Some in Hi. split; [lia|done].
Qed.

Lemma ids_where_nil p : ids_where p ([] : list (Event V)) = [].
Proof. done. Qed.

Lemma ids_where_snoc p es e :
  ids_where p (es ++ [e]) = ids_where p es ++ (if p e then [length es] else []).
Proof.
  unfold ids_where. rewrite length_app. simpl. rewrite seq_app, List.filter_app. simpl.
  rewrite lookup_app_r, Nat.sub_diag by lia. simpl. f_equal.
  apply filter_ext_in. intros i Hi%list_elem_of_In%elem_of_seq.
  by rewrite lookup_app_l by lia.
Qed.

Lemma ids_where_nodup p es : NoDup (ids_where p es).
Proof. apply NoDup_ListNoDup, List.NoDup_filter, NoDup_ListNoDup, NoDup_seq. Qed.

Lemma ids_where_bound p es i : i ∈ ids_where p es → i < length es.
Proof. intros (e & He & _)%ids_where_elem. by eapply lookup_lt_Some. Qed.

(** Positions in an id list are in the order of the ids. *)
Lemma ids_where_sorted p es i j a b :
  ids_where p es !! i = Some a → ids_where p es !! j = Some b → i < j ↔ a < b.
Proof.
  assert (∀ es i j a b, ids_where p es !! i = Some a → ids_where p es !! j = Some b →
    i < j → a < b) as Hmono.
  { clear. intros es. induction es as [|e es IH] using rev_ind; intros i j a b; [done|].
    rewrite ids_where_snoc. intros Ha Hb Hij.
    apply lookup_app_Some in Ha as [Ha|[Ha1 Ha2]];
      apply lookup_app_Some in Hb as [Hb|[Hb1 Hb2]].
    - by eapply IH.
    - apply list_elem_of_lookup_2, ids_where_bound in Ha. destruct (p e); [|done].
      apply list_lookup_singleton_Some in Hb2 as [_ <-]. done.
    - apply lookup_lt_Some in Hb. lia.
    - destruct (p e); [|done]. apply list_lookup_singleton_Some in Ha2 as [? _].
      apply list_lookup_singleton_Some in Hb2 as [? _]. lia. }
  intros Ha Hb. split; [by eapply Hmono|]. intros Hlt.
  destruct (decide (i < j)) as [|Hge]; [done|]. destruct (decide (i = j)) as [->|].
  - simplify_eq. lia.
  - pose proof (Hmono es j i b a Hb Ha ltac:(lia)). lia.
Qed.

(** The events of thread [t], in insertion order. *)
Definition on_thread (t : ThreadId) (e : Event V) : bool := bool_decide (thread e = t).

Definition thread_ids es (t : ThreadId) : list EventId := ids_where (on_thread t) es.

Lemma thread_ids_elem es t i : i ∈ thread_ids es t ↔ ∃ e, es !! i = Some e ∧ thread e = t.
Proof.
  unfold thread_ids. rewrite ids_where_elem. unfold on_thread.
  by setoid_rewrite bool_decide_eq_true.
Qed.

Lemma thread_ids_snoc es t e :
  thread_ids (es ++ [e]) t =
  thread_ids es t ++ (if decide (thread e = t) then [length es] else []).
Proof.
  unfold thread_ids. rewrite ids_where_snoc. unfold on_thread.
  by case_decide; [rewrite bool_decide_eq_true_2|rewrite bool_decide_eq_false_2].
Qed.

(** Program order: same thread, insertion order. *)
Definition po es (a b : EventId) : Prop :=
  a < b ∧ ∃ ea eb, es !! a = Some ea ∧ es !! b = Some eb ∧ thread ea = thread eb.

End ids.

(** ** The invariant *)

Section wf.
Context {V : Type}.
Implicit Types (g : ExecutionGraph V) (t : ThreadId) (es : list (Event V)).

(** Thread [t] has an event with index [i]. *)
Definition has_index es t (i : EventIndex) : Prop :=
  ∃ k e, es !! k = Some e ∧ thread e = t ∧ index e = i.

(** The bookkeeping of one thread: the set of used indices and the next index. *)
Definition thread_book es t (next : EventIndex) (used : UsedEventIndexSet) : Prop :=
  used_wf used ∧ (next ≤ kMaxIndex)%N ∧
  (∀ i, used_contains used i = true ↔ has_index es t i) ∧
  (∀ i, has_index es t i → (i < next)%N ∨ (i = kMaxIndex ∧ next = kMaxIndex)).

Record graph_wf g : Prop := {
  gw_rf : rf_wf (reads_from_ g);
  gw_len : length (used_event_indices_by_thread_ g) = length (next_event_index_by_thread_ g);
  gw_cap : (N.of_nat (length (next_event_index_by_thread_ g)) ≤ kMaxThreadId + 1)%N;
  gw_storage : ∀ k e, events_ g !! k = Some e →
    N.to_nat (thread e) < length (next_event_index_by_thread_ g);
  gw_book : ∀ t next used,
    next_event_index_by_thread_ g !! N.to_nat t = Some next →
    used_event_indices_by_thread_ g !! N.to_nat t = Some used →
    thread_book (events_ g) t next used;
  gw_sorted : ∀ i j ei ej, events_ g !! i = Some ei → events_ g !! j = Some ej →
    thread ei = thread ej → i < j → (index ei < index ej)%N;
}.

Lemma empty_graph_wf : graph_wf empty_graph.
Proof. split; simpl; [done|done|lia|done|done|done]. Qed.

Lemma has_index_snoc es t i e :
  has_index (es ++ [e]) t i ↔ has_index es t i ∨ (thread e = t ∧ index e = i).
Proof.
  unfold has_index. split.
  - intros (k & e' & Hk & Ht & Hi). apply lookup_app_Some in Hk as [Hk|[_ Hk]].
    + left. eauto.
    + apply list_lookup_singleton_Some in Hk as [_ <-]. by right.
  - intros [(k & e' & Hk & Ht & Hi)|[Ht Hi]].
    + exists k, e'. split_and!; [by apply lookup_app_l_Some|done..].
    + exists (length es), e. by rewrite lookup_app_r, Nat.sub_diag by lia.
Qed.

(** *** Thread storage *)

Lemma ensure_thread_storage_Ok g t :
  graph_wf g → (t ≤ kMaxThreadId)%N →
  ∃ g', ensure_thread_storage g t = Ok g' ∧ graph_wf g' ∧ events_ g' = events_ g ∧
    reads_from_ g' = reads_from_ g ∧
    N.to_nat t < length (next_event_index_by_thread_ g') ∧
    (∀ i, default 0%N (next_event_index_by_thread_ g' !! i) =
          default 0%N (next_event_index_by_thread_ g !! i)) ∧
    (∀ i, default used_empty (used_event_indices_by_thread_ g' !! i) =
          default used_empty (used_event_indices_by_thread_ g !! i)).
Proof.
  intros Hwf Ht. pose proof Hwf as [Hrf Hlen Hcap Hst Hbook Hsort].
  unfold ensure_thread_storage. case_decide as Hgrow.
  2:{ exists g. split_and!; [done..|lia|done|done]. }
  rewrite decide_False by lia.
  set (n := N.to_nat t + 1).
  assert (resize n 0%N (next_event_index_by_thread_ g) =
          grow n 0%N (next_event_index_by_thread_ g)) as ->.
  { unfold grow. rewrite decide_False by lia. done. }
  assert (resize n used_empty (used_event_indices_by_thread_ g) =
          grow n used_empty (used_event_indices_by_thread_ g)) as ->.
  { unfold grow. rewrite decide_False by lia. done. }
  eexists. split; [done|]. simpl. split_and!; [|done|done|rewrite length_grow; lia| |].
  2,3: intros; apply lookup_grow_default.
  split; simpl; [done| | | | |done].
  - rewrite !length_grow. lia.
  - rewrite length_grow. lia.
  - intros k e He. rewrite length_grow. specialize (Hst k e He). lia.
  - intros t' next used Hn Hu.
    destruct (decide (N.to_nat t' < length (next_event_index_by_thread_ g))) as [Hlt|Hge].
    + apply (Hbook t' next used).
      * rewrite (lookup_default_Some _ _ 0%N Hlt). f_equal.
        rewrite <-(lookup_grow_default n), Hn. done.
      * rewrite (lookup_default_Some _ _ used_empty) by lia. f_equal.
        rewrite <-(lookup_grow_default n), Hu. done.
    + assert (next = 0%N) as ->.
      { apply (f_equal (default 0%N)) in Hn. rewrite lookup_grow_default in Hn.
        rewrite (lookup_ge_None_2 (next_event_index_by_thread_ g)) in Hn by lia.
        done. }
      assert (used = used_empty) as ->.
      { apply (f_equal (default used_empty)) in Hu. rewrite lookup_grow_default in Hu.
        rewrite (lookup_ge_None_2 (used_event_indices_by_thread_ g)) in Hu by lia.
        done. }
      assert (∀ i, ¬ has_index (events_ g) t' i) as Hno.
      { intros i (k & e & Hk & <- & _). specialize (Hst k e Hk). lia. }
      split_and!; [apply used_empty_wf|done| |].
      * intros i. rewrite used_empty_contains. split; [done|]. by intros ?%Hno.
      * by intros i ?%Hno.
Qed.

Lemma ensure_thread_storage_Throw g t :
  graph_wf g → (kMaxThreadId < t)%N →
  ensure_thread_storage g t =
    Throw (precondition_error "thread id exceeds the maximum supported thread id").
Proof.
  intros Hwf Ht. pose proof (gw_cap g Hwf). unfold ensure_thread_storage.
  rewrite !decide_True by lia. done.
Qed.

(** *** The next index *)

Definition no_available_index : exn := precondition_error "no available event index for thread".

(** The search returns the first free index from [next] on, or reports that every
    index up to the largest is taken. *)
Lemma next_index_search used next :
  used_wf used → (next ≤ kMaxIndex)%N →
  match while (next_index_fuel used next) nontermination (next_index_step used) next with
  | Ok k => (next ≤ k ≤ kMaxIndex)%N ∧ used_contains used k = false ∧
      ∀ j, (next ≤ j < k)%N → used_contains used j = true
  | Throw e => e = no_available_index ∧
      ∀ j, (next ≤ j ≤ kMaxIndex)%N → used_contains used j = true
  end.
Proof.
  intros Hwf Hnext.
  apply (while_outcome nontermination (next_index_step used)
    (λ k, (next ≤ k ≤ kMaxIndex)%N ∧ ∀ j, (next ≤ j < k)%N → used_contains used j = true)
    (λ k, N.to_nat (dense_end used - k) +
          length (List.filter (λ x, (k <=? x)%N) (sparse used)))
    (λ r, match r with
          | Ok k => (next ≤ k ≤ kMaxIndex)%N ∧ used_contains used k = false ∧
              ∀ j, (next ≤ j < k)%N → used_contains used j = true
          | Throw e => e = no_available_index ∧
              ∀ j, (next ≤ j ≤ kMaxIndex)%N → used_contains used j = true
          end)).
  - intros k [Hk Hbelow]. unfold next_index_step.
    destruct (used_contains used k) eqn:Ek; [|done]. case_decide as Hmax.
    + split; [done|]. intros j Hj. destruct (decide (j = k)) as [->|]; [done|].
      apply Hbelow. lia.
    + split; [split; [lia|]; intros j Hj; destruct (decide (j = k)) as [->|];
              [done|apply Hbelow; lia]|].
      assert (∀ x, (k + 1 <=? x)%N = true → (k <=? x)%N = true) as Hle
        by (intros x; rewrite !N.leb_le; lia).
      apply used_contains_spec in Ek as [Hlt|Hin].
      * assert (length (List.filter (λ x, (k + 1 <=? x)%N) (sparse used)) ≤
                length (List.filter (λ x, (k <=? x)%N) (sparse used)))
          by (by apply filter_length_le).
        lia.
      * assert (length (List.filter (λ x, (k + 1 <=? x)%N) (sparse used)) <
                length (List.filter (λ x, (k <=? x)%N) (sparse used)))
          by (apply (filter_length_lt _ _ _ k); [done|done|apply N.leb_le; lia|apply N.leb_gt; lia]).
        lia.
  - split; [lia|]. intros j Hj. lia.
  - unfold next_index_fuel.
    pose proof (List.filter_length_le (λ x, (next <=? x)%N) (sparse used)). lia.
Qed.

(** Appending an event whose index is above everything in its thread. *)
Lemma append_event_unchecked_wf g t i l next used :
  graph_wf g →
  next_event_index_by_thread_ g !! N.to_nat t = Some next →
  used_event_indices_by_thread_ g !! N.to_nat t = Some used →
  (i ≤ kMaxIndex)%N → (∀ j, has_index (events_ g) t j → (j < i)%N) →
  ∃ g', append_event_unchecked g t i l = Ok (length (events_ g), g') ∧ graph_wf g' ∧
    events_ g' = events_ g ++ [MkEvent t i l] ∧ reads_from_ g' = reads_from_ g ∧
    next_event_index_by_thread_ g' =
      <[N.to_nat t := if decide (i = kMaxIndex) then i else (i + 1)%N]>
        (next_event_index_by_thread_ g) ∧
    used_event_indices_by_thread_ g' =
      <[N.to_nat t := used_insert used i]> (used_event_indices_by_thread_ g).
Proof.
  intros [Hrf Hlen Hcap Hst Hbook Hsort] Hn Hu Hi Habove.
  destruct (Hbook t next used Hn Hu) as (Huwf & Hnext & Hused & Hfresh).
  assert (Hnc : used_contains used i = false).
  { apply not_true_iff_false. intros Hc%Hused%Habove. lia. }
  destruct (used_insert_spec used i Huwf Hnc Hi) as [Huwf' Hused'].
  pose proof (lookup_lt_Some _ _ _ Hn) as Hlt.
  unfold append_event_unchecked. rewrite (vec_get_Ok _ _ _ Hu). simpl.
  rewrite !vec_set_Ok by lia. simpl. unfold push_back. rewrite length_app. simpl.
  eexists. split; [do 2 f_equal; lia|]. simpl. split_and!; [|done..].
  split; simpl; [done|by rewrite !length_insert|by rewrite length_insert| | |].
  - intros k e [Hk|[_ Hk]]%lookup_app_Some; rewrite length_insert; [by eapply Hst|].
    apply list_lookup_singleton_Some in Hk as [_ <-]. done.
  - intros t' n' u' Hn' Hu'. unfold thread_book. setoid_rewrite has_index_snoc. simpl.
    destruct (decide (t' = t)) as [->|Hne].
    + rewrite list_lookup_insert_eq in Hn' by lia.
      rewrite list_lookup_insert_eq in Hu' by lia. simplify_eq.
      split_and!; [done|case_decide; lia| |].
      * intros j. rewrite Hused', Hused. naive_solver.
      * intros j [Hj%Habove|[_ <-]]; case_decide; subst; [lia..|by right|left; lia].
    + rewrite list_lookup_insert_ne in Hn' by lia. rewrite list_lookup_insert_ne in Hu' by lia.
      destruct (Hbook t' n' u' Hn' Hu') as (? & ? & Hc & Hf).
      split_and!; [done|done| |].
      * intros j. rewrite Hc. naive_solver.
      * intros j [Hj|[? _]]; [by apply Hf|congruence].
  - intros a b ea eb Ha Hb Ht Hab.
    apply lookup_app_Some in Hb as [Hb|[Hb1 Hb2]].
    + rewrite lookup_app_l in Ha by (apply lookup_lt_Some in Hb; lia). by eapply Hsort.
    + apply list_lookup_singleton_Some in Hb2 as [Hb2 <-].
      rewrite lookup_app_l in Ha by lia. simpl in *. apply Habove. by exists a, ea.
Qed.

(** Moving the next index of a thread up to an index that is still above all used ones. *)
Lemma bump_next_wf g t next used k :
  graph_wf g →
  next_event_index_by_thread_ g !! N.to_nat t = Some next →
  used_event_indices_by_thread_ g !! N.to_nat t = Some used →
  (next ≤ k ≤ kMaxIndex)%N → used_contains used k = false →
  graph_wf (MkExecutionGraph (events_ g) (reads_from_ g)
    (<[N.to_nat t := k]> (next_event_index_by_thread_ g)) (used_event_indices_by_thread_ g)) ∧
  ∀ j, has_index (events_ g) t j → (j < k)%N.
Proof.
  intros [Hrf Hlen Hcap Hst Hbook Hsort] Hn Hu Hk Hfree.
  destruct (Hbook t next used Hn Hu) as (Huwf & Hnext & Hused & Hfresh).
  assert (∀ j, has_index (events_ g) t j → (j < k)%N) as Hbelow.
  { intros j Hj. destruct (Hfresh j Hj) as [?|[-> ->]]; [lia|].
    apply Hused in Hj. assert (k = kMaxIndex) by lia. congruence. }
  split; [|done].
  split; simpl; [done|by rewrite length_insert|by rewrite length_insert| | |done].
  - intros. rewrite length_insert. by eapply Hst.
  - intros t' n' u' Hn' Hu'. destruct (decide (t' = t)) as [->|Hne].
    + rewrite list_lookup_insert_eq in Hn' by (by eapply lookup_lt_Some). simplify_eq.
      split_and!; [done|lia|done|]. intros j Hj. left. by apply Hbelow.
    + rewrite list_lookup_insert_ne in Hn' by lia. by apply Hbook.
Qed.

(** [add_event] on a well-formed graph: the first free index from the thread's next
    index on, or an exception when the 32-bit index space of the thread is exhausted. *)
Lemma add_event_spec g t l :
  graph_wf g → (t ≤ kMaxThreadId)%N →
  match add_event g t l with
  | Ok (id, g') => id = length (events_ g) ∧ graph_wf g' ∧
      reads_from_ g' = reads_from_ g ∧
      ∃ i, events_ g' = events_ g ++ [MkEvent t i l] ∧ (i ≤ kMaxIndex)%N ∧
        (∀ j, has_index (events_ g) t j → (j < i)%N) ∧
        (default 0 (next_event_index_by_thread_ g !! N.to_nat t) ≤ i)%N ∧
        (∀ j, (default 0 (next_event_index_by_thread_ g !! N.to_nat t) ≤ j < i)%N →
              has_index (events_ g) t j) ∧
        (∀ k, default 0%N (next_event_index_by_thread_ g' !! k) =
          if decide (k = N.to_nat t) then (if decide (i = kMaxIndex) then i else i + 1)%N
          else default 0%N (next_event_index_by_thread_ g !! k))
  | Throw e => e = no_available_index ∧ has_index (events_ g) t kMaxIndex
  end.
Proof.
  intros Hwf Ht.
  destruct (ensure_thread_storage_Ok g t Hwf Ht)
    as (g1 & Hens & Hwf1 & Hev & Hrf & Hlt & Hnexts & Husedeq).
  unfold add_event, next_event_index. rewrite Hens. simpl.
  destruct (lookup_lt_is_Some_2 _ _ Hlt) as [next Hn].
  destruct (lookup_lt_is_Some_2 (used_event_indices_by_thread_ g1) (N.to_nat t)) as [used Hu].
  { rewrite (gw_len g1 Hwf1). done. }
  rewrite (vec_get_Ok _ _ _ Hn). simpl. rewrite (vec_get_Ok _ _ _ Hu). simpl.
  destruct (gw_book g1 Hwf1 t next used Hn Hu) as (Huwf & Hnext & Hused & Hfresh).
  pose proof (next_index_search used next Huwf Hnext) as Hsearch.
  rewrite Hev in Hused, Hfresh.
  destruct (while _ _ _ _) as [k|e]; simpl.
  2:{ destruct Hsearch as [-> Hall]. split; [done|]. apply Hused, Hall. lia. }
  destruct Hsearch as (Hk & Hfree & Hbetween).
  rewrite vec_set_Ok by done. simpl.
  destruct (bump_next_wf g1 t next used k Hwf1 Hn Hu Hk Hfree) as [Hwf2 Hbelow].
  edestruct (append_event_unchecked_wf _ t k l k used Hwf2) as
    (g' & -> & Hwf' & Hev' & Hrf' & Hnx' & _); simpl.
  { by rewrite list_lookup_insert_eq. }
  { done. }
  { lia. }
  { done. }
  simpl in *. rewrite Hev in *. split_and!; [done|done|congruence|].
  specialize (Hnexts (N.to_nat t)) as Hnt. rewrite Hn in Hnt. simpl in Hnt. rewrite <-Hnt.
  exists k. split_and!; [done|lia|done|lia| |].
  - intros j Hj. apply Hused, Hbetween. lia.
  - intros m. rewrite Hnx'.
    rewrite lookup_insert_default by (by rewrite length_insert).
    rewrite lookup_insert_default by done. rewrite Hnexts.
    destruct (decide (N.to_nat t = m)), (decide (m = N.to_nat t)); congruence.
Qed.

Lemma add_event_bad_thread g t l :
  graph_wf g → (kMaxThreadId < t)%N →
  add_event g t l =
    Throw (precondition_error "thread id exceeds the maximum supported thread id").
Proof.
  intros Hwf Ht. unfold add_event, next_event_index.
  by rewrite ensure_thread_storage_Throw.
Qed.

(** The import path accepts exactly the indices above the thread's next index that are
    not in use, and reports the two kinds of bad index apart. *)
Lemma add_event_with_index_spec g t i l :
  graph_wf g → (t ≤ kMaxThreadId)%N → (i ≤ kMaxIndex)%N →
  match add_event_with_index g t i l with
  | Ok (id, g') => id = length (events_ g) ∧ graph_wf g' ∧
      events_ g' = events_ g ++ [MkEvent t i l] ∧ reads_from_ g' = reads_from_ g ∧
      ∀ j, has_index (events_ g) t j → (j < i)%N
  | Throw e =>
      (e = precondition_error "event index already used in this thread" ∧
       has_index (events_ g) t i) ∨
      (e = precondition_error
             "event indices must be inserted in increasing order within each thread" ∧
       (i < default 0 (next_event_index_by_thread_ g !! N.to_nat t))%N ∧
       ¬ has_index (events_ g) t i)
  end.
Proof.
  intros Hwf Ht Hi.
  destruct (ensure_thread_storage_Ok g t Hwf Ht)
    as (g1 & Hens & Hwf1 & Hev & Hrf & Hlt & Hnexts & _).
  unfold add_event_with_index. rewrite Hens. simpl.
  destruct (lookup_lt_is_Some_2 _ _ Hlt) as [next Hn].
  destruct (lookup_lt_is_Some_2 (used_event_indices_by_thread_ g1) (N.to_nat t)) as [used Hu].
  { rewrite (gw_len g1 Hwf1). done. }
  rewrite (vec_get_Ok _ _ _ Hu). simpl.
  destruct (gw_book g1 Hwf1 t next used Hn Hu) as (Huwf & Hnext & Hused & Hfresh).
  rewrite Hev in Hused, Hfresh.
  destruct (used_contains used i) eqn:Ei; [left; split; [done|by apply Hused]|].
  assert (¬ has_index (events_ g) t i) as Hni by (intros ?%Hused; congruence).
  rewrite (vec_get_Ok _ _ _ Hn). simpl. case_decide as Hord.
  { right. rewrite <-Hnexts, Hn. done. }
  edestruct (append_event_unchecked_wf g1 t i l next used Hwf1 Hn Hu Hi) as
    (g' & -> & Hwf' & Hev' & Hrf' & _); rewrite ?Hev.
  { intros j Hj. destruct (Hfresh j Hj) as [?|[-> ->]]; [lia|].
    assert (i = kMaxIndex) as -> by lia. done. }
  rewrite Hev in *. split_and!; [done|done|done|congruence|].
  intros j Hj. destruct (Hfresh j Hj) as [?|[-> ->]]; [lia|].
  assert (i = kMaxIndex) as -> by lia. done.
Qed.

End wf.
