(* ===== verification/ExplorationFacts.v ===== *)
(** * ExplorationFacts: the caches of the exploration graph are what they cache

    Every derived field of [ExplorationGraph] is a function of the events and the
    reads-from relation.  [Caches] says which, [Inv] adds the dense numbering of the
    events and the range of the reads-from entries, and every mutator is shown to
    preserve it. *)

From stdpp Require Import base tactics numbers sets relations list strings.
From S2P Require Import Prelude Errors Event Relation RelationFacts ExecutionGraph StorageFacts.
From S2P Require Import ExecutionGraphFacts ExplorationGraph.

(** ** Readers of a send *)

(** 1 when the source reads from [id], 0 otherwise. *)
Definition reads_it (id : EventId) (source : option ReadsFromSource) : nat :=
  if decide (source ≫= rf_send = Some id) then 1 else 0.

Definition readers_in (entries : list (option ReadsFromSource)) (id : EventId) : nat :=
  sum_list (reads_it id <$> entries).

(** The number of receives that read from [id]. *)
Definition readers (rf : ReadsFromRelation) (id : EventId) : nat := readers_in (rf_entries rf) id.

Section readers.
Implicit Types (rf : ReadsFromRelation) (id : EventId).

Lemma reads_it_None id : reads_it id None = 0.
Proof. done. Qed.

Lemma readers_in_cons o l id : readers_in (o :: l) id = reads_it id o + readers_in l id.
Proof. done. Qed.

Lemma readers_in_app l1 l2 id : readers_in (l1 ++ l2) id = readers_in l1 id + readers_in l2 id.
Proof.
  induction l1 as [|o l1 IH]; simpl; [done|]. rewrite !readers_in_cons, IH. lia.
Qed.

Lemma readers_in_none m id : readers_in (replicate m None) id = 0.
Proof. induction m; simpl; [done|]. by rewrite readers_in_cons, IHm. Qed.

Lemma readers_in_insert entries i o o' id :
  entries !! i = Some o →
  readers_in (<[i := o']> entries) id + reads_it id o = readers_in entries id + reads_it id o'.
Proof.
  revert i. induction entries as [|x entries IH]; intros [|i] Hi; simpl in *; [done..| |].
  - simplify_eq. rewrite !readers_in_cons. lia.
  - specialize (IH i Hi). rewrite !readers_in_cons. lia.
Qed.

Lemma readers_set rf r s id :
  readers (rf_set rf r s) id + reads_it id (rf_find rf r) =
  readers rf id + reads_it id (Some s).
Proof.
  unfold readers, rf_set. simpl.
  assert (readers_in (grow (S r) None (rf_entries rf)) id = readers_in (rf_entries rf) id) as Hg.
  { unfold grow. case_decide; [done|]. rewrite resize_ge by lia.
    rewrite readers_in_app, readers_in_none. lia. }
  rewrite <-Hg. apply readers_in_insert.
  rewrite (lookup_default_Some _ _ None) by (rewrite length_grow; lia).
  by rewrite lookup_grow_default, rf_find_default.
Qed.

Lemma readers_clear rf r id :
  readers (rf_clear rf r) id + reads_it id (rf_find rf r) = readers rf id.
Proof.
  unfold readers, rf_clear. destruct (rf_find rf r) as [s|] eqn:E; [|rewrite reads_it_None; lia].
  simpl. apply rf_find_Some in E.
  pose proof (readers_in_insert _ r _ None id E) as H. rewrite reads_it_None in H. lia.
Qed.

Lemma readers_in_ext l1 l2 id :
  (∀ i, default None (l1 !! i) = default None (l2 !! i)) → readers_in l1 id = readers_in l2 id.
Proof.
  revert l2. induction l1 as [|x l1 IH]; intros l2 Heq.
  - assert (∀ x, x ∈ l2 → x = None) as Hnone.
    { intros x [i Hi]%list_elem_of_lookup. specialize (Heq i). by rewrite Hi in Heq. }
    clear Heq. induction l2 as [|y l2 IH]; [done|].
    rewrite (Hnone y) by set_solver.
    by rewrite readers_in_cons, <-IH by set_solver.
  - destruct l2 as [|y l2].
    + specialize (Heq 0) as H0. simpl in H0. subst x.
      rewrite readers_in_cons, (IH []); [done|]. intros i. apply (Heq (S i)).
    + specialize (Heq 0) as H0. simpl in H0. subst y.
      by rewrite !readers_in_cons, (IH l2 (λ i, Heq (S i))).
Qed.

Lemma readers_ext rf1 rf2 id :
  (∀ i, rf_find rf1 i = rf_find rf2 i) → readers rf1 id = readers rf2 id.
Proof. intros Heq. apply readers_in_ext. intros i. by rewrite <-!rf_find_default. Qed.

Lemma readers_find rf r s id :
  rf_find rf r = Some s → rf_send s = Some id → 0 < readers rf id.
Proof.
  intros Hr Hs. pose proof (readers_clear rf r id) as H. rewrite Hr in H.
  unfold reads_it in H. simpl in H. rewrite decide_True in H by done. lia.
Qed.

Lemma readers_zero rf id :
  readers rf id = 0 ↔ ∀ r s, rf_find rf r = Some s → rf_send s ≠ Some id.
Proof.
  split.
  - intros Hz r s Hr Hs. pose proof (readers_find rf r s id Hr Hs). lia.
  - intros Hno. unfold readers.
    assert (∀ o, o ∈ rf_entries rf → o ≫= rf_send ≠ Some id) as Hall.
    { intros [s|] [i Hi]%list_elem_of_lookup; simpl; [|done].
      apply (Hno i). by apply rf_find_Some. }
    clear Hno. induction (rf_entries rf) as [|o l IH]; [done|].
    rewrite readers_in_cons, IH by set_solver. unfold reads_it.
    rewrite decide_False; [done|]. set_solver.
Qed.

End readers.

(** ** What the caches hold *)

Section caches.
Context {V : Type}.
Implicit Types (g : ExplorationGraph V) (es : list (Event V)) (t : ThreadId) (f : EventId → nat).

Definition receive_ids es t : list EventId := ids_where (λ e, on_thread t e && is_receive e) es.

Definition state_of es t : ThreadState :=
  MkThreadState (length (thread_ids es t)) (last (thread_ids es t)).

(** The reader counts and the unread mask of a graph where send [id] has [f id] readers. *)
Definition counts_of es f : list nat := imap (λ id e, if is_send e then f id else 0) es.

Definition mask_of es f : list bool :=
  imap (λ id e, is_send e && bool_decide (f id = 0)) es.

Record Caches g : Prop := {
  c_states : ∀ i, default no_thread_state (thread_state_ g !! i) =
    state_of (events g) (N.of_nat i);
  c_teids : ∀ i, default [] (thread_event_ids_ g !! i) = thread_ids (events g) (N.of_nat i);
  c_reids : ∀ i, default [] (receive_event_ids_by_thread_ g !! i) =
    receive_ids (events g) (N.of_nat i);
  c_sends : send_event_ids_ g = ids_where is_send (events g);
  c_counts : send_reader_counts_ g = counts_of (events g) (readers (reads_from g));
  c_mask : unread_send_mask_ g = mask_of (events g) (readers (reads_from g));
}.

Lemma receive_ids_snoc es t e :
  receive_ids (es ++ [e]) t =
  receive_ids es t ++ (if decide (thread e = t ∧ is_receive e = true) then [length es] else []).
Proof.
  unfold receive_ids. rewrite ids_where_snoc. unfold on_thread. f_equal.
  destruct (is_receive e); case_bool_decide; case_decide; naive_solver.
Qed.

Lemma state_of_snoc es t e :
  state_of (es ++ [e]) t =
  if decide (thread e = t) then MkThreadState (S (ts_event_count (state_of es t)))
                                  (Some (length es))
  else state_of es t.
Proof.
  unfold state_of. rewrite thread_ids_snoc. case_decide; [|by rewrite app_nil_r].
  rewrite last_snoc, length_app. simpl. f_equal. lia.
Qed.

Lemma counts_of_snoc es f e :
  counts_of (es ++ [e]) f = counts_of es f ++ [if is_send e then f (length es) else 0].
Proof. unfold counts_of. rewrite imap_app. simpl. by rewrite Nat.add_0_r. Qed.

Lemma mask_of_snoc es f e :
  mask_of (es ++ [e]) f = mask_of es f ++ [is_send e && bool_decide (f (length es) = 0)].
Proof. unfold mask_of. rewrite imap_app. simpl. by rewrite Nat.add_0_r. Qed.

Lemma length_counts_of es f : length (counts_of es f) = length es.
Proof. apply length_imap. Qed.

Lemma length_mask_of es f : length (mask_of es f) = length es.
Proof. apply length_imap. Qed.

Lemma counts_of_lookup es f id e :
  es !! id = Some e → counts_of es f !! id = Some (if is_send e then f id else 0).
Proof. intros He. unfold counts_of. rewrite list_lookup_imap, He. done. Qed.

Lemma mask_of_lookup es f id e :
  es !! id = Some e → mask_of es f !! id = Some (is_send e && bool_decide (f id = 0)).
Proof. intros He. unfold mask_of. rewrite list_lookup_imap, He. done. Qed.

Lemma counts_of_ext es f f' :
  (∀ id, id < length es → f id = f' id) → counts_of es f = counts_of es f'.
Proof.
  intros Hf. apply imap_ext. intros i e Hi%lookup_lt_Some. by rewrite (Hf i Hi).
Qed.

Lemma mask_of_ext es f f' :
  (∀ id, id < length es → f id = f' id) → mask_of es f = mask_of es f'.
Proof.
  intros Hf. apply imap_ext. intros i e Hi%lookup_lt_Some. by rewrite (Hf i Hi).
Qed.

(** Storing [k] at a send updates [f] there; [update f id k] is [<[id := k]> f]. *)
Definition update f (id : EventId) (k : nat) : EventId → nat :=
  λ j, if decide (j = id) then k else f j.

Lemma counts_of_update es f id k e :
  es !! id = Some e → is_send e = true →
  <[id := k]> (counts_of es f) = counts_of es (update f id k).
Proof.
  intros He Hs. apply list_eq. intros j. unfold counts_of, update.
  apply lookup_lt_Some in He as Hlt.
  destruct (decide (j = id)) as [->|Hne].
  - rewrite list_lookup_insert_eq by (by rewrite length_imap).
    rewrite list_lookup_imap, He. simpl. rewrite Hs, decide_True by done. done.
  - rewrite list_lookup_insert_ne, !list_lookup_imap by done.
    destruct (es !! j); simpl; [|done]. by rewrite decide_False.
Qed.

Lemma mask_of_update es f id k e :
  es !! id = Some e → is_send e = true →
  <[id := bool_decide (k = 0)]> (mask_of es f) = mask_of es (update f id k).
Proof.
  intros He Hs. apply list_eq. intros j. unfold mask_of, update.
  apply lookup_lt_Some in He as Hlt.
  destruct (decide (j = id)) as [->|Hne].
  - rewrite list_lookup_insert_eq by (by rewrite length_imap).
    rewrite list_lookup_imap, He. simpl. rewrite Hs, decide_True by done. done.
  - rewrite list_lookup_insert_ne, !list_lookup_imap by done.
    destruct (es !! j); simpl; [|done]. by rewrite decide_False.
Qed.

(** *** Reader-count updates *)

(** What the count of [id] becomes when [delta] readers are added. *)
Definition shift f (source : option ReadsFromSource) (delta : Z) (id : EventId) : nat :=
  Z.to_nat (Z.of_nat (f id) + delta * Z.of_nat (reads_it id source)).

Lemma adjust_send_reader_count_Ok g f source delta :
  send_reader_counts_ g = counts_of (events g) f → unread_send_mask_ g = mask_of (events g) f →
  (∀ id e, source ≫= rf_send = Some id → events g !! id = Some e → is_send e = true →
     0 ≤ Z.of_nat (f id) + delta)%Z →
  let f' := shift f source delta in
  adjust_send_reader_count g source delta =
    Ok (set_reader_state g (counts_of (events g) f') (mask_of (events g) f')).
Proof.
  intros Hc Hm Hpos f'. unfold adjust_send_reader_count.
  assert (∀ j, source ≫= rf_send ≠ Some j → f' j = f j) as Hsame.
  { intros j Hj. unfold f', shift, reads_it. rewrite decide_False by done. lia. }
  assert (∀ es, (∀ id e, source ≫= rf_send = Some id → es !! id = Some e → is_send e = false) →
    counts_of es f' = counts_of es f ∧ mask_of es f' = mask_of es f) as Hnone.
  { intros es Hns. split; apply imap_ext; intros i e Hi; destruct (is_send e) eqn:Es; try done;
      rewrite Hsame; try done; intros Hsrc; by rewrite (Hns i e Hsrc Hi) in Es. }
  destruct (source ≫= rf_send) as [id|] eqn:Esrc.
  2:{ destruct (Hnone (events g)) as [-> ->]; [done|]. rewrite <-Hc, <-Hm. by destruct g. }
  destruct (events g !! id) as [e|] eqn:Ee.
  2:{ destruct (Hnone (events g)) as [-> ->]; [intros ?? [= <-]; by rewrite Ee|].
      rewrite <-Hc, <-Hm. by destruct g. }
  rewrite Hc, Hm, (counts_of_lookup _ _ _ _ Ee), (mask_of_lookup _ _ _ _ Ee).
  destruct (is_send e) eqn:Es.
  2:{ destruct (Hnone (events g)) as [-> ->].
      - intros ?? [= <-]. rewrite Ee. by intros [= <-].
      - rewrite <-Hc, <-Hm. by destruct g. }
  specialize (Hpos id e eq_refl Ee Es).
  assert (f' id = Z.to_nat (Z.of_nat (f id) + delta)) as Hid.
  { unfold f', shift, reads_it. rewrite Esrc, decide_True by done. f_equal. lia. }
  assert (∀ j, f' j = update f id (f' id) j) as Hupd.
  { intros j. unfold update. case_decide as Ej; [by subst|]. apply Hsame. congruence. }
  assert ((if decide (delta < 0)%Z
           then if decide (f id < Z.to_nat (- delta))
                then Throw (internal_error "send reader count underflow")
                else Ok (f id - Z.to_nat (- delta))
           else Ok (f id + Z.to_nat delta)) = (Ok (f' id) : res nat)) as ->.
  { rewrite Hid. case_decide; [rewrite decide_False by lia|]; f_equal; lia. }
  simpl.
  rewrite (counts_of_update _ _ _ _ e Ee Es), (mask_of_update _ _ _ _ e Ee Es).
  by rewrite (counts_of_ext _ f' _ (λ j _, Hupd j)), (mask_of_ext _ f' _ (λ j _, Hupd j)).
Qed.

(** Moving one reader from [previous] to [next]. *)
Lemma update_send_reader_state_Ok g f f' previous next :
  send_reader_counts_ g = counts_of (events g) f → unread_send_mask_ g = mask_of (events g) f →
  (∀ id, f' id + reads_it id previous = f id + reads_it id next) →
  (∀ id, reads_it id previous ≤ f id) →
  update_send_reader_state g previous next =
    Ok (set_reader_state g (counts_of (events g) f') (mask_of (events g) f')).
Proof.
  intros Hc Hm Hf Hle. unfold update_send_reader_state.
  rewrite (adjust_send_reader_count_Ok g f previous (-1) Hc Hm).
  2:{ intros id e Hid _ _. specialize (Hle id). unfold reads_it in Hle.
      rewrite decide_True in Hle by done. lia. }
  simpl. rewrite (adjust_send_reader_count_Ok _ (shift f previous (-1)) next 1); try done.
  2:{ intros. lia. }
  unfold events, set_reader_state. simpl. do 2 f_equal.
  - apply counts_of_ext. intros id _. specialize (Hf id). specialize (Hle id). unfold shift. lia.
  - apply mask_of_ext. intros id _. specialize (Hf id). specialize (Hle id). unfold shift. lia.
Qed.

(** *** Indexing a new event *)

(** Appending [x] at thread [i] of a padded vector of per-thread lists. *)
Lemma push_at (vs : list (list EventId)) i (x : EventId) (h : nat → list EventId) :
  (∀ j, default [] (vs !! j) = h j) →
  let vs' := grow (i + 1) [] vs in
  ∃ vs'', vs' !! i = Some (h i) ∧ vec_set vs' i (h i ++ [x]) = Ok vs'' ∧
    ∀ j, default [] (vs'' !! j) = if decide (j = i) then h j ++ [x] else h j.
Proof.
  intros Hvs vs'. assert (i < length vs') as Hlt by (unfold vs'; rewrite length_grow; lia).
  exists (<[i := h i ++ [x]]> vs'). split_and!.
  - rewrite (lookup_default_Some _ _ [] Hlt). unfold vs'. by rewrite lookup_grow_default, Hvs.
  - by apply vec_set_Ok.
  - intros j. rewrite lookup_insert_default by done. unfold vs'.
    rewrite lookup_grow_default, Hvs. destruct (decide (i = j)), (decide (j = i)); congruence.
Qed.

Lemma resize_snoc {A} (l : list A) (d : A) : resize (length l + 1) d l = l ++ [d].
Proof.
  rewrite resize_ge by lia. by replace (length l + 1 - length l) with 1 by lia.
Qed.

Lemma index_new_event_Ok g graph' e :
  Caches g → events_ graph' = events g ++ [e] → reads_from_ graph' = reads_from g →
  readers (reads_from g) (event_count g) = 0 →
  ∃ g', index_new_event g graph' (thread e) (event_count g) = Ok g' ∧ Caches g' ∧
    graph_ g' = graph' ∧ known_acyclic_ g' = known_acyclic_ g ∧
    pending_fresh_receive_id_ g' = pending_fresh_receive_id_ g ∧
    porf_cache_ g' = porf_cache_ g ∧ event_undo_log_ g' = event_undo_log_ g ∧
    rf_undo_log_ g' = rf_undo_log_ g.
Proof.
  intros [Hst Hte Hre Hse Hco Hma] Hev Hrf Hz.
  unfold index_new_event. set (i := N.to_nat (thread e)). unfold event_count in *.
  set (n := length (events g)) in *.
  set (states := grow (i + 1) no_thread_state (thread_state_ g)).
  assert (i < length states) as Hi by (unfold states; rewrite length_grow; lia).
  assert (states !! i = Some (state_of (events g) (thread e))) as Hsi.
  { rewrite (lookup_default_Some _ _ no_thread_state Hi). unfold states.
    rewrite lookup_grow_default, Hst. unfold i. by rewrite N2Nat.id. }
  rewrite (vec_get_Ok _ _ _ Hsi). simpl. rewrite (vec_set_Ok states i _ Hi). simpl.
  destruct (push_at (thread_event_ids_ g) i n _ Hte) as (te' & Hget & Hset & Hte').
  rewrite (vec_get_Ok _ _ _ Hget). simpl. unfold push_back. rewrite Hset. simpl.
  assert (ExecutionGraph.event graph' n = Ok e) as ->.
  { unfold ExecutionGraph.event. rewrite Hev. unfold n.
    by rewrite lookup_app_r, Nat.sub_diag by lia. }
  simpl.
  destruct (push_at (receive_event_ids_by_thread_ g) i n _ Hre) as (re' & Hgr & Hsr & Hre').
  rewrite (vec_get_Ok _ _ _ Hgr). simpl. rewrite Hsr.
  assert (resize (n + 1) 0 (send_reader_counts_ g) =
          counts_of (events g ++ [e]) (readers (reads_from g))) as Hcounts.
  { rewrite Hco, counts_of_snoc. fold n. rewrite Hz.
    replace (if is_send e then 0 else 0) with 0 by (by destruct (is_send e)).
    rewrite <-resize_snoc. by rewrite length_counts_of. }
  assert (resize (n + 1) false (unread_send_mask_ g) =
          mask_of (events g) (readers (reads_from g)) ++ [false]) as Hmask.
  { rewrite Hma, <-resize_snoc. by rewrite length_mask_of. }
  assert ((if is_receive e then Ok re' else
             Ok (grow (i + 1) [] (receive_event_ids_by_thread_ g))) =
          (Ok (if is_receive e then re' else
             grow (i + 1) [] (receive_event_ids_by_thread_ g)) : res (list (list EventId))))
    as -> by (by destruct (is_receive e)).
  assert ((if is_send e
           then m ← vec_set (resize (n + 1) false (unread_send_mask_ g)) n true;
                Ok (send_event_ids_ g ++ [n], m)
           else Ok (send_event_ids_ g, resize (n + 1) false (unread_send_mask_ g))) =
          (Ok (ids_where is_send (events g ++ [e]),
               mask_of (events g ++ [e]) (readers (reads_from g))) : res _)) as ->.
  { rewrite Hmask, ids_where_snoc, mask_of_snoc, Hse. fold n. rewrite Hz.
    destruct (is_send e); simpl; [|by rewrite app_nil_r].
    rewrite vec_set_Ok by (rewrite length_app, length_mask_of; simpl; lia). simpl. do 2 f_equal.
    rewrite insert_app_r_alt by (rewrite length_mask_of; lia).
    rewrite length_mask_of. fold n. by rewrite Nat.sub_diag. }
  simpl. eexists. split; [done|]. split_and!; [|done..].
  split; unfold events, reads_from; simpl; rewrite ?Hev, ?Hrf; fold (events g) (reads_from g).
  - intros j. rewrite lookup_insert_default by done. rewrite state_of_snoc. fold n. unfold states.
    rewrite lookup_grow_default, Hst. unfold i.
    destruct (decide (N.to_nat (thread e) = j)), (decide (thread e = N.of_nat j)); subst; try lia;
      [|done]. by rewrite N2Nat.id.
  - intros j. rewrite Hte', thread_ids_snoc. fold n. unfold i.
    destruct (decide (j = N.to_nat (thread e))), (decide (thread e = N.of_nat j)); subst; try lia;
      [done|by rewrite app_nil_r].
  - intros j. rewrite receive_ids_snoc. fold n. destruct (is_receive e) eqn:Er.
    + rewrite Hre'. unfold i.
      destruct (decide (j = N.to_nat (thread e))), (decide (thread e = N.of_nat j ∧ true = true));
        subst; try lia; [done|by rewrite app_nil_r].
    + rewrite lookup_grow_default, Hre, decide_False by naive_solver. by rewrite app_nil_r.
  - done.
  - done.
  - done.
Qed.

End caches.

(** ** Causality *)

(** [b] reads from [a]. *)
Definition rf_edge (rf : ReadsFromRelation) (a b : EventId) : Prop :=
  ∃ s, rf_find rf b = Some s ∧ rf_send s = Some a.

(** Program order and reads-from, and the absence of causal cycles. *)
Definition porf {V} (es : list (Event V)) (rf : ReadsFromRelation) (a b : EventId) : Prop :=
  po es a b ∨ rf_edge rf a b.

Definition acyclic {A} (R : relation A) : Prop := ∀ a, ¬ tc R a a.

Lemma acyclic_sub {A} (R R' : relation A) : (∀ a b, R' a b → R a b) → acyclic R → acyclic R'.
Proof.
  intros Hsub Hac a Ha. apply (Hac a).
  revert Ha. generalize a at 1 3. intros b Ha.
  induction Ha as [b c H|b c d H _ IH]; [by apply tc_once, Hsub|eapply tc_l; eauto].
Qed.

(** ** The invariant *)

Section inv.
Context {V : Type}.
Implicit Types (g : ExplorationGraph V) (es : list (Event V)) (t : ThreadId).

(** The next index of thread [t] when its indices are dense. *)
Definition next_of es t : EventIndex := N.min (N.of_nat (length (thread_ids es t))) kMaxIndex.

(** The index of every event is its position in its thread. *)
Definition dense_indices es : Prop :=
  ∀ k e, es !! k = Some e → index e = N.of_nat (length (thread_ids (take k es) (thread e))).

(** Receives and sources are ids of events. *)
Definition source_in_range es (source : ReadsFromSource) : Prop :=
  ∀ id, rf_send source = Some id → id < length es.

Definition rf_in_range es (rf : ReadsFromRelation) : Prop :=
  ∀ r s, rf_find rf r = Some s → r < length es ∧ source_in_range es s.

Record Core g : Prop := {
  core_graph : graph_wf (graph_ g);
  core_dense : dense_indices (events g);
  core_next : ∀ i, default 0%N (next_event_index_by_thread_ (graph_ g) !! i) =
    next_of (events g) (N.of_nat i);
  core_rf : rf_in_range (events g) (reads_from g);
  core_caches : Caches g;
}.

Definition undo_entry es (e : Event V) : EventUndo :=
  MkEventUndo (length es) (thread e) (index e) (state_of es (thread e)) (next_of es (thread e)).

(** The event log records the last insertions. *)
Inductive elog_ok : list (Event V) → list EventUndo → Prop :=
| elog_nil es : elog_ok es []
| elog_snoc es e l : elog_ok es l → elog_ok (es ++ [e]) (l ++ [undo_entry es e]).

(** What the acyclicity flags promise. *)
Record Flags g : Prop := {
  fl_acyclic : known_acyclic_ g = true → acyclic (porf (events g) (reads_from g));
  fl_pending : ∀ id, pending_fresh_receive_id_ g = Some id →
    S id = event_count g ∧ rf_find (reads_from g) id = None ∧
    ∀ r, ¬ rf_edge (reads_from g) id r;
}.

Record Inv g : Prop := {
  inv_core : Core g;
  inv_elog : elog_ok (events g) (event_undo_log_ g);
  inv_flags : Flags g;
}.

Lemma tc_irreflexive_nil (R : relation EventId) : (∀ a b, ¬ R a b) → acyclic R.
Proof. intros H a Ha. inversion Ha; subst; by eapply H. Qed.

Lemma empty_Inv : Inv (empty_exploration_graph (V := V)).
Proof.
  split; [split|constructor|split]; simpl.
  - apply empty_graph_wf.
  - done.
  - done.
  - intros r s Hr. by rewrite rf_find_default in Hr.
  - split; done.
  - intros _. apply tc_irreflexive_nil. intros a b [(_ & e & _ & He & _)|(s & Hs & _)]; [done|].
    by rewrite rf_find_default in Hs.
  - done.
Qed.

(** *** Insertion *)

Lemma length_thread_ids_snoc es t e :
  length (thread_ids (es ++ [e]) t) =
  length (thread_ids es t) + (if decide (thread e = t) then 1 else 0).
Proof. rewrite thread_ids_snoc, length_app. by case_decide. Qed.

Lemma dense_indices_snoc es e :
  dense_indices (es ++ [e]) ↔
  dense_indices es ∧ index e = N.of_nat (length (thread_ids es (thread e))).
Proof.
  unfold dense_indices. split.
  - intros H. split.
    + intros k e' Hk. apply lookup_lt_Some in Hk as Hlt.
      rewrite (H k e') by (by apply lookup_app_l_Some). by rewrite take_app_le by lia.
    + rewrite (H (length es) e) by (by rewrite lookup_app_r, Nat.sub_diag by lia).
      by rewrite take_app_length.
  - intros [H He] k e' [Hk|[Hk1 Hk2]]%lookup_app_Some.
    + apply lookup_lt_Some in Hk as Hlt. rewrite take_app_le by lia. by apply H.
    + apply list_lookup_singleton_Some in Hk2 as [? <-].
      replace k with (length es) by lia. by rewrite take_app_length.
Qed.

Lemma dense_has_index es t i :
  dense_indices es → has_index es t i ↔ (i < N.of_nat (length (thread_ids es t)))%N.
Proof.
  induction es as [|e es IH] using rev_ind.
  - intros _. split; [intros (k & e & Hk & _); done|simpl; lia].
  - intros [Hd He]%dense_indices_snoc. rewrite has_index_snoc, (IH Hd), length_thread_ids_snoc.
    case_decide as Et; [subst t|].
    + split; [intros [?|[_ <-]]; lia|]. intros Hi.
      destruct (decide (index e = i)); [by right|left; lia].
    + rewrite Nat.add_0_r. split; [intros [?|[? _]]; [done|congruence]|by left].
Qed.

Lemma readers_fresh es rf : rf_in_range es rf → readers rf (length es) = 0.
Proof.
  intros Hr. apply readers_zero. intros r s Hs Hid. destruct (Hr r s Hs) as [_ Hsrc].
  specialize (Hsrc _ Hid). lia.
Qed.

Lemma rf_in_range_snoc es rf e : rf_in_range es rf → rf_in_range (es ++ [e]) rf.
Proof.
  intros Hr r s Hs. destruct (Hr r s Hs) as [? Hsrc]. unfold source_in_range.
  rewrite length_app. simpl. split; [lia|]. intros id Hid. specialize (Hsrc id Hid). lia.
Qed.

(** The flags [add_event] leaves behind. *)
Definition add_event_flags g (l : EventLabel V) : option EventId :=
  if known_acyclic_ g && (match l with LReceive _ => true | _ => false end)
  then Some (event_count g) else None.

Lemma update_acyclicity_after_add_event_Ok g id e :
  event g id = Ok e →
  update_acyclicity_after_add_event g id =
    Ok (set_acyclicity g (known_acyclic_ g)
          (if known_acyclic_ g && is_receive e then Some id else None)).
Proof.
  intros He. unfold update_acyclicity_after_add_event. rewrite He.
  destruct (known_acyclic_ g); simpl; [|done]. by destruct (is_receive e).
Qed.

Lemma core_add_event g t l :
  Core g → (t ≤ kMaxThreadId)%N →
  let k := N.of_nat (length (thread_ids (events g) t)) in
  match add_event g t l with
  | Ok (id, g') => id = event_count g ∧ Core g' ∧ (k ≤ kMaxIndex)%N ∧
      events g' = events g ++ [MkEvent t k l] ∧ reads_from g' = reads_from g ∧
      event_undo_log_ g' = event_undo_log_ g ++ [undo_entry (events g) (MkEvent t k l)] ∧
      rf_undo_log_ g' = rf_undo_log_ g ∧ porf_cache_ g' = None ∧
      known_acyclic_ g' = known_acyclic_ g ∧
      pending_fresh_receive_id_ g' = add_event_flags g l
  | Throw e => e = no_available_index ∧ (kMaxIndex < k)%N
  end.
Proof.
  intros [Hwf Hdense' Hnext Hrf Hca] Ht k.
  pose proof (λ t i, dense_has_index (events g) t i Hdense') as Hdense.
  unfold add_event. pose proof (add_event_spec (graph_ g) t l Hwf Ht) as Hadd.
  destruct (ExecutionGraph.add_event (graph_ g) t l) as [[id graph']|e]; simpl.
  2:{ destruct Hadd as [-> Hmax%Hdense]. done. }
  destruct Hadd as (-> & Hwf' & Hrf' & i & Hev & Hi & Habove & Hfrom & Hbetween & Hnx).
  fold (events g) in *. fold (event_count g).
  pose proof (Hnext (N.to_nat t)) as Hnt. rewrite N2Nat.id in Hnt. rewrite Hnt in Hfrom, Hbetween.
  unfold next_of in Hfrom, Hbetween. fold k in Hfrom, Hbetween.
  assert (i = k) as ->.
  { destruct (decide (k ≤ kMaxIndex)%N) as [Hk|Hk].
    - destruct (decide (k < i)%N) as [Hlt|]; [|lia].
      assert (has_index (events g) t k) as Hk'%Hdense by (apply Hbetween; lia). lia.
    - assert (has_index (events g) t kMaxIndex) as Hm%Habove by (apply Hdense; lia). lia. }
  assert (ExecutionGraph.event graph' (event_count g) = Ok (MkEvent t k l)) as Hget.
  { unfold ExecutionGraph.event. rewrite Hev. unfold event_count.
    by rewrite lookup_app_r, Nat.sub_diag by lia. }
  rewrite Hget. simpl.
  set (g1 := set_cache _ None).
  destruct (index_new_event_Ok g1 graph' (MkEvent t k l)) as
    (g2 & Hidx & Hca2 & Hg2 & Hkn & Hpe & Hpc & Hel & Hrl); simpl.
  { by destruct Hca. }
  { done. }
  { done. }
  { by apply readers_fresh. }
  simpl in Hidx. change (event_count g1) with (event_count g) in Hidx. rewrite Hidx. simpl.
  rewrite (update_acyclicity_after_add_event_Ok _ _ (MkEvent t k l))
    by (unfold event; by rewrite Hg2).
  simpl. split; [done|]. split.
  - split; simpl.
    + by rewrite Hg2.
    + unfold events in *. simpl. rewrite Hg2, Hev. by apply dense_indices_snoc.
    + rewrite Hg2. intros j. rewrite Hnx, Hnext. unfold events in *. simpl. rewrite Hg2, Hev.
      unfold next_of. rewrite length_thread_ids_snoc. simpl.
      destruct (decide (j = N.to_nat t)), (decide (t = N.of_nat j)); subst; try lia.
      rewrite N2Nat.id. case_decide; lia.
    + unfold events, reads_from in *. simpl. rewrite Hg2, Hev, Hrf'. by apply rf_in_range_snoc.
    + by destruct Hca2.
  - unfold events, reads_from in *. simpl. rewrite Hg2, Hev, Hel, Hrl, Hpc.
    split_and!; [lia|done|done| |done|done|by rewrite Hkn|by rewrite Hkn].
    unfold g1, push_back, undo_entry, thread_state. simpl.
    by rewrite (c_states _ Hca), N2Nat.id, Hnt.
Qed.

(** *** Reads-from assignment *)

Lemma rf_in_range_set es rf r s :
  rf_in_range es rf → r < length es → source_in_range es s → rf_in_range es (rf_set rf r s).
Proof.
  intros Hrf Hr Hs r' s'. rewrite rf_find_set. case_decide; [intros; by simplify_eq|apply Hrf].
Qed.

Lemma reads_it_le_readers rf r id : reads_it id (rf_find rf r) ≤ readers rf id.
Proof. pose proof (readers_clear rf r id). lia. Qed.

(** A graph that differs from a [Core] one only in logs, flags and cache is [Core]. *)
Lemma core_ext g g' :
  Core g → graph_ g' = graph_ g → thread_state_ g' = thread_state_ g →
  thread_event_ids_ g' = thread_event_ids_ g →
  receive_event_ids_by_thread_ g' = receive_event_ids_by_thread_ g →
  send_event_ids_ g' = send_event_ids_ g → send_reader_counts_ g' = send_reader_counts_ g →
  unread_send_mask_ g' = unread_send_mask_ g → Core g'.
Proof.
  intros [H1 H2 H3 H4 [H5 H6 H7 H8 H9 H10]] Hg Hs Ht Hr Hse Hc Hm.
  split; [..|split]; unfold events, reads_from in *; rewrite ?Hg, ?Hs, ?Ht, ?Hr, ?Hse, ?Hc, ?Hm;
    done.
Qed.

(** Replacing the reads-from relation and moving the reader counts along. *)
Lemma core_move_rf g rf' previous next :
  Core g → rf_wf rf' → rf_in_range (events g) rf' →
  (∀ id, readers rf' id + reads_it id previous = readers (reads_from g) id + reads_it id next) →
  (∀ id, reads_it id previous ≤ readers (reads_from g) id) →
  ∃ counts mask,
    (∀ elog rlog cache,
       let g1 := set_cache (set_logs (set_graph g (with_reads_from (graph_ g) rf')) elog rlog)
                   cache in
       update_send_reader_state g1 previous next = Ok (set_reader_state g1 counts mask)) ∧
    Core (set_reader_state (set_graph g (with_reads_from (graph_ g) rf')) counts mask).
Proof.
  intros [Hwf Hdense Hnext Hrf [Hst Hte Hre Hse Hco Hma]] Hrfwf Hrange Hcount Hle.
  exists (counts_of (events g) (readers rf')), (mask_of (events g) (readers rf')). split.
  - intros elog rlog cache g1.
    by apply (update_send_reader_state_Ok g1 (readers (reads_from g))).
  - split; [|done|done|done|by split]. destruct Hwf. by split.
Qed.

(** The flags [set_reads_from_source] leaves behind. *)
Definition keeps_acyclicity g (r : EventId) (source : ReadsFromSource) : bool :=
  known_acyclic_ g && bool_decide (pending_fresh_receive_id_ g = Some r)
  && holds_at g is_receive r
  && match rf_send source with None => true | Some id => holds_at g is_send id end.

Lemma update_acyclicity_after_rf_assignment_eq g r source :
  update_acyclicity_after_rf_assignment g r source =
  set_acyclicity g (keeps_acyclicity g r source) None.
Proof.
  unfold update_acyclicity_after_rf_assignment, keeps_acyclicity, invalidate_known_acyclicity.
  destruct (known_acyclic_ g); simpl; [|done].
  destruct (bool_decide (pending_fresh_receive_id_ g = Some r)); simpl; [|done].
  destruct (holds_at g is_receive r); simpl; [|done].
  destruct (rf_send source) as [id|]; [|done]. by destruct (holds_at g is_send id).
Qed.

Lemma core_set_reads_from_source g r source :
  Core g → r < event_count g → source_in_range (events g) source →
  ∃ g', set_reads_from_source g r source = Ok g' ∧ Core g' ∧
    events g' = events g ∧ reads_from g' = rf_set (reads_from g) r source ∧
    event_undo_log_ g' = event_undo_log_ g ∧
    rf_undo_log_ g' = rf_undo_log_ g ++ [MkReadsFromUndo r (rf_find (reads_from g) r)] ∧
    porf_cache_ g' = None ∧ known_acyclic_ g' = keeps_acyclicity g r source ∧
    pending_fresh_receive_id_ g' = None.
Proof.
  intros Hcore Hr Hsrc. unfold set_reads_from_source, current_reads_from_source.
  destruct (core_move_rf g (rf_set (reads_from g) r source) (rf_find (reads_from g) r)
              (Some source) Hcore) as (counts & mask & Hupd & Hcore').
  { apply rf_set_wf. by apply (gw_rf _ (core_graph _ Hcore)). }
  { apply rf_in_range_set; [by apply core_rf|done|done]. }
  { intros id. apply readers_set. }
  { intros id. apply reads_it_le_readers. }
  specialize (Hupd (event_undo_log_ g)
    (rf_undo_log_ g ++ [MkReadsFromUndo r (rf_find (reads_from g) r)]) None).
  simpl in Hupd. unfold push_back. simpl. unfold ExecutionGraph.set_reads_from_source.
  fold (reads_from g). rewrite Hupd. simpl.
  rewrite update_acyclicity_after_rf_assignment_eq. eexists. split; [done|].
  split_and!; [|done..]. by apply (core_ext _ _ Hcore').
Qed.

(** *** The flags *)

Lemma acyclic_add_sink {A} (R R' : relation A) x :
  acyclic R → (∀ a b, R' a b → R a b ∨ b = x) → (∀ b, ¬ R' x b) → acyclic R'.
Proof.
  intros Hac Hsub Hsink.
  assert (∀ a b, tc R' a b → tc R a b ∨ b = x) as Htc.
  { induction 1 as [a b H|a c b H Hcb IH].
    - destruct (Hsub a b H); [left; by apply tc_once|by right].
    - destruct (Hsub a c H) as [HR| ->].
      + destruct IH as [IH|IH]; [left; by eapply tc_l|by right].
      + exfalso. inversion Hcb; subst; by eapply Hsink. }
  intros a Ha. destruct (Htc a a Ha) as [Hc| ->]; [by eapply Hac|].
  inversion Ha; subst; by eapply Hsink.
Qed.

Lemma po_snoc es e a b : po (es ++ [e]) a b → po es a b ∨ b = length es.
Proof.
  intros (Hab & ea & eb & Ha & Hb & Ht).
  apply lookup_app_Some in Hb as [Hb|[Hb1 Hb2]].
  - left. split; [done|]. exists ea, eb. apply lookup_lt_Some in Hb as ?.
    rewrite lookup_app_l in Ha by lia. done.
  - right. apply list_lookup_singleton_Some in Hb2 as [? _]. lia.
Qed.

Lemma po_bound es a b : po es a b → a < b < length es.
Proof. intros (Hab & ea & eb & Ha & Hb & Ht). apply lookup_lt_Some in Hb. lia. Qed.

Lemma rf_edge_range es rf a b : rf_in_range es rf → rf_edge rf a b → a < length es ∧ b < length es.
Proof. intros Hrf (s & Hb & Hs). destruct (Hrf b s Hb) as [? Hr]. by specialize (Hr a Hs). Qed.

Lemma acyclic_snoc es rf e :
  rf_in_range es rf → acyclic (porf es rf) → acyclic (porf (es ++ [e]) rf).
Proof.
  intros Hrf Hac. apply (acyclic_add_sink _ _ (length es) Hac).
  - intros a b [[H| ->]%po_snoc|H]; [by left; left|by right|by left; right].
  - intros b [H%po_bound|H]; [rewrite length_app in H; simpl in H; lia|].
    apply (rf_edge_range es) in H; [lia|done].
Qed.

Lemma rf_edge_set rf r s a b :
  rf_edge (rf_set rf r s) a b ↔
  (b = r ∧ rf_send s = Some a) ∨ (b ≠ r ∧ rf_edge rf a b).
Proof.
  unfold rf_edge. setoid_rewrite rf_find_set. case_decide; naive_solver.
Qed.

Lemma flags_add_event g g' e :
  Core g → Flags g → events g' = events g ++ [e] → reads_from g' = reads_from g →
  known_acyclic_ g' = known_acyclic_ g →
  (∀ id, pending_fresh_receive_id_ g' = Some id → id = event_count g) → Flags g'.
Proof.
  intros Hcore [Hac Hpe] Hev Hrf Hkn Hpend. pose proof (core_rf _ Hcore) as Hrange. split.
  - rewrite Hkn, Hev, Hrf. intros Hk. apply acyclic_snoc; auto.
  - intros id ->%Hpend. rewrite Hrf. unfold event_count at 2. rewrite Hev, length_app.
    split_and!; [simpl; unfold event_count; lia| |].
    + destruct (rf_find _ _) as [s|] eqn:E; [|done]. apply Hrange in E as [? _].
      unfold event_count in *. lia.
    + intros r Hr%(rf_edge_range _ _ _ _ Hrange). unfold event_count in *. lia.
Qed.

Lemma flags_set_rf g g' r source :
  Core g → Flags g → events g' = events g → reads_from g' = rf_set (reads_from g) r source →
  known_acyclic_ g' = keeps_acyclicity g r source → pending_fresh_receive_id_ g' = None →
  Flags g'.
Proof.
  intros Hcore [Hac Hpe] Hev Hrf Hkn Hpend. split; [|by rewrite Hpend].
  rewrite Hkn, Hev, Hrf. unfold keeps_acyclicity.
  rewrite !andb_true_iff, bool_decide_eq_true. intros [[[Hk Hp] Hrecv] Hsend].
  destruct (Hpe r Hp) as (Hlast & Hnone & Hout).
  apply (acyclic_add_sink _ _ r (Hac Hk)).
  - intros a b [H|H%rf_edge_set]; [by left; left|].
    destruct H as [[-> _]|[_ H]]; [by right|by left; right].
  - intros b [H%po_bound|H%rf_edge_set]; [unfold event_count in Hlast; lia|].
    destruct H as [[-> Hs]|[_ H]]; [|by eapply Hout].
    rewrite Hs in Hsend. unfold holds_at in *. destruct (events g !! r) as [e|]; [|done].
    apply is_receive_not_send in Hrecv. congruence.
Qed.

(** Both logging mutators preserve the invariant. *)
Lemma add_event_Inv g t l id g' :
  Inv g → (t ≤ kMaxThreadId)%N → add_event g t l = Ok (id, g') → Inv g'.
Proof.
  intros [Hcore Hel Hfl] Ht Hadd. pose proof (core_add_event g t l Hcore Ht) as Hspec.
  rewrite Hadd in Hspec.
  destruct Hspec as (-> & Hcore' & _ & Hev & Hrf & Hel' & _ & _ & Hkn & Hpe).
  split; [done| |].
  - rewrite Hev, Hel'. by constructor.
  - eapply (flags_add_event g g' _ Hcore Hfl Hev Hrf Hkn). rewrite Hpe. unfold add_event_flags.
    intros j. destruct (_ && _); [by intros [= <-]|done].
Qed.

Lemma set_reads_from_source_Inv g r source g' :
  Inv g → r < event_count g → source_in_range (events g) source →
  set_reads_from_source g r source = Ok g' → Inv g'.
Proof.
  intros [Hcore Hel Hfl] Hr Hs Hset.
  destruct (core_set_reads_from_source g r source Hcore Hr Hs)
    as (g'' & Hset' & Hcore' & Hev & Hrf & Hel' & _ & _ & Hkn & Hpe).
  rewrite Hset in Hset'. injection Hset' as <-. split; [done| |].
  - by rewrite Hev, Hel'.
  - by apply (flags_set_rf g g' r source).
Qed.

End inv.
