(* ===== verification/Rollback.v ===== *)
(** * Rollback: checkpoints of the exploration graph

    The undo log keeps two independent stacks, and [rollback] unwinds all reads-from
    assignments before all insertions, not in the order in which they were made.
    Because every cache is a function of the events and the reads-from relation
    ([Core]), each undo step can be described by its effect on those two alone, and
    unwinding restores the checkpointed graph whatever the interleaving was. *)

From stdpp Require Import base tactics numbers sets relations list strings.
From S2P Require Import Prelude Errors Event Relation RelationFacts ExecutionGraph StorageFacts.
From S2P Require Import ExecutionGraphFacts ExplorationGraph ExplorationFacts.

Section undo.
Context {V : Type}.
Implicit Types (g : ExplorationGraph V) (es : list (Event V)) (t : ThreadId).

(** *** Undoing a reads-from assignment *)

Definition restore_rf (rf : ReadsFromRelation) (u : ReadsFromUndo) : ReadsFromRelation :=
  match ru_previous_source u with
  | Some s => rf_set rf (ru_receive_id u) s
  | None => rf_clear rf (ru_receive_id u)
  end.

Lemma restore_rf_wf rf u : rf_wf rf → rf_wf (restore_rf rf u).
Proof. unfold restore_rf. destruct (ru_previous_source u); [apply rf_set_wf|apply rf_clear_wf]. Qed.

Lemma rf_find_restore rf u i :
  rf_find (restore_rf rf u) i =
  if decide (ru_receive_id u = i) then ru_previous_source u else rf_find rf i.
Proof.
  unfold restore_rf. destruct (ru_previous_source u); [apply rf_find_set|apply rf_find_clear].
Qed.

Lemma readers_restore rf u id :
  readers (restore_rf rf u) id + reads_it id (rf_find rf (ru_receive_id u)) =
  readers rf id + reads_it id (ru_previous_source u).
Proof.
  unfold restore_rf. destruct (ru_previous_source u) as [s|]; [apply readers_set|].
  rewrite readers_clear, reads_it_None. lia.
Qed.

Lemma core_undo_rf g u l :
  Core g → rf_undo_log_ g = l ++ [u] → rf_in_range (events g) (restore_rf (reads_from g) u) →
  ∃ g', undo_last_rf_assignment g = Ok g' ∧ Core g' ∧ events g' = events g ∧
    reads_from g' = restore_rf (reads_from g) u ∧ rf_undo_log_ g' = l ∧
    event_undo_log_ g' = event_undo_log_ g.
Proof.
  intros Hcore Hlog Hrange. unfold undo_last_rf_assignment, current_reads_from_source.
  rewrite Hlog, last_snoc, pop_back_snoc. simpl.
  destruct (core_move_rf g (restore_rf (reads_from g) u) (rf_find (reads_from g) (ru_receive_id u))
              (ru_previous_source u) Hcore) as (counts & mask & Hupd & Hcore').
  { apply restore_rf_wf, (gw_rf _ (core_graph _ Hcore)). }
  { done. }
  { apply readers_restore. }
  { intros id. apply reads_it_le_readers. }
  specialize (Hupd (event_undo_log_ g) l None). simpl in Hupd.
  assert (rollback_reads_from (graph_ g) (ru_receive_id u) (ru_previous_source u) =
          with_reads_from (graph_ g) (restore_rf (reads_from g) u)) as Hroll.
  { unfold rollback_reads_from, restore_rf. by destruct (ru_previous_source u). }
  unfold reads_from at 1. simpl. fold (reads_from g). rewrite Hroll.
  replace (set_cache (set_graph (set_logs g (event_undo_log_ g) l) _) None) with
    (set_cache (set_logs (set_graph g (with_reads_from (graph_ g) (restore_rf (reads_from g) u)))
       (event_undo_log_ g) l) None) by done.
  rewrite Hupd. eexists. split; [done|]. split_and!; [|done..].
  by apply (core_ext _ _ Hcore').
Qed.

(** *** Undoing an insertion *)

(** Removing the last event from a well-formed graph with dense indices. *)
Lemma rollback_last_event_Ok (g : ExecutionGraph V) es e :
  graph_wf g → events_ g = es ++ [e] → dense_indices (es ++ [e]) →
  ∃ g' : ExecutionGraph V, rollback_last_event g (length es) (thread e) (index e) (next_of es (thread e)) = Ok g' ∧
    graph_wf g' ∧ events_ g' = es ∧ reads_from_ g' = reads_from_ g ∧
    ∀ i, default 0%N (next_event_index_by_thread_ g' !! i) =
      if decide (i = N.to_nat (thread e)) then next_of es (thread e)
      else default 0%N (next_event_index_by_thread_ g !! i).
Proof.
  intros [Hrf Hlen Hcap Hst Hbook Hsort] Hev [Hd He]%dense_indices_snoc.
  assert (N.to_nat (thread e) < length (next_event_index_by_thread_ g)) as Hlt.
  { apply (Hst (length es)). by rewrite Hev, lookup_app_r, Nat.sub_diag by lia. }
  unfold rollback_last_event. rewrite Hev, last_snoc, length_app. simpl.
  rewrite decide_False by lia. rewrite decide_False by naive_solver.
  rewrite pop_back_snoc. simpl. rewrite decide_False by lia.
  destruct (lookup_lt_is_Some_2 _ _ Hlt) as [next Hn].
  destruct (lookup_lt_is_Some_2 (used_event_indices_by_thread_ g) (N.to_nat (thread e)))
    as [used Hu]; [lia|].
  rewrite (vec_get_Ok _ _ _ Hu). simpl.
  destruct (Hbook (thread e) next used Hn Hu) as (Huwf & _ & Hused & _). rewrite Hev in Hused.
  destruct (used_erase_spec used (index e) Huwf) as (Hret & Huwf' & Hused').
  destruct (used_erase used (index e)) as [removed used']. simpl in *.
  assert (used_contains used (index e) = true) as Hc.
  { apply Hused, has_index_snoc. by right. }
  rewrite Hc in Hret. subst removed. rewrite decide_False by lia.
  rewrite !vec_set_Ok by lia. simpl. eexists. split; [done|]. simpl.
  split_and!; [|done|done|].
  2:{ intros i. rewrite lookup_insert_default by done.
      destruct (decide (N.to_nat (thread e) = i)), (decide (i = N.to_nat (thread e))); congruence. }
  split; simpl; [done|by rewrite !length_insert|by rewrite length_insert| | |].
  - intros k e' Hk. rewrite length_insert. apply (Hst k). rewrite Hev. by apply lookup_app_l_Some.
  - intros t next' used'' Hn' Hu'. destruct (decide (t = thread e)) as [->|Hne].
    + rewrite list_lookup_insert_eq in Hn' by done. rewrite list_lookup_insert_eq in Hu' by lia.
      simplify_eq. pose proof (λ i, dense_has_index es (thread e) i Hd) as Hidx.
      split_and!; [done|unfold next_of; lia| |].
      * intros i. rewrite Hused', Hused, has_index_snoc, Hidx.
        split; [intros [[?|[_ <-]] ?]; [done|congruence]|]. intros Hi. rewrite He. split; [by left|lia].
      * intros i Hi%Hidx. pose proof (used_contains_bound _ _ Huwf Hc) as Hmax. rewrite He in Hmax.
        unfold next_of. left. lia.
    + rewrite list_lookup_insert_ne in Hn' by lia. rewrite list_lookup_insert_ne in Hu' by lia.
      destruct (Hbook t _ _ Hn' Hu') as (? & ? & Hc' & Hf). rewrite Hev in Hc', Hf.
      split_and!; [done|done| |].
      * intros i. rewrite Hc', has_index_snoc. naive_solver.
      * intros i Hi. apply Hf, has_index_snoc. by left.
  - intros a b ea eb Ha Hb. apply (Hsort a b); rewrite Hev; by apply lookup_app_l_Some.
Qed.

(** Removing the last id of a thread from a vector of per-thread id lists. *)
Lemma pop_at (vs : list (list EventId)) i (x : EventId) (h : nat → list EventId) ids :
  (∀ j, default [] (vs !! j) = h j) → h i = ids ++ [x] →
  tail_mismatch vs i x = false ∧ vs !! i = Some (ids ++ [x]) ∧
  ∃ vs', vec_set vs i ids = Ok vs' ∧
    ∀ j, default [] (vs' !! j) = if decide (j = i) then ids else h j.
Proof.
  intros Hvs Hi. specialize (Hvs i) as Hvi. rewrite Hi in Hvi.
  destruct (vs !! i) as [ids'|] eqn:E; simpl in Hvi; [|by destruct ids]. subst ids'.
  apply lookup_lt_Some in E as Hlt. unfold tail_mismatch. rewrite E, last_snoc. split_and!.
  - by apply bool_decide_eq_false_2, dec_stable; naive_solver.
  - done.
  - exists (<[i := ids]> vs). split; [by apply vec_set_Ok|]. intros j.
    rewrite lookup_insert_default by done.
    destruct (decide (i = j)), (decide (j = i)); congruence.
Qed.

Lemma core_undo_event g es e l :
  Core g → events g = es ++ [e] → event_undo_log_ g = l ++ [undo_entry es e] →
  rf_in_range es (reads_from g) →
  ∃ g', undo_last_event_append g = Ok g' ∧ Core g' ∧ events g' = es ∧
    reads_from g' = reads_from g ∧ event_undo_log_ g' = l ∧ rf_undo_log_ g' = rf_undo_log_ g.
Proof.
  intros [Hwf Hdense Hnext Hrf [Hst Hte Hre Hse Hco Hma]] Hev Hlog Hrange.
  rewrite Hev in Hdense, Hst, Hte, Hre, Hse, Hco, Hma.
  unfold undo_last_event_append. rewrite Hlog, last_snoc, pop_back_snoc. simpl.
  assert (event g (length es) = Ok e) as ->.
  { unfold event, ExecutionGraph.event. fold (events g).
    by rewrite Hev, lookup_app_r, Nat.sub_diag by lia. }
  simpl. unfold event_count. rewrite Hev, length_app. simpl. rewrite decide_False by lia.
  destruct (rollback_last_event_Ok (graph_ g) es e Hwf Hev Hdense)
    as (graph' & -> & Hwf' & Hev' & Hrf' & Hnext'). simpl.
  set (i := N.to_nat (thread e)) in *.
  assert (i < length (thread_state_ g)) as Hi.
  { destruct (decide (i < length (thread_state_ g))) as [|Hge]; [done|exfalso].
    specialize (Hst i). rewrite (lookup_ge_None_2 (thread_state_ g)) in Hst by lia.
    rewrite state_of_snoc, decide_True in Hst by (unfold i; lia). done. }
  rewrite decide_False by lia. rewrite (vec_set_Ok _ _ _ Hi). simpl.
  assert (thread_ids (es ++ [e]) (N.of_nat i) = thread_ids es (thread e) ++ [length es]) as Hti.
  { rewrite thread_ids_snoc, decide_True by (unfold i; lia). unfold i. by rewrite N2Nat.id. }
  destruct (pop_at (thread_event_ids_ g) i (length es) _ _ Hte Hti) as (-> & Hgt & te' & Hset & Hte').
  rewrite (vec_get_Ok _ _ _ Hgt). simpl. rewrite pop_back_snoc. simpl. rewrite Hset. simpl.
  assert (∃ re', (if is_receive e then
      if tail_mismatch (receive_event_ids_by_thread_ g) i (length es) then
        Throw (internal_error "receive-event cache does not match rolled back tail event")
      else r ← vec_get (receive_event_ids_by_thread_ g) i; r' ← pop_back r;
           vec_set (receive_event_ids_by_thread_ g) i r'
      else Ok (receive_event_ids_by_thread_ g)) = (Ok re' : res _) ∧
    ∀ j, default [] (re' !! j) = receive_ids es (N.of_nat j)) as (re' & -> & Hre').
  { destruct (is_receive e) eqn:Er.
    - assert (receive_ids (es ++ [e]) (N.of_nat i) = receive_ids es (thread e) ++ [length es]) as Hri.
      { rewrite receive_ids_snoc, decide_True by (split; [unfold i; lia|done]).
        unfold i. by rewrite N2Nat.id. }
      destruct (pop_at (receive_event_ids_by_thread_ g) i (length es) _ _ Hre Hri)
        as (-> & Hgr & re' & Hsr & Hre').
      rewrite (vec_get_Ok _ _ _ Hgr). simpl. rewrite pop_back_snoc. simpl. rewrite Hsr.
      exists re'. split; [done|]. intros j. rewrite Hre', receive_ids_snoc. unfold i.
      destruct (decide (j = N.to_nat (thread e))) as [->|]; [by rewrite N2Nat.id|].
      rewrite decide_False by lia. by rewrite app_nil_r.
    - exists (receive_event_ids_by_thread_ g). split; [done|]. intros j.
      rewrite Hre, receive_ids_snoc, decide_False by (rewrite Er; by intros [_ ?]). by rewrite app_nil_r. }
  simpl. rewrite Hco, Hma, Hse, counts_of_snoc, mask_of_snoc, ids_where_snoc.
  rewrite decide_False.
  2:{ intros [H|H]; apply (f_equal length) in H; rewrite length_app in H; simpl in H; lia. }
  rewrite (readers_fresh es) by done.
  assert ((if is_send e then
      if decide (last (ids_where is_send es ++ (if is_send e then [length es] else [])) ≠
                 Some (length es)) then
        Throw (internal_error "send-event cache does not match rolled back tail event")
      else readers ← vec_back (counts_of es (readers (reads_from g)) ++ [if is_send e then 0 else 0]);
           if decide (readers ≠ 0) then
             Throw (internal_error "rolled back send still appears to have readers")
           else pop_back (ids_where is_send es ++ (if is_send e then [length es] else []))
      else Ok (ids_where is_send es ++ (if is_send e then [length es] else []))) =
    (Ok (ids_where is_send es) : res _)) as ->.
  { destruct (is_send e); [|by rewrite app_nil_r].
    rewrite last_snoc, decide_False by naive_solver. rewrite vec_back_snoc. simpl.
    apply pop_back_snoc. }
  simpl. rewrite !pop_back_snoc. simpl. eexists. split; [done|].
  split_and!; [|unfold events, reads_from; simpl; done..].
  split; unfold events, reads_from; simpl; rewrite ?Hev', ?Hrf'; fold (reads_from g).
  - done.
  - by apply dense_indices_snoc in Hdense as [? _].
  - intros j. rewrite Hnext', Hnext, Hev. unfold next_of. rewrite thread_ids_snoc. unfold i.
    case_decide as Ej; [subst j; by rewrite N2Nat.id|].
    rewrite decide_False by lia. by rewrite app_nil_r.
  - done.
  - split; unfold events, reads_from; simpl; rewrite ?Hev', ?Hrf'; try done.
    + intros j. rewrite lookup_insert_default by done. rewrite Hst, state_of_snoc. unfold i.
      destruct (decide (N.to_nat (thread e) = j)) as [<-|]; [by rewrite N2Nat.id|].
      by rewrite decide_False by lia.
    + intros j. rewrite Hte', thread_ids_snoc. unfold i.
      destruct (decide (j = N.to_nat (thread e))) as [->|]; [by rewrite N2Nat.id|].
      rewrite decide_False by lia. by rewrite app_nil_r.
Qed.

End undo.

(** ** Equality of graphs up to storage

    Two reads-from relations are equivalent when they answer [find] alike; two graphs
    are equivalent when no accessor tells them apart.  Growing a vector leaves default
    elements behind and erasing an index may reorder the sparse set, so a rolled-back
    graph is equivalent to the checkpointed one, not identical. *)

#[export] Instance rf_equiv : Equiv ReadsFromRelation := λ r1 r2, ∀ i, rf_find r1 i = rf_find r2 i.

#[export] Instance rf_equivalence : Equivalence (≡@{ReadsFromRelation}).
Proof. split; unfold equiv, rf_equiv; congruence. Qed.

#[export] Instance restore_rf_proper : Proper ((≡) ==> (=) ==> (≡)) restore_rf.
Proof.
  intros r1 r2 Hr u ? <- i. rewrite !rf_find_restore. by case_decide.
Qed.

#[export] Instance rf_edge_proper : Proper ((≡) ==> (=) ==> (=) ==> iff) rf_edge.
Proof. intros r1 r2 Hr a ? <- b ? <-. unfold rf_edge. by rewrite (Hr b). Qed.

#[export] Instance readers_proper : Proper ((≡) ==> (=) ==> (=)) readers.
Proof. intros r1 r2 Hr id ? <-. by apply readers_ext. Qed.

#[export] Instance rf_in_range_proper {V} (es : list (Event V)) :
  Proper ((≡) ==> iff) (rf_in_range es).
Proof. intros r1 r2 Hr. unfold rf_in_range. by setoid_rewrite (Hr _). Qed.

#[export] Instance porf_proper {V} (es : list (Event V)) :
  Proper ((≡) ==> (=) ==> (=) ==> iff) (porf es).
Proof. intros r1 r2 Hr a ? <- b ? <-. unfold porf. by rewrite Hr. Qed.

(** What the accessors of the exploration graph can see. *)
Record same_graph {V} (g g' : ExplorationGraph V) : Prop := {
  sg_events : events g = events g';
  sg_rf : reads_from g ≡ reads_from g';
  sg_next : ∀ i, default 0%N (next_event_index_by_thread_ (graph_ g) !! i) =
    default 0%N (next_event_index_by_thread_ (graph_ g') !! i);
  sg_states : ∀ i, default no_thread_state (thread_state_ g !! i) =
    default no_thread_state (thread_state_ g' !! i);
  sg_teids : ∀ i, default [] (thread_event_ids_ g !! i) = default [] (thread_event_ids_ g' !! i);
  sg_reids : ∀ i, default [] (receive_event_ids_by_thread_ g !! i) =
    default [] (receive_event_ids_by_thread_ g' !! i);
  sg_sends : send_event_ids_ g = send_event_ids_ g';
  sg_counts : send_reader_counts_ g = send_reader_counts_ g';
  sg_mask : unread_send_mask_ g = unread_send_mask_ g';
  sg_known : known_acyclic_ g = known_acyclic_ g';
  sg_pending : pending_fresh_receive_id_ g = pending_fresh_receive_id_ g';
  sg_elog : event_undo_log_ g = event_undo_log_ g';
  sg_rlog : rf_undo_log_ g = rf_undo_log_ g';
}.

#[export] Instance graph_equiv {V} : Equiv (ExplorationGraph V) := same_graph.

#[export] Instance graph_equivalence {V} : Equivalence (≡@{ExplorationGraph V}).
Proof.
  split.
  - intros g. by split.
  - intros g g' []. by split.
  - intros g1 g2 g3 [] []. split; etrans; eauto.
Qed.

Section rollback.
Context {V : Type}.
Implicit Types (g : ExplorationGraph V) (es : list (Event V)) (t : ThreadId).

(** The caches of two [Core] graphs with the same events and reads-from agree. *)
Lemma core_determined g g' :
  Core g → Core g' → events g = events g' → reads_from g ≡ reads_from g' →
  known_acyclic_ g = known_acyclic_ g' →
  pending_fresh_receive_id_ g = pending_fresh_receive_id_ g' →
  event_undo_log_ g = event_undo_log_ g' → rf_undo_log_ g = rf_undo_log_ g' → g ≡ g'.
Proof.
  intros [_ _ Hn _ [H1 H2 H3 H4 H5 H6]] [_ _ Hn' _ [H1' H2' H3' H4' H5' H6']] Hev Hrf ????.
  split; try done; try (intros i).
  - by rewrite Hn, Hn', Hev.
  - by rewrite H1, H1', Hev.
  - by rewrite H2, H2', Hev.
  - by rewrite H3, H3', Hev.
  - by rewrite H4, H4', Hev.
  - rewrite H5, H5', Hev. apply counts_of_ext. intros id _. by rewrite Hrf.
  - rewrite H6, H6', Hev. apply mask_of_ext. intros id _. by rewrite Hrf.
Qed.

(** [undo_path es rf l rf0]: undoing the entries of [l], last first, leads from [rf] to
    [rf0] through relations whose ids all belong to [es]. *)
Inductive undo_path es : ReadsFromRelation → list ReadsFromUndo → ReadsFromRelation → Prop :=
| undo_nil rf rf0 : rf ≡ rf0 → undo_path es rf [] rf0
| undo_snoc rf l u rf0 :
    rf_in_range es (restore_rf rf u) → undo_path es (restore_rf rf u) l rf0 →
    undo_path es rf (l ++ [u]) rf0.

Lemma undo_path_ext es rf rf' l rf0 : rf ≡ rf' → undo_path es rf l rf0 → undo_path es rf' l rf0.
Proof.
  intros Hrf Hp. revert rf' Hrf. induction Hp as [rf rf0 H|rf l u rf0 Hr Hp IH]; intros rf' Hrf.
  - constructor. by rewrite <-Hrf.
  - constructor; [by rewrite <-Hrf|]. apply IH. by rewrite Hrf.
Qed.

Lemma undo_path_snoc_event es e rf l rf0 :
  undo_path es rf l rf0 → undo_path (es ++ [e]) rf l rf0.
Proof. induction 1; constructor; eauto using rf_in_range_snoc. Qed.

Lemma undo_path_inv es rf l u rf0 :
  undo_path es rf (l ++ [u]) rf0 →
  rf_in_range es (restore_rf rf u) ∧ undo_path es (restore_rf rf u) l rf0.
Proof.
  intros Hp. remember (l ++ [u]) as l' eqn:El. destruct Hp as [|? l'' u'].
  - by destruct l.
  - apply app_inj_tail in El as [-> ->]. done.
Qed.

Lemma undo_path_nil_inv es rf rf0 : undo_path es rf [] rf0 → rf ≡ rf0.
Proof.
  intros Hp. remember [] as l eqn:El. destruct Hp as [|? l'' u']; [done|by destruct l''].
Qed.

Lemma elog_ok_inv es e l u :
  elog_ok (es ++ [e]) (l ++ [u]) → u = undo_entry es e ∧ elog_ok es l.
Proof.
  intros H. inversion H as [? H1 H2|es' e' l' H' H1 H2].
  - by destruct l.
  - apply app_inj_tail in H1 as [-> ->]. apply app_inj_tail in H2 as [-> ->]. done.
Qed.

(** The logging mutations a worker performs between a checkpoint and a rollback. *)
Inductive mutates : ExplorationGraph V → ExplorationGraph V → Prop :=
| mutate_add g t l id g' : add_event g t l = Ok (id, g') → mutates g g'
| mutate_rf g r s g' :
    r < event_count g → source_in_range (events g) s →
    set_reads_from_source g r s = Ok g' → mutates g g'.

(** What the mutations since [g0] have recorded in the logs of [g]. *)
Record Since g0 g : Prop := {
  since_inv : Inv g;
  since_events : ∃ esx elx, events g = events g0 ++ esx ∧
    event_undo_log_ g = event_undo_log_ g0 ++ elx ∧ length elx = length esx;
  since_rf : ∃ rlx, rf_undo_log_ g = rf_undo_log_ g0 ++ rlx ∧
    undo_path (events g) (reads_from g) rlx (reads_from g0);
}.

Lemma add_event_thread_bound g t l id g' :
  Core g → add_event g t l = Ok (id, g') → (t ≤ kMaxThreadId)%N.
Proof.
  intros Hcore Hadd. destruct (decide (t ≤ kMaxThreadId)%N) as [|Ht]; [done|].
  unfold add_event in Hadd. rewrite add_event_bad_thread in Hadd; [done|apply Hcore|lia].
Qed.

Lemma since_mutates g0 g g' : Since g0 g → mutates g g' → Since g0 g'.
Proof.
  intros [Hinv (esx & elx & Hev & Hel & Hlen) (rlx & Hrl & Hpath)] Hm.
  pose proof (inv_core _ Hinv) as Hcore. destruct Hm as [g t l id g' Hadd|g r s g' Hr Hs Hset].
  - pose proof (add_event_thread_bound g t l id g' Hcore Hadd) as Ht.
    pose proof (core_add_event g t l Hcore Ht) as Hspec. rewrite Hadd in Hspec.
    destruct Hspec as (_ & _ & _ & Hev' & Hrf' & Hel' & Hrl' & _).
    split; [by eapply add_event_Inv| |].
    + rewrite Hev', Hel', Hev, Hel, <-!app_assoc. do 2 eexists. split_and!; [done|done|].
      rewrite !length_app. simpl. lia.
    + exists rlx. rewrite Hrl', Hrf', Hev'. split; [done|]. by apply undo_path_snoc_event.
  - destruct (core_set_reads_from_source g r s Hcore Hr Hs)
      as (g'' & Hset' & _ & Hev' & Hrf' & Hel' & Hrl' & _).
    rewrite Hset in Hset'. injection Hset' as <-.
    split; [by eapply set_reads_from_source_Inv| |].
    + rewrite Hev', Hel'. by exists esx, elx.
    + exists (rlx ++ [MkReadsFromUndo r (rf_find (reads_from g) r)]).
      rewrite Hrl', Hrl, <-app_assoc. split; [done|]. rewrite Hev', Hrf'.
      assert (reads_from g ≡ restore_rf (rf_set (reads_from g) r s)
                (MkReadsFromUndo r (rf_find (reads_from g) r))) as Heq.
      { intros i. rewrite rf_find_restore, rf_find_set. simpl. by case_decide; subst. }
      constructor; [rewrite <-Heq; by apply core_rf|]. by eapply undo_path_ext.
Qed.

Lemma since_rtc g0 g : Inv g0 → rtc mutates g0 g → Since g0 g.
Proof.
  intros Hinv. revert g. apply rtc_ind_r.
  - split; [done| |].
    + exists [], []. by rewrite !app_nil_r.
    + exists []. rewrite app_nil_r. split; [done|]. by constructor.
  - intros g g' _ Hm Hs. by eapply since_mutates.
Qed.

(** *** The two loops of [rollback] *)

Lemma rollback_rf_loop g rl0 rlx rf0 :
  Core g → rf_undo_log_ g = rl0 ++ rlx → undo_path (events g) (reads_from g) rlx rf0 →
  ∃ g', while (S (length (rf_undo_log_ g))) nontermination (rollback_rf_step (length rl0)) g =
      Ok g' ∧ Core g' ∧ events g' = events g ∧ event_undo_log_ g' = event_undo_log_ g ∧
      rf_undo_log_ g' = rl0 ∧ reads_from g' ≡ rf0.
Proof.
  intros Hcore Hrl Hpath.
  apply (while_total nontermination (rollback_rf_step (length rl0))
    (λ g', Core g' ∧ events g' = events g ∧ event_undo_log_ g' = event_undo_log_ g ∧
       ∃ rlx, rf_undo_log_ g' = rl0 ++ rlx ∧ undo_path (events g') (reads_from g') rlx rf0)
    (λ g', length (rf_undo_log_ g'))
    (λ g', Core g' ∧ events g' = events g ∧ event_undo_log_ g' = event_undo_log_ g ∧
       rf_undo_log_ g' = rl0 ∧ reads_from g' ≡ rf0)); [|by eauto 10|lia].
  clear rlx Hrl Hpath. intros g1 (Hcore1 & Hev1 & Hel1 & rlx & Hrl1 & Hpath1).
  unfold rollback_rf_step. rewrite Hrl1, length_app.
  destruct rlx as [|u rlx _] using rev_ind.
  - rewrite decide_False by (simpl; lia). eexists. split; [done|].
    rewrite app_nil_r in Hrl1. apply undo_path_nil_inv in Hpath1. done.
  - rewrite decide_True by (rewrite length_app; simpl; lia).
    apply undo_path_inv in Hpath1 as [Hrange Hpath1]. rewrite app_assoc in Hrl1.
    destruct (core_undo_rf g1 u _ Hcore1 Hrl1 Hrange) as (g2 & -> & Hcore2 & Hev2 & Hrf2 & Hrl2 & Hel2).
    simpl. eexists. split; [done|]. split.
    + split_and!; [done|congruence|congruence|]. exists rlx. by rewrite Hev2, Hrf2.
    + rewrite Hrl2, !length_app. simpl. lia.
Qed.

Lemma rollback_event_loop g es0 esx el0 elx :
  Core g → events g = es0 ++ esx → event_undo_log_ g = el0 ++ elx → length elx = length esx →
  elog_ok (events g) (event_undo_log_ g) → rf_in_range es0 (reads_from g) →
  ∃ g', while (S (length (event_undo_log_ g))) nontermination
      (rollback_event_step (length el0)) g = Ok g' ∧ Core g' ∧ events g' = es0 ∧
      event_undo_log_ g' = el0 ∧ rf_undo_log_ g' = rf_undo_log_ g ∧
      reads_from g' = reads_from g.
Proof.
  intros Hcore Hev Hel Hlen Helog Hrf.
  apply (while_total nontermination (rollback_event_step (length el0))
    (λ g', Core g' ∧ rf_undo_log_ g' = rf_undo_log_ g ∧ reads_from g' = reads_from g ∧
       elog_ok (events g') (event_undo_log_ g') ∧
       ∃ esx elx, events g' = es0 ++ esx ∧ event_undo_log_ g' = el0 ++ elx ∧
         length elx = length esx)
    (λ g', length (event_undo_log_ g'))
    (λ g', Core g' ∧ events g' = es0 ∧ event_undo_log_ g' = el0 ∧
       rf_undo_log_ g' = rf_undo_log_ g ∧ reads_from g' = reads_from g)); [|by eauto 10|lia].
  clear esx elx Hev Hel Hlen Helog.
  intros g1 (Hcore1 & Hrl1 & Hrf1 & Helog & esx & elx & Hev & Hel & Hlen).
  unfold rollback_event_step. rewrite Hel, length_app.
  destruct elx as [|u elx _] using rev_ind.
  - rewrite decide_False by (simpl; lia). eexists. split; [done|].
    destruct esx; [|done]. rewrite !app_nil_r in *. done.
  - rewrite decide_True by (rewrite length_app; simpl; lia). rewrite length_app in Hlen. simpl in Hlen.
    destruct esx as [|e esx _] using rev_ind; [simpl in Hlen; lia|].
    rewrite length_app in Hlen. simpl in Hlen. rewrite app_assoc in Hev, Hel.
    rewrite Hev, Hel in Helog. apply elog_ok_inv in Helog as [-> Helog].
    destruct (core_undo_event g1 (es0 ++ esx) e (el0 ++ elx) Hcore1 Hev Hel)
      as (g2 & -> & Hcore2 & Hev2 & Hrf2 & Hel2 & Hrl2).
    { rewrite Hrf1. clear -Hrf. intros r s Hs. destruct (Hrf r s Hs) as [? Hsrc].
      unfold source_in_range. rewrite length_app. split; [lia|].
      intros id Hid. specialize (Hsrc id Hid). lia. }
    simpl. eexists. split; [done|]. split.
    + rewrite Hev2, Hel2. split_and!; [done|congruence|congruence|done|].
      exists esx, elx. split_and!; [done|done|lia].
    + rewrite Hel2, !length_app. simpl. lia.
Qed.

(** Rolling back to a checkpoint restores the graph, whatever was recorded since. *)
Lemma rollback_since g g' :
  Inv g → Since g g' →
  ∃ g'', rollback g' (checkpoint g) = Ok g'' ∧ g'' ≡ g ∧ Inv g'' ∧ porf_cache_ g'' = None.
Proof.
  intros Hinv [[Hcore' Helog' _] (esx & elx & Hev & Hel & Hlen) (rlx & Hrl & Hpath)].
  unfold rollback. simpl. rewrite decide_False by (rewrite Hel, Hrl, !length_app; lia).
  destruct (rollback_rf_loop g' _ rlx (reads_from g) Hcore' Hrl Hpath)
    as (g1 & -> & Hcore1 & Hev1 & Hel1 & Hrl1 & Hrf1). simpl.
  destruct (rollback_event_loop g1 (events g) esx (event_undo_log_ g) elx Hcore1)
    as (g2 & -> & Hcore2 & Hev2 & Hel2 & Hrl2 & Hrf2).
  { congruence. }
  { congruence. }
  { done. }
  { by rewrite Hev1, Hel1. }
  { rewrite Hrf1. apply (core_rf _ (inv_core _ Hinv)). }
  simpl. eexists. split; [done|].
  assert (reads_from g2 ≡ reads_from g) as Hrf by (rewrite Hrf2; done).
  assert (∀ c p, Core (set_cache (set_acyclicity g2 c p) None)) as Hcore
    by (intros; by apply (core_ext g2)).
  split_and!; [| |done].
  - apply core_determined; try done; [by apply inv_core|simpl; congruence].
  - split; [done|simpl; unfold events in *; simpl; rewrite Hev2, Hel2; by apply inv_elog|].
    destruct (inv_flags _ Hinv) as [Hac Hpe]. split; simpl.
    + intros Hk. apply (acyclic_sub (porf (events g) (reads_from g))); [|by apply Hac].
      intros a b. unfold events, reads_from in *. simpl. rewrite Hev2, Hrf. done.
    + intros id Hid. destruct (Hpe id Hid) as (H1 & H2 & H3).
      unfold event_count, events, reads_from in *. simpl. rewrite Hev2.
      split_and!; [done|by rewrite (Hrf id)|]. intros r. by rewrite Hrf.
Qed.

Lemma since_refl g : Inv g → Since g g.
Proof. intros Hinv. by apply since_rtc. Qed.

End rollback.
