(* ===== verification/Queries.v ===== *)
(** * Queries: the accessors of the exploration graph answer from the caches correctly

    Each query that reads a cache is shown equal to its definition from the events and
    the reads-from relation alone. *)

From stdpp Require Import base tactics numbers sets relations list strings.
From S2P Require Import Prelude Errors Event Relation RelationFacts ExecutionGraph StorageFacts.
From S2P Require Import ExecutionGraphFacts ExplorationGraph ExplorationFacts.

Section queries.
Context {V : Type}.
Implicit Types (g : ExplorationGraph V) (es : list (Event V)) (t : ThreadId).

(** *** Unread sends *)

Lemma consumed_send_ids_elem (x : ExecutionGraph V) id :
  id ∈ consumed_send_ids x ↔ readers (reads_from_ x) id ≠ 0.
Proof.
  unfold consumed_send_ids. rewrite list_elem_of_omap. split.
  - intros ([r s] & Hin%rf_to_list_elem & Hs) Hz. by eapply readers_zero.
  - intros Hnz. destruct (decide (Exists (λ entry, rf_send entry.2 = Some id)
      (rf_to_list (reads_from_ x)))) as [Hex|Hex].
    + apply Exists_exists in Hex as ([r s] & Hin & Hs). by exists (r, s).
    + exfalso. apply Hnz, readers_zero. intros r s Hr%rf_to_list_elem Hs. apply Hex, Exists_exists.
      by exists (r, s).
Qed.

Lemma is_unread_eq g id :
  Core g → is_unread g id =
    match events g !! id with
    | Some e => is_send e && bool_decide (readers (reads_from g) id = 0)
    | None => false
    end.
Proof.
  intros Hcore. unfold is_unread. rewrite (c_mask _ (core_caches _ Hcore)).
  unfold mask_of. rewrite list_lookup_imap. by destruct (events g !! id).
Qed.

Lemma unread_send_event_ids_eq g :
  Core g → unread_send_event_ids g = ExecutionGraph.unread_send_event_ids (graph_ g).
Proof.
  intros Hcore. unfold unread_send_event_ids, ExecutionGraph.unread_send_event_ids, send_event_ids.
  rewrite (c_sends _ (core_caches _ Hcore)). fold (events g).
  apply filter_ext_in. intros id Hid%list_elem_of_In.
  apply ids_where_elem in Hid as (e & He & Hs).
  rewrite is_unread_eq, He, Hs by done. simpl. apply bool_decide_ext.
  rewrite consumed_send_ids_elem. fold (reads_from g). destruct (readers _ _); naive_solver lia.
Qed.

Lemma unread_send_event_ids_elem g id :
  Core g → id ∈ unread_send_event_ids g ↔
    (∃ e, events g !! id = Some e ∧ is_send e = true) ∧ ∀ r, ¬ rf_edge (reads_from g) id r.
Proof.
  intros Hcore. rewrite unread_send_event_ids_eq by done.
  unfold ExecutionGraph.unread_send_event_ids, send_event_ids.
  rewrite list_elem_of_In, filter_In, <-list_elem_of_In, ids_where_elem, bool_decide_eq_true.
  rewrite consumed_send_ids_elem. fold (events g) (reads_from g).
  assert (¬ readers (reads_from g) id ≠ 0 ↔ ∀ r, ¬ rf_edge (reads_from g) id r) as ->; [|done].
  transitivity (readers (reads_from g) id = 0); [lia|]. rewrite readers_zero. unfold rf_edge.
  naive_solver.
Qed.

Lemma any_unread_send_eq g p :
  Core g → any_unread_send g p = existsM p (unread_send_event_ids g).
Proof.
  intros _. unfold any_unread_send, unread_send_event_ids.
  induction (send_event_ids_ g) as [|id ids IH]; simpl; [done|].
  destruct (is_unread g id); simpl; [|done].
  destruct (p id) as [[]|]; simpl; done.
Qed.

(** *** Per-thread metadata *)

Lemma thread_state_eq g t : Core g → thread_state g t = state_of (events g) t.
Proof.
  intros Hcore. unfold thread_state. by rewrite (c_states _ (core_caches _ Hcore)), N2Nat.id.
Qed.

Lemma thread_event_ids_eq g t :
  Core g → default [] (thread_event_ids_ g !! N.to_nat t) = thread_ids (events g) t.
Proof. intros Hcore. by rewrite (c_teids _ (core_caches _ Hcore)), N2Nat.id. Qed.

Lemma thread_event_count_eq g t :
  Core g → thread_event_count g t = length (thread_ids (events g) t).
Proof. intros Hcore. unfold thread_event_count. by rewrite thread_state_eq. Qed.

Lemma last_event_id_eq g t : Core g → last_event_id g t = last (thread_ids (events g) t).
Proof.
  intros Hcore. unfold last_event_id. rewrite thread_state_eq by done. simpl.
  case_decide as Hlen; [|done]. by apply nil_length_inv in Hlen as ->.
Qed.

(** The last event of thread [t]. *)
Definition thread_tail es t : option (Event V) := last (thread_ids es t) ≫= (es !!.).

Lemma last_event_state g t :
  ts_event_count (state_of (events g) t) ≠ 0 →
  ∃ e, thread_tail (events g) t = Some e ∧ last_event g (state_of (events g) t) = Ok e.
Proof.
  unfold thread_tail, last_event, state_of. simpl. intros Hlen.
  destruct (last (thread_ids (events g) t)) as [id|] eqn:El.
  - assert (id ∈ thread_ids (events g) t) as (e & He & _)%thread_ids_elem.
    { rewrite last_lookup in El. by eapply list_elem_of_lookup_2. }
    exists e. simpl. split; [done|]. unfold event, ExecutionGraph.event. fold (events g).
    by rewrite He.
  - apply last_None in El. by rewrite El in Hlen.
Qed.

Lemma thread_tail_None g t :
  ts_event_count (state_of (events g) t) = 0 → thread_tail (events g) t = None.
Proof. unfold thread_tail, state_of. simpl. by intros ->%nil_length_inv. Qed.

Lemma thread_is_terminated_eq g t :
  Core g → thread_is_terminated g t =
    Ok (match thread_tail (events g) t with Some e => is_block e || is_error e | None => false end).
Proof.
  intros Hcore. unfold thread_is_terminated. rewrite thread_state_eq by done. case_decide as Hc.
  - by rewrite thread_tail_None.
  - destruct (last_event_state g t Hc) as (e & -> & ->). done.
Qed.

(** A thread is blocked when its last event is a block event. *)
Definition blocked es t : Prop := ∃ e, thread_tail es t = Some e ∧ is_block e = true.

Lemma has_blocked_thread_eq g :
  Core g → ∃ b, has_blocked_thread g = Ok b ∧ (b = true ↔ ∃ t, blocked (events g) t).
Proof.
  intros Hcore. pose proof (c_states _ (core_caches _ Hcore)) as Hst.
  set (q := λ i, match thread_tail (events g) (N.of_nat i) with
                 | Some e => is_block e | None => false end).
  assert (∀ l k, (∀ i ts, l !! i = Some ts → ts = state_of (events g) (N.of_nat (k + i))) →
    existsM (λ ts, if decide (ts_event_count ts = 0) then Ok false
                   else e ← last_event g ts; Ok (is_block e)) l =
    Ok (existsb q (seq k (length l)))) as Hloop.
  { intros l. induction l as [|ts l IH]; intros k Hl; simpl; [done|].
    rewrite (Hl 0 ts eq_refl), Nat.add_0_r, (IH (S k)).
    2:{ intros i ts' Hi. rewrite (Hl (S i) ts' Hi). do 2 f_equal. lia. }
    assert (q k = match thread_tail (events g) (N.of_nat k) with
                  | Some e => is_block e | None => false end) as -> by done.
    case_decide as Hc; simpl.
    - by rewrite thread_tail_None.
    - destruct (last_event_state g _ Hc) as (e & -> & ->). simpl. by destruct (is_block e). }
  unfold has_blocked_thread. rewrite (Hloop _ 0).
  2:{ intros i ts Hi. specialize (Hst i). rewrite Hi in Hst. done. }
  eexists. split; [done|]. rewrite existsb_exists. setoid_rewrite <-list_elem_of_In. split.
  - intros (i & _ & Hq). exists (N.of_nat i). unfold blocked, q in *.
    destruct (thread_tail _ _) as [e|]; [by exists e|done].
  - intros (t & e & Htail & Hb). exists (N.to_nat t). unfold q. rewrite N2Nat.id, Htail.
    split; [|done]. apply elem_of_seq. split; [lia|]. simpl.
    destruct (decide (N.to_nat t < length (thread_state_ g))) as [|Hge]; [done|].
    specialize (Hst (N.to_nat t)). rewrite N2Nat.id, lookup_ge_None_2 in Hst by lia.
    unfold thread_tail in Htail. simpl in Hst. unfold state_of, no_thread_state in Hst.
    injection Hst as Hl _. symmetry in Hl. apply nil_length_inv in Hl. by rewrite Hl in Htail.
Qed.

Lemma receives_in_destination_eq g id e s :
  Core g → events g !! id = Some e → as_send e = Some s →
  receives_in_destination g id = Ok (receive_ids (events g) (destination s)).
Proof.
  intros Hcore He Hs. unfold receives_in_destination, event, ExecutionGraph.event.
  fold (events g). rewrite He. simpl. rewrite Hs.
  by rewrite (c_reids _ (core_caches _ Hcore)), N2Nat.id.
Qed.

(** *** Traces *)

(** What the event at [id] lets its thread observe. *)
Definition observation es (rf : ReadsFromRelation) (id : EventId) : option (ObservedValue V) :=
  e ← es !! id;
  match label e with
  | LReceive _ =>
      s ← rf_find rf id;
      match rf_send s with
      | None => Some BottomValue
      | Some send_id => send ← es !! send_id; l ← as_send send; Some (Observed (value l))
      end
  | LNd n => Some (Observed (nd_value n))
  | _ => None
  end.

(** The observations of thread [t], in program order. *)
Definition trace_of es (rf : ReadsFromRelation) t : list (ObservedValue V) :=
  omap (observation es rf) (thread_ids es t).

Lemma trace_entry_eq g id :
  Core g → id < event_count g →
  trace_entry g id = Ok (observation (events g) (reads_from g) id).
Proof.
  intros Hcore [e He]%lookup_lt_is_Some. unfold trace_entry, observation, event, ExecutionGraph.event.
  fold (events g). rewrite He. simpl. destruct (label e) as [r| |n| |]; try done.
  destruct (rf_find (reads_from g) id) as [s|] eqn:Es; simpl; [|done].
  destruct (rf_send s) as [send_id|] eqn:Esend; [|done].
  destruct (core_rf _ Hcore id s Es) as [_ Hrange].
  destruct (lookup_lt_is_Some_2 _ _ (Hrange send_id Esend)) as [e' He'].
  rewrite He'. simpl. by destruct (as_send e').
Qed.

Context `{EqDecision V}.

(** The buffer-reusing loop writes the observations over whatever the buffer held. *)
Lemma emit_step (trace : list (ObservedValue V)) written vs v :
  take written trace = vs → written = length vs → written ≤ length trace →
  let st := emit (trace, written) v in
  take st.2 st.1 = vs ++ [v] ∧ st.2 = length (vs ++ [v]) ∧ st.2 ≤ length st.1.
Proof.
  intros Htake Hw Hle. unfold emit. rewrite length_app. simpl.
  destruct (trace !! written) as [old|] eqn:Eo; simpl.
  - apply lookup_lt_Some in Eo as Hlt.
    assert (∀ trace' : list (ObservedValue V), take written trace' = vs → trace' !! written = Some v →
      take (S written) trace' = vs ++ [v]) as Hsnoc.
    { intros trace' H1 H2. by rewrite (take_S_r _ _ _ H2), H1. }
    case_decide as Ev; [subst old|].
    + split_and!; [by apply Hsnoc|lia|lia].
    + rewrite length_insert. split_and!; [|lia|lia]. apply Hsnoc.
      * by rewrite take_insert_ge by lia.
      * by apply list_lookup_insert_eq.
  - apply lookup_ge_None in Eo. unfold push_back. rewrite length_app. simpl.
    split_and!; [|lia|lia]. rewrite take_ge in Htake by lia. subst trace.
    rewrite take_ge; [done|]. rewrite length_app. simpl. lia.
Qed.

Lemma thread_trace_into_eq g t buffer :
  Core g → thread_trace_into g t buffer = Ok (trace_of (events g) (reads_from g) t).
Proof.
  intros Hcore. unfold thread_trace_into, trace_of. rewrite thread_event_ids_eq by done.
  destruct (foldM_inv (λ st id, o ← trace_entry g id;
      Ok (match o with Some v => emit st v | None => st end))
    (λ l (st : list (ObservedValue V) * nat),
       take st.2 st.1 = omap (observation (events g) (reads_from g)) l ∧
       st.2 = length (omap (observation (events g) (reads_from g)) l) ∧ st.2 ≤ length st.1)
    (thread_ids (events g) t) (buffer, 0)) as ([trace written] & -> & Htake & Hw & Hle).
  - simpl. split_and!; [done|done|lia].
  - intros l1 id l2 [trace written] Hl (H1 & H2 & H3). simpl in *.
    rewrite trace_entry_eq; [|done|].
    2:{ apply (ids_where_bound (on_thread t)). fold (thread_ids (events g) t). rewrite Hl. set_solver. }
    simpl. eexists. split; [done|]. rewrite omap_app. simpl.
    destruct (observation _ _ id) as [v|]; [|by rewrite app_nil_r].
    by apply emit_step.
  - simpl in *. rewrite resize_le by lia. by rewrite Htake.
Qed.

End queries.
