(* ===== verification/PorfFacts.v ===== *)
(** * PorfFacts: the causality queries decide (po U rf)+

    Kahn's algorithm over the compressed-sparse-row adjacency returns a complete order
    exactly when program order and reads-from have no common cycle, and on acyclic
    graphs the vector clocks answer [porf_contains] with the transitive closure. *)

From stdpp Require Import base tactics numbers sets relations list strings.
From S2P Require Import Prelude Errors Event Relation RelationFacts ExecutionGraph StorageFacts.
From S2P Require Import ExecutionGraphFacts ExplorationGraph ExplorationFacts Porf.

(** ** Edge lists *)

Section edges.
Implicit Types (E : list (nat * nat)) (n v w : nat).

(** Every edge joins two of the [n] nodes. *)
Definition edges_in n E : Prop := ∀ a b, (a, b) ∈ E → a < n ∧ b < n.

(** The targets of the edges from [w], in order. *)
Definition targets E w : list nat :=
  omap (λ e : nat * nat, if decide (e.1 = w) then Some e.2 else None) E.

(** The number of edges into [v] whose source satisfies [p]. *)
Definition in_edges E (p : nat → bool) v : nat :=
  length (List.filter (λ e : nat * nat, bool_decide (e.2 = v) && p e.1) E).

Lemma edges_in_app n E1 E2 : edges_in n (E1 ++ E2) ↔ edges_in n E1 ∧ edges_in n E2.
Proof.
  unfold edges_in. split.
  - intros H. split; intros a b Hab; apply H, elem_of_app; auto.
  - intros [H1 H2] a b [Hab|Hab]%elem_of_app; auto.
Qed.

Lemma targets_app E1 E2 w : targets (E1 ++ E2) w = targets E1 w ++ targets E2 w.
Proof. apply omap_app. Qed.

Lemma targets_one a b w : targets [(a, b)] w = if decide (a = w) then [b] else [].
Proof. unfold targets. simpl. by case_decide. Qed.

Lemma targets_elem E w v : v ∈ targets E w ↔ (w, v) ∈ E.
Proof.
  unfold targets. rewrite list_elem_of_omap. split.
  - intros ([a b] & Hin & Hd). simpl in Hd. case_decide; by simplify_eq.
  - intros Hin. exists (w, v). split; [done|]. simpl. by rewrite decide_True.
Qed.

Lemma in_edges_app E1 E2 p v : in_edges (E1 ++ E2) p v = in_edges E1 p v + in_edges E2 p v.
Proof. unfold in_edges. by rewrite List.filter_app, length_app. Qed.

Lemma in_edges_one a b p v :
  in_edges [(a, b)] p v = if bool_decide (b = v) && p a then 1 else 0.
Proof. unfold in_edges. simpl. by destruct (_ && _). Qed.

Lemma in_edges_pos E p v : 0 < in_edges E p v ↔ ∃ a, (a, v) ∈ E ∧ p a = true.
Proof.
  unfold in_edges. split.
  - intros Hlen. destruct (List.filter _ E) as [|[a b] l] eqn:El; [simpl in Hlen; lia|].
    assert ((a, b) ∈ (a, b) :: l) as Hin by set_solver.
    rewrite <-El, list_elem_of_In, filter_In, <-list_elem_of_In, andb_true_iff, bool_decide_eq_true in Hin.
    simpl in Hin. exists a. naive_solver.
  - intros (a & Hin & Hp).
    assert ((a, v) ∈ List.filter (λ e : nat * nat, bool_decide (e.2 = v) && p e.1) E) as H.
    { rewrite list_elem_of_In, filter_In, <-list_elem_of_In. split; [done|]. simpl.
      by rewrite bool_decide_eq_true_2. }
    destruct (List.filter _ E); [set_solver|simpl; lia].
Qed.

(** Removing [w] from the sources leaves out one edge per occurrence of [v] in its targets. *)
Lemma in_edges_remove E (p q : nat → bool) w v :
  p w = true → (∀ a, q a = p a && bool_decide (a ≠ w)) →
  in_edges E p v =
  in_edges E q v + length (List.filter (λ x, bool_decide (x = v)) (targets E w)).
Proof.
  intros Hw Hq. induction E as [|[a b] E IH]; [done|].
  change ((a, b) :: E) with ([(a, b)] ++ E).
  rewrite !in_edges_app, targets_app, List.filter_app, length_app, IH.
  assert (in_edges [(a, b)] p v = in_edges [(a, b)] q v +
    length (List.filter (λ x, bool_decide (x = v)) (targets [(a, b)] w))); [|lia].
  rewrite targets_one, !in_edges_one, Hq.
  destruct (decide (a = w)) as [->|Hne].
  - rewrite Hw, (bool_decide_eq_false_2 (w ≠ w)) by naive_solver. simpl.
    rewrite andb_false_r. by case_bool_decide.
  - rewrite (bool_decide_eq_true_2 (a ≠ w)), andb_true_r by done. simpl. lia.
Qed.

End edges.

(** ** Compressed sparse rows *)

Section csr.
Context (n : nat) (E : list (nat * nat)) (HE : edges_in n E).

(** The number of edges that leave nodes below [w]. *)
Fixpoint off (w : nat) : nat :=
  match w with O => 0 | S w' => off w' + length (targets E w') end.

Lemma off_mono a b : a ≤ b → off a ≤ off b.
Proof. induction 1; simpl; lia. Qed.

Lemma off_slot a b i : a < b → i < length (targets E a) → off a + i < off b.
Proof. intros Hab Hi. pose proof (off_mono (S a) b Hab). simpl in *. lia. Qed.

End csr.

Section counting.
Implicit Types (E : list (nat * nat)) (n v w : nat).

Lemma vec_incr_Ok (v : list nat) i x :
  v !! i = Some x → vec_incr v i = Ok (<[i := S x]> v).
Proof.
  intros Hi. unfold vec_incr. rewrite (vec_get_Ok _ _ _ Hi). simpl. apply vec_set_Ok.
  by eapply lookup_lt_Some.
Qed.

(** Pass 1: [offsets] counts out-degrees one to the right, [in_degree] in-degrees. *)
Definition counted n E (st : list nat * list nat) : Prop :=
  length st.1 = n + 1 ∧ length st.2 = n ∧ st.1 !! 0 = Some 0 ∧
  (∀ w, w < n → st.1 !! (w + 1) = Some (length (targets E w))) ∧
  (∀ v, v < n → st.2 !! v = Some (in_edges E (λ _, true) v)).

Lemma counted_init n : counted n [] (replicate (n + 1) 0, replicate n 0).
Proof.
  split_and!; simpl; [apply length_replicate|apply length_replicate| | |].
  - by rewrite lookup_replicate_2 by lia.
  - intros w Hw. by rewrite lookup_replicate_2 by lia.
  - intros v Hv. by rewrite lookup_replicate_2 by lia.
Qed.

Lemma count_edges_Ok n E E' st :
  counted n E st → edges_in n E' →
  ∃ st', foldM count_edge st E' = Ok st' ∧ counted n (E ++ E') st'.
Proof.
  intros Hst HE.
  destruct (foldM_inv (E := exn) count_edge (λ l st, counted n (E ++ l) st) E' st)
    as (st' & Hf & Hc); [by rewrite app_nil_r| |by exists st'].
  clear st Hst. intros E1 [a b] E2 [offs ins] HE' (H1 & H2 & H3 & H4 & H5). simpl in *.
  destruct (HE a b) as [Ha Hb]; [rewrite HE'; set_solver|].
  unfold count_edge. simpl. rewrite (vec_incr_Ok _ _ _ (H4 a Ha)). simpl.
  rewrite (vec_incr_Ok _ _ _ (H5 b Hb)). simpl. eexists. split; [done|].
  split_and!; simpl; [by rewrite length_insert..| | |].
  - by rewrite list_lookup_insert_ne by lia.
  - intros w Hw. rewrite app_assoc, (targets_app (E ++ E1)), length_app, targets_one.
    destruct (decide (a = w)) as [->|Hne].
    + rewrite list_lookup_insert_eq by lia. simpl. f_equal. lia.
    + rewrite list_lookup_insert_ne by lia. rewrite H4 by done. simpl. f_equal. lia.
  - intros v Hv. rewrite app_assoc, (in_edges_app (E ++ E1)), in_edges_one, andb_true_r.
    destruct (decide (b = v)) as [->|Hne].
    + rewrite list_lookup_insert_eq by lia. rewrite bool_decide_eq_true_2 by done. simpl. f_equal. lia.
    + rewrite list_lookup_insert_ne by lia. rewrite H5, bool_decide_eq_false_2 by done.
      simpl. f_equal. lia.
Qed.

(** The prefix sums turn the degrees into row offsets. *)
Lemma prefix_sums_Ok n E offs ins :
  counted n E (offs, ins) →
  ∃ offs', foldM prefix_step offs (seq 0 n) = Ok offs' ∧ length offs' = n + 1 ∧
    ∀ w, w ≤ n → offs' !! w = Some (off E w).
Proof.
  intros (Hl & _ & H0 & Hw & _). simpl in *.
  destruct (foldM_inv (E := exn) prefix_step
    (λ l o, length o = n + 1 ∧ (∀ w, w ≤ length l → o !! w = Some (off E w)) ∧
       (∀ w, length l ≤ w → w < n → o !! (w + 1) = Some (length (targets E w))))
    (seq 0 n) offs) as (o & Hf & Ho1 & Ho2 & Ho3).
  - split_and!; [done| |].
    + intros w Hw0. simpl in Hw0. assert (w = 0) as -> by lia. done.
    + intros w _ Hwn. by apply Hw.
  - intros l1 id l2 o Hseq (Ho1 & Ho2 & Ho3).
    assert (id = length l1 ∧ id < n) as [-> Hid].
    { assert (seq 0 n !! length l1 = Some id) as Hlk
        by (rewrite Hseq; by rewrite lookup_app_r, Nat.sub_diag by lia).
      apply lookup_seq in Hlk. lia. }
    unfold prefix_step. rewrite (vec_get_Ok _ _ _ (Ho2 (length l1) ltac:(lia))). simpl.
    rewrite (vec_get_Ok _ _ _ (Ho3 (length l1) ltac:(lia) Hid)). simpl.
    rewrite vec_set_Ok by lia. eexists. split; [done|]. rewrite length_app. simpl.
    split_and!; [by rewrite length_insert| |].
    + intros w Hwl. destruct (decide (w = length l1 + 1)) as [->|].
      * rewrite list_lookup_insert_eq by lia. rewrite Nat.add_1_r. simpl. f_equal. lia.
      * rewrite list_lookup_insert_ne by lia. apply Ho2. lia.
    + intros w Hwl Hwn. rewrite list_lookup_insert_ne by lia. apply Ho3; lia.
  - rewrite length_seq in Ho2. by exists o.
Qed.

(** Pass 2: [filled E E1] holds when the edges [E1] of [E] have been stored. *)
Definition filled n E E1 (st : list nat * list nat) : Prop :=
  length st.1 = off E n ∧ length st.2 = n ∧
  (∀ w, w < n → st.2 !! w = Some (off E w + length (targets E1 w))) ∧
  (∀ w i x, w < n → targets E1 w !! i = Some x → st.1 !! (off E w + i) = Some x).

Lemma fill_edges_Ok n E E1 E2 E3 st :
  E = E1 ++ E2 ++ E3 → edges_in n E → filled n E E1 st →
  ∃ st', foldM fill_edge st E2 = Ok st' ∧ filled n E (E1 ++ E2) st'.
Proof.
  intros Hsplit HE Hst.
  destruct (foldM_inv (E := exn) fill_edge (λ l st, filled n E (E1 ++ l) st) E2 st)
    as (st' & Hf & Hc); [by rewrite app_nil_r| |by exists st'].
  clear st Hst. intros l1 [a b] l2 [succs cur] Hl (H1 & H2 & H3 & H4). simpl in *.
  assert (targets E a = targets (E1 ++ l1) a ++ b :: targets (l2 ++ E3) a) as Hta.
  { rewrite Hsplit, Hl. change ((a, b) :: l2) with ([(a, b)] ++ l2).
    rewrite !targets_app, targets_one, decide_True by done. by rewrite <-!app_assoc. }
  assert (a < n) as Ha.
  { destruct (HE a b) as [? _]; [|done]. rewrite Hsplit, Hl. set_solver. }
  assert (length (targets (E1 ++ l1) a) < length (targets E a)) as Hlt
    by (rewrite Hta, length_app; simpl; lia).
  pose proof (off_slot E a n _ Ha Hlt) as Hslot.
  unfold fill_edge. simpl. rewrite (vec_get_Ok _ _ _ (H3 a Ha)). simpl.
  rewrite !vec_set_Ok by lia. simpl. eexists. split; [done|].
  assert (∀ w, targets (E1 ++ l1 ++ [(a, b)]) w =
    targets (E1 ++ l1) w ++ (if decide (a = w) then [b] else [])) as Hsnoc.
  { intros w. rewrite app_assoc, (targets_app (E1 ++ l1)). by rewrite targets_one. }
  split_and!; simpl; [by rewrite length_insert..| |].
  - intros w Hw. rewrite Hsnoc, length_app. destruct (decide (a = w)) as [->|Hne].
    + rewrite list_lookup_insert_eq by lia. simpl. f_equal. lia.
    + rewrite list_lookup_insert_ne by done. rewrite H3 by done. simpl. f_equal. lia.
  - intros w i x Hw. rewrite Hsnoc. intros [Hi|[Hi1 Hi2]]%lookup_app_Some.
    + rewrite list_lookup_insert_ne; [by apply H4|].
      apply lookup_lt_Some in Hi.
      assert (length (targets (E1 ++ l1) w) ≤ length (targets E w)).
      { rewrite Hsplit, Hl, <-app_assoc, !targets_app, !length_app. lia. }
      destruct (decide (w = a)) as [->|Hne]; [lia|].
      destruct (decide (w < a)).
      * pose proof (off_slot E w a i ltac:(lia) ltac:(lia)). lia.
      * pose proof (off_slot E a w _ ltac:(lia) Hlt). lia.
    + destruct (decide (a = w)) as [->|]; [|done].
      apply list_lookup_singleton_Some in Hi2 as [? <-].
      replace i with (length (targets (E1 ++ l1) w)) by lia.
      by rewrite list_lookup_insert_eq by lia.
Qed.

(** Reading a row of the filled table. *)
Lemma csr_targets_Ok n E offs succs cur w :
  filled n E E (succs, cur) → (∀ w, w ≤ n → offs !! w = Some (off E w)) → w < n →
  csr_targets offs succs w = Ok (targets E w).
Proof.
  intros (_ & _ & _ & Hrow) Hoffs Hw. simpl in *. unfold csr_targets.
  rewrite (vec_get_Ok _ _ _ (Hoffs w ltac:(lia))). simpl.
  rewrite (vec_get_Ok _ _ _ (Hoffs (w + 1) ltac:(lia))). rewrite Nat.add_1_r. simpl.
  replace (off E w + length (targets E w) - off E w) with (length (targets E w)) by lia.
  assert (∀ l k, (∀ i x, l !! i = Some x → succs !! (k + i) = Some x) →
    mapM (M := res) (vec_get succs) (seq k (length l)) = Ok l) as Hmap.
  { intros l. induction l as [|x l IH]; intros k Hl; simpl; [done|].
    specialize (Hl 0 x eq_refl) as H0. rewrite Nat.add_0_r in H0.
    rewrite (vec_get_Ok _ _ _ H0). simpl. rewrite (IH (S k)); [done|].
    intros i y Hi. rewrite Nat.add_succ_l, <-Nat.add_succ_r. by apply Hl. }
  apply Hmap. intros i x. by apply Hrow.
Qed.

End counting.

(** ** Kahn's algorithm *)

Lemma tc_flip_inv {A} (R : relation A) x y : tc (flip R) x y → tc R y x.
Proof.
  induction 1 as [x y H|x y z H _ IH]; [by apply tc_once|]. by eapply tc_r.
Qed.

(** The number of occurrences of [v]. *)
Definition occurrences (v : nat) (l : list nat) : nat :=
  length (List.filter (λ x, bool_decide (x = v)) l).

Lemma occurrences_app v l1 l2 : occurrences v (l1 ++ l2) = occurrences v l1 + occurrences v l2.
Proof. unfold occurrences. by rewrite List.filter_app, length_app. Qed.

Lemma occurrences_one v x : occurrences v [x] = if decide (x = v) then 1 else 0.
Proof. unfold occurrences. simpl. case_bool_decide; case_decide; done. Qed.

Section kahn.
Context (n : nat) (E : list (nat * nat)) (HE : edges_in n E).
Context (offs succs : list nat).
Context (Hcsr : ∀ w, w < n → csr_targets offs succs w = Ok (targets E w)).

Definition outside (topo : list nat) (a : nat) : bool := bool_decide (a ∉ topo).

(** What is known of the in-degrees while [topo] has been output: [deg v] is stored
    for every node, and the nodes seen are those whose degree is zero. *)
Record degrees (deg : nat → nat) (stored ready topo : list nat) : Prop := {
  dg_nodup : NoDup (ready ++ topo);
  dg_bound : ∀ v, v ∈ ready ++ topo → v < n;
  dg_len : length stored = n;
  dg_stored : ∀ v, v < n → stored !! v = Some (deg v);
  dg_zero : ∀ v, v < n → v ∈ ready ++ topo ↔ deg v = 0;
}.

(** Every predecessor of a node of [topo] comes before it. *)
Definition topo_sorted (topo : list nat) : Prop :=
  ∀ i b a, topo !! i = Some b → (a, b) ∈ E → a ∈ take i topo.

Definition kahn_inv (st : KahnState) : Prop :=
  degrees (in_edges E (outside (ks_topo st))) (ks_in_degree st) (ks_ready st) (ks_topo st) ∧
  topo_sorted (ks_topo st).

Lemma degrees_ext deg deg' stored ready topo :
  (∀ v, v < n → deg v = deg' v) → degrees deg stored ready topo → degrees deg' stored ready topo.
Proof.
  intros Hd [H1 H2 H3 H4 H5]. split; [done|done|done| |].
  - intros v Hv. rewrite <-Hd by done. auto.
  - intros v Hv. rewrite <-Hd by done. auto.
Qed.

(** One [relax]: the degree of [a] drops by one. *)
Lemma relax_Ok deg stored ready topo a :
  degrees deg stored ready topo → a < n → 0 < deg a →
  ∃ st', relax (stored, ready) a = Ok st' ∧
    degrees (λ v, if decide (v = a) then deg v - 1 else deg v) st'.1 st'.2 topo.
Proof.
  intros [H1 H2 H3 H4 H5] Ha Hpos. unfold relax. simpl.
  rewrite (vec_get_Ok _ _ _ (H4 a Ha)). simpl. destruct (deg a) as [|d] eqn:Ed; [lia|].
  rewrite vec_set_Ok by lia. simpl. eexists. split; [done|]. simpl.
  assert (a ∉ ready ++ topo) as Hna by (rewrite H5 by done; lia).
  assert (∀ v, v < n → <[a := d]> stored !! v = Some (if decide (v = a) then deg v - 1 else deg v))
    as Hst.
  { intros v Hv. destruct (decide (v = a)) as [->|].
    - rewrite list_lookup_insert_eq by lia. f_equal. lia.
    - rewrite list_lookup_insert_ne by done. auto. }
  case_decide as Ez.
  - unfold push_back. assert (∀ v, v ∈ (ready ++ [a]) ++ topo ↔ v = a ∨ v ∈ ready ++ topo) as Hel
      by (intros v; rewrite <-app_assoc; set_solver).
    split; [|..|by rewrite length_insert|done|].
    + rewrite <-app_assoc. simpl. rewrite <-Permutation_middle. by constructor.
    + intros v [->|Hv]%Hel; [done|by apply H2].
    + intros v Hv. rewrite Hel. case_decide; [subst v; split; [lia|by left]|].
      rewrite <-H5 by done. split; [intros [?|?]; [done|done]|by right].
  - split; [done|done|by rewrite length_insert|done|].
    intros v Hv. rewrite H5 by done. case_decide; [subst v|]; lia.
Qed.

(** Relaxing a whole row. *)
Lemma relax_row_Ok deg stored ready topo row :
  degrees deg stored ready topo → (∀ v, v ∈ row → v < n) → (∀ v, occurrences v row ≤ deg v) →
  ∃ st', foldM relax (stored, ready) row = Ok st' ∧
    degrees (λ v, deg v - occurrences v row) st'.1 st'.2 topo.
Proof.
  intros Hd Hrow Hocc.
  destruct (foldM_inv (E := exn) relax
    (λ l st, degrees (λ v, deg v - occurrences v l) st.1 st.2 topo) row (stored, ready))
    as (st' & Hf & Hc); [|..|by exists st'].
  - eapply degrees_ext; [|exact Hd]. intros v _. simpl. unfold occurrences. simpl. lia.
  - intros l1 a l2 [sto rea] Hl Hdeg. simpl in *.
    pose proof (Hocc a) as Ha. rewrite Hl, occurrences_app in Ha.
    change (a :: l2) with ([a] ++ l2) in Ha.
    rewrite occurrences_app, occurrences_one, decide_True in Ha by done.
    destruct (relax_Ok _ sto rea topo a Hdeg) as (st' & Hr & Hd').
    + apply Hrow. rewrite Hl. set_solver.
    + lia.
    + exists st'. split; [done|]. eapply degrees_ext; [|exact Hd'].
      intros v _. simpl. rewrite occurrences_app, occurrences_one.
      destruct (decide (v = a)), (decide (a = v)); subst; lia || congruence.
Qed.

Lemma kahn_step_Ok st :
  kahn_inv st →
  ∃ r, kahn_step offs succs st = Ok r ∧
    match r with
    | inl st' => kahn_inv st' ∧ length (ks_topo st') = S (length (ks_topo st)) ∧
        length (ks_topo st) < n
    | inr topo => topo = ks_topo st ∧ ks_ready st = []
    end.
Proof.
  intros [Hd Hs]. unfold kahn_step. destruct st as [stored ready topo]. simpl in *.
  destruct ready as [|node ready _] using rev_ind.
  - simpl. eexists. split; [done|]. done.
  - rewrite last_snoc, pop_back_snoc. simpl.
    assert (node < n) as Hnode by (apply (dg_bound _ _ _ _ Hd); set_solver).
    rewrite Hcsr by done. simpl.
    assert (node ∉ topo) as Hout.
    { pose proof (dg_nodup _ _ _ _ Hd) as Hnd. rewrite <-app_assoc in Hnd.
      apply NoDup_app in Hnd as (_ & _ & Hnd). simpl in Hnd. by apply NoDup_cons in Hnd as [? _]. }
    assert (degrees (in_edges E (outside topo)) stored ready (topo ++ [node])) as Hd1.
    { destruct Hd as [H1 H2 H3 H4 H5].
      assert (ready ++ topo ++ [node] ≡ₚ (ready ++ [node]) ++ topo) as Hp
        by (rewrite <-app_assoc; apply Permutation_app_head, Permutation_app_comm).
      split; [by rewrite Hp|by intros v; rewrite Hp; auto|done|done|].
      intros v Hv. rewrite Hp. auto. }
    assert (∀ v, in_edges E (outside topo) v =
      in_edges E (outside (topo ++ [node])) v + occurrences v (targets E node)) as Hdrop.
    { intros v. apply in_edges_remove.
      - by apply bool_decide_eq_true_2.
      - intros a. unfold outside. repeat case_bool_decide; set_solver. }
    destruct (relax_row_Ok _ _ _ _ (targets E node) Hd1) as ([sto rea] & Hf & Hd2).
    { intros v Hv%targets_elem. by apply HE in Hv as [_ ?]. }
    { intros v. rewrite Hdrop. lia. }
    rewrite Hf. simpl in *. eexists. split; [done|]. simpl. unfold push_back.
    split_and!; [|rewrite length_app; simpl; lia|].
    + split; simpl.
      * eapply degrees_ext; [|exact Hd2]. intros v _. simpl. rewrite Hdrop. lia.
      * intros i b a [Hb|[Hi Hb]]%lookup_app_Some Hab.
        -- apply lookup_lt_Some in Hb as Hlt. rewrite take_app_le by lia. by eapply Hs.
        -- apply list_lookup_singleton_Some in Hb as [Hi' <-].
           replace i with (length topo) by lia. rewrite take_app_length.
           destruct (decide (a ∈ topo)) as [|Hna]; [done|exfalso].
           assert (in_edges E (outside topo) node = 0) as Hz.
           { apply (dg_zero _ _ _ _ Hd); [done|set_solver]. }
           assert (0 < in_edges E (outside topo) node); [|lia].
           apply in_edges_pos. exists a. split; [done|by apply bool_decide_eq_true_2].
    + assert (length ((ready ++ [node]) ++ topo) ≤ n) as Hle.
      { apply NoDup_bounded_length; [apply (dg_nodup _ _ _ _ Hd)|].
        apply Forall_forall, (dg_bound _ _ _ _ Hd). }
      rewrite !length_app in Hle. simpl in Hle. lia.
Qed.

(** The relation the edges induce. *)
Definition edge_rel (a b : nat) : Prop := (a, b) ∈ E.

Lemma edge_tc_bound a b : tc edge_rel a b → a < n ∧ b < n.
Proof.
  induction 1 as [a b H|a b c H _ [_ IH]]; [by apply HE|].
  apply HE in H as [? _]. done.
Qed.

Lemma topo_sorted_position topo a b i :
  NoDup topo → topo_sorted topo → tc edge_rel a b → topo !! i = Some b →
  ∃ j, topo !! j = Some a ∧ j < i.
Proof.
  intros Hnd Hs Hab. revert i. induction Hab as [a b H|a c b H _ IH]; intros i Hi.
  - specialize (Hs i b a Hi H). apply list_elem_of_lookup in Hs as [j Hj].
    apply lookup_take_Some in Hj as [Hj ?]. by exists j.
  - destruct (IH i Hi) as (j & Hj & Hji). specialize (Hs j c a Hj H).
    apply list_elem_of_lookup in Hs as [k Hk]. apply lookup_take_Some in Hk as [Hk ?].
    exists k. split; [done|lia].
Qed.

(** Kahn's loop terminates; its output is complete iff there is no cycle. *)
Lemma kahn_Ok st :
  kahn_inv st → ks_topo st = [] →
  ∃ topo, while (S n) nontermination (kahn_step offs succs) st = Ok topo ∧
    NoDup topo ∧ (∀ v, v ∈ topo → v < n) ∧ topo_sorted topo ∧
    (length topo = n ↔ acyclic edge_rel).
Proof.
  intros Hinv Htopo.
  destruct (while_total nontermination (kahn_step offs succs) kahn_inv
    (λ st, n - length (ks_topo st))
    (λ topo, ∃ st, kahn_inv st ∧ topo = ks_topo st ∧ ks_ready st = [])
    ltac:(intros s Hs; destruct (kahn_step_Ok s Hs) as (r & Hr & Hpost); exists r;
          split; [done|]; destruct r as [s'|topo];
          [destruct Hpost as (? & ? & ?); split; [done|lia]
          |destruct Hpost as [-> ?]; by exists s])
    (S n) st Hinv) as (topo & -> & [sto rea topo'] & [Hd Hs] & -> & Hr); [lia|].
  simpl in *. subst rea. destruct Hd as [H1 H2 H3 H4 H5]. simpl in *.
  exists topo'. split; [done|]. split_and!; [done|done|done|]. split.
  - intros Hlen a Ha.
    assert (a < n) as Han by (by apply edge_tc_bound in Ha as [? _]).
    assert (a ∈ topo') as [i Hi]%list_elem_of_lookup.
    { destruct (decide (a ∈ topo')) as [|Hna]; [done|exfalso].
      assert (length (a :: topo') ≤ n) as Hle; [|simpl in Hle; lia].
      apply NoDup_bounded_length; [by constructor|]. apply Forall_forall.
      intros v [->|Hv]%elem_of_cons; auto. }
    destruct (topo_sorted_position topo' a a i H1 Hs Ha Hi) as (j & Hj & Hji).
    pose proof (NoDup_lookup _ _ _ _ H1 Hi Hj). lia.
  - intros Hac.
    assert (∀ v, sn (flip edge_rel) v) as Hsn.
    { intros v. apply tc_finite_sn.
      - intros x Hx. apply (Hac x). by apply tc_flip_inv.
      - apply (pred_finite_impl _ _ (pred_finite_lt n)). intros y Hy%tc_flip_inv.
        by apply edge_tc_bound in Hy as [? _]. }
    assert (∀ v, v < n → v ∈ topo') as Hall.
    { intros v Hv. specialize (Hsn v). induction Hsn as [v _ IH].
      apply H5; [done|]. destruct (in_edges E (outside topo') v) eqn:Ein; [done|exfalso].
      assert (0 < in_edges E (outside topo') v) as Hpos by lia.
      apply in_edges_pos in Hpos as (a & Hin & Hna). apply bool_decide_eq_true in Hna.
      apply Hna, IH; [done|]. by apply HE in Hin as [? _]. }
    assert (length topo' ≤ n) by (apply NoDup_bounded_length; [done|by apply Forall_forall]).
    assert (length (seq 0 n) ≤ length topo'); [|rewrite length_seq in *; lia].
    apply submseteq_length, NoDup_submseteq; [apply NoDup_seq|].
    intros v Hv%elem_of_seq. apply Hall. lia.
Qed.

End kahn.

(** ** The graph's edges *)

Lemma tc_lift {A} (R S : relation A) :
  (∀ a b, R a b → tc S a b) → ∀ a b, tc R a b → tc S a b.
Proof.
  intros H a b. induction 1 as [a b Hab|a b c Hab _ IH]; [by apply H|].
  etrans; [by apply H|done].
Qed.

Lemma adjacent_elem {A} (l : list A) a b :
  (a, b) ∈ adjacent l ↔ ∃ i, l !! i = Some a ∧ l !! S i = Some b.
Proof.
  unfold adjacent. rewrite list_elem_of_lookup. split.
  - intros [i (x & y & [= -> ->] & Hx & Hy)%lookup_zip_with_Some]. exists i.
    by rewrite lookup_tail in Hy.
  - intros (i & Ha & Hb). exists i. apply lookup_zip_with_Some.
    exists a, b. by rewrite lookup_tail.
Qed.

Section graph_edges.
Context {V : Type}.
Implicit Types (g : ExplorationGraph V) (es : list (Event V)) (t : ThreadId)
  (rf : ReadsFromRelation).

(** [a] immediately precedes [b] in its thread. *)
Definition po_imm es (a b : EventId) : Prop :=
  ∃ t i, thread_ids es t !! i = Some a ∧ thread_ids es t !! S i = Some b.

Lemma po_imm_po es a b : po_imm es a b → po es a b.
Proof.
  intros (t & i & Ha & Hb). split.
  - by apply (ids_where_sorted (on_thread t) es i (S i)); [| |lia].
  - apply list_elem_of_lookup_2, thread_ids_elem in Ha as (ea & Hea & Hta).
    apply list_elem_of_lookup_2, thread_ids_elem in Hb as (eb & Heb & Htb).
    exists ea, eb. split_and!; congruence.
Qed.

(** Program order in terms of positions in the thread. *)
Lemma po_positions es a b :
  po es a b ↔ ∃ t i j, thread_ids es t !! i = Some a ∧ thread_ids es t !! j = Some b ∧ i < j.
Proof.
  split.
  - intros (Hab & ea & eb & Ha & Hb & Ht).
    assert (a ∈ thread_ids es (thread ea)) as [i Hi]%list_elem_of_lookup
      by (apply thread_ids_elem; eauto).
    assert (b ∈ thread_ids es (thread ea)) as [j Hj]%list_elem_of_lookup
      by (apply thread_ids_elem; eauto).
    exists (thread ea), i, j. split_and!; [done|done|].
    by apply (ids_where_sorted (on_thread (thread ea)) es i j a b Hi Hj).
  - intros (t & i & j & Ha & Hb & Hij).
    split; [by apply (ids_where_sorted (on_thread t) es i j a b Ha Hb)|].
    apply list_elem_of_lookup_2, thread_ids_elem in Ha as (ea & Hea & Hta).
    apply list_elem_of_lookup_2, thread_ids_elem in Hb as (eb & Heb & Htb).
    exists ea, eb. split_and!; congruence.
Qed.

Lemma po_tc_imm es a b : po es a b → tc (po_imm es) a b.
Proof.
  intros (t & i & j & Ha & Hb & Hij)%po_positions. revert b Hb.
  induction Hij as [|j Hij IH]; intros b Hb; [apply tc_once; by exists t, i|].
  assert (is_Some (thread_ids es t !! j)) as [c Hc]
    by (apply lookup_lt_is_Some; apply lookup_lt_Some in Hb; lia).
  eapply tc_r; [by apply IH|]. by exists t, j.
Qed.

Lemma teids_elem g ids :
  Core g → ids ∈ thread_event_ids_ g → ∃ t, ids = thread_ids (events g) t.
Proof.
  intros Hcore [i Hi]%list_elem_of_lookup. exists (N.of_nat i).
  rewrite <-(c_teids _ (core_caches _ Hcore)). by rewrite Hi.
Qed.

Lemma teids_lookup g t :
  Core g → thread_ids (events g) t ≠ [] →
  thread_event_ids_ g !! N.to_nat t = Some (thread_ids (events g) t).
Proof.
  intros Hcore Hne. pose proof (c_teids _ (core_caches _ Hcore) (N.to_nat t)) as H.
  rewrite N2Nat.id in H. destruct (thread_event_ids_ g !! N.to_nat t); simpl in H; congruence.
Qed.

Lemma po_edges_elem g a b : Core g → (a, b) ∈ po_edges g ↔ po_imm (events g) a b.
Proof.
  intros Hcore. unfold po_edges. rewrite list_elem_of_join. setoid_rewrite list_elem_of_fmap. split.
  - intros (l & Hab & ids & -> & Hids). apply adjacent_elem in Hab as (i & Ha & Hb).
    destruct (teids_elem g ids Hcore Hids) as [t ->]. by exists t, i.
  - intros (t & i & Ha & Hb). exists (adjacent (thread_ids (events g) t)).
    split; [apply adjacent_elem; by exists i|]. exists (thread_ids (events g) t).
    split; [done|]. eapply list_elem_of_lookup_2, (teids_lookup g t Hcore).
    intros Hnil. by rewrite Hnil in Ha.
Qed.

(** Reads-from entries join receives to sends. *)
Definition rf_typed es rf : Prop :=
  ∀ r s, rf_find rf r = Some s →
    (∃ e, es !! r = Some e ∧ is_receive e = true) ∧
    ∀ id, rf_send s = Some id → ∃ e, es !! id = Some e ∧ is_send e = true.

Definition rf_edge_list rf : list (EventId * EventId) :=
  omap (λ entry : EventId * ReadsFromSource, (λ id, (id, entry.1)) <$> rf_send entry.2)
    (rf_to_list rf).

Lemma rf_edge_list_elem rf a b : (a, b) ∈ rf_edge_list rf ↔ rf_edge rf a b.
Proof.
  unfold rf_edge_list, rf_edge. rewrite list_elem_of_omap. split.
  - intros ([r s] & Hin%rf_to_list_elem & (id & Hid & [= -> ->])%fmap_Some). by exists s.
  - intros (s & Hb%rf_to_list_elem & Hs). exists (b, s). split; [done|]. simpl. by rewrite Hs.
Qed.

(** [for_each_validated_rf_edge] visits the reads-from edges, or throws when an entry
    does not join a receive to a send. *)
Lemma for_each_validated_rf_edge_Ok (x : ExecutionGraph V) :
  rf_typed (events_ x) (reads_from_ x) →
  for_each_validated_rf_edge x = Ok (rf_edge_list (reads_from_ x)).
Proof.
  intros Ht. unfold for_each_validated_rf_edge, rf_edge_list.
  assert (∀ l acc, (∀ entry, entry ∈ l → entry ∈ rf_to_list (reads_from_ x)) →
    foldM (validated_rf_edge x) acc l = Ok (acc ++ omap (λ entry : EventId * ReadsFromSource,
      (λ id, (id, entry.1)) <$> rf_send entry.2) l)) as Hloop; [|by apply Hloop].
  intros l. induction l as [|[r s] l IH]; intros acc Hl; simpl; [by rewrite app_nil_r|].
  destruct (Ht r s) as [(e & He & Hr) Hs]; [apply rf_to_list_elem, Hl; set_solver|].
  rewrite He, Hr. destruct (rf_send s) as [id|]; simpl.
  - destruct (Hs id eq_refl) as (e' & -> & ->). simpl. rewrite IH by set_solver.
    unfold push_back. by rewrite <-app_assoc.
  - rewrite IH by set_solver. done.
Qed.

Lemma for_each_validated_rf_edge_typed (x : ExecutionGraph V) edges :
  for_each_validated_rf_edge x = Ok edges → rf_typed (events_ x) (reads_from_ x).
Proof.
  unfold for_each_validated_rf_edge. intros Hf r s Hrs%rf_to_list_elem.
  revert Hf Hrs. generalize (rf_to_list (reads_from_ x)), (@nil (EventId * EventId)).
  intros l. induction l as [|[r' s'] l IH]; intros acc Hf Hrs; simpl in Hf; [set_solver|].
  apply bind_Ok_inv in Hf as (acc' & Hstep & Hf).
  apply elem_of_cons in Hrs as [[= <- <-]|Hrs]; [|by eapply IH].
  destruct (events_ x !! r) as [e|]; [|done]. destruct (is_receive e) eqn:Er; [|done].
  split; [by exists e|]. intros id Hid. rewrite Hid in Hstep.
  destruct (events_ x !! id) as [e'|]; [|done]. exists e'. destruct (is_send e'); done.
Qed.

(** All edges the adjacency is built from. *)
Definition all_edges g : list (EventId * EventId) := po_edges g ++ rf_edge_list (reads_from g).

Lemma all_edges_elem g a b :
  Core g → (a, b) ∈ all_edges g ↔ po_imm (events g) a b ∨ rf_edge (reads_from g) a b.
Proof.
  intros Hcore. unfold all_edges. rewrite elem_of_app, po_edges_elem by done.
  by rewrite rf_edge_list_elem.
Qed.

Lemma all_edges_in g : Core g → edges_in (event_count g) (all_edges g).
Proof.
  intros Hcore a b [Hab%po_imm_po%po_bound|Hab]%all_edges_elem; [|..|done].
  - unfold event_count. lia.
  - by eapply rf_edge_range, Hab; apply core_rf.
Qed.

Lemma all_edges_tc g a b :
  Core g → tc (edge_rel (all_edges g)) a b ↔ tc (porf (events g) (reads_from g)) a b.
Proof.
  intros Hcore. split; apply tc_lift; clear a b; intros a b.
  - intros [H|H]%all_edges_elem; [|..|done]; apply tc_once; [left; by apply po_imm_po|by right].
  - intros [H|H].
    + apply po_tc_imm in H. revert H. apply tc_lift. intros. apply tc_once, all_edges_elem; auto.
    + apply tc_once, all_edges_elem; auto.
Qed.

Lemma all_edges_acyclic g :
  Core g → acyclic (edge_rel (all_edges g)) ↔ acyclic (porf (events g) (reads_from g)).
Proof. intros Hcore. unfold acyclic. by setoid_rewrite (all_edges_tc g _ _ Hcore). Qed.

(** *** Predecessors *)

Lemma po_imm_pred_unique es a a' b : po_imm es a b → po_imm es a' b → a = a'.
Proof.
  intros (t & i & Ha & Hb) (t' & i' & Ha' & Hb').
  assert (t = t') as <-.
  { apply list_elem_of_lookup_2, thread_ids_elem in Hb as (e & He & <-).
    apply list_elem_of_lookup_2, thread_ids_elem in Hb' as (e' & He' & <-). congruence. }
  pose proof (NoDup_lookup _ _ _ _ (ids_where_nodup _ es) Hb Hb') as [= ->]. congruence.
Qed.

Lemma po_predecessors_Ok g :
  Core g → ∃ preds, po_predecessors g = Ok preds ∧ length preds = event_count g ∧
    ∀ b o, preds !! b = Some o → ∀ a, o = Some a ↔ po_imm (events g) a b.
Proof.
  intros Hcore. unfold po_predecessors.
  destruct (foldM_inv (E := exn) (λ pred (e : EventId * EventId), vec_set pred e.2 (Some e.1))
    (λ l preds, length preds = event_count g ∧
      ∀ b o, preds !! b = Some o →
        (∀ a, o = Some a → (a, b) ∈ l) ∧ (o = None → ∀ a, (a, b) ∉ l))
    (po_edges g) (replicate (event_count g) None)) as (preds & Hf & Hlen & Hp).
  - rewrite length_replicate. split; [done|]. intros b o [-> _]%lookup_replicate. set_solver.
  - intros l1 [a b] l2 preds Hl [Hlen Hp].
    assert (po_imm (events g) a b) as Himm by (apply po_edges_elem; [done|]; rewrite Hl; set_solver).
    apply po_imm_po, po_bound in Himm as Hb. simpl.
    rewrite vec_set_Ok by (unfold event_count in *; lia).
    eexists. split; [done|]. rewrite length_insert. split; [done|]. intros b' o.
    destruct (decide (b' = b)) as [->|Hne].
    + rewrite list_lookup_insert_eq by (unfold event_count in *; lia). intros [= <-].
      split; [intros ? [= <-]; set_solver|done].
    + rewrite list_lookup_insert_ne by done. intros Ho. destruct (Hp b' o Ho) as [H1 H2].
      split; [intros a' Ha'; set_solver|]. intros -> a' [?|?]%elem_of_app; [by eapply H2|set_solver].
  - exists preds. split_and!; [done|done|]. intros b o Ho a. destruct (Hp b o Ho) as [H1 H2]. split.
    + intros ->. apply po_edges_elem; [done|]. by apply H1.
    + intros Himm. destruct o as [a'|].
      * f_equal. apply (po_imm_pred_unique (events g) a' a b); [|done].
        apply po_edges_elem; [done|]. by apply H1.
      * exfalso. apply (H2 eq_refl a), po_edges_elem; done.
Qed.

End graph_edges.

(** ** Building the order *)

Section build.
Context {V : Type}.
Implicit Types (g : ExplorationGraph V).

(** The state in which Kahn's loop starts. *)
Lemma kahn_init n E offs stored :
  counted n E (offs, stored) →
  kahn_inv n E (MkKahnState stored
    (List.filter (λ id, bool_decide (stored !! id = Some 0)) (seq 0 n)) []).
Proof.
  intros (_ & Hlen & _ & _ & Hin). simpl in *.
  assert (∀ v, v < n → stored !! v = Some (in_edges E (outside []) v)) as Hin'.
  { intros v Hv. by rewrite Hin. }
  assert (∀ v, v ∈ List.filter (λ id, bool_decide (stored !! id = Some 0)) (seq 0 n) ++ [] ↔
    v < n ∧ in_edges E (outside []) v = 0) as Hel.
  { intros v. rewrite app_nil_r, list_elem_of_In, filter_In, <-list_elem_of_In, elem_of_seq,
      bool_decide_eq_true.
    split; intros [Hv Hz]; (split; [lia|]); pose proof (Hin' v ltac:(lia)); congruence. }
  split; simpl; [split|intros i b a Hb; done].
  - rewrite app_nil_r. apply NoDup_ListNoDup, List.NoDup_filter, NoDup_ListNoDup, NoDup_seq.
  - by intros v [? _]%Hel.
  - done.
  - done.
  - intros v Hv. rewrite Hel. naive_solver.
Qed.

Lemma build_porf_adjacency_and_order_Ok g :
  Core g → rf_typed (events g) (reads_from g) →
  ∃ b topo, build_porf_adjacency_and_order g = Ok (b, topo) ∧
    (b = true ↔ acyclic (porf (events g) (reads_from g))) ∧
    NoDup topo ∧ (∀ v, v ∈ topo → v < event_count g) ∧ topo_sorted (all_edges g) topo ∧
    (b = true → length topo = event_count g).
Proof.
  intros Hcore Hty. set (n := event_count g).
  pose proof (all_edges_in g Hcore) as HE. fold n in HE.
  pose proof HE as [Hpo Hrf]%edges_in_app.
  unfold build_porf_adjacency_and_order. fold n.
  destruct (count_edges_Ok n [] (po_edges g) _ (counted_init n) Hpo) as ([o1 i1] & -> & Hc1). simpl in Hc1 |- *.
  destruct (po_predecessors_Ok g Hcore) as (preds & -> & _). simpl.
  rewrite for_each_validated_rf_edge_Ok by done. simpl. fold (reads_from g).
  destruct (count_edges_Ok n (po_edges g) (rf_edge_list (reads_from g)) _ Hc1 Hrf)
    as ([o2 i2] & -> & Hc2). simpl. fold (all_edges g) in Hc2.
  destruct (prefix_sums_Ok n (all_edges g) o2 i2 Hc2) as (offs & -> & Hlen & Hoffs). simpl.
  rewrite (vec_get_Ok _ _ _ (Hoffs n ltac:(lia))). simpl.
  assert (filled n (all_edges g) [] (replicate (off (all_edges g) n) 0, take n offs)) as Hf0.
  { split_and!; simpl.
    - apply length_replicate.
    - rewrite length_take. lia.
    - intros w Hw. rewrite lookup_take_lt, Hoffs by lia. f_equal. simpl. lia.
    - intros w i x _ Hx. done. }
  destruct (fill_edges_Ok n (all_edges g) [] (po_edges g) (rf_edge_list (reads_from g)) _ eq_refl HE Hf0)
    as ([s1 c1] & -> & Hf1). simpl in Hf1 |- *.
  destruct (fill_edges_Ok n (all_edges g) (po_edges g) (rf_edge_list (reads_from g)) [] (s1, c1))
    as ([s2 c2] & -> & Hf2); [by rewrite app_nil_r|done|done|]. simpl. fold (all_edges g) in Hf2.
  destruct (kahn_Ok n (all_edges g) HE offs s2
    (λ w Hw, csr_targets_Ok n (all_edges g) offs s2 c2 w Hf2 Hoffs Hw) _
    (kahn_init n (all_edges g) o2 i2 Hc2) eq_refl) as (topo & -> & Hnd & Hb & Hs & Hac).
  simpl. eexists _, topo. split; [done|].
  rewrite bool_decide_eq_true, Hac, (all_edges_acyclic g Hcore). split_and!; try done.
Qed.

(** The cycle check that does not build the cache decides causal acyclicity. *)
Lemma has_causal_cycle_without_cache_Ok g :
  Core g → rf_typed (events g) (reads_from g) →
  ∃ b, has_causal_cycle_without_cache g = Ok b ∧
    (b = false ↔ acyclic (porf (events g) (reads_from g))).
Proof.
  intros Hcore Hty.
  destruct (build_porf_adjacency_and_order_Ok g Hcore Hty) as (b & topo & Hbuild & Hac & _).
  unfold has_causal_cycle_without_cache. rewrite Hbuild. simpl. eexists. split; [done|].
  rewrite negb_false_iff. done.
Qed.

(** Building fails exactly on a reads-from relation that is not well typed. *)
Lemma build_typed g r : build_porf_adjacency_and_order g = Ok r → rf_typed (events g) (reads_from g).
Proof.
  unfold build_porf_adjacency_and_order. intros H.
  apply bind_Ok_inv in H as ([o1 i1] & _ & H). apply bind_Ok_inv in H as (preds & _ & H).
  apply bind_Ok_inv in H as (edges & Hedges & _). by eapply for_each_validated_rf_edge_typed.
Qed.

End build.
