(* ===== verification/PorfClocks.v ===== *)
(** * PorfClocks: vector clocks answer reachability

    [ensure_porf_cache] walks a topological order and gives every event a clock row.
    After an event has been processed, entry [c] of its row counts the events of the
    thread with clock index [c] that reach it; [porf_contains] compares one entry. *)

From stdpp Require Import base tactics numbers sets relations list strings.
From S2P Require Import Prelude Errors Event Relation RelationFacts ExecutionGraph StorageFacts.
From S2P Require Import ExecutionGraphFacts ExplorationGraph ExplorationFacts Porf PorfFacts.

(** ** Clock rows *)

Section rows.
Implicit Types (cl row : list nat) (width id c n : nat).

Lemma clock_row_lookup width cl id c :
  clock_row width cl id !! c = if decide (c < width) then cl !! (id * width + c) else None.
Proof.
  unfold clock_row. case_decide.
  - by rewrite lookup_take_lt, lookup_drop by lia.
  - by rewrite lookup_take_ge by lia.
Qed.

Lemma length_clock_row width cl id n :
  length cl = n * width → id < n → length (clock_row width cl id) = width.
Proof. intros Hcl Hid. unfold clock_row. rewrite length_take, length_drop, Hcl. nia. Qed.

Lemma clock_row_inserts width cl id id' row n :
  length cl = n * width → id < n → id' < n → length row = width →
  clock_row width (list_inserts (id * width) row cl) id' =
    if decide (id' = id) then row else clock_row width cl id'.
Proof.
  intros Hcl Hid Hid' Hrow. apply list_eq. intros c. rewrite clock_row_lookup.
  case_decide as Hc.
  - assert (id' * width + c < length cl) by nia.
    destruct (decide (id' = id)) as [->|Hne].
    + rewrite list_lookup_inserts by nia. f_equal. lia.
    + rewrite clock_row_lookup, decide_True by done.
      destruct (decide (id' < id)).
      * rewrite list_lookup_inserts_lt by nia. done.
      * rewrite list_lookup_inserts_ge by nia. done.
  - destruct (decide (id' = id)); [rewrite lookup_ge_None_2; [done|lia]|].
    by rewrite clock_row_lookup, decide_False.
Qed.

Lemma clock_row_zero width n id :
  id < n → clock_row width (replicate (n * width) 0) id = replicate width 0.
Proof.
  intros Hid. apply list_eq. intros c. rewrite clock_row_lookup. case_decide.
  - rewrite !lookup_replicate_2 by nia. done.
  - by rewrite lookup_ge_None_2 by (rewrite length_replicate; lia).
Qed.

(** Clock indices are handed out densely to the threads that have events. *)
Lemma assign_clock_indices_spec teids next :
  let '(l, k) := assign_clock_indices teids next in
  length l = length teids ∧ next ≤ k ∧
  (∀ t c, l !! t = Some (Some c) → next ≤ c < k ∧ ∃ ids, teids !! t = Some ids ∧ ids ≠ []) ∧
  (∀ t ids, teids !! t = Some ids → ids ≠ [] → ∃ c, l !! t = Some (Some c)) ∧
  (∀ t t' c, l !! t = Some (Some c) → l !! t' = Some (Some c) → t = t').
Proof.
  revert next. induction teids as [|ids teids IH]; intros next; simpl.
  { split_and!; [done|lia|done|done|done]. }
  destruct ids as [|x ids].
  - specialize (IH next). destruct (assign_clock_indices teids next) as [l k]. simpl.
    destruct IH as (H1 & H2 & H3 & H4 & H5). split_and!.
    + lia.
    + done.
    + intros [|t] c Hc; [done|]. by apply H3.
    + intros [|t] ids Hids Hne; simpl in *; [congruence|]. by eapply H4.
    + intros [|t] [|t'] c Hc Hc'; simpl in *; [done..|]. f_equal. by eapply H5.
  - specialize (IH (S next)). destruct (assign_clock_indices teids (S next)) as [l k]. simpl.
    destruct IH as (H1 & H2 & H3 & H4 & H5). split_and!.
    + lia.
    + lia.
    + intros [|t] c Hc; simpl in *; [simplify_eq; split; [lia|eauto]|].
      destruct (H3 t c Hc). split; [lia|done].
    + intros [|t] ids' Hids Hne; simpl in *; [eauto|]. by eapply H4.
    + intros [|t] [|t'] c Hc Hc'; simpl in *; simplify_eq; [done|..].
      * apply H3 in Hc' as [? _]. lia.
      * apply H3 in Hc as [? _]. lia.
      * f_equal. by eapply H5.
Qed.

Lemma tc_last {A} (R : relation A) x z : tc R x z ↔ ∃ y, R y z ∧ (x = y ∨ tc R x y).
Proof.
  split.
  - induction 1 as [x z H|x y z H _ IH]; [eauto|]. destruct IH as (w & Hw & [->|Hyw]).
    + exists w. split; [done|]. right. by apply tc_once.
    + exists w. split; [done|]. right. by eapply tc_l.
  - intros (y & Hyz & [->|Hxy]); [by apply tc_once|by eapply tc_r].
Qed.

End rows.

(** ** Positions and reads-from sources *)

Section tables.
Context {V : Type}.
Implicit Types (g : ExplorationGraph V) (t : ThreadId).

Lemma compute_positions_Ok g :
  Core g → ∃ pos, compute_positions g = Ok pos ∧ length pos = event_count g ∧
    ∀ t p id, thread_ids (events g) t !! p = Some id → pos !! id = Some p.
Proof.
  intros Hcore. unfold compute_positions.
  assert (∀ i p id, (i, p, id) ∈ po_slots (thread_event_ids_ g) ↔
    thread_ids (events g) (N.of_nat i) !! p = Some id) as Hslots.
  { intros i p id. rewrite po_slots_elem. unfold po_at.
    rewrite <-(c_teids _ (core_caches _ Hcore)).
    destruct (thread_event_ids_ g !! i) as [ids|]; simpl; naive_solver. }
  destruct (foldM_inv (E := exn)
    (λ pos (slot : nat * nat * NodeId), vec_set pos slot.2 slot.1.2)
    (λ l pos, length pos = event_count g ∧
       ∀ i p id, (i, p, id) ∈ l → pos !! id = Some p)
    (po_slots (thread_event_ids_ g)) (replicate (event_count g) 0)) as (pos & Hf & Hlen & Hpos).
  - rewrite length_replicate. split; [done|]. set_solver.
  - intros l1 [[i p] id] l2 pos Hl [Hlen Hpos]. simpl.
    assert (thread_ids (events g) (N.of_nat i) !! p = Some id) as Hid
      by (apply Hslots; rewrite Hl; set_solver).
    assert (id < event_count g) as Hlt
      by (by eapply list_elem_of_lookup_2, ids_where_bound in Hid).
    rewrite vec_set_Ok by lia. eexists. split; [done|]. rewrite length_insert. split; [done|].
    intros i' p' id' Hin. destruct (decide (id' = id)) as [->|Hne].
    + rewrite list_lookup_insert_eq by lia. f_equal.
      assert (thread_ids (events g) (N.of_nat i') !! p' = Some id) as Hid'.
      { apply Hslots. rewrite Hl. set_solver. }
      assert (N.of_nat i = N.of_nat i') as Ht.
      { apply list_elem_of_lookup_2, thread_ids_elem in Hid as (e & He & <-).
        apply list_elem_of_lookup_2, thread_ids_elem in Hid' as (e' & He' & <-). congruence. }
      rewrite <-Ht in Hid'. by apply (NoDup_lookup _ _ _ _ (ids_where_nodup _ _) Hid Hid').
    + rewrite list_lookup_insert_ne by done. apply (Hpos i').
      apply elem_of_app in Hin as [Hin|Hin]; [done|]. set_solver.
  - exists pos. split_and!; [done|done|]. intros t p id Hid. apply (Hpos (N.to_nat t)), Hslots.
    by rewrite N2Nat.id.
Qed.

Lemma compute_rf_sources_Ok g :
  Core g → ∃ src, compute_rf_sources g = Ok src ∧ length src = event_count g ∧
    ∀ b o, src !! b = Some o → ∀ a, o = Some a ↔ rf_edge (reads_from g) a b.
Proof.
  intros Hcore. unfold compute_rf_sources.
  destruct (foldM_inv (E := exn)
    (λ src (entry : EventId * ReadsFromSource), match rf_send entry.2 with
       | Some s => vec_set src entry.1 (Some s) | None => Ok src end)
    (λ l src, length src = event_count g ∧
      ∀ b o, src !! b = Some o →
        ∀ a, o = Some a ↔ ∃ s, (b, s) ∈ l ∧ rf_send s = Some a)
    (rf_to_list (reads_from g)) (replicate (event_count g) None)) as (src & Hf & Hlen & Hp).
  - rewrite length_replicate. split; [done|]. intros b o [-> _]%lookup_replicate. set_solver.
  - intros l1 [r s] l2 src Hl [Hlen Hp]. simpl.
    assert (∀ s', (r, s') ∉ l1) as Hfresh.
    { intros s' Hin. pose proof (rf_to_list_nodup (reads_from g)) as Hnd. rewrite Hl in Hnd.
      rewrite fmap_app in Hnd. simpl in Hnd. apply NoDup_app in Hnd as (_ & Hnd & _).
      apply (Hnd r); [|set_solver]. apply list_elem_of_fmap. by exists (r, s'). }
    assert (rf_find (reads_from g) r = Some s) as Hr by (apply rf_to_list_elem; rewrite Hl; set_solver).
    destruct (core_rf _ Hcore r s Hr) as [Hrn _].
    destruct (rf_send s) as [a0|] eqn:Es.
    + rewrite vec_set_Ok by (unfold event_count in *; lia). eexists. split; [done|].
      rewrite length_insert. split; [done|]. intros b o. destruct (decide (b = r)) as [->|Hne].
      * rewrite list_lookup_insert_eq by (unfold event_count in *; lia). intros [= <-] a. split.
        -- intros [= ->]. exists s. set_solver.
        -- intros (s' & Hin & Hs'). apply elem_of_app in Hin as [Hin|Hin]; [by apply Hfresh in Hin|].
           apply list_elem_of_singleton in Hin as [= ->]. congruence.
      * rewrite list_lookup_insert_ne by done. intros Ho a. rewrite (Hp b o Ho a).
        apply exist_proper. intros s'. set_solver.
    + eexists. split; [done|]. split; [done|]. intros b o Ho a. rewrite (Hp b o Ho a). split.
      * intros (s' & Hin & Hs'). exists s'. set_solver.
      * intros (s' & Hin & Hs'). exists s'. split; [|done].
        apply elem_of_app in Hin as [Hin|Hin]; [done|].
        apply list_elem_of_singleton in Hin as [= -> ->]. congruence.
  - exists src. split_and!; [done|done|]. intros b o Ho a. rewrite (Hp b o Ho a).
    unfold rf_edge. by setoid_rewrite rf_to_list_elem.
Qed.

End tables.

(** ** The clock loop *)

Section clocks.
Context {V : Type} (g : ExplorationGraph V).
Context (Hcore : Core g).
Context (Hac : acyclic (porf (events g) (reads_from g))).
Context (width : nat) (index_of : list (option nat)).
Context (Hassign : assign_clock_indices (thread_event_ids_ g) 0 = (index_of, width)).

Abbreviation R := (porf (events g) (reads_from g)).
Abbreviation n := (event_count g).

Lemma index_of_thread t :
  thread_ids (events g) t ≠ [] → ∃ c, index_of !! N.to_nat t = Some (Some c) ∧ c < width.
Proof.
  intros Hne. pose proof (assign_clock_indices_spec (thread_event_ids_ g) 0) as H.
  rewrite Hassign in H. destruct H as (_ & _ & H3 & H4 & _).
  destruct (H4 (N.to_nat t) _ (teids_lookup g t Hcore Hne) Hne) as [c Hc].
  exists c. split; [done|]. apply H3 in Hc as [? _]. lia.
Qed.

Lemma index_of_inj t t' c :
  index_of !! N.to_nat t = Some (Some c) → index_of !! N.to_nat t' = Some (Some c) → t = t'.
Proof.
  intros H1 H2. pose proof (assign_clock_indices_spec (thread_event_ids_ g) 0) as H.
  rewrite Hassign in H. destruct H as (_ & _ & _ & _ & H5). specialize (H5 _ _ _ H1 H2). lia.
Qed.

Lemma index_of_bound t c : index_of !! N.to_nat t = Some (Some c) → c < width.
Proof.
  intros H1. pose proof (assign_clock_indices_spec (thread_event_ids_ g) 0) as H.
  rewrite Hassign in H. destruct H as (_ & _ & H3 & _). apply H3 in H1 as [? _]. lia.
Qed.

(** Entry [m] counts the events of thread [t] that satisfy [reach]. *)
Definition stamps t (m : nat) (reach : EventId → Prop) : Prop :=
  ∀ p from, thread_ids (events g) t !! p = Some from → p < m ↔ reach from.

(** Every entry of the row of [id] counts the events that reach it. *)
Definition row_ok (row : list nat) (id : EventId) : Prop :=
  ∀ t c, index_of !! N.to_nat t = Some (Some c) →
    ∃ m, row !! c = Some m ∧ stamps t m (λ from, from = id ∨ tc R from id).

(** The entry an optional predecessor contributes. *)
Definition opt_reach (o : option EventId) (from : EventId) : Prop :=
  ∃ x, o = Some x ∧ (from = x ∨ tc R from x).

Lemma reach_preds pred source from id :
  (∀ a, pred = Some a ↔ po_imm (events g) a id) →
  (∀ a, source = Some a ↔ rf_edge (reads_from g) a id) →
  tc R from id ↔ opt_reach pred from ∨ opt_reach source from.
Proof.
  intros Hp Hs. rewrite <-all_edges_tc, tc_last by done. unfold opt_reach.
  setoid_rewrite all_edges_tc; [|done..]. unfold edge_rel.
  setoid_rewrite (all_edges_elem g _ _ Hcore). setoid_rewrite <-Hp. setoid_rewrite <-Hs.
  naive_solver.
Qed.

(** The joined row before the own entry is set. *)
Lemma joined_row_ok cl pred source row0 :
  length row0 = width → row0 = replicate width 0 →
  (∀ x, pred = Some x ∨ source = Some x → length (clock_row width cl x) = width ∧
     row_ok (clock_row width cl x) x) →
  let row1 := match pred with Some p => clock_row width cl p | None => row0 end in
  let row2 := match source with
              | Some s => join_clocks row1 (clock_row width cl s) | None => row1 end in
  length row2 = width ∧
  ∀ t c, index_of !! N.to_nat t = Some (Some c) →
    ∃ m, row2 !! c = Some m ∧ stamps t m (λ from, opt_reach pred from ∨ opt_reach source from).
Proof.
  intros Hlen0 -> Hrows row1 row2.
  assert (length row1 = width ∧ ∀ t c, index_of !! N.to_nat t = Some (Some c) →
    ∃ m, row1 !! c = Some m ∧ stamps t m (opt_reach pred)) as [Hlen1 Hrow1].
  { unfold row1, opt_reach. destruct pred as [x|].
    - destruct (Hrows x) as [Hl Hr]; [by left|]. split; [done|]. intros t c Hc.
      destruct (Hr t c Hc) as (m & Hm & Hst). exists m. split; [done|].
      intros p from Hf. rewrite (Hst p from Hf). naive_solver.
    - split; [done|]. intros t c Hc. exists 0. apply index_of_bound in Hc.
      split; [by apply lookup_replicate_2|]. intros p from _. split; [lia|naive_solver]. }
  unfold row2. destruct source as [s|].
  - destruct (Hrows s) as [Hl Hr]; [by right|]. unfold join_clocks. split.
    + rewrite length_zip_with. lia.
    + intros t c Hc. destruct (Hrow1 t c Hc) as (m1 & Hm1 & Hst1).
      destruct (Hr t c Hc) as (m2 & Hm2 & Hst2). exists (m1 `max` m2).
      split; [apply lookup_zip_with_Some; eauto|].
      intros p from Hf. rewrite Nat.max_lt_iff, (Hst1 p from Hf), (Hst2 p from Hf).
      unfold opt_reach at 3. naive_solver.
  - split; [done|]. intros t c Hc. destruct (Hrow1 t c Hc) as (m & Hm & Hst).
    exists m. split; [done|]. intros p from Hf. rewrite (Hst p from Hf).
    unfold opt_reach. naive_solver.
Qed.

(** Setting the own entry to the position plus one completes the row. *)
Lemma own_entry_ok pred source id e row2 c pos :
  (∀ a, pred = Some a ↔ po_imm (events g) a id) →
  (∀ a, source = Some a ↔ rf_edge (reads_from g) a id) →
  events g !! id = Some e → index_of !! N.to_nat (thread e) = Some (Some c) →
  thread_ids (events g) (thread e) !! pos = Some id → length row2 = width →
  (∀ t c, index_of !! N.to_nat t = Some (Some c) →
    ∃ m, row2 !! c = Some m ∧ stamps t m (λ from, opt_reach pred from ∨ opt_reach source from)) →
  row_ok (<[c := pos + 1]> row2) id.
Proof.
  intros Hp Hs He Hc Hpos Hlen Hrow t c' Hc'.
  pose proof (index_of_bound _ _ Hc) as Hcw.
  destruct (decide (t = thread e)) as [->|Hne].
  - assert (c' = c) as -> by congruence. exists (pos + 1).
    rewrite list_lookup_insert_eq by lia. split; [done|]. intros p from Hf.
    destruct (decide (p = pos)) as [->|Hneq].
    { split; [|lia]. intros _. left. congruence. }
    split.
    + intros Hlt. right. apply tc_once. left. apply po_positions.
      exists (thread e), p, pos. split_and!; [done|done|lia].
    + intros [->|Htc].
      * exfalso. apply Hneq. by apply (NoDup_lookup _ _ _ _ (ids_where_nodup _ _) Hf Hpos).
      * destruct (decide (p < pos)); [lia|exfalso]. apply (Hac from).
        eapply tc_r; [exact Htc|]. left. apply po_positions.
        exists (thread e), pos, p. split_and!; [done|done|lia].
  - destruct (Hrow t c' Hc') as (m & Hm & Hst). exists m.
    rewrite list_lookup_insert_ne.
    2:{ intros ->. apply Hne. by eapply index_of_inj. }
    split; [done|]. intros p from Hf. rewrite (Hst p from Hf), (reach_preds pred source) by done.
    split; [by right|]. intros [->|?]; [|done]. exfalso. apply Hne.
    apply list_elem_of_lookup_2, thread_ids_elem in Hf as (e' & He' & <-). congruence.
Qed.

Context (positions : list nat) (po_pred rf_source : list (option EventId)).
Context (Hpos : ∀ t p id, thread_ids (events g) t !! p = Some id → positions !! id = Some p).
Context (Hpredlen : length po_pred = n)
  (Hpred : ∀ b o, po_pred !! b = Some o → ∀ a, o = Some a ↔ po_imm (events g) a b).
Context (Hsrclen : length rf_source = n)
  (Hsrc : ∀ b o, rf_source !! b = Some o → ∀ a, o = Some a ↔ rf_edge (reads_from g) a b).

(** The state of the loop after the events of [done_] have been processed. *)
Definition clocks_inv (done_ : list EventId) (cl : list nat) : Prop :=
  length cl = n * width ∧
  (∀ id, id ∈ done_ → row_ok (clock_row width cl id) id) ∧
  (∀ id, id < n → id ∉ done_ → clock_row width cl id = replicate width 0).

Lemma clock_step_Ok done_ cl id :
  clocks_inv done_ cl → id < n → id ∉ done_ → (∀ x, x ∈ done_ → x < n) →
  (∀ a, (a, id) ∈ all_edges g → a ∈ done_) →
  ∃ cl', clock_step g width index_of positions po_pred rf_source cl id = Ok cl' ∧
    clocks_inv (done_ ++ [id]) cl'.
Proof.
  intros (Hlen & Hdone & Hzero) Hid Hnew Hbound Hpreds.
  destruct (lookup_lt_is_Some_2 po_pred id ltac:(lia)) as [pred Hpr].
  destruct (lookup_lt_is_Some_2 rf_source id ltac:(lia)) as [source Hso].
  destruct (lookup_lt_is_Some_2 (events g) id Hid) as [e He].
  specialize (Hpred id pred Hpr). specialize (Hsrc id source Hso).
  assert (id ∈ thread_ids (events g) (thread e)) as [pos Hp]%list_elem_of_lookup
    by (apply thread_ids_elem; eauto).
  destruct (index_of_thread (thread e)) as (c & Hc & Hcw); [by destruct (thread_ids _ _)|].
  unfold clock_step. rewrite (vec_get_Ok _ _ _ Hpr). simpl. rewrite (vec_get_Ok _ _ _ Hso). simpl.
  unfold event, ExecutionGraph.event. fold (events g). rewrite He. simpl.
  rewrite (vec_get_Ok _ _ _ Hc). simpl. rewrite (vec_get_Ok _ _ _ (Hpos _ _ _ Hp)). simpl.
  edestruct (joined_row_ok cl pred source (clock_row width cl id)) as [Hrlen Hrow].
  { by eapply length_clock_row. }
  { by apply Hzero. }
  { intros x Hx. assert (x ∈ done_) as Hxd.
    { apply Hpreds, all_edges_elem; [done|]. rewrite <-Hpred, <-Hsrc. done. }
    split; [by eapply length_clock_row; auto|auto]. }
  simpl in Hrlen, Hrow. rewrite (vec_set_Ok _ c) by (rewrite Hrlen; done). simpl.
  eexists. split; [done|]. split_and!.
  - by rewrite length_inserts.
  - intros x [Hx| ->%list_elem_of_singleton]%elem_of_app.
    + rewrite (clock_row_inserts _ _ _ _ _ n) by (rewrite ?length_insert; auto).
      rewrite decide_False by (intros ->; done). auto.
    + rewrite (clock_row_inserts _ _ _ _ _ n) by (rewrite ?length_insert; auto).
      rewrite decide_True by done. by eapply own_entry_ok.
  - intros x Hx Hnx. rewrite (clock_row_inserts _ _ _ _ _ n) by (rewrite ?length_insert; auto).
    rewrite decide_False by set_solver. apply Hzero; set_solver.
Qed.

Lemma clock_loop_Ok topo :
  NoDup topo → (∀ v, v ∈ topo → v < n) → topo_sorted (all_edges g) topo →
  ∃ cl, foldM (clock_step g width index_of positions po_pred rf_source)
          (replicate (n * width) 0) topo = Ok cl ∧ clocks_inv topo cl.
Proof.
  intros Hnd Hb Hsort. apply (foldM_inv (E := exn) _ clocks_inv).
  - split_and!; [apply length_replicate|set_solver|]. intros id Hid _. by apply clock_row_zero.
  - intros l1 id l2 cl Hl Hinv. apply clock_step_Ok; [done|apply Hb; rewrite Hl; set_solver|..].
    + rewrite Hl in Hnd. apply NoDup_app in Hnd as (_ & Hnd & _). intros Hin.
      apply (Hnd id Hin). set_solver.
    + intros x Hx. apply Hb. rewrite Hl. set_solver.
    + intros a Ha. specialize (Hsort (length l1) id a). rewrite Hl in Hsort.
      rewrite take_app_length in Hsort. apply Hsort; [|done].
      by rewrite lookup_app_r, Nat.sub_diag by lia.
Qed.

End clocks.

(** ** The queries *)

Section answers.
Context {V : Type}.
Implicit Types (g : ExplorationGraph V).

(** The cache, when present, is the one the current graph would build. *)
Definition cache_ok g : Prop := ∀ c, porf_cache_ g = Some c → build_porf_cache g = Ok c.

(** The comparison [porf_contains] makes once the cache is there. *)
Definition clock_query g (c : PorfCache) (from to : EventId) : Prop :=
  ∃ e ci stamp position,
    events g !! from = Some e ∧ thread_clock_index c !! N.to_nat (thread e) = Some (Some ci) ∧
    clock_row (num_threads c) (clocks c) to !! ci = Some stamp ∧
    position_in_thread c !! from = Some position ∧
    (position + 1 ≤ stamp ↔ from = to ∨ tc (porf (events g) (reads_from g)) from to).

Lemma build_porf_cache_Ok g :
  Core g → rf_typed (events g) (reads_from g) →
  ∃ c, build_porf_cache g = Ok c ∧
    (has_cycle c = false ↔ acyclic (porf (events g) (reads_from g))) ∧
    (has_cycle c = false → ∀ from to, from < event_count g → to < event_count g →
       clock_query g c from to).
Proof.
  intros Hcore Hty. unfold build_porf_cache. case_decide as Hn.
  { exists empty_cache. split; [done|]. split; [|intros; lia]. split; [|done]. intros _.
    apply tc_irreflexive_nil. intros a b Hab.
    destruct Hab as [H%po_bound|H%(rf_edge_range (events g))]; [..|by apply core_rf];
      unfold event_count in Hn; lia. }
  destruct (build_porf_adjacency_and_order_Ok g Hcore Hty)
    as (b & topo & -> & Hac & Hnd & Hb & Hsort & Hall). simpl.
  destruct (assign_clock_indices (thread_event_ids_ g) 0) as [index_of width] eqn:Hassign.
  destruct (compute_positions_Ok g Hcore) as (pos & -> & Hposlen & Hpos). simpl.
  destruct b.
  2:{ eexists. split; [done|]. simpl. split; [|done]. split; [done|]. intros H%Hac. done. }
  destruct (compute_rf_sources_Ok g Hcore) as (src & -> & Hsrclen & Hsrc). simpl.
  destruct (po_predecessors_Ok g Hcore) as (preds & -> & Hplen & Hp). simpl.
  assert (acyclic (porf (events g) (reads_from g))) as Hacy by (by apply Hac).
  destruct (clock_loop_Ok g Hcore Hacy width index_of Hassign pos preds src Hpos Hplen Hp Hsrclen
    Hsrc topo Hnd Hb Hsort) as (cl & -> & Hlen & Hrows & _). simpl.
  eexists. split; [done|]. simpl. split; [done|]. intros _ from to Hfrom Hto.
  destruct (lookup_lt_is_Some_2 _ _ Hfrom) as [e He].
  assert (from ∈ thread_ids (events g) (thread e)) as [p Hf]%list_elem_of_lookup
    by (apply thread_ids_elem; eauto).
  destruct (index_of_thread g Hcore width index_of Hassign (thread e)) as (ci & Hci & _).
  { by destruct (thread_ids _ _). }
  assert (to ∈ topo) as Htt.
  { specialize (Hall eq_refl). destruct (decide (to ∈ topo)) as [|Hnt]; [done|exfalso].
    assert (length (to :: topo) ≤ event_count g) as Hle; [|simpl in Hle; lia].
    apply NoDup_bounded_length; [by constructor|]. apply Forall_forall.
    intros v [->|Hv]%elem_of_cons; auto. }
  destruct (Hrows to Htt (thread e) ci Hci) as (m & Hm & Hst).
  exists e, ci, m, p. split_and!; [done|done|done|by eapply Hpos|]. simpl.
  rewrite <-(Hst p from Hf). lia.
Qed.

Lemma ensure_porf_cache_Ok g :
  Core g → cache_ok g → rf_typed (events g) (reads_from g) →
  ∃ c, build_porf_cache g = Ok c ∧ ensure_porf_cache g = Ok (set_cache g (Some c), c).
Proof.
  intros Hcore Hok Hty. destruct (build_porf_cache_Ok g Hcore Hty) as (c & Hbuild & _).
  exists c. split; [done|]. unfold ensure_porf_cache.
  destruct (porf_cache_ g) as [c'|] eqn:Ec.
  - specialize (Hok c' Ec). assert (c' = c) as -> by congruence. rewrite <-Ec.
    by destruct g; simpl in *; subst.
  - by rewrite Hbuild.
Qed.

(** The cache-backed cycle check decides causal acyclicity. *)
Lemma has_causal_cycle_Ok g :
  Core g → cache_ok g → rf_typed (events g) (reads_from g) →
  ∃ b c, has_causal_cycle g = Ok (b, set_cache g (Some c)) ∧ build_porf_cache g = Ok c ∧
    (b = false ↔ acyclic (porf (events g) (reads_from g))).
Proof.
  intros Hcore Hok Hty. destruct (ensure_porf_cache_Ok g Hcore Hok Hty) as (c & Hbuild & Hens).
  destruct (build_porf_cache_Ok g Hcore Hty) as (c' & Hbuild' & Hcyc & _).
  assert (c' = c) as -> by congruence. unfold has_causal_cycle. rewrite Hens. simpl.
  by exists (has_cycle c), c.
Qed.

(** [porf_contains] on an acyclic graph. *)
Lemma porf_contains_Ok g from to :
  Core g → cache_ok g → rf_typed (events g) (reads_from g) →
  acyclic (porf (events g) (reads_from g)) → from < event_count g → to < event_count g →
  ∃ b c, porf_contains g from to = Ok (b, set_cache g (Some c)) ∧ build_porf_cache g = Ok c ∧
    (b = true ↔ tc (porf (events g) (reads_from g)) from to).
Proof.
  intros Hcore Hok Hty Hac Hfrom Hto.
  destruct (ensure_porf_cache_Ok g Hcore Hok Hty) as (c & Hbuild & Hens).
  destruct (build_porf_cache_Ok g Hcore Hty) as (c' & Hbuild' & Hcyc & Hq).
  assert (c' = c) as -> by congruence. apply Hcyc in Hac as Hnc. specialize (Hq Hnc).
  unfold porf_contains. destruct (lookup_lt_is_Some_2 _ _ Hto) as [et Het].
  destruct (Hq from to Hfrom Hto) as (e & ci & stamp & p & He & Hci & Hstamp & Hp & Hiff).
  rewrite He, Het, Hens. simpl. rewrite Hnc. case_decide as Heq.
  - exists false, c. split_and!; [done|done|]. subst to. split; [done|]. intros Htc.
    by apply Hac in Htc.
  - rewrite Hci. rewrite (vec_get_Ok _ _ _ Hstamp). simpl. rewrite (vec_get_Ok _ _ _ Hp). simpl.
    eexists _, c. split_and!; [done|done|]. rewrite bool_decide_eq_true, Hiff. naive_solver.
Qed.

Lemma porf_contains_cyclic g from to :
  Core g → cache_ok g → rf_typed (events g) (reads_from g) →
  ¬ acyclic (porf (events g) (reads_from g)) → from < event_count g → to < event_count g →
  porf_contains g from to =
    Throw (precondition_error "porf_contains called on a graph with a causal cycle").
Proof.
  intros Hcore Hok Hty Hcyc Hfrom Hto.
  destruct (ensure_porf_cache_Ok g Hcore Hok Hty) as (c & Hbuild & Hens).
  destruct (build_porf_cache_Ok g Hcore Hty) as (c' & Hbuild' & Hiff & _).
  assert (c' = c) as -> by congruence. unfold porf_contains.
  destruct (lookup_lt_is_Some_2 _ _ Hfrom) as [ef Hef].
  destruct (lookup_lt_is_Some_2 _ _ Hto) as [et Het].
  rewrite Hef, Het, Hens. simpl. destruct (has_cycle c); [done|]. by destruct Hcyc; apply Hiff.
Qed.

Lemma porf_contains_unknown g from to :
  event_count g ≤ from ∨ event_count g ≤ to →
  porf_contains g from to = Throw (precondition_error "event id not found in exploration graph").
Proof.
  intros H. unfold porf_contains, event_count in *.
  destruct (events g !! from) eqn:Ef, (events g !! to) eqn:Et; try done.
  apply lookup_lt_Some in Ef, Et. lia.
Qed.

(** Filling the cache changes no other field and keeps it valid. *)
Lemma set_cache_ok g c : build_porf_cache g = Ok c → cache_ok (set_cache g (Some c)).
Proof. intros Hb c' [= <-]. exact Hb. Qed.

End answers.
