(* ===== verification/DerivedOrder.v ===== *)
(** * DerivedOrder: the program order and reads-from relations of a graph

    [po_relation] groups the events by thread, validates the indices and builds a
    [ProgramOrderRelation]; [rf_relation] materializes the reads-from edges.  On a
    well-formed graph both succeed and denote [po] and [rf_edge]. *)

From stdpp Require Import base tactics numbers sets relations list strings.
From S2P Require Import Prelude Errors Event Relation RelationFacts ExplorationGraph.
From S2P Require Import ExecutionGraph StorageFacts ExecutionGraphFacts ExplorationFacts Porf.
From S2P Require Import PorfFacts.

Section derived.
Context {V : Type}.
Implicit Types (g : ExecutionGraph V) (es : list (Event V)) (t : ThreadId).

(** A vector of per-thread id lists holds the threads of [es]. *)
Definition by_thread_of es (vs : list (list EventId)) : Prop :=
  ∀ i, default [] (vs !! i) = thread_ids es (N.of_nat i).

Lemma collect_by_thread_Ok es :
  ∃ vs, foldM (E := exn) collect_by_thread [] (imap pair es) = Ok vs ∧ by_thread_of es vs.
Proof.
  induction es as [|e es IH] using rev_ind; [by exists []|].
  destruct IH as (vs & Hf & Hvs). rewrite imap_app, foldM_app, Hf. simpl.
  rewrite Nat.add_0_r. unfold collect_by_thread. simpl.
  destruct (push_at vs (N.to_nat (thread e)) (length es) _ Hvs) as (vs' & Hget & Hset & Hvs').
  rewrite (vec_get_Ok _ _ _ Hget). simpl. unfold push_back. rewrite Hset. simpl.
  exists vs'. split; [done|]. intros i. rewrite Hvs', thread_ids_snoc.
  destruct (decide (i = N.to_nat (thread e))), (decide (thread e = N.of_nat i)); subst; try lia;
    [done|by rewrite app_nil_r].
Qed.

Lemma by_thread_elem es vs ids : by_thread_of es vs → ids ∈ vs → ∃ t, ids = thread_ids es t.
Proof.
  intros Hvs [i Hi]%list_elem_of_lookup. exists (N.of_nat i). by rewrite <-Hvs, Hi.
Qed.

Lemma by_thread_lookup es vs t :
  by_thread_of es vs → thread_ids es t ≠ [] → vs !! N.to_nat t = Some (thread_ids es t).
Proof.
  intros Hvs Hne. specialize (Hvs (N.to_nat t)). rewrite N2Nat.id in Hvs.
  destruct (vs !! N.to_nat t); simpl in Hvs; congruence.
Qed.

Definition nonempty (ids : list EventId) : bool := match ids with [] => false | _ => true end.

(** The validation loop accepts every thread of a well-formed graph. *)
Lemma check_thread_Ok g t :
  graph_wf g →
  foldM (λ _ pair, check_increasing g pair) tt (adjacent (thread_ids (events_ g) t)) = Ok tt.
Proof.
  intros Hwf. rewrite (foldM_pure _ (λ _ _, tt)); [by destruct (foldl _ _ _)|].
  intros [] [a b] (i & Ha & Hb)%adjacent_elem.
  assert (po (events_ g) a b) as (Hab & ea & eb & Hea & Heb & Ht) by (apply po_imm_po; by exists t, i).
  unfold check_increasing. simpl. rewrite (vec_get_Ok _ _ _ Hea). simpl.
  rewrite (vec_get_Ok _ _ _ Heb). simpl.
  pose proof (gw_sorted g Hwf a b ea eb Hea Heb Ht Hab). by rewrite !decide_False by lia.
Qed.

Lemma derive_thread_event_sequences_Ok g :
  graph_wf g →
  ∃ vs, derive_thread_event_sequences g = Ok (List.filter nonempty vs) ∧
    by_thread_of (events_ g) vs.
Proof.
  intros Hwf. unfold derive_thread_event_sequences.
  destruct (collect_by_thread_Ok (events_ g)) as (vs & -> & Hvs). simpl.
  exists vs. split; [|done].
  assert (∀ l acc, (∀ ids, ids ∈ l → ids ∈ vs) →
    foldM (λ sequences ids, match ids with
      | [] => Ok sequences
      | _ => _ ← foldM (λ _ pair, check_increasing g pair) tt (adjacent ids);
             Ok (push_back sequences ids) end) acc l = Ok (acc ++ List.filter nonempty l)) as Hloop;
    [|by apply Hloop].
  intros l. induction l as [|ids l IH]; intros acc Hl; simpl; [by rewrite app_nil_r|].
  destruct (by_thread_elem _ _ ids Hvs) as [t Ht]; [apply Hl; set_solver|].
  pose proof (check_thread_Ok g t Hwf) as Hc. rewrite <-Ht in Hc.
  destruct ids as [|x ids]; [simpl; rewrite IH by set_solver; done|].
  rewrite Hc. simpl. rewrite IH by set_solver. unfold push_back. by rewrite <-app_assoc.
Qed.

Lemma mjoin_filter_nonempty (vs : list (list EventId)) : mjoin (List.filter nonempty vs) = mjoin vs.
Proof. induction vs as [|[|x ids] vs IH]; simpl; [done|done|by rewrite IH]. Qed.

Lemma mjoin_app_l {A} (l1 l2 : list (list A)) : mjoin (l1 ++ l2) = mjoin l1 ++ mjoin l2.
Proof. induction l1 as [|x l1 IH]; simpl; [done|]. by rewrite IH, app_assoc. Qed.

Lemma po_slots_snd (vs : list (list EventId)) : snd <$> po_slots vs = mjoin vs.
Proof.
  induction vs as [|ids vs IH] using rev_ind; [done|]. unfold po_slots in *.
  rewrite imap_app, !mjoin_app_l, fmap_app, IH. simpl. rewrite !app_nil_r. f_equal.
  generalize (length vs + 0). clear. intros t.
  induction ids as [|x ids IH] using rev_ind; [done|]. by rewrite imap_app, fmap_app, IH.
Qed.

Lemma by_thread_nodup es vs : by_thread_of es vs → NoDup (mjoin vs).
Proof.
  intros Hvs.
  assert (∀ vs k, (∀ i ids, vs !! i = Some ids → ids = thread_ids es (N.of_nat (k + i))) →
    NoDup (mjoin vs)) as H.
  { clear vs Hvs. intros vs. induction vs as [|ids vs IH]; intros k Hk; [constructor|].
    simpl. apply NoDup_app. split_and!.
    - rewrite (Hk 0 ids eq_refl). apply ids_where_nodup.
    - intros x Hx Hin. rewrite (Hk 0 ids eq_refl), Nat.add_0_r in Hx.
      apply list_elem_of_join in Hin as (ids' & Hx' & [i Hi]%list_elem_of_lookup).
      rewrite (Hk (S i) ids' Hi) in Hx'.
      apply thread_ids_elem in Hx as (e & He & Ht). apply thread_ids_elem in Hx' as (e' & He' & Ht').
      simplify_eq. lia.
    - apply (IH (S k)). intros i ids' Hi. rewrite (Hk (S i) ids' Hi). do 2 f_equal. lia. }
  apply (H vs 0). intros i ids Hi. specialize (Hvs i). by rewrite Hi in Hvs.
Qed.

Lemma po_at_sequences es vs i p x :
  by_thread_of es vs → po_at (List.filter nonempty vs) i p x →
  ∃ t, List.filter nonempty vs !! i = Some (thread_ids es t) ∧ thread_ids es t !! p = Some x.
Proof.
  intros Hvs (ids & Hi & Hp).
  assert (ids ∈ vs) as Hin.
  { apply list_elem_of_lookup_2, list_elem_of_In, filter_In in Hi as [Hin _].
    by apply list_elem_of_In. }
  destruct (by_thread_elem es vs ids Hvs Hin) as [t ->]. by exists t.
Qed.

Lemma po_before_sequences es vs a b :
  by_thread_of es vs → po_before (List.filter nonempty vs) a b ↔ po es a b.
Proof.
  intros Hvs. rewrite po_positions. split.
  - intros (i & p & q & Ha & Hb & Hpq).
    destruct (po_at_sequences es vs i p a Hvs Ha) as (t & Hi & Hp).
    destruct (po_at_sequences es vs i q b Hvs Hb) as (t' & Hi' & Hq).
    exists t, p, q. split_and!; [done| |done]. congruence.
  - intros (t & p & q & Ha & Hb & Hpq).
    assert (thread_ids es t ≠ []) as Hne by (intros E; by rewrite E in Ha).
    pose proof (by_thread_lookup es vs t Hvs Hne) as Hlk.
    assert (thread_ids es t ∈ List.filter nonempty vs) as [i Hi]%list_elem_of_lookup.
    { apply list_elem_of_In, filter_In. rewrite <-list_elem_of_In. split.
      - by eapply list_elem_of_lookup_2.
      - by destruct (thread_ids es t). }
    exists i, p, q. split_and!; [by exists (thread_ids es t)|by exists (thread_ids es t)|done].
Qed.

(** The derived program order denotes [po]. *)
Lemma po_relation_Ok g :
  graph_wf g →
  ∃ r, po_relation g = Ok r ∧ rel_wf r ∧ node_count r = length (events_ g) ∧
    ∀ a b, edge r a b ↔ po (events_ g) a b.
Proof.
  intros Hwf. unfold po_relation.
  destruct (derive_thread_event_sequences_Ok g Hwf) as (vs & -> & Hvs). simpl.
  unfold po_make, set_thread_events. simpl.
  set (r0 := MkProgramOrderRelation _ _ _ _).
  destruct (rebuild_index_total r0) as [r Hr].
  - apply Forall_forall. intros [[i p] x] Hin%po_slots_elem. simpl in *.
    destruct (po_at_sequences _ vs i p x Hvs Hin) as (t & _ & Hx).
    by eapply ids_where_bound, list_elem_of_lookup_2.
  - rewrite po_slots_snd. simpl. rewrite mjoin_filter_nonempty. by eapply by_thread_nodup.
  - destruct (rebuild_index_wf r0 r Hr) as (Hrwf & Hn & Hte). exists r. rewrite Hr.
    split_and!; [done|done|done|]. intros a b. rewrite po_edge, Hte by done. simpl.
    by apply po_before_sequences.
Qed.

(** [rf_relation] denotes the reads-from edges, or throws on an entry that does not
    join a receive to a send. *)
Lemma rf_relation_Ok g :
  rf_typed (events_ g) (reads_from_ g) →
  ∃ r, rf_relation g = Ok r ∧ rel_wf r ∧ node_count r = length (events_ g) ∧
    ∀ a b, edge r a b ↔ rf_edge (reads_from_ g) a b.
Proof.
  intros Hty. unfold rf_relation. rewrite for_each_validated_rf_edge_Ok by done. simpl.
  destruct (foldM_inv (E := exn) (λ r (e : EventId * EventId), add_edge r e.1 e.2)
    (λ l r, rel_wf r ∧ node_count r = length (events_ g) ∧ ∀ a b, edge r a b ↔ (a, b) ∈ l)
    (rf_edge_list (reads_from_ g)) (explicit_new (length (events_ g))))
    as (r & -> & Hrwf & Hn & He).
  - split_and!; [apply explicit_new_wf|apply length_replicate|]. intros a b. split; [|set_solver].
    by intros ?%explicit_new_edge.
  - intros l1 [a b] l2 r Hl (Hrwf & Hn & He). simpl.
    assert (rf_edge (reads_from_ g) a b) as (s & Hb & Hs)
      by (apply rf_edge_list_elem; rewrite Hl; set_solver).
    destruct (Hty b s Hb) as [(eb & Heb & _) Hsrc]. destruct (Hsrc a Hs) as (ea & Hea & _).
    apply lookup_lt_Some in Hea, Heb.
    destruct (add_edge_spec r a b Hrwf) as (r' & Hadd & Hrwf' & Hn' & He'); [lia..|].
    exists r'. split; [done|]. split_and!; [done|etrans; [apply Hn'|done]|]. intros x y.
    rewrite He', He, elem_of_app, list_elem_of_singleton. naive_solver.
  - exists r. split_and!; [done..|]. intros a b. by rewrite He, rf_edge_list_elem.
Qed.

End derived.
