(* ===== verification/CycleSearch.v ===== *)
(** * CycleSearch: the depth-first cycle test of the execution-graph checker

    [has_causal_cycle] of [dpor/model/consistency.hpp] colours the nodes and looks for
    an edge back to the recursion stack.  It terminates and reports a cycle exactly
    when the successor lists contain one. *)

From stdpp Require Import base tactics numbers sets relations list strings.
From S2P Require Import Prelude Errors Event Relation RelationFacts ExplorationGraph Porf.
From S2P Require Import ExecutionGraph ExplorationFacts Consistency.

Section dfs.
Context (n : nat) (succs : list (list EventId)).
Context (Hlen : length succs = n) (Hin : ∀ a l b, succs !! a = Some l → b ∈ l → b < n).

(** The relation the successor lists store. *)
Definition succ_rel (a b : EventId) : Prop := ∃ l, succs !! a = Some l ∧ b ∈ l.

(** Finished nodes only lead to finished nodes, and lie on no cycle. *)
Record dfs_inv (state : list VisitState) : Prop := {
  di_len : length state = n;
  di_closed : ∀ v w, state !! v = Some Finished → succ_rel v w → state !! w = Some Finished;
  di_acyclic : ∀ v, state !! v = Some Finished → ¬ tc succ_rel v v;
}.

Definition unvisited (state : list VisitState) : nat :=
  length (List.filter (λ v, bool_decide (state !! v = Some Unvisited)) (seq 0 n)).

(** Visiting never forgets a colour, and leaves the stack as it was. *)
Definition grows (s s' : list VisitState) : Prop :=
  (∀ v, s !! v = Some OnStack ↔ s' !! v = Some OnStack) ∧
  (∀ v, s !! v = Some Finished → s' !! v = Some Finished).

Lemma grows_refl s : grows s s.
Proof. by split. Qed.

Lemma grows_trans s1 s2 s3 : grows s1 s2 → grows s2 s3 → grows s1 s3.
Proof. intros [H1 H2] [H3 H4]. split; [intros v; by rewrite H1|auto]. Qed.

Lemma unvisited_grows s s' : length s = n → length s' = n → grows s s' → unvisited s' ≤ unvisited s.
Proof.
  intros Hs Hs' [H1 H2]. apply filter_length_le. intros v.
  rewrite !bool_decide_eq_true. intros Hv. apply lookup_lt_Some in Hv as Hlt.
  destruct (lookup_lt_is_Some_2 s v ltac:(lia)) as [[] Hx]; [done| |].
  - apply H1 in Hx. congruence.
  - apply H2 in Hx. congruence.
Qed.

Lemma unvisited_insert s v c :
  length s = n → s !! v = Some Unvisited → c ≠ Unvisited → unvisited (<[v := c]> s) < unvisited s.
Proof.
  intros Hs Hv Hc. apply lookup_lt_Some in Hv as Hlt.
  apply (filter_length_lt _ _ _ v).
  - intros x. rewrite !bool_decide_eq_true. destruct (decide (x = v)) as [->|]; [done|].
    by rewrite list_lookup_insert_ne.
  - apply elem_of_seq. lia.
  - by apply bool_decide_eq_true_2.
  - apply bool_decide_eq_false_2. rewrite list_lookup_insert_eq by lia. congruence.
Qed.

(** What one call of [dfs] on an unvisited node achieves. *)
Definition visit_post (state : list VisitState) (done_ : list EventId)
    (r : res (bool * list VisitState)) : Prop :=
  ∃ b state', r = Ok (b, state') ∧
    if (b : bool) then ∃ v, tc succ_rel v v
    else dfs_inv state' ∧ grows state state' ∧ ∀ s, s ∈ done_ → state' !! s = Some Finished.

Definition visit_ok (fuel : nat) (visit : list VisitState → EventId → res (bool * list VisitState))
    : Prop :=
  ∀ state node, dfs_inv state → state !! node = Some Unvisited → unvisited state < fuel →
    (∀ v, state !! v = Some OnStack → tc succ_rel v node) →
    visit_post state [node] (visit state node).

Lemma dfs_successors_ok fuel visit node rest state :
  visit_ok fuel visit → dfs_inv state → state !! node = Some OnStack →
  (∀ v, state !! v = Some OnStack → v = node ∨ tc succ_rel v node) →
  (∀ s, s ∈ rest → succ_rel node s) → unvisited state < fuel →
  visit_post state rest (dfs_successors visit state rest).
Proof.
  intros Hvisit. revert state. induction rest as [|s rest IH]; intros state Hinv Hnode Hstack Hrest Hfuel.
  { exists false, state. split; [done|]. split_and!; [done|apply grows_refl|set_solver]. }
  simpl. assert (succ_rel node s) as Hs by (apply Hrest; set_solver).
  assert (s < n) as Hsn by (destruct Hs as (l & Hl & Hsl); by eapply Hin).
  destruct (lookup_lt_is_Some_2 state s) as [c Hc]; [by rewrite (di_len _ Hinv)|].
  rewrite (vec_get_Ok _ _ _ Hc). simpl. destruct c.
  - destruct (Hvisit state s Hinv Hc Hfuel) as (b & state' & -> & Hpost).
    { intros v [->|Hv]%Hstack; [by apply tc_once|by eapply tc_r]. }
    simpl. destruct b; [by exists true, state'|]. destruct Hpost as (Hinv' & Hgrow & Hfin).
    destruct (IH state' Hinv') as (b & state'' & -> & Hpost).
    { by apply Hgrow. }
    { intros v Hv%Hgrow. by apply Hstack. }
    { set_solver. }
    { pose proof (unvisited_grows _ _ (di_len _ Hinv) (di_len _ Hinv') Hgrow). lia. }
    exists b, state''. split; [done|]. destruct b; [done|].
    destruct Hpost as (Hinv'' & Hgrow' & Hfin'). split_and!; [done|by eapply grows_trans|].
    intros x [->|Hx]%elem_of_cons; [|auto]. apply Hgrow', Hfin. set_solver.
  - exists true, state. split; [done|]. exists s. destruct (Hstack s Hc) as [->|Htc].
    + by apply tc_once.
    + by eapply tc_r.
  - destruct (IH state Hinv Hnode Hstack ltac:(set_solver) Hfuel) as (b & state' & -> & Hpost).
    exists b, state'. split; [done|]. destruct b; [done|].
    destruct Hpost as (Hinv' & Hgrow & Hfin). split_and!; [done|done|].
    intros x [->|Hx]%elem_of_cons; [|auto]. by apply Hgrow.
Qed.

(** Nothing reachable from a finished node is unfinished. *)
Lemma finished_reach state v w :
  dfs_inv state → state !! v = Some Finished → tc succ_rel v w → state !! w = Some Finished.
Proof.
  intros Hinv Hv Htc. induction Htc as [v w H|v x w H _ IH]; [by eapply di_closed|].
  apply IH. by eapply di_closed.
Qed.

Lemma dfs_ok fuel : visit_ok fuel (dfs fuel succs).
Proof.
  induction fuel as [|fuel IH]; intros state node Hinv Hnode Hfuel Hstack; [lia|].
  apply lookup_lt_Some in Hnode as Hlt. rewrite (di_len _ Hinv) in Hlt.
  simpl. rewrite vec_set_Ok by (rewrite (di_len _ Hinv); lia). simpl.
  destruct (lookup_lt_is_Some_2 succs node ltac:(lia)) as [l Hl].
  rewrite (vec_get_Ok _ _ _ Hl). simpl.
  set (state1 := <[node := OnStack]> state).
  assert (length state1 = n) as Hlen1 by (unfold state1; rewrite length_insert; apply Hinv).
  assert (∀ v, v ≠ node → state1 !! v = state !! v) as Hne
    by (intros v Hv; unfold state1; by rewrite list_lookup_insert_ne).
  assert (state1 !! node = Some OnStack) as Hn1
    by (unfold state1; rewrite list_lookup_insert_eq; [done|rewrite (di_len _ Hinv); lia]).
  assert (dfs_inv state1) as Hinv1.
  { split; [done| |].
    - intros v w Hv Hvw. destruct (decide (v = node)) as [->|]; [congruence|].
      rewrite Hne in Hv by done. pose proof (di_closed _ Hinv v w Hv Hvw) as Hw.
      rewrite Hne; [done|]. intros ->. congruence.
    - intros v Hv. destruct (decide (v = node)) as [->|]; [congruence|].
      apply (di_acyclic _ Hinv). by rewrite <-Hne. }
  destruct (dfs_successors_ok fuel (dfs fuel succs) node l state1 IH Hinv1 Hn1)
    as (b & state2 & -> & Hpost).
  { intros v Hv. destruct (decide (v = node)) as [->|]; [by left|]. right. apply Hstack.
    by rewrite <-Hne. }
  { intros s Hs. by exists l. }
  { pose proof (unvisited_insert state node OnStack (di_len _ Hinv) Hnode ltac:(done)) as Hdec.
    fold state1 in Hdec. lia. }
  simpl. destruct b; [by exists true, state2|]. destruct Hpost as (Hinv2 & Hgrow & Hfin).
  rewrite vec_set_Ok by (rewrite (di_len _ Hinv2); lia). simpl.
  eexists false, _. split; [done|].
  set (state3 := <[node := Finished]> state2).
  assert (∀ v, v ≠ node → state3 !! v = state2 !! v) as Hne3
    by (intros v Hv; unfold state3; by rewrite list_lookup_insert_ne).
  assert (state3 !! node = Some Finished) as Hn3
    by (unfold state3; rewrite list_lookup_insert_eq; [done|rewrite (di_len _ Hinv2); lia]).
  assert (state2 !! node = Some OnStack) as Hn2 by (by apply Hgrow).
  split_and!.
  - split; [unfold state3; rewrite length_insert; apply Hinv2| |].
    + intros v w Hv Hvw. destruct (decide (w = node)) as [->|Hw]; [done|]. rewrite Hne3 by done.
      destruct (decide (v = node)) as [->|Hvn].
      * apply Hfin. destruct Hvw as (l' & Hl' & Hwl). congruence.
      * rewrite Hne3 in Hv by done. by eapply (di_closed _ Hinv2).
    + intros v Hv. destruct (decide (v = node)) as [->|Hvn].
      * intros Hcyc. assert (∃ w, succ_rel node w ∧ (w = node ∨ tc succ_rel w node))
          as (w & (l' & Hl' & Hwl) & Hw) by (inversion Hcyc; subst; eauto).
        assert (state2 !! w = Some Finished) as Hwf by (apply Hfin; congruence).
        destruct Hw as [->|Hw]; [congruence|].
        pose proof (finished_reach _ _ _ Hinv2 Hwf Hw). congruence.
      * apply (di_acyclic _ Hinv2). by rewrite <-Hne3.
  - split.
    + intros v. destruct (decide (v = node)) as [->|]; [rewrite Hnode, Hn3; done|].
      rewrite Hne3 by done. destruct Hgrow as [Hg _]. rewrite <-Hg, Hne by done. done.
    + intros v Hv. destruct (decide (v = node)) as [->|]; [done|]. rewrite Hne3 by done.
      apply Hgrow. by rewrite Hne.
  - intros s ->%list_elem_of_singleton. done.
Qed.

Lemma dfs_roots_ok fuel roots state :
  dfs_inv state → (∀ v, state !! v ≠ Some OnStack) → (∀ v, v ∈ roots → v < n) →
  unvisited state < fuel →
  ∃ b, dfs_roots fuel succs state roots = Ok b ∧
    if (b : bool) then ∃ v, tc succ_rel v v else ∀ v, v ∈ roots → ¬ tc succ_rel v v.
Proof.
  revert state. induction roots as [|id roots IH]; intros state Hinv Hstack Hroots Hfuel.
  { exists false. split; [done|set_solver]. }
  simpl. destruct (lookup_lt_is_Some_2 state id) as [c Hc];
    [rewrite (di_len _ Hinv); apply Hroots; set_solver|].
  rewrite (vec_get_Ok _ _ _ Hc). simpl. destruct c.
  - destruct (dfs_ok fuel state id Hinv Hc Hfuel) as (b & state' & -> & Hpost).
    { intros v Hv. by apply Hstack in Hv. }
    simpl. destruct b; [by exists true|]. destruct Hpost as (Hinv' & Hgrow & Hfin).
    destruct (IH state' Hinv') as (b & -> & Hpost).
    { intros v Hv%Hgrow. by eapply Hstack. }
    { set_solver. }
    { pose proof (unvisited_grows _ _ (di_len _ Hinv) (di_len _ Hinv') Hgrow). lia. }
    exists b. split; [done|]. destruct b; [done|].
    intros v [->|Hv]%elem_of_cons; [|auto]. apply (di_acyclic _ Hinv'), Hfin. set_solver.
  - by apply Hstack in Hc.
  - destruct (IH state Hinv Hstack ltac:(set_solver) Hfuel) as (b & -> & Hpost).
    exists b. split; [done|]. destruct b; [done|].
    intros v [->|Hv]%elem_of_cons; [|auto]. by apply (di_acyclic _ Hinv).
Qed.

(** The search decides acyclicity of the successor lists. *)
Lemma dfs_search_ok :
  ∃ b, dfs_roots (S n) succs (replicate n Unvisited) (seq 0 n) = Ok b ∧
    (b = false ↔ acyclic succ_rel).
Proof.
  assert (∀ v c, replicate n Unvisited !! v = Some c → c = Unvisited) as Hrep
    by (intros v c; by intros [-> _]%lookup_replicate).
  destruct (dfs_roots_ok (S n) (seq 0 n) (replicate n Unvisited)) as (b & Hb & Hpost).
  - split; [apply length_replicate|intros v w Hv; by apply Hrep in Hv|
      intros v Hv; by apply Hrep in Hv].
  - intros v Hv. by apply Hrep in Hv.
  - intros v Hv%elem_of_seq. lia.
  - unfold unvisited. pose proof (List.filter_length_le
      (λ v, bool_decide (replicate n Unvisited !! v = Some Unvisited)) (seq 0 n)) as Hle.
    rewrite length_seq in Hle. lia.
  - exists b. split; [done|]. destruct b.
    + split; [done|]. intros Hac. destruct Hpost as [v Hv]. by apply Hac in Hv.
    + split; [|done]. intros _ v Hv. apply (Hpost v); [|done]. apply elem_of_seq.
      assert (v < length succs); [|lia].
      inversion Hv as [? ? (l & Hl & _)|? ? ? (l & Hl & _)]; subst; by eapply lookup_lt_Some.
Qed.

End dfs.

(** ** The causal-cycle test *)

Lemma mapM_res_Ok {A B} (f : A → res B) (h : A → B) l :
  (∀ a, a ∈ l → f a = Ok (h a)) → mapM f l = Ok (h <$> l).
Proof.
  induction l as [|a l IH]; intros Hf; simpl; [done|].
  rewrite Hf by set_solver. simpl. rewrite IH by set_solver. done.
Qed.

(** The edges of [rf_edges] with both ends below [count] are added, the others skipped. *)
Lemma add_rf_edges_Ok count po_succs rf_edges :
  length po_succs = count → (∀ a b, succ_rel po_succs a b → b < count) →
  ∃ succs, foldM (add_rf_edge count) po_succs rf_edges = Ok succs ∧ length succs = count ∧
    ∀ a b, succ_rel succs a b ↔
      succ_rel po_succs a b ∨ ((a, b) ∈ rf_edges ∧ a < count ∧ b < count).
Proof.
  intros Hlen Hin.
  destruct (foldM_inv (E := exn) (add_rf_edge count)
    (λ l succs, length succs = count ∧ ∀ a b, succ_rel succs a b ↔
      succ_rel po_succs a b ∨ ((a, b) ∈ l ∧ a < count ∧ b < count)) rf_edges po_succs)
    as (succs & Hf & Hl & He); [|..|by exists succs].
  - split; [done|]. intros a b. set_solver.
  - intros l1 [a b] l2 succs Hl (Hlen1 & He). unfold add_rf_edge. simpl. case_decide as Hab.
    + destruct (lookup_lt_is_Some_2 succs a ltac:(lia)) as [ss Hss].
      rewrite (vec_get_Ok _ _ _ Hss). simpl. rewrite vec_set_Ok by lia.
      eexists. split; [done|]. rewrite length_insert. split; [done|]. intros x y.
      assert (succ_rel (<[a := push_back ss b]> succs) x y ↔
              succ_rel succs x y ∨ (x = a ∧ y = b)) as ->.
      { unfold succ_rel, push_back. destruct (decide (x = a)) as [->|Hne].
        - rewrite list_lookup_insert_eq by lia. rewrite Hss. split.
          + intros (l & [= <-] & [Hy|Hy]%elem_of_app); [left; eauto|right; set_solver].
          + intros [(l & [= <-] & Hy)|[_ ->]]; eexists; (split; [done|]); set_solver.
        - rewrite list_lookup_insert_ne by done. split; [by left|]. by intros [?|[? _]]. }
      rewrite He, elem_of_app, list_elem_of_singleton. naive_solver.
    + eexists. split; [done|]. split; [done|]. intros x y. rewrite He, elem_of_app,
        list_elem_of_singleton. split; [naive_solver|]. intros [?|[[?|[= -> ->]] ?]]; auto; tauto.
Qed.

(** On any lawful program-order relation, the test reports exactly the graphs whose
    program-order and reads-from edges contain a cycle. *)
Lemma has_causal_cycle_ok (r : ProgramOrderRelation) rf_edges :
  rel_wf r →
  ∃ b, has_causal_cycle r rf_edges (node_count r) = Ok b ∧
    (b = false ↔ acyclic (λ x y, edge r x y ∨
       ((x, y) ∈ rf_edges ∧ x < node_count r ∧ y < node_count r))).
Proof.
  intros Hwf. unfold has_causal_cycle. set (n := node_count r).
  assert (∃ h, ∀ a, a < n → for_each_successor r a = Ok (h a)) as [h Hh].
  { exists (λ a, match for_each_successor r a with Ok l => l | Throw _ => [] end).
    intros a Ha. destruct (succ_total r a Hwf Ha) as [l ->]. done. }
  rewrite (mapM_res_Ok _ h) by (intros a Ha%elem_of_seq; apply Hh; lia). simpl.
  assert (∀ a b, succ_rel (h <$> seq 0 n) a b ↔ edge r a b) as Hpo.
  { intros a b. unfold succ_rel. split.
    - intros (l & Hl & Hb). apply list_lookup_fmap_Some in Hl as (x & -> & [-> Hx]%lookup_seq).
      exists (h a). split; [by apply Hh|done].
    - intros (l & Hl & Hb).
      assert (a < n) as Ha.
      { destruct (decide (a < n)) as [|Hge]; [done|].
        rewrite (succ_invalid r a) in Hl; [done|unfold n in *; lia]. }
      exists l. split; [|done]. rewrite list_lookup_fmap, lookup_seq_lt by done. simpl.
      rewrite Hh in Hl by done. congruence. }
  destruct (add_rf_edges_Ok n (h <$> seq 0 n) rf_edges) as (succs & -> & Hlen & He).
  { by rewrite length_fmap, length_seq. }
  { intros a b Hab%Hpo. by eapply (succ_bounded r a b Hwf). }
  simpl. destruct (dfs_search_ok n succs Hlen) as (b & Hb & Hac).
  { intros a l x Hl Hx. assert (succ_rel succs a x) as [H|H]%He by (by exists l).
    - apply Hpo in H. by eapply (succ_bounded r a x Hwf).
    - tauto. }
  exists b. split; [done|]. rewrite Hac. split; apply acyclic_sub; intros x y; rewrite He, Hpo; done.
Qed.
