(* ===== verification/ConsistencyFacts.v ===== *)
(** * ConsistencyFacts: what a consistent verdict means

    [validate_graph] reports no issue exactly on well-formed reads-from relations; the
    causal-cycle tests of both checkers decide acyclicity; and the exploration-graph
    checker, with its shortcuts, returns the verdict of the execution-graph checker. *)

From stdpp Require Import base tactics numbers pretty sets relations list strings.
From S2P Require Import Prelude Errors Event Relation RelationFacts ExplorationGraph Porf.
From S2P Require Import ExecutionGraph StorageFacts ExecutionGraphFacts ExplorationFacts.
From S2P Require Import PorfFacts PorfClocks DerivedOrder Consistency CycleSearch.

(** ** One reads-from entry *)

Section entries.
Context {V : Type}.
Implicit Types (g : ExecutionGraph V) (es : list (Event V)) (v : Validation).

(** The entry joins a receive to a send or to bottom. *)
Definition entry_typed es (entry : EventId * ReadsFromSource) : bool :=
  match es !! entry.1 with Some e => is_receive e | None => false end &&
  match rf_send entry.2 with
  | None => true
  | Some id => match es !! id with Some e => is_send e | None => false end
  end.

(** The entry is one the semantics allows. *)
Definition entry_ok es (entry : EventId * ReadsFromSource) : Prop :=
  ∃ er rl, es !! entry.1 = Some er ∧ as_receive er = Some rl ∧
    match rf_send entry.2 with
    | None => is_blocking rl = false
    | Some id => ∃ e sl, es !! id = Some e ∧ as_send e = Some sl ∧
        destination sl = thread er ∧ accepts rl (value sl) = Ok true
    end.

Definition entry_edge (entry : EventId * ReadsFromSource) : list (EventId * EventId) :=
  match rf_send entry.2 with Some id => [(id, entry.1)] | None => [] end.

Lemma entry_ok_typed es entry : entry_ok es entry → entry_typed es entry = true.
Proof.
  intros (er & rl & Her & Hr & Hs). unfold entry_typed. rewrite Her.
  assert (is_receive er = true) as -> by (apply is_receive_true; eauto). simpl.
  destruct (rf_send entry.2) as [id|]; [|done]. destruct Hs as (e & sl & -> & Hsl & _).
  apply is_send_true. eauto.
Qed.

(** The number of entries that read from [id]. *)
Definition reads_of (l : list (EventId * ReadsFromSource)) (id : EventId) : nat :=
  length (List.filter (λ entry : EventId * ReadsFromSource,
                         bool_decide (rf_send entry.2 = Some id)) l).

Lemma reads_of_snoc l entry id :
  reads_of (l ++ [entry]) id =
  reads_of l id + (if decide (rf_send entry.2 = Some id) then 1 else 0).
Proof.
  unfold reads_of. rewrite List.filter_app, length_app. simpl.
  by case_bool_decide; case_decide.
Qed.

(** The tables a validation state carries. *)
Definition tables_ok es v : Prop :=
  length (v_receive_has_source v) = length es ∧ length (v_send_read_count v) = length es.

(** What [validate_entry] does when it returns; [issues] is what it reports. *)
Definition entry_effect (collect : bool) es (entry : EventId * ReadsFromSource)
    (issues : ConsistencyResult) v v' : Prop :=
  v_result v' = v_result v ++ issues ∧ tables_ok es v' ∧
  v_cycle_query_safe v' = v_cycle_query_safe v && entry_typed es entry ∧
  (entry_typed es entry = true →
     v_valid_rf_edges v' = v_valid_rf_edges v ++ (if collect then entry_edge entry else []) ∧
     v_receive_has_source v' = <[entry.1 := true]> (v_receive_has_source v) ∧
     v_send_read_count v' =
       match rf_send entry.2 with
       | None => v_send_read_count v
       | Some id => alter (λ c, if decide (c < 255) then S c else c) id (v_send_read_count v)
       end) ∧
  (issues = [] ↔ entry_ok es entry ∧
     ∀ id, rf_send entry.2 = Some id → v_send_read_count v !! id = Some 0).

Lemma is_valid_event_id_lookup g id :
  is_valid_event_id g id = bool_decide (is_Some (events_ g !! id)).
Proof. unfold is_valid_event_id. apply bool_decide_ext. by rewrite lookup_lt_is_Some. Qed.

(** An entry with an unknown id is reported and otherwise skipped. *)
Lemma validate_entry_invalid collect g v r s :
  tables_ok (events_ g) v →
  (events_ g !! r = None ∨ ∃ id, rf_send s = Some id ∧ events_ g !! id = None) →
  ∃ issues v', validate_entry collect g v (r, s) = Ok v' ∧
    entry_effect collect (events_ g) (r, s) issues v v'.
Proof.
  intros Htab Hbad.
  assert (entry_typed (events_ g) (r, s) = false) as Hty.
  { unfold entry_typed. simpl. destruct Hbad as [->|(id & -> & ->)]; [done|apply andb_false_r]. }
  assert (∀ issues : ConsistencyResult, issues ≠ [] → issues = [] ↔ entry_ok (events_ g) (r, s) ∧
    ∀ id, rf_send s = Some id → v_send_read_count v !! id = Some 0) as Hno.
  { intros issues Hne. split; [done|]. intros [Hok _]. apply entry_ok_typed in Hok. congruence. }
  unfold validate_entry. rewrite !is_valid_event_id_lookup.
  unfold entry_effect, v_unsafe, v_issue, add_issue, push_back. rewrite Hty.
  destruct (events_ g !! r) as [er|] eqn:Er; simpl.
  - destruct Hbad as [|(id & Hs & Hid)]; [done|]. rewrite Hs.
    rewrite is_valid_event_id_lookup, Hid. simpl.
    eexists _, _. split; [done|]. simpl. split; [done|]. split; [done|].
    split; [by rewrite andb_false_r|]. split; [done|]. rewrite <-Hs. by apply Hno.
  - destruct (match rf_send s with Some id => is_valid_event_id g id | None => true end);
      eexists _, _; (split; [done|]); simpl; rewrite <-?app_assoc; (split; [done|]);
      (split; [done|]); (split; [by rewrite andb_false_r|]); (split; [done|]); by apply Hno.
Qed.

(** A conditional report, as an equation. *)
Lemma v_issue_if (P : Prop) `{Decision P} v c m :
  (if decide P then v_issue v c m else v) =
  MkValidation (v_result v ++ (if decide P then [MkIssue c m] else [])) (v_valid_rf_edges v)
    (v_cycle_query_safe v) (v_receive_has_source v) (v_send_read_count v).
Proof. case_decide; [done|]. rewrite app_nil_r. by destruct v. Qed.

Lemma v_issue_if_not (b : bool) v c m :
  (if b then v else v_issue v c m) =
  MkValidation (v_result v ++ (if b then [] else [MkIssue c m])) (v_valid_rf_edges v)
    (v_cycle_query_safe v) (v_receive_has_source v) (v_send_read_count v).
Proof. destruct b; [|done]. rewrite app_nil_r. by destruct v. Qed.

(** The checks on a receive that reads from a send. *)
Lemma validate_read_effect collect v v' r id (er : Event V) rl sl k :
  v_send_read_count v !! id = Some k →
  validate_read collect v r id er rl sl = Ok v' →
  ∃ issues, v_result v' = v_result v ++ issues ∧
    v_cycle_query_safe v' = v_cycle_query_safe v ∧
    v_valid_rf_edges v' = v_valid_rf_edges v ++ (if collect then [(id, r)] else []) ∧
    v_receive_has_source v' = v_receive_has_source v ∧
    v_send_read_count v' =
      alter (λ c, if decide (c < 255) then S c else c) id (v_send_read_count v) ∧
    (issues = [] ↔ k = 0 ∧ destination sl = thread er ∧ accepts rl (value sl) = Ok true).
Proof.
  intros Hk. unfold validate_read, v_count_read. rewrite (vec_get_Ok _ _ _ Hk). simpl.
  rewrite vec_set_Ok by (by eapply lookup_lt_Some). simpl.
  destruct (accepts rl (value sl)) as [b|]; simpl; [|done]. intros [= <-].
  assert (alter (λ c, if decide (c < 255) then S c else c) id (v_send_read_count v) =
          <[id := if decide (k < 255) then S k else k]> (v_send_read_count v)) as ->.
  { apply list_eq. intros j. destruct (decide (j = id)) as [->|].
    - rewrite list_lookup_alter_eq, Hk, list_lookup_insert_eq by (by eapply lookup_lt_Some). done.
    - by rewrite list_lookup_alter_ne, list_lookup_insert_ne. }
  rewrite !v_issue_if, v_issue_if_not. simpl.
  set (i1 := if decide (1 < _) then _ else []). set (i2 := if decide (_ ≠ _) then _ else []).
  set (i3 := if b then [] else _).
  exists (i1 ++ i2 ++ i3).
  assert (i1 = [] ↔ k = 0) as H1.
  { unfold i1. destruct (decide (k < 255)); case_decide; split; (done || lia). }
  assert (i2 = [] ↔ destination sl = thread er) as H2.
  { unfold i2. case_decide; split; try done. }
  assert (i3 = [] ↔ (Ok b : res bool) = Ok true) as H3 by (unfold i3; by destruct b).
  split; [by destruct collect; simpl; rewrite <-!app_assoc|].
  split; [by destruct collect|]. split; [destruct collect; [done|by rewrite app_nil_r]|].
  split; [by destruct collect|]. split; [by destruct collect|].
  rewrite <-H1, <-H2, <-H3. split; [|by intros (-> & -> & ->)].
  intros [-> [-> ->]%app_nil]%app_nil. done.
Qed.

(** A conditional report that also makes the cycle query unsafe. *)
Lemma v_unsafe_if_not (b : bool) v c m :
  (if b then v else v_unsafe (v_issue v c m)) =
  MkValidation (v_result v ++ (if b then [] else [MkIssue c m])) (v_valid_rf_edges v)
    (v_cycle_query_safe v && b) (v_receive_has_source v) (v_send_read_count v).
Proof.
  destruct b; unfold v_unsafe, v_issue; simpl; rewrite ?app_nil_r, ?andb_true_r, ?andb_false_r;
    by destruct v.
Qed.

Lemma if_nil {A} (b : bool) (x : A) : (if b then [] else [x]) = [] ↔ b = true.
Proof. by destruct b. Qed.

Lemma validate_entry_effect collect g v r s v' :
  tables_ok (events_ g) v → validate_entry collect g v (r, s) = Ok v' →
  ∃ issues, entry_effect collect (events_ g) (r, s) issues v v'.
Proof.
  intros Htab Hv'.
  destruct (events_ g !! r) as [er|] eqn:Er.
  2:{ destruct (validate_entry_invalid collect g v r s Htab (or_introl Er)) as (i & v1 & H1 & H2).
      rewrite H1 in Hv'. injection Hv' as <-. by exists i. }
  destruct Htab as [Hl1 Hl2]. apply lookup_lt_Some in Er as Hlt.
  destruct (rf_send s) as [id|] eqn:Es.
  - destruct (events_ g !! id) as [e|] eqn:Ee.
    2:{ destruct (validate_entry_invalid collect g v r s) as (i & v1 & H1 & H2); [done|eauto|].
        rewrite H1 in Hv'. injection Hv' as <-. by exists i. }
    apply lookup_lt_Some in Ee as Hlt'.
    destruct (lookup_lt_is_Some_2 (v_send_read_count v) id ltac:(lia)) as [k Hk].
    unfold validate_entry in Hv'. rewrite Es, !is_valid_event_id_lookup, Er, Ee in Hv'. simpl in Hv'.
    unfold v_mark_receive, ExecutionGraph.event in Hv'. rewrite vec_set_Ok in Hv' by lia.
    simpl in Hv'. rewrite Er, Ee in Hv'. simpl in Hv'.
    rewrite !v_unsafe_if_not in Hv'. simpl in Hv'. unfold entry_effect, entry_typed, entry_edge. simpl.
    rewrite Er, Es, Ee.
    destruct (as_receive er) as [rl|] eqn:Hrl.
    2:{ assert (is_receive er = false) as Hnr by (rewrite is_receive_as, Hrl; done).
        rewrite Hnr in *. injection Hv' as <-. simpl. eexists. split; [by rewrite <-app_assoc|].
        split; [split; simpl; by rewrite ?length_insert|]. split; [by rewrite andb_false_r|].
        split; [done|]. split; [by intros [? _]%app_nil|].
        intros [(er' & rl' & Her & Hrl' & _) _]. simpl in Her. congruence. }
    assert (is_receive er = true) as Hr by (apply is_receive_true; eauto). rewrite Hr in *.
    destruct (as_send e) as [sl|] eqn:Hsl.
    2:{ assert (is_send e = false) as Hns by (rewrite is_send_as, Hsl; done).
        rewrite Hns in *. injection Hv' as <-. simpl. eexists. split; [by rewrite <-app_assoc|].
        split; [split; simpl; by rewrite ?length_insert|]. split; [by rewrite !andb_false_r|].
        split; [done|]. split; [done|].
        intros [(er' & rl' & Her & Hrl' & Hsrc) _]. simpl in Hsrc. rewrite Es in Hsrc.
        destruct Hsrc as (e' & sl' & He' & Hsl' & _). congruence. }
    assert (is_send e = true) as Hse by (apply is_send_true; eauto). rewrite Hse in *.
    eapply validate_read_effect in Hv' as (issues & H1 & H2 & H3 & H4 & H5 & H6); [|done].
    simpl in *. exists issues. rewrite H1, app_nil_r. split; [by rewrite app_nil_r|].
    split; [split; rewrite ?H4, ?H5, ?length_insert, ?length_alter; done|].
    split; [by rewrite H2, !andb_true_r|]. split; [done|]. rewrite H6. split.
    + intros (-> & Hd & Ha). split; [|by intros ? [= <-]].
      exists er, rl. simpl. rewrite Es. split_and!; [done|done|]. by exists e, sl.
    + intros [(er' & rl' & Her & Hrl' & Hsrc) Hc]. simpl in *. rewrite Es in Hsrc.
      destruct Hsrc as (e' & sl' & He' & Hsl' & Hd & Ha). specialize (Hc id eq_refl). by simplify_eq.
  - unfold validate_entry in Hv'. rewrite Es, !is_valid_event_id_lookup, Er in Hv'. simpl in Hv'.
    unfold v_mark_receive, ExecutionGraph.event in Hv'. rewrite vec_set_Ok in Hv' by lia.
    simpl in Hv'. rewrite Er in Hv'. simpl in Hv'. rewrite v_unsafe_if_not in Hv'. simpl in Hv'.
    unfold entry_effect, entry_typed, entry_edge. simpl. rewrite Er, Es, andb_true_r.
    destruct (as_receive er) as [rl|] eqn:Hrl.
    2:{ assert (is_receive er = false) as Hnr by (rewrite is_receive_as, Hrl; done).
        rewrite Hnr in *. injection Hv' as <-. simpl. eexists. split; [done|].
        split; [split; simpl; by rewrite ?length_insert|]. split; [done|].
        split; [done|]. split; [done|].
        intros [(er' & rl' & Her & Hrl' & _) _]. simpl in Her. congruence. }
    assert (is_receive er = true) as Hr by (apply is_receive_true; eauto). rewrite Hr in *.
    exists (if negb (is_blocking rl) then []
            else [MkIssue BlockingReceiveReadsBottom
                    ("blocking receive event " +:+ pretty r +:+ " reads from bottom")]).
    rewrite if_nil, negb_true_iff. rewrite app_nil_r in Hv'. injection Hv' as <-.
    assert ((∃ er0 rl0, Some er = Some er0 ∧ as_receive er0 = Some rl0 ∧
      is_blocking rl0 = false) ↔ is_blocking rl = false) as Hb
      by (split; [intros (? & ? & ? & ? & ?); by simplify_eq|eauto]).
    unfold entry_ok. simpl. rewrite Er, Es, Hb.
    split; [by destruct (is_blocking rl); simpl; rewrite ?app_nil_r|].
    split; [destruct (is_blocking rl); split; simpl; by rewrite ?length_insert|].
    split; [by destruct (is_blocking rl)|].
    split; [intros _; destruct (is_blocking rl); simpl; by destruct collect; rewrite app_nil_r|].
    split; [by intros H; split|by intros [? _]].
Qed.

End entries.

(** ** The validation pass *)

Section validation.
Context {V : Type}.
Implicit Types (g : ExecutionGraph V) (es : list (Event V)) (v : Validation)
  (l : list (EventId * ReadsFromSource)).

Definition all_typed es l : Prop := ∀ entry, entry ∈ l → entry_typed es entry = true.

(** The state after the entries of [l]. *)
Record validated (collect : bool) es l v : Prop := {
  vd_tables : tables_ok es v;
  vd_safe : v_cycle_query_safe v = true ↔ all_typed es l;
  vd_edges : all_typed es l →
    v_valid_rf_edges v = if collect then mjoin (entry_edge <$> l) else [];
  vd_sources : all_typed es l →
    ∀ x, v_receive_has_source v !! x = Some true ↔ ∃ s, (x, s) ∈ l;
  vd_counts : all_typed es l →
    ∀ id, id < length es → v_send_read_count v !! id = Some (255 `min` reads_of l id);
  vd_result : v_result v = [] ↔
    (∀ entry, entry ∈ l → entry_ok es entry) ∧ ∀ id, reads_of l id ≤ 1;
}.

Lemma validated_init collect es :
  validated collect es [] (MkValidation [] [] true (replicate (length es) false)
    (replicate (length es) 0)).
Proof.
  split; simpl.
  - split; apply length_replicate.
  - split; [|done]. intros _ entry. set_solver.
  - by destruct collect.
  - intros _ x. rewrite lookup_replicate. set_solver.
  - intros _ id Hid. by rewrite lookup_replicate_2.
  - split; [|done]. intros _. split; [set_solver|]. intros id. unfold reads_of. simpl. lia.
Qed.

Lemma all_typed_snoc es l entry :
  all_typed es (l ++ [entry]) ↔ all_typed es l ∧ entry_typed es entry = true.
Proof.
  unfold all_typed. split.
  - intros H. split; [intros e He; apply H; set_solver|apply H; set_solver].
  - intros [H1 H2] e [He| ->%list_elem_of_singleton]%elem_of_app; auto.
Qed.

Lemma entry_typed_source es r s id :
  entry_typed es (r, s) = true → rf_send s = Some id → id < length es.
Proof.
  unfold entry_typed. simpl. intros [_ H]%andb_true_iff Hs. rewrite Hs in H.
  destruct (es !! id) eqn:E; [|done]. by eapply lookup_lt_Some.
Qed.

Lemma entry_typed_receive es r s : entry_typed es (r, s) = true → r < length es.
Proof.
  unfold entry_typed. simpl. intros [H _]%andb_true_iff. destruct (es !! r) eqn:E; [|done].
  by eapply lookup_lt_Some.
Qed.

Lemma validated_step collect es l entry issues v v' :
  validated collect es l v → entry_effect collect es entry issues v v' →
  validated collect es (l ++ [entry]) v'.
Proof.
  intros [Htab Hsafe Hedges Hsrc Hcnt Hres] (Er & Ht & Es & Efields & Eissues).
  destruct entry as [r s]. split; [done|..].
  - rewrite Es, andb_true_iff, Hsafe, all_typed_snoc. done.
  - intros [Hl Hty]%all_typed_snoc. destruct (Efields Hty) as (-> & _ & _).
    rewrite Hedges by done. rewrite fmap_app, mjoin_app_l. simpl. rewrite app_nil_r.
    by destruct collect.
  - intros [Hl Hty]%all_typed_snoc x. destruct (Efields Hty) as (_ & -> & _). simpl.
    specialize (Hsrc Hl x). apply entry_typed_receive in Hty.
    destruct (decide (x = r)) as [->|Hne].
    + rewrite list_lookup_insert_eq by (destruct Htab; lia). split; [|done].
      intros _. exists s. set_solver.
    + rewrite list_lookup_insert_ne, Hsrc by done. apply exist_proper. intros s'. set_solver.
  - intros [Hl Hty]%all_typed_snoc id Hid. destruct (Efields Hty) as (_ & _ & ->).
    rewrite reads_of_snoc. cbn [fst snd]. specialize (Hcnt Hl id Hid). destruct (rf_send s) as [id'|].
    + destruct (decide (Some id' = Some id)) as [[= ->]|Hne].
      * rewrite list_lookup_alter_eq, Hcnt. unfold fmap, option_fmap, option_map. f_equal.
        destruct (decide (255 `min` reads_of l id < 255)); lia.
      * rewrite list_lookup_alter_ne by congruence. rewrite Hcnt. f_equal. lia.
    + rewrite Hcnt. f_equal. rewrite decide_False by done. lia.
  - rewrite Er. split.
    + intros [Hnil ->]%app_nil. apply Hres in Hnil as [Hoks Hones].
      destruct Eissues as [Eok _]. destruct (Eok eq_refl) as [Hok Hzero]. split.
      * intros e [He| ->%list_elem_of_singleton]%elem_of_app; auto.
      * intros id. rewrite reads_of_snoc. simpl. case_decide as Eid; [|specialize (Hones id); lia].
        specialize (Hzero id Eid). apply entry_ok_typed in Hok as Hty.
        rewrite (Hcnt (λ e He, entry_ok_typed _ _ (Hoks e He)) id) in Hzero
          by (by eapply entry_typed_source).
        specialize (Hones id). apply (inj Some) in Hzero. lia.
    + intros [Hoks Hones].
      assert (∀ e, e ∈ l → entry_ok es e) as Hoks' by (intros e He; apply Hoks; set_solver).
      assert (∀ id, reads_of l id ≤ 1) as Hones'
        by (intros id; specialize (Hones id); rewrite reads_of_snoc in Hones; lia).
      assert (v_result v = []) as -> by (by apply Hres).
      assert (issues = []) as ->; [|done]. apply Eissues.
      assert (entry_ok es (r, s)) as Hok by (apply Hoks; set_solver). split; [done|].
      intros id Hid. rewrite (Hcnt (λ e He, entry_ok_typed _ _ (Hoks' e He)) id)
        by (eapply entry_typed_source; [by apply entry_ok_typed|done]).
      specialize (Hones id). rewrite reads_of_snoc, decide_True in Hones by done.
      f_equal. lia.
Qed.

Lemma validate_entries_spec collect g v :
  foldM (validate_entry collect g) (MkValidation [] [] true
      (replicate (length (events_ g)) false) (replicate (length (events_ g)) 0))
    (rf_to_list (reads_from_ g)) = Ok v →
  validated collect (events_ g) (rf_to_list (reads_from_ g)) v.
Proof.
  intros Hf. apply (foldM_Ok_inv (E := exn) _ (validated collect (events_ g)) _ _ _ Hf).
  - apply validated_init.
  - intros l1 [r s] l2 v1 v2 _ Hv1 Hstep.
    destruct (validate_entry_effect collect g v1 r s v2 (vd_tables _ _ _ _ Hv1) Hstep)
      as (issues & Heff). by eapply validated_step.
Qed.

(** *** Receives without a source *)

Definition source_missing es (has_source : list bool) (tolerance : EventId → bool) (id : EventId)
    : bool :=
  match es !! id with
  | Some e => is_receive e && negb (default false (has_source !! id)) && negb (tolerance id)
  | None => false
  end.

Lemma validate_missing_spec g tolerance v v' ids :
  length (v_receive_has_source v) = length (events_ g) →
  foldM (validate_missing g tolerance) v ids = Ok v' →
  ∃ issues, v' = MkValidation (v_result v ++ issues) (v_valid_rf_edges v) (v_cycle_query_safe v)
                   (v_receive_has_source v) (v_send_read_count v) ∧
    (issues = [] ↔ ∀ id, id ∈ ids →
       source_missing (events_ g) (v_receive_has_source v) tolerance id = false).
Proof.
  intros Hlen. revert v Hlen. induction ids as [|id ids IH]; intros v Hlen Hf; simpl in Hf.
  { injection Hf as <-. exists []. rewrite app_nil_r. split; [by destruct v|]. set_solver. }
  apply bind_Ok_inv in Hf as (v1 & Hstep & Hf). unfold validate_missing in Hstep.
  unfold ExecutionGraph.event in Hstep.
  destruct (events_ g !! id) as [e|] eqn:Ee; [|done]. simpl in Hstep.
  destruct (lookup_lt_is_Some_2 (v_receive_has_source v) id) as [h Hh];
    [rewrite Hlen; by eapply lookup_lt_Some|].
  rewrite (vec_get_Ok _ _ _ Hh) in Hstep. simpl in Hstep. rewrite v_issue_if_not in Hstep.
  injection Hstep as <-. apply IH in Hf as (issues & -> & Hiss); [|done]. simpl in *.
  eexists. split; [by rewrite <-app_assoc|]. rewrite app_nil, if_nil, Hiss.
  assert (source_missing (events_ g) (v_receive_has_source v) tolerance id =
          negb (negb (is_receive e) || h || tolerance id)) as Hm.
  { unfold source_missing. rewrite Ee, Hh. simpl.
    by destruct (is_receive e), h, (tolerance id). }
  split.
  - intros [H1 H2] x [->|Hx]%elem_of_cons; [by rewrite Hm, H1|auto].
  - intros H. split; [|intros x Hx; apply H; set_solver].
    specialize (H id ltac:(set_solver)). rewrite Hm in H. by destruct (_ || _).
Qed.

End validation.

(** ** Collecting edges does not change the verdict *)

Section collect.
Context {V : Type}.
Implicit Types (g : ExecutionGraph V) (v : Validation).

(** The validation state without the collected edges. *)
Definition strip v : Validation :=
  MkValidation (v_result v) [] (v_cycle_query_safe v) (v_receive_has_source v)
    (v_send_read_count v).

Lemma fmap_bind_res {A B C} (f : B → C) (r : res A) (k : A → res B) :
  f <$> (r ≫= k) = (r ≫= λ a, f <$> k a).
Proof. by destruct r. Qed.

Lemma strip_if (b : bool) v w : strip (if b then v else w) = if b then strip v else strip w.
Proof. by destruct b. Qed.

Lemma strip_validate_read collect v r id (er : Event V) rl sl :
  strip <$> validate_read collect v r id er rl sl = validate_read false (strip v) r id er rl sl.
Proof.
  unfold validate_read, v_count_read. change (v_send_read_count (strip v)) with (v_send_read_count v).
  destruct (vec_get (v_send_read_count v) id) as [c|]; [|reflexivity]. cbn -[v_issue].
  destruct (vec_set (v_send_read_count v) id _) as [counts|]; [|reflexivity]. cbn -[v_issue].
  destruct (accepts rl (value sl)) as [b|]; [|reflexivity].
  destruct (decide (1 < _)), (decide (_ ≠ _)), b, collect; reflexivity.
Qed.

Lemma strip_validate_entry collect g v entry :
  strip <$> validate_entry collect g v entry = validate_entry false g (strip v) entry.
Proof.
  destruct entry as [r s]. unfold validate_entry.
  set (sv := match rf_send s with Some id => is_valid_event_id g id | None => true end).
  assert (∀ c m w, strip (v_unsafe (v_issue w c m)) = v_unsafe (v_issue (strip w) c m)) as Hui
    by reflexivity.
  assert (∀ w, strip <$> v_mark_receive w r = v_mark_receive (strip w) r) as Hmark.
  { intros w. unfold v_mark_receive. simpl. by destruct (vec_set _ _ _). }
  rewrite <-(Hui InvalidEventReference), <-strip_if, <-(Hui InvalidEventReference), <-strip_if.
  set (v2 := if sv then _ else _). destruct (negb (is_valid_event_id g r && sv)); [reflexivity|].
  rewrite <-Hmark. destruct (v_mark_receive v2 r) as [v3|]; [|reflexivity].
  cbn -[v_issue v_unsafe strip].
  destruct (ExecutionGraph.event g r) as [er|]; [|reflexivity]. cbn -[v_issue v_unsafe strip].
  rewrite <-(Hui ReadsFromTargetNotReceive), <-strip_if.
  set (v4 := if is_receive er then _ else _).
  destruct (rf_send s) as [id|]; cbn -[v_issue v_unsafe strip].
  - destruct (ExecutionGraph.event g id) as [e|]; [|reflexivity]. cbn -[v_issue v_unsafe strip].
    rewrite <-(Hui ReadsFromSourceNotSend), <-strip_if.
    destruct (as_receive er); [|reflexivity]. destruct (as_send e); [|reflexivity].
    apply strip_validate_read.
  - destruct (as_receive er) as [rl|]; [|reflexivity]. by destruct (is_blocking rl).
Qed.

Lemma strip_validate_missing g tolerance v id :
  strip <$> validate_missing g tolerance v id = validate_missing g tolerance (strip v) id.
Proof.
  unfold validate_missing. destruct (ExecutionGraph.event g id) as [e|]; [|reflexivity].
  cbn -[v_issue strip]. change (v_receive_has_source (strip v)) with (v_receive_has_source v).
  destruct (vec_get _ _) as [h|]; [|reflexivity]. cbn -[v_issue strip].
  by destruct (negb (is_receive e) || h || tolerance id).
Qed.

Lemma strip_foldM {A} (f f' : Validation → A → res Validation) l v :
  (∀ v a, strip <$> f v a = f' (strip v) a) → strip <$> foldM f v l = foldM f' (strip v) l.
Proof.
  intros Hf. revert v. induction l as [|a l IH]; intros v; [reflexivity|]. simpl.
  rewrite fmap_bind_res, <-Hf. destruct (f v a) as [v1|]; [|reflexivity]. apply IH.
Qed.

Lemma validate_graph_strip collect g tolerance :
  strip <$> validate_graph collect g tolerance = validate_graph false g tolerance.
Proof.
  unfold validate_graph. rewrite fmap_bind_res.
  set (v0 := MkValidation _ _ _ _ _).
  rewrite <-(strip_foldM (validate_entry collect g) (validate_entry false g) _ v0
    (strip_validate_entry collect g)).
  destruct (foldM (validate_entry collect g) v0 _) as [v1|]; [|reflexivity].
  apply strip_foldM, strip_validate_missing.
Qed.

End collect.

(** ** The meaning of a validated graph *)

Section meaning.
Context {V : Type}.
Implicit Types (g : ExecutionGraph V) (es : list (Event V)) (rf : ReadsFromRelation).

(** A reads-from relation the asynchronous semantics allows, up to acyclicity. *)
Record rf_consistent es rf (tolerance : EventId → bool) : Prop := {
  rc_entries : ∀ r s, rf_find rf r = Some s → entry_ok es (r, s);
  rc_once : ∀ id r r', rf_edge rf id r → rf_edge rf id r' → r = r';
  rc_total : ∀ id e, es !! id = Some e → is_receive e = true → tolerance id = false →
    is_Some (rf_find rf id);
}.

Lemma rf_typed_entries es rf : rf_typed es rf ↔ all_typed es (rf_to_list rf).
Proof.
  unfold rf_typed, all_typed, entry_typed. split.
  - intros H [r s] (Hr & Hs)%rf_to_list_elem%H. simpl. destruct Hr as (e & -> & ->). simpl.
    destruct (rf_send s) as [id|]; [|done]. by destruct (Hs id eq_refl) as (e' & -> & ->).
  - intros H r s Hrs%rf_to_list_elem%H. simpl in Hrs. apply andb_true_iff in Hrs as [H1 H2]. split.
    + destruct (es !! r) as [e|]; [by exists e|done].
    + intros id Hid. rewrite Hid in H2. destruct (es !! id) as [e|]; [by exists e|done].
Qed.

Lemma rf_edge_list_join rf : rf_edge_list rf = mjoin (entry_edge <$> rf_to_list rf).
Proof.
  unfold rf_edge_list. induction (rf_to_list rf) as [|[r s] l IH]; [done|].
  rewrite fmap_cons. change (mjoin (entry_edge (r, s) :: (entry_edge <$> l))) with
    (entry_edge (r, s) ++ mjoin (entry_edge <$> l)).
  rewrite <-IH. unfold entry_edge. simpl. by destruct (rf_send s).
Qed.

Lemma NoDup_fst_filter {A B} (p : A * B → bool) (l : list (A * B)) :
  NoDup (fst <$> l) → NoDup (fst <$> List.filter p l).
Proof.
  induction l as [|x l IH]; simpl; [done|]. intros [Hn Hnd]%NoDup_cons.
  destruct (p x); simpl; [|by apply IH]. constructor; [|by apply IH].
  intros (y & Hy & Hin)%list_elem_of_fmap. apply Hn. rewrite Hy. apply list_elem_of_fmap_2.
  apply list_elem_of_In, filter_In in Hin as [Hin _]. by apply list_elem_of_In.
Qed.

(** At most one entry reads from [id] iff any two entries that do are for one receive. *)
Lemma reads_of_once rf id :
  reads_of (rf_to_list rf) id ≤ 1 ↔ ∀ r r', rf_edge rf id r → rf_edge rf id r' → r = r'.
Proof.
  unfold reads_of. set (p := λ entry : EventId * ReadsFromSource, _).
  assert (∀ r, rf_edge rf id r ↔ ∃ s, (r, s) ∈ List.filter p (rf_to_list rf)) as Hedge.
  { intros r. unfold rf_edge. apply exist_proper. intros s.
    rewrite list_elem_of_In, filter_In, <-list_elem_of_In, rf_to_list_elem. unfold p.
    by rewrite bool_decide_eq_true. }
  assert (NoDup (fst <$> List.filter p (rf_to_list rf))) as Hnd.
  { apply NoDup_fst_filter, rf_to_list_nodup. }
  setoid_rewrite Hedge. destruct (List.filter p (rf_to_list rf)) as [|[a s] [|[b s'] rest]].
  - split; [|simpl; lia]. intros _ r r' (s & Hs). set_solver.
  - split; [|simpl; lia]. intros _ r r' (x & Hx) (y & Hy). set_solver.
  - simpl. split; [lia|]. intros H. exfalso.
    assert (a = b) as -> by (apply H; [exists s|exists s']; set_solver).
    simpl in Hnd. apply NoDup_cons in Hnd as [Hn _]. set_solver.
Qed.

Lemma validate_graph_spec collect g tolerance v :
  validate_graph collect g tolerance = Ok v →
  (v_cycle_query_safe v = true ↔ rf_typed (events_ g) (reads_from_ g)) ∧
  (rf_typed (events_ g) (reads_from_ g) →
     v_valid_rf_edges v = if collect then rf_edge_list (reads_from_ g) else []) ∧
  (v_result v = [] ↔ rf_consistent (events_ g) (reads_from_ g) tolerance).
Proof.
  unfold validate_graph. intros (v1 & Hent & Hmiss)%bind_Ok_inv.
  apply validate_entries_spec in Hent as [Htab Hsafe Hedges Hsrc Hcnt Hres].
  apply validate_missing_spec in Hmiss as (issues & -> & Hiss); [|apply Htab]. simpl.
  rewrite rf_typed_entries, rf_edge_list_join. split_and!; [done|done|].
  rewrite app_nil, Hres, Hiss. split.
  - intros [[Hok Hone] Hall]. split.
    + intros r s Hr%rf_to_list_elem. auto.
    + intros id. by apply reads_of_once.
    + intros id e He Hr Htol.
      assert (source_missing (events_ g) (v_receive_has_source v1) tolerance id = false) as Hm.
      { apply Hall, elem_of_seq. apply lookup_lt_Some in He. lia. }
      unfold source_missing in Hm. rewrite He, Hr, Htol in Hm.
      destruct (v_receive_has_source v1 !! id) as [[]|] eqn:Eh; [|done..].
      apply (Hsrc (λ e He, entry_ok_typed _ _ (Hok e He))) in Eh as [s Hs%rf_to_list_elem].
      by exists s.
  - intros [Hok Hone Htot].
    assert (∀ entry, entry ∈ rf_to_list (reads_from_ g) → entry_ok (events_ g) entry) as Hok'
      by (intros [r s] Hrs%rf_to_list_elem; auto).
    split; [split; [done|intros id; by apply reads_of_once, Hone]|].
    intros id Hid%elem_of_seq. unfold source_missing.
    destruct (events_ g !! id) as [e|] eqn:Ee; [|done]. destruct (is_receive e) eqn:Er; [|done].
    destruct (tolerance id) eqn:Et; [by rewrite andb_false_r|].
    destruct (Htot id e Ee Er Et) as [s Hs%rf_to_list_elem].
    assert (v_receive_has_source v1 !! id = Some true) as ->; [|done].
    apply (Hsrc (λ e He, entry_ok_typed _ _ (Hok' e He))). by exists s.
Qed.

End meaning.
