(* ===== verification/CheckerFacts.v ===== *)
(** * CheckerFacts: the two consistency checkers

    The execution-graph checker finds no issue exactly when the reads-from relation is
    well formed and causally acyclic.  The exploration-graph checker takes shortcuts
    (known-acyclic flag, cached clocks, Kahn's algorithm) and still returns the same
    issues, in the same order, and the same exceptions. *)

From stdpp Require Import base tactics numbers sets relations list strings.
From S2P Require Import Prelude Errors Event Relation RelationFacts ExplorationGraph Porf.
From S2P Require Import ExecutionGraph StorageFacts ExecutionGraphFacts ExplorationFacts.
From S2P Require Import PorfFacts PorfClocks DerivedOrder Consistency CycleSearch.
From S2P Require Import ConsistencyFacts.

Section async.
Context {V : Type}.
Implicit Types (x : ExecutionGraph V) (g : ExplorationGraph V) (tolerance : EventId → bool).

(** The depth-first test on the derived program order and the validated edges. *)
Lemma dfs_check_Ok x edges :
  graph_wf x →
  ∃ po_rel b, po_relation x = Ok po_rel ∧
    Consistency.has_causal_cycle po_rel edges (length (events_ x)) = Ok b ∧
    (rf_typed (events_ x) (reads_from_ x) → edges = rf_edge_list (reads_from_ x) →
       b = false ↔ acyclic (porf (events_ x) (reads_from_ x))).
Proof.
  intros Hwf. destruct (po_relation_Ok x Hwf) as (r & Hr & Hrwf & Hn & Hedge).
  destruct (has_causal_cycle_ok r edges Hrwf) as (b & Hb & Hac). exists r, b.
  rewrite <-Hn. split_and!; [done|done|]. intros Hty ->. rewrite Hac.
  assert (∀ a c, porf (events_ x) (reads_from_ x) a c ↔ edge r a c ∨
    ((a, c) ∈ rf_edge_list (reads_from_ x) ∧ a < node_count r ∧ c < node_count r)) as Heq.
  { intros a c. rewrite Hedge, rf_edge_list_elem. unfold porf. split; [|tauto].
    intros [?|He]; [by left|]. right. split; [done|]. destruct He as (s & Hc & Hs).
    destruct (Hty c s Hc) as [(e & He & _) Hsrc]. destruct (Hsrc a Hs) as (e' & He' & _).
    apply lookup_lt_Some in He, He'. rewrite Hn. done. }
  split; apply acyclic_sub; intros a c Hac'; by apply Heq.
Qed.

Lemma check_async_execution_graph_spec x tolerance r :
  graph_wf x → check_async_execution_graph x tolerance = Ok r →
  r = [] ↔ rf_consistent (events_ x) (reads_from_ x) tolerance ∧
           acyclic (porf (events_ x) (reads_from_ x)).
Proof.
  intros Hwf. unfold check_async_execution_graph. intros (v & Hv & Hr)%bind_Ok_inv.
  destruct (validate_graph_spec true x tolerance v Hv) as (_ & Hedges & Hres).
  destruct (dfs_check_Ok x (v_valid_rf_edges v) Hwf) as (po_rel & b & Hpo & Hb & Hac).
  rewrite Hpo in Hr. simpl in Hr. rewrite Hb in Hr. simpl in Hr. injection Hr as <-.
  rewrite <-Hres. split.
  - intros Hnil. destruct b; [by destruct (v_result v)|]. split; [done|].
    apply Hres in Hnil as [Hent _ _].
    assert (rf_typed (events_ x) (reads_from_ x)) as Hty.
    { apply rf_typed_entries. intros [? ?] ?%rf_to_list_elem. by apply entry_ok_typed, Hent. }
    apply Hac; auto.
  - intros [Hnil Hacy]. rewrite Hnil. apply Hres in Hnil as [Hent _ _].
    assert (rf_typed (events_ x) (reads_from_ x)) as Hty.
    { apply rf_typed_entries. intros [? ?] ?%rf_to_list_elem. by apply entry_ok_typed, Hent. }
    destruct b; [|done]. exfalso. destruct (Hac Hty (Hedges Hty)) as [_ H]. by specialize (H Hacy).
Qed.

(** The exploration-graph checker returns the execution-graph checker's issues. *)
Lemma check_async_exploration_graph_agrees g tolerance :
  Inv g → cache_ok g →
  fst <$> check_async_exploration_graph g tolerance =
    check_async_execution_graph (graph_ g) tolerance.
Proof.
  intros [Hcore _ [Hknown _]] Hcache. unfold check_async_exploration_graph.
  pose proof (core_graph _ Hcore) as Hwf.
  pose proof (validate_graph_strip true (graph_ g) tolerance) as Hstrip.
  destruct (validate_graph false (graph_ g) tolerance) as [vf|e] eqn:Ef.
  2:{ unfold check_async_execution_graph. destruct (validate_graph true (graph_ g) tolerance);
      [done|]. simpl in *. by injection Hstrip as ->. }
  destruct (validate_graph true (graph_ g) tolerance) as [vt|] eqn:Et; [|done].
  simpl in Hstrip. injection Hstrip as Hstrip. cbn [mbind result_bind].
  assert (v_result vf = v_result vt) as Hres by (by rewrite <-Hstrip).
  destruct (validate_graph_spec true (graph_ g) tolerance vt Et) as (_ & Hedges & _).
  destruct (validate_graph_spec false (graph_ g) tolerance vf Ef) as (Hsafe & _ & _).
  destruct (v_cycle_query_safe vf) eqn:Es; simpl.
  2:{ by destruct (check_async_execution_graph (graph_ g) tolerance). }
  assert (rf_typed (events g) (reads_from g)) as Hty by (by apply Hsafe).
  destruct (dfs_check_Ok (graph_ g) (v_valid_rf_edges vt) Hwf) as (po_rel & b & Hpo & Hb & Hac).
  specialize (Hac Hty (Hedges Hty)).
  unfold check_async_execution_graph. rewrite Et. simpl. rewrite Hpo. simpl. rewrite Hb. simpl.
  assert (∃ c g1, (if is_known_acyclic g then Ok (false, g)
      else if has_porf_cache g then Porf.has_causal_cycle g
      else c ← has_causal_cycle_without_cache g; Ok (c, g)) = (Ok (c, g1) : res _) ∧
    (c = false ↔ acyclic (porf (events g) (reads_from g)))) as (c & g1 & -> & Hc).
  { unfold is_known_acyclic. destruct (known_acyclic_ g).
    - exists false, g. split; [done|]. split; auto.
    - destruct (has_porf_cache g).
      + destruct (has_causal_cycle_Ok g Hcore Hcache Hty) as (b' & c & -> & _ & Hb'). eauto.
      + destruct (has_causal_cycle_without_cache_Ok g Hcore Hty) as (b' & -> & Hb'). eauto. }
  simpl. rewrite Hres. assert (b = c) as ->; [|by destruct c].
  destruct b, c; try done; exfalso.
  - assert (acyclic (porf (events g) (reads_from g))) as H%Hac by (by apply Hc). done.
  - assert (acyclic (porf (events g) (reads_from g))) as H%Hc by (by apply Hac). done.
Qed.

(** What the check may change: the cache is filled, and a clean graph is marked acyclic. *)
Lemma check_async_exploration_graph_graph g tolerance r g' :
  Inv g → cache_ok g → check_async_exploration_graph g tolerance = Ok (r, g') →
  Inv g' ∧ cache_ok g' ∧ graph_ g' = graph_ g ∧ event_undo_log_ g' = event_undo_log_ g ∧
  rf_undo_log_ g' = rf_undo_log_ g ∧
  (known_acyclic_ g = true → known_acyclic_ g' = true) ∧ (r = [] → known_acyclic_ g' = true).
Proof.
  intros Hinv Hcache Hcheck.
  pose proof (check_async_exploration_graph_agrees g tolerance Hinv Hcache) as Hagree.
  rewrite Hcheck in Hagree. simpl in Hagree. symmetry in Hagree.
  destruct Hinv as [Hcore Helog Hflags].
  apply (check_async_execution_graph_spec (graph_ g) tolerance r (core_graph _ Hcore)) in Hagree as Hnil.
  unfold check_async_exploration_graph in Hcheck.
  apply bind_Ok_inv in Hcheck as (v & Hv & Hcheck).
  destruct (validate_graph_spec false (graph_ g) tolerance v Hv) as (Hsafe & _ & _).
  assert (∀ k p c, (k = true → acyclic (porf (events g) (reads_from g))) →
    (∀ id, p = Some id → pending_fresh_receive_id_ g = p) →
    Inv (set_acyclicity (set_cache g c) k p)) as Hset.
  { intros k p c Hk Hp. split; [by apply (core_ext g)|done|]. split; [done|].
    simpl. intros id Hid. apply (fl_pending _ Hflags). by rewrite (Hp id Hid), Hid. }
  destruct (v_cycle_query_safe v); simpl in Hcheck.
  2:{ apply bind_Ok_inv in Hcheck as (r' & Hr' & [= <- <-]). split_and!; try done.
      intros ->. rewrite Hr' in Hagree. destruct Hnil as [Hn _]. destruct (Hn eq_refl) as [[Hent _ _] _].
      assert (false = true); [|done]. apply Hsafe, rf_typed_entries.
      intros [? ?] ?%rf_to_list_elem. by apply entry_ok_typed, Hent. }
  assert (rf_typed (events g) (reads_from g)) as Hty by (by apply Hsafe).
  apply bind_Ok_inv in Hcheck as ([c g1] & Hcyc & Hcheck).
  assert (∃ c', g1 = set_cache g c' ∧ cache_ok g1) as (c' & -> & Hcache1).
  { destruct (is_known_acyclic g).
    - injection Hcyc as _ <-. exists (porf_cache_ g). by destruct g.
    - destruct (has_porf_cache g).
      + destruct (has_causal_cycle_Ok g Hcore Hcache Hty) as (b' & c' & Hcc & Hbuild & _).
        rewrite Hcc in Hcyc. injection Hcyc as _ <-. exists (Some c'). split; [done|].
        by apply set_cache_ok.
      + apply bind_Ok_inv in Hcyc as (b & _ & [= _ <-]). exists (porf_cache_ g). by destruct g. }
  assert (Inv (set_cache g c')) as Hinv1.
  { pose proof (Hset (known_acyclic_ g) (pending_fresh_receive_id_ g) c' (fl_acyclic _ Hflags)
      ltac:(intros; congruence)) as H. by destruct g. }
  destruct c; [injection Hcheck as <- <-; split_and!; try done; by destruct (v_result v)|].
  injection Hcheck as <- <-. destruct (is_consistent (v_result v)) eqn:Ec.
  - split_and!; try done. apply Hset; [|done]. intros _. apply Hnil.
    by destruct (v_result v).
  - split_and!; try done. by destruct (v_result v).
Qed.

End async.
