(* ===== verification/FifoFacts.v ===== *)
(** * FifoFacts: the FIFO point-to-point clauses

    Sends are grouped by channel, and the two clauses look for a receive that
    overtakes an earlier send of its channel.  On a graph that passed the asynchronous
    checks, no clause reports anything exactly when every receive reads its channel in
    order ([fifo_ok]). *)

From stdpp Require Import base tactics numbers pretty sets relations list strings.
From S2P Require Import Prelude Errors Event Relation RelationFacts ExplorationGraph Porf.
From S2P Require Import ExecutionGraph StorageFacts ExecutionGraphFacts ExplorationFacts.
From S2P Require Import PorfFacts PorfClocks DerivedOrder Consistency CycleSearch.
From S2P Require Import ConsistencyFacts CheckerFacts.

(** ** Channels as a sorted map *)

Section channels.
Implicit Types (k key : Channel) (groups : list (Channel * list EventId)).

Lemma channel_lt_spec k key :
  channel_lt k key = true ↔ (k.1 < key.1 ∨ (k.1 = key.1 ∧ k.2 < key.2))%N.
Proof. unfold channel_lt. rewrite orb_true_iff, andb_true_iff, !N.ltb_lt, N.eqb_eq. done. Qed.

Lemma channel_lt_trans k1 k2 k3 :
  channel_lt k1 k2 = true → channel_lt k2 k3 = true → channel_lt k1 k3 = true.
Proof. rewrite !channel_lt_spec. lia. Qed.

Lemma channel_lt_irrefl k : channel_lt k k = false.
Proof. apply not_true_iff_false. rewrite channel_lt_spec. lia. Qed.

Lemma channel_lt_total k key : k ≠ key → channel_lt key k = false → channel_lt k key = true.
Proof.
  destruct k as [a b], key as [c d]. intros Hne. rewrite <-not_true_iff_false, !channel_lt_spec.
  simpl. intros H. destruct (decide (a = c)) as [->|]; [|lia].
  destruct (decide (b = d)) as [->|]; [done|lia].
Qed.

(** The keys of a [std::map] are strictly ascending. *)
Fixpoint channels_sorted groups : Prop :=
  match groups with
  | [] => True
  | (k, _) :: rest => (∀ k' ids, (k', ids) ∈ rest → channel_lt k k' = true) ∧ channels_sorted rest
  end.

Lemma channel_push_sorted groups key id :
  channels_sorted groups →
  channels_sorted (channel_push groups key id) ∧
  ∀ k ids, (k, ids) ∈ channel_push groups key id ↔
    (k ≠ key ∧ (k, ids) ∈ groups) ∨
    (k = key ∧ (∀ ids', (key, ids') ∉ groups) ∧ ids = [id]) ∨
    (k = key ∧ ∃ ids', (key, ids') ∈ groups ∧ ids = ids' ++ [id]).
Proof.
  induction groups as [|[k0 ids0] groups IH]; simpl.
  { intros _. split; [split; [set_solver|done]|]. intros k ids.
    rewrite list_elem_of_singleton. split.
    - intros [= -> ->]. right. left. set_solver.
    - intros [[_ ?]|[(-> & _ & ->)|(_ & ids' & ? & _)]]; [set_solver|done|set_solver]. }
  intros [Hlow Hs]. specialize (IH Hs) as [IHs IHe].
  assert (∀ ids, (k0, ids) ∉ groups) as Hk0.
  { intros ids Hin. specialize (Hlow k0 ids Hin). by rewrite channel_lt_irrefl in Hlow. }
  case_decide as Ek; [subst k0|]; simpl.
  - split; [done|]. intros k ids. rewrite !elem_of_cons. unfold push_back. split.
    + intros [[= -> ->]|Hin].
      * right. right. split; [done|]. exists ids0. set_solver.
      * left. split; [intros ->; by eapply Hk0|by right].
    + intros [[Hne [Heq|Hin]]|[(-> & Hno & ->)|(-> & ids' & [Heq|Hin]%elem_of_cons & ->)]].
      * congruence.
      * by right.
      * exfalso. apply (Hno ids0). set_solver.
      * left. congruence.
      * by apply Hk0 in Hin.
  - destruct (channel_lt key k0) eqn:Elt; simpl.
    + assert (∀ ids', (key, ids') ∉ (k0, ids0) :: groups) as Hno.
      { intros ids' [[= -> ->]|Hin]%elem_of_cons; [done|]. specialize (Hlow key ids' Hin).
        pose proof (channel_lt_trans _ _ _ Elt Hlow) as H. by rewrite channel_lt_irrefl in H. }
      split.
      * split; [|done]. intros k' ids [[= -> ->]|Hin]%elem_of_cons; [done|].
        eapply channel_lt_trans; [done|by eapply Hlow].
      * intros k ids. rewrite elem_of_cons. split.
        -- intros [[= -> ->]|Hin]; [right; left; done|].
           left. split; [intros ->; by eapply Hno|done].
        -- intros [[Hne Hin]|[(-> & _ & ->)|(-> & ids' & Hin & _)]]; [by right|by left|].
           by apply Hno in Hin.
    + split.
      * split; [|done]. intros k' ids [[_ Hin]|[(-> & _ & _)|(-> & ids' & Hin & _)]]%IHe.
        -- by eapply Hlow.
        -- by apply channel_lt_total.
        -- by eapply Hlow.
      * intros k ids. rewrite !elem_of_cons, IHe. split.
        -- intros [[= -> ->]|[[Hne Hin]|[(-> & Hno & ->)|(-> & ids' & Hin & ->)]]].
           ++ left. split; [done|by left].
           ++ left. split; [done|by right].
           ++ right. left. split_and!; [done| |done]. intros ids' [[= -> ->]|Hin]%elem_of_cons; [done|].
              by eapply Hno.
           ++ right. right. split; [done|]. exists ids'. set_solver.
        -- intros [[Hne [Heq|Hin]]|[(-> & Hno & ->)|(-> & ids' & [Heq|Hin]%elem_of_cons & ->)]].
           ++ by left.
           ++ right. by left.
           ++ right. right. left. split_and!; [done| |done]. intros ids' Hin. apply (Hno ids'). set_solver.
           ++ congruence.
           ++ right. right. right. split; [done|]. by exists ids'.
Qed.

End channels.

(** ** Grouping *)

Section grouping.
Context {V : Type}.
Implicit Types (x : ExecutionGraph V) (es : list (Event V)) (k : Channel).

Definition on_channel k (e : Event V) : bool :=
  bool_decide (thread e = k.1) &&
  match as_send e with Some s => bool_decide (destination s = k.2) | None => false end.

(** The sends of a channel, in program order. *)
Definition channel_ids es k : list EventId := ids_where (on_channel k) es.

Lemma on_channel_true k e :
  on_channel k e = true ↔ ∃ s, as_send e = Some s ∧ k = (thread e, destination s).
Proof.
  unfold on_channel. destruct k as [t d]. rewrite andb_true_iff, bool_decide_eq_true. simpl.
  destruct (as_send e) as [s|].
  - rewrite bool_decide_eq_true. split.
    + intros [<- <-]. eauto.
    + by intros (s' & [= <-] & [= -> ->]).
  - split; [by intros [_ ?]|]. by intros (s & ? & _).
Qed.

(** The groups of the sends of [es]. *)
Definition groups_of es (groups : list (Channel * list EventId)) : Prop :=
  channels_sorted groups ∧
  ∀ k ids, (k, ids) ∈ groups ↔ ids = channel_ids es k ∧ ids ≠ [].

Lemma groups_of_push es e s groups :
  groups_of es groups → as_send e = Some s →
  groups_of (es ++ [e]) (channel_push groups (thread e, destination s) (length es)).
Proof.
  intros [Hs Hg] Hse. set (key := (thread e, destination s)).
  destruct (channel_push_sorted groups key (length es) Hs) as [Hs' He].
  split; [done|]. intros k ids. rewrite He. unfold channel_ids. rewrite ids_where_snoc.
  destruct (on_channel k e) eqn:Ek.
  - apply on_channel_true in Ek as (s' & Hs'' & ->).
    assert (s' = s) as -> by congruence. fold key.
    setoid_rewrite Hg. fold (channel_ids es key). split.
    + intros [[? _]|[(_ & Hno & ->)|(_ & ids' & [-> _] & ->)]]; [done| |].
      * destruct (channel_ids es key) as [|a l] eqn:E; [done|].
        exfalso. apply (Hno (a :: l)). by rewrite ?E.
      * split; [done|]. by destruct (channel_ids es key).
    + intros [-> _]. right. destruct (channel_ids es key) as [|a l] eqn:E.
      * left. split_and!; [done| |done]. intros ids' [-> Hne]. by rewrite ?E in Hne.
      * right. split; [done|]. exists (a :: l). by rewrite ?E.
  - rewrite app_nil_r. fold (channel_ids es k). rewrite Hg.
    assert (k ≠ key) as Hne.
    { intros ->. apply not_true_iff_false in Ek. apply Ek, on_channel_true. by exists s. }
    split; [|by left]. intros [[_ ?]|[[? _]|[? _]]]; done.
Qed.

Lemma groups_of_skip es e groups :
  groups_of es groups → as_send e = None → groups_of (es ++ [e]) groups.
Proof.
  intros [Hs Hg] Hse. split; [done|]. intros k ids. rewrite Hg. unfold channel_ids.
  rewrite ids_where_snoc. unfold on_channel at 3. rewrite Hse, andb_false_r. by rewrite app_nil_r.
Qed.

Lemma group_fifo_sends_Ok x :
  ∃ groups, group_fifo_sends x = Ok groups ∧ groups_of (events_ x) groups.
Proof.
  unfold group_fifo_sends, send_event_ids.
  set (f := λ groups id, _).
  assert (∀ n, n ≤ length (events_ x) → ∃ groups,
    foldM f [] (ids_where is_send (take n (events_ x))) = Ok groups ∧
    groups_of (take n (events_ x)) groups) as H.
  { intros n. induction n as [|n IH]; intros Hn.
    - exists []. split; [done|]. split; [done|]. intros k ids.
      split; [set_solver|]. by intros [-> ?].
    - destruct IH as (groups & Hf & Hg); [lia|].
      destruct (lookup_lt_is_Some_2 (events_ x) n) as [e He]; [lia|].
      rewrite (take_S_r _ _ _ He), ids_where_snoc, foldM_app, Hf. simpl.
      rewrite length_take_le by lia. rewrite is_send_as.
      destruct (as_send e) as [s|] eqn:Es.
      + rewrite bool_decide_eq_true_2 by (by eexists). simpl. unfold f at 1.
        unfold ExecutionGraph.event. rewrite He. simpl. rewrite Es. eexists. split; [done|].
        pose proof (groups_of_push _ e s groups Hg Es) as H.
        by rewrite length_take_le in H by lia.
      + rewrite bool_decide_eq_false_2 by (intros [? ?]; done). simpl.
        exists groups. split; [done|]. by apply groups_of_skip. }
  specialize (H (length (events_ x)) ltac:(lia)). by rewrite firstn_all in H.
Qed.

(** Positions in a channel are program order. *)
Lemma channel_po es k i j a b :
  channel_ids es k !! i = Some a → channel_ids es k !! j = Some b → i < j → po es a b.
Proof.
  intros Ha Hb Hij. split; [by apply (ids_where_sorted _ _ _ _ _ _ Ha Hb)|].
  apply list_elem_of_lookup_2, ids_where_elem in Ha as (ea & Hea & Hka).
  apply list_elem_of_lookup_2, ids_where_elem in Hb as (eb & Heb & Hkb).
  apply on_channel_true in Hka as (sa & _ & ->). apply on_channel_true in Hkb as (sb & _ & Hk).
  exists ea, eb. by injection Hk.
Qed.

End grouping.

(** ** Consumers *)

Section consumers.
Context {V : Type}.
Implicit Types (x : ExecutionGraph V) (es : list (Event V)).

(** The consumer table of a graph: which receive reads each send. *)
Definition consumers_of (rf : ReadsFromRelation) (consumers : list (option EventId)) : Prop :=
  ∀ id o, consumers !! id = Some o → ∀ r, o = Some r ↔ rf_edge rf id r.

Lemma record_consumer_ok x consumers r s :
  entry_ok (events_ x) (r, s) → length consumers = length (events_ x) →
  record_consumer x consumers (r, s) =
    Ok (match rf_send s with Some id => <[id := Some r]> consumers | None => consumers end).
Proof.
  intros (er & rl & Her & Hrl & Hs) Hlen. simpl in *. destruct (rf_send s) as [id|]; [|done].
  destruct Hs as (e & sl & He & Hsl & Hd & Ha).
  rewrite !is_valid_event_id_lookup, Her, He. simpl.
  unfold ExecutionGraph.event. rewrite Her, He. simpl. rewrite Hrl, Hsl.
  rewrite decide_False by (intros H; by apply H). rewrite Ha. simpl.
  apply vec_set_Ok. rewrite Hlen. by eapply lookup_lt_Some.
Qed.

Lemma compute_send_consumers_Ok x tolerance :
  rf_consistent (events_ x) (reads_from_ x) tolerance →
  ∃ consumers, compute_send_consumers x = Ok consumers ∧
    length consumers = length (events_ x) ∧ consumers_of (reads_from_ x) consumers.
Proof.
  intros [Hent Honce _]. unfold compute_send_consumers.
  destruct (foldM_inv (E := exn) (record_consumer x)
    (λ l cs, length cs = length (events_ x) ∧
      ∀ id o, cs !! id = Some o → ∀ r, o = Some r ↔ ∃ s, (r, s) ∈ l ∧ rf_send s = Some id)
    (rf_to_list (reads_from_ x)) (replicate (length (events_ x)) None)) as (cs & Hf & Hlen & Hcs).
  - rewrite length_replicate. split; [done|]. intros id o [-> _]%lookup_replicate r. set_solver.
  - intros l1 [r s] l2 cs Hl [Hlen Hcs].
    assert (rf_find (reads_from_ x) r = Some s) as Hr by (apply rf_to_list_elem; rewrite Hl; set_solver).
    rewrite record_consumer_ok by auto. eexists. split; [done|].
    destruct (rf_send s) as [id|] eqn:Es.
    + rewrite length_insert. split; [done|]. intros id' o. destruct (decide (id' = id)) as [->|Hne].
      * intros Ho r'. rewrite list_lookup_insert_eq in Ho by (apply lookup_lt_Some in Ho;
          rewrite length_insert in Ho; done). injection Ho as <-. split.
        -- intros [= ->]. exists s. set_solver.
        -- intros (s' & Hin & Hs'). f_equal. apply (Honce id); [by exists s|]. exists s'.
           split; [|done]. apply rf_to_list_elem. rewrite Hl. set_solver.
      * rewrite list_lookup_insert_ne by done. intros Ho r'. rewrite (Hcs id' o Ho r').
        apply exist_proper. intros s'. rewrite elem_of_app, list_elem_of_singleton.
        split; [intros [? ?]; auto|]. intros [[?|[= -> ->]] ?]; [done|congruence].
    + split; [done|]. intros id' o Ho r'. rewrite (Hcs id' o Ho r').
      apply exist_proper. intros s'. rewrite elem_of_app, list_elem_of_singleton.
      split; [intros [? ?]; auto|]. intros [[?|[= -> ->]] ?]; [done|congruence].
  - exists cs. split_and!; [done|done|]. intros id o Ho r. rewrite (Hcs id o Ho r).
    unfold rf_edge. by setoid_rewrite rf_to_list_elem.
Qed.

End consumers.

(** ** The clauses *)

(** A loop that appends the issues of every element. *)
Lemma foldM_issues {A} (f : ConsistencyResult → A → res ConsistencyResult) (ok : A → Prop) l :
  (∀ a result, a ∈ l → ∃ issues, f result a = Ok (result ++ issues) ∧ (issues = [] ↔ ok a)) →
  ∀ result, ∃ issues, foldM f result l = Ok (result ++ issues) ∧
    (issues = [] ↔ ∀ a, a ∈ l → ok a).
Proof.
  induction l as [|a l IH]; intros Hf result; simpl.
  { exists []. rewrite app_nil_r. split; [done|]. set_solver. }
  destruct (Hf a result) as (i1 & -> & H1); [set_solver|]. simpl.
  destruct (IH ltac:(intros; apply Hf; set_solver) (result ++ i1)) as (i2 & -> & H2).
  exists (i1 ++ i2). rewrite app_assoc. split; [done|]. rewrite app_nil, H1, H2.
  set_solver.
Qed.

Lemma imap_pair_elem {A} (l : list A) j a : (j, a) ∈ imap pair l → l !! j = Some a.
Proof. intros (j' & a' & Heq & Hj)%elem_of_lookup_imap. by injection Heq as -> ->. Qed.

Lemma find_None {A} (q : A → bool) l : List.find q l = None ↔ ∀ a, a ∈ l → q a = false.
Proof.
  split.
  - intros H a Ha%list_elem_of_In. by apply (find_none q l H).
  - intros H. destruct (List.find q l) as [a|] eqn:E; [|done].
    apply find_some in E as [Ha%list_elem_of_In Hq]. by rewrite (H a Ha) in Hq.
Qed.

Section clauses.
Context {V : Type} (x : ExecutionGraph V) (tolerance : EventId → bool).
Context (Hwf : graph_wf x) (Htot : total_events (events_ x)).
Context (Hcons : rf_consistent (events_ x) (reads_from_ x) tolerance).
Context (consumers : list (option EventId)).
Context (Hclen : length consumers = length (events_ x)).
Context (Hcs : consumers_of (reads_from_ x) consumers).

Abbreviation es := (events_ x).
Abbreviation rf := (reads_from_ x).

(** The receive at [r] has label [rl]. *)
Definition receive_at (r : EventId) (rl : ReceiveLabel V) : Prop :=
  ∃ e, es !! r = Some e ∧ as_receive e = Some rl.

(** The receive label accepts what the send at [id] carries. *)
Definition accepts_send (rl : ReceiveLabel V) (id : EventId) : bool :=
  match es !! id ≫= as_send with Some s => accepts_pure rl (value s) | None => false end.

Lemma rf_edge_receive id r : rf_edge rf id r → ∃ rl, receive_at r rl.
Proof.
  intros (s & Hr & _). destruct (rc_entries _ _ _ Hcons r s Hr) as (er & rl & Her & Hrl & _).
  exists rl. by exists er.
Qed.

Lemma clause_b_hit_Ok rl r id :
  receive_at r rl → id < length es →
  ∃ c, consumers !! id = Some c ∧
    clause_b_hit x consumers rl id =
      Ok (match c with Some _ => false | None => accepts_send rl id end).
Proof.
  intros (er & Her & Hrl) Hid. destruct (lookup_lt_is_Some_2 consumers id) as [c Hc]; [lia|].
  exists c. split; [done|]. unfold clause_b_hit, accepts_send. rewrite (vec_get_Ok _ _ _ Hc). simpl.
  destruct c; [done|]. unfold ExecutionGraph.event.
  destruct (lookup_lt_is_Some_2 es id Hid) as [e He]. rewrite He. simpl.
  destruct (as_send e) as [s|]; [|done]. exact (as_receive_total es r er rl (value s) Htot Her Hrl).
Qed.

(** No clause (b) issue for the send at position [j] of its channel. *)
Definition clause_b_ok (ids : list EventId) (j : nat) (later : EventId) : Prop :=
  ∀ r rl i earlier, rf_edge rf later r → receive_at r rl → i < j → ids !! i = Some earlier →
    accepts_send rl earlier = true → ∃ r', rf_edge rf earlier r'.

Lemma elem_of_take_lt {A} (l : list A) j a : a ∈ take j l ↔ ∃ i, i < j ∧ l !! i = Some a.
Proof.
  rewrite list_elem_of_lookup. split.
  - intros [i [Hi ?]%lookup_take_Some]. by exists i.
  - intros (i & Hi & Hl). exists i. by rewrite lookup_take_lt.
Qed.

Lemma clause_b_at_Ok ids j later result :
  (∀ id, id ∈ ids → id < length es) → ids !! j = Some later →
  ∃ issues, clause_b_at x consumers ids result (j, later) = Ok (result ++ issues) ∧
    (issues = [] ↔ clause_b_ok ids j later).
Proof.
  intros Hids Hj. unfold clause_b_at, clause_b_ok. simpl.
  destruct (lookup_lt_is_Some_2 consumers later) as [c Hc].
  { rewrite Hclen. by eapply Hids, list_elem_of_lookup_2. }
  rewrite (vec_get_Ok _ _ _ Hc). simpl. specialize (Hcs later c Hc) as Hcc.
  destruct c as [r|].
  2:{ exists []. rewrite app_nil_r. split; [done|]. split; [|done]. intros _ r rl i e Hr.
      apply Hcc in Hr. done. }
  assert (rf_edge rf later r) as Hedge by (by apply Hcc).
  destruct (rf_edge_receive later r Hedge) as (rl & er & Her & Hrl).
  unfold ExecutionGraph.event at 1. rewrite Her. simpl. rewrite Hrl.
  set (q := λ id, match consumers !! id with Some None => accepts_send rl id | _ => false end).
  rewrite (findM_pure _ q).
  2:{ intros id (i & Hi & Hid)%elem_of_take_lt.
      destruct (clause_b_hit_Ok rl r id) as (c & Hc' & ->); [by exists er|
        by eapply Hids, list_elem_of_lookup_2|]. unfold q. rewrite Hc'. by destruct c. }
  simpl. eexists. split.
  { instantiate (1 := match List.find q (take j ids) with None => [] | Some earlier => [_] end).
    destruct (List.find q (take j ids)); [done|by rewrite app_nil_r]. }
  transitivity (List.find q (take j ids) = None).
  { by destruct (List.find q (take j ids)). }
  rewrite find_None. split.
  - intros Hall r' rl' i earlier Hr' Hrl' Hi Hid Hacc.
    assert (r' = r) as -> by (apply Hcc in Hr'; congruence).
    assert (rl' = rl) as -> by (destruct Hrl' as (? & ? & ?); congruence).
    specialize (Hall earlier). unfold q in Hall.
    destruct (lookup_lt_is_Some_2 consumers earlier) as [c Hc'].
    { rewrite Hclen. by eapply Hids, list_elem_of_lookup_2. }
    rewrite Hc' in Hall. destruct c as [r'|]; [exists r'; by apply (Hcs earlier _ Hc')|].
    rewrite Hacc in Hall. assert (true = false); [|done]. apply Hall, elem_of_take_lt. eauto.
  - intros Hok earlier (i & Hi & Hid)%elem_of_take_lt. unfold q.
    destruct (consumers !! earlier) as [[r'|]|] eqn:Hc'; [done| |done].
    destruct (accepts_send rl earlier) eqn:Ha; [exfalso|done].
    destruct (Hok r rl i earlier Hedge) as [r' Hr']; [by exists er|done..|].
    by apply (Hcs earlier None Hc') in Hr'.
Qed.

Lemma clause_c_hit_Ok er rl r id :
  es !! r = Some er → as_receive er = Some rl → id < length es →
  ∃ c, consumers !! id = Some c ∧
    (∀ r', c = Some r' → ∃ er', es !! r' = Some er') ∧
    clause_c_hit x consumers er rl id =
      Ok (match c ≫= (es !!.) with
          | None => false
          | Some lr => if decide (thread lr ≠ thread er ∨ (index lr ≤ index er)%N) then false
                       else accepts_send rl id
          end).
Proof.
  intros Her Hrl Hid. destruct (lookup_lt_is_Some_2 consumers id) as [c Hc]; [lia|].
  exists c. split; [done|].
  assert (∀ r', c = Some r' → ∃ er', es !! r' = Some er') as Hev.
  { intros r' ->. assert (rf_edge rf id r') as Hr' by (by apply (Hcs id (Some r') Hc)).
    destruct (rf_edge_receive id r' Hr') as (rl' & er' & Her' & _). by exists er'. }
  split; [done|]. unfold clause_c_hit, accepts_send. rewrite (vec_get_Ok _ _ _ Hc). simpl.
  destruct c as [r'|]; [|done]. destruct (Hev r' eq_refl) as [er' Her']. simpl.
  unfold ExecutionGraph.event. rewrite Her'. simpl. case_decide; [done|].
  destruct (lookup_lt_is_Some_2 es id Hid) as [e He]. rewrite He. simpl.
  destruct (as_send e) as [s|]; [|done]. exact (as_receive_total es r er rl (value s) Htot Her Hrl).
Qed.

(** Index order within a thread is program order. *)
Lemma index_po a b ea eb :
  es !! a = Some ea → es !! b = Some eb →
  ¬ (thread eb ≠ thread ea ∨ (index eb ≤ index ea)%N) ↔ po es a b.
Proof.
  intros Ha Hb. split.
  - intros H. assert (thread eb = thread ea) as Ht by (apply dec_stable; tauto).
    assert (index ea < index eb)%N as Hi by (apply N.nle_gt; tauto).
    split; [|by exists ea, eb]. destruct (decide (a < b)) as [|Hge]; [done|exfalso].
    destruct (decide (a = b)) as [->|]; [simplify_eq; lia|].
    pose proof (gw_sorted x Hwf b a eb ea Hb Ha ltac:(congruence) ltac:(lia)). lia.
  - intros (Hab & ea' & eb' & Ha' & Hb' & Ht). simplify_eq.
    pose proof (gw_sorted x Hwf a b _ _ Ha Hb Ht Hab). intros [?|?]; [congruence|lia].
Qed.

(** No clause (c) issue for the send at position [j] of its channel. *)
Definition clause_c_ok (ids : list EventId) (j : nat) (later : EventId) : Prop :=
  ∀ r rl i earlier r', rf_edge rf later r → receive_at r rl → i < j → ids !! i = Some earlier →
    accepts_send rl earlier = true → rf_edge rf earlier r' → ¬ po es r r'.

Lemma clause_c_at_Ok ids j later result :
  (∀ id, id ∈ ids → id < length es) → ids !! j = Some later →
  ∃ issues, clause_c_at x consumers ids result (j, later) = Ok (result ++ issues) ∧
    (issues = [] ↔ clause_c_ok ids j later).
Proof.
  intros Hids Hj. unfold clause_c_at, clause_c_ok. simpl.
  destruct (lookup_lt_is_Some_2 consumers later) as [c Hc].
  { rewrite Hclen. by eapply Hids, list_elem_of_lookup_2. }
  rewrite (vec_get_Ok _ _ _ Hc). simpl. specialize (Hcs later c Hc) as Hcc.
  destruct c as [r|].
  2:{ exists []. rewrite app_nil_r. split; [done|]. split; [|done]. intros _ r rl i e r' Hr.
      apply Hcc in Hr. done. }
  assert (rf_edge rf later r) as Hedge by (by apply Hcc).
  destruct (rf_edge_receive later r Hedge) as (rl & er & Her & Hrl).
  unfold ExecutionGraph.event at 1. rewrite Her. simpl. rewrite Hrl.
  set (q := λ id, match consumers !! id with
     | Some (Some r') => match es !! r' with
         | Some lr => if decide (thread lr ≠ thread er ∨ (index lr ≤ index er)%N) then false
                      else accepts_send rl id
         | None => false end
     | _ => false end).
  rewrite (findM_pure _ q).
  2:{ intros id (i & Hi & Hid)%elem_of_take_lt.
      destruct (clause_c_hit_Ok er rl r id) as (c & Hc' & Hev & ->); [done|done|
        by eapply Hids, list_elem_of_lookup_2|]. unfold q. rewrite Hc'. destruct c as [r'|]; [|done].
      simpl. by destruct (es !! r'). }
  assert (∃ issues, (hit ← Ok (List.find q (take j ids)); match hit with
     | None => Ok result
     | Some earlier => later_receive ← vec_get consumers earlier;
         Ok (add_issue result FifoP2PReceiveOrderViolation
               ("receive event " +:+ pretty r +:+ " consumes later send event " +:+ pretty later +:+
                " before receive event " +:+ pretty (default 0 later_receive) +:+
                " consumes earlier matching send event " +:+ pretty earlier)) end) =
      (Ok (result ++ issues) : res _) ∧ (issues = [] ↔ List.find q (take j ids) = None))
    as (issues & Heq & Hiss).
  { simpl. destruct (List.find q (take j ids)) as [earlier|] eqn:Ef.
    - apply find_some in Ef as [Hin%list_elem_of_In _]. apply elem_of_take_lt in Hin as (i & _ & Hid).
      destruct (lookup_lt_is_Some_2 consumers earlier) as [c Hc'].
      { rewrite Hclen. by eapply Hids, list_elem_of_lookup_2. }
      rewrite (vec_get_Ok _ _ _ Hc'). simpl. eexists. split; [reflexivity|done].
    - exists []. by rewrite app_nil_r. }
  exists issues. split; [exact Heq|]. rewrite Hiss, find_None. split.
  - intros Hall r1 rl' i earlier r' Hr1 Hrl' Hi Hid Hacc Hr' Hpo.
    assert (r1 = r) as -> by (apply Hcc in Hr1; congruence).
    assert (rl' = rl) as -> by (destruct Hrl' as (? & ? & ?); congruence).
    destruct (rf_edge_receive earlier r' Hr') as (? & er' & Her' & _).
    assert (q earlier = false) as Hq by (apply Hall, elem_of_take_lt; eauto).
    destruct (lookup_lt_is_Some_2 consumers earlier) as [c Hc'].
    { rewrite Hclen. by eapply Hids, list_elem_of_lookup_2. }
    apply (Hcs earlier c Hc') in Hr' as ->. unfold q in Hq. rewrite Hc', Her' in Hq.
    apply (index_po r r' er er' Her Her') in Hpo. rewrite decide_False in Hq by done. congruence.
  - intros Hok earlier (i & Hi & Hid)%elem_of_take_lt. unfold q.
    destruct (consumers !! earlier) as [[r'|]|] eqn:Hc'; [|done..].
    destruct (es !! r') as [er'|] eqn:Her'; [|done].
    destruct (decide (thread er' ≠ thread er ∨ (index er' ≤ index er)%N)) as [|Hord]; [done|].
    destruct (accepts_send rl earlier) eqn:Ha; [exfalso|done].
    apply (Hok r rl i earlier r' Hedge); [by exists er|done|done|done| |].
    + by apply (Hcs earlier _ Hc').
    + by apply (index_po r r' er er').
Qed.

End clauses.

(** ** FIFO consistency *)

Section fifo.
Context {V : Type}.
Implicit Types (x : ExecutionGraph V) (tolerance : EventId → bool).

(** Every receive reads its channel in order: when it reads [s2], each earlier send [s1]
    of the channel that it would have accepted was read before. *)
Definition fifo_ok (es : list (Event V)) (rf : ReadsFromRelation) : Prop :=
  ∀ s1 s2 e1 e2 sl1 sl2 r2 er2 rl,
    po es s1 s2 → es !! s1 = Some e1 → as_send e1 = Some sl1 →
    es !! s2 = Some e2 → as_send e2 = Some sl2 → destination sl1 = destination sl2 →
    rf_edge rf s2 r2 → es !! r2 = Some er2 → as_receive er2 = Some rl →
    accepts_pure rl (value sl1) = true → ∃ r1, rf_edge rf s1 r1 ∧ po es r1 r2.

Lemma rf_edge_fun rf a a' b : rf_edge rf a b → rf_edge rf a' b → a = a'.
Proof. intros (s & Hs & Ha) (s' & Hs' & Ha'). congruence. Qed.

(** Two receives that read sends to one destination are ordered by program order. *)
Lemma readers_ordered x tolerance s1 s2 e1 e2 sl1 sl2 r1 r2 :
  rf_consistent (events_ x) (reads_from_ x) tolerance → s1 ≠ s2 →
  events_ x !! s1 = Some e1 → as_send e1 = Some sl1 →
  events_ x !! s2 = Some e2 → as_send e2 = Some sl2 → destination sl1 = destination sl2 →
  rf_edge (reads_from_ x) s1 r1 → rf_edge (reads_from_ x) s2 r2 →
  po (events_ x) r1 r2 ∨ po (events_ x) r2 r1.
Proof.
  intros Hc Hne H1 Hs1 H2 Hs2 Hd Hr1 Hr2.
  assert (r1 ≠ r2) as Hr by (intros ->; apply Hne; by eapply rf_edge_fun).
  destruct Hr1 as (so1 & Hf1 & Hso1), Hr2 as (so2 & Hf2 & Hso2).
  apply (rc_entries _ _ _ Hc) in Hf1 as (er1 & rl1 & Her1 & _ & Hs).
  apply (rc_entries _ _ _ Hc) in Hf2 as (er2 & rl2 & Her2 & _ & Hs'). simpl in *.
  rewrite Hso1 in Hs. rewrite Hso2 in Hs'.
  destruct Hs as (? & ? & ? & ? & Hd1 & _), Hs' as (? & ? & ? & ? & Hd2 & _). simplify_eq.
  assert (thread er1 = thread er2) as Ht by congruence.
  destruct (decide (r1 < r2)); [left|right]; (split; [lia|]); eauto 10.
Qed.

Lemma fifo_clauses x tolerance groups :
  rf_consistent (events_ x) (reads_from_ x) tolerance → groups_of (events_ x) groups →
  (∀ group, group ∈ groups → ∀ later, later ∈ imap pair group.2 →
     clause_b_ok x group.2 later.1 later.2 ∧ clause_c_ok x group.2 later.1 later.2) ↔
  fifo_ok (events_ x) (reads_from_ x).
Proof.
  intros Hc [_ Hg]. split.
  - intros Hall s1 s2 e1 e2 sl1 sl2 r2 er2 rl Hpo H1 Hs1 H2 Hs2 Hd Hr2 Her2 Hrl Hacc.
    set (k := (thread e1, destination sl1)).
    assert (s1 ∈ channel_ids (events_ x) k) as [i Hi]%list_elem_of_lookup.
    { apply ids_where_elem. exists e1. split; [done|]. apply on_channel_true. by exists sl1. }
    assert (s2 ∈ channel_ids (events_ x) k) as [j Hj]%list_elem_of_lookup.
    { apply ids_where_elem. exists e2. split; [done|]. apply on_channel_true. exists sl2.
      split; [done|]. unfold k. rewrite Hd. destruct Hpo as (_ & ea & eb & Ha & Hb & Ht).
      by simplify_eq; rewrite Ht. }
    assert (i < j) as Hij.
    { apply (ids_where_sorted _ _ i j s1 s2 Hi Hj). by destruct Hpo. }
    destruct (Hall (k, channel_ids (events_ x) k)) with (later := (j, s2)) as [Hb Hcc].
    { apply Hg. split; [done|]. by destruct (channel_ids (events_ x) k). }
    { apply elem_of_lookup_imap. by exists j, s2. }
    simpl in Hb, Hcc.
    assert (receive_at x r2 rl) as Hrecv by (by exists er2).
    assert (accepts_send x rl s1 = true) as Hacc'.
    { unfold accepts_send. rewrite H1. simpl. by rewrite Hs1. }
    destruct (Hb r2 rl i s1 Hr2 Hrecv Hij Hi Hacc') as [r1 Hr1]. exists r1. split; [done|].
    specialize (Hcc r2 rl i s1 r1 Hr2 Hrecv Hij Hi Hacc' Hr1).
    destruct (readers_ordered x tolerance s1 s2 e1 e2 sl1 sl2 r1 r2) as [|]; try done.
    destruct Hpo. lia.
  - intros Hf [k ids] [-> _]%Hg [j later] (j' & later' & [= <- <-] & Hj)%elem_of_lookup_imap. simpl in *.
    assert (∀ r rl i earlier, rf_edge (reads_from_ x) later r → receive_at x r rl → i < j →
      channel_ids (events_ x) k !! i = Some earlier → accepts_send x rl earlier = true →
      ∃ r', rf_edge (reads_from_ x) earlier r' ∧ po (events_ x) r' r) as Hread.
    { intros r rl i earlier Hr (er & Her & Hrl) Hij Hi Hacc.
      pose proof (channel_po _ _ _ _ _ _ Hi Hj Hij) as Hpo.
      apply list_elem_of_lookup_2, ids_where_elem in Hi as (e1 & He1 & Hk1).
      apply list_elem_of_lookup_2, ids_where_elem in Hj as (e2 & He2 & Hk2).
      apply on_channel_true in Hk1 as (sl1 & Hs1 & Hk1). apply on_channel_true in Hk2 as (sl2 & Hs2 & Hk2).
      unfold accepts_send in Hacc. rewrite He1 in Hacc. simpl in Hacc. rewrite Hs1 in Hacc.
      eapply (Hf earlier later e1 e2 sl1 sl2 r er rl); try done. congruence. }
    split.
    + intros r rl i earlier Hr Hrl Hij Hi Hacc.
      destruct (Hread r rl i earlier Hr Hrl Hij Hi Hacc) as (r' & Hr' & _). by exists r'.
    + intros r rl i earlier r' Hr Hrl Hij Hi Hacc Hr' Hpo.
      destruct (Hread r rl i earlier Hr Hrl Hij Hi Hacc) as (r'' & Hr'' & Hpo').
      assert (r'' = r') as -> by (by apply (rc_once _ _ _ Hc earlier)).
      destruct Hpo as [? _], Hpo' as [? _]. lia.
Qed.

(** The FIFO pass on an asynchronously consistent graph. *)
Lemma add_fifo_p2p_issues_Ok x tolerance result :
  graph_wf x → total_events (events_ x) →
  rf_consistent (events_ x) (reads_from_ x) tolerance →
  ∃ issues, add_fifo_p2p_issues x result = Ok (result ++ issues) ∧
    (issues = [] ↔ fifo_ok (events_ x) (reads_from_ x)).
Proof.
  intros Hwf Htot Hc. unfold add_fifo_p2p_issues.
  destruct (group_fifo_sends_Ok x) as (groups & -> & Hg). simpl.
  destruct (compute_send_consumers_Ok x tolerance Hc) as (cs & -> & Hlen & Hcs). simpl.
  assert (∀ group, group ∈ groups → ∀ id, id ∈ group.2 → id < length (events_ x)) as Hids.
  { intros [k ids] [-> _]%(proj2 Hg) id Hid. by eapply ids_where_bound. }
  unfold add_fifo_p2p_clause_b_issues, add_fifo_p2p_clause_c_issues.
  destruct (foldM_issues (λ result group, foldM (clause_b_at x cs group.2) result (imap pair group.2))
    (λ group, ∀ later, later ∈ imap pair group.2 → clause_b_ok x group.2 later.1 later.2) groups)
    with (result := result) as (ib & -> & Hb).
  { intros group res0 Hgr. apply foldM_issues. intros [j later] res1 Hin.
    eapply clause_b_at_Ok; eauto using imap_pair_elem. }
  simpl.
  destruct (foldM_issues (λ result group, foldM (clause_c_at x cs group.2) result (imap pair group.2))
    (λ group, ∀ later, later ∈ imap pair group.2 → clause_c_ok x group.2 later.1 later.2) groups)
    with (result := result ++ ib) as (ic & -> & Hcc).
  { intros group res0 Hgr. apply foldM_issues. intros [j later] res1 Hin.
    eapply clause_c_at_Ok; eauto using imap_pair_elem. }
  exists (ib ++ ic). rewrite app_assoc. split; [done|].
  rewrite app_nil, Hb, Hcc, <-(fifo_clauses x tolerance groups Hc Hg). split.
  - intros [H1 H2] group Hgr later Hl. auto.
  - intros H. split; intros group Hgr later Hl; by apply (H group Hgr later Hl).
Qed.

(** *** The checkers are total on graphs whose matchers do not throw *)

Lemma validate_read_total collect v r id (er : Event V) rl sl es i :
  total_events es → es !! i = Some er → as_receive er = Some rl →
  id < length (v_send_read_count v) → ∃ v', validate_read collect v r id er rl sl = Ok v'.
Proof.
  intros Htot Hi Hrl Hid. unfold validate_read, v_count_read.
  destruct (lookup_lt_is_Some_2 _ _ Hid) as [c Hc]. rewrite (vec_get_Ok _ _ _ Hc). simpl.
  rewrite vec_set_Ok by done. simpl.
  rewrite (as_receive_total es i er rl (value sl) Htot Hi Hrl). simpl. by eexists.
Qed.

Lemma validate_entry_total collect x v entry :
  total_events (events_ x) → tables_ok (events_ x) v →
  ∃ v', validate_entry collect x v entry = Ok v'.
Proof.
  intros Htot Htab. destruct entry as [r s].
  destruct (events_ x !! r) as [er|] eqn:Er.
  2:{ destruct (validate_entry_invalid collect x v r s Htab (or_introl Er)) as (i & v' & H & _). eauto. }
  destruct (rf_send s) as [id|] eqn:Es.
  - destruct (events_ x !! id) as [e|] eqn:Ee.
    2:{ destruct (validate_entry_invalid collect x v r s) as (i & v' & H & _); [done|eauto|eauto]. }
    destruct Htab as [H1 H2]. unfold validate_entry.
    rewrite Es, !is_valid_event_id_lookup, Er, Ee. simpl.
    unfold v_mark_receive, ExecutionGraph.event.
    rewrite vec_set_Ok by (rewrite H1; by eapply lookup_lt_Some). simpl. rewrite Er, Ee. simpl.
    rewrite !v_unsafe_if_not. simpl. destruct (as_receive er) as [rl|] eqn:Hrl; [|by eexists].
    destruct (as_send e) as [sl|]; [|by eexists].
    eapply validate_read_total; [done|done|done|]. simpl. rewrite H2. by eapply lookup_lt_Some.
  - destruct Htab as [H1 H2]. unfold validate_entry. rewrite Es, !is_valid_event_id_lookup, Er. simpl.
    unfold v_mark_receive, ExecutionGraph.event.
    rewrite vec_set_Ok by (rewrite H1; by eapply lookup_lt_Some). simpl. rewrite Er. simpl.
    destruct (as_receive er); by eexists.
Qed.

Lemma validate_graph_total collect x tolerance :
  total_events (events_ x) → ∃ v, validate_graph collect x tolerance = Ok v.
Proof.
  intros Htot. unfold validate_graph.
  destruct (foldM_inv (E := exn) (validate_entry collect x) (λ l v, tables_ok (events_ x) v)
    (rf_to_list (reads_from_ x))
    (MkValidation [] [] true (replicate (length (events_ x)) false)
       (replicate (length (events_ x)) 0))) as (v & -> & Htab).
  - split; apply length_replicate.
  - intros l1 [r s] l2 v _ Htab.
    destruct (validate_entry_total collect x v (r, s) Htot Htab) as [v' Hv'].
    exists v'. split; [done|].
    by destruct (validate_entry_effect collect x v r s v' Htab Hv') as (? & _ & ? & _).
  - simpl. destruct (foldM_inv (E := exn) (validate_missing x tolerance)
      (λ l v, tables_ok (events_ x) v) (seq 0 (length (events_ x))) v Htab) as (v' & -> & _);
      [|by eexists].
    clear v Htab. intros l1 id l2 v Hl [H1 H2].
    assert (id ∈ seq 0 (length (events_ x))) as Hid%elem_of_seq by (rewrite Hl; set_solver).
    destruct (lookup_lt_is_Some_2 (events_ x) id) as [e He]; [lia|].
    unfold validate_missing, ExecutionGraph.event. rewrite He. simpl.
    destruct (lookup_lt_is_Some_2 (v_receive_has_source v) id) as [h Hh]; [lia|].
    rewrite (vec_get_Ok _ _ _ Hh). simpl. eexists. split; [done|]. by destruct (_ || _).
Qed.

(** What a consistent execution is. *)
Definition consistent (model : CommunicationModel) (es : list (Event V)) (rf : ReadsFromRelation)
    (tolerance : EventId → bool) : Prop :=
  rf_consistent es rf tolerance ∧ acyclic (porf es rf) ∧ (model = FifoP2P → fifo_ok es rf).

Lemma check_execution_graph_spec x model tolerance :
  graph_wf x → total_events (events_ x) →
  ∃ r, check_execution_graph x model tolerance = Ok r ∧
    (r = [] ↔ consistent model (events_ x) (reads_from_ x) tolerance).
Proof.
  intros Hwf Htot. unfold check_execution_graph.
  assert (∃ r, check_async_execution_graph x tolerance = Ok r) as [r Hr].
  { unfold check_async_execution_graph.
    destruct (validate_graph_total true x tolerance Htot) as [v ->]. simpl.
    destruct (dfs_check_Ok x (v_valid_rf_edges v) Hwf) as (po_rel & b & -> & Hb & _). simpl.
    rewrite Hb. by eexists. }
  pose proof (check_async_execution_graph_spec x tolerance r Hwf Hr) as Hspec.
  rewrite Hr. cbn [mbind result_bind]. unfold consistent. case_decide as Hm.
  - destruct Hm as [-> Hnil]. assert (r = []) as -> by (by destruct r).
    destruct (proj1 Hspec eq_refl) as [Hc Hac].
    destruct (add_fifo_p2p_issues_Ok x tolerance [] Hwf Htot Hc) as (issues & -> & Hi).
    eexists. split; [done|]. simpl. rewrite Hi. naive_solver.
  - exists r. split; [done|]. rewrite Hspec. split; [|naive_solver].
    intros [Hc Hac]. split_and!; [done|done|]. intros ->. exfalso. apply Hm. split; [done|].
    assert (r = []) as -> by (by apply Hspec). done.
Qed.

Lemma check_exploration_graph_agrees (g : ExplorationGraph V) model tolerance :
  Inv g → cache_ok g →
  fst <$> check_exploration_graph g model tolerance =
    check_execution_graph (graph_ g) model tolerance.
Proof.
  intros Hinv Hcache. unfold check_exploration_graph, check_execution_graph.
  rewrite <-(check_async_exploration_graph_agrees g tolerance Hinv Hcache).
  destruct (check_async_exploration_graph g tolerance) as [[r g1]|] eqn:Hc; [|done].
  cbn [mbind result_bind fmap result_fmap fst].
  destruct (check_async_exploration_graph_graph g tolerance r g1 Hinv Hcache Hc)
    as (_ & _ & Hg & _). rewrite Hg.
  case_decide; [|done]. by destruct (add_fifo_p2p_issues (graph_ g) r).
Qed.

End fifo.
