(* ===== verification/Program.v ===== *)
(** * Program: thread maps and programs, [dpor/algo/program.hpp]

    A program maps thread ids to thread functions.  A thread function is user code: it
    takes the trace of the values its thread observed and the number of events the
    thread has produced, and returns its next label, nothing when the thread is done,
    or throws.  The contract that equal arguments give equal labels is built in: a
    thread function is a function. *)

From stdpp Require Import base tactics numbers pretty sets list strings.
From S2P Require Import Prelude Errors Event.

(** ** [ThreadMapT] *)

Record ThreadMap (T : Type) := MkThreadMap {
  entries_ : list (option T);
  size_ : nat;
}.
Arguments MkThreadMap {T} entries_ size_.
Arguments entries_ {T} t.
Arguments size_ {T} t.

Section thread_map.
Context {T : Type}.
Implicit Types (m : ThreadMap T) (tid : ThreadId).

Definition tm_empty_map : ThreadMap T := MkThreadMap [] 0.

(** [m[tid] = value]: [operator[]] creates the entry, the assignment fills it. *)
Definition tm_assign m tid (value : T) : ThreadMap T :=
  let index := N.to_nat tid in
  let entries := grow (index + 1) None (entries_ m) in
  let size := match entries !! index with Some (Some _) => size_ m | _ => S (size_ m) end in
  MkThreadMap (<[index := Some value]> entries) size.

(** The initializer-list constructor. *)
Definition tm_of_list (init : list (ThreadId * T)) : ThreadMap T :=
  foldl (λ m entry, tm_assign m entry.1 entry.2) tm_empty_map init.

Definition tm_at m tid : res T :=
  match entries_ m !! N.to_nat tid with
  | Some (Some value) => Ok value
  | _ => Throw (precondition_error "thread id not found")
  end.

Definition tm_contains m tid : bool :=
  match entries_ m !! N.to_nat tid with Some (Some _) => true | _ => false end.

Definition tm_size m : nat := size_ m.

Definition tm_is_empty m : bool := bool_decide (size_ m = 0).

Definition tm_clear m : ThreadMap T := tm_empty_map.

(** The ids [for_each_assigned] visits, in ascending order, from position [index] on. *)
Fixpoint assigned_from (entries : list (option T)) (index : nat) : list ThreadId :=
  match entries with
  | [] => []
  | Some _ :: rest => N.of_nat index :: assigned_from rest (S index)
  | None :: rest => assigned_from rest (S index)
  end.

Definition assigned_ids m : list ThreadId := assigned_from (entries_ m) 0.

(** The loop that finds the smallest and the largest assigned id. *)
Definition span_step (span : option ThreadId * ThreadId) tid : option ThreadId * ThreadId :=
  let '(min_tid, max_tid) := span in
  (match min_tid with
   | Some lo => if (tid <? lo)%N then Some tid else Some lo
   | None => Some tid
   end,
   if (max_tid <? tid)%N then tid else max_tid).

Definition tm_span m : option ThreadId * ThreadId := foldl span_step (None, 0%N) (assigned_ids m).

Open Scope string_scope.
Definition non_compact_thread_ids (first_tid max_tid : ThreadId) (count : nat) : exn :=
  precondition_error
    ("thread ids must form a compact contiguous 0-based or 1-based range; " +:+
     "observed thread ids span [" +:+ pretty first_tid +:+ ", " +:+ pretty max_tid +:+
     "] across " +:+ pretty count +:+ " assigned threads").
Close Scope string_scope.

Definition validate_compact_thread_ids m : res unit :=
  if decide (size_ m = 0) then Ok tt
  else
    let '(min_tid, max_tid) := tm_span m in
    match min_tid with
    | None => Throw undefined_behavior
    | Some first_tid =>
        if decide ((first_tid = 0%N ∧ N.to_nat max_tid + 1 = size_ m) ∨
                   (first_tid = 1%N ∧ N.to_nat max_tid = size_ m)) then Ok tt
        else Throw (non_compact_thread_ids first_tid max_tid (size_ m))
    end.

End thread_map.

(** ** Programs *)

Abbreviation ThreadTrace V := (list (ObservedValue V)).

Abbreviation ThreadFunctionT V := (ThreadTrace V → nat → res (option (EventLabel V))).

Record Program (V : Type) := MkProgram { threads : ThreadMap (ThreadFunctionT V) }.
Arguments MkProgram {V} threads.
Arguments threads {V} p.

(** ** Facts *)

Section facts.
Context {T : Type}.
Implicit Types (m : ThreadMap T) (tid : ThreadId).

(** An entry that holds a value. *)
Definition is_set (o : option T) : bool := match o with Some _ => true | None => false end.

Lemma assigned_from_elem (l : list (option T)) k tid :
  tid ∈ assigned_from l k ↔ ∃ i v, tid = N.of_nat (k + i) ∧ l !! i = Some (Some v).
Proof.
  revert k. induction l as [|o l IH]; intros k; simpl.
  { split; [set_solver|]. by intros (i & v & _ & ?). }
  assert (tid ∈ assigned_from l (S k) ↔
    ∃ i v, tid = N.of_nat (k + S i) ∧ (o :: l) !! S i = Some (Some v)) as Hrest.
  { rewrite IH. simpl. split; intros (i & v & -> & Hi); exists i, v; (split; [f_equal; lia|done]). }
  destruct o as [x|]; [rewrite elem_of_cons|]; rewrite Hrest; split.
  - intros [->|(i & v & -> & Hi)]; [exists 0, x; split; [f_equal; lia|done]|eauto].
  - intros ([|i] & v & -> & Hi); [left; f_equal; lia|right; eauto].
  - intros (i & v & -> & Hi). eauto.
  - intros ([|i] & v & -> & Hi); [done|eauto].
Qed.

Lemma assigned_ids_elem m tid : tid ∈ assigned_ids m ↔ tm_contains m tid = true.
Proof.
  unfold assigned_ids, tm_contains. rewrite assigned_from_elem. simpl. split.
  - intros (i & v & -> & Hi). by rewrite Nat2N.id, Hi.
  - destruct (entries_ m !! N.to_nat tid) as [[v|]|] eqn:E; [|done..]. intros _.
    exists (N.to_nat tid), v. split; [lia|done].
Qed.

(** The size counts the assigned entries. *)
Definition tm_wf m : Prop := size_ m = length (assigned_ids m).

Lemma assigned_count (l : list (option T)) k :
  length (assigned_from l k) = length (List.filter is_set l).
Proof. revert k. induction l as [|[x|] l IH]; intros k; simpl; by rewrite ?IH. Qed.

Lemma tm_wf_filter m : tm_wf m ↔ size_ m = length (List.filter is_set (entries_ m)).
Proof. unfold tm_wf, assigned_ids. by rewrite assigned_count. Qed.

Lemma filter_set_insert (l : list (option T)) i o v :
  l !! i = Some o →
  length (List.filter is_set (<[i := Some v]> l)) + (if is_set o then 1 else 0) =
  S (length (List.filter is_set l)).
Proof.
  revert i. induction l as [|x l IH]; intros [|i] Hi; simpl in *; [done..| |].
  - injection Hi as ->. destruct o; simpl; lia.
  - specialize (IH i Hi). destruct x; simpl; lia.
Qed.

Lemma filter_set_grow (l : list (option T)) n :
  length (List.filter is_set (grow n None l)) = length (List.filter is_set l).
Proof.
  unfold grow. case_decide; [done|]. rewrite resize_ge by lia.
  rewrite List.filter_app, length_app.
  assert (∀ k, List.filter is_set (replicate k None) = []) as -> by (intros k; induction k; done).
  simpl. lia.
Qed.

(** Assignment adds one entry or replaces one, and keeps the size exact. *)
Lemma tm_assign_spec m tid v :
  tm_wf m →
  tm_wf (tm_assign m tid v) ∧ tm_at (tm_assign m tid v) tid = Ok v ∧
  (∀ tid', tid' ≠ tid → entries_ (tm_assign m tid v) !! N.to_nat tid' = entries_ m !! N.to_nat tid'
    ∨ (entries_ m !! N.to_nat tid' = None ∧
       entries_ (tm_assign m tid v) !! N.to_nat tid' = Some None)).
Proof.
  rewrite !tm_wf_filter. intros Hsz. unfold tm_assign, tm_at. simpl.
  assert (N.to_nat tid < length (grow (N.to_nat tid + 1) None (entries_ m))) as Hlt
    by (rewrite length_grow; lia).
  split_and!.
  - pose proof (filter_set_insert _ (N.to_nat tid) _ v
      (lookup_default_Some _ _ None Hlt)) as Hins.
    rewrite filter_set_grow in Hins. rewrite (lookup_default_Some _ _ None Hlt).
    destruct (default None _); simpl in Hins; lia.
  - by rewrite list_lookup_insert_eq.
  - intros tid' Hne. rewrite list_lookup_insert_ne by lia.
    destruct (decide (N.to_nat tid' < length (entries_ m))) as [Hin|Hout].
    + left. destruct (lookup_lt_is_Some_2 _ _ Hin) as [o Ho]. rewrite Ho. by apply lookup_grow.
    + rewrite (lookup_ge_None_2 (entries_ m)) by lia. unfold grow. case_decide.
      * left. apply lookup_ge_None_2. lia.
      * destruct (decide (N.to_nat tid' < N.to_nat tid + 1)).
        -- right. rewrite lookup_resize_new by lia. done.
        -- left. by rewrite lookup_resize_old by lia.
Qed.

End facts.
