(* ===== verification/Masked.v ===== *)
(** * Masked: the masked (po U rf) view, [MaskedPorfContext] of [dpor/algo/dpor.hpp]

    The tiebreaker is defined on the graph restricted to a set of kept events.  The
    engine does not build that graph: it keeps the full graph, a mask, and tables over
    the kept events.  [masked_reset] builds the tables, [reachable_from] answers
    causality, and [fifo_rewrite_violates] evaluates the FIFO clauses for a candidate
    rewiring. *)

From stdpp Require Import base tactics numbers sets list strings.
From S2P Require Import Prelude Errors Event Relation ExecutionGraph ExplorationGraph Porf.
From S2P Require Import Consistency.

Record MaskedPorfContext (V : Type) := MkMasked {
  mk_graph : ExplorationGraph V;
  mk_keep : list bool;
  kept_events_by_thread : list (list EventId);
  kept_position_in_thread : list (option nat);
  consumed_send_mask : list bool;
  rf_consumer : list (option EventId);
  extra_rf_consumers : list (EventId * EventId);
  mk_fifo : bool;
  fifo_consumer : list (option EventId);
  channels : list (Channel * list EventId);
}.
Arguments MkMasked {V} mk_graph mk_keep kept_events_by_thread kept_position_in_thread
  consumed_send_mask rf_consumer extra_rf_consumers mk_fifo fifo_consumer channels.
Arguments mk_graph {V} m.
Arguments mk_keep {V} m.
Arguments kept_events_by_thread {V} m.
Arguments kept_position_in_thread {V} m.
Arguments consumed_send_mask {V} m.
Arguments rf_consumer {V} m.
Arguments extra_rf_consumers {V} m.
Arguments mk_fifo {V} m.
Arguments fifo_consumer {V} m.
Arguments channels {V} m.

(** Membership in the keep mask. *)
Definition mask_keeps (mask : list bool) (id : EventId) : bool :=
  match mask !! id with Some b => b | None => false end.

(** The channel bucket of a send, created at the end when the key is new. *)
Fixpoint bucket_push (buckets : list (Channel * list EventId)) (key : Channel) (id : EventId)
    : list (Channel * list EventId) :=
  match buckets with
  | [] => [(key, [id])]
  | (k, ids) :: rest =>
      if decide (k = key) then (k, push_back ids id) :: rest
      else (k, ids) :: bucket_push rest key id
  end.

Section masked.
Context {V : Type}.
Implicit Types (m : MaskedPorfContext V) (g : ExplorationGraph V).

Definition keeps m (id : EventId) : bool := mask_keeps (mk_keep m) id.

(** The event pass of [reset] on one kept event. *)
Definition reset_event m (id : EventId) : res (MaskedPorfContext V) :=
  e ← ExplorationGraph.event (mk_graph m) id;
  let i := N.to_nat (thread e) in
  let by_thread := grow (i + 1) [] (kept_events_by_thread m) in
  ids ← vec_get by_thread i;
  positions ← vec_set (kept_position_in_thread m) id (Some (length ids));
  by_thread' ← vec_set by_thread i (push_back ids id);
  let channels' :=
    if mk_fifo m then
      match as_send e with
      | Some s => bucket_push (channels m) (thread e, destination s) id
      | None => channels m
      end
    else channels m in
  Ok (MkMasked (mk_graph m) (mk_keep m) by_thread' positions (consumed_send_mask m)
        (rf_consumer m) (extra_rf_consumers m) (mk_fifo m) (fifo_consumer m) channels').

(** The reads-from pass of [reset] on one entry. *)
Definition reset_rf m (entry : EventId * ReadsFromSource) : res (MaskedPorfContext V) :=
  let '(recv_id, source) := entry in
  match rf_send source with
  | None => Ok m
  | Some send_id =>
      if negb (keeps m recv_id && keeps m send_id) then Ok m
      else
        consumed ← vec_set (consumed_send_mask m) send_id true;
        c ← vec_get (rf_consumer m) send_id;
        '(consumers, extra) ←
          match c with
          | None => cs ← vec_set (rf_consumer m) send_id (Some recv_id);
                    Ok (cs, extra_rf_consumers m)
          | Some _ => Ok (rf_consumer m, push_back (extra_rf_consumers m) (send_id, recv_id))
          end;
        fifo_consumers ←
          (if mk_fifo m then
             recv_evt ← ExplorationGraph.event (mk_graph m) recv_id;
             send_evt ← ExplorationGraph.event (mk_graph m) send_id;
             match as_receive recv_evt, as_send send_evt with
             | Some r, Some s =>
                 if decide (destination s = thread recv_evt) then
                   accepted ← accepts r (value s);
                   if (accepted : bool) then vec_set (fifo_consumer m) send_id (Some recv_id)
                   else Ok (fifo_consumer m)
                 else Ok (fifo_consumer m)
             | _, _ => Ok (fifo_consumer m)
             end
           else Ok (fifo_consumer m));
        Ok (MkMasked (mk_graph m) (mk_keep m) (kept_events_by_thread m)
              (kept_position_in_thread m) consumed consumers extra (mk_fifo m) fifo_consumers
              (channels m))
  end.

Definition masked_reset g (keep_mask : list bool) (build_fifo : bool)
    : res (MaskedPorfContext V) :=
  if decide (length keep_mask ≠ event_count g) then
    Throw (internal_error "keep mask size must match event count")
  else
    let n := event_count g in
    let m0 := MkMasked g keep_mask [] (replicate n None) (replicate n false) (replicate n None)
                [] build_fifo (replicate n None) [] in
    m1 ← foldM reset_event m0 (List.filter (mask_keeps keep_mask) (seq 0 n));
    foldM reset_rf m1 (rf_to_list (reads_from g)).

Definition send_is_unread m (send_id : EventId) : res bool :=
  if keeps m send_id then consumed ← vec_get (consumed_send_mask m) send_id; Ok (negb consumed)
  else Ok false.

(** *** Reachability *)

(** What [append_successors] pushes: the next kept event of the thread and the readers. *)
Definition masked_successors m (from : EventId) : res (list EventId) :=
  e ← ExplorationGraph.event (mk_graph m) from;
  position ← vec_get (kept_position_in_thread m) from;
  let po_succ :=
    match kept_events_by_thread m !! N.to_nat (thread e), position with
    | Some thread_events, Some p =>
        match thread_events !! (p + 1) with Some next => [next] | None => [] end
    | _, _ => []
    end in
  c ← vec_get (rf_consumer m) from;
  let rf_succ := match c with Some r => [r] | None => [] end in
  let extra := omap (λ x : EventId * EventId, if decide (x.1 = from) then Some x.2 else None)
                 (extra_rf_consumers m) in
  Ok (po_succ ++ rf_succ ++ extra).

Record ReachState := MkReachState {
  rs_reachable : list bool;
  rs_pending : list EventId;
  rs_cursor : nat;
}.

(** One iteration of [while (cursor < pending_.size())]. *)
Definition reach_step m (st : ReachState) : res (ReachState + list bool) :=
  if decide (rs_cursor st < length (rs_pending st)) then
    current ← vec_get (rs_pending st) (rs_cursor st);
    seen ← vec_get (rs_reachable st) current;
    if (seen : bool) then
      Ok (inl (MkReachState (rs_reachable st) (rs_pending st) (S (rs_cursor st))))
    else
      reachable' ← vec_set (rs_reachable st) current true;
      succs ← masked_successors m current;
      Ok (inl (MkReachState reachable' (rs_pending st ++ succs) (S (rs_cursor st))))
  else Ok (inr (rs_reachable st)).

(** Every event is expanded once and pushes at most this many successors. *)
Definition reach_fuel m : nat :=
  S (S (event_count (mk_graph m)) * (2 + length (extra_rf_consumers m))).

Definition reachable_from m (from : EventId) : res (list bool) :=
  if negb (ExplorationGraph.is_valid_event_id (mk_graph m) from) then
    Throw (internal_error "event id not found in masked PORF context")
  else if negb (keeps m from) then
    Throw (internal_error "masked PORF reachability requires a kept source event")
  else
    pending ← masked_successors m from;
    while (reach_fuel m) nontermination (reach_step m)
      (MkReachState (replicate (event_count (mk_graph m)) false) pending 0).

(** *** FIFO clauses *)

(** The body of the innermost loop of [fifo_clause_b_violated]. *)
Definition masked_clause_b_hit m (consumers : list (option EventId)) (r : ReceiveLabel V)
    (earlier_send_id : EventId) : res bool :=
  c ← vec_get consumers earlier_send_id;
  match c with
  | Some _ => Ok false
  | None =>
      e ← ExplorationGraph.event (mk_graph m) earlier_send_id;
      match as_send e with
      | None => Ok false
      | Some s => accepts r (value s)
      end
  end.

Definition masked_clause_b_at m (consumers : list (option EventId)) (channel : list EventId)
    (later : nat * EventId) : res bool :=
  c ← vec_get consumers later.2;
  match c with
  | None => Ok false
  | Some consumer =>
      e ← ExplorationGraph.event (mk_graph m) consumer;
      match as_receive e with
      | None => Ok false
      | Some r => existsM (masked_clause_b_hit m consumers r) (take later.1 channel)
      end
  end.

Definition fifo_clause_b_violated m (consumers : list (option EventId)) : res bool :=
  existsM (λ channel : Channel * list EventId,
    existsM (masked_clause_b_at m consumers channel.2) (imap pair channel.2)) (channels m).

Definition masked_clause_c_hit m (consumers : list (option EventId)) (er : Event V)
    (r : ReceiveLabel V) (earlier_send_id : EventId) : res bool :=
  c ← vec_get consumers earlier_send_id;
  match c with
  | None => Ok false
  | Some later_receive_id =>
      lr ← ExplorationGraph.event (mk_graph m) later_receive_id;
      if decide (thread lr ≠ thread er ∨ (index lr ≤ index er)%N) then Ok false
      else
        e ← ExplorationGraph.event (mk_graph m) earlier_send_id;
        match as_send e with
        | None => Ok false
        | Some s => accepts r (value s)
        end
  end.

Definition masked_clause_c_at m (consumers : list (option EventId)) (channel : list EventId)
    (later : nat * EventId) : res bool :=
  c ← vec_get consumers later.2;
  match c with
  | None => Ok false
  | Some earlier_receive_id =>
      er ← ExplorationGraph.event (mk_graph m) earlier_receive_id;
      match as_receive er with
      | None => Ok false
      | Some r => existsM (masked_clause_c_hit m consumers er r) (take later.1 channel)
      end
  end.

Definition fifo_clause_c_violated m (consumers : list (option EventId)) : res bool :=
  existsM (λ channel : Channel * list EventId,
    existsM (masked_clause_c_at m consumers channel.2) (imap pair channel.2)) (channels m).

(** The consumer table after rebinding [recv] to [candidate]; [previous_source] loses
    its reader. *)
Definition rewritten_consumers m (recv candidate previous_source : EventId)
    : res (list (option EventId)) :=
  cs ← (if decide (previous_source ≠ candidate) then vec_set (fifo_consumer m) previous_source None
        else Ok (fifo_consumer m));
  vec_set cs candidate (Some recv).

(** The source writes the table, evaluates the clauses and restores it. *)
Definition fifo_rewrite_violates m (recv candidate previous_source : EventId) : res bool :=
  consumers ← rewritten_consumers m recv candidate previous_source;
  b ← fifo_clause_b_violated m consumers;
  if (b : bool) then Ok true else fifo_clause_c_violated m consumers.

End masked.
