(* ===== verification/Dpor.v ===== *)
(** * Dpor: the decisions of the exploration engine, [dpor/algo/dpor.hpp]

    The functions Algorithm 1 is made of: which event comes next, which events a
    backward revisit keeps, the tiebreaker that picks a canonical reads-from source,
    the revisit condition, and the graphs that revisits and reschedules produce.  The
    engine that schedules them is in [Explorer].

    [porf_contains] is a const query that fills a cache; [porf_query] is its answer
    (the cache it leaves behind changes no later answer).  The per-worker scratch
    buffers of the source are rebuilt by every call that uses them and are local
    values here. *)

From stdpp Require Import base tactics numbers sets sorting list strings.
From S2P Require Import Prelude Errors Event Relation ExecutionGraph ExplorationGraph Porf.
From S2P Require Import Consistency Program.

(** ** Results *)

Inductive VerifyResultKind := AllExplored | Stopped.

Inductive TerminalExecutionKind := Full | Blocked | ErrorExecution | DepthLimit | ThreadEventLimit.

Inductive TerminalExecutionAction := Continue | Stop.

#[export] Instance VerifyResultKind_eq_dec : EqDecision VerifyResultKind.
Proof. solve_decision. Defined.

#[export] Instance TerminalExecutionKind_eq_dec : EqDecision TerminalExecutionKind.
Proof. solve_decision. Defined.

#[export] Instance TerminalExecutionAction_eq_dec : EqDecision TerminalExecutionAction.
Proof. solve_decision. Defined.

Record VerifyResult := MkVerifyResult {
  vr_kind : VerifyResultKind;
  executions_explored : nat;
  full_executions_explored : nat;
  blocked_executions_explored : nat;
  error_executions_explored : nat;
  depth_limit_executions_explored : nat;
  thread_event_limit_executions_explored : nat;
  max_thread_event_depth_reached : nat;
  nd_splits : nat;
  receive_splits : nat;
}.

Definition new_result : VerifyResult := MkVerifyResult AllExplored 0 0 0 0 0 0 0 0 0.

Definition all_explored (r : VerifyResult) : bool := bool_decide (vr_kind r = AllExplored).
Definition stopped (r : VerifyResult) : bool := bool_decide (vr_kind r = Stopped).
Definition terminal_executions_explored (r : VerifyResult) : nat := executions_explored r.

Definition increment_terminal_counts (r : VerifyResult) (kind : TerminalExecutionKind)
    (thread_event_depth : nat) : VerifyResult :=
  let bump k n := if decide (kind = k) then S n else n in
  MkVerifyResult (vr_kind r) (S (executions_explored r))
    (bump Full (full_executions_explored r))
    (bump Blocked (blocked_executions_explored r))
    (bump ErrorExecution (error_executions_explored r))
    (bump DepthLimit (depth_limit_executions_explored r))
    (bump ThreadEventLimit (thread_event_limit_executions_explored r))
    (if decide (max_thread_event_depth_reached r < thread_event_depth) then thread_event_depth
     else max_thread_event_depth_reached r)
    (nd_splits r) (receive_splits r).

(** ** Next event *)

Definition sorted_thread_ids {V} (program : Program V) : res (list ThreadId) :=
  _ ← validate_compact_thread_ids (threads program);
  Ok (assigned_ids (threads program)).

(** [choices] without repetitions, first occurrences kept in order. *)
Fixpoint erase_duplicates_from {V} `{EqDecision V} (kept choices : list V) : list V :=
  match choices with
  | [] => kept
  | c :: rest => if decide (c ∈ kept) then erase_duplicates_from kept rest
                 else erase_duplicates_from (push_back kept c) rest
  end.

Definition erase_duplicate_nd_choices {V} `{EqDecision V} (choices : list V) : list V :=
  erase_duplicates_from [] choices.

Record NextEventResult (V : Type) := MkNextEventResult {
  next : option (ThreadId * EventLabel V);
  suppressed_by_thread_event_limit : bool;
}.
Arguments MkNextEventResult {V} next suppressed_by_thread_event_limit.
Arguments next {V} n.
Arguments suppressed_by_thread_event_limit {V} n.

Section queries.
Context {V : Type}.
Implicit Types (g : ExplorationGraph V) (tid : ThreadId).

(** The send at [send_id] goes to [tid] and [receive] accepts its value. *)
Definition send_is_compatible g tid (receive : ReceiveLabel V) (send_id : EventId) : res bool :=
  e ← ExplorationGraph.event g send_id;
  match as_send e with
  | None => Ok false
  | Some send => if decide (destination send = tid) then accepts receive (value send) else Ok false
  end.

Definition has_compatible_unread_send g tid (receive : ReceiveLabel V) : res bool :=
  any_unread_send g (send_is_compatible g tid receive).

Definition compatible_unread_send_ids g tid (receive : ReceiveLabel V) : res (list EventId) :=
  filterM (send_is_compatible g tid receive) (ExplorationGraph.unread_send_event_ids g).

Definition check_consistency g (model : CommunicationModel)
    : res (ConsistencyResult * ExplorationGraph V) := check_exploration model g.

(** [AllowMissingReadsForNonTargetT]. *)
Definition allow_missing_reads_for_non_target (target_receive receive_id : EventId) : bool :=
  bool_decide (receive_id ≠ target_receive).

Definition compute_max_thread_event_depth g (thread_ids : list ThreadId) : nat :=
  foldl (λ depth tid, depth `max` thread_event_count g tid) 0 thread_ids.

(** [std::holds_alternative<BlockLabel>]. *)
Definition is_block_label (l : EventLabel V) : bool := match l with LBlock => true | _ => false end.

Definition returned_block tid : exn :=
  make_user_code_error ThreadFunction (Some tid) None
    "returned BlockLabel; Block events are internal to DPOR".

(** The call of the thread function of [tid] with its trace and step. *)
Definition call_thread `{EqDecision V} (program : Program V) g tid (step : nat)
    : res (option (EventLabel V)) :=
  thread_fn ← tm_at (threads program) tid;
  trace ← thread_trace g tid;
  invoke_user_code ThreadFunction (Some tid) (thread_fn trace step).

(** The loop of [compute_next_event] over the remaining threads; [suppressed] is the
    flag of the result so far. *)
Fixpoint next_event_from `{EqDecision V} (program : Program V) g (max_thread_events : nat)
    (suppressed : bool) (tids : list ThreadId) : res (NextEventResult V) :=
  match tids with
  | [] => Ok (MkNextEventResult None suppressed)
  | tid :: rest =>
      terminated ← thread_is_terminated g tid;
      if (terminated : bool) then next_event_from program g max_thread_events suppressed rest
      else if decide (max_thread_events ≠ 0 ∧ max_thread_events ≤ thread_event_count g tid) then
        next_event_from program g max_thread_events true rest
      else
        next_label ← call_thread program g tid (thread_event_count g tid);
        match next_label with
        | None => next_event_from program g max_thread_events suppressed rest
        | Some label =>
            if is_block_label label then Throw (returned_block tid)
            else
              match label with
              | LReceive recv =>
                  if is_blocking recv then
                    has ← has_compatible_unread_send g tid recv;
                    if (has : bool) then Ok (MkNextEventResult (Some (tid, label)) suppressed)
                    else Ok (MkNextEventResult (Some (tid, LBlock)) suppressed)
                  else Ok (MkNextEventResult (Some (tid, label)) suppressed)
              | _ => Ok (MkNextEventResult (Some (tid, label)) suppressed)
              end
        end
  end.

Definition compute_next_event `{EqDecision V} (program : Program V) g
    (thread_ids : list ThreadId) (max_thread_events : nat) : res (NextEventResult V) :=
  next_event_from program g max_thread_events false thread_ids.

(** ** Previous *)

Definition porf_query g (from to : EventId) : res bool := fst <$> porf_contains g from to.

(** [e' <=_G e] or (e', s) in porf. *)
Definition in_previous g (e s ep : EventId) : res bool :=
  before ← inserted_before_or_equal g ep e;
  if (before : bool) then Ok true else porf_query g ep s.

Definition compute_previous_set g (e s : EventId) : res (list bool) :=
  mapM (in_previous g e s) (seq 0 (event_count g)).

End queries.
