(* ===== verification/Revisit.v ===== *)
(** * Revisit: tiebreakers, the revisit condition, and the graphs they lead to

    The part of [dpor/algo/dpor.hpp] that decides backward revisits: the tiebreaker on a
    materialized graph and on a masked one, [revisit_condition], and the children of a
    send and of a blocked receive.  Values are compared with [value_lt], the [operator<]
    of the payload type. *)

From stdpp Require Import base tactics numbers sets sorting list strings.
From S2P Require Import Prelude Errors Event Relation ExecutionGraph ExplorationGraph Porf.
From S2P Require Import Consistency Program Masked Dpor.

(** ** Candidates *)

Record Candidate := MkCandidate { cand_send : EventId; sender_thread : ThreadId }.

(** The order of the [std::sort] call: by sender thread, then by event id. *)
Definition candidate_le (a b : Candidate) : Prop :=
  (sender_thread a < sender_thread b)%N ∨
  (sender_thread a = sender_thread b ∧ cand_send a ≤ cand_send b).

#[export] Instance candidate_le_dec : RelDecision candidate_le.
Proof. intros a b. unfold candidate_le. apply _. Defined.

Definition sort_candidates (cs : list Candidate) : list Candidate := merge_sort candidate_le cs.

Section tiebreaker.
Context {V : Type}.
Implicit Types (g : ExplorationGraph V) (recv send : EventId) (model : CommunicationModel).

(** The candidate of [send_id] when it is a compatible send, as a list. *)
Definition candidate_of g (recv_evt : Event V) (r : ReceiveLabel V) (send_id : EventId)
    : res (list Candidate) :=
  e ← ExplorationGraph.event g send_id;
  match as_send e with
  | None => Ok []
  | Some s =>
      if decide (destination s = thread recv_evt) then
        accepted ← accepts r (value s);
        Ok (if (accepted : bool) then [MkCandidate send_id (thread e)] else [])
      else Ok []
  end.

(** The candidates of a list of sends, in order. *)
Definition candidates_of g (recv_evt : Event V) (r : ReceiveLabel V) (ids : list EventId)
    : res (list Candidate) :=
  foldM (λ acc id, cs ← candidate_of g recv_evt r id; Ok (acc ++ cs)) [] ids.

(** The checks on [recv] that both tiebreakers make: its event, its label and the send
    it reads. *)
Definition tiebreaker_receive g recv : res (Event V * ReceiveLabel V * EventId) :=
  e ← ExplorationGraph.event g recv;
  match as_receive e with
  | None => Throw (internal_error "get_cons_tiebreaker invariant violated: event is not a receive")
  | Some r =>
      if is_nonblocking r then
        Throw (internal_error
          "get_cons_tiebreaker invariant violated: event is not a blocking receive")
      else
        match rf_find (reads_from g) recv with
        | None => Throw (internal_error
            "get_cons_tiebreaker invariant violated: receive missing reads-from source")
        | Some source =>
            match rf_send source with
            | None => Throw (internal_error
                "get_cons_tiebreaker invariant violated: blocking receive reads from bottom")
            | Some current => Ok (e, r, current)
            end
        end
  end.

Definition no_consistent_source : exn :=
  internal_error "get_cons_tiebreaker invariant violated: no consistent source found".

(** ** The tiebreaker on a graph *)

Definition rewiring_recv_creates_cycle g recv send : res bool := porf_query g recv send.

Definition check_consistency_allowing_missing_reads_except g (target_receive : EventId) model
    : res (ConsistencyResult * ExplorationGraph V) :=
  check_exploration_graph g model (allow_missing_reads_for_non_target target_receive).

(** The consistency check of a rewritten graph. *)
Definition check_rewritten g recv model (allow_non_target_missing_reads : bool)
    : res (ConsistencyResult * ExplorationGraph V) :=
  if allow_non_target_missing_reads
  then check_consistency_allowing_missing_reads_except g recv model
  else check_consistency g model.

(** [graph.is_known_acyclic() && !rewiring_recv_creates_cycle(graph, recv, send)]. *)
Definition preserves_acyclicity g recv send : res bool :=
  if is_known_acyclic g then
    cycle ← rewiring_recv_creates_cycle g recv send; Ok (negb cycle)
  else Ok false.

(** The copy of [g] in which [recv] reads from [send]. *)
Definition rewritten_copy g recv send (preserves : bool) : res (ExplorationGraph V) :=
  if preserves then with_rf_preserving_known_acyclicity g recv send else with_rf g recv send.

Definition rf_rewrite_is_consistent g recv send model (allow_non_target_missing_reads : bool)
    : res bool :=
  if decide (model = Async ∧ allow_non_target_missing_reads = false) then
    cycle ← rewiring_recv_creates_cycle g recv send; Ok (negb cycle)
  else
    preserves ← preserves_acyclicity g recv send;
    rewritten ← rewritten_copy g recv send preserves;
    '(r, _) ← check_rewritten rewritten recv model allow_non_target_missing_reads;
    Ok (is_consistent r).

(** The loop over the sorted candidates.  [rewritten] is the graph materialized for the
    first candidate and rebound for the later ones. *)
Fixpoint try_candidates g recv model (allow : bool) (rewritten : option (ExplorationGraph V))
    (cs : list Candidate) : res EventId :=
  match cs with
  | [] => Throw no_consistent_source
  | c :: rest =>
      if decide (model = Async ∧ allow = false) then
        cycle ← rewiring_recv_creates_cycle g recv (cand_send c);
        if (cycle : bool) then try_candidates g recv model allow rewritten rest
        else Ok (cand_send c)
      else
        preserves ← preserves_acyclicity g recv (cand_send c);
        rw ← match rewritten with
             | Some old => rebind_rf old recv (cand_send c) preserves
             | None => rewritten_copy g recv (cand_send c) preserves
             end;
        '(r, rw') ← check_rewritten rw recv model allow;
        if is_consistent r then Ok (cand_send c)
        else try_candidates g recv model allow (Some rw') rest
  end.

Definition get_cons_tiebreaker g recv model (allow_non_target_missing_reads : bool)
    : res EventId :=
  '(recv_evt, r, current) ← tiebreaker_receive g recv;
  unread ← candidates_of g recv_evt r (ExplorationGraph.unread_send_event_ids g);
  own ← candidate_of g recv_evt r current;
  try_candidates g recv model allow_non_target_missing_reads None
    (sort_candidates (unread ++ own)).

(** ** The tiebreaker on a masked graph *)

(** Reference: materialize the restriction and map the answer back. *)
Definition get_cons_tiebreaker_masked_via_restriction g (keep_mask : list bool) recv model
    : res EventId :=
  restricted ← restrict_from_keep_mask g keep_mask;
  let new_to_old := List.filter (mask_keeps keep_mask) (seq 0 (event_count g)) in
  match fst <$> list_find (λ id, id = recv) new_to_old with
  | None => Throw (internal_error
      "get_cons_tiebreaker invariant violated: event missing from keep mask")
  | Some remapped_recv =>
      remapped_send ← get_cons_tiebreaker restricted remapped_recv model true;
      match new_to_old !! remapped_send with
      | None => Throw (internal_error
          "get_cons_tiebreaker invariant violated: remapped send missing from restricted graph")
      | Some old => Ok old
      end
  end.

(** The loop over the sorted candidates. *)
Fixpoint try_masked_candidates (m : MaskedPorfContext V) recv model (current : EventId)
    (reachable : list bool) (cs : list Candidate) : res EventId :=
  match cs with
  | [] => Throw no_consistent_source
  | c :: rest =>
      seen ← vec_get reachable (cand_send c);
      if (seen : bool) then try_masked_candidates m recv model current reachable rest
      else
        violates ← (if decide (model = FifoP2P)
                    then fifo_rewrite_violates m recv (cand_send c) current else Ok false);
        if (violates : bool) then try_masked_candidates m recv model current reachable rest
        else Ok (cand_send c)
  end.

Definition get_cons_tiebreaker_masked g (keep_mask : list bool) recv model : res EventId :=
  m ← masked_reset g keep_mask (bool_decide (model = FifoP2P));
  if negb (keeps m recv) then
    Throw (internal_error "get_cons_tiebreaker invariant violated: event missing from keep mask")
  else
    '(recv_evt, r, current) ← tiebreaker_receive g recv;
    if negb (keeps m current) then
      Throw (internal_error
        "get_cons_tiebreaker invariant violated: receive source missing from keep mask")
    else
      unread_ids ← filterM (send_is_unread m) (seq 0 (event_count g));
      unread ← candidates_of g recv_evt r unread_ids;
      own ← candidate_of g recv_evt r current;
      reachable ← reachable_from m recv;
      try_masked_candidates m recv model current reachable (sort_candidates (unread ++ own)).

End tiebreaker.

(** ** The revisit condition *)

Section revisit.
Context {V : Type} `{EqDecision V} (value_lt : V → V → bool).
Implicit Types (g : ExplorationGraph V) (e s : EventId) (model : CommunicationModel).

(** [std::min_element]: the first smallest element. *)
Fixpoint min_element_from (best : V) (l : list V) : V :=
  match l with
  | [] => best
  | x :: rest => min_element_from (if value_lt x best then x else best) rest
  end.

(** [ep < graph.event_count() && (...)]. *)
Definition in_previous_checked g e s (ep : EventId) : res bool :=
  if decide (ep < event_count g) then in_previous g e s ep else Ok false.

(** The entry reads [e] and its receive is in Previous. *)
Definition reads_in_previous g e s (entry : EventId * ReadsFromSource) : res bool :=
  if decide (rf_send entry.2 = Some e) then
    r ← ExplorationGraph.event g entry.1;
    if is_receive r then in_previous_checked g e s entry.1 else Ok false
  else Ok false.

(** The branch for blocking receives. *)
Definition revisit_blocking_receive g e s model : res bool :=
  present ← in_previous_checked g e s e;
  if negb present then
    Throw (internal_error "revisit_condition invariant violated: event missing from Previous")
  else
    match rf_find (reads_from g) e with
    | None => Throw (internal_error
        "revisit_condition invariant violated: receive missing reads-from source")
    | Some source =>
        match rf_send source with
        | None => Throw (internal_error
            "revisit_condition invariant violated: blocking receive reads from bottom")
        | Some current =>
            inside ← in_previous_checked g e s current;
            if negb inside then Ok false
            else
              previous ← compute_previous_set g e s;
              tiebreaker ← get_cons_tiebreaker_masked g previous e model;
              Ok (bool_decide (current = tiebreaker))
        end
    end.

Definition revisit_condition g e s model : res bool :=
  evt ← ExplorationGraph.event g e;
  match label evt with
  | LReceive r =>
      if is_nonblocking r then
        match rf_find (reads_from g) e with
        | None => Throw (internal_error
            "revisit_condition invariant violated: non-blocking receive missing reads-from source")
        | Some source => Ok (source_is_bottom source)
        end
      else revisit_blocking_receive g e s model
  | LNd n =>
      match choices n with
      | [] => Ok true
      | c :: rest => Ok (bool_decide (nd_value n = min_element_from c rest))
      end
  | _ =>
      read ← existsM (reads_in_previous g e s) (rf_to_list (reads_from g));
      Ok (negb read)
  end.

(** ** Backward revisits *)

(** The Deleted scan of [next_backward_revisit_child]: the keep mask, or nothing when a
    deleted event fails its revisit condition. *)
Fixpoint deleted_scan g (recv_id send_id : EventId) model (keep_mask : list bool)
    (eps : list EventId) : res (option (list bool)) :=
  match eps with
  | [] => Ok (Some keep_mask)
  | ep :: rest =>
      if decide (ep = recv_id ∨ ep = send_id) then
        deleted_scan g recv_id send_id model keep_mask rest
      else
        kept ← in_previous g recv_id send_id ep;
        if (kept : bool) then deleted_scan g recv_id send_id model keep_mask rest
        else
          keep_mask' ← vec_set keep_mask ep false;
          ok ← revisit_condition g ep send_id model;
          if (ok : bool) then deleted_scan g recv_id send_id model keep_mask' rest
          else Ok None
  end.

(** The new id of a kept event: the number of kept events before it. *)
Definition new_id_of (keep_mask : list bool) (id : EventId) : option EventId :=
  match keep_mask !! id with
  | Some true => Some (length (List.filter (mask_keeps keep_mask) (seq 0 id)))
  | _ => None
  end.

Record BackwardRevisitChildResult := MkBackwardRevisitChild {
  next_receive_index : nat;
  child : option (ExplorationGraph V);
}.

(** The loop of [next_backward_revisit_child] from [receive_index] on. *)
Fixpoint backward_revisit_from g (send_id : EventId) (send : SendLabel V) model
    (receive_index : nat) (receives : list EventId) : res BackwardRevisitChildResult :=
  match receives with
  | [] => Ok (MkBackwardRevisitChild receive_index None)
  | recv_id :: rest =>
      let continue := backward_revisit_from g send_id send model (S receive_index) rest in
      recv_evt ← ExplorationGraph.event g recv_id;
      match as_receive recv_evt with
      | None => continue
      | Some r =>
          accepted ← accepts r (value send);
          if negb accepted then continue
          else
          causal ← porf_query g recv_id send_id;
          if (causal : bool) then continue
          else
          ok ← revisit_condition g recv_id send_id model;
          if negb ok then continue
          else
          scan ← deleted_scan g recv_id send_id model (replicate (event_count g) true)
                   (seq 0 (event_count g));
          match scan with
          | None => continue
          | Some keep_mask =>
              restricted ← restrict_from_keep_mask g keep_mask;
              match new_id_of keep_mask recv_id, new_id_of keep_mask send_id with
              | Some new_recv_id, Some new_send_id =>
                  c ← rebind_rf_preserving_known_acyclicity restricted new_recv_id new_send_id;
                  Ok (MkBackwardRevisitChild (S receive_index) (Some c))
              | _, _ => continue
              end
          end
      end
  end.

Definition next_backward_revisit_child g (send_id : EventId) model (receives : list EventId)
    (start_receive_index : nat) : res BackwardRevisitChildResult :=
  e ← ExplorationGraph.event g send_id;
  match as_send e with
  | None => Ok (MkBackwardRevisitChild 0 None)
  | Some send =>
      backward_revisit_from g send_id send model start_receive_index
        (drop start_receive_index receives)
  end.

(** ** Rescheduling blocked receives *)

Definition blocked_became_done tid : exn :=
  make_user_code_error ThreadFunction (Some tid) None
    "blocked thread became done after unblocking; determinism requires the same blocking receive for the same (trace, step)".

Definition blocked_not_receive tid : exn :=
  make_user_code_error ThreadFunction (Some tid) None
    "blocked thread did not produce a receive after unblocking; determinism requires the same blocking receive for the same (trace, step)".

Definition blocked_not_blocking tid : exn :=
  make_user_code_error ThreadFunction (Some tid) None
    "blocked thread produced a non-blocking receive after unblocking; determinism requires the same blocking receive for the same (trace, step)".

(** The reschedule of thread [tid], when its last event is a block that a send can now
    satisfy. *)
Definition reschedule_thread (program : Program V) g (tid : ThreadId)
    : res (option (ExplorationGraph V)) :=
  match last_event_id g tid with
  | None => Ok None
  | Some last_id =>
      e ← ExplorationGraph.event g last_id;
      if negb (is_block e) then Ok None
      else
        next_label ← call_thread program g tid (thread_event_count g tid - 1);
        match next_label with
        | None => Throw (blocked_became_done tid)
        | Some LBlock => Throw (returned_block tid)
        | Some (LReceive recv) =>
            if is_nonblocking recv then Throw (blocked_not_blocking tid)
            else
              has ← has_compatible_unread_send g tid recv;
              if (has : bool) then
                keep_mask ← vec_set (replicate (event_count g) true) last_id false;
                restricted ← restrict_from_keep_mask g keep_mask;
                Ok (Some restricted)
              else Ok None
        | Some _ => Throw (blocked_not_receive tid)
        end
  end.

End revisit.
