(* ===== verification/Explorer.v ===== *)
(** * Explorer: the exploration engine, [dpor/algo/dpor.hpp]

    [DepthFirstExplorer] runs Algorithm 1 with an explicit stack.  A context is a graph
    and a stack of frames that explore it in place; the bottom context borrows the graph
    of the caller, the contexts above it own the graphs of backward revisits and of
    reschedules.  The engine asks an executor when to stop, when to hand work to another
    worker and where to publish terminal executions: the class [Executor] is that
    interface and [sequential_executor] the implementation [verify] uses.

    Frames and contexts are vectors in the source; here they are lists whose head is the
    back of the vector.  A throwing step ends the run with the exception; the diagnostic hook
    [on_fatal_error] and the unwinding that precedes the rethrow are in [Fatal]. *)

From stdpp Require Import base tactics numbers sets list strings.
From S2P Require Import Prelude Errors Event Relation ExecutionGraph ExplorationGraph Porf.
From S2P Require Import Consistency Program Masked Dpor Revisit.

(** ** Configuration *)

Inductive ProgressState := ProgressRunning | ProgressStopped | ProgressAllExplored.

Record ProgressSnapshot := MkProgressSnapshot {
  ps_state : ProgressState;
  elapsed : Z;
  terminal_executions : nat;
  full_executions : nat;
  blocked_executions : nat;
  error_executions : nat;
  depth_limit_executions : nat;
  thread_event_limit_executions : nat;
  max_thread_event_depth : nat;
  active_workers : nat;
  max_workers : nat;
  queued_tasks : nat;
  max_queued_tasks : nat;
  counts_exact : bool;
}.

Record TerminalExecution (V : Type) := MkTerminalExecution {
  te_graph : ExplorationGraph V;
  te_kind : TerminalExecutionKind;
}.
Arguments MkTerminalExecution {V} te_graph te_kind.
Arguments te_graph {V} t.
Arguments te_kind {V} t.

(** Observers are user code with state of type [O]. *)
Definition TerminalExecutionObserver (V O : Type) : Type :=
  O → TerminalExecution V → res (TerminalExecutionAction * O).

Record DporConfig (V O : Type) := MkDporConfig {
  program : Program V;
  max_depth : nat;
  max_thread_events : nat;
  communication_model : CommunicationModel;
  on_terminal_execution : option (TerminalExecutionObserver V O);
  on_progress : option (O → ProgressSnapshot → res O);
  progress_report_interval : Z;
  on_execution : option (TerminalExecutionObserver V O);
}.
Arguments MkDporConfig {V O}.
Arguments program {V O} d.
Arguments max_depth {V O} d.
Arguments max_thread_events {V O} d.
Arguments communication_model {V O} d.
Arguments on_terminal_execution {V O} d.
Arguments on_progress {V O} d.
Arguments progress_report_interval {V O} d.
Arguments on_execution {V O} d.

Section notifications.
Context {V O : Type}.
Implicit Types (config : DporConfig V O).

(** The observer's state is threaded next to its answer. *)
Definition notify_terminal_execution config (o : O) (g : ExplorationGraph V)
    (kind : TerminalExecutionKind) : res (TerminalExecutionAction * O) :=
  match on_terminal_execution config with
  | Some f => invoke_user_code TerminalObserver None (f o (MkTerminalExecution g kind))
  | None =>
      match on_execution config with
      | Some f => invoke_user_code TerminalObserver None (f o (MkTerminalExecution g kind))
      | None => Ok (Continue, o)
      end
  end.

Definition validate_terminal_observer_config config : res unit :=
  match on_terminal_execution config, on_execution config with
  | Some _, Some _ => Throw (precondition_error
      "DporConfigT: set only one of on_terminal_execution and its legacy alias on_execution")
  | _, _ => Ok tt
  end.

Definition progress_state_from_result_kind (kind : VerifyResultKind) : ProgressState :=
  match kind with Stopped => ProgressStopped | AllExplored => ProgressAllExplored end.

Definition notify_progress config (o : O) (snapshot : ProgressSnapshot) : res O :=
  match on_progress config with
  | Some f => invoke_user_code ProgressObserver None (f o snapshot)
  | None => Ok o
  end.

End notifications.

(** ** The interface of executors *)

Inductive ExplorationTaskMode := Visit | VisitIfConsistent.

Record ExplorationTask (V : Type) := MkExplorationTask {
  task_graph : ExplorationGraph V;
  task_dpor_tree_depth : nat;
  task_mode : ExplorationTaskMode;
}.
Arguments MkExplorationTask {V} task_graph task_dpor_tree_depth task_mode.

(** What the engine asks of the executor it runs on; [X] is the executor's state. *)
Class Executor (V X : Type) := {
  stop_requested : X → bool * X;
  maybe_report_progress : X → res X;
  can_spawn : nat → X → bool * X;
  should_split_to_idle_worker : nat → X → bool * X;
  note_nd_split : X → X;
  note_receive_split : X → X;
  try_enqueue : ExplorationTask V → X → bool * X;
  publish_terminal_execution :
    ExplorationGraph V → TerminalExecutionKind → nat → X → res (bool * X);
}.

(** ** The sequential executor *)

Record SequentialState (O : Type) := MkSequentialState {
  seq_result : VerifyResult;
  seq_observers : O;
  clock_reads : nat;
  next_progress_report_at : Z;
}.
Arguments MkSequentialState {O} seq_result seq_observers clock_reads next_progress_report_at.
Arguments seq_result {O} s.
Arguments seq_observers {O} s.
Arguments clock_reads {O} s.
Arguments next_progress_report_at {O} s.

Section sequential.
(** [clock i] is the i-th reading of the steady clock. *)
Context {V O : Type} (config : DporConfig V O) (clock : nat → Z) (start_time : Z).
Implicit Types (s : SequentialState O).

(** The constructor. *)
Definition new_sequential_state (result : VerifyResult) (o : O) (reads : nat)
    : SequentialState O :=
  MkSequentialState result o reads
    (if decide (0 < progress_report_interval config)%Z
     then start_time + progress_report_interval config else start_time)%Z.

Definition seq_stop_requested s : bool * SequentialState O :=
  (bool_decide (vr_kind (seq_result s) = Stopped), s).

Definition make_progress_snapshot s (state : ProgressState) (now : Z) : ProgressSnapshot :=
  let r := seq_result s in
  MkProgressSnapshot state (now - start_time) (executions_explored r)
    (full_executions_explored r) (blocked_executions_explored r) (error_executions_explored r)
    (depth_limit_executions_explored r) (thread_event_limit_executions_explored r)
    (max_thread_event_depth_reached r)
    (match state with ProgressRunning => 1 | _ => 0 end) 1 0 0 true.

(** The report of a snapshot, the clock having been read [reads] times. *)
Definition seq_report s (state : ProgressState) (now : Z) (reads : nat) (next_report : Z)
    : res (SequentialState O) :=
  o ← notify_progress config (seq_observers s) (make_progress_snapshot s state now);
  Ok (MkSequentialState (seq_result s) o reads next_report).

Definition seq_maybe_report_progress s : res (SequentialState O) :=
  match on_progress config with
  | None => Ok s
  | Some _ =>
      let now := clock (clock_reads s) in
      let reads := S (clock_reads s) in
      if decide (0 < progress_report_interval config)%Z then
        if decide (now < next_progress_report_at s)%Z then
          Ok (MkSequentialState (seq_result s) (seq_observers s) reads
                (next_progress_report_at s))
        else seq_report s ProgressRunning now reads (now + progress_report_interval config)%Z
      else seq_report s ProgressRunning now reads (next_progress_report_at s)
  end.

Definition request_stop (r : VerifyResult) : VerifyResult :=
  MkVerifyResult Stopped (executions_explored r) (full_executions_explored r)
    (blocked_executions_explored r) (error_executions_explored r)
    (depth_limit_executions_explored r) (thread_event_limit_executions_explored r)
    (max_thread_event_depth_reached r) (nd_splits r) (receive_splits r).

Definition seq_publish_terminal_execution (g : ExplorationGraph V)
    (kind : TerminalExecutionKind) (thread_event_depth : nat) s
    : res (bool * SequentialState O) :=
  let r := increment_terminal_counts (seq_result s) kind thread_event_depth in
  '(action, o) ← notify_terminal_execution config (seq_observers s) g kind;
  Ok (true, MkSequentialState (if decide (action = Stop) then request_stop r else r) o
              (clock_reads s) (next_progress_report_at s)).

Definition publish_final_progress s : res (SequentialState O) :=
  match on_progress config with
  | None => Ok s
  | Some _ =>
      seq_report s (progress_state_from_result_kind (vr_kind (seq_result s)))
        (clock (clock_reads s)) (S (clock_reads s)) (next_progress_report_at s)
  end.

(** Never splits, never spawns, never enqueues. *)
Definition sequential_executor : Executor V (SequentialState O) := {|
  stop_requested := seq_stop_requested;
  maybe_report_progress := seq_maybe_report_progress;
  can_spawn := λ _ s, (false, s);
  should_split_to_idle_worker := λ _ s, (false, s);
  note_nd_split := λ s, s;
  note_receive_split := λ s, s;
  try_enqueue := λ _ s, (false, s);
  publish_terminal_execution := seq_publish_terminal_execution;
|}.

End sequential.

(** ** Frames, contexts and the engine's state *)

Inductive ExplorationFrameKind :=
| Enter | ExitLinearChild | ResumeNd | ResumeReceive | ResumeSendRevisits.

#[export] Instance frame_kind_eq_dec : EqDecision ExplorationFrameKind.
Proof. solve_decision. Defined.

Record ExplorationFrame (V : Type) := MkFrame {
  frame_kind : ExplorationFrameKind;
  dpor_tree_depth : nat;
  frame_mode : ExplorationTaskMode;
  frame_checkpoint : Checkpoint;
  cursor : nat;
  event_id : option EventId;
  thread_id : ThreadId;
  frame_label : option (EventLabel V);
  candidate_event_ids : list EventId;
  flag : bool;
}.
Arguments MkFrame {V}.
Arguments frame_kind {V} e.
Arguments dpor_tree_depth {V} e.
Arguments frame_mode {V} e.
Arguments frame_checkpoint {V} e.
Arguments cursor {V} e.
Arguments event_id {V} e.
Arguments thread_id {V} e.
Arguments frame_label {V} e.
Arguments candidate_event_ids {V} e.
Arguments flag {V} e.

(** The frame [ExplorationFrame::enter] builds; the other fields have their defaults. *)
Definition enter {V} (frame_dpor_tree_depth : nat) (md : ExplorationTaskMode)
    : ExplorationFrame V :=
  MkFrame Enter frame_dpor_tree_depth md (MkCheckpoint 0 0 true None) 0 None 0%N None [] false.

Record ExplorationContext (V : Type) := MkContext {
  owned_graph : option (ExplorationGraph V);
  frames : list (ExplorationFrame V);
}.
Arguments MkContext {V} owned_graph frames.
Arguments owned_graph {V} e.
Arguments frames {V} e.

Inductive BlockedReceiveReschedule (V : Type) :=
| RescheduleNone
| RescheduleReady (g : ExplorationGraph V)
| RescheduleStopRequested.
Arguments RescheduleNone {V}.
Arguments RescheduleReady {V} g.
Arguments RescheduleStopRequested {V}.

(** The members of [DepthFirstExplorer] that change: the executor, the graph the bottom
    context borrows, and the contexts. *)
Record Explorer (V X : Type) := MkExplorer {
  executor : X;
  borrowed_graph : ExplorationGraph V;
  contexts : list (ExplorationContext V);
}.
Arguments MkExplorer {V X} executor borrowed_graph contexts.
Arguments executor {V X} e.
Arguments borrowed_graph {V X} e.
Arguments contexts {V X} e.

Section engine.
Context {V O X : Type} `{EqDecision V} `{Executor V X} (value_lt : V → V → bool)
  (config : DporConfig V O) (thread_ids : list ThreadId).
Implicit Types (m : Explorer V X) (g : ExplorationGraph V) (f : ExplorationFrame V).

(** *** Access to the current context *)

(** [context.graph()]. *)
Definition context_graph m (c : ExplorationContext V) : ExplorationGraph V :=
  match owned_graph c with Some g => g | None => borrowed_graph m end.

(** [contexts_.back()] and [frames.back()]: undefined behaviour when there is none. *)
Definition current m : res (ExplorationContext V * ExplorationFrame V) :=
  match contexts m with
  | c :: _ => match frames c with f :: _ => Ok (c, f) | [] => Throw undefined_behavior end
  | [] => Throw undefined_behavior
  end.

Definition set_executor m (x : X) : Explorer V X :=
  MkExplorer x (borrowed_graph m) (contexts m).

(** The current context's graph, updated in place. *)
Definition set_current_graph m g : Explorer V X :=
  match contexts m with
  | [] => m
  | c :: cs =>
      match owned_graph c with
      | Some _ => MkExplorer (executor m) (borrowed_graph m) (MkContext (Some g) (frames c) :: cs)
      | None => MkExplorer (executor m) g (contexts m)
      end
  end.

Definition set_current_frames m (fs : list (ExplorationFrame V)) : Explorer V X :=
  match contexts m with
  | [] => m
  | c :: cs => MkExplorer (executor m) (borrowed_graph m) (MkContext (owned_graph c) fs :: cs)
  end.

Definition current_frames m : list (ExplorationFrame V) :=
  match contexts m with c :: _ => frames c | [] => [] end.

(** [frame = f] through the reference to the back of the frames. *)
Definition set_frame m f : Explorer V X := set_current_frames m (f :: tail (current_frames m)).

(** [context.frames.push_back(f)]. *)
Definition push_frame m f : Explorer V X := set_current_frames m (f :: current_frames m).

Definition pop_context m : Explorer V X :=
  MkExplorer (executor m) (borrowed_graph m) (tail (contexts m)).

Definition pop_context_if_empty m : Explorer V X :=
  match contexts m with
  | c :: _ => match frames c with [] => pop_context m | _ => m end
  | [] => m
  end.

Definition pop_top_frame m : Explorer V X :=
  pop_context_if_empty (set_current_frames m (tail (current_frames m))).

Definition rollback_and_pop_top_frame m : res (Explorer V X) :=
  '(c, f) ← current m;
  g ← rollback (context_graph m c) (frame_checkpoint f);
  Ok (pop_top_frame (set_current_graph m g)).

Definition push_owned_context m g (depth : nat) (md : ExplorationTaskMode) : Explorer V X :=
  MkExplorer (executor m) (borrowed_graph m)
    (MkContext (Some g) [enter depth md] :: contexts m).

Definition unwind_one_step m : res (Explorer V X) :=
  match contexts m with
  | [] => Ok m
  | c :: _ =>
      match frames c with
      | [] => Ok (pop_context m)
      | f :: _ =>
          match frame_kind f with
          | Enter => Ok (pop_top_frame m)
          | _ => rollback_and_pop_top_frame m
          end
      end
  end.

(** *** Frame updates *)

(** [frame.kind = ExitLinearChild; frame.checkpoint = cp]. *)
Definition exit_linear_child f (cp : Checkpoint) : ExplorationFrame V :=
  MkFrame ExitLinearChild (dpor_tree_depth f) (frame_mode f) cp (cursor f) (event_id f) (thread_id f)
    (frame_label f) (candidate_event_ids f) (flag f).

Definition set_mode f (md : ExplorationTaskMode) : ExplorationFrame V :=
  MkFrame (frame_kind f) (dpor_tree_depth f) md (frame_checkpoint f) (cursor f) (event_id f)
    (thread_id f) (frame_label f) (candidate_event_ids f) (flag f).

Definition set_cursor f (n : nat) : ExplorationFrame V :=
  MkFrame (frame_kind f) (dpor_tree_depth f) (frame_mode f) (frame_checkpoint f) n (event_id f)
    (thread_id f) (frame_label f) (candidate_event_ids f) (flag f).

Definition clear_flag f : ExplorationFrame V :=
  MkFrame (frame_kind f) (dpor_tree_depth f) (frame_mode f) (frame_checkpoint f) (cursor f)
    (event_id f) (thread_id f) (frame_label f) (candidate_event_ids f) false.

(** *** Publication and reschedules *)

Definition publish_terminal m g (kind : TerminalExecutionKind) : res (Explorer V X) :=
  '(_, x) ← publish_terminal_execution g kind (compute_max_thread_event_depth g thread_ids)
              (executor m);
  Ok (set_executor m x).

Fixpoint find_reschedule_from g (x : X) (tids : list ThreadId)
    : res (BlockedReceiveReschedule V * X) :=
  match tids with
  | [] => Ok (RescheduleNone, x)
  | tid :: rest =>
      let '(stop, x1) := stop_requested x in
      if (stop : bool) then Ok (RescheduleStopRequested, x1)
      else
        child ← reschedule_thread (program config) g tid;
        match child with
        | Some g' => Ok (RescheduleReady g', x1)
        | None => find_reschedule_from g x1 rest
        end
  end.

Definition find_blocked_receive_reschedule_child g (x : X)
    : res (BlockedReceiveReschedule V * X) := find_reschedule_from g x thread_ids.

Definition try_enqueue_owned_task (x : X) g (depth : nat) (md : ExplorationTaskMode) : bool * X :=
  try_enqueue (MkExplorationTask g depth md) x.

(** *** Handlers *)

(** The frame of a label that has a single child: add its event and explore below. *)
Definition enter_linear_child m g f (tid : ThreadId) (l : EventLabel V) : res (Explorer V X) :=
  '(_, g') ← add_event g tid l;
  Ok (push_frame (set_frame (set_current_graph m g') (exit_linear_child f (checkpoint g)))
        (enter (dpor_tree_depth f + 1) Visit)).

(** The part of [handle_enter_frame] for an execution without a next event. *)
Definition enter_maximal m g f (suppressed : bool) : res (Explorer V X) :=
  '(reschedule, x) ← find_blocked_receive_reschedule_child g (executor m);
  let m := set_executor m x in
  match reschedule with
  | RescheduleStopRequested => Ok m
  | RescheduleReady g' => Ok (push_owned_context (pop_top_frame m) g' (dpor_tree_depth f) Visit)
  | RescheduleNone =>
      blocked ← (if suppressed then Ok false else has_blocked_thread g);
      let kind := if suppressed then ThreadEventLimit
                  else if (blocked : bool) then Blocked else Full in
      m' ← publish_terminal m g kind;
      Ok (pop_top_frame m')
  end.

(** The part of [handle_enter_frame] after the next event has been computed. *)
Definition enter_label m g f (tid : ThreadId) (l : EventLabel V) : res (Explorer V X) :=
  match l with
  | LError _ =>
      '(_, g') ← add_event g tid l;
      m1 ← publish_terminal (set_current_graph m g') g' ErrorExecution;
      g'' ← rollback g' (checkpoint g);
      Ok (pop_top_frame (set_current_graph m1 g''))
  | LNd nd =>
      match choices nd with
      | [] => enter_linear_child m g f tid l
      | _ =>
          let nd' := MkNdLabel (nd_value nd) (erase_duplicate_nd_choices (choices nd)) in
          Ok (set_frame m (MkFrame ResumeNd (dpor_tree_depth f) (frame_mode f) (checkpoint g) 0 None
                             tid (Some (LNd nd')) [] false))
      end
  | LReceive recv =>
      candidates ← compatible_unread_send_ids g tid recv;
      Ok (set_frame m (MkFrame ResumeReceive (dpor_tree_depth f) (frame_mode f) (checkpoint g) 0 None
                         tid (Some l) candidates (is_nonblocking recv)))
  | LSend _ =>
      '(send_id, g') ← add_event g tid l;
      receives ← receives_in_destination g' send_id;
      let '(spawn, x) := can_spawn (dpor_tree_depth f + 1) (executor m) in
      Ok (set_frame (set_executor (set_current_graph m g') x)
            (MkFrame ResumeSendRevisits (dpor_tree_depth f) (frame_mode f) (checkpoint g) 0
               (Some send_id) (thread_id f) None receives spawn))
  | LBlock => enter_linear_child m g f tid l
  end.

(** The part of [handle_enter_frame] that visits. *)
Definition enter_visit m : res (Explorer V X) :=
  '(c, f) ← current m;
  let g := context_graph m c in
  x ← maybe_report_progress (executor m);
  let '(stop, x) := stop_requested x in
  let m := set_executor m x in
  if (stop : bool) then Ok m
  else if decide (max_depth config ≤ dpor_tree_depth f) then
    m' ← publish_terminal m g DepthLimit;
    Ok (pop_top_frame m')
  else
    next ← compute_next_event (program config) g thread_ids (max_thread_events config);
    match Dpor.next next with
    | None => enter_maximal m g f (suppressed_by_thread_event_limit next)
    | Some (tid, l) => enter_label m g f tid l
    end.

Definition handle_enter_frame m : res (Explorer V X) :=
  '(c, f) ← current m;
  match frame_mode f with
  | Visit => enter_visit m
  | VisitIfConsistent =>
      let '(stop, x) := stop_requested (executor m) in
      let m := set_executor m x in
      if (stop : bool) then Ok (pop_top_frame m)
      else
        '(r, g) ← check_consistency (context_graph m c) (communication_model config);
        let m := set_current_graph m g in
        if is_consistent r then enter_visit (set_frame m (set_mode f Visit))
        else Ok (pop_top_frame m)
  end.

(** Adds the event of the receive [l] and makes it read from [send_id]. *)
Definition add_receive_from g (tid : ThreadId) (l : EventLabel V) (send_id : EventId)
    : res (ExplorationGraph V) :=
  '(recv_id, g1) ← add_event g tid l;
  set_reads_from g1 recv_id send_id.

Definition add_receive_from_bottom g (tid : ThreadId) (l : EventLabel V)
    : res (ExplorationGraph V) :=
  '(recv_id, g1) ← add_event g tid l;
  set_reads_from_bottom g1 recv_id.

(** The offer of one alternative to an idle worker, made on a copy of the graph: whether
    the alternative was handed off. *)
Definition offer_child m (keeps_local_work : bool) (depth : nat) (md : ExplorationTaskMode)
    (build : ExplorationGraph V → res (ExplorationGraph V)) g : res (bool * X) :=
  if keeps_local_work then
    let '(split, x) := should_split_to_idle_worker depth (executor m) in
    if (split : bool) then
      child ← build (copy g);
      Ok (try_enqueue_owned_task x child depth md)
    else Ok (false, x)
  else Ok (false, executor m).

(** The ND event with the alternative [v]. *)
Definition add_nd_choice g (tid : ThreadId) (nd : NondeterministicChoiceLabel V) (v : V)
    : res (ExplorationGraph V) :=
  snd <$> add_event g tid (LNd (MkNdLabel v (choices nd))).

Definition handle_resume_nd_frame m : res (Explorer V X) :=
  '(c, f) ← current m;
  g ← rollback (context_graph m c) (frame_checkpoint f);
  let m := set_current_graph m g in
  match frame_label f with
  | None => Throw (internal_error "ND resume frame lost its cached label")
  | Some (LNd nd) =>
      match choices nd with
      | [] => Throw (internal_error "ND resume frame expected a non-empty ND choice")
      | _ =>
          match choices nd !! cursor f with
          | None => Ok (pop_top_frame m)
          | Some v =>
              let depth := dpor_tree_depth f + 1 in
              '(handed, x) ← offer_child m (bool_decide (cursor f + 1 < length (choices nd)))
                               depth Visit (λ child, add_nd_choice child (thread_id f) nd v) g;
              let m := set_frame (set_executor m x) (set_cursor f (cursor f + 1)) in
              if (handed : bool) then Ok (set_executor m (note_nd_split (V := V) (executor m)))
              else
                g' ← add_nd_choice g (thread_id f) nd v;
                Ok (push_frame (set_current_graph m g') (enter depth Visit))
          end
      end
  | Some _ => Throw (internal_error "ND resume frame expected a non-empty ND choice")
  end.

Definition handle_resume_receive_frame m : res (Explorer V X) :=
  '(c, f) ← current m;
  g ← rollback (context_graph m c) (frame_checkpoint f);
  let m := set_current_graph m g in
  match frame_label f with
  | None => Throw (internal_error "receive resume frame lost its cached label")
  | Some (LReceive recv) =>
      let l := LReceive recv in
      let depth := dpor_tree_depth f + 1 in
      match candidate_event_ids f !! cursor f with
      | Some send_id =>
          '(handed, x) ← offer_child m
              (bool_decide (cursor f + 1 < length (candidate_event_ids f)) || flag f)
              depth VisitIfConsistent
              (λ child, add_receive_from child (thread_id f) l send_id) g;
          let m := set_frame (set_executor m x) (set_cursor f (cursor f + 1)) in
          if (handed : bool) then Ok (set_executor m (note_receive_split (V := V) (executor m)))
          else
            g' ← add_receive_from g (thread_id f) l send_id;
            Ok (push_frame (set_current_graph m g') (enter depth VisitIfConsistent))
      | None =>
          if flag f then
            g' ← add_receive_from_bottom g (thread_id f) l;
            Ok (push_frame (set_frame (set_current_graph m g') (clear_flag f))
                  (enter depth VisitIfConsistent))
          else Ok (pop_top_frame m)
      end
  | Some _ => Throw (internal_error "receive resume frame expected a receive")
  end.

Definition handle_resume_send_revisits_frame m : res (Explorer V X) :=
  '(c, f) ← current m;
  let g := context_graph m c in
  match event_id f with
  | None => Throw (internal_error "send resume frame expected a live send event")
  | Some send_id =>
      if negb (holds_at g is_send send_id) then
        Throw (internal_error "send resume frame expected a live send event")
      else
        next ← next_backward_revisit_child value_lt g send_id (communication_model config)
                 (candidate_event_ids f) (cursor f);
        let f' := set_cursor f (next_receive_index next) in
        let m := set_frame m f' in
        let depth := dpor_tree_depth f + 1 in
        match child next with
        | Some revisited =>
            let '(handed, x) :=
              if flag f then try_enqueue_owned_task (executor m) revisited depth VisitIfConsistent
              else (false, executor m) in
            let m := set_executor m x in
            if (handed : bool) then Ok m
            else Ok (push_owned_context m revisited depth VisitIfConsistent)
        | None =>
            Ok (push_frame (set_frame m (exit_linear_child f' (frame_checkpoint f')))
                  (enter depth Visit))
        end
  end.

(** *** The loop *)

(** One iteration of [run_loop]; [inr] leaves the loop. *)
Definition run_step m : res (Explorer V X + Explorer V X) :=
  match contexts m with
  | [] => Ok (inr m)
  | _ =>
      let '(stop, x) := stop_requested (executor m) in
      let m := set_executor m x in
      if (stop : bool) then inl <$> unwind_one_step m
      else
        match current_frames m with
        | [] => Ok (inl (pop_context m))
        | f :: _ =>
            inl <$> match frame_kind f with
                    | Enter => handle_enter_frame m
                    | ExitLinearChild => rollback_and_pop_top_frame m
                    | ResumeNd => handle_resume_nd_frame m
                    | ResumeReceive => handle_resume_receive_frame m
                    | ResumeSendRevisits => handle_resume_send_revisits_frame m
                    end
        end
  end.

Definition run_loop (fuel : nat) m : res (Explorer V X) := while fuel nontermination run_step m.

(** [DepthFirstExplorer::run]. *)
Definition run (fuel : nat) (x : X) g (depth : nat) (md : ExplorationTaskMode)
    : res (Explorer V X) :=
  run_loop fuel (MkExplorer x g [MkContext None [enter depth md]]).

End engine.

(** ** Entry points *)

Section verify.
Context {V O : Type} `{EqDecision V} (value_lt : V → V → bool) (clock : nat → Z).

(** [visit_impl]/[visit_if_consistent_impl] on the sequential executor. *)
Definition visit_sequential (config : DporConfig V O) (start_time : Z) (fuel : nat)
    (thread_ids : list ThreadId) (s : SequentialState O) (g : ExplorationGraph V)
    (depth : nat) (md : ExplorationTaskMode) : res (Explorer V (SequentialState O)) :=
  run (H := sequential_executor config clock start_time) value_lt config thread_ids fuel s g
    depth md.

Definition verify (config : DporConfig V O) (o : O) (fuel : nat) : res (VerifyResult * O) :=
  _ ← validate_terminal_observer_config config;
  thread_ids ← sorted_thread_ids (program config);
  let start_time := clock 0 in
  m ← visit_sequential config start_time fuel thread_ids
        (new_sequential_state config start_time new_result o 1) empty_exploration_graph 0 Visit;
  s ← publish_final_progress config clock start_time (executor m);
  Ok (seq_result s, seq_observers s).

End verify.
