(* ===== verification/Observers.v ===== *)
(** * Observers: terminal executions and their observers, [dpor/algo/dpor.hpp]

    An observer may take the terminal execution or its graph, and may answer or not: the
    four kinds of callable that [TerminalExecutionObserverT] accepts, and the handler it
    makes of each. *)

From stdpp Require Import base tactics numbers list.
From S2P Require Import Prelude Errors Event ExecutionGraph ExplorationGraph Dpor Explorer.

(** ** Terminal executions *)

Section execution.
Context {V : Type}.
Implicit Types (execution : TerminalExecution V).

Definition is_full_execution execution : bool := bool_decide (te_kind execution = Full).
Definition is_blocked_execution execution : bool := bool_decide (te_kind execution = Blocked).
Definition is_error_execution execution : bool := bool_decide (te_kind execution = ErrorExecution).
Definition is_depth_limit_execution execution : bool := bool_decide (te_kind execution = DepthLimit).
Definition is_thread_event_limit_execution execution : bool :=
  bool_decide (te_kind execution = ThreadEventLimit).

End execution.

(** ** Callables *)

(** The callables an observer can be made of, in the order in which [assign] tries them. *)
Inductive ObserverFunction (V O : Type) :=
| AnswersExecution (fn : O → TerminalExecution V → res (TerminalExecutionAction * O))
| WatchesExecution (fn : O → TerminalExecution V → res O)
| AnswersGraph (fn : O → ExplorationGraph V → res (TerminalExecutionAction * O))
| WatchesGraph (fn : O → ExplorationGraph V → res O).
Arguments AnswersExecution {V O} fn.
Arguments WatchesExecution {V O} fn.
Arguments AnswersGraph {V O} fn.
Arguments WatchesGraph {V O} fn.

(** [TerminalExecutionObserverT::assign]: the handler of a callable; one that returns
    nothing continues. *)
Definition assign {V O} (fn : ObserverFunction V O) : TerminalExecutionObserver V O := λ o execution,
  match fn with
  | AnswersExecution fn => fn o execution
  | WatchesExecution fn => o' ← fn o execution; Ok (Continue, o')
  | AnswersGraph fn => fn o (te_graph execution)
  | WatchesGraph fn => o' ← fn o (te_graph execution); Ok (Continue, o')
  end.

(** [operator()]: an observer without a handler continues. *)
Definition call_observer {V O} (handler : option (TerminalExecutionObserver V O)) (o : O)
    (execution : TerminalExecution V) : res (TerminalExecutionAction * O) :=
  match handler with
  | None => Ok (Continue, o)
  | Some handler => handler o execution
  end.

(** The callables that cannot ask to stop. *)
Definition watches {V O} (fn : ObserverFunction V O) : bool :=
  match fn with WatchesExecution _ | WatchesGraph _ => true | _ => false end.

(** A callable that returns nothing never asks to stop. *)
Lemma watches_continue {V O} (fn : ObserverFunction V O) o execution a o' :
  watches fn = true → assign fn o execution = Ok (a, o') → a = Continue.
Proof. by destruct fn; intros Hw Hrun; try done; apply bind_Ok_inv in Hrun as (? & _ & [= <- _]). Qed.

(** The five predicates partition the executions. *)
Lemma one_kind {V} (execution : TerminalExecution V) :
  length (filter (eq true) [is_full_execution execution; is_blocked_execution execution;
    is_error_execution execution; is_depth_limit_execution execution;
    is_thread_event_limit_execution execution]) = 1.
Proof. by destruct execution as [g []]. Qed.
