(* ===== verification/EntryPoints.v ===== *)
(** * EntryPoints: the internal entry points of the engine, [dpor/algo/dpor.hpp]

    [detail::visit], [detail::visit_if_consistent] and [detail::backward_revisit] run an
    exploration from a given graph on a sequential executor of their own;
    [for_each_backward_revisit_child] is the loop over the backward revisits of a send. *)

From stdpp Require Import base tactics numbers list strings.
From S2P Require Import Prelude Errors Event ExecutionGraph ExplorationGraph Program Dpor.
From S2P Require Import Revisit Explorer.

(** ** Backward-revisit children *)

Section children.
(** [S] is the state the two callbacks capture. *)
Context {V S : Type} `{EqDecision V} (value_lt : V → V → bool)
  (should_stop : S → bool) (emit_revisited : ExplorationGraph V → S → res (bool * S)).
Implicit Types (g : ExplorationGraph V) (s : S).

(** One iteration of the [while] loop; the loop state has the receive index. *)
Definition revisit_child_step g (send_id : EventId) (model : CommunicationModel)
    (receives : list EventId) (st : nat * S) : res (nat * S + S) :=
  let '(receive_index, s) := st in
  if should_stop s then Ok (inr s)
  else
    next ← next_backward_revisit_child value_lt g send_id model receives receive_index;
    match child next with
    | None => Ok (inr s)
    | Some revisited =>
        '(go_on, s') ← emit_revisited revisited s;
        if (go_on : bool) then Ok (inl (next_receive_index next, s')) else Ok (inr s')
    end.

(** Every iteration that goes on moves past a receive. *)
Definition for_each_backward_revisit_child g (send_id : EventId) (model : CommunicationModel) s : res S :=
  receives ← receives_in_destination g send_id;
  while (length receives + 1) nontermination (revisit_child_step g send_id model receives) (0, s).

End children.

(** ** Explorations from a graph *)

Section entry.
Context {V O : Type} `{EqDecision V} (value_lt : V → V → bool) (clock : nat → Z)
  (config : DporConfig V O).
Implicit Types (g : ExplorationGraph V) (thread_ids : list ThreadId).

(** [detail::visit] and [detail::visit_if_consistent]: the graph, which the exploration gives
    back, the result and the state of the observers. *)
Definition visit_on (md : ExplorationTaskMode) g (result : VerifyResult) (o : O) (depth : nat) thread_ids
    (fuel : nat) : res (ExplorationGraph V * VerifyResult * O) :=
  let start_time := clock 0 in
  m ← visit_sequential value_lt clock config start_time fuel thread_ids
        (new_sequential_state config start_time result o 1) g depth md;
  Ok (borrowed_graph m, seq_result (executor m), seq_observers (executor m)).

Definition visit := visit_on Visit.

Definition visit_if_consistent := visit_on VisitIfConsistent.

(** [detail::backward_revisit]. *)
Definition backward_revisit g (send_id : EventId) (result : VerifyResult) (o : O) (depth : nat) thread_ids
    (fuel : nat) : res (VerifyResult * O) :=
  let start_time := clock 0 in
  s ← for_each_backward_revisit_child value_lt (λ s, (seq_stop_requested s).1)
        (λ revisited s,
           m ← visit_sequential value_lt clock config start_time fuel thread_ids s revisited depth
                 VisitIfConsistent;
           Ok (negb (seq_stop_requested (executor m)).1, executor m))
        g send_id (communication_model config) (new_sequential_state config start_time result o 1);
  Ok (seq_result s, seq_observers s).

End entry.
