(* ===== verification/Format.v ===== *)
(** * Format: graphs as text, [dpor/model/format.hpp]

    One line per event, in insertion order.  The formatter of values is user code and may
    throw. *)

From stdpp Require Import base tactics numbers pretty list strings.
From S2P Require Import Prelude Errors Event ExecutionGraph ExplorationGraph.

Section format.
Context {V : Type} (value_formatter : V → res string).
Implicit Types (g : ExplorationGraph V) (id : EventId) (evt : Event V).

Open Scope string_scope.

(** What follows ["receive("]: the source, rendered without assuming that it exists. *)
Definition format_source g (src : option ReadsFromSource) : res string :=
  match src with
  | None => Ok "unmatched)"
  | Some s =>
      match rf_send s with
      | None => Ok "bottom)"
      | Some send_id =>
          v ← (if is_valid_event_id g send_id then
                 e ← event g send_id;
                 match as_send e with
                 | Some source => t ← value_formatter (value source); Ok (", val=" +:+ t)
                 | None => Ok ""
                 end
               else Ok "");
          Ok ("from=" +:+ pretty send_id +:+ v +:+ ")")
      end
  end.

(** The [if]/[else if] chain on the kind of the event. *)
Definition format_label g id evt : res string :=
  match as_send evt with
  | Some send =>
      t ← value_formatter (value send);
      Ok ("send(dest=" +:+ pretty (destination send) +:+ ", val=" +:+ t +:+ ")")
  | None =>
      match as_receive evt with
      | Some recv =>
          t ← format_source g (rf_find (reads_from g) id);
          Ok ((if is_blocking recv then "receive(" else "receive(nonblocking, ") +:+ t)
      | None =>
          match as_nondeterministic_choice evt with
          | Some nd => t ← value_formatter (nd_value nd); Ok ("nd(val=" +:+ t +:+ ")")
          | None =>
              if is_block evt then Ok "block"
              else match as_error evt with
                   | Some message => Ok ("error(" +:+ message +:+ ")")
                   | None => Ok ""
                   end
          end
      end
  end.

(** The body of the loop: [out] with the line of event [id]. *)
Definition format_event g (out : string) id : res string :=
  evt ← event g id;
  let out := out +:+ "event " +:+ pretty id +:+ " thread=" +:+ pretty (thread evt) +:+
             " index=" +:+ pretty (index evt) +:+ " " in
  t ← format_label g id evt;
  Ok (out +:+ t +:+ String (Ascii.ascii_of_nat 10) EmptyString).

Definition format_graph g : res string := foldM (format_event g) "" (insertion_order g).

(** *** Any graph can be formatted *)

(** The outcome is a value, or an exception of the formatter. *)
Definition formatter_throws {A} (r : res A) : Prop :=
  ∀ e, r = Throw e → ∃ v, value_formatter v = Throw e.

Lemma throws_Ok {A} (a : A) : formatter_throws (Ok a).
Proof. by intros e. Qed.

Lemma throws_formatter v : formatter_throws (value_formatter v).
Proof. intros e He. by exists v. Qed.

Lemma throws_bind {A B} (r : res A) (f : A → res B) :
  formatter_throws r → (∀ a, formatter_throws (f a)) → formatter_throws (r ≫= f).
Proof.
  intros Hr Hf e He. destruct r as [a|e']; cbn [mbind result_bind] in He; [by apply (Hf a)|].
  injection He as <-. by apply Hr.
Qed.

Lemma event_in_range g id : id < event_count g → ∃ e, event g id = Ok e.
Proof.
  intros Hid. unfold event, ExecutionGraph.event. fold (events g).
  destruct (lookup_lt_is_Some_2 (events g) id Hid) as [e ->]. by eexists.
Qed.

Lemma format_source_throws g src : formatter_throws (format_source g src).
Proof.
  unfold format_source. destruct src as [s|]; [|apply throws_Ok].
  destruct (rf_send s) as [send_id|]; [|apply throws_Ok]. apply throws_bind; [|intros; apply throws_Ok].
  destruct (is_valid_event_id g send_id) eqn:Hv; [|apply throws_Ok].
  destruct (event_in_range g send_id) as [e ->].
  { unfold is_valid_event_id in Hv. by apply bool_decide_eq_true in Hv. }
  cbn [mbind result_bind]. destruct (as_send e); [|apply throws_Ok].
  apply throws_bind; [apply throws_formatter|intros; apply throws_Ok].
Qed.

Lemma format_label_throws g id evt : formatter_throws (format_label g id evt).
Proof.
  unfold format_label. destruct (as_send evt).
  { apply throws_bind; [apply throws_formatter|intros; apply throws_Ok]. }
  destruct (as_receive evt).
  { apply throws_bind; [apply format_source_throws|intros; apply throws_Ok]. }
  destruct (as_nondeterministic_choice evt).
  { apply throws_bind; [apply throws_formatter|intros; apply throws_Ok]. }
  destruct (is_block evt); [apply throws_Ok|]. destruct (as_error evt); apply throws_Ok.
Qed.

(** Formatting any graph, whatever its reads-from entries refer to, returns a text or throws
    what the formatter threw. *)
Lemma format_graph_throws g : formatter_throws (format_graph g).
Proof.
  assert (∀ ids out, (∀ id, id ∈ ids → id < event_count g) →
    formatter_throws (foldM (format_event g) out ids)) as Hfold.
  { induction ids as [|id ids IH]; intros out Hids; simpl; [apply throws_Ok|].
    apply throws_bind; [|intros out'; apply IH; intros i Hi; apply Hids; by right].
    unfold format_event. destruct (event_in_range g id) as [evt ->]; [apply Hids; by left|].
    cbn [mbind result_bind]. apply throws_bind; [apply format_label_throws|intros; apply throws_Ok]. }
  apply Hfold. intros id Hid. apply elem_of_seq in Hid. lia.
Qed.

Close Scope string_scope.

End format.
