(* ===== verification/Parallel.v ===== *)
(** * Parallel: the worker pool of [verify_parallel], [dpor/algo/dpor.hpp]

    [ParallelExecutor] runs the engine on a pool of workers that share a bounded task
    queue.  The first part of this file is the executor: the shared counters and flags,
    the thread-local state of a worker, and the operations the engine calls, as an
    instance of [Executor].  The second part is the pool: the phases of [worker_loop_impl]
    and a step relation on the whole pool.

    Atomic variables are sequentially consistent cells.  The phases of the worker loop are
    separate steps, so that a request to stop can fall between the evaluation of the wait
    predicate and the wait itself, as it can in the source, where the stop flag is stored
    without [queue_mutex_].  One iteration of a worker's engine is one step: what it does
    to the shared state happens together.  Such an iteration cannot happen while another
    worker holds [queue_mutex_] if it needs that mutex.  An iteration that throws leaves
    the shared state as it was: what it did before it threw is not kept.  Exceptions of the
    queue and of the locks themselves do not occur.  Parked workers wake when they are
    notified, or spuriously. *)

From stdpp Require Import base tactics numbers relations sets list strings.
From S2P Require Import Prelude Errors Event Relation ExecutionGraph ExplorationGraph Porf.
From S2P Require Import Consistency Program Masked Dpor Revisit Explorer.

(** ** Options *)

Record ParallelVerifyOptions := MkOptions {
  opt_max_workers : nat;
  opt_max_queued_tasks : nat;
  spawn_depth_cutoff : nat;
  opt_sync_steps : nat;
  opt_split_poll_interval_steps : nat;
  opt_progress_counter_flush_interval : nat;
  opt_progress_poll_interval_steps : nat;
}.

Definition default_options : ParallelVerifyOptions := MkOptions 0 0 0 512 1 1024 64.

(** [hardware_concurrency] is the answer of the platform. *)
Definition resolve_max_workers (requested hardware_concurrency : nat) : nat :=
  if decide (requested ≠ 0) then requested
  else if decide (hardware_concurrency = 0) then 1 else hardware_concurrency.

Definition resolve_max_queued_tasks (requested max_workers : nat) : nat :=
  if decide (requested ≠ 0) then requested else 1 `max` (max_workers * 2).

Definition resolve_progress_counter_flush_interval (requested : nat) : nat :=
  if decide (requested = 0) then 1024 else requested.

(** The members of the executor that its constructor fixes. *)
Record PoolConfig := MkPoolConfig {
  pc_max_workers : nat;
  pc_max_queued_tasks : nat;
  pc_spawn_depth_cutoff : nat;
  sync_steps : nat;
  split_poll_interval_steps : nat;
  progress_counter_flush_interval : nat;
  progress_poll_interval_steps : nat;
}.

Definition resolve_options (options : ParallelVerifyOptions) (hardware_concurrency : nat)
    : PoolConfig :=
  let max_workers := resolve_max_workers (opt_max_workers options) hardware_concurrency in
  MkPoolConfig max_workers (resolve_max_queued_tasks (opt_max_queued_tasks options) max_workers)
    (spawn_depth_cutoff options) (opt_sync_steps options) (opt_split_poll_interval_steps options)
    (resolve_progress_counter_flush_interval (opt_progress_counter_flush_interval options))
    (opt_progress_poll_interval_steps options).

(** ** State *)

(** Terminal executions by kind, and the largest thread-event depth. *)
Record Counts := MkCounts {
  cn_full : nat;
  cn_blocked : nat;
  cn_error : nat;
  cn_depth_limit : nat;
  cn_thread_event_limit : nat;
  cn_max_depth : nat;
}.

Definition no_counts : Counts := MkCounts 0 0 0 0 0 0.

(** The [fetch_add]s and the maximum fold of [flush_local_counts]. *)
Definition add_counts (a b : Counts) : Counts :=
  MkCounts (cn_full a + cn_full b) (cn_blocked a + cn_blocked b) (cn_error a + cn_error b)
    (cn_depth_limit a + cn_depth_limit b) (cn_thread_event_limit a + cn_thread_event_limit b)
    (cn_max_depth a `max` cn_max_depth b).

(** The switch of [increment_local_terminal_counts]. *)
Definition count_one (c : Counts) (kind : TerminalExecutionKind) (depth : nat) : Counts :=
  let bump k n := if decide (kind = k) then S n else n in
  MkCounts (bump Full (cn_full c)) (bump Blocked (cn_blocked c)) (bump ErrorExecution (cn_error c))
    (bump DepthLimit (cn_depth_limit c)) (bump ThreadEventLimit (cn_thread_event_limit c))
    (if decide (cn_max_depth c < depth) then depth else cn_max_depth c).

Definition total_count (c : Counts) : nat :=
  cn_full c + cn_blocked c + cn_error c + cn_depth_limit c + cn_thread_event_limit c.

(** [WorkerState], one per worker. *)
Record WorkerState := MkWorkerState {
  local_counts : Counts;
  pending_terminal_executions : nat;
  steps_since_sync : nat;
  steps_since_progress_poll : nat;
  steps_since_split_poll : nat;
  cached_stop : bool;
  cached_workers_idle : bool;
}.

Definition new_worker : WorkerState := MkWorkerState no_counts 0 0 0 0 false false.

(** The members of the executor that workers share; [sh_observers] is the state of the
    user's observers. *)
Record Shared (V O : Type) := MkShared {
  stop_requested_ : bool;
  sh_counts : Counts;
  idle_workers_ : nat;
  nd_splits_ : nat;
  receive_splits_ : nat;
  task_queue_ : list (ExplorationTask V);
  active_workers_ : nat;
  search_complete_ : bool;
  first_exception_ : option exn;
  sh_observers : O;
  sh_clock_reads : nat;
  next_progress_report_tick_ : Z;
}.
Arguments MkShared {V O}.
Arguments stop_requested_ {V O} s.
Arguments sh_counts {V O} s.
Arguments idle_workers_ {V O} s.
Arguments nd_splits_ {V O} s.
Arguments receive_splits_ {V O} s.
Arguments task_queue_ {V O} s.
Arguments active_workers_ {V O} s.
Arguments search_complete_ {V O} s.
Arguments first_exception_ {V O} s.
Arguments sh_observers {V O} s.
Arguments sh_clock_reads {V O} s.
Arguments next_progress_report_tick_ {V O} s.

Section shared.
Context {V O : Type}.
Implicit Types (s : Shared V O).

Definition set_stop s : Shared V O :=
  MkShared true (sh_counts s) (idle_workers_ s) (nd_splits_ s) (receive_splits_ s)
    (task_queue_ s) (active_workers_ s) (search_complete_ s) (first_exception_ s)
    (sh_observers s) (sh_clock_reads s) (next_progress_report_tick_ s).

Definition set_counts s (c : Counts) : Shared V O :=
  MkShared (stop_requested_ s) c (idle_workers_ s) (nd_splits_ s) (receive_splits_ s)
    (task_queue_ s) (active_workers_ s) (search_complete_ s) (first_exception_ s)
    (sh_observers s) (sh_clock_reads s) (next_progress_report_tick_ s).

Definition set_idle s (n : nat) : Shared V O :=
  MkShared (stop_requested_ s) (sh_counts s) n (nd_splits_ s) (receive_splits_ s)
    (task_queue_ s) (active_workers_ s) (search_complete_ s) (first_exception_ s)
    (sh_observers s) (sh_clock_reads s) (next_progress_report_tick_ s).

Definition set_splits s (nd receive : nat) : Shared V O :=
  MkShared (stop_requested_ s) (sh_counts s) (idle_workers_ s) nd receive
    (task_queue_ s) (active_workers_ s) (search_complete_ s) (first_exception_ s)
    (sh_observers s) (sh_clock_reads s) (next_progress_report_tick_ s).

Definition set_queue s (q : list (ExplorationTask V)) (active : nat) (complete : bool)
    : Shared V O :=
  MkShared (stop_requested_ s) (sh_counts s) (idle_workers_ s) (nd_splits_ s) (receive_splits_ s)
    q active complete (first_exception_ s)
    (sh_observers s) (sh_clock_reads s) (next_progress_report_tick_ s).

Definition set_exception s (e : option exn) : Shared V O :=
  MkShared (stop_requested_ s) (sh_counts s) (idle_workers_ s) (nd_splits_ s) (receive_splits_ s)
    (task_queue_ s) (active_workers_ s) (search_complete_ s) e
    (sh_observers s) (sh_clock_reads s) (next_progress_report_tick_ s).

Definition set_user s (o : O) (reads : nat) (tick : Z) : Shared V O :=
  MkShared (stop_requested_ s) (sh_counts s) (idle_workers_ s) (nd_splits_ s) (receive_splits_ s)
    (task_queue_ s) (active_workers_ s) (search_complete_ s) (first_exception_ s) o reads tick.

End shared.

(** What a worker acts on: the shared state, its own state, whether it has taken
    [queue_mutex_], and the notifications it has sent to [queue_cv_]. *)
Record View (V O : Type) := MkView {
  vw_shared : Shared V O;
  vw_worker : WorkerState;
  vw_locked : bool;
  vw_notify_one : nat;
  vw_notify_all : bool;
}.
Arguments MkView {V O} vw_shared vw_worker vw_locked vw_notify_one vw_notify_all.
Arguments vw_shared {V O} v.
Arguments vw_worker {V O} v.
Arguments vw_locked {V O} v.
Arguments vw_notify_one {V O} v.
Arguments vw_notify_all {V O} v.

(** ** The executor *)

Section executor.
Context {V O : Type} (config : DporConfig V O) (pool : PoolConfig) (clock : nat → Z)
  (start_time : Z).
Implicit Types (v : View V O) (w : WorkerState).

Definition view_shared v (s : Shared V O) : View V O :=
  MkView s (vw_worker v) (vw_locked v) (vw_notify_one v) (vw_notify_all v).

Definition view_worker v w : View V O :=
  MkView (vw_shared v) w (vw_locked v) (vw_notify_one v) (vw_notify_all v).

Definition set_polls w (sync progress split : nat) (stop idle : bool) : WorkerState :=
  MkWorkerState (local_counts w) (pending_terminal_executions w) sync progress split stop idle.

Definition p_stop_requested v : bool * View V O :=
  let w := vw_worker v in
  let stop := stop_requested_ (vw_shared v) in
  if decide (sync_steps pool = 0) then (stop, v)
  else if decide (sync_steps pool ≤ S (steps_since_sync w)) then
    (stop, view_worker v (set_polls w 0 (steps_since_progress_poll w) (steps_since_split_poll w)
                            stop (cached_workers_idle w)))
  else
    (cached_stop w,
     view_worker v (set_polls w (S (steps_since_sync w)) (steps_since_progress_poll w)
                      (steps_since_split_poll w) (cached_stop w) (cached_workers_idle w))).

Definition flush_local_counts v : View V O :=
  let w := vw_worker v in
  view_worker
    (view_shared v (set_counts (vw_shared v) (add_counts (sh_counts (vw_shared v)) (local_counts w))))
    (MkWorkerState no_counts 0 (steps_since_sync w) (steps_since_progress_poll w)
       (steps_since_split_poll w) (cached_stop w) (cached_workers_idle w)).

Definition flush_worker_state v : View V O :=
  let v' := flush_local_counts v in view_worker v' (set_polls (vw_worker v') 0 0 0 false false).

Definition increment_local_terminal_counts v (kind : TerminalExecutionKind) (depth : nat)
    : View V O :=
  let w := vw_worker v in
  let pending := S (pending_terminal_executions w) in
  let v' := view_worker v
    (MkWorkerState (count_one (local_counts w) kind depth) pending (steps_since_sync w)
       (steps_since_progress_poll w) (steps_since_split_poll w) (cached_stop w)
       (cached_workers_idle w)) in
  match on_progress config with
  | Some _ => if decide (progress_counter_flush_interval pool ≤ pending) then flush_local_counts v'
              else v'
  | None => v'
  end.

Definition live_counts_exact : bool := bool_decide (progress_counter_flush_interval pool ≤ 1).

(** Takes [queue_mutex_] for the queue's part of the snapshot. *)
Definition p_make_progress_snapshot (s : Shared V O) (state : ProgressState) (now : Z)
    (exact : bool) : ProgressSnapshot :=
  let c := sh_counts s in
  MkProgressSnapshot state (now - start_time) (total_count c) (cn_full c) (cn_blocked c)
    (cn_error c) (cn_depth_limit c) (cn_thread_event_limit c) (cn_max_depth c)
    (active_workers_ s) (pc_max_workers pool) (length (task_queue_ s)) (pc_max_queued_tasks pool)
    exact.

Definition publish_progress_snapshot v (state : ProgressState) (now : Z) (exact : bool)
    : res (View V O) :=
  let v1 := flush_local_counts v in
  let s := vw_shared v1 in
  o ← notify_progress config (sh_observers s) (p_make_progress_snapshot s state now exact);
  Ok (MkView (set_user s o (sh_clock_reads s) (next_progress_report_tick_ s)) (vw_worker v1) true
        (vw_notify_one v1) (vw_notify_all v1)).

(** The clock having been read once more. *)
Definition read_clock v : Z * View V O :=
  let s := vw_shared v in
  (clock (sh_clock_reads s),
   view_shared v (set_user s (sh_observers s) (S (sh_clock_reads s)) (next_progress_report_tick_ s))).

(** The polling part of [maybe_report_progress]: whether to look at the clock. *)
Definition poll_progress v : bool * View V O :=
  let w := vw_worker v in
  let n := S (steps_since_progress_poll w) in
  if decide (1 < progress_poll_interval_steps pool) then
    if decide (n < progress_poll_interval_steps pool) then
      (false, view_worker v (set_polls w (steps_since_sync w) n (steps_since_split_poll w)
                               (cached_stop w) (cached_workers_idle w)))
    else
      (true, view_worker v (set_polls w (steps_since_sync w) 0 (steps_since_split_poll w)
                              (cached_stop w) (cached_workers_idle w)))
  else (true, v).

(** The compare-and-exchange loop claims the reporting window at its first attempt: no
    other worker interferes with it. *)
Definition p_maybe_report_progress v : res (View V O) :=
  match on_progress config with
  | None => Ok v
  | Some _ =>
      if decide (progress_report_interval config ≤ 0)%Z then
        let '(now, v1) := read_clock v in
        publish_progress_snapshot v1 ProgressRunning now live_counts_exact
      else
        let '(due, v1) := poll_progress v in
        if (due : bool) then
          let '(now, v2) := read_clock v1 in
          let s := vw_shared v2 in
          if decide (now < next_progress_report_tick_ s)%Z then Ok v2
          else
            publish_progress_snapshot
              (view_shared v2 (set_user s (sh_observers s) (sh_clock_reads s)
                                 (now + progress_report_interval config)%Z))
              ProgressRunning now live_counts_exact
        else Ok v1
  end.

Definition p_request_stop v : View V O :=
  let w := vw_worker v in
  MkView (set_stop (vw_shared v))
    (set_polls w (steps_since_sync w) (steps_since_progress_poll w) (steps_since_split_poll w)
       true (cached_workers_idle w))
    (vw_locked v) (vw_notify_one v) true.

Definition p_publish_terminal_execution (g : ExplorationGraph V) (kind : TerminalExecutionKind)
    (depth : nat) v : res (bool * View V O) :=
  let '(stop, v1) := if decide (sync_steps pool = 0) then (stop_requested_ (vw_shared v), v)
                     else p_stop_requested v in
  if (stop : bool) then Ok (false, v1)
  else
    let v2 := increment_local_terminal_counts v1 kind depth in
    let s := vw_shared v2 in
    '(action, o) ← notify_terminal_execution config (sh_observers s) g kind;
    let v3 := view_shared v2 (set_user s o (sh_clock_reads s) (next_progress_report_tick_ s)) in
    Ok (true, if decide (action = Stop) then p_request_stop v3 else v3).

Definition p_can_spawn (child_depth : nat) v : bool * View V O :=
  if decide (pc_max_workers pool ≤ 1) then (false, v)
  else
    let '(stop, v1) := p_stop_requested v in
    if (stop : bool) then (false, v1)
    else if decide (pc_spawn_depth_cutoff pool ≠ 0 ∧ pc_spawn_depth_cutoff pool < child_depth)
    then (false, v1) else (true, v1).

Definition p_should_split_to_idle_worker (child_depth : nat) v : bool * View V O :=
  if decide (pc_max_workers pool ≤ 1) then (false, v)
  else
    let w := vw_worker v in
    let n := S (steps_since_split_poll w) in
    if decide (1 < split_poll_interval_steps pool ∧ n < split_poll_interval_steps pool) then
      let v1 := view_worker v (set_polls w (steps_since_sync w) (steps_since_progress_poll w) n
                                 (cached_stop w) (cached_workers_idle w)) in
      if cached_workers_idle w then p_can_spawn child_depth v1 else (false, v1)
    else
      let idle := bool_decide (idle_workers_ (vw_shared v) ≠ 0) in
      let v1 := view_worker v (set_polls w (steps_since_sync w) (steps_since_progress_poll w)
                                 (if decide (1 < split_poll_interval_steps pool) then 0
                                  else steps_since_split_poll w) (cached_stop w) idle) in
      if idle then p_can_spawn child_depth v1 else (false, v1).

Definition p_note_nd_split v : View V O :=
  let s := vw_shared v in view_shared v (set_splits s (S (nd_splits_ s)) (receive_splits_ s)).

Definition p_note_receive_split v : View V O :=
  let s := vw_shared v in view_shared v (set_splits s (nd_splits_ s) (S (receive_splits_ s))).

Definition p_try_enqueue (task : ExplorationTask V) v : bool * View V O :=
  if decide (pc_max_workers pool ≤ 1) then (false, v)
  else
    let '(stop, v1) := p_stop_requested v in
    if (stop : bool) then (false, v1)
    else
      let s := vw_shared v1 in
      if decide (stop_requested_ s = false ∧ search_complete_ s = false ∧
                 length (task_queue_ s) < pc_max_queued_tasks pool) then
        (true, MkView (set_queue s (task_queue_ s ++ [task]) (active_workers_ s)
                         (search_complete_ s))
                 (vw_worker v1) true (S (vw_notify_one v1)) (vw_notify_all v1))
      else (false, MkView s (vw_worker v1) true (vw_notify_one v1) (vw_notify_all v1)).

Definition parallel_executor : Executor V (View V O) := {|
  stop_requested := p_stop_requested;
  maybe_report_progress := p_maybe_report_progress;
  can_spawn := p_can_spawn;
  should_split_to_idle_worker := p_should_split_to_idle_worker;
  note_nd_split := p_note_nd_split;
  note_receive_split := p_note_receive_split;
  try_enqueue := p_try_enqueue;
  publish_terminal_execution := p_publish_terminal_execution;
|}.

End executor.

(** ** The pool *)

(** Where a worker is in [worker_loop_impl]. *)
Inductive Phase (V : Type) :=
| AtLock                      (** about to lock [queue_mutex_] at the top of the loop *)
| Checking                    (** holds the lock, evaluates [ready()] *)
| Waiting                     (** holds the lock inside [wait], evaluates its predicate *)
| Parking                     (** holds the lock, the predicate was false: about to block *)
| Parked                      (** blocked on [queue_cv_] *)
| Woken                       (** woken, about to lock again *)
| Taking                      (** holds the lock, past the wait *)
| Starting (task : ExplorationTask V)                                (** [process_task] *)
| Working (g : ExplorationGraph V) (cs : list (ExplorationContext V)) (** inside the engine *)
| Failed (e : exn)            (** caught an exception of the task *)
| Finishing                   (** about to lock [queue_mutex_] after the task *)
| Notifying                   (** completed the search, about to broadcast *)
| Exited.
Arguments AtLock {V}.
Arguments Checking {V}.
Arguments Waiting {V}.
Arguments Parking {V}.
Arguments Parked {V}.
Arguments Woken {V}.
Arguments Taking {V}.
Arguments Starting {V} task.
Arguments Working {V} g cs.
Arguments Failed {V} e.
Arguments Finishing {V}.
Arguments Notifying {V}.
Arguments Exited {V}.

Record Worker (V : Type) := MkWorker { w_phase : Phase V; w_state : WorkerState }.
Arguments MkWorker {V} w_phase w_state.
Arguments w_phase {V} w.
Arguments w_state {V} w.

(** [lock_owner] holds [queue_mutex_]. *)
Record Pool (V O : Type) := MkPool {
  p_shared : Shared V O;
  lock_owner : option nat;
  workers : list (Worker V);
}.
Arguments MkPool {V O} p_shared lock_owner workers.
Arguments p_shared {V O} p.
Arguments lock_owner {V O} p.
Arguments workers {V O} p.

Definition is_parked {V} (w : Worker V) : bool :=
  match w_phase w with Parked => true | _ => false end.

Definition is_exited {V} (w : Worker V) : bool :=
  match w_phase w with Exited => true | _ => false end.

(** [notify_all]. *)
Definition wake {V} (w : Worker V) : Worker V :=
  if is_parked w then MkWorker Woken (w_state w) else w.

(** [notify_one], sent [n] times: [chosen] are the workers the platform picks. *)
Definition wake_chosen {V} (chosen : list nat) (ws : list (Worker V)) : list (Worker V) :=
  imap (λ i w, if decide (i ∈ chosen) then wake w else w) ws.

(** The platform wakes as many parked workers as there are notifications and waiters. *)
Definition valid_choice {V} (n : nat) (chosen : list nat) (ws : list (Worker V)) : bool :=
  bool_decide (NoDup chosen) &&
  forallb (λ i, match ws !! i with Some w => is_parked w | None => false end) chosen &&
  bool_decide (length chosen = n `min` length (List.filter is_parked ws)).

Section pool.
Context {V O : Type} `{EqDecision V} (value_lt : V → V → bool) (config : DporConfig V O)
  (pc : PoolConfig) (clock : nat → Z) (start_time : Z) (thread_ids : list ThreadId).
Implicit Types (p : Pool V O) (s : Shared V O) (ws : WorkerState).

(** The predicate workers wait for. *)
Definition ready s : bool :=
  stop_requested_ s || search_complete_ s || negb (bool_decide (length (task_queue_ s) = 0)).

(** The move of worker [i] to a phase, the shared state and the lock being updated. *)
Definition move p (i : nat) s (owner : option nat) (ph : Phase V) ws : Pool V O :=
  MkPool s owner (<[i := MkWorker ph ws]> (workers p)).

(** The view of a worker with state [ws]. *)
Definition view_of s ws : View V O := MkView s ws false 0 false.

(** The rest of a step whose operations left the view [v]: their notifications, and the
    move of worker [i].  There is no such step when the operations needed a mutex that
    another worker holds. *)
Definition act p (i : nat) (chosen : list nat) (v : View V O) (ph : Phase V) : option (Pool V O) :=
  if decide (vw_locked v = true ∧ lock_owner p ≠ None) then None
  else
    let p' := move p i (vw_shared v) (lock_owner p) ph (vw_worker v) in
    if vw_notify_all v then Some (MkPool (p_shared p') (lock_owner p') (wake <$> workers p'))
    else if valid_choice (vw_notify_one v) chosen (workers p')
    then Some (MkPool (p_shared p') (lock_owner p') (wake_chosen chosen (workers p')))
    else None.

Definition record_exception s (e : exn) : Shared V O :=
  set_stop (set_exception s (match first_exception_ s with None => Some e | o => o end)).

(** The phase in which [process_task] runs the engine on a task. *)
Definition start_task (task : ExplorationTask V) : Phase V :=
  Working (task_graph V task)
    [MkContext None [enter (task_dpor_tree_depth V task) (task_mode V task)]].

(** The step of worker [i]; [None] when it must wait. *)
Definition worker_step p (i : nat) (chosen : list nat) : option (Pool V O) :=
  match workers p !! i with
  | None => None
  | Some w =>
      let s := p_shared p in
      let ws := w_state w in
      match w_phase w with
      | AtLock => if lock_owner p then None else Some (move p i s (Some i) Checking ws)
      | Checking =>
          Some (if ready s then move p i s (lock_owner p) Taking ws
                else move p i (set_idle s (S (idle_workers_ s))) (lock_owner p) Waiting ws)
      | Waiting =>
          Some (if ready s then move p i (set_idle s (idle_workers_ s - 1)) (lock_owner p) Taking ws
                else move p i s (lock_owner p) Parking ws)
      | Parking => Some (move p i s None Parked ws)
      | Parked => None
      | Woken => if lock_owner p then None else Some (move p i s (Some i) Waiting ws)
      | Taking =>
          if stop_requested_ s || search_complete_ s then
            let v := flush_worker_state (view_of s ws) in
            Some (move p i (vw_shared v) None Exited (vw_worker v))
          else
            match task_queue_ s with
            | [] => None
            | task :: q => Some (move p i (set_queue s q (S (active_workers_ s)) (search_complete_ s))
                                   None (Starting task) ws)
            end
      | Starting task =>
          let '(stop, v) := p_stop_requested pc (view_of s ws) in
          act p i chosen v (if (stop : bool) then Finishing else start_task task)
      | Working g cs =>
          match run_step (H := parallel_executor config pc clock start_time) value_lt config
                  thread_ids (MkExplorer (view_of s ws) g cs) with
          | Ok (inl m) => act p i chosen (executor m) (Working (borrowed_graph m) (contexts m))
          | Ok (inr m) => act p i chosen (executor m) Finishing
          | Throw e => Some (move p i s (lock_owner p) (Failed e) ws)
          end
      | Failed e =>
          act p i chosen (MkView (record_exception s e) ws false 0 true) Finishing
      | Finishing =>
          if lock_owner p then None
          else
            let active := active_workers_ s - 1 in
            if decide (stop_requested_ s = false ∧ task_queue_ s = [] ∧ active = 0)
            then Some (move p i (set_queue s (task_queue_ s) active true) None Notifying ws)
            else Some (move p i (set_queue s (task_queue_ s) active (search_complete_ s)) None
                         AtLock ws)
      | Notifying => act p i chosen (MkView s ws false 0 true) AtLock
      | Exited => None
      end
  end.

(** A parked worker may wake without a notification. *)
Definition spurious_wake p (i : nat) : option (Pool V O) :=
  match workers p !! i with
  | Some w => if is_parked w then Some (move p i (p_shared p) (lock_owner p) Woken (w_state w))
              else None
  | None => None
  end.

Inductive pool_step p p' : Prop :=
| step_worker i chosen : worker_step p i chosen = Some p' → pool_step p p'
| step_spurious i : spurious_wake p i = Some p' → pool_step p p'.

(** The state before the workers start. *)
Definition initial_shared (o : O) : Shared V O :=
  MkShared false no_counts 0 0 0 [MkExplorationTask empty_exploration_graph 0 Visit] 0 false None o 1
    (if decide (0 < progress_report_interval config)%Z
     then start_time + progress_report_interval config else start_time)%Z.

Definition initial_pool (o : O) : Pool V O :=
  MkPool (initial_shared o) None (replicate (pc_max_workers pc) (MkWorker AtLock new_worker)).

Definition pool_result_counts s : VerifyResult :=
  let c := sh_counts s in
  MkVerifyResult (if stop_requested_ s then Stopped else AllExplored) (total_count c) (cn_full c)
    (cn_blocked c) (cn_error c) (cn_depth_limit c) (cn_thread_event_limit c) (cn_max_depth c)
    (nd_splits_ s) (receive_splits_ s).

(** The end of [run], every worker having been joined: rethrow, or report the totals. *)
Definition finish_pool s ws : res (VerifyResult * O) :=
  match first_exception_ s with
  | Some e => Throw e
  | None =>
      let result := pool_result_counts s in
      match on_progress config with
      | None => Ok (result, sh_observers s)
      | Some _ =>
          let '(now, v) := read_clock clock (view_of s ws) in
          v' ← publish_progress_snapshot config pc start_time v
                 (progress_state_from_result_kind (vr_kind result)) now true;
          Ok (result, sh_observers (vw_shared v'))
      end
  end.

End pool.

(** [verify_parallel] returns [r]: the checks made before the workers start, or a run of
    the pool after which every worker has left its loop.  [inside_worker] tells whether
    the caller is itself a worker of a parallel exploration; worker 0 is the caller. *)
Inductive verify_parallel {V O : Type} `{EqDecision V} (value_lt : V → V → bool) (clock : nat → Z)
    (config : DporConfig V O) (options : ParallelVerifyOptions) (hardware_concurrency : nat)
    (inside_worker : bool) (o : O) : res (VerifyResult * O) → Prop :=
| vp_invalid_config e :
    validate_terminal_observer_config config = Throw e →
    verify_parallel value_lt clock config options hardware_concurrency inside_worker o (Throw e)
| vp_invalid_program e :
    validate_terminal_observer_config config = Ok tt →
    sorted_thread_ids (program config) = Throw e →
    verify_parallel value_lt clock config options hardware_concurrency inside_worker o (Throw e)
| vp_reentrant tids :
    validate_terminal_observer_config config = Ok tt →
    sorted_thread_ids (program config) = Ok tids → inside_worker = true →
    verify_parallel value_lt clock config options hardware_concurrency inside_worker o
      (Throw (precondition_error
        "verify_parallel is not reentrant: it must not be called from inside a parallel exploration worker (e.g., from an observer callback or thread function)"))
| vp_run tids p w :
    validate_terminal_observer_config config = Ok tt →
    sorted_thread_ids (program config) = Ok tids → inside_worker = false →
    rtc (pool_step value_lt config (resolve_options options hardware_concurrency) clock (clock 0)
           tids)
      (initial_pool config (resolve_options options hardware_concurrency) (clock 0) o) p →
    forallb is_exited (workers p) = true → workers p !! 0 = Some w →
    verify_parallel value_lt clock config options hardware_concurrency inside_worker o
      (finish_pool config (resolve_options options hardware_concurrency) clock (clock 0) (p_shared p)
         (w_state w)).
