(* ===== verification/Fatal.v ===== *)
(** * Fatal: what happens when a step throws, [dpor/algo/dpor.hpp]

    [run_step] of [Explorer] ends in an exception and keeps nothing else.  Here a step that
    throws also says where: the engine as the exception leaves it, with the graph at the
    point of failure.  [run_loop] catches the exception, hands that graph to the diagnostic
    hook [on_fatal_error], unwinds the stack and rethrows.

    A throwing mutation ([add_event], [set_reads_from], [rollback]) may leave its graph in
    any state: [torn] is an argument that says which.  The executor in the engine at the
    point of failure is the one before the call that threw. *)

From stdpp Require Import base tactics numbers sets list strings.
From S2P Require Import Prelude Errors Event Relation ExecutionGraph ExplorationGraph Porf.
From S2P Require Import Consistency Program Masked Dpor Revisit Explorer Parallel.

(** ** Attempts *)

(** A call that returns, or throws and leaves the engine as [m]. *)
Inductive attempt (M A : Type) :=
| Returned (a : A)
| Raised (e : exn) (m : M).
Arguments Returned {M A} a.
Arguments Raised {M A} e m.

#[export] Instance attempt_bind M : MBind (attempt M) := λ A B f r,
  match r with Returned a => f a | Raised e m => Raised e m end.

(** A call that leaves the engine as [m] when it throws. *)
Definition leaving {M A} (m : M) (r : res A) : attempt M A :=
  match r with Ok a => Returned a | Throw e => Raised e m end.

(** The result, without the point of failure. *)
Definition settled {M A} (r : attempt M A) : res A :=
  match r with Returned a => Ok a | Raised e _ => Throw e end.

(** ** The hook *)

Record FatalErrorContext (V : Type) := MkFatalErrorContext {
  fe_graph : ExplorationGraph V;
  fe_exception : exn;
}.
Arguments MkFatalErrorContext {V} fe_graph fe_exception.
Arguments fe_graph {V} f.
Arguments fe_exception {V} f.

(** The hook is user code with state of type [F]; it may change its state and then throw. *)
Definition FatalErrorObserver (V F : Type) : Type := F → FatalErrorContext V → F * option exn.

(** [SequentialExecutor::notify_fatal_error]: what the hook throws is swallowed. *)
Definition seq_notify_fatal_error {V F} (on_fatal_error : option (FatalErrorObserver V F))
    (g : ExplorationGraph V) (e : exn) (h : F) : F :=
  match on_fatal_error with
  | None => h
  | Some hook => (hook h (MkFatalErrorContext g e)).1
  end.

(** [ParallelExecutor::notify_fatal_error]; the state is [fatal_error_reported_] and the
    hook's, and the exchange is atomic. *)
Definition p_notify_fatal_error {V F} (on_fatal_error : option (FatalErrorObserver V F))
    (g : ExplorationGraph V) (e : exn) (s : bool * F) : bool * F :=
  match on_fatal_error with
  | None => s
  | Some hook =>
      let '(reported, h) := s in
      if (reported : bool) then (true, h) else (true, (hook h (MkFatalErrorContext g e)).1)
  end.

(** ** Steps that say where they fail *)

Section engine.
Context {V O X : Type} `{EqDecision V} `{Executor V X} (value_lt : V → V → bool)
  (config : DporConfig V O) (thread_ids : list ThreadId)
  (torn : ExplorationGraph V → ExplorationGraph V).
Implicit Types (m : Explorer V X) (g : ExplorationGraph V) (f : ExplorationFrame V).

(** A mutation of the current graph, which is [g] until it throws. *)
Definition mutating {A} m g (r : res A) : attempt (Explorer V X) A :=
  leaving (set_current_graph m (torn g)) r.

Definition attempt_maximal m g f (suppressed : bool) : attempt (Explorer V X) (Explorer V X) :=
  '(reschedule, x) ← leaving m (find_blocked_receive_reschedule_child config thread_ids g (executor m));
  let m := set_executor m x in
  match reschedule with
  | RescheduleStopRequested => Returned m
  | RescheduleReady g' => Returned (push_owned_context (pop_top_frame m) g' (dpor_tree_depth f) Visit)
  | RescheduleNone =>
      blocked ← leaving m (if suppressed then Ok false else has_blocked_thread g);
      let kind := if suppressed then ThreadEventLimit
                  else if (blocked : bool) then Blocked else Full in
      m' ← leaving m (publish_terminal thread_ids m g kind);
      Returned (pop_top_frame m')
  end.

(** The frame of a receive is turned into a resumable one before its candidates are known,
    and the one of a send before its receives are. *)
Definition attempt_label m g f (tid : ThreadId) (l : EventLabel V)
    : attempt (Explorer V X) (Explorer V X) :=
  match l with
  | LError _ =>
      '(_, g') ← mutating m g (add_event g tid l);
      let m' := set_current_graph m g' in
      m1 ← leaving m' (publish_terminal thread_ids m' g' ErrorExecution);
      g'' ← mutating m1 g' (rollback g' (checkpoint g));
      Returned (pop_top_frame (set_current_graph m1 g''))
  | LReceive recv =>
      candidates ← leaving
        (set_frame m (MkFrame ResumeReceive (dpor_tree_depth f) (frame_mode f) (checkpoint g) 0 None tid
                        (frame_label f) (candidate_event_ids f) (flag f)))
        (compatible_unread_send_ids g tid recv);
      Returned (set_frame m (MkFrame ResumeReceive (dpor_tree_depth f) (frame_mode f) (checkpoint g) 0 None
                               tid (Some l) candidates (is_nonblocking recv)))
  | LSend _ =>
      '(send_id, g') ← mutating m g (add_event g tid l);
      receives ← leaving
        (set_frame (set_current_graph m g')
           (MkFrame ResumeSendRevisits (dpor_tree_depth f) (frame_mode f) (checkpoint g) 0 (Some send_id)
              (thread_id f) None (candidate_event_ids f) (flag f)))
        (receives_in_destination g' send_id);
      let '(spawn, x) := can_spawn (dpor_tree_depth f + 1) (executor m) in
      Returned (set_frame (set_executor (set_current_graph m g') x)
                  (MkFrame ResumeSendRevisits (dpor_tree_depth f) (frame_mode f) (checkpoint g) 0
                     (Some send_id) (thread_id f) None receives spawn))
  | LNd _ | LBlock => mutating m g (enter_label thread_ids m g f tid l)
  end.

Definition attempt_visit m : attempt (Explorer V X) (Explorer V X) :=
  '(c, f) ← leaving m (current m);
  let g := context_graph m c in
  x ← leaving m (maybe_report_progress (executor m));
  let '(stop, x) := stop_requested x in
  let m := set_executor m x in
  if (stop : bool) then Returned m
  else if decide (max_depth config ≤ dpor_tree_depth f) then
    m' ← leaving m (publish_terminal thread_ids m g DepthLimit);
    Returned (pop_top_frame m')
  else
    next ← leaving m (compute_next_event (program config) g thread_ids (max_thread_events config));
    match Dpor.next next with
    | None => attempt_maximal m g f (suppressed_by_thread_event_limit next)
    | Some (tid, l) => attempt_label m g f tid l
    end.

Definition attempt_enter_frame m : attempt (Explorer V X) (Explorer V X) :=
  '(c, f) ← leaving m (current m);
  match frame_mode f with
  | Visit => attempt_visit m
  | VisitIfConsistent =>
      let '(stop, x) := stop_requested (executor m) in
      let m := set_executor m x in
      if (stop : bool) then Returned (pop_top_frame m)
      else
        '(r, g) ← leaving m (check_consistency (context_graph m c) (communication_model config));
        let m := set_current_graph m g in
        if is_consistent r then attempt_visit (set_frame m (set_mode f Visit))
        else Returned (pop_top_frame m)
  end.

(** A resumed frame rolls its graph back first; a child for another worker is built on a
    copy. *)
Definition attempt_resume_nd m : attempt (Explorer V X) (Explorer V X) :=
  '(c, f) ← leaving m (current m);
  g ← mutating m (context_graph m c) (rollback (context_graph m c) (frame_checkpoint f));
  let m := set_current_graph m g in
  match frame_label f with
  | None => Raised (internal_error "ND resume frame lost its cached label") m
  | Some (LNd nd) =>
      match choices nd with
      | [] => Raised (internal_error "ND resume frame expected a non-empty ND choice") m
      | _ =>
          match choices nd !! cursor f with
          | None => Returned (pop_top_frame m)
          | Some v =>
              let depth := dpor_tree_depth f + 1 in
              '(handed, x) ← leaving m
                 (offer_child m (bool_decide (cursor f + 1 < length (choices nd))) depth Visit
                    (λ child, add_nd_choice child (thread_id f) nd v) g);
              let m := set_frame (set_executor m x) (set_cursor f (cursor f + 1)) in
              if (handed : bool) then Returned (set_executor m (note_nd_split (V := V) (executor m)))
              else
                g' ← mutating m g (add_nd_choice g (thread_id f) nd v);
                Returned (push_frame (set_current_graph m g') (enter depth Visit))
          end
      end
  | Some _ => Raised (internal_error "ND resume frame expected a non-empty ND choice") m
  end.

Definition attempt_resume_receive m : attempt (Explorer V X) (Explorer V X) :=
  '(c, f) ← leaving m (current m);
  g ← mutating m (context_graph m c) (rollback (context_graph m c) (frame_checkpoint f));
  let m := set_current_graph m g in
  match frame_label f with
  | None => Raised (internal_error "receive resume frame lost its cached label") m
  | Some (LReceive recv) =>
      let l := LReceive recv in
      let depth := dpor_tree_depth f + 1 in
      match candidate_event_ids f !! cursor f with
      | Some send_id =>
          '(handed, x) ← leaving m
             (offer_child m (bool_decide (cursor f + 1 < length (candidate_event_ids f)) || flag f)
                depth VisitIfConsistent
                (λ child, add_receive_from child (thread_id f) l send_id) g);
          let m := set_frame (set_executor m x) (set_cursor f (cursor f + 1)) in
          if (handed : bool) then Returned (set_executor m (note_receive_split (V := V) (executor m)))
          else
            g' ← mutating m g (add_receive_from g (thread_id f) l send_id);
            Returned (push_frame (set_current_graph m g') (enter depth VisitIfConsistent))
      | None =>
          if flag f then
            g' ← mutating (set_frame m (clear_flag f)) g (add_receive_from_bottom g (thread_id f) l);
            Returned (push_frame (set_frame (set_current_graph m g') (clear_flag f))
                        (enter depth VisitIfConsistent))
          else Returned (pop_top_frame m)
      end
  | Some _ => Raised (internal_error "receive resume frame expected a receive") m
  end.

(** One iteration of the loop. *)
Definition attempt_step m : attempt (Explorer V X) (Explorer V X + Explorer V X) :=
  match contexts m with
  | [] => Returned (inr m)
  | c :: _ =>
      let '(stop, x) := stop_requested (executor m) in
      let m := set_executor m x in
      let g := context_graph m c in
      if (stop : bool) then m' ← mutating m g (unwind_one_step m); Returned (inl m')
      else
        match current_frames m with
        | [] => Returned (inl (pop_context m))
        | f :: _ =>
            m' ← match frame_kind f with
                 | Enter => attempt_enter_frame m
                 | ExitLinearChild => mutating m g (rollback_and_pop_top_frame m)
                 | ResumeNd => attempt_resume_nd m
                 | ResumeReceive => attempt_resume_receive m
                 | ResumeSendRevisits =>
                     leaving m (handle_resume_send_revisits_frame value_lt config m)
                 end;
            Returned (inl m')
        end
  end.

(** The [try] block of [run_loop]. *)
Fixpoint attempt_loop (fuel : nat) m : attempt (Explorer V X) (Explorer V X) :=
  match fuel with
  | 0 => Raised nontermination m
  | S fuel' =>
      next ← attempt_step m;
      match next with inl m' => attempt_loop fuel' m' | inr m' => Returned m' end
  end.

(** ** The [catch] block *)

(** [while (!contexts_.empty()) unwind_one_step();]: one step per frame and one per context
    is enough. *)
Definition unwind_fuel m : nat := S (sum_list_with (λ c, S (length (frames c))) (contexts m)).

Definition unwind_all m : res (Explorer V X) :=
  while (unwind_fuel m) nontermination
    (λ m, match contexts m with [] => Ok (inr m) | _ => inl <$> unwind_one_step m end) m.

(** The graph the failing context is at, given to the hook. *)
Definition report_failure {F} (notify : ExplorationGraph V → exn → F → F) (e : exn) m (h : F) : F :=
  match contexts m with
  | [] => h
  | c :: _ => notify (context_graph m c) e h
  end.

(** The caller's graph after the [catch] block: a failing rollback clears the contexts. *)
Definition caller_graph_after m : ExplorationGraph V :=
  match unwind_all m with Ok m' => borrowed_graph m' | Throw _ => torn (borrowed_graph m) end.

(** [run_loop]: the result, the hook's state and the caller's graph. *)
Definition run_loop_reporting {F} (notify : ExplorationGraph V → exn → F → F) (fuel : nat) m (h : F)
    : res (Explorer V X) * F * ExplorationGraph V :=
  match attempt_loop fuel m with
  | Returned m' => (Ok m', h, borrowed_graph m')
  | Raised e m' => (Throw e, report_failure notify e m' h, caller_graph_after m')
  end.

End engine.

(** ** [verify] with the hook *)

Section verify.
Context {V O F : Type} `{EqDecision V} (value_lt : V → V → bool) (clock : nat → Z)
  (torn : ExplorationGraph V → ExplorationGraph V)
  (on_fatal_error : option (FatalErrorObserver V F)).

Definition verify_reporting (config : DporConfig V O) (o : O) (h : F) (fuel : nat)
    : res (VerifyResult * O) * F :=
  match validate_terminal_observer_config config with
  | Throw e => (Throw e, h)
  | Ok _ =>
      match sorted_thread_ids (program config) with
      | Throw e => (Throw e, h)
      | Ok thread_ids =>
          let start_time := clock 0 in
          let '(r, h', _) := run_loop_reporting (H := sequential_executor config clock start_time)
            value_lt config thread_ids torn (seq_notify_fatal_error on_fatal_error) fuel
            (MkExplorer (new_sequential_state config start_time new_result o 1) empty_exploration_graph
               [MkContext None [enter 0 Visit]]) h in
          (m ← r;
           s ← publish_final_progress config clock start_time (executor m);
           Ok (seq_result s, seq_observers s), h')
      end
  end.

End verify.

(** ** The pool with the hook *)

Section pool.
Context {V O F : Type} `{EqDecision V} (value_lt : V → V → bool) (config : DporConfig V O)
  (pc : PoolConfig) (clock : nat → Z) (start_time : Z) (thread_ids : list ThreadId)
  (torn : ExplorationGraph V → ExplorationGraph V)
  (on_fatal_error : option (FatalErrorObserver V F)).

(** The [catch] block of worker [i], when its iteration throws. *)
Definition report_worker (p : Pool V O) (i : nat) (s : bool * F) : bool * F :=
  match workers p !! i with
  | Some (MkWorker (Working g cs) ws) =>
      match attempt_step (H := parallel_executor config pc clock start_time) value_lt config thread_ids
              torn (MkExplorer (view_of (p_shared p) ws) g cs) with
      | Raised e m => report_failure (p_notify_fatal_error on_fatal_error) e m s
      | Returned _ => s
      end
  | _ => s
  end.

(** A step of the pool, with [fatal_error_reported_] and the hook's state. *)
Inductive reporting_step : Pool V O * (bool * F) → Pool V O * (bool * F) → Prop :=
| reporting_worker p s i chosen p' :
    worker_step value_lt config pc clock start_time thread_ids p i chosen = Some p' →
    reporting_step (p, s) (p', report_worker p i s)
| reporting_spurious p s i p' :
    spurious_wake p i = Some p' → reporting_step (p, s) (p', s).

End pool.
