(* ===== verification/RestrictFacts.v ===== *)
(** * RestrictFacts: restricting a graph to a set of events

    [restrict_from_keep_mask] renumbers the kept events densely and drops the reads-from
    entries that lose an end.  The result is a well-formed graph whose events are the
    kept ones in their old order, and whose order and reads-from edges are those of the
    original graph between kept events. *)

From stdpp Require Import base tactics numbers relations sets list strings.
From S2P Require Import Prelude Errors Event Relation ExecutionGraph ExplorationGraph.
From S2P Require Import StorageFacts ExecutionGraphFacts ExplorationFacts Rollback.

(** ** The two renumberings *)

Section renumbering.
Implicit Types (mask : list bool) (old new : EventId).

Lemma kept_ids_snoc mask b :
  kept_ids (mask ++ [b]) = kept_ids mask ++ (if b then [length mask] else []).
Proof.
  unfold kept_ids. rewrite length_app. simpl. rewrite seq_app. simpl.
  rewrite List.filter_app. f_equal.
  - apply List.filter_ext_in. intros i Hi%in_seq. by rewrite lookup_app_l by lia.
  - simpl. rewrite lookup_app_r, Nat.sub_diag by lia. simpl. by destruct b.
Qed.

Lemma dense_ids_snoc mask b n :
  dense_ids (mask ++ [b]) n =
    dense_ids mask n ++ [if b then Some (n + length (kept_ids mask)) else None].
Proof.
  assert (∀ m, length (kept_ids m) = length (List.filter id m)) as Hlen.
  { intros m. induction m as [|c m IH] using rev_ind; [done|].
    rewrite kept_ids_snoc, length_app, List.filter_app, length_app, IH. by destruct c. }
  rewrite Hlen. clear Hlen. revert n.
  induction mask as [|c mask IH]; intros n; simpl; [by rewrite Nat.add_0_r; destruct b|].
  destruct c; simpl; rewrite IH; [|done]. simpl. do 3 f_equal. destruct b; [|done]. f_equal. lia.
Qed.

Lemma length_dense_ids mask n : length (dense_ids mask n) = length mask.
Proof. revert n. induction mask as [|[] mask IH]; intros n; simpl; auto. Qed.

(** [id_map] and [kept_ids] are inverse to one another. *)
Lemma dense_ids_kept mask old new :
  dense_ids mask 0 !! old = Some (Some new) ↔ kept_ids mask !! new = Some old.
Proof.
  revert old new. induction mask as [|b mask IH] using rev_ind; intros old new; [done|].
  rewrite dense_ids_snoc, kept_ids_snoc, !lookup_app. simpl. rewrite length_dense_ids.
  destruct (decide (old < length mask)) as [Hold|Hold].
  - destruct (lookup_lt_is_Some_2 (dense_ids mask 0) old) as [o Ho];
      [by rewrite length_dense_ids|].
    rewrite Ho. split.
    + intros [= ->]. by rewrite (proj1 (IH old new) Ho).
    + destruct (kept_ids mask !! new) as [x|] eqn:E.
      * intros [= ->]. rewrite <-Ho. by apply IH.
      * destruct b; [|done]. intros [_ [= H]]%list_lookup_singleton_Some. lia.
  - rewrite (lookup_ge_None_2 (dense_ids mask 0)) by (rewrite length_dense_ids; lia).
    destruct (kept_ids mask !! new) as [x|] eqn:E.
    + split.
      * intros H%list_lookup_singleton_Some. destruct H as [_ H]. destruct b; [|done].
        injection H as <-. apply lookup_lt_Some in E. lia.
      * intros [= ->]. apply IH in E. apply lookup_lt_Some in E.
        rewrite length_dense_ids in E. lia.
    + apply lookup_ge_None in E. rewrite !list_lookup_singleton_Some.
      destruct b; rewrite ?list_lookup_singleton_Some; [|split; [intros [_ ?]; done|done]].
      split; intros [H1 [= H2]]; split; try lia; f_equal; lia.
Qed.

Lemma dense_ids_dropped mask old :
  dense_ids mask 0 !! old = Some None ↔ mask !! old = Some false.
Proof.
  generalize 0. revert old. induction mask as [|[] mask IH]; intros [|old] n; simpl;
    try done; apply IH.
Qed.

Lemma kept_ids_elem mask old : old ∈ kept_ids mask ↔ mask !! old = Some true.
Proof.
  unfold kept_ids. rewrite list_elem_of_In, filter_In, in_seq, bool_decide_eq_true.
  split; [by intros [_ H]|].
  intros H. split; [|done]. apply lookup_lt_Some in H. lia.
Qed.

Lemma kept_ids_mono mask i j a b :
  kept_ids mask !! i = Some a → kept_ids mask !! j = Some b → i < j ↔ a < b.
Proof.
  revert i j a b. induction mask as [|c mask IH] using rev_ind; intros i j a b; [done|].
  rewrite kept_ids_snoc, !lookup_app.
  assert (∀ k x, kept_ids mask !! k = Some x → x < length mask) as Hb.
  { intros k x H%list_elem_of_lookup_2%kept_ids_elem. by eapply lookup_lt_Some. }
  destruct (kept_ids mask !! i) as [x|] eqn:Ei, (kept_ids mask !! j) as [y|] eqn:Ej.
  - intros [= ->] [= ->]. by apply IH.
  - apply lookup_ge_None in Ej. apply lookup_lt_Some in Ei as Hi. apply Hb in Ei.
    destruct c; [|done]. intros [= ->] [Hj [= <-]]%list_lookup_singleton_Some. lia.
  - apply lookup_ge_None in Ei. apply lookup_lt_Some in Ej as Hj. apply Hb in Ej.
    destruct c; [|done]. intros [Hi [= <-]]%list_lookup_singleton_Some [= ->]. lia.
  - apply lookup_ge_None in Ei, Ej. destruct c; [|done].
    intros [Hi [= <-]]%list_lookup_singleton_Some [Hj [= <-]]%list_lookup_singleton_Some. lia.
Qed.

End renumbering.

(** ** Bulk insertion *)

Section append.
Context {V : Type}.
Implicit Types (g r : ExplorationGraph V) (es : list (Event V)) (t : ThreadId).

(** Logs and cache play no part in indexing an event. *)
Lemma index_new_event_logs g graph' t id el rl c :
  index_new_event (set_cache (set_logs g el rl) c) graph' t id =
  (λ g', set_cache (set_logs g' el rl) c) <$> index_new_event g graph' t id.
Proof.
  unfold index_new_event. simpl.
  do 7 step_bind. by case_match.
Qed.

Lemma update_acyclicity_logs g id el rl c :
  update_acyclicity_after_add_event (set_cache (set_logs g el rl) c) id =
  (λ g', set_cache (set_logs g' el rl) c) <$> update_acyclicity_after_add_event g id.
Proof.
  unfold update_acyclicity_after_add_event, event. simpl. destruct (known_acyclic_ g); [|reflexivity].
  destruct (ExecutionGraph.event _ _) as [e|]; [|done]. simpl. by destruct (is_receive e).
Qed.

(** Bulk insertion is insertion without a log entry. *)
Lemma append_event_eq g t l id g' :
  N.to_nat t < length (thread_state_ g) → add_event g t l = Ok (id, g') →
  append_event_for_bulk_build g t l =
    Ok (set_cache (set_logs g' (event_undo_log_ g) (rf_undo_log_ g)) (porf_cache_ g)) ∧
  length (thread_state_ g') = length (thread_state_ g).
Proof.
  intros Ht Hadd. unfold append_event_for_bulk_build. unfold add_event in Hadd.
  rewrite decide_False by lia.
  destruct (ExecutionGraph.add_event (graph_ g) t l) as [[id' graph']|e]; simpl in *; [|done].
  destruct (ExecutionGraph.event graph' id') as [added|e]; simpl in *; [|done].
  rewrite index_new_event_logs in Hadd.
  destruct (index_new_event g graph' t id') as [g2|e] eqn:Hidx; simpl in *; [|done].
  rewrite update_acyclicity_logs in Hadd.
  destruct (update_acyclicity_after_add_event g2 id') as [g3|e] eqn:Hupd; simpl in *; [|done].
  injection Hadd as <- <-. simpl.
  assert (length (thread_state_ g2) = length (thread_state_ g) ∧
    event_undo_log_ g2 = event_undo_log_ g ∧ rf_undo_log_ g2 = rf_undo_log_ g ∧
    porf_cache_ g2 = porf_cache_ g) as (Hs & He & Hr & Hc).
  { unfold index_new_event in Hidx. inv_bind. destruct v5 as [sends mask]. inv_bind. simpl.
    split; [|done]. apply vec_set_inv in Hv0 as [_ ->].
    rewrite length_insert, length_grow. lia. }
  assert (thread_state_ g3 = thread_state_ g2 ∧
    event_undo_log_ g3 = event_undo_log_ g2 ∧ rf_undo_log_ g3 = rf_undo_log_ g2 ∧
    porf_cache_ g3 = porf_cache_ g2) as (Hs' & He' & Hr' & Hc').
  { unfold update_acyclicity_after_add_event in Hupd. destruct (known_acyclic_ g2).
    - inv_bind. by destruct (is_receive v).
    - by injection Hupd as <-. }
  split; [|congruence]. f_equal. rewrite <-He, <-Hr, <-Hc, <-He', <-Hr', <-Hc'.
  by destruct g3.
Qed.

End append.

(** ** The copy of the kept events *)

Section restrict.
Context {V : Type}.
Implicit Types (g r : ExplorationGraph V) (es : list (Event V)) (mask : list bool).

(** [e'] is event [old] of [es] up to its index. *)
Definition copy_of es (old : EventId) (e' : Event V) : Prop :=
  ∃ e, es !! old = Some e ∧ thread e' = thread e ∧ label e' = label e.

Lemma core_event_bounds g k e :
  Core g → events g !! k = Some e →
  (thread e ≤ kMaxThreadId)%N ∧ (index e ≤ kMaxIndex)%N ∧
  N.to_nat (thread e) < length (thread_state_ g).
Proof.
  intros Hcore He. destruct (core_graph _ Hcore) as [_ Hlen Hcap Hst Hbook _].
  specialize (Hst k e He). split_and!; [lia| |].
  - destruct (lookup_lt_is_Some_2 _ _ Hst) as [next Hnext].
    destruct (lookup_lt_is_Some_2 (used_event_indices_by_thread_ (graph_ g))
                (N.to_nat (thread e))) as [used Hused]; [lia|].
    destruct (Hbook _ _ _ Hnext Hused) as (_ & Hn & _ & Hi).
    destruct (Hi (index e)) as [?|[-> _]]; [by exists k, e|lia|lia].
  - destruct (decide (N.to_nat (thread e) < length (thread_state_ g))) as [|Hge]; [done|].
    pose proof (c_states _ (core_caches _ Hcore) (N.to_nat (thread e))) as Hs.
    rewrite lookup_ge_None_2, N2Nat.id in Hs by lia. simpl in Hs.
    apply (f_equal ts_event_count) in Hs. simpl in Hs. symmetry in Hs.
    apply nil_length_inv in Hs.
    assert (k ∈ thread_ids (events g) (thread e)) as Hk by (apply thread_ids_elem; by exists e).
    rewrite Hs in Hk. by apply not_elem_of_nil in Hk.
Qed.

(** Copies keep threads no longer than the events they come from. *)
Lemma copies_thread_length es ids es' t n :
  Forall2 (copy_of es) ids es' → NoDup ids → (∀ old, old ∈ ids → old < n) →
  length (thread_ids es' t) ≤ length (thread_ids (take n es) t).
Proof.
  intros Hcp Hnd Hlt.
  assert (∀ k, k ∈ thread_ids es' t → ∃ old, ids !! k = Some old ∧ old ∈ thread_ids (take n es) t)
    as Hmap.
  { intros k (e' & Hk & Ht)%thread_ids_elem.
    destruct (Forall2_lookup_r _ _ _ _ _ Hcp Hk) as (old & Hold & e & He & Hte & _).
    exists old. split; [done|]. apply thread_ids_elem. exists e. split; [|congruence].
    rewrite lookup_take_lt; [done|]. by eapply Hlt, list_elem_of_lookup_2. }
  rewrite <-(length_fmap (λ k, default 0 (ids !! k))).
  apply submseteq_length, NoDup_submseteq.
  - apply NoDup_fmap_2_strong; [|apply ids_where_nodup].
    intros x y (a & Ha & _)%Hmap (b & Hb & _)%Hmap. rewrite Ha, Hb. simpl. intros ->.
    by apply (NoDup_lookup ids x y b).
  - intros x (k & -> & (old & Hold & Hin)%Hmap)%list_elem_of_fmap. by rewrite Hold.
Qed.

Lemma core_reserve n : Core (reserve_for_bulk_build (V := V) empty_exploration_graph n).
Proof.
  pose proof (inv_core _ (empty_Inv (V := V))) as [Hwf Hd Hn Hr Hc].
  split; [done|done|done|done|].
  destruct Hc as [H1 H2 H3 H4 H5 H6]. split; [| | |done|done|done]; intros i; simpl.
  all: destruct (decide (i < n)); [rewrite lookup_resize_new by (simpl; lia); apply (H1 i) ||
    apply (H2 i)|rewrite lookup_resize_old by lia; apply (H1 i) || apply (H2 i)].
Qed.

Lemma NoDup_kept_ids mask : NoDup (kept_ids mask).
Proof. apply NoDup_ListNoDup, List.NoDup_filter, NoDup_ListNoDup, NoDup_seq. Qed.

(** The first loop of [restrict_from_keep_mask]. *)
Lemma restrict_events_Ok g mask :
  Core g → length mask = event_count g →
  ∃ r, foldM (λ r old_id,
           e ← event g old_id; append_event_for_bulk_build r (thread e) (label e))
         (reserve_for_bulk_build empty_exploration_graph (length (thread_state_ g)))
         (kept_ids mask) = Ok r ∧
    Core r ∧ Forall2 (copy_of (events g)) (kept_ids mask) (events r) ∧
    reads_from r = rf_empty ∧ event_undo_log_ r = [] ∧ rf_undo_log_ r = [] ∧
    porf_cache_ r = None.
Proof.
  intros Hcore Hlen.
  destruct (foldM_inv (E := exn) (λ r old_id,
      e ← event g old_id; append_event_for_bulk_build r (thread e) (label e))
    (λ done r, Core r ∧ Forall2 (copy_of (events g)) done (events r) ∧
      reads_from r = rf_empty ∧ event_undo_log_ r = [] ∧ rf_undo_log_ r = [] ∧
      porf_cache_ r = None ∧ length (thread_state_ r) = length (thread_state_ g))
    (kept_ids mask)
    (reserve_for_bulk_build empty_exploration_graph (length (thread_state_ g))))
    as (r & Hr & Hcr & Hcp & Hrf & Hel & Hrl & Hpc & _); [| |by exists r].
  { split_and!; try done; [apply core_reserve|]. simpl. by rewrite length_resize. }
  intros p old rest r Hsplit (Hcr & Hcp & Hrf & Hel & Hrl & Hpc & Hst).
  assert (kept_ids mask !! length p = Some old) as Hp
    by (rewrite Hsplit, lookup_app_r, Nat.sub_diag by lia; done).
  assert (old < event_count g) as Hold.
  { rewrite <-Hlen. apply list_elem_of_lookup_2, kept_ids_elem in Hp. by eapply lookup_lt_Some. }
  destruct (lookup_lt_is_Some_2 _ _ Hold) as [e He].
  assert (event g old = Ok e) as ->
    by (unfold event, ExecutionGraph.event; unfold events in He; by rewrite He).
  simpl. destruct (core_event_bounds g old e Hcore He) as (Ht & Hi & Hts).
  pose proof (core_add_event r (thread e) (label e) Hcr Ht) as Hadd. cbn zeta in Hadd.
  assert (length (thread_ids (events r) (thread e)) ≤
          length (thread_ids (take old (events g)) (thread e))) as Hle.
  { apply (copies_thread_length _ p); [done| |].
    - pose proof (NoDup_kept_ids mask) as Hnd. rewrite Hsplit in Hnd.
      by apply NoDup_app in Hnd as (? & _).
    - intros x [k Hk]%list_elem_of_lookup_1. apply (kept_ids_mono mask k (length p)); [|done|].
      + rewrite Hsplit. by apply lookup_app_l_Some.
      + by eapply lookup_lt_Some. }
  pose proof (core_dense _ Hcore old e He) as Hdense.
  destruct (add_event r (thread e) (label e)) as [[id r']|x] eqn:Eadd.
  2:{ destruct Hadd as [_ Hbad]. lia. }
  destruct Hadd as (-> & Hcr' & _ & Hev & Hrf' & _ & _ & _ & _).
  destruct (append_event_eq r _ _ _ r' ltac:(rewrite Hst; exact Hts) Eadd) as [-> Hst'].
  eexists. split; [done|]. simpl. split_and!; try congruence.
  - by apply (core_ext r').
  - unfold events in *. simpl. rewrite Hev. apply Forall2_app; [done|]. constructor; [|done].
    by exists e.
  - unfold reads_from in *. simpl. congruence.
Qed.

(** ** The remapped reads-from relation *)

(** The source in the restricted graph; a dropped send has none. *)
Definition remap_source mask (s : ReadsFromSource) : option ReadsFromSource :=
  match rf_send s with
  | None => Some rf_bottom
  | Some id => match dense_ids mask 0 !! id with Some (Some new) => Some (from_send new) | _ => None end
  end.

(** The entries of the restricted relation that come from [entries]. *)
Definition remapped mask (entries : list (EventId * ReadsFromSource)) (new : EventId)
    (s : ReadsFromSource) : Prop :=
  ∃ old s0, (old, s0) ∈ entries ∧ kept_ids mask !! new = Some old ∧ remap_source mask s0 = Some s.

Lemma remapped_snoc mask p old s0 new s :
  remapped mask (p ++ [(old, s0)]) new s ↔
  remapped mask p new s ∨ (kept_ids mask !! new = Some old ∧ remap_source mask s0 = Some s).
Proof.
  unfold remapped. setoid_rewrite elem_of_app.
  setoid_rewrite list_elem_of_singleton. naive_solver.
Qed.

(** One entry: nothing happens, or the receive's new id gets the remapped source. *)
Lemma remap_rf_Ok es mask r old s0 :
  Core r → length (events r) = length (kept_ids mask) → length mask = length es →
  old < length es → source_in_range es s0 →
  ∃ r', remap_rf (dense_ids mask 0) r (old, s0) = Ok r' ∧ Core r' ∧ events r' = events r ∧
    event_undo_log_ r' = event_undo_log_ r ∧ (porf_cache_ r = None → porf_cache_ r' = None) ∧
    ((∀ new s, ¬ (kept_ids mask !! new = Some old ∧ remap_source mask s0 = Some s)) ∧
       reads_from r' = reads_from r ∨
     ∃ new s, kept_ids mask !! new = Some old ∧ remap_source mask s0 = Some s ∧
       reads_from r' = rf_set (reads_from r) new s).
Proof.
  intros Hcr Hlen Hm Hold Hsrc. unfold remap_rf. simpl.
  destruct (lookup_lt_is_Some_2 (dense_ids mask 0) old) as [o Ho];
    [rewrite length_dense_ids; lia|].
  rewrite (vec_get_Ok _ _ _ Ho). simpl. destruct o as [new|].
  2:{ exists r. split_and!; try done. left. split; [|done].
      intros new s [Hk%dense_ids_kept _]. congruence. }
  apply dense_ids_kept in Ho as Hk.
  assert (new < event_count r) as Hnew
    by (unfold event_count; rewrite Hlen; by eapply lookup_lt_Some).
  assert (∀ s, remap_source mask s0 = Some s → source_in_range (events r) s →
    ∃ r', set_reads_from_source r new s = Ok r' ∧ Core r' ∧ events r' = events r ∧
      event_undo_log_ r' = event_undo_log_ r ∧ (porf_cache_ r = None → porf_cache_ r' = None) ∧
      ∃ new s, kept_ids mask !! new = Some old ∧ remap_source mask s0 = Some s ∧
        reads_from r' = rf_set (reads_from r) new s) as Hset.
  { intros s Hs Hin. destruct (core_set_reads_from_source r new s Hcr Hnew Hin)
      as (r' & Hr' & Hc' & Hev & Hrf & Hel & _ & Hpc & _).
    exists r'. split_and!; try done. by exists new, s. }
  destruct (rf_send s0) as [id|] eqn:Es.
  - destruct (lookup_lt_is_Some_2 (dense_ids mask 0) id) as [o' Ho'];
      [rewrite length_dense_ids, Hm; by apply Hsrc|].
    rewrite (vec_get_Ok _ _ _ Ho'). simpl. destruct o' as [send|].
    + destruct (Hset (from_send send)) as (r' & Hr' & H1 & H2 & H3 & H4 & H5).
      { unfold remap_source. by rewrite Es, Ho'. }
      { intros i [= <-]. rewrite Hlen. apply dense_ids_kept in Ho'. by eapply lookup_lt_Some. }
      exists r'. split_and!; try done. by right.
    + exists r. split_and!; try done. left. split; [|done].
      intros new' s [_ Hs]. unfold remap_source in Hs. by rewrite Es, Ho' in Hs.
  - destruct (Hset rf_bottom) as (r' & Hr' & H1 & H2 & H3 & H4 & H5).
    { unfold remap_source. by rewrite Es. }
    { by intros i Hi. }
    exists r'. split_and!; try done. by right.
Qed.

(** The second loop of [restrict_from_keep_mask]. *)
Lemma restrict_rf_Ok es mask r entries :
  Core r → length (events r) = length (kept_ids mask) → length mask = length es →
  reads_from r = rf_empty → event_undo_log_ r = [] → porf_cache_ r = None →
  NoDup entries.*1 →
  (∀ old s, (old, s) ∈ entries → old < length es ∧ source_in_range es s) →
  ∃ r', foldM (remap_rf (dense_ids mask 0)) r entries = Ok r' ∧ Core r' ∧
    events r' = events r ∧ event_undo_log_ r' = [] ∧ porf_cache_ r' = None ∧
    ∀ new s, rf_find (reads_from r') new = Some s ↔ remapped mask entries new s.
Proof.
  intros Hcr Hlen Hm Hrf Hel Hpc Hnd Hin.
  destruct (foldM_inv (E := exn) (remap_rf (dense_ids mask 0))
    (λ p r', Core r' ∧ events r' = events r ∧ event_undo_log_ r' = [] ∧ porf_cache_ r' = None ∧
       ∀ new s, rf_find (reads_from r') new = Some s ↔ remapped mask p new s) entries r)
    as (r' & Hr' & H); [| |by exists r'].
  { split_and!; try done. intros new s. rewrite Hrf. unfold rf_find, remapped. simpl.
    split; [done|]. intros (old & s0 & H%not_elem_of_nil & _). done. }
  intros p [old s0] rest r1 Hsplit (Hc1 & Hev1 & Hel1 & Hpc1 & Hiff).
  destruct (Hin old s0) as [Hold Hsrc]; [rewrite Hsplit; set_solver|].
  destruct (remap_rf_Ok es mask r1 old s0 Hc1 ltac:(by rewrite Hev1) Hm Hold Hsrc)
    as (r2 & Hr2 & Hc2 & Hev2 & Hel2 & Hpc2 & Hcase).
  exists r2. split_and!; [done|done|congruence|congruence|auto|].
  assert (∀ s1, (old, s1) ∉ p) as Hfresh.
  { intros s1 Hs1. rewrite Hsplit, fmap_app in Hnd. simpl in Hnd.
    apply NoDup_app in Hnd as (_ & Hd & _). apply (Hd old); [|set_solver].
    apply list_elem_of_fmap. by exists (old, s1). }
  intros new s. rewrite remapped_snoc, <-Hiff. destruct Hcase as [[Hno ->]|(new' & s' & Hk & Hs & ->)].
  - split; [by left|]. intros [?|?]; [done|by destruct (Hno new s)].
  - rewrite rf_find_set. case_decide as E; [subst new'|].
    + split; [intros [= ->]; by right|]. intros [Hf|[_ Hs']]; [|congruence].
      apply Hiff in Hf as (old' & s1 & Hp & Hk' & _). rewrite Hk in Hk'. injection Hk' as <-.
      by destruct (Hfresh s1).
    + split; [by left|]. intros [?|[Hk' _]]; [done|]. destruct E.
      apply dense_ids_kept in Hk, Hk'. congruence.
Qed.

(** ** The restricted graph *)

Record Restricted g mask r : Prop := {
  rs_inv : Inv r;
  rs_events : Forall2 (copy_of (events g)) (kept_ids mask) (events r);
  rs_rf : ∀ new s, rf_find (reads_from r) new = Some s ↔
    ∃ old s0, kept_ids mask !! new = Some old ∧ rf_find (reads_from g) old = Some s0 ∧
      remap_source mask s0 = Some s;
  rs_known : known_acyclic_ r = known_acyclic_ g;
  rs_elog : event_undo_log_ r = [];
  rs_rlog : rf_undo_log_ r = [];
  rs_cache : porf_cache_ r = None;
}.

(** Program order and reads-from of the copy are those of the original. *)
Lemma copies_po es ids mask es' a b :
  ids = kept_ids mask → Forall2 (copy_of es) ids es' →
  po es' a b ↔ ∃ oa ob, ids !! a = Some oa ∧ ids !! b = Some ob ∧ po es oa ob.
Proof.
  intros -> Hcp. split.
  - intros (Hab & ea & eb & Ha & Hb & Ht).
    destruct (Forall2_lookup_r _ _ _ _ _ Hcp Ha) as (oa & Hoa & ea' & Hea & Hta & _).
    destruct (Forall2_lookup_r _ _ _ _ _ Hcp Hb) as (ob & Hob & eb' & Heb & Htb & _).
    exists oa, ob. split_and!; [done|done|]. split; [by apply (kept_ids_mono mask a b)|].
    exists ea', eb'. split_and!; [done|done|congruence].
  - intros (oa & ob & Ha & Hb & Hab & ea & eb & Hea & Heb & Ht).
    destruct (Forall2_lookup_l _ _ _ _ _ Hcp Ha) as (ea' & Ha' & ea2 & Hea2 & Hta & _).
    destruct (Forall2_lookup_l _ _ _ _ _ Hcp Hb) as (eb' & Hb' & eb2 & Heb2 & Htb & _).
    split; [by apply (kept_ids_mono mask a b oa ob)|]. exists ea', eb'.
    split_and!; [done|done|congruence].
Qed.

Lemma remapped_rf_edge mask rf rf' a b :
  (∀ new s, rf_find rf' new = Some s ↔
    ∃ old s0, kept_ids mask !! new = Some old ∧ rf_find rf old = Some s0 ∧
      remap_source mask s0 = Some s) →
  rf_edge rf' a b ↔
    ∃ oa ob, kept_ids mask !! a = Some oa ∧ kept_ids mask !! b = Some ob ∧ rf_edge rf oa ob.
Proof.
  intros Hrf. unfold rf_edge. setoid_rewrite Hrf. unfold remap_source. split.
  - intros (s & (old & s0 & Hk & Hf & Hs) & Ha). destruct (rf_send s0) as [id|] eqn:Es.
    + destruct (dense_ids mask 0 !! id) as [[new|]|] eqn:Ed; [|done|done].
      injection Hs as <-. simpl in Ha. injection Ha as ->. apply dense_ids_kept in Ed.
      exists id, old. split_and!; [done|done|]. by exists s0.
    + injection Hs as <-. done.
  - intros (oa & ob & Ha & Hb & s0 & Hs0 & Hoa). exists (from_send a). split; [|done].
    exists ob, s0. rewrite Hoa. apply dense_ids_kept in Ha. by rewrite Ha.
Qed.

Lemma acyclic_map {A B} (f : A → B) (R : relation B) (R' : relation A) :
  (∀ a b, R' a b → R (f a) (f b)) → acyclic R → acyclic R'.
Proof.
  intros Hf Hac a Ha. apply (Hac (f a)). revert Ha. generalize a at 2 4. intros b.
  induction 1 as [x y H|x y z H _ IH]; [by apply tc_once, Hf|by eapply tc_l; [apply Hf|]].
Qed.

Lemma restricted_porf g mask r a b :
  Restricted g mask r →
  porf (events r) (reads_from r) a b ↔
    ∃ oa ob, kept_ids mask !! a = Some oa ∧ kept_ids mask !! b = Some ob ∧
      porf (events g) (reads_from g) oa ob.
Proof.
  intros [_ Hcp Hrf _ _ _ _]. unfold porf.
  rewrite (copies_po _ _ mask _ a b eq_refl Hcp), (remapped_rf_edge mask _ _ a b Hrf). naive_solver.
Qed.

Lemma restrict_Ok g mask :
  Inv g → length mask = event_count g →
  ∃ r, restrict_from_keep_mask g mask = Ok r ∧ Restricted g mask r.
Proof.
  intros [Hcore _ Hfl] Hlen. unfold restrict_from_keep_mask. rewrite decide_False by naive_solver.
  destruct (restrict_events_Ok g mask Hcore Hlen)
    as (r1 & -> & Hc1 & Hcp1 & Hrf1 & Hel1 & Hrl1 & Hpc1). simpl.
  pose proof (Forall2_length _ _ _ Hcp1) as Hlen1.
  destruct (restrict_rf_Ok (events g) mask r1 (rf_to_list (reads_from g)) Hc1)
    as (r2 & -> & Hc2 & Hev2 & Hel2 & Hpc2 & Hrf2); try done.
  { by apply rf_to_list_nodup. }
  { intros old s H%rf_to_list_elem. by apply (core_rf _ Hcore). }
  simpl. set (r := clear_worker_local_history _).
  assert (∀ new s, rf_find (reads_from r2) new = Some s ↔
    ∃ old s0, kept_ids mask !! new = Some old ∧ rf_find (reads_from g) old = Some s0 ∧
      remap_source mask s0 = Some s) as Hrf.
  { intros new s. rewrite Hrf2. unfold remapped. setoid_rewrite rf_to_list_elem. naive_solver. }
  assert (events r = events r2 ∧ reads_from r = reads_from r2 ∧
    known_acyclic_ r = known_acyclic_ g ∧ pending_fresh_receive_id_ r = None ∧
    event_undo_log_ r = [] ∧ rf_undo_log_ r = [] ∧ porf_cache_ r = None ∧ Core r)
    as (Hev & Hrfr & Hk & Hp & Hel & Hrl & Hpc & Hcr).
  { unfold r. by destruct (known_acyclic_ g); split_and!; try done; apply (core_ext r2). }
  exists r. split; [done|]. split; try done.
  - split; [done|by rewrite Hel; constructor|]. split; [|by rewrite Hp].
    rewrite Hk. intros Hac%(fl_acyclic _ Hfl).
    refine (acyclic_map (λ k, default 0 (kept_ids mask !! k)) _ _ _ Hac). intros a b. rewrite Hrfr, Hev, Hev2. unfold porf at 1.
    rewrite (copies_po _ _ mask _ a b eq_refl Hcp1), (remapped_rf_edge mask _ _ a b Hrf).
    intros [(oa & ob & -> & -> & H)|(oa & ob & -> & -> & H)]; [by left|by right].
  - by rewrite Hev, Hev2.
  - by rewrite Hrfr.
Qed.

End restrict.
