(* ===== verification/SoundFacts.v ===== *)
(** * SoundFacts: graphs the engine may explore

    A graph is [Good] when its storage is well formed, its cache is right, its matchers
    return and no thread exceeds the event bound; it is [Sound] when it is moreover
    consistent.  The mutations of the engine keep graphs good, and those it performs
    without checking the result keep them sound. *)

From stdpp Require Import base tactics numbers relations sets list strings.
From S2P Require Import Prelude Errors Event Relation ExecutionGraph ExplorationGraph Porf.
From S2P Require Import Consistency StorageFacts ExecutionGraphFacts ExplorationFacts Rollback.
From S2P Require Import Queries PorfFacts PorfClocks ConsistencyFacts CheckerFacts FifoFacts.
From S2P Require Import Program Masked Dpor Revisit RestrictFacts.

(** ** Consistency *)

Section consistency.
Context {V : Type}.
Implicit Types (es : list (Event V)) (model : CommunicationModel).

(** Everything consistency says is about the entries of the reads-from relation. *)
#[export] Instance consistent_proper model es :
  Proper ((≡) ==> (=) ==> iff) (consistent model es).
Proof.
  assert (∀ rf rf' tol, rf ≡ rf' → consistent model es rf tol → consistent model es rf' tol) as H.
  { intros rf rf' tol Hrf ([Hent Honce Htot] & Hac & Hfifo). split_and!.
    - split.
      + intros r s Hs. rewrite <-(Hrf r) in Hs. by apply Hent.
      + intros id r r' H H'. rewrite <-Hrf in H, H'. by eapply Honce.
      + intros id e. rewrite <-(Hrf id). apply Htot.
    - apply (acyclic_sub (porf es rf)); [|done]. intros a b. by rewrite Hrf.
    - intros Hm s1 s2 e1 e2 sl1 sl2 r2 er2 rl ????????? Ha.
      rewrite <-Hrf in *. setoid_rewrite <-Hrf. by eapply Hfifo. }
  intros rf rf' Hrf tol ? <-. split; by apply H.
Qed.

Lemma consistent_typed model es rf tol : consistent model es rf tol → rf_typed es rf.
Proof.
  intros ([Hent _ _] & _). apply rf_typed_entries. intros [r s] Hs%rf_to_list_elem.
  by apply entry_ok_typed, Hent.
Qed.

Lemma entry_ok_snoc es e entry : entry_ok es entry → entry_ok (es ++ [e]) entry.
Proof.
  intros (er & rl & Her & Hr & Hs). exists er, rl. split_and!; [by apply lookup_app_l_Some|done|].
  destruct (rf_send entry.2) as [id|]; [|done]. destruct Hs as (e' & sl & He' & Hsl).
  exists e', sl. split; [by apply lookup_app_l_Some|done].
Qed.

Lemma po_snoc_l es e a b : po es a b → po (es ++ [e]) a b.
Proof.
  intros (Hab & ea & eb & Ha & Hb & Ht). split; [done|].
  exists ea, eb. split_and!; [by apply lookup_app_l_Some..|done].
Qed.

(** A fresh event that is not a receive keeps a graph consistent under every model. *)
Lemma consistent_snoc model es rf e :
  rf_in_range es rf → is_receive e = false →
  consistent model es rf no_missing_reads_tolerance →
  consistent model (es ++ [e]) rf no_missing_reads_tolerance.
Proof.
  intros Hrange He ([Hent Honce Htot] & Hac & Hfifo). split_and!.
  - split; [intros r s Hs; by apply entry_ok_snoc, Hent|done|].
    intros id e' [Hid|[_ Hid]]%lookup_app_Some; [by apply Htot|].
    apply list_lookup_singleton_Some in Hid as [_ <-]. congruence.
  - by apply acyclic_snoc.
  - intros Hm s1 s2 e1 e2 sl1 sl2 r2 er2 rl Hpo H1 Hs1 H2 Hs2 Hd Hrf Hr2 Hrl Hacc.
    pose proof (rf_edge_range _ _ _ _ Hrange Hrf) as [Hlt2 Hltr].
    destruct Hpo as [Hlt12 Hpo]. rewrite lookup_app_l in H1, H2, Hr2 by lia.
    destruct (Hfifo Hm s1 s2 e1 e2 sl1 sl2 r2 er2 rl) as (r1 & Hr1 & Hpo1); try done.
    + split; [done|]. destruct Hpo as (ea & eb & Ha & Hb & Ht).
      rewrite lookup_app_l in Ha, Hb by lia. by exists ea, eb.
    + exists r1. split; [done|]. by apply po_snoc_l.
Qed.

End consistency.

(** ** Good and sound graphs *)

Section good.
Context {V : Type} (bound : nat) (model : CommunicationModel).
Implicit Types (g : ExplorationGraph V) (es : list (Event V)) (t : ThreadId) (mask : list bool).

(** No thread has more than [bound] events; 0 means unbounded. *)
Definition within_bound es : Prop := bound ≠ 0 → ∀ t, length (thread_ids es t) ≤ bound.

(** Thread [t] may take another event. *)
Definition may_grow es t : Prop := bound ≠ 0 → length (thread_ids es t) < bound.

Record Good g : Prop := {
  good_inv : Inv g;
  good_cache : cache_ok g;
  good_total : total_events (events g);
  good_bound : within_bound (events g);
}.

Definition consistent_graph g : Prop :=
  consistent model (events g) (reads_from g) no_missing_reads_tolerance.

Record Sound g : Prop := {
  sound_good : Good g;
  sound_consistent : consistent_graph g;
}.

(** Two graphs that hold the same execution and history. *)
Record same_execution g g' : Prop := {
  se_events : events g = events g';
  se_rf : reads_from g ≡ reads_from g';
  se_elog : event_undo_log_ g = event_undo_log_ g';
  se_rlog : rf_undo_log_ g = rf_undo_log_ g';
}.

Lemma equiv_same_execution g g' : g ≡ g' → same_execution g g'.
Proof. intros []. by split. Qed.

Lemma same_execution_sym g g' : same_execution g g' → same_execution g' g.
Proof. intros []. by split. Qed.

Lemma since_same g0 g g' : Since g0 g → same_execution g g' → Inv g' → Since g0 g'.
Proof.
  intros [_ Hev Hrf] [He Hr Hel Hrl] Hinv. split; [done| |].
  - by rewrite <-He, <-Hel.
  - destruct Hrf as (rlx & Hl & Hp). exists rlx. rewrite <-Hrl, <-He. split; [done|].
    by apply (undo_path_ext _ (reads_from g)).
Qed.

Lemma good_same g g' : Good g → same_execution g g' → Inv g' → cache_ok g' → Good g'.
Proof. intros [_ _ Ht Hb] [He _ _ _] Hinv Hc. split; [done|done|by rewrite <-He..]. Qed.

Lemma consistent_same g g' : consistent_graph g → same_execution g g' → consistent_graph g'.
Proof. unfold consistent_graph. intros Hc [He Hr _ _]. by rewrite <-He, <-Hr. Qed.

Lemma cache_ok_None g : porf_cache_ g = None → cache_ok g.
Proof. intros H c. by rewrite H. Qed.

Lemma empty_Sound : Sound (empty_exploration_graph (V := V)).
Proof.
  split; [split|].
  - apply empty_Inv.
  - by apply cache_ok_None.
  - by intros i e Hi.
  - intros _ t. simpl. lia.
  - pose proof (inv_flags _ (empty_Inv (V := V))) as [Hac _]. split_and!.
    + split; [by intros r s Hs|by intros id r r' (s & Hs & _)|by intros id e He].
    + by apply Hac.
    + intros _ s1 s2 e1 e2 sl1 sl2 r2 er2 rl _ H. done.
Qed.

(** *** Insertion and reads-from assignment *)

Lemma within_bound_snoc es e :
  within_bound es → may_grow es (thread e) → within_bound (es ++ [e]).
Proof.
  intros Hb Hg Hn t. rewrite length_thread_ids_snoc. specialize (Hb Hn t). specialize (Hg Hn).
  case_decide as E; [rewrite E in Hg|]; lia.
Qed.

Lemma total_events_snoc es e : total_events es → total_label (label e) → total_events (es ++ [e]).
Proof.
  intros Ht He i e' [Hi|[_ Hi]]%lookup_app_Some; [by eapply Ht|].
  by apply list_lookup_singleton_Some in Hi as [_ <-].
Qed.

(** A successful insertion, unfolded. *)
Lemma add_event_inv g t l id g' :
  Inv g → add_event g t l = Ok (id, g') →
  (t ≤ kMaxThreadId)%N ∧ id = event_count g ∧ Inv g' ∧ reads_from g' = reads_from g ∧
  porf_cache_ g' = None ∧ ∃ i, events g' = events g ++ [MkEvent t i l].
Proof.
  intros Hinv Hadd. pose proof (inv_core _ Hinv) as Hcore.
  pose proof (add_event_thread_bound g t l id g' Hcore Hadd) as Ht.
  pose proof (core_add_event g t l Hcore Ht) as Hspec. cbn zeta in Hspec. rewrite Hadd in Hspec.
  destruct Hspec as (-> & _ & _ & Hev & Hrf & _ & _ & Hpc & _).
  split_and!; try done; [by eapply add_event_Inv|by eexists].
Qed.

Lemma add_event_Good g t l id g' :
  Good g → total_label l → may_grow (events g) t → add_event g t l = Ok (id, g') → Good g'.
Proof.
  intros [Hinv _ Ht Hb] Hl Hg Hadd.
  destruct (add_event_inv g t l id g' Hinv Hadd) as (_ & _ & Hinv' & _ & Hpc & i & Hev).
  split; [done|by apply cache_ok_None| |]; rewrite Hev.
  - by apply total_events_snoc.
  - by apply within_bound_snoc.
Qed.

Lemma add_event_Sound g t l id g' :
  Sound g → total_label l → is_receive (MkEvent t 0%N l) = false → may_grow (events g) t →
  add_event g t l = Ok (id, g') → Sound g'.
Proof.
  intros [Hg Hc] Hl Hr Hgrow Hadd. split; [by eapply add_event_Good|].
  destruct (add_event_inv g t l id g' (good_inv _ Hg) Hadd) as (_ & _ & _ & Hrf & _ & i & Hev).
  unfold consistent_graph. rewrite Hev, Hrf. apply consistent_snoc; [|done|done].
  apply (core_rf _ (inv_core _ (good_inv _ Hg))).
Qed.

Lemma set_reads_from_Good g r s g' :
  Good g → r < event_count g → source_in_range (events g) s →
  set_reads_from_source g r s = Ok g' → Good g'.
Proof.
  intros [Hinv _ Ht Hb] Hr Hs Hset.
  destruct (core_set_reads_from_source g r s (inv_core _ Hinv) Hr Hs)
    as (g'' & Hset' & _ & Hev & _ & _ & _ & Hpc & _).
  rewrite Hset in Hset'. injection Hset' as <-.
  split; [by eapply set_reads_from_source_Inv|by apply cache_ok_None|by rewrite Hev..].
Qed.

Lemma since_add_event g0 g t l id g' : Since g0 g → add_event g t l = Ok (id, g') → Since g0 g'.
Proof. intros Hs Hadd. eapply since_mutates; [done|by eapply mutate_add]. Qed.

(** *** Rollback *)

Lemma rollback_Sound g0 g cp g' :
  Sound g0 → Since g0 g → cp = checkpoint g0 → rollback g cp = Ok g' →
  Sound g' ∧ same_execution g0 g'.
Proof.
  intros [Hg Hc] Hs -> Hroll.
  destruct (rollback_since g0 g (good_inv _ Hg) Hs) as (g'' & Hr & Heq & Hinv & Hpc).
  rewrite Hroll in Hr. injection Hr as <-. symmetry in Heq. apply equiv_same_execution in Heq.
  split; [|done]. split; [|by eapply consistent_same].
  eapply good_same; try done. by apply cache_ok_None.
Qed.

(** *** The consistency check *)

(** The check returns, decides consistency and keeps the graph. *)
Lemma check_exploration_graph_Ok g tolerance :
  Inv g → cache_ok g → total_events (events g) →
  ∃ r g', check_exploration_graph g model tolerance = Ok (r, g') ∧
    (is_consistent r = true ↔ consistent model (events g) (reads_from g) tolerance) ∧
    Inv g' ∧ cache_ok g' ∧ graph_ g' = graph_ g ∧
    event_undo_log_ g' = event_undo_log_ g ∧ rf_undo_log_ g' = rf_undo_log_ g.
Proof.
  intros Hinv Hcache Ht.
  destruct (check_execution_graph_spec (graph_ g) model tolerance
              (core_graph _ (inv_core _ Hinv)) Ht) as (r & Hr & Hiff).
  pose proof (check_exploration_graph_agrees g model tolerance Hinv Hcache) as Hag.
  rewrite Hr in Hag. apply fmap_Ok_inv in Hag as ([r0 g'] & Hcheck & Hr0). simpl in Hr0. subst r0.
  exists r, g'. split_and!; [done|rewrite <-Hiff; by destruct r|..].
  all: unfold check_exploration_graph in Hcheck; apply bind_Ok_inv in Hcheck as ([r1 g1] & H1 & H2).
  all: destruct (check_async_exploration_graph_graph g _ r1 g1 Hinv Hcache H1) as (? & ? & ? & ? & ? & _).
  all: case_decide; [apply bind_Ok_inv in H2 as (r2 & _ & H2)|]; by injection H2 as <- <-.
Qed.

Lemma check_consistency_Good g r g' :
  Good g → check_consistency g model = Ok (r, g') →
  Good g' ∧ same_execution g g' ∧ (is_consistent r = true → consistent_graph g').
Proof.
  intros Hg Hcheck. unfold check_consistency, check_exploration in Hcheck.
  destruct (check_exploration_graph_Ok g no_missing_reads_tolerance)
    as (r0 & g0 & Hrun & Hiff & Hinv' & Hcache' & Hgr & Hel & Hrl); [apply Hg..|].
  rewrite Hcheck in Hrun. injection Hrun as <- <-.
  assert (same_execution g g') as Hsame.
  { split; unfold events, reads_from; by rewrite ?Hgr, ?Hel, ?Hrl. }
  split_and!; [by apply (good_same g)|done|].
  intros Hr. apply (consistent_same g); [|done]. by apply Hiff.
Qed.

(** *** Restriction *)

Lemma restricted_Good g mask r :
  Good g → length mask = event_count g → Restricted g mask r → Good r.
Proof.
  intros [Hinv _ Ht Hb] Hlen Hr. destruct Hr as [Hinv' Hcp _ _ _ _ Hpc].
  split; [done|by apply cache_ok_None| |].
  - intros i e' He'.
    destruct (Forall2_lookup_r _ _ _ _ _ Hcp He') as (old & _ & e & He & _ & ->). by eapply Ht.
  - intros Hn t. etrans; [|by apply (Hb Hn t)].
    rewrite <-(firstn_all (events g)) at 1. apply (copies_thread_length _ (kept_ids mask)); [done| |].
    + apply NoDup_kept_ids.
    + intros old Hold%kept_ids_elem. apply lookup_lt_Some in Hold. unfold event_count in *. lia.
Qed.

Lemma restricted_event g mask r old new e :
  Restricted g mask r → kept_ids mask !! new = Some old → events g !! old = Some e →
  ∃ e', events r !! new = Some e' ∧ thread e' = thread e ∧ label e' = label e.
Proof.
  intros Hr Hk He. destruct (Forall2_lookup_l _ _ _ _ _ (rs_events _ _ _ Hr) Hk)
    as (e' & He' & e2 & He2 & Ht & Hl). exists e'. split_and!; [done|congruence..].
Qed.

Lemma restricted_event_inv g mask r new e' :
  Restricted g mask r → events r !! new = Some e' →
  ∃ old e, kept_ids mask !! new = Some old ∧ events g !! old = Some e ∧
    thread e' = thread e ∧ label e' = label e.
Proof.
  intros Hr He'. destruct (Forall2_lookup_r _ _ _ _ _ (rs_events _ _ _ Hr) He')
    as (old & Hold & e & He & Ht & Hl). by exists old, e.
Qed.

Lemma kept_ids_inj mask i j old :
  kept_ids mask !! i = Some old → kept_ids mask !! j = Some old → i = j.
Proof. rewrite <-!dense_ids_kept. congruence. Qed.

(** Every dropped event is neither a send nor a receive. *)
Definition drops_inert g mask : Prop :=
  ∀ id e, events g !! id = Some e → mask !! id = Some false →
    is_send e = false ∧ is_receive e = false.

Lemma remap_source_kept g mask s :
  length mask = event_count g → drops_inert g mask →
  (∀ id, rf_send s = Some id → ∃ e, events g !! id = Some e ∧ is_send e = true) →
  is_Some (remap_source mask s).
Proof.
  intros Hlen Hin Hs. unfold remap_source. destruct (rf_send s) as [id|]; [|by eexists].
  destruct (Hs id eq_refl) as (e & He & Hsend).
  destruct (lookup_lt_is_Some_2 (dense_ids mask 0) id) as [[new|] Ho].
  - rewrite length_dense_ids, Hlen. by eapply lookup_lt_Some.
  - rewrite Ho. by eexists.
  - exfalso. apply dense_ids_dropped in Ho. destruct (Hin id e He Ho). congruence.
Qed.

Lemma restricted_entries g mask r :
  Restricted g mask r → rf_consistent (events g) (reads_from g) no_missing_reads_tolerance →
  ∀ new s, rf_find (reads_from r) new = Some s → entry_ok (events r) (new, s).
Proof.
  intros Hr [Hent _ _] new s (old & s0 & Hk & Hs0 & Hs)%(rs_rf _ _ _ Hr).
  destruct (Hent old s0 Hs0) as (er & rl & Her & Hrl & Hsend). simpl in *.
  destruct (restricted_event g mask r old new er Hr Hk Her) as (er' & Her' & Ht & Hl).
  exists er', rl. split_and!; [done|unfold as_receive in *; by rewrite Hl|]. simpl.
  unfold remap_source in Hs. destruct (rf_send s0) as [id|]; [|by injection Hs as <-].
  destruct (dense_ids mask 0 !! id) as [[new'|]|] eqn:Ed; [|done|done].
  injection Hs as <-. simpl. apply dense_ids_kept in Ed.
  destruct Hsend as (e & sl & He & Hsl & Hd & Hacc).
  destruct (restricted_event g mask r id new' e Hr Ed He) as (e' & He' & Ht' & Hl').
  exists e', sl. split_and!; [done|unfold as_send in *; by rewrite Hl'|congruence|done].
Qed.

Lemma restricted_rf_consistent g mask r :
  length mask = event_count g → drops_inert g mask → Restricted g mask r →
  rf_consistent (events g) (reads_from g) no_missing_reads_tolerance →
  rf_consistent (events r) (reads_from r) no_missing_reads_tolerance.
Proof.
  intros Hlen Hin Hr Hc. split; [by eapply restricted_entries| |].
  - intros id a b Ha Hb. apply (remapped_rf_edge _ _ _ _ _ (rs_rf _ _ _ Hr)) in Ha, Hb.
    destruct Ha as (o & oa & Ho & Hoa & Ha), Hb as (o' & ob & Ho' & Hob & Hb).
    rewrite Ho in Ho'. injection Ho' as <-.
    rewrite (rc_once _ _ _ Hc o oa ob Ha Hb) in Hoa. by eapply kept_ids_inj.
  - intros new e' He' Hrecv _.
    destruct (restricted_event_inv g mask r new e' Hr He') as (old & e & Hk & He & _ & Hl).
    destruct (rc_total _ _ _ Hc old e He) as [s0 Hs0]; [|done|].
    { unfold is_receive in *. by rewrite <-Hl. }
    destruct (remap_source_kept g mask s0 Hlen Hin) as [s Hs].
    { intros id Hid. destruct (rc_entries _ _ _ Hc old s0 Hs0) as (er & rl & _ & _ & Hsend).
      simpl in Hsend. rewrite Hid in Hsend. destruct Hsend as (es' & sl & H1 & H2 & _).
      exists es'. split; [done|]. apply is_send_true. eauto. }
    exists s. apply (rs_rf _ _ _ Hr). eauto 6.
Qed.

Lemma restricted_fifo g mask r :
  length mask = event_count g → drops_inert g mask → Restricted g mask r →
  fifo_ok (events g) (reads_from g) → rf_typed (events g) (reads_from g) →
  fifo_ok (events r) (reads_from r).
Proof.
  intros Hlen Hin Hr Hf Hty s1 s2 e1 e2 sl1 sl2 r2 er2 rl Hpo H1 Hs1 H2 Hs2 Hd Hrf Hr2 Hrl Hacc.
  apply (copies_po _ _ mask _ _ _ eq_refl (rs_events _ _ _ Hr)) in Hpo
    as (o1 & o2 & Ho1 & Ho2 & Hpo).
  apply (remapped_rf_edge _ _ _ _ _ (rs_rf _ _ _ Hr)) in Hrf as (o2' & or2 & Ho2' & Hor2 & Hrf).
  rewrite Ho2 in Ho2'. injection Ho2' as <-.
  destruct (restricted_event_inv g mask r s1 e1 Hr H1) as (? & e1' & Hk1 & He1 & _ & Hl1).
  rewrite Ho1 in Hk1. injection Hk1 as <-.
  destruct (restricted_event_inv g mask r s2 e2 Hr H2) as (? & e2' & Hk2 & He2 & _ & Hl2).
  rewrite Ho2 in Hk2. injection Hk2 as <-.
  destruct (restricted_event_inv g mask r r2 er2 Hr Hr2) as (? & er2' & Hkr & Her & _ & Hlr).
  rewrite Hor2 in Hkr. injection Hkr as <-.
  unfold as_send, as_receive in *. rewrite Hl1 in Hs1. rewrite Hl2 in Hs2. rewrite Hlr in Hrl.
  destruct (Hf o1 o2 e1' e2' sl1 sl2 or2 er2' rl) as (or1 & Hr1 & Hpo1); try done.
  assert (∃ r1, kept_ids mask !! r1 = Some or1) as [r1 Hkr1].
  { destruct Hr1 as (s & Hs & _). destruct (Hty or1 s Hs) as [(e & He & Hrecv) _].
    apply list_elem_of_lookup_1, kept_ids_elem.
    destruct (lookup_lt_is_Some_2 mask or1) as [[] Hm]; [|done|].
    - rewrite Hlen. by eapply lookup_lt_Some.
    - destruct (Hin or1 e He Hm). congruence. }
  exists r1. split.
  - apply (remapped_rf_edge _ _ _ _ _ (rs_rf _ _ _ Hr)). eauto 6.
  - apply (copies_po _ _ mask _ _ _ eq_refl (rs_events _ _ _ Hr)). eauto 6.
Qed.

(** Dropping events that take part in no communication keeps a graph sound. *)
Lemma restricted_Sound g mask r :
  Sound g → length mask = event_count g → drops_inert g mask → Restricted g mask r → Sound r.
Proof.
  intros [Hg Hc] Hlen Hin Hr. split; [by eapply restricted_Good|].
  pose proof (consistent_typed _ _ _ _ Hc) as Hty. destruct Hc as (Hrf & Hac & Hfifo). split_and!.
  - by eapply restricted_rf_consistent.
  - refine (acyclic_map (λ k, default 0 (kept_ids mask !! k)) _ _ _ Hac). intros a b.
    rewrite (restricted_porf _ _ _ _ _ Hr). by intros (oa & ob & -> & -> & H).
  - intros Hm. eapply restricted_fifo; eauto.
Qed.

(** *** Rebinding a receive *)

Lemma acyclic_add_edge {A} (R R' : relation A) a b :
  acyclic R → (∀ x y, R' x y → R x y ∨ (x = a ∧ y = b)) → ¬ rtc R b a → acyclic R'.
Proof.
  intros Hac Hsub Hno.
  assert (∀ x y, tc R' x y → tc R x y ∨ (rtc R x a ∧ rtc R b y)) as Htc.
  { induction 1 as [x y H|x y z H _ IH].
    - destruct (Hsub x y H) as [?|[-> ->]]; [left; by apply tc_once|by right].
    - destruct (Hsub x y H) as [HR|[-> ->]].
      + destruct IH as [IH|[IH1 IH2]]; [left; by eapply tc_l|right; split; [by eapply rtc_l|done]].
      + right. split; [done|]. destruct IH as [IH|[_ IH]]; [by apply tc_rtc|done]. }
  intros x Hx. destruct (Htc x x Hx) as [?|[H1 H2]]; [by eapply Hac|].
  apply Hno. by etrans.
Qed.

Lemma rebind_rf_run g r send preserve :
  Core g → r < event_count g → send < event_count g →
  event_undo_log_ g = [] → rf_undo_log_ g = [] →
  ∃ g', rebind_rf g r send preserve = Ok g' ∧
    Core g' ∧ events g' = events g ∧ reads_from g' = rf_set (reads_from g) r (from_send send) ∧
    event_undo_log_ g' = [] ∧ rf_undo_log_ g' = [] ∧ porf_cache_ g' = None ∧
    known_acyclic_ g' = preserve ∧ pending_fresh_receive_id_ g' = None.
Proof.
  intros Hcore Hr Hs Hel Hrl. unfold rebind_rf. rewrite decide_False by (rewrite Hel, Hrl; tauto).
  destruct (core_move_rf g (rf_set (reads_from g) r (from_send send)) (rf_find (reads_from g) r)
              (Some (from_send send)) Hcore) as (counts & mask & Hupd & Hcore').
  { apply rf_set_wf. by apply (gw_rf _ (core_graph _ Hcore)). }
  { apply rf_in_range_set; [by apply core_rf|done|]. by intros id [= <-]. }
  { intros id. apply readers_set. }
  { intros id. apply reads_it_le_readers. }
  specialize (Hupd (event_undo_log_ g) (rf_undo_log_ g) (porf_cache_ g)). simpl in Hupd.
  assert (set_cache (set_logs (set_graph g
            (with_reads_from (graph_ g) (rf_set (reads_from g) r (from_send send))))
            (event_undo_log_ g) (rf_undo_log_ g)) (porf_cache_ g) =
          set_graph g (ExecutionGraph.set_reads_from_source (graph_ g) r (from_send send))) as Eg
    by (by destruct g).
  rewrite Eg in Hupd. unfold current_reads_from_source. rewrite Hupd. simpl. eexists.
  split; [done|]. by destruct preserve; split_and!; try done; apply (core_ext _ _ Hcore').
Qed.

Lemma rebind_rf_Ok g r send preserve g' :
  Core g → r < event_count g → send < event_count g → rebind_rf g r send preserve = Ok g' →
  Core g' ∧ events g' = events g ∧ reads_from g' = rf_set (reads_from g) r (from_send send) ∧
  event_undo_log_ g' = [] ∧ rf_undo_log_ g' = [] ∧ porf_cache_ g' = None ∧
  known_acyclic_ g' = preserve ∧ pending_fresh_receive_id_ g' = None.
Proof.
  intros Hcore Hr Hs Hre.
  assert (event_undo_log_ g = [] ∧ rf_undo_log_ g = []) as [Hel Hrl].
  { unfold rebind_rf in Hre. case_decide as Hlog; [done|].
    destruct (event_undo_log_ g), (rf_undo_log_ g); naive_solver. }
  destruct (rebind_rf_run g r send preserve Hcore Hr Hs Hel Hrl) as (g0 & Hg0 & Hfacts).
  rewrite Hre in Hg0. by injection Hg0 as <-.
Qed.

Lemma rebind_Good g r send g' :
  Good g → acyclic (porf (events g) (reads_from g)) →
  r < event_count g → send < event_count g → ¬ tc (porf (events g) (reads_from g)) r send →
  rebind_rf_preserving_known_acyclicity g r send = Ok g' → Good g'.
Proof.
  intros [Hinv _ Ht Hb] Hac Hr Hs Hno Hre. unfold rebind_rf_preserving_known_acyclicity in Hre.
  destruct (rebind_rf_Ok g r send _ g' (inv_core _ Hinv) Hr Hs Hre)
    as (Hcore & Hev & Hrf & Hel & Hrl & Hpc & Hkn & Hpe).
  split; [|by apply cache_ok_None|by rewrite Hev..].
  split; [done|rewrite Hel; constructor|]. split; [|by rewrite Hpe].
  rewrite Hkn, !andb_true_iff. intros [[_ Hrecv] Hsend]. rewrite Hev, Hrf.
  apply (acyclic_add_edge (porf (events g) (reads_from g)) _ send r Hac).
  - intros a b [H|H%rf_edge_set]; [by left; left|].
    destruct H as [[-> [= ->]]|[_ H]]; [by right|by left; right].
  - intros Hrtc%rtc_tc. destruct Hrtc as [->|?]; [|done].
    unfold holds_at in Hrecv, Hsend. destruct (events g !! send) as [e|]; [|done].
    apply is_receive_not_send in Hrecv. congruence.
Qed.

(** *** Backward revisits *)

Lemma new_id_of_kept mask id new : new_id_of mask id = Some new → kept_ids mask !! new = Some id.
Proof.
  unfold new_id_of. destruct (mask !! id) as [[]|] eqn:Em; [|done|done]. intros [= <-].
  apply lookup_lt_Some in Em as Hlt. unfold kept_ids.
  replace (length mask) with (id + (1 + (length mask - id - 1))) by lia.
  rewrite seq_app, List.filter_app, lookup_app_r; simpl.
  - rewrite Em. rewrite bool_decide_eq_true_2 by done.
    rewrite (List.filter_ext (mask_keeps mask) (λ i, bool_decide (mask !! i = Some true)));
      [by rewrite Nat.sub_diag|].
    intros i. unfold mask_keeps. by destruct (mask !! i) as [[]|].
  - apply Nat.eq_le_incl. f_equal. apply List.filter_ext. intros i. unfold mask_keeps.
    by destruct (mask !! i) as [[]|].
Qed.

Lemma porf_query_false g from to :
  Sound g → from < event_count g → to < event_count g → porf_query g from to = Ok false →
  ¬ tc (porf (events g) (reads_from g)) from to.
Proof.
  intros [[Hinv Hcache _ _] Hc] Hf Ht Hq.
  pose proof (consistent_typed _ _ _ _ Hc) as Hty. destruct Hc as (_ & Hac & _).
  destruct (porf_contains_Ok g from to (inv_core _ Hinv) Hcache Hty Hac Hf Ht)
    as (b & c & Hp & _ & Hiff).
  unfold porf_query in Hq. rewrite Hp in Hq. injection Hq as ->. by rewrite <-Hiff.
Qed.

Lemma restricted_tc g mask r a b :
  Restricted g mask r → tc (porf (events r) (reads_from r)) a b →
  ∃ oa ob, kept_ids mask !! a = Some oa ∧ kept_ids mask !! b = Some ob ∧
    tc (porf (events g) (reads_from g)) oa ob.
Proof.
  intros Hr. induction 1 as [x y H|x y z H _ (oy & oz & Hy & Hz & IH)].
  - apply (restricted_porf _ _ _ _ _ Hr) in H as (ox & oy & Hx & Hy & H).
    exists ox, oy. split_and!; [done|done|]. by apply tc_once.
  - apply (restricted_porf _ _ _ _ _ Hr) in H as (ox & oy' & Hx & Hy' & H).
    rewrite Hy in Hy'. injection Hy' as <-. exists ox, oz. split_and!; [done|done|by eapply tc_l].
Qed.

(** The graph of a backward revisit. *)
Lemma revisit_child_Good g mask r recv send new_recv new_send c :
  Sound g → length mask = event_count g → Restricted g mask r →
  ¬ tc (porf (events g) (reads_from g)) recv send →
  new_id_of mask recv = Some new_recv → new_id_of mask send = Some new_send →
  rebind_rf_preserving_known_acyclicity r new_recv new_send = Ok c → Good c.
Proof.
  intros [Hg (_ & Hac & _)] Hlen Hr Hno Hrecv%new_id_of_kept Hsend%new_id_of_kept Hre.
  pose proof (Forall2_length _ _ _ (rs_events _ _ _ Hr)) as Hl.
  eapply (rebind_Good r); [by eapply restricted_Good| | | | |done].
  - refine (acyclic_map (λ k, default 0 (kept_ids mask !! k)) _ _ _ Hac). intros a b.
    rewrite (restricted_porf _ _ _ _ _ Hr). by intros (oa & ob & -> & -> & H).
  - unfold event_count. rewrite <-Hl. by eapply lookup_lt_Some.
  - unfold event_count. rewrite <-Hl. by eapply lookup_lt_Some.
  - intros (oa & ob & Ha & Hb & Htc)%(restricted_tc _ _ _ _ _ Hr).
    rewrite Hrecv in Ha. rewrite Hsend in Hb. by simplify_eq.
Qed.

End good.

Section revisit.
Context {V : Type} `{EqDecision V} (value_lt : V → V → bool) (bound : nat)
  (model : CommunicationModel).
Implicit Types (g : ExplorationGraph V).

Lemma deleted_scan_length g recv send keep eps mask :
  deleted_scan value_lt g recv send model keep eps = Ok (Some mask) → length mask = length keep.
Proof.
  revert keep. induction eps as [|ep eps IH]; intros keep; simpl; [by intros [= ->]|].
  case_decide; [apply IH|]. intros H'. inv_bind. destruct v; [by apply IH|]. inv_bind.
  destruct v0; [|done]. apply vec_set_inv in Hv0 as [_ ->]. apply IH in H'.
  by rewrite length_insert in H'.
Qed.

(** The mask that drops the event [id] alone. *)
Definition all_but g (id : EventId) : list bool := <[id := false]> (replicate (event_count g) true).

Lemma length_all_but g id : length (all_but g id) = event_count g.
Proof. unfold all_but. by rewrite length_insert, length_replicate. Qed.

Lemma all_but_lookup g id a :
  id < event_count g →
  all_but g id !! a = if decide (a < event_count g) then Some (bool_decide (a ≠ id)) else None.
Proof.
  intros Hid. unfold all_but. destruct (decide (a = id)) as [->|Hne].
  - rewrite list_lookup_insert_eq by (by rewrite length_replicate). rewrite decide_True by done.
    by rewrite bool_decide_eq_false_2 by tauto.
  - rewrite list_lookup_insert_ne by done. case_decide.
    + by rewrite lookup_replicate_2, bool_decide_eq_true_2.
    + apply lookup_ge_None. rewrite length_replicate. lia.
Qed.

(** A reschedule drops the block event that is the last of its thread. *)
Lemma reschedule_inv (program : Program V) g tid g' :
  Inv g → reschedule_thread program g tid = Ok (Some g') →
  ∃ id e, last_event_id g tid = Some id ∧ events g !! id = Some e ∧ is_block e = true ∧
    Restricted g (all_but g id) g'.
Proof.
  intros Hinv Hrun. unfold reschedule_thread in Hrun.
  destruct (last_event_id g tid) as [id|] eqn:El; [|done].
  apply bind_Ok_inv in Hrun as (e & He & Hrun). destruct (is_block e) eqn:Eb; [|done].
  simpl in Hrun. apply bind_Ok_inv in Hrun as (nl & _ & Hrun).
  destruct nl as [[recv| | | |]|]; try done. destruct (is_nonblocking recv); [done|].
  apply bind_Ok_inv in Hrun as (has & _ & Hrun). destruct has; [|done].
  apply bind_Ok_inv in Hrun as (mask & [Hlt ->]%vec_set_inv & Hrun).
  apply bind_Ok_inv in Hrun as (r & Hr & [= <-]). fold (all_but g id) in Hr.
  destruct (restrict_Ok g _ Hinv (length_all_but g id)) as (r' & Hr' & Hres).
  rewrite Hr in Hr'. injection Hr' as <-.
  exists id, e. split_and!; try done. unfold event, ExecutionGraph.event in He. fold (events g) in He.
  destruct (events g !! id); [by injection He as ->|done].
Qed.

(** A reschedule keeps a graph sound. *)
Lemma reschedule_thread_Sound (program : Program V) g tid g' :
  Sound bound model g → reschedule_thread program g tid = Ok (Some g') → Sound bound model g'.
Proof.
  intros Hg Hrun.
  destruct (reschedule_inv program g tid g' (good_inv _ _ (sound_good _ _ _ Hg)) Hrun)
    as (last_id & e & _ & He & Hb & Hres).
  eapply restricted_Sound; [done|apply length_all_but| |done].
  intros id e' He' Hm. rewrite all_but_lookup in Hm by (by eapply lookup_lt_Some).
  case_decide; [|done]. injection Hm as Hm%bool_decide_eq_false.
  assert (id = last_id) as -> by (destruct (decide (id = last_id)); tauto). rewrite He in He'.
  injection He' as <-. unfold is_block, is_send, is_receive in *. by destruct (label e).
Qed.

End revisit.
