(* ===== verification/BuiltFacts.v ===== *)
(** * BuiltFacts: the graphs the public operations build

    [built] closes the empty graph under the operations of [ExplorationGraphT], called as
    their comments ask: reads-from entries are assigned between events of the graph, and a
    caller that vouches for acyclicity is right.  The invariant holds of all of them. *)

From stdpp Require Import base tactics numbers relations sets list strings.
From S2P Require Import Prelude Errors Event Relation ExecutionGraph ExplorationGraph Porf.
From S2P Require Import StorageFacts ExecutionGraphFacts ExplorationFacts Rollback Queries.
From S2P Require Import PorfFacts PorfClocks RestrictFacts SoundFacts.

Section built.
Context {V : Type}.
Implicit Types (g : ExplorationGraph V) (es : list (Event V)).

Abbreviation graph_acyclic g := (acyclic (porf (events g) (reads_from g))).

(** The operations on a graph that keep its rollback history: the logging mutations, the
    queries that fill the cache of the causal order, and the hook for callers that have
    established acyclicity. *)
Inductive edits : ExplorationGraph V → ExplorationGraph V → Prop :=
| edit_mutates g g' : mutates g g' → edits g g'
| edit_cache g g' cache : ensure_porf_cache g = Ok (g', cache) → edits g g'
| edit_mark g : graph_acyclic g → edits g (mark_known_acyclic g).

(** The graphs that can be built with the public operations. *)
Inductive built : ExplorationGraph V → Prop :=
| built_empty : built empty_exploration_graph
| built_edit g g' : built g → edits g g' → built g'
| built_rollback g g' g'' :
    built g → rtc edits g g' → rollback g' (checkpoint g) = Ok g'' → built g''
| built_copy g : built g → built (copy g)
| built_restrict g keep_set r : built g → restrict g keep_set = Ok r → built r
| built_restrict_mask g mask r : built g → restrict_from_keep_mask g mask = Ok r → built r
| built_with_rf g recv send r :
    built g → recv < event_count g → send < event_count g → with_rf g recv send = Ok r → built r
| built_with_rf_source g recv source r :
    built g → recv < event_count g → source_in_range (events g) source →
    with_rf_source g recv source = Ok r → built r
| built_with_rf_preserving g recv send r :
    built g → recv < event_count g → send < event_count g →
    with_rf_preserving_known_acyclicity g recv send = Ok r →
    (known_acyclic_ g = true → graph_acyclic r) → built r
| built_with_bottom_rf g recv r :
    built g → recv < event_count g → with_bottom_rf g recv = Ok r → built r
| built_rebind g recv send preserve r :
    built g → recv < event_count g → send < event_count g → rebind_rf g recv send preserve = Ok r →
    (preserve = true → graph_acyclic r) → built r
| built_rebind_preserving g recv send r :
    built g → recv < event_count g → send < event_count g →
    rebind_rf_preserving_known_acyclicity g recv send = Ok r →
    (known_acyclic_ g = true → graph_acyclic r) → built r
| built_with_nd_value g id v r : built g → with_nd_value g id v = Ok r → built r.

(** ** Edits *)

Lemma copy_Inv g : Inv g → Inv (copy g).
Proof.
  intros [Hcore _ [Hac Hpe]]. split; [by apply (core_ext g)|constructor|done].
Qed.

Lemma mark_Inv g : Inv g → graph_acyclic g → Inv (mark_known_acyclic g).
Proof. intros [Hcore Hlog _] Hac. split; [by apply (core_ext g)|done|done]. Qed.

Lemma invalidate_Inv g : Inv g → Inv (invalidate_known_acyclicity g).
Proof. intros [Hcore Hlog [Hac Hpe]]. split; [by apply (core_ext g)|done|done]. Qed.

Lemma cache_Inv g cache : Inv g → Inv (set_cache g cache).
Proof. intros [Hcore Hlog [Hac Hpe]]. split; [by apply (core_ext g)|done|done]. Qed.

Lemma ensure_cache_shape g g' cache :
  ensure_porf_cache g = Ok (g', cache) → g' = g ∨ ∃ c, g' = set_cache g c.
Proof.
  unfold ensure_porf_cache. destruct (porf_cache_ g); [intros [= <- _]; by left|].
  intros (c & _ & [= <- _])%bind_Ok_inv. right. by eexists.
Qed.

Lemma since_edits g0 g g' : Since g0 g → edits g g' → Since g0 g'.
Proof.
  intros Hs He. destruct He as [g g' Hm|g g' cache Hc|g Hac]; [by eapply since_mutates|..].
  - destruct (ensure_cache_shape _ _ _ Hc) as [->|[c ->]]; [done|].
    destruct Hs as [Hinv Hev Hrf]. split; [by apply cache_Inv|done|done].
  - destruct Hs as [Hinv Hev Hrf]. split; [by apply mark_Inv|done|done].
Qed.

Lemma since_edits_rtc g g' : Inv g → rtc edits g g' → Since g g'.
Proof.
  intros Hg Hm. assert (∀ a b, rtc edits a b → Since g a → Since g b) as Hstep
    by (induction 1; eauto using since_edits).
  by apply (Hstep g g'), since_refl.
Qed.

Lemma edits_Inv g g' : Inv g → edits g g' → Inv g'.
Proof. intros Hg He. apply (since_edits g g) in He; [apply He|by apply since_refl]. Qed.

Lemma rollback_Inv g g' g'' :
  Inv g → rtc edits g g' → rollback g' (checkpoint g) = Ok g'' → Inv g''.
Proof.
  intros Hg Hm Hroll. destruct (rollback_since g g') as (h & Hh & _ & Hinv & _); [done| |congruence].
  by apply since_edits_rtc.
Qed.

(** ** Rewritten reads-from entries *)

Lemma copy_with_rf_source_Inv g recv source preserve r :
  Inv g → recv < event_count g → source_in_range (events g) source →
  copy_with_rf_source g recv source preserve = Ok r → (preserve = true → graph_acyclic r) → Inv r.
Proof.
  intros Hg Hr Hs Hrun Hac. apply bind_Ok_inv in Hrun as (c & Hset & [= <-]). apply copy_Inv.
  pose proof (set_reads_from_source_Inv (copy g) recv source c (copy_Inv _ Hg) Hr Hs Hset) as Hc.
  destruct preserve; [by apply mark_Inv, Hac|by apply invalidate_Inv].
Qed.

(** Dropping an edge of the causal order keeps it acyclic. *)
Lemma with_bottom_rf_Inv g recv r : Inv g → recv < event_count g → with_bottom_rf g recv = Ok r → Inv r.
Proof.
  intros Hg Hr Hrun. eapply (copy_with_rf_source_Inv g recv rf_bottom); [done|done|by intros id|exact Hrun|].
  intros [Hk _]%andb_true_iff. apply bind_Ok_inv in Hrun as (c & Hset & [= <-]).
  destruct (core_set_reads_from_source (copy g) recv rf_bottom) as (c' & Hset' & _ & Hev & Hrf & _);
    [apply copy_Inv, Hg|done|by intros id|].
  rewrite Hset in Hset'. injection Hset' as <-.
  assert (events (copy g) = events g ∧ reads_from (copy g) = reads_from g) as [E1 E2] by done.
  rewrite E1 in Hev. rewrite E2 in Hrf.
  match goal with |- acyclic (porf (events ?r) (reads_from ?r)) =>
    assert (events r = events c ∧ reads_from r = reads_from c) as [-> ->] by (by destruct (_ && _)) end.
  rewrite Hev, Hrf. eapply acyclic_sub; [|by apply Hg].
  intros a b [H|[[_ ?]|[_ H]]%rf_edge_set]; [by left|done|by right].
Qed.

Lemma rebind_rf_Inv g recv send preserve r :
  Inv g → recv < event_count g → send < event_count g → rebind_rf g recv send preserve = Ok r →
  (preserve = true → graph_acyclic r) → Inv r.
Proof.
  intros Hg Hr Hs Hrun Hac. apply rebind_rf_Ok in Hrun as (Hcore & _ & _ & Hlog & _ & _ & Hk & Hp);
    [|apply Hg|done..].
  split; [done|rewrite Hlog; constructor|split; [by rewrite Hk|congruence]].
Qed.

Lemma restrict_Inv g mask r : Inv g → restrict_from_keep_mask g mask = Ok r → Inv r.
Proof.
  intros Hg Hrun. destruct (decide (length mask = event_count g)) as [Hl|Hl].
  - destruct (restrict_Ok g mask Hg Hl) as (r' & Hr' & Hspec).
    replace r with r' by congruence. apply Hspec.
  - unfold restrict_from_keep_mask in Hrun. by rewrite decide_True in Hrun.
Qed.

(** ** A new value for a choice *)

(** Events that differ in their values only. *)
Definition relabelled (e e' : Event V) : Prop :=
  thread e' = thread e ∧ index e' = index e ∧ is_send e' = is_send e ∧ is_receive e' = is_receive e.

Lemma relabel_lookup es es' i e' :
  Forall2 relabelled es es' → es' !! i = Some e' → ∃ e, es !! i = Some e ∧ relabelled e e'.
Proof. intros Hf Hi. destruct (Forall2_lookup_r _ _ _ _ _ Hf Hi) as (e & ? & ?). eauto. Qed.

Lemma relabel_ids (p : Event V → bool) es es' :
  (∀ e e', relabelled e e' → p e' = p e) → Forall2 relabelled es es' → ids_where p es' = ids_where p es.
Proof.
  intros Hp Hf. unfold ids_where. rewrite (Forall2_length _ _ _ Hf). apply filter_ext. intros i.
  pose proof (Forall2_lookup_lr relabelled es es' i) as Hlr.
  destruct (es' !! i) as [e'|] eqn:He'.
  - destruct (relabel_lookup es es' i e' Hf He') as (e & He & Ha). rewrite He. by apply Hp.
  - apply lookup_ge_None in He'. rewrite <-(Forall2_length _ _ _ Hf) in He'.
    by rewrite (proj2 (lookup_ge_None es i)).
Qed.

Lemma relabel_thread_ids es es' t : Forall2 relabelled es es' → thread_ids es' t = thread_ids es t.
Proof. apply relabel_ids. intros e e' (Ht & _). unfold on_thread. by rewrite Ht. Qed.

Lemma relabel_receive_ids es es' t : Forall2 relabelled es es' → receive_ids es' t = receive_ids es t.
Proof. apply relabel_ids. intros e e' (Ht & _ & _ & Hr). unfold on_thread. by rewrite Ht, Hr. Qed.

Lemma relabel_imap {A} (f f' : nat → Event V → A) es es' :
  (∀ i e e', relabelled e e' → f' i e' = f i e) → Forall2 relabelled es es' → imap f' es' = imap f es.
Proof.
  intros Hf Hall. revert f f' Hf. induction Hall as [|e e' es es' He _ IH]; intros f f' Hf; [done|].
  simpl. f_equal; [by apply Hf|]. apply IH. intros i x y Hxy. by apply Hf.
Qed.

Lemma relabel_has_index es es' t i : Forall2 relabelled es es' → has_index es' t i ↔ has_index es t i.
Proof.
  intros Hf. split; intros (k & e & Hk & Ht & Hi).
  - destruct (Forall2_lookup_r _ _ _ _ _ Hf Hk) as (e0 & ? & (? & ? & _)). exists k, e0. split_and!; congruence.
  - destruct (Forall2_lookup_l _ _ _ _ _ Hf Hk) as (e0 & ? & (? & ? & _)). exists k, e0. split_and!; congruence.
Qed.

Lemma relabel_po es es' a b : Forall2 relabelled es es' → po es' a b → po es a b.
Proof.
  intros Hf (Hlt & ea & eb & Ha & Hb & Ht). split; [done|].
  destruct (relabel_lookup _ _ _ _ Hf Ha) as (ea' & ? & (? & _)), (relabel_lookup _ _ _ _ Hf Hb) as (eb' & ? & (? & _)).
  exists ea', eb'. split_and!; congruence.
Qed.

(** A graph whose events are replaced by events like them. *)
Lemma relabel_Core g es' :
  Core g → Forall2 relabelled (events g) es' →
  Core (set_graph g (MkExecutionGraph es' (reads_from_ (graph_ g)) (next_event_index_by_thread_ (graph_ g))
          (used_event_indices_by_thread_ (graph_ g)))).
Proof.
  intros [[Hrf Hlen Hcap Hsto Hbook Hsort] Hd Hn Hr [H1 H2 H3 H4 H5 H6]] Hf.
  pose proof (Forall2_length _ _ _ Hf) as Hl. unfold events in Hf, Hl.
  split; [split|..|split]; unfold events, reads_from in *; simpl in *; try done.
  - intros k e (e0 & He0 & (-> & _))%(relabel_lookup _ _ _ _ Hf). by eapply Hsto.
  - intros t next used Hnx Hus. destruct (Hbook t next used Hnx Hus) as (Hw & Hle & Hin & Hub).
    split_and!; [done|done| |]; intros i; rewrite (relabel_has_index _ _ _ _ Hf); auto.
  - intros i j ei ej (e0 & He0 & (-> & -> & _))%(relabel_lookup _ _ _ _ Hf)
      (e1 & He1 & (-> & -> & _))%(relabel_lookup _ _ _ _ Hf). by eapply Hsort.
  - intros k e (e0 & He0 & (-> & -> & _))%(relabel_lookup _ _ _ _ Hf). rewrite (Hd k e0 He0).
    by rewrite (relabel_thread_ids (take k (events_ (graph_ g))) (take k es')) by (by apply Forall2_take).
  - intros i. rewrite Hn. unfold next_of. by rewrite (relabel_thread_ids _ _ _ Hf).
  - intros r s Hrs. destruct (Hr r s Hrs) as [Hlt Hs]. rewrite <-Hl. split; [done|]. intros id Hid.
    unfold source_in_range in Hs. rewrite <-Hl. by apply Hs.
  - intros i. rewrite H1. unfold state_of. by rewrite (relabel_thread_ids _ _ _ Hf).
  - intros i. by rewrite H2, (relabel_thread_ids _ _ _ Hf).
  - intros i. by rewrite H3, (relabel_receive_ids _ _ _ Hf).
  - rewrite H4. symmetry. apply relabel_ids; [|done]. by intros e e' (_ & _ & -> & _).
  - rewrite H5. symmetry. apply relabel_imap; [|done]. by intros i e e' (_ & _ & -> & _).
  - rewrite H6. symmetry. apply relabel_imap; [|done]. by intros i e e' (_ & _ & -> & _).
Qed.

Lemma with_nd_value_Inv g id v r : Inv g → with_nd_value g id v = Ok r → Inv r.
Proof.
  intros Hg Hrun. unfold with_nd_value in Hrun. destruct (events g !! id) as [e|] eqn:He; [|done].
  destruct (label e) as [ | |n| | ] eqn:El; try done. injection Hrun as <-.
  set (e' := MkEvent _ _ _). set (es' := <[id := e']> (events g)).
  assert (Forall2 relabelled (events g) es') as Hf.
  { unfold es'. rewrite <-(list_insert_id (events g) id e He) at 1.
    apply Forall2_insert; [by apply Forall_Forall2_diag, Forall_true|].
    unfold relabelled, is_send, is_receive, e'. simpl. by rewrite El. }
  destruct (copy_Inv g Hg) as [Hcore Hlog [Hac Hpe]]. split.
  - by apply (relabel_Core (copy g) es').
  - constructor.
  - pose proof (Forall2_length _ _ _ Hf) as Hl. split; unfold event_count, events, reads_from in *; simpl in *.
    + intros Hk. eapply acyclic_sub; [|by apply Hac]. intros a b [H|H]; [left|by right]. by eapply relabel_po.
    + intros i Hi. destruct (Hpe i Hi) as (? & ? & ?). by rewrite <-Hl.
Qed.

End built.
