(* ===== verification/Tiebreaker.v ===== *)
(** * Tiebreaker: what the consistent tiebreaker is

    GETCONSTIEBREAKER picks, among the sends a blocking receive could read instead of the
    one it reads, the first in the order of sender thread and event id whose reading keeps
    the graph consistent.  This file says so declaratively ([tiebreak]), reduces the
    consistency of a rewiring to causality and the FIFO clause ([rewired_consistent]), and
    proves that the reference implementation computes it. *)

From stdpp Require Import base tactics numbers relations sets sorting list strings.
From S2P Require Import Prelude Errors Event Relation ExecutionGraph ExplorationGraph Porf.
From S2P Require Import Consistency StorageFacts ExecutionGraphFacts ExplorationFacts Rollback.
From S2P Require Import Queries PorfFacts PorfClocks ConsistencyFacts CheckerFacts FifoFacts.
From S2P Require Import Program Masked Dpor Revisit RestrictFacts SoundFacts.

(** ** The order of candidates *)

#[export] Instance candidate_le_trans : Transitive candidate_le.
Proof. intros a b c. unfold candidate_le. lia. Qed.

#[export] Instance candidate_le_total : Total candidate_le.
Proof. intros a b. unfold candidate_le. lia. Qed.

Lemma candidate_le_antisym a b : candidate_le a b → candidate_le b a → a = b.
Proof. destruct a as [a ta], b as [b tb]. unfold candidate_le. simpl. intros. f_equal; lia. Qed.

(** The first element of a sorted list that satisfies [P] is the least that does. *)
Lemma first_is_least (P : EventId → Prop) pre c post :
  StronglySorted candidate_le (pre ++ c :: post) →
  (∀ c', c' ∈ pre → ¬ P (cand_send c')) →
  ∀ c', c' ∈ pre ++ c :: post → P (cand_send c') → candidate_le c c'.
Proof.
  intros Hs Hpre c' [Hc'|[->|Hc']%elem_of_cons]%elem_of_app HP.
  - by apply Hpre in Hc'.
  - unfold candidate_le. lia.
  - apply StronglySorted_app_1_r in Hs. inversion Hs as [|? ? _ Hall]; subst.
    by eapply Forall_forall.
Qed.

(** ** The tiebreaker, declaratively *)

Section spec.
Context {V : Type} (model : CommunicationModel) (es : list (Event V)) (rf : ReadsFromRelation)
  (tol : EventId → bool) (recv : EventId) (er : Event V) (rl : ReceiveLabel V).

(** A send that [recv] may read: addressed to its thread, accepted, and read by no other
    receive. *)
Definition available (s : EventId) : Prop :=
  ∃ e sl, es !! s = Some e ∧ as_send e = Some sl ∧ destination sl = thread er ∧
    accepts_pure rl (value sl) = true ∧ ∀ r, rf_edge rf s r → r = recv.

(** The reads-from relation in which [recv] reads from [s]. *)
Definition rewired (s : EventId) : ReadsFromRelation := rf_set rf recv (from_send s).

Definition admissible (s : EventId) : Prop :=
  available s ∧ consistent model es (rewired s) tol.

(** The candidate of a send. *)
Definition candidate (s : EventId) : Candidate :=
  MkCandidate s (from_option thread 0%N (es !! s)).

Definition tiebreak (s : EventId) : Prop :=
  admissible s ∧ ∀ s', admissible s' → candidate_le (candidate s) (candidate s').

Lemma tiebreak_unique s s' : tiebreak s → tiebreak s' → s = s'.
Proof.
  intros [Hs Hle] [Hs' Hle']. by assert (candidate s = candidate s') as [= -> _]
    by (apply candidate_le_antisym; auto).
Qed.

(** What is known of the graph and the receive. *)
Context (Htotal : total_events es)
  (Hcons : consistent model es rf tol)
  (Her : es !! recv = Some er) (Hrl : as_receive er = Some rl).

Lemma available_entry s : available s → entry_ok es (recv, from_send s).
Proof.
  intros (e & sl & He & Hs & Hd & Ha & _). exists er, rl. split_and!; [done|done|]. simpl.
  exists e, sl. split_and!; [done|done|done|].
  by rewrite (as_receive_total es recv er rl _ Htotal Her Hrl), Ha.
Qed.

Lemma current_available current :
  rf_find rf recv = Some (from_send current) → available current.
Proof.
  intros Hf. pose proof Hcons as ([Hent Honce _] & _).
  destruct (Hent _ _ Hf) as (er' & rl' & Her' & Hrl' & Hs). simpl in *. simplify_eq.
  destruct Hs as (e & sl & He & Hsl & Hd & Ha). exists e, sl. split_and!; [done|done|done| |].
  - unfold accepts_pure. by rewrite Ha.
  - intros r Hr. apply (Honce current r recv Hr). by exists (from_send current).
Qed.

Lemma rewired_current current :
  rf_find rf recv = Some (from_send current) → rewired current ≡ rf.
Proof.
  intros Hf i. unfold rewired. rewrite rf_find_set. case_decide as Ei; [by subst|done].
Qed.

(** The source a receive has is always admissible. *)
Lemma current_admissible current :
  rf_find rf recv = Some (from_send current) → admissible current.
Proof.
  intros Hf. split; [by apply current_available|]. by rewrite rewired_current.
Qed.

Lemma rewired_edge s a b :
  rf_edge (rewired s) a b ↔ (b = recv ∧ a = s) ∨ (b ≠ recv ∧ rf_edge rf a b).
Proof. unfold rewired. rewrite rf_edge_set. simpl. naive_solver. Qed.

Lemma rewired_rf_consistent s :
  available s → rf_consistent es (rewired s) tol.
Proof.
  intros Hs. pose proof Hcons as ([Hent Honce Htot] & _). split.
  - intros r s' Hf. unfold rewired in Hf. rewrite rf_find_set in Hf. case_decide as Er.
    + subst r. injection Hf as <-. by apply available_entry.
    + by apply Hent.
  - intros id r r' [[-> ->]|[Hr Hrf]]%rewired_edge [[-> Hid]|[Hr' Hrf']]%rewired_edge.
    + done.
    + destruct Hs as (_ & _ & _ & _ & _ & _ & Hu). by apply Hu in Hrf'.
    + subst id. destruct Hs as (_ & _ & _ & _ & _ & _ & Hu). by apply Hu in Hrf.
    + by apply (Honce id).
  - intros id e He Hrecv Htol. unfold rewired. rewrite rf_find_set. case_decide; [done|].
    by eapply Htot.
Qed.

(** Paths from [recv] do not use the source it has. *)
Lemma path_from_receive s x y :
  rtc (porf es rf) recv x → tc (porf es rf) x y → tc (porf es (rewired s)) x y.
Proof.
  pose proof Hcons as (_ & Hac & _). intros Hx Hxy. revert Hx.
  assert (∀ a b, rtc (porf es rf) recv a → porf es rf a b → porf es (rewired s) a b) as Hedge.
  { intros a b Ha [Hpo|Hrf]; [by left|]. right. apply rewired_edge. right. split; [|done].
    intros ->. apply (Hac recv). eapply tc_rtc_l; [exact Ha|]. apply tc_once. by right. }
  induction Hxy as [a b Hab|a b c Hab _ IH]; intros Ha.
  - apply tc_once. by apply Hedge.
  - eapply tc_l; [by apply Hedge|]. apply IH. by eapply rtc_r.
Qed.

Lemma rewired_acyclic s :
  available s → acyclic (porf es (rewired s)) ↔ ¬ tc (porf es rf) recv s.
Proof.
  intros Hs. pose proof Hcons as (_ & Hac & _). split.
  - intros Hac' Htc. apply (Hac' recv). eapply tc_r; [by apply (path_from_receive s recv)|].
    right. apply rewired_edge. by left.
  - intros Hno. apply (acyclic_add_edge (porf es rf) _ s recv Hac).
    + intros a b [H|[[-> ->]|[_ H]]%rewired_edge]; [by left; left|by right|by left; right].
    + intros [->|?]%rtc_tc; [|done]. destruct Hs as (e & sl & He & Hsl & _).
      rewrite Her in He. injection He as <-. apply as_send_Some in Hsl. apply as_receive_Some in Hrl.
      congruence.
Qed.

(** Rewiring to an available send is consistent when it closes no cycle and, under
    [FifoP2P], overtakes nothing. *)
Lemma rewired_consistent s :
  available s →
  consistent model es (rewired s) tol ↔
  ¬ tc (porf es rf) recv s ∧ (model = FifoP2P → fifo_ok es (rewired s)).
Proof.
  intros Hs. unfold consistent. rewrite (rewired_acyclic s Hs).
  split; [by intros (_ & ? & ?)|]. intros [? ?]. split_and!; [|done|done].
  by apply rewired_rf_consistent.
Qed.

End spec.

(** ** Candidate lists *)

(** [s] is the first candidate of [cs] that satisfies [P]. *)
Definition first_match (P : EventId → Prop) (cs : list Candidate) (s : EventId) : Prop :=
  ∃ pre c post, cs = pre ++ c :: post ∧ s = cand_send c ∧ P s ∧
    ∀ c', c' ∈ pre → ¬ P (cand_send c').

Lemma first_match_here P c cs : P (cand_send c) → first_match P (c :: cs) (cand_send c).
Proof. intros HP. exists [], c, cs. split_and!; [done..|]. set_solver. Qed.

Lemma first_match_later P c cs s :
  ¬ P (cand_send c) → first_match P cs s → first_match P (c :: cs) s.
Proof.
  intros Hc (pre & c' & post & -> & -> & HP & Hpre). exists (c :: pre), c', post.
  split_and!; [done..|]. by intros c0 [->|?]%elem_of_cons; auto.
Qed.

Section candidates.
Context {V : Type}.
Implicit Types (g : ExplorationGraph V) (es : list (Event V)).

(** The pure content of the compatibility test. *)
Definition compatible es (er : Event V) (rl : ReceiveLabel V) (s : EventId) : bool :=
  match es !! s ≫= as_send with
  | Some sl => bool_decide (destination sl = thread er) && accepts_pure rl (value sl)
  | None => false
  end.

Lemma compatible_spec es er rl s :
  compatible es er rl s = true ↔ ∃ e sl, es !! s = Some e ∧ as_send e = Some sl ∧
    destination sl = thread er ∧ accepts_pure rl (value sl) = true.
Proof.
  unfold compatible. destruct (es !! s) as [e|] eqn:He; simpl.
  - destruct (as_send e) as [sl|] eqn:Hs.
    + rewrite andb_true_iff, bool_decide_eq_true. split.
      * intros [? ?]. by exists e, sl.
      * intros (? & ? & [= <-] & ? & ?). by simplify_eq.
    + split; [done|]. intros (? & ? & [= <-] & ? & _). congruence.
  - split; [done|]. by intros (? & ? & ? & _).
Qed.

Lemma event_Ok g id e : events g !! id = Some e → ExplorationGraph.event g id = Ok e.
Proof. intros He. unfold ExplorationGraph.event, ExecutionGraph.event, events in *. by rewrite He. Qed.

Lemma candidate_of_Ok g recv er rl s :
  total_events (events g) → events g !! recv = Some er → as_receive er = Some rl →
  s < event_count g →
  candidate_of g er rl s =
    Ok (if compatible (events g) er rl s then [candidate (events g) s] else []).
Proof.
  intros Ht Her Hrl Hs. destruct (lookup_lt_is_Some_2 (events g) s) as [e He]; [done|].
  unfold candidate_of, compatible, candidate. rewrite (event_Ok _ _ _ He), He. simpl.
  destruct (as_send e) as [sl|]; [|done].
  destruct (decide (destination sl = thread er)) as [Hd|Hd].
  - rewrite (as_receive_total _ _ _ _ (value sl) Ht Her Hrl). simpl.
    by rewrite (bool_decide_eq_true_2 _ Hd).
  - by rewrite (bool_decide_eq_false_2 _ Hd).
Qed.

Lemma candidates_of_Ok g recv er rl ids :
  total_events (events g) → events g !! recv = Some er → as_receive er = Some rl →
  (∀ s, s ∈ ids → s < event_count g) →
  candidates_of g er rl ids =
    Ok (candidate (events g) <$> List.filter (compatible (events g) er rl) ids).
Proof.
  intros Ht Her Hrl Hids. unfold candidates_of.
  rewrite (foldM_pure _ (λ acc s, acc ++
    if compatible (events g) er rl s then [candidate (events g) s] else [])).
  - f_equal. enough (∀ acc, foldl (λ acc s, acc ++
      if compatible (events g) er rl s then [candidate (events g) s] else []) acc ids =
      acc ++ (candidate (events g) <$> List.filter (compatible (events g) er rl) ids)) as Hf
      by apply (Hf []).
    clear Hids. induction ids as [|s ids IH]; intros acc; simpl; [by rewrite app_nil_r|].
    rewrite IH. destruct (compatible _ _ _ s); simpl; [by rewrite <-app_assoc|by rewrite app_nil_r].
  - intros acc s Hs. rewrite (candidate_of_Ok g recv) by eauto. done.
Qed.

(** The candidates both tiebreakers sort: the compatible sends among [ids], and the
    current source. *)
Definition sorted_candidates es er rl (ids : list EventId) (current : EventId) : list Candidate :=
  sort_candidates (candidate es <$> List.filter (compatible es er rl) (ids ++ [current])).

Lemma gather_candidates g recv er rl ids current :
  total_events (events g) → events g !! recv = Some er → as_receive er = Some rl →
  (∀ s, s ∈ ids → s < event_count g) → current < event_count g →
  (unread ← candidates_of g er rl ids; own ← candidate_of g er rl current;
   Ok (sort_candidates (unread ++ own))) =
  Ok (sorted_candidates (events g) er rl ids current).
Proof.
  intros Ht Her Hrl Hids Hc. rewrite (candidates_of_Ok g recv), (candidate_of_Ok g recv) by done.
  simpl. unfold sorted_candidates. rewrite List.filter_app, fmap_app. simpl.
  by destruct (compatible _ _ _ current).
Qed.

Lemma sorted_candidates_sorted es er rl ids current :
  StronglySorted candidate_le (sorted_candidates es er rl ids current).
Proof. apply StronglySorted_merge_sort; apply _. Qed.

Lemma sorted_candidates_elem es er rl ids current c :
  c ∈ sorted_candidates es er rl ids current ↔
  ∃ s, c = candidate es s ∧ (s ∈ ids ∨ s = current) ∧ compatible es er rl s = true.
Proof.
  unfold sorted_candidates, sort_candidates. rewrite (merge_sort_Permutation candidate_le).
  rewrite list_elem_of_fmap. setoid_rewrite list_elem_of_In. setoid_rewrite filter_In.
  setoid_rewrite <-list_elem_of_In. setoid_rewrite elem_of_app. set_solver.
Qed.

(** A loop that stops at the first consistent candidate finds the tiebreaker. *)
Lemma first_match_tiebreak model es rf tol recv er rl ids current s :
  (∀ s', available es rf recv er rl s' ↔
     (s' ∈ ids ∨ s' = current) ∧ compatible es er rl s' = true) →
  first_match (λ s', consistent model es (rewired rf recv s') tol)
    (sorted_candidates es er rl ids current) s →
  tiebreak model es rf tol recv er rl s.
Proof.
  intros Hav (pre & c & post & Hcs & -> & HP & Hpre).
  pose proof (sorted_candidates_sorted es er rl ids current) as Hsorted.
  assert (∀ c', c' ∈ pre ++ c :: post ↔ ∃ s', c' = candidate es s' ∧ available es rf recv er rl s')
    as Hel. { intros c'. rewrite <-Hcs, sorted_candidates_elem. by setoid_rewrite Hav. }
  rewrite Hcs in Hsorted. destruct (proj1 (Hel c)) as (s & -> & Hs); [set_solver|]. simpl in *.
  split; [done|]. intros s' [Hs' Hc'].
  eapply (first_is_least (λ s', consistent model es (rewired rf recv s') tol)); [done..| |done].
  apply Hel. eauto.
Qed.

End candidates.

(** ** The reference implementation *)

Definition tolerance_of (allow : bool) (recv : EventId) : EventId → bool :=
  if allow then allow_missing_reads_for_non_target recv else no_missing_reads_tolerance.

Section reference.
Context {V : Type} (model : CommunicationModel) (allow : bool) (g : ExplorationGraph V)
  (recv current : EventId) (er : Event V) (rl : ReceiveLabel V).
Context (Hinv : Inv g) (Hcache : cache_ok g) (Htotal : total_events (events g))
  (Hcons : consistent model (events g) (reads_from g) (tolerance_of allow recv))
  (Her : events g !! recv = Some er) (Hrl : as_receive er = Some rl).

Abbreviation avail := (available (events g) (reads_from g) recv er rl).
Abbreviation fits s :=
  (consistent model (events g) (rewired (reads_from g) recv s) (tolerance_of allow recv)).

Lemma available_range s : avail s → s < event_count g.
Proof. intros (e & _ & He & _). by apply lookup_lt_Some in He. Qed.

Lemma creates_cycle_Ok s :
  avail s → ∃ b, rewiring_recv_creates_cycle g recv s = Ok b ∧
    (b = true ↔ tc (porf (events g) (reads_from g)) recv s).
Proof.
  intros Hs%available_range. pose proof (consistent_typed _ _ _ _ Hcons) as Hty.
  destruct Hcons as (_ & Hac & _). pose proof (lookup_lt_Some _ _ _ Her) as Hr.
  destruct (porf_contains_Ok g recv s (inv_core _ Hinv) Hcache Hty Hac Hr Hs) as (b & c & Hp & _ & Hb).
  exists b. unfold rewiring_recv_creates_cycle, porf_query. by rewrite Hp.
Qed.

Lemma preserves_acyclicity_Ok s :
  avail s → ∃ b, preserves_acyclicity g recv s = Ok b ∧
    (b = true → acyclic (porf (events g) (rewired (reads_from g) recv s))).
Proof.
  intros Hs. unfold preserves_acyclicity. destruct (is_known_acyclic g); [|by exists false].
  destruct (creates_cycle_Ok s Hs) as (b & -> & Hb). simpl. exists (negb b). split; [done|].
  intros Hnb%negb_true_iff. apply (rewired_acyclic model _ _ (tolerance_of allow recv) _ er rl);
    [done..|]. intros Htc%Hb. congruence.
Qed.

(** A graph on which the receive has been rewired to some send. *)
Record rewritten_ok (old : ExplorationGraph V) : Prop := {
  rw_core : Core old;
  rw_events : events old = events g;
  rw_rf : ∀ i, i ≠ recv → rf_find (reads_from old) i = rf_find (reads_from g) i;
  rw_elog : event_undo_log_ old = [];
  rw_rlog : rf_undo_log_ old = [];
}.

(** The rewritten graph of one candidate, ready for the checker. *)
Record rewritten_for (s : EventId) (rw : ExplorationGraph V) : Prop := {
  rf_ok : rewritten_ok rw;
  rf_inv : Inv rw;
  rf_cache : cache_ok rw;
  rf_source : reads_from rw ≡ rewired (reads_from g) recv s;
}.

Lemma rewritten_for_intro s rw preserves :
  Core rw → events rw = events g →
  (∀ i, rf_find (reads_from rw) i = rf_find (rewired (reads_from g) recv s) i) →
  event_undo_log_ rw = [] → rf_undo_log_ rw = [] → porf_cache_ rw = None →
  (known_acyclic_ rw = true → preserves = true) → pending_fresh_receive_id_ rw = None →
  (preserves = true → acyclic (porf (events g) (rewired (reads_from g) recv s))) →
  rewritten_for s rw.
Proof.
  intros Hcore Hev Hrf Hel Hrlog Hpc Hkn Hpe Hac.
  split; [|split; [done|rewrite Hel; constructor|split]|by apply cache_ok_None|done].
  - split; try done. intros i Hi. rewrite Hrf. unfold rewired. by rewrite rf_find_set, decide_False.
  - intros Hk. rewrite Hev. eapply acyclic_sub; [|exact (Hac (Hkn Hk))].
    intros a b. assert (reads_from rw ≡ rewired (reads_from g) recv s) as -> by done. done.
  - by rewrite Hpe.
Qed.

(** The first candidate is tried on a copy of the graph, the later ones on the same copy. *)
Lemma rewritten_copy_Ok s preserves :
  avail s →
  (preserves = true → acyclic (porf (events g) (rewired (reads_from g) recv s))) →
  ∃ rw, rewritten_copy g recv s preserves = Ok rw ∧ rewritten_for s rw.
Proof.
  intros Hs Hac. pose proof (available_range s Hs) as Hlt.
  pose proof (lookup_lt_Some _ _ _ Her) as Hr.
  assert (Core (copy g)) as Hcore by (by apply (core_ext g); [apply Hinv|..]).
  destruct (core_set_reads_from_source (copy g) recv (from_send s) Hcore Hr)
    as (g' & Hset & Hcore' & Hev & Hrf & _ & _ & Hpc & _ & Hpe); [by intros id [= <-]|].
  assert (∀ p, (p = true → preserves = true) →
    ∃ rw, copy_with_rf_source g recv (from_send s) p = Ok rw ∧ rewritten_for s rw) as Hcopy.
  { intros p Hp. unfold copy_with_rf_source. rewrite Hset. simpl. eexists. split; [done|].
    apply (rewritten_for_intro s _ preserves); try (by destruct p).
    - destruct p; by apply (core_ext g').
    - intros i. assert (reads_from g' = rewired (reads_from g) recv s) as <- by done. by destruct p. }
  unfold rewritten_copy. destruct preserves; apply Hcopy; [done|done].
Qed.

Lemma rewritten_rebind_Ok old s preserves :
  avail s → rewritten_ok old →
  (preserves = true → acyclic (porf (events g) (rewired (reads_from g) recv s))) →
  ∃ rw, rebind_rf old recv s preserves = Ok rw ∧ rewritten_for s rw.
Proof.
  intros Hs%available_range [Hcore Hev Hrf Hel Hlog] Hac.
  pose proof (lookup_lt_Some _ _ _ Her) as Hr. unfold event_count in *. rewrite <-Hev in Hs, Hr.
  destruct (rebind_rf_run old recv s preserves Hcore Hr Hs Hel Hlog)
    as (rw & -> & Hcore' & Hev' & Hrf' & Hel' & Hlog' & Hpc & Hkn & Hpe).
  exists rw. split; [done|]. apply (rewritten_for_intro s _ preserves); try done.
  - congruence.
  - intros i. rewrite Hrf'. unfold rewired. rewrite !rf_find_set.
    destruct (decide (recv = i)); [done|]. by apply Hrf.
  - by rewrite Hkn.
Qed.

Lemma check_rewritten_Ok s rw :
  rewritten_for s rw → ∃ r rw', check_rewritten rw recv model allow = Ok (r, rw') ∧
    (is_consistent r = true ↔ fits s) ∧ rewritten_ok rw'.
Proof.
  intros [[Hcore Hev Hrf Hel Hlog] Hi Hc Hsrc].
  assert (total_events (events rw)) as Ht by (by rewrite Hev).
  destruct (check_exploration_graph_Ok model rw (tolerance_of allow recv) Hi Hc Ht)
    as (r & rw' & Hrun & Hiff & Hi' & _ & Hg & He' & Hl').
  exists r, rw'. split; [by unfold check_rewritten; destruct allow|].
  split; [by rewrite Hiff, Hev, Hsrc|]. unfold events, reads_from in *. rewrite <-Hg in Hev, Hrf.
  split; [apply Hi'|done|done|congruence|congruence].
Qed.

(** The loop returns the first candidate whose rewiring is consistent. *)
Lemma try_candidates_Ok cs rewritten :
  (∀ old, rewritten = Some old → rewritten_ok old) →
  (∀ c, c ∈ cs → avail (cand_send c)) → (∃ c, c ∈ cs ∧ fits (cand_send c)) →
  ∃ s, try_candidates g recv model allow rewritten cs = Ok s ∧ first_match (λ s, fits s) cs s.
Proof.
  revert rewritten. induction cs as [|c cs IH]; intros rewritten Hrw Hav (c0 & Hc0 & Hfit).
  { set_solver. }
  assert (avail (cand_send c)) as Hc by (apply Hav; set_solver).
  assert (∀ rewritten', (∀ old, rewritten' = Some old → rewritten_ok old) → ¬ fits (cand_send c) →
    ∃ s, try_candidates g recv model allow rewritten' cs = Ok s ∧
      first_match (λ s, fits s) (c :: cs) s) as Hlater.
  { intros rewritten' Hrw' Hno. destruct (IH rewritten' Hrw') as (s & Hs & Hfirst).
    - intros c' Hc'. apply Hav. set_solver.
    - exists c0. split; [|done]. apply elem_of_cons in Hc0 as [->|?]; done.
    - exists s. split; [done|]. by apply first_match_later. }
  simpl. destruct (decide (model = Async ∧ allow = false)) as [[Hasync _]|_].
  - destruct (creates_cycle_Ok _ Hc) as (b & -> & Hb). simpl.
    assert (fits (cand_send c) ↔ b = false) as Hfb.
    { rewrite (rewired_consistent _ _ _ _ _ er rl) by done. rewrite <-Hb, not_true_iff_false.
      split; [by intros [? _]|]. intros ?. split; [done|]. congruence. }
    destruct b; [apply Hlater; [done|by rewrite Hfb]|]. eexists. split; [done|].
    by apply first_match_here, Hfb.
  - destruct (preserves_acyclicity_Ok _ Hc) as (p & -> & Hp). simpl.
    assert (∃ rw, match rewritten with
                  | Some old => rebind_rf old recv (cand_send c) p
                  | None => rewritten_copy g recv (cand_send c) p end = Ok rw ∧
                  rewritten_for (cand_send c) rw) as (rw & -> & Hok).
    { destruct rewritten as [old|]; [apply rewritten_rebind_Ok|apply rewritten_copy_Ok]; auto. }
    simpl. destruct (check_rewritten_Ok _ _ Hok) as (r & rw' & -> & Hiff & Hok'). simpl.
    destruct (is_consistent r).
    + eexists. split; [done|]. by apply first_match_here, Hiff.
    + apply Hlater; [by intros ? [= <-]|]. by rewrite <-Hiff.
Qed.

(** Available sends are the compatible ones among the unread sends and the source. *)
Lemma available_unread s :
  rf_find (reads_from g) recv = Some (from_send current) →
  avail s ↔ (s ∈ ExplorationGraph.unread_send_event_ids g ∨ s = current) ∧
    compatible (events g) er rl s = true.
Proof.
  intros Hf. rewrite compatible_spec, (unread_send_event_ids_elem g s (inv_core _ Hinv)).
  unfold available. split.
  - intros (e & sl & He & Hsl & Hd & Ha & Hu). split; [|by exists e, sl].
    destruct (decide (s = current)) as [->|Hs]; [by right|left]. split.
    + exists e. split; [done|]. unfold is_send, as_send in *. by destruct (label e).
    + intros r Hr. apply Hs. pose proof (Hu r Hr) as ->. destruct Hr as (src & Hr & Hsrc).
      rewrite Hf in Hr. injection Hr as <-. by injection Hsrc.
  - intros [Hs (e & sl & He & Hsl & Hd & Ha)]. exists e, sl. split_and!; [done..|].
    intros r Hr. destruct Hs as [[_ Hu]| ->]; [by destruct (Hu r)|].
    pose proof Hcons as ([_ Honce _] & _). apply (Honce current); [done|]. by exists (from_send current).
Qed.

Lemma get_cons_tiebreaker_Ok :
  is_nonblocking rl = false → rf_find (reads_from g) recv = Some (from_send current) →
  ∃ s, get_cons_tiebreaker g recv model allow = Ok s ∧
    tiebreak model (events g) (reads_from g) (tolerance_of allow recv) recv er rl s.
Proof.
  intros Hb Hf. pose proof (λ s, available_unread s Hf) as Hav.
  destruct (current_admissible model _ _ _ recv er rl Hcons Her Hrl current Hf) as [Hcur Hfit].
  unfold get_cons_tiebreaker, tiebreaker_receive. rewrite (event_Ok _ _ _ Her). simpl.
  rewrite Hrl, Hb, Hf. simpl.
  assert (∀ s, s ∈ ExplorationGraph.unread_send_event_ids g → s < event_count g) as Hids.
  { intros s Hs. apply (unread_send_event_ids_elem g s (inv_core _ Hinv)) in Hs as [(e & He & _) _].
    by apply lookup_lt_Some in He. }
  pose proof (gather_candidates g recv er rl _ current Htotal Her Hrl Hids
                (available_range _ Hcur)) as Hgather.
  destruct (candidates_of _ _ _ _) as [unread|]; [|done]. simpl in *.
  destruct (candidate_of _ _ _ _) as [own|]; [|done]. simpl in *. injection Hgather as ->.
  edestruct (try_candidates_Ok (sorted_candidates (events g) er rl
               (ExplorationGraph.unread_send_event_ids g) current) None) as (s & Hs & Hfirst).
  - done.
  - intros c (s & -> & Hs)%sorted_candidates_elem. by apply Hav.
  - exists (candidate (events g) current). split; [|done]. apply sorted_candidates_elem.
    exists current. split; [done|]. by apply Hav.
  - exists s. split; [done|]. by eapply first_match_tiebreak.
Qed.

End reference.
