(* ===== verification/MaskedFacts.v ===== *)
(** * MaskedFacts: the masked view answers for the restricted graph

    The tables of [masked_reset] describe the kept events: their threads, their positions,
    the channels of the kept sends and the kept readers ([tables]).  Reachability in the
    masked view is causality along kept events ([reachable_from_Ok]), the FIFO clauses on
    the rewritten consumer table say whether the rewiring keeps channels in order
    ([fifo_rewrite_violates_Ok]), and the loop over the candidates therefore returns the
    tiebreaker of the restricted graph without building it. *)

From stdpp Require Import base tactics numbers relations sets sorting list strings.
From S2P Require Import Prelude Errors Event Relation ExecutionGraph ExplorationGraph Porf.
From S2P Require Import Consistency StorageFacts ExecutionGraphFacts ExplorationFacts Rollback.
From S2P Require Import Queries PorfFacts PorfClocks ConsistencyFacts CheckerFacts FifoFacts.
From S2P Require Import Program Masked Dpor Revisit RestrictFacts SoundFacts Tiebreaker.

(** ** Channel buckets *)

Lemma bucket_push_keys buckets key id k :
  k ∈ (bucket_push buckets key id).*1 ↔ k ∈ buckets.*1 ∨ k = key.
Proof.
  induction buckets as [|[k0 ids0] buckets IH]; simpl; [set_solver|].
  case_decide as Ek; simpl; rewrite !elem_of_cons; [set_solver|]. rewrite IH. set_solver.
Qed.

Lemma bucket_push_spec buckets key id :
  NoDup buckets.*1 →
  NoDup (bucket_push buckets key id).*1 ∧
  ∀ k ids, (k, ids) ∈ bucket_push buckets key id ↔
    (k ≠ key ∧ (k, ids) ∈ buckets) ∨
    (k = key ∧ key ∉ buckets.*1 ∧ ids = [id]) ∨
    (k = key ∧ ∃ ids', (key, ids') ∈ buckets ∧ ids = ids' ++ [id]).
Proof.
  induction buckets as [|[k0 ids0] buckets IH]; simpl.
  { intros _. split; [apply NoDup_singleton|]. set_solver. }
  intros [Hk0 Hnd]%NoDup_cons. destruct (IH Hnd) as [IHn IHe].
  assert (∀ ids, (k0, ids) ∉ buckets) as Hno.
  { intros ids Hin. apply Hk0, list_elem_of_fmap. by exists (k0, ids). }
  case_decide as Ek; [subst k0|]; simpl.
  - split; [by constructor|]. intros k ids. unfold push_back.
    rewrite !elem_of_cons. split.
    + intros [[= -> ->]|Hin]; [right; right; split; [done|]; exists ids0; set_solver|].
      left. split; [intros ->; by eapply Hno|by right].
    + intros [[Hne [?|Hin]]|[(-> & Hn & ->)|(-> & ids' & [[= ->]|Hin]%elem_of_cons & ->)]];
        [congruence|by right|set_solver|by left|by apply Hno in Hin].
  - split.
    { constructor; [|done]. rewrite bucket_push_keys. by intros [?| ->]. }
    intros k ids. rewrite !elem_of_cons, IHe. split.
    + intros [[= -> ->]|[[Hne Hin]|[(-> & Hn & ->)|(-> & ids' & Hin & ->)]]].
      * left. split; [done|by left].
      * left. split; [done|by right].
      * right. left. split_and!; [done| |done]. by intros [->|?].
      * right. right. split; [done|]. exists ids'. set_solver.
    + intros [[Hne [?|Hin]]|[(-> & Hn & ->)|(-> & ids' & [[= ? ?]|Hin]%elem_of_cons & ->)]].
      * by left.
      * right. by left.
      * right. right. left. split_and!; [done| |done]. set_solver.
      * congruence.
      * right. right. right. split; [done|]. by exists ids'.
Qed.

(** ** The event pass *)

Section event_pass.
Context {V : Type} (g : ExplorationGraph V).
Implicit Types (m : MaskedPorfContext V) (ids : list EventId).

(** The kept events of a thread, and the kept sends of a channel, in program order. *)
Definition thread_kept ids (t : nat) : list EventId :=
  List.filter (holds_at g (λ e, bool_decide (N.to_nat (thread e) = t))) ids.

Definition channel_kept ids (k : Channel) : list EventId :=
  List.filter (holds_at g (on_channel k)) ids.

Definition channels_ok ids (buckets : list (Channel * list EventId)) : Prop :=
  NoDup buckets.*1 ∧ ∀ k l, (k, l) ∈ buckets ↔ l = channel_kept ids k ∧ l ≠ [].

(** What the event pass has established after the events [ids]. *)
Record event_tables ids m : Prop := {
  et_threads : ∀ t, default [] (kept_events_by_thread m !! t) = thread_kept ids t;
  et_length : length (kept_position_in_thread m) = event_count g;
  et_positions : ∀ id p, kept_position_in_thread m !! id = Some (Some p) ↔
    ∃ e, events g !! id = Some e ∧ thread_kept ids (N.to_nat (thread e)) !! p = Some id;
  et_channels : mk_fifo m = true → channels_ok ids (channels m);
}.

Lemma thread_kept_snoc ids id e t :
  events g !! id = Some e →
  thread_kept (ids ++ [id]) t =
    thread_kept ids t ++ if decide (N.to_nat (thread e) = t) then [id] else [].
Proof.
  intros He. unfold thread_kept. rewrite List.filter_app. simpl. unfold holds_at at 2. rewrite He.
  by destruct (decide _) as [Ht|Ht];
    [rewrite (bool_decide_eq_true_2 _ Ht)|rewrite (bool_decide_eq_false_2 _ Ht)].
Qed.

Lemma thread_kept_elem ids t id :
  id ∈ thread_kept ids t ↔
    id ∈ ids ∧ ∃ e, events g !! id = Some e ∧ N.to_nat (thread e) = t.
Proof.
  unfold thread_kept, holds_at. rewrite list_elem_of_In, filter_In, <-list_elem_of_In.
  destruct (events g !! id) as [e|] eqn:He.
  - rewrite bool_decide_eq_true. apply and_iff_compat_l. split; [eauto|]. by intros (? & [= <-] & ?).
  - split; [by intros [_ ?]|]. by intros (_ & ? & ? & _).
Qed.

Lemma channels_ok_push ids id e s buckets :
  events g !! id = Some e → as_send e = Some s → channels_ok ids buckets →
  channels_ok (ids ++ [id]) (bucket_push buckets (thread e, destination s) id).
Proof.
  intros He Hs [Hnd Hb]. destruct (bucket_push_spec buckets (thread e, destination s) id Hnd)
    as [Hnd' Hb']. split; [done|]. intros k l. rewrite Hb'.
  unfold channel_kept. rewrite List.filter_app. simpl. unfold holds_at at 2. rewrite He.
  fold (channel_kept ids k). destruct (on_channel k e) eqn:Ek.
  - apply on_channel_true in Ek as (s' & Hs' & ->). rewrite Hs in Hs'. injection Hs' as <-.
    set (key := (thread e, destination s)) in *. split.
    + intros [[? _]|[(_ & Hno & ->)|(_ & l' & [-> _]%Hb & ->)]]; [done| |split; [done|by destruct (channel_kept ids key)]].
      destruct (channel_kept ids key) as [|a l] eqn:E; [done|]. exfalso. apply Hno.
      apply list_elem_of_fmap. exists (key, a :: l). split; [done|]. apply Hb. by rewrite E.
    + intros [-> _]. right. destruct (channel_kept ids key) as [|a l] eqn:E.
      * left. split_and!; [done| |done]. intros ([k' l'] & -> & [-> Hne]%Hb)%list_elem_of_fmap.
        simpl in *. by rewrite E in Hne.
      * right. split; [done|]. exists (a :: l). split; [|done]. apply Hb. by rewrite E.
  - rewrite app_nil_r, Hb. assert (k ≠ (thread e, destination s)) as Hne.
    { intros ->. apply not_true_iff_false in Ek. apply Ek, on_channel_true. by exists s. }
    split; [|by left]. intros [[_ ?]|[[? _]|[? _]]]; done.
Qed.

Lemma channels_ok_skip ids id e buckets :
  events g !! id = Some e → as_send e = None → channels_ok ids buckets →
  channels_ok (ids ++ [id]) buckets.
Proof.
  intros He Hs [Hnd Hb]. split; [done|]. intros k l. rewrite Hb. unfold channel_kept.
  rewrite List.filter_app. simpl. unfold holds_at at 3, on_channel. rewrite He, Hs, andb_false_r.
  by rewrite app_nil_r.
Qed.

Lemma reset_event_Ok m ids id e :
  mk_graph m = g → events g !! id = Some e → id ∉ ids → event_tables ids m →
  ∃ m', reset_event m id = Ok m' ∧ event_tables (ids ++ [id]) m' ∧
    mk_graph m' = g ∧ mk_keep m' = mk_keep m ∧ mk_fifo m' = mk_fifo m ∧
    consumed_send_mask m' = consumed_send_mask m ∧ rf_consumer m' = rf_consumer m ∧
    extra_rf_consumers m' = extra_rf_consumers m ∧ fifo_consumer m' = fifo_consumer m.
Proof.
  intros Hg He Hnew [Hth Hlen Hpos Hch]. pose proof (lookup_lt_Some _ _ _ He) as Hlt.
  unfold reset_event. rewrite Hg, (event_Ok _ _ _ He). simpl.
  set (t := N.to_nat (thread e)). set (by_t := grow (t + 1) [] (kept_events_by_thread m)).
  assert (by_t !! t = Some (thread_kept ids t)) as Hget.
  { destruct (lookup_lt_is_Some_2 by_t t) as [l Hl]; [unfold by_t; rewrite length_grow; lia|].
    rewrite Hl, <-Hth, <-(lookup_grow_default (t + 1)). fold by_t. by rewrite Hl. }
  rewrite (vec_get_Ok _ _ _ Hget). simpl. rewrite (vec_set_Ok (kept_position_in_thread m)) by (rewrite Hlen; done).
  simpl. pose proof (lookup_lt_Some _ _ _ Hget) as Hlt'. rewrite vec_set_Ok by done. simpl.
  eexists. split; [done|]. split; [|done]. split; simpl.
  - intros t'. rewrite (thread_kept_snoc _ _ e _ He). fold t. destruct (decide (t = t')) as [<-|Hne].
    + by rewrite list_lookup_insert_eq.
    + rewrite list_lookup_insert_ne by done. unfold by_t. rewrite lookup_grow_default, app_nil_r.
      apply Hth.
  - by rewrite length_insert.
  - intros id' p. destruct (decide (id' = id)) as [->|Hne].
    + rewrite list_lookup_insert_eq by (rewrite Hlen; done). rewrite He. split.
      * intros [= <-]. exists e. split; [done|]. rewrite (thread_kept_snoc _ _ e _ He). fold t.
        rewrite decide_True by done. by rewrite lookup_app_r, Nat.sub_diag by lia.
      * intros (e' & [= <-] & Hp). rewrite (thread_kept_snoc _ _ e _ He), decide_True in Hp by done.
        fold t in Hp. apply lookup_app_Some in Hp as [Hp|[Hle Hp]].
        -- apply list_elem_of_lookup_2, thread_kept_elem in Hp as [? _]. done.
        -- apply list_lookup_singleton_Some in Hp as [Hp _]. do 2 f_equal. lia.
    + rewrite list_lookup_insert_ne by done. rewrite Hpos. apply exist_proper. intros e'.
      apply and_iff_compat_l. rewrite (thread_kept_snoc _ _ e _ He). split; [apply lookup_app_l_Some|].
      intros [?|[_ Hp]]%lookup_app_Some; [done|]. case_decide; [|done].
      apply list_lookup_singleton_Some in Hp as [_ Hp]. congruence.
  - intros Hf. rewrite Hf. destruct (as_send e) as [s|] eqn:Hs; [apply channels_ok_push|
      eapply channels_ok_skip]; eauto.
Qed.

End event_pass.

(** ** The reads-from pass *)

Section rf_pass.
Context {V : Type} (g : ExplorationGraph V) (mask : list bool).
Implicit Types (m : MaskedPorfContext V) (l : list (EventId * ReadsFromSource)).
Context (Hrc : rf_consistent (events g) (reads_from g) no_missing_reads_tolerance).

Definition kept (id : EventId) : Prop := mask !! id = Some true.

(** Reads-from between kept events. *)
Definition kept_edge (s r : EventId) : Prop := kept s ∧ kept r ∧ rf_edge (reads_from g) s r.

(** The edges among the entries [l]. *)
Definition edge_in l (s r : EventId) : Prop :=
  kept s ∧ kept r ∧ ∃ src, (r, src) ∈ l ∧ rf_send src = Some s.

(** A table maps each send to the kept receive that reads it. *)
Definition reader_table (E : EventId → EventId → Prop) (table : list (option EventId)) : Prop :=
  length table = event_count g ∧ ∀ s r, table !! s = Some (Some r) ↔ E s r.

Record rf_tables l m : Prop := {
  rt_graph : mk_graph m = g;
  rt_keep : mk_keep m = mask;
  rt_consumed_length : length (consumed_send_mask m) = event_count g;
  rt_consumed : ∀ s, consumed_send_mask m !! s = Some true ↔ ∃ r, edge_in l s r;
  rt_consumer : reader_table (edge_in l) (rf_consumer m);
  rt_extra : extra_rf_consumers m = [];
  rt_fifo : if mk_fifo m then reader_table (edge_in l) (fifo_consumer m)
            else length (fifo_consumer m) = event_count g;
}.

Lemma mask_keeps_true id : mask_keeps mask id = true ↔ kept id.
Proof. unfold mask_keeps, kept. destruct (mask !! id) as [[]|]; naive_solver. Qed.

Lemma edge_in_snoc l r src s r' :
  edge_in (l ++ [(r, src)]) s r' ↔
    edge_in l s r' ∨ (r' = r ∧ rf_send src = Some s ∧ kept s ∧ kept r).
Proof.
  unfold edge_in. setoid_rewrite elem_of_app. setoid_rewrite list_elem_of_singleton. split.
  - intros (Hs & Hr & src' & [Hin|[= -> ->]] & Hsrc); [left|by right]. eauto.
  - intros [(Hs & Hr & src' & Hin & Hsrc)|(-> & Hsrc & Hs & Hr)]; eauto 10.
Qed.

Lemma edge_in_full s r : edge_in (rf_to_list (reads_from g)) s r ↔ kept_edge s r.
Proof. unfold edge_in, kept_edge, rf_edge. by setoid_rewrite rf_to_list_elem. Qed.

(** An entry whose receive or send is dropped changes nothing. *)
Lemma rf_tables_skip l r src m :
  (∀ s, rf_send src = Some s → ¬ (kept s ∧ kept r)) → rf_tables l m → rf_tables (l ++ [(r, src)]) m.
Proof.
  intros Hskip [Hg Hk Hcl Hc [Hl Ht] He Hf].
  assert (∀ s r', edge_in (l ++ [(r, src)]) s r' ↔ edge_in l s r') as Heq.
  { intros s r'. rewrite edge_in_snoc. split; [|by left]. intros [?|(-> & Hs & ? & ?)]; [done|].
    by destruct (Hskip s Hs). }
  split; try done.
  - intros s. rewrite Hc. by setoid_rewrite Heq.
  - split; [done|]. intros s r'. by rewrite Ht, Heq.
  - destruct (mk_fifo m); [|done]. destruct Hf as [Hfl Hf]. split; [done|].
    intros s r'. by rewrite Hf, Heq.
Qed.

(** The table that gains the reader of a send it had no reader for. *)
Lemma reader_table_insert l r src s table :
  rf_send src = Some s → kept s → kept r → s < event_count g →
  (∀ r', ¬ edge_in l s r') → reader_table (edge_in l) table →
  reader_table (edge_in (l ++ [(r, src)])) (<[s := Some r]> table).
Proof.
  intros Hs Hks Hkr Hlt Hno [Hl Ht]. split; [by rewrite length_insert|]. intros s' r'.
  rewrite edge_in_snoc. destruct (decide (s' = s)) as [->|Hne].
  - rewrite list_lookup_insert_eq by lia. split.
    + intros [= ->]. right. done.
    + intros [?|(-> & _)]; [by destruct (Hno r')|done].
  - rewrite list_lookup_insert_ne by done. rewrite Ht. split; [by left|].
    intros [?|(_ & Hs' & _)]; [done|congruence].
Qed.

Lemma reset_rf_Ok l r src l2 m :
  rf_to_list (reads_from g) = l ++ (r, src) :: l2 → rf_tables l m →
  ∃ m', reset_rf m (r, src) = Ok m' ∧ rf_tables (l ++ [(r, src)]) m' ∧
    kept_events_by_thread m' = kept_events_by_thread m ∧
    kept_position_in_thread m' = kept_position_in_thread m ∧
    mk_fifo m' = mk_fifo m ∧ channels m' = channels m.
Proof.
  intros Hl Hm. assert (rf_find (reads_from g) r = Some src) as Hr
    by (apply rf_to_list_elem; rewrite Hl; set_solver).
  destruct (rc_entries _ _ _ Hrc r src Hr) as (er & rl & Her & Hrl & Hsrc). simpl in *.
  destruct (rf_send src) as [s|] eqn:Es.
  2:{ exists m. split; [done|]. split; [|done]. apply rf_tables_skip; [|done]. congruence. }
  destruct Hsrc as (e & sl & He & Hsl & Hd & Ha).
  assert (s < event_count g) as Hlt by (by apply lookup_lt_Some in He).
  pose proof (rt_graph _ _ Hm) as Hg. pose proof (rt_keep _ _ Hm) as Hk.
  unfold keeps. rewrite Hk. destruct (mask_keeps mask r && mask_keeps mask s) eqn:Hkeep; simpl.
  2:{ exists m. split; [done|]. split; [|done]. apply rf_tables_skip; [|done].
      intros s' Hs' [Hks Hkr]. rewrite Es in Hs'. injection Hs' as <-.
      apply mask_keeps_true in Hks, Hkr. by rewrite Hks, Hkr in Hkeep. }
  apply andb_true_iff in Hkeep as [Hkr%mask_keeps_true Hks%mask_keeps_true].
  assert (∀ r', ¬ edge_in l s r') as Hno.
  { intros r' (_ & _ & src' & Hin & Hsrc').
    assert (rf_find (reads_from g) r' = Some src') as Hr' by (apply rf_to_list_elem; rewrite Hl; set_solver).
    assert (r' = r) as -> by (apply (rc_once _ _ _ Hrc s); [by exists src'|by exists src]).
    pose proof (rf_to_list_nodup (reads_from g)) as Hnd. rewrite Hl, fmap_app in Hnd.
    apply NoDup_app in Hnd as (_ & Hdis & _). apply (Hdis r); simpl; [|set_solver].
    apply list_elem_of_fmap. by exists (r, src'). }
  destruct Hm as [_ _ Hcl Hc Ht Hex Hf]. pose proof Ht as [Hlen Hlook].
  destruct (lookup_lt_is_Some_2 (rf_consumer m) s) as [c Hcs]; [lia|].
  assert (c = None) as -> by (destruct c as [r'|]; [apply Hlook in Hcs; by apply Hno in Hcs|done]).
  rewrite (vec_set_Ok (consumed_send_mask m)) by lia. simpl. rewrite (vec_get_Ok _ _ _ Hcs). simpl.
  rewrite (vec_set_Ok (rf_consumer m)) by lia. simpl. rewrite Hg, (event_Ok _ _ _ Her), (event_Ok _ _ _ He). simpl.
  rewrite Hrl, Hsl, decide_True, Ha by done. simpl.
  assert (s < length (fifo_consumer m)) as Hfl by (destruct (mk_fifo m); [destruct Hf|]; lia).
  rewrite (vec_set_Ok (fifo_consumer m)) by done.
  assert (∀ fifo, (if mk_fifo m then Ok (<[s := Some r]> (fifo_consumer m)) else Ok (fifo_consumer m))
     = @Ok exn _ fifo →
     if mk_fifo m then reader_table (edge_in (l ++ [(r, src)])) fifo
     else length fifo = event_count g) as Hfifo.
  { intros fifo. destruct (mk_fifo m); intros [= <-]; [|done]. by apply reader_table_insert. }
  destruct (if mk_fifo m then _ else _) as [fifo|] eqn:Eq; [|by destruct (mk_fifo m)].
  simpl. eexists. split; [done|]. split; [|done]. split; simpl; try done.
  - by rewrite length_insert.
  - intros s'. setoid_rewrite edge_in_snoc. destruct (decide (s' = s)) as [->|Hne].
    + rewrite list_lookup_insert_eq by lia. split; [|done]. intros _. exists r. right. done.
    + rewrite list_lookup_insert_ne by done. rewrite Hc. apply exist_proper. intros r'.
      split; [by left|]. intros [?|(_ & Hs' & _)]; [done|]. congruence.
  - by apply reader_table_insert.
  - by apply Hfifo.
Qed.

End rf_pass.

(** ** Increasing lists *)

Lemma increasing_seq s n : StronglySorted lt (seq s n).
Proof.
  revert s. induction n as [|n IH]; intros s; simpl; constructor; [done|].
  apply Forall_forall. intros x [? _]%elem_of_seq. lia.
Qed.

Lemma increasing_filter (p : nat → bool) l :
  StronglySorted lt l → StronglySorted lt (List.filter p l).
Proof.
  induction 1 as [|a l _ IH Hall]; simpl; [constructor|]. destruct (p a); [|done].
  constructor; [done|]. rewrite Forall_forall in *. intros x Hx. apply Hall.
  by apply list_elem_of_In, filter_In, proj1, list_elem_of_In in Hx.
Qed.

Lemma increasing_lookup l i j (a b : nat) :
  StronglySorted lt l → l !! i = Some a → l !! j = Some b → i < j ↔ a < b.
Proof.
  intros Hs. revert i j. induction Hs as [|x l _ IH Hall]; intros i j; [done|].
  rewrite Forall_forall in Hall. destruct i as [|i], j as [|j]; simpl.
  - intros [= ->] [= ->]. lia.
  - intros [= ->] Hb%list_elem_of_lookup_2%Hall. lia.
  - intros Ha%list_elem_of_lookup_2%Hall [= ->]. lia.
  - intros Ha Hb. rewrite <-(IH i j Ha Hb). lia.
Qed.

(** ** The tables *)

Section tables.
Context {V : Type} (g : ExplorationGraph V) (mask : list bool) (fifo : bool).
Implicit Types (m : MaskedPorfContext V).
Context (Hlen : length mask = event_count g).

Record tables m : Prop := {
  tb_graph : mk_graph m = g;
  tb_keep : mk_keep m = mask;
  tb_fifo : mk_fifo m = fifo;
  tb_events : event_tables g (kept_ids mask) m;
  tb_consumed_length : length (consumed_send_mask m) = event_count g;
  tb_consumed : ∀ s, consumed_send_mask m !! s = Some true ↔ ∃ r, kept_edge g mask s r;
  tb_consumer : reader_table g (kept_edge g mask) (rf_consumer m);
  tb_extra : extra_rf_consumers m = [];
  tb_fifo_consumer : fifo = true → reader_table g (kept_edge g mask) (fifo_consumer m);
}.

Lemma kept_ids_filter : List.filter (mask_keeps mask) (seq 0 (event_count g)) = kept_ids mask.
Proof.
  unfold kept_ids. rewrite Hlen. apply filter_ext. intros id. unfold mask_keeps.
  destruct (mask !! id) as [[]|]; done.
Qed.

Lemma kept_event id : kept mask id → ∃ e, events g !! id = Some e.
Proof.
  intros Hk%lookup_lt_Some. rewrite Hlen in Hk. by destruct (lookup_lt_is_Some_2 _ _ Hk) as [e ?]; exists e.
Qed.

Lemma reset_events_Ok m0 :
  mk_graph m0 = g → event_tables g [] m0 →
  ∃ m, foldM reset_event m0 (kept_ids mask) = Ok m ∧ event_tables g (kept_ids mask) m ∧
    mk_graph m = g ∧ mk_keep m = mk_keep m0 ∧ mk_fifo m = mk_fifo m0 ∧
    consumed_send_mask m = consumed_send_mask m0 ∧ rf_consumer m = rf_consumer m0 ∧
    extra_rf_consumers m = extra_rf_consumers m0 ∧ fifo_consumer m = fifo_consumer m0.
Proof.
  intros Hg H0. apply (foldM_inv (E := exn) reset_event (λ ids m, event_tables g ids m ∧
    mk_graph m = g ∧ mk_keep m = mk_keep m0 ∧ mk_fifo m = mk_fifo m0 ∧
    consumed_send_mask m = consumed_send_mask m0 ∧ rf_consumer m = rf_consumer m0 ∧
    extra_rf_consumers m = extra_rf_consumers m0 ∧ fifo_consumer m = fifo_consumer m0)); [done|].
  intros ids id rest m Hl (Hm & Hg' & Hk & Hf & Hc & Hr & He & Hfc).
  assert (id ∈ kept_ids mask) as Hid by (rewrite Hl; set_solver).
  destruct (kept_event id) as [e Hev]; [by apply kept_ids_elem|].
  destruct (reset_event_Ok g m ids id e Hg' Hev) as (m' & Hrun & Hm' & ? & ? & ? & ? & ? & ? & ?).
  { pose proof (NoDup_kept_ids mask) as Hnd. rewrite Hl in Hnd.
    apply NoDup_app in Hnd as (_ & Hdis & _). intros Hin. apply (Hdis id Hin). set_solver. }
  { done. }
  exists m'. split; [done|]. split_and!; [done|done|congruence..].
Qed.

Context (Hrc : rf_consistent (events g) (reads_from g) no_missing_reads_tolerance).

Lemma reset_rfs_Ok m1 :
  rf_tables g mask [] m1 →
  ∃ m, foldM reset_rf m1 (rf_to_list (reads_from g)) = Ok m ∧
    rf_tables g mask (rf_to_list (reads_from g)) m ∧
    kept_events_by_thread m = kept_events_by_thread m1 ∧
    kept_position_in_thread m = kept_position_in_thread m1 ∧
    mk_fifo m = mk_fifo m1 ∧ channels m = channels m1.
Proof.
  intros H0. apply (foldM_inv (E := exn) reset_rf (λ l m, rf_tables g mask l m ∧
    kept_events_by_thread m = kept_events_by_thread m1 ∧
    kept_position_in_thread m = kept_position_in_thread m1 ∧
    mk_fifo m = mk_fifo m1 ∧ channels m = channels m1)); [done|].
  intros l [r src] l2 m Hl (Hm & ? & ? & ? & ?).
  destruct (reset_rf_Ok g mask Hrc l r src l2 m Hl Hm) as (m' & Hrun & Hm' & ? & ? & ? & ?).
  exists m'. split; [done|]. split_and!; [done|congruence..].
Qed.

Lemma reader_table_nil : reader_table g (edge_in mask []) (replicate (event_count g) None).
Proof.
  split; [apply length_replicate|]. intros s r. split.
  - intros [Hs _]%lookup_replicate. done.
  - intros (_ & _ & src & Hin & _). set_solver.
Qed.

(** [masked_reset] does not throw on a mask of the right length, and its tables describe
    the kept events. *)
Lemma masked_reset_Ok : ∃ m, masked_reset g mask fifo = Ok m ∧ tables m.
Proof.
  unfold masked_reset. rewrite decide_False by tauto. rewrite kept_ids_filter.
  set (m0 := MkMasked _ _ _ _ _ _ _ _ _ _).
  destruct (reset_events_Ok m0 eq_refl) as (m1 & -> & Hev & Hg1 & Hk1 & Hf1 & Hc1 & Hr1 & He1 & Hfc1).
  { split; simpl; [done|apply length_replicate| |].
    - intros id p. split; [|by intros (e & _ & ?)]. by intros [? _]%lookup_replicate.
    - intros _. split; [constructor|]. intros k l. split; [set_solver|]. by intros [-> ?]. }
  simpl. destruct (reset_rfs_Ok m1) as (m & Hrun & Hm & Ht & Hp & Hf & Hch).
  { split; [done|done| | |by rewrite Hr1; apply reader_table_nil|done|].
    - rewrite Hc1. apply length_replicate.
    - intros s. rewrite Hc1. split; [by intros [? _]%lookup_replicate|].
      intros (r & _ & _ & src & ? & _). set_solver.
    - rewrite Hf1, Hfc1. simpl. destruct fifo; [apply reader_table_nil|apply length_replicate]. }
  exists m. split; [done|]. destruct Hm as [? ? ? Hcs [Hl Htab] ? Hfifo].
  setoid_rewrite edge_in_full in Hcs. setoid_rewrite edge_in_full in Htab.
  destruct Hev as [Het Hel Hep Hec].
  split; [done|done|by rewrite Hf, Hf1| |done|done|by split|done|].
  - split; [by rewrite Ht|by rewrite Hp|by rewrite Hp|by rewrite Hch, Hf].
  - intros ->. rewrite Hf, Hf1 in Hfifo. simpl in Hfifo. destruct Hfifo as [? Hfi].
    setoid_rewrite edge_in_full in Hfi. by split.
Qed.

End tables.

(** ** Reachability *)

Section reachability.
Context {V : Type} (g : ExplorationGraph V) (mask : list bool) (fifo : bool)
  (m : MaskedPorfContext V).
Context (Hlen : length mask = event_count g) (Hm : tables g mask fifo m).

(** Causality along kept events. *)
Definition kept_porf (a b : EventId) : Prop :=
  kept mask a ∧ kept mask b ∧ porf (events g) (reads_from g) a b.

Abbreviation lane t := (thread_kept g (kept_ids mask) t).

(** One edge of the masked view: the next kept event of the thread, or a kept reader. *)
Definition masked_next (a b : EventId) : Prop :=
  (∃ e p, events g !! a = Some e ∧ lane (N.to_nat (thread e)) !! p = Some a ∧
     lane (N.to_nat (thread e)) !! (p + 1) = Some b) ∨
  kept_edge g mask a b.

Lemma lane_increasing t : StronglySorted lt (lane t).
Proof. apply increasing_filter, increasing_filter, increasing_seq. Qed.

Lemma lane_elem t a :
  a ∈ lane t ↔ kept mask a ∧ ∃ e, events g !! a = Some e ∧ N.to_nat (thread e) = t.
Proof. rewrite thread_kept_elem, kept_ids_elem. done. Qed.

Lemma masked_next_porf a b : masked_next a b → kept_porf a b.
Proof.
  intros [(e & p & He & Ha & Hb)|(Hs & Hr & Hrf)]; [|by split_and!; [..|right]].
  pose proof (increasing_lookup _ _ _ _ _ (lane_increasing _) Ha Hb) as Hlt.
  apply list_elem_of_lookup_2, lane_elem in Ha as [Hka _].
  apply list_elem_of_lookup_2, lane_elem in Hb as [Hkb (eb & Heb & Ht)].
  split_and!; [done..|]. left. split; [lia|]. exists e, eb. split_and!; [done..|lia].
Qed.

(** Program order is a chain of next events. *)
Lemma lane_chain t p k a b :
  lane t !! p = Some a → lane t !! (p + S k) = Some b → tc masked_next a b.
Proof.
  revert p a. induction k as [|k IH]; intros p a Ha Hb.
  - pose proof (list_elem_of_lookup_2 _ _ _ Ha) as [_ (e & He & <-)]%lane_elem.
    apply tc_once. left. by exists e, p.
  - destruct (lookup_lt_is_Some_2 (lane t) (p + 1)) as [c Hc].
    { apply lookup_lt_Some in Hb. lia. }
    pose proof (list_elem_of_lookup_2 _ _ _ Ha) as [_ (e & He & <-)]%lane_elem.
    eapply tc_l; [left; by exists e, p|]. apply (IH (p + 1)); [done|].
    by replace (p + 1 + S k) with (p + S (S k)) by lia.
Qed.

Lemma kept_porf_chain a b : kept_porf a b → tc masked_next a b.
Proof.
  intros (Ha & Hb & [(Hab & ea & eb & Hea & Heb & Ht)|Hrf]); [|by apply tc_once; right].
  assert (a ∈ lane (N.to_nat (thread ea))) as [p Hp]%list_elem_of_lookup_1
    by (apply lane_elem; eauto).
  assert (b ∈ lane (N.to_nat (thread ea))) as [q Hq]%list_elem_of_lookup_1
    by (apply lane_elem; rewrite Ht; eauto).
  pose proof (increasing_lookup _ _ _ _ _ (lane_increasing _) Hp Hq) as Hpq.
  apply (lane_chain (N.to_nat (thread ea)) p (q - p - 1)); [done|].
  by replace (p + S (q - p - 1)) with q by lia.
Qed.

Lemma tc_masked_next a b : tc masked_next a b ↔ tc kept_porf a b.
Proof.
  split; induction 1 as [a b H|a b c H _ IH].
  - by apply tc_once, masked_next_porf.
  - eapply tc_l; [by apply masked_next_porf|done].
  - by apply kept_porf_chain.
  - eapply tc_transitive; [by apply kept_porf_chain|done].
Qed.

(** [append_successors] lists the edges out of a kept event. *)
Lemma masked_successors_Ok a :
  kept mask a → ∃ l, masked_successors m a = Ok l ∧ length l ≤ 2 ∧
    ∀ b, b ∈ l ↔ masked_next a b.
Proof.
  intros Hk. destruct (kept_event g mask Hlen a Hk) as [e He].
  pose proof (lookup_lt_Some _ _ _ He) as Hlt.
  destruct Hm as [Hg _ _ [Hth Hpl Hpos _] _ _ [Hcl Hc] Hex _].
  assert (a ∈ lane (N.to_nat (thread e))) as [p Hp]%list_elem_of_lookup_1
    by (apply lane_elem; eauto).
  assert (kept_position_in_thread m !! a = Some (Some p)) as Hpa by (apply Hpos; eauto).
  destruct (lookup_lt_is_Some_2 (rf_consumer m) a) as [c Hca]; [by rewrite Hcl|].
  unfold masked_successors. rewrite Hg, (event_Ok _ _ _ He). simpl.
  rewrite (vec_get_Ok _ _ _ Hpa). simpl. rewrite (vec_get_Ok _ _ _ Hca). simpl.
  rewrite Hex. simpl. rewrite app_nil_r. eexists. split; [done|].
  specialize (Hth (N.to_nat (thread e))).
  assert (∃ ls, kept_events_by_thread m !! N.to_nat (thread e) = Some ls) as [ls Hls].
  { destruct (kept_events_by_thread m !! _) as [ls|]; [eauto|]. simpl in Hth. by rewrite <-Hth in Hp. }
  rewrite Hls in *. simpl in Hth. subst ls. split.
  { destruct (lane _ !! (p + 1)), c; simpl; lia. }
  intros b. rewrite elem_of_app. unfold masked_next. rewrite <-(Hc a b), Hca.
  assert (∀ o : option EventId, b ∈ match o with Some x => [x] | None => [] end ↔ o = Some b) as Ho.
  { intros [x|]; set_solver. }
  rewrite !Ho. split.
  - intros [Hb| ->]; [left; by exists e, p|by right].
  - intros [(e' & p' & He' & Hp' & Hb)|[= ->]]; [left|by right].
    rewrite He in He'. injection He' as <-.
    pose proof (increasing_lookup _ _ _ _ _ (lane_increasing _) Hp Hp').
    pose proof (increasing_lookup _ _ _ _ _ (lane_increasing _) Hp' Hp).
    by replace p with p' by lia.
Qed.

(** *** The worklist *)

Definition marked (reachable : list bool) (x : EventId) : Prop := reachable !! x = Some true.

(** The events still to be marked. *)
Definition unmarked (reachable : list bool) : nat := length (List.filter negb reachable).

Lemma unmarked_mark reachable x :
  reachable !! x = Some false → unmarked reachable = S (unmarked (<[x := true]> reachable)).
Proof.
  unfold unmarked. revert x. induction reachable as [|b l IH]; intros [|x]; simpl; try done.
  - by intros [= ->].
  - intros Hx. pose proof (IH x Hx). destruct b; simpl; lia.
Qed.

Record reach_inv (from : EventId) (st : ReachState) : Prop := {
  ri_length : length (rs_reachable st) = event_count g;
  ri_cursor : rs_cursor st ≤ length (rs_pending st);
  ri_sound : ∀ x, x ∈ rs_pending st → tc masked_next from x;
  ri_done : ∀ x, x ∈ take (rs_cursor st) (rs_pending st) ↔ marked (rs_reachable st) x;
  ri_closed : ∀ x y, x = from ∨ marked (rs_reachable st) x → masked_next x y →
    y ∈ rs_pending st;
}.

Lemma tc_next_kept a b : tc masked_next a b → kept mask b.
Proof. induction 1 as [a b H|]; [|done]. by apply masked_next_porf in H as (_ & ? & _). Qed.

Definition reach_measure (st : ReachState) : nat :=
  unmarked (rs_reachable st) * 2 + (length (rs_pending st) - rs_cursor st).

Lemma reach_step_Ok from st :
  reach_inv from st → ∃ res, reach_step m st = Ok res ∧
    match res with
    | inl st' => reach_inv from st' ∧ reach_measure st' < reach_measure st
    | inr reachable => length reachable = event_count g ∧
        ∀ x, marked reachable x ↔ tc masked_next from x
    end.
Proof.
  intros [Hl Hcur Hsound Hdone Hclosed]. unfold reach_step, reach_measure.
  destruct (decide (rs_cursor st < length (rs_pending st))) as [Hc|Hc].
  2:{ eexists. split; [done|]. simpl. rewrite firstn_all2 in Hdone by lia. split; [done|].
      intros x. rewrite <-Hdone. split; [apply Hsound|].
      assert (∀ a, tc masked_next a x → a = from ∨ marked (rs_reachable st) a → x ∈ rs_pending st)
        as Hcl; [|intros Htc; by apply (Hcl from); [|left]].
      intros a. induction 1 as [a b Hab|a b c Hab _ IH]; intros Ha; [by eapply Hclosed|].
      apply IH. right. by eapply Hdone, Hclosed. }
  destruct (lookup_lt_is_Some_2 _ _ Hc) as [x Hx].
  pose proof (Hsound x (list_elem_of_lookup_2 _ _ _ Hx)) as Hfrom.
  pose proof (tc_next_kept _ _ Hfrom) as Hkx. pose proof (lookup_lt_Some _ _ _ Hkx) as Hlt.
  rewrite (vec_get_Ok _ _ _ Hx). simpl.
  destruct (lookup_lt_is_Some_2 (rs_reachable st) x) as [seen Hseen]; [lia|].
  rewrite (vec_get_Ok _ _ _ Hseen). simpl. destruct seen.
  - eexists. split; [done|]. split; [|simpl; lia]. split; simpl; [done|lia|done| |done].
    intros y. rewrite (take_S_r _ _ _ Hx), elem_of_app, list_elem_of_singleton, Hdone.
    split; [by intros [?| ->]|by left].
  - rewrite vec_set_Ok by lia. simpl. destruct (masked_successors_Ok x Hkx) as (succs & -> & Hn & Hs).
    simpl. eexists. split; [done|]. rewrite (unmarked_mark _ _ Hseen). split.
    2:{ simpl. rewrite length_app. lia. }
    assert (∀ y, marked (<[x := true]> (rs_reachable st)) y ↔ y = x ∨ marked (rs_reachable st) y) as Hmk.
    { intros y. unfold marked. destruct (decide (y = x)) as [->|Hne].
      - rewrite list_lookup_insert_eq by lia. split; [by left|done].
      - rewrite list_lookup_insert_ne by done. split; [by right|]. by intros [?|?]. }
    split; simpl.
    + by rewrite length_insert.
    + rewrite length_app. lia.
    + intros y [Hy|Hy%Hs]%elem_of_app; [by apply Hsound|]. by eapply tc_r.
    + intros y. rewrite Hmk, <-Hdone. rewrite take_app_le by lia.
      rewrite (take_S_r _ _ _ Hx), elem_of_app, list_elem_of_singleton. tauto.
    + intros y z Hy Hyz. apply elem_of_app. rewrite Hmk in Hy.
      destruct Hy as [->|[->|Hy]]; [left; eapply Hclosed; eauto|right; by apply Hs|].
      left. eapply Hclosed; eauto.
Qed.

(** The reachability mask is causality from the event, along kept events. *)
Lemma reachable_from_Ok from :
  kept mask from → ∃ reachable, reachable_from m from = Ok reachable ∧
    length reachable = event_count g ∧ ∀ x, marked reachable x ↔ tc kept_porf from x.
Proof.
  intros Hk. unfold reachable_from. pose proof Hm as [Hg Hkeep _ _ _ _ _ Hex _].
  destruct (kept_event g mask Hlen from Hk) as [e He]. pose proof (lookup_lt_Some _ _ _ He) as Hlt.
  assert (ExplorationGraph.is_valid_event_id (mk_graph m) from = true) as ->.
  { rewrite Hg. by apply bool_decide_eq_true. }
  unfold keeps. rewrite Hkeep, (proj2 (mask_keeps_true mask from) Hk). simpl.
  destruct (masked_successors_Ok from Hk) as (l & -> & Hn & Hl). simpl.
  destruct (while_total nontermination (reach_step m) (reach_inv from) reach_measure
    (λ reachable, length reachable = event_count g ∧ ∀ x, marked reachable x ↔ tc masked_next from x)
    (reach_step_Ok from) (reach_fuel m)
    (MkReachState (replicate (event_count (mk_graph m)) false) l 0)) as (reachable & -> & Hr & Hiff).
  - rewrite Hg. split; simpl.
    + apply length_replicate.
    + lia.
    + intros x Hx%Hl. by apply tc_once.
    + intros x. split; [set_solver|]. by intros [? _]%lookup_replicate.
    + intros x y [->|Hx] Hy; [by apply Hl|]. by apply lookup_replicate in Hx as [? _].
  - unfold reach_measure, reach_fuel. simpl. rewrite Hg, Hex. simpl.
    assert (unmarked (replicate (event_count g) false) = event_count g) as ->; [|lia].
    unfold unmarked. generalize (event_count g). induction n; simpl; congruence.
  - exists reachable. split; [done|]. split; [done|]. intros x. by rewrite Hiff, tc_masked_next.
Qed.

End reachability.

(** ** The FIFO clauses *)

Section fifo.
Context {V : Type} (g : ExplorationGraph V) (mask : list bool) (m : MaskedPorfContext V).
Context (Hlen : length mask = event_count g) (Hm : tables g mask true m)
  (Htotal : total_events (events g)) (Hcore : Core g).
Context (E : EventId → EventId → Prop) (consumers : list (option EventId))
  (Hcons : reader_table g E consumers)
  (Hvalid : ∀ s r, E s r → ∃ e sl er rl, events g !! s = Some e ∧ as_send e = Some sl ∧
     events g !! r = Some er ∧ as_receive er = Some rl ∧ destination sl = thread er)
  (Hfun : ∀ s s' r, E s r → E s' r → s = s').

Abbreviation es := (events g).

(** An earlier and a later kept send of one channel. *)
Definition channel_pair (s1 s2 : EventId) : Prop :=
  kept mask s1 ∧ kept mask s2 ∧ po es s1 s2 ∧
  ∃ e1 e2 sl1 sl2, es !! s1 = Some e1 ∧ as_send e1 = Some sl1 ∧
    es !! s2 = Some e2 ∧ as_send e2 = Some sl2 ∧ destination sl1 = destination sl2.

Lemma channel_kept_elem k id :
  id ∈ channel_kept g (kept_ids mask) k ↔
    kept mask id ∧ ∃ e, es !! id = Some e ∧ on_channel k e = true.
Proof.
  unfold channel_kept, holds_at. rewrite list_elem_of_In, filter_In, <-list_elem_of_In, kept_ids_elem.
  destruct (es !! id) as [e|] eqn:He.
  2:{ split; [by intros [_ ?]|]. by intros (_ & ? & ? & _). }
  apply and_iff_compat_l. split; [eauto|]. by intros (? & [= <-] & ?).
Qed.

Lemma channel_increasing k : StronglySorted lt (channel_kept g (kept_ids mask) k).
Proof. apply increasing_filter, increasing_filter, increasing_seq. Qed.

(** Two positions of one bucket are an earlier and a later send of a channel. *)
Lemma channel_pair_bucket s1 s2 :
  channel_pair s1 s2 ↔ ∃ k l i j, (k, l) ∈ channels m ∧ l !! i = Some s1 ∧ l !! j = Some s2 ∧ i < j.
Proof.
  destruct Hm as [_ _ Hf [_ _ _ Hch] _ _ _ _ _]. destruct (Hch Hf) as [_ Hb]. split.
  - intros (Hk1 & Hk2 & (Hlt & e1' & e2' & He1' & He2' & Ht) &
      e1 & e2 & sl1 & sl2 & He1 & Hs1 & He2 & Hs2 & Hd).
    assert (e1' = e1) as -> by congruence. assert (e2' = e2) as -> by congruence.
    set (k := (thread e1, destination sl1)).
    assert (s1 ∈ channel_kept g (kept_ids mask) k) as [i Hi]%list_elem_of_lookup_1.
    { apply channel_kept_elem. split; [done|]. exists e1. split; [done|]. apply on_channel_true. eauto. }
    assert (s2 ∈ channel_kept g (kept_ids mask) k) as [j Hj]%list_elem_of_lookup_1.
    { apply channel_kept_elem. split; [done|]. exists e2. split; [done|]. apply on_channel_true.
      exists sl2. split; [done|]. unfold k. congruence. }
    exists k, (channel_kept g (kept_ids mask) k), i, j. split_and!; [|done|done|].
    + apply Hb. split; [done|]. by intros H; rewrite H in Hi.
    + by apply (increasing_lookup _ _ _ _ _ (channel_increasing k) Hi Hj).
  - intros (k & l & i & j & [-> _]%Hb & Hi & Hj & Hij).
    apply (increasing_lookup _ _ _ _ _ (channel_increasing k) Hi Hj) in Hij.
    apply list_elem_of_lookup_2, channel_kept_elem in Hi as (Hk1 & e1 & He1 & (sl1 & Hs1 & ->)%on_channel_true).
    apply list_elem_of_lookup_2, channel_kept_elem in Hj as (Hk2 & e2 & He2 & (sl2 & Hs2 & [= Ht Hd])%on_channel_true).
    split_and!; [done|done| |by exists e1, e2, sl1, sl2]. split; [done|]. by exists e1, e2.
Qed.

(** The loops of both clauses: every later send that has a reader is compared with the
    earlier sends of its channel. *)
Lemma clause_loop (hit : Event V → ReceiveLabel V → EventId → res bool)
    (H : EventId → ReceiveLabel V → EventId → Prop) :
  (∀ r er rl s1, es !! r = Some er → as_receive er = Some rl → kept mask s1 →
     ∃ b, hit er rl s1 = Ok b ∧ (b = true ↔ H r rl s1)) →
  ∃ b, existsM (λ channel : Channel * list EventId,
      existsM (λ later : nat * EventId,
        c ← vec_get consumers later.2;
        match c with
        | None => Ok false
        | Some r =>
            er ← ExplorationGraph.event (mk_graph m) r;
            match as_receive er with
            | None => Ok false
            | Some rl => existsM (hit er rl) (take later.1 channel.2)
            end
        end) (imap pair channel.2)) (channels m) = Ok b ∧
    (b = true ↔ ∃ s1 s2 r er rl, channel_pair s1 s2 ∧ E s2 r ∧ es !! r = Some er ∧
       as_receive er = Some rl ∧ H r rl s1).
Proof.
  intros Hhit. pose proof (tb_graph _ _ _ _ Hm) as Hg.
  assert (∀ k l id, (k, l) ∈ channels m → id ∈ l → kept mask id) as Hkept.
  { intros k l id Hkl Hid. pose proof (tb_events _ _ _ _ Hm) as [_ _ _ Hch].
    destruct (Hch (tb_fifo _ _ _ _ Hm)) as [_ Hb]. apply Hb in Hkl as [-> _].
    by apply channel_kept_elem in Hid as [? _]. }
  match goal with |- ∃ b, existsM ?p _ = _ ∧ _ => set (test := p) end.
  destruct (existsM_spec test (λ channel, ∃ jl, jl ∈ imap pair channel.2 ∧
       ∃ r er rl s1, E jl.2 r ∧ es !! r = Some er ∧ as_receive er = Some rl ∧
         s1 ∈ take jl.1 channel.2 ∧ H r rl s1) (channels m)) as (b & Hb & Hiff).
  - intros [k l] Hkl. unfold test. apply existsM_spec. intros [j s2] Hj%imap_pair_elem. simpl in *.
    pose proof (Hkept k l s2 Hkl (list_elem_of_lookup_2 _ _ _ Hj)) as Hk2.
    destruct (kept_event g mask Hlen s2 Hk2) as [e2 He2]. pose proof (lookup_lt_Some _ _ _ He2) as Hlt.
    destruct Hcons as [Hcl Hct]. destruct (lookup_lt_is_Some_2 consumers s2) as [c Hc]; [by rewrite Hcl|].
    rewrite (vec_get_Ok _ _ _ Hc). simpl. destruct c as [r|].
    2:{ exists false. split; [done|]. split; [done|]. intros (r & er & rl & s1 & Hr & _).
        apply Hct in Hr. congruence. }
    apply Hct in Hc. destruct (Hvalid _ _ Hc) as (_ & _ & er & rl & _ & _ & Her & Hrl & _).
    rewrite Hg, (event_Ok _ _ _ Her). simpl. rewrite Hrl.
    destruct (existsM_spec (hit er rl) (H r rl) (take j l)) as (b & Hb & Hiff).
    + intros s1 (i & Hi & Hs1)%elem_of_take_lt. apply Hhit; [done..|].
      by apply (Hkept k l), list_elem_of_lookup_2 with i.
    + exists b. split; [done|]. rewrite Hiff. split.
      * intros (s1 & Hs1 & Hh). by exists r, er, rl, s1.
      * intros (r' & er' & rl' & s1 & Hr' & Her' & Hrl' & Hs1 & Hh). apply Hct in Hc, Hr'.
        assert (r' = r) as -> by congruence. assert (rl' = rl) as -> by congruence. eauto.
  - exists b. split; [done|]. rewrite Hiff. setoid_rewrite channel_pair_bucket. split.
    + intros ([k l] & Hkl & [j s2] & Hj%imap_pair_elem & r & er & rl & s1 & Hr & Her & Hrl & Hs1 & Hh).
      simpl in *. apply elem_of_take_lt in Hs1 as (i & Hi & Hs1).
      exists s1, s2, r, er, rl. split_and!; [|done..]. by exists k, l, i, j.
    + intros (s1 & s2 & r & er & rl & (k & l & i & j & Hkl & Hi & Hj & Hij) & Hr & Her & Hrl & Hh).
      exists (k, l). split; [done|]. exists (j, s2). split.
      * apply elem_of_lookup_imap. by exists j, s2.
      * exists r, er, rl, s1. split_and!; [done..| |done]. simpl. apply elem_of_take_lt. eauto.
Qed.


Abbreviation takes rl s := (accepts_send (graph_ g) rl s = true).

(** Clause (b): an earlier send the reader accepts is read by no one. *)
Lemma masked_clause_b_Ok :
  ∃ b, fifo_clause_b_violated m consumers = Ok b ∧
    (b = true ↔ ∃ s1 s2 r er rl, channel_pair s1 s2 ∧ E s2 r ∧ es !! r = Some er ∧
       as_receive er = Some rl ∧ takes rl s1 ∧ ∀ r', ¬ E s1 r').
Proof.
  apply (clause_loop (λ _ rl, masked_clause_b_hit m consumers rl)).
  intros r er rl s1 Her Hrl Hk. destruct (kept_event g mask Hlen s1 Hk) as [e He].
  pose proof (lookup_lt_Some _ _ _ He) as Hlt. destruct Hcons as [Hcl Hct].
  destruct (lookup_lt_is_Some_2 consumers s1) as [c Hc]; [by rewrite Hcl|].
  unfold masked_clause_b_hit. rewrite (vec_get_Ok _ _ _ Hc). simpl. destruct c as [r'|].
  - exists false. split; [done|]. split; [done|]. intros [_ Hno]. by destruct (Hno r'); apply Hct.
  - assert (∀ r', ¬ E s1 r') as Hno by (intros r' Hr'%Hct; congruence).
    rewrite (tb_graph _ _ _ _ Hm), (event_Ok _ _ _ He). simpl.
    unfold accepts_send. fold (events g). rewrite He. simpl. 
    destruct (as_send e) as [sl|]; [|exists false; split; [done|]; split; [done|]; by intros [? _]].
    rewrite (as_receive_total _ _ _ _ (value sl) Htotal Her Hrl). eexists. split; [done|]. tauto.
Qed.

(** Clause (c): an earlier send the reader accepts is read later by the same thread. *)
Lemma masked_clause_c_Ok :
  ∃ b, fifo_clause_c_violated m consumers = Ok b ∧
    (b = true ↔ ∃ s1 s2 r er rl, channel_pair s1 s2 ∧ E s2 r ∧ es !! r = Some er ∧
       as_receive er = Some rl ∧ takes rl s1 ∧ ∃ r', E s1 r' ∧ po es r r').
Proof.
  apply (clause_loop (λ er rl, masked_clause_c_hit m consumers er rl)).
  intros r er rl s1 Her Hrl Hk. destruct (kept_event g mask Hlen s1 Hk) as [e He].
  pose proof (lookup_lt_Some _ _ _ He) as Hlt. destruct Hcons as [Hcl Hct].
  destruct (lookup_lt_is_Some_2 consumers s1) as [c Hc]; [by rewrite Hcl|].
  unfold masked_clause_c_hit. rewrite (vec_get_Ok _ _ _ Hc). simpl. destruct c as [r'|].
  2:{ exists false. split; [done|]. split; [done|]. intros (_ & r' & Hr'%Hct & _). congruence. }
  apply Hct in Hc. destruct (Hvalid _ _ Hc) as (_ & _ & lr & _ & _ & _ & Hlr & _ & _).
  rewrite (tb_graph _ _ _ _ Hm), (event_Ok _ _ _ Hlr). simpl.
  pose proof (index_po (graph_ g) (core_graph _ Hcore) consumers Hcl r r' er lr Her Hlr) as Hpo.
  assert (∀ r'', E s1 r'' → r'' = r') as Huniq by (intros r'' Hr''; apply Hct in Hr'', Hc; congruence).
  destruct (decide (thread lr ≠ thread er ∨ (index lr ≤ index er)%N)) as [Hord|Hord].
  { exists false. split; [done|]. split; [done|]. intros (_ & r'' & Hr''%Huniq & Hp). subst r''.
    by apply Hpo in Hp. }
  rewrite (event_Ok _ _ _ He). simpl. unfold accepts_send. fold (events g). rewrite He. simpl.
  destruct (as_send e) as [sl|]; [|exists false; split; [done|]; split; [done|]; by intros [? _]].
  rewrite (as_receive_total _ _ _ _ (value sl) Htotal Her Hrl). eexists. split; [done|].
  split; [|by intros [? _]]. intros Ht. split; [done|]. exists r'. split; [done|]. by apply Hpo.
Qed.

(** Every reader of a channel reads it in order. *)
Definition kept_fifo : Prop :=
  ∀ s1 s2 r2 er2 rl, channel_pair s1 s2 → E s2 r2 → es !! r2 = Some er2 →
    as_receive er2 = Some rl → takes rl s1 → ∃ r1, E s1 r1 ∧ po es r1 r2.

(** Readers of two sends of one channel are in program order. *)
Lemma kept_readers_ordered s1 s2 r1 r2 :
  channel_pair s1 s2 → E s1 r1 → E s2 r2 → po es r1 r2 ∨ po es r2 r1.
Proof.
  intros (_ & _ & [Hlt _] & e1 & e2 & sl1 & sl2 & He1 & Hs1 & He2 & Hs2 & Hd) H1 H2.
  destruct (Hvalid _ _ H1) as (e1' & sl1' & er1 & rl1 & He1' & Hs1' & Her1 & _ & Hd1).
  destruct (Hvalid _ _ H2) as (e2' & sl2' & er2 & rl2 & He2' & Hs2' & Her2 & _ & Hd2).
  assert (thread er1 = thread er2) as Ht by congruence.
  destruct (decide (r1 < r2)); [left; split; [done|]; by exists er1, er2|].
  destruct (decide (r1 = r2)) as [->|]; [pose proof (Hfun _ _ _ H1 H2); lia|].
  right. split; [lia|]. by exists er2, er1.
Qed.

Lemma masked_clauses_Ok :
  ∃ b, (b ← fifo_clause_b_violated m consumers;
        if (b : bool) then Ok true else fifo_clause_c_violated m consumers) = Ok b ∧
    (b = false ↔ kept_fifo).
Proof.
  destruct masked_clause_b_Ok as (b & -> & Hb). destruct masked_clause_c_Ok as (c & -> & Hc). simpl.
  exists (b || c). split; [by destruct b|]. pose proof Hcons as [Hcl Hct]. rewrite orb_false_iff. split.
  - intros [-> ->] s1 s2 r2 er2 rl Hp Hr2 Her2 Hrl Ht.
    destruct (kept_event g mask Hlen s1) as [e1 He1]; [by destruct Hp|].
    pose proof (lookup_lt_Some _ _ _ He1) as Hlt.
    destruct (lookup_lt_is_Some_2 consumers s1) as [[r1|] Hr1]; [by rewrite Hcl| |].
    + apply Hct in Hr1. exists r1. split; [done|].
      destruct (kept_readers_ordered s1 s2 r1 r2 Hp Hr1 Hr2) as [?|Hpo]; [done|].
      enough (false = true) by done. apply Hc. exists s1, s2, r2, er2, rl. eauto 10.
    + enough (false = true) by done. apply Hb. exists s1, s2, r2, er2, rl. split_and!; try done.
      intros r' Hr'%Hct. congruence.
  - intros Hfifo. rewrite <-!not_true_iff_false, Hb, Hc. split.
    + intros (s1 & s2 & r & er & rl & Hp & Hr & Her & Hrl & Ht & Hno).
      destruct (Hfifo s1 s2 r er rl) as (r1 & Hr1 & _); [done..|]. by apply Hno in Hr1.
    + intros (s1 & s2 & r & er & rl & Hp & Hr & Her & Hrl & Ht & r' & Hr' & Hlt & _).
      destruct (Hfifo s1 s2 r er rl) as (r1 & Hr1 & Hlt' & _); [done..|].
      assert (r1 = r') as -> by (apply Hct in Hr1, Hr'; congruence). lia.
Qed.

End fifo.

(** ** The rewritten consumer table *)

Section rewrite.
Context {V : Type} (g : ExplorationGraph V) (mask : list bool) (recv : EventId).
Context (Hrc : rf_consistent (events g) (reads_from g) no_missing_reads_tolerance).

(** The kept edges once [recv] reads from [s]. *)
Definition kept_rewired (s a b : EventId) : Prop :=
  (b = recv ∧ a = s) ∨ (b ≠ recv ∧ kept_edge g mask a b).

Lemma kept_edge_once s r r' : kept_edge g mask s r → kept_edge g mask s r' → r = r'.
Proof. intros (_ & _ & H) (_ & _ & H'). by apply (rc_once _ _ _ Hrc s). Qed.

Lemma rewritten_consumers_Ok fifo m current s :
  tables g mask fifo m → fifo = true → s < event_count g → kept_edge g mask current recv →
  (∀ r, kept_edge g mask s r → r = recv) →
  ∃ cs, rewritten_consumers m recv s current = Ok cs ∧ reader_table g (kept_rewired s) cs.
Proof.
  intros Hm Hfifo Hs Hcur Hav. destruct (tb_fifo_consumer _ _ _ _ Hm Hfifo) as [Hl Ht].
  assert (current < event_count g) as Hc.
  { pose proof (proj2 (Ht current recv) Hcur) as H%lookup_lt_Some. by rewrite Hl in H. }
  unfold rewritten_consumers.
  assert (∃ cs, (if decide (current ≠ s) then vec_set (fifo_consumer m) current None
                 else Ok (fifo_consumer m)) = Ok cs ∧ length cs = event_count g ∧
          ∀ a b, a ≠ s → cs !! a = Some (Some b) ↔ b ≠ recv ∧ kept_edge g mask a b)
    as (cs & -> & Hcl & Hcs).
  { destruct (decide (current ≠ s)) as [Hne|He].
    - rewrite vec_set_Ok by lia. eexists. split; [done|]. rewrite length_insert. split; [done|].
      intros a b Ha. destruct (decide (a = current)) as [->|Hac].
      + rewrite list_lookup_insert_eq by lia. split; [done|]. intros [Hb Hab].
        by destruct Hb; apply (kept_edge_once current).
      + rewrite list_lookup_insert_ne by done. rewrite Ht. split; [|by intros [_ ?]]. intros Hab.
        split; [|done]. intros ->. apply Hac. destruct Hab as (_ & _ & Hab), Hcur as (_ & _ & Hcur).
        by eapply rf_edge_fun.
    - apply dec_stable in He. subst s. eexists. split; [done|]. split; [done|]. intros a b Ha.
      rewrite Ht. split; [|by intros [_ ?]]. intros Hab. split; [|done]. intros ->. apply Ha.
      destruct Hab as (_ & _ & Hab), Hcur as (_ & _ & Hcur). by eapply rf_edge_fun. }
  simpl. rewrite vec_set_Ok by lia. eexists. split; [done|]. split; [by rewrite length_insert|].
  intros a b. unfold kept_rewired. destruct (decide (a = s)) as [->|Hne].
  - rewrite list_lookup_insert_eq by lia. split; [intros [= ->]; by left|].
    intros [[-> _]|[Hb Hab%Hav]]; done.
  - rewrite list_lookup_insert_ne by done. rewrite Hcs by done. split; [by right|].
    by intros [[_ ?]|?].
Qed.

Lemma fifo_rewrite_violates_Ok m current s er rl e sl :
  tables g mask true m → length mask = event_count g → total_events (events g) → Core g →
  kept_edge g mask current recv → (∀ r, kept_edge g mask s r → r = recv) →
  events g !! recv = Some er → as_receive er = Some rl →
  events g !! s = Some e → as_send e = Some sl → destination sl = thread er →
  ∃ b, fifo_rewrite_violates m recv s current = Ok b ∧
    (b = false ↔ kept_fifo g mask (kept_rewired s)).
Proof.
  intros Hm Hlen Htot Hcore Hcur Hav Her Hrl He Hsl Hd. pose proof (lookup_lt_Some _ _ _ He) as Hs.
  destruct (rewritten_consumers_Ok true m current s Hm eq_refl Hs Hcur Hav) as (cs & Hrun & Hcs).
  unfold fifo_rewrite_violates. rewrite Hrun. simpl.
  apply (masked_clauses_Ok g mask m Hlen Hm Htot Hcore (kept_rewired s) cs Hcs).
  - intros a b [[-> ->]|[_ (_ & _ & src & Hsrc & Ha)]]; [by exists e, sl, er, rl|].
    destruct (rc_entries _ _ _ Hrc b src Hsrc) as (er' & rl' & Her' & Hrl' & H). simpl in *.
    rewrite Ha in H. destruct H as (e' & sl' & He' & Hsl' & Hd' & _). by exists e', sl', er', rl'.
  - intros a a' b [[-> ->]|[Hb (_ & _ & H)]] [[? ->]|[? (_ & _ & H')]]; [done..|].
    by eapply rf_edge_fun.
Qed.

End rewrite.

(** ** The restricted graph *)

Section restricted.
Context {V : Type} (model : CommunicationModel) (g : ExplorationGraph V) (mask : list bool)
  (r : ExplorationGraph V) (Hlen : length mask = event_count g) (Hr : Restricted g mask r)
  (recv recv' current : EventId) (er er' : Event V) (rl : ReceiveLabel V).
Context (Hcons : consistent model (events g) (reads_from g) no_missing_reads_tolerance)
  (Hrecv : kept_ids mask !! recv' = Some recv)
  (Her : events g !! recv = Some er) (Hrl : as_receive er = Some rl)
  (Her' : events r !! recv' = Some er') (Hth : thread er' = thread er)
  (Hrl' : as_receive er' = Some rl).

Abbreviation renames new old := (kept_ids mask !! new = Some old).

Lemma renames_kept new old : renames new old → kept mask old.
Proof. by intros H%list_elem_of_lookup_2%kept_ids_elem. Qed.

Lemma kept_renamed old : kept mask old → ∃ new, renames new old.
Proof. intros H%kept_ids_elem. by apply list_elem_of_lookup_1 in H. Qed.

(** A send the masked view offers to [recv]. *)
Definition kept_available (s : EventId) : Prop :=
  kept mask s ∧ compatible (events g) er rl s = true ∧ ∀ x, kept_edge g mask s x → x = recv.

Lemma restricted_edge a b :
  rf_edge (reads_from r) a b ↔ ∃ oa ob, renames a oa ∧ renames b ob ∧ kept_edge g mask oa ob.
Proof.
  rewrite (remapped_rf_edge mask (reads_from g)) by apply Hr. split.
  - intros (oa & ob & Ha & Hb & H). exists oa, ob. split_and!; [done..|].
    split_and!; [by eapply renames_kept..|done].
  - intros (oa & ob & Ha & Hb & _ & _ & H). eauto.
Qed.

Lemma restricted_edge_at a b oa ob :
  renames a oa → renames b ob → rf_edge (reads_from r) a b ↔ kept_edge g mask oa ob.
Proof.
  intros Ha Hb. rewrite restricted_edge. split; [|eauto].
  intros (oa' & ob' & Ha' & Hb' & H). congruence.
Qed.

Lemma available_restricted s' s :
  renames s' s →
  available (events r) (reads_from r) recv' er' rl s' ↔ kept_available s.
Proof.
  intros Hs. unfold kept_available. rewrite compatible_spec. split.
  - intros (e' & sl & He' & Hsl & Hd & Ha & Hu). split; [by eapply renames_kept|]. split.
    + destruct (restricted_event_inv g mask r s' e' Hr He') as (s0 & e & Hs0 & He & _ & Hlab).
      assert (s0 = s) as -> by congruence. exists e, sl. split_and!; [done| |congruence|done].
      apply as_send_Some in Hsl. apply as_send_Some. congruence.
    + intros x Hx. destruct (kept_renamed x) as [x' Hx']; [by destruct Hx as (_ & ? & _)|].
      assert (x' = recv') as -> by (apply Hu; by apply (restricted_edge_at s' x' s x)). congruence.
  - intros (Hk & (e & sl & He & Hsl & Hd & Ha) & Hu).
    destruct (restricted_event g mask r s s' e Hr Hs He) as (e' & He' & _ & Hlab).
    exists e', sl. split_and!; [done| |congruence|done|].
    + apply as_send_Some in Hsl. apply as_send_Some. congruence.
    + intros x' (s0 & x & Hs0 & Hx' & Hx)%restricted_edge. assert (s0 = s) as -> by congruence.
      apply Hu in Hx. subst x. by apply (kept_ids_inj mask _ _ recv).
Qed.

Lemma causes_restricted a b oa ob :
  renames a oa → renames b ob →
  tc (porf (events r) (reads_from r)) a b ↔ tc (kept_porf g mask) oa ob.
Proof.
  intros Ha Hb.
  assert (∀ x y ox oy, renames x ox → renames y oy →
    porf (events r) (reads_from r) x y ↔ kept_porf g mask ox oy) as Hstep.
  { intros x y ox oy Hx Hy. rewrite (restricted_porf g mask r x y Hr). split.
    - intros (ox' & oy' & Hx' & Hy' & H). assert (ox' = ox) as -> by congruence.
      assert (oy' = oy) as -> by congruence. split_and!; [by eapply renames_kept..|done].
    - intros (_ & _ & H). eauto. }
  split.
  - intros Htc. revert oa Ha. induction Htc as [x y H|x y z H _ IH]; intros ox Hx.
    + apply tc_once. by apply (Hstep x y).
    + pose proof H as (_ & oy & _ & Hy & _)%(restricted_porf g mask r x y Hr).
      eapply tc_l; [by apply (Hstep x y)|]. by apply IH.
  - intros Htc. revert a Ha. induction Htc as [x y H|x y z H _ IH]; intros x' Hx.
    + apply tc_once. by apply (Hstep x' b x y).
    + destruct (kept_renamed y) as [y' Hy]; [by destruct H as (_ & ? & _)|].
      eapply tc_l; [by apply (Hstep x' y' x y)|]. by apply IH.
Qed.

Lemma rewired_restricted s' s a b oa ob :
  renames s' s → renames a oa → renames b ob →
  rf_edge (rewired (reads_from r) recv' s') a b ↔ kept_rewired g mask recv s oa ob.
Proof.
  intros Hs Ha Hb. rewrite rewired_edge, (restricted_edge_at a b oa ob) by done.
  assert (∀ x' y' x y, renames x' x → renames y' y → x' = y' ↔ x = y) as Heq.
  { intros x' y' x y Hx Hy. split; [intros ->; congruence|intros ->; by eapply kept_ids_inj]. }
  unfold kept_rewired. by rewrite (Heq b recv' ob recv), (Heq a s' oa s) by done.
Qed.

Lemma restricted_po a b oa ob :
  renames a oa → renames b ob → po (events r) a b ↔ po (events g) oa ob.
Proof.
  intros Ha Hb. rewrite (copies_po (events g) _ mask (events r) a b eq_refl (rs_events _ _ _ Hr)).
  split; [|eauto]. intros (oa' & ob' & Ha' & Hb' & H). congruence.
Qed.

(** The FIFO clause of the restricted graph is the clause of the masked view. *)
Lemma fifo_restricted s' s :
  renames s' s →
  fifo_ok (events r) (rewired (reads_from r) recv' s') ↔
  kept_fifo g mask (kept_rewired g mask recv s).
Proof.
  intros Hs. split.
  - intros Hf s1 s2 r2 er2 rl2 (Hk1 & Hk2 & Hpo & e1 & e2 & sl1 & sl2 & He1 & Hs1 & He2 & Hs2 & Hd)
      HE Her2 Hrl2 Ha.
    destruct (kept_renamed s1 Hk1) as [n1 Hn1]. destruct (kept_renamed s2 Hk2) as [n2 Hn2].
    assert (kept mask r2) as [n Hn]%kept_renamed.
    { destruct HE as [[-> _]|[_ (_ & ? & _)]]; [by eapply renames_kept|done]. }
    destruct (restricted_event g mask r _ _ _ Hr Hn1 He1) as (e1' & He1' & _ & Hl1).
    destruct (restricted_event g mask r _ _ _ Hr Hn2 He2) as (e2' & He2' & _ & Hl2).
    destruct (restricted_event g mask r _ _ _ Hr Hn Her2) as (er2' & Her2' & _ & Hlr).
    apply as_send_Some in Hs1, Hs2. apply as_receive_Some in Hrl2.
    destruct (Hf n1 n2 e1' e2' sl1 sl2 n er2' rl2) as (n0 & Hn0 & Hpo0); try done.
    + by apply (restricted_po n1 n2 s1 s2).
    + apply as_send_Some. congruence.
    + apply as_send_Some. congruence.
    + by apply (rewired_restricted s' s n2 n s2 r2).
    + apply as_receive_Some. congruence.
    + unfold accepts_send in Ha. fold (events g) in Ha. rewrite He1 in Ha. simpl in Ha.
      apply as_send_Some in Hs1. by rewrite Hs1 in Ha.
    + pose proof Hpo0 as (o0 & _ & Ho0 & _ & _)%(copies_po (events g) _ mask (events r) _ _ eq_refl (rs_events _ _ _ Hr)).
      exists o0. split; [by apply (rewired_restricted s' s n1 n0 s1 o0)|].
      by apply (restricted_po n0 n).
  - intros Hf n1 n2 e1' e2' sl1 sl2 n er2' rl2 Hpo He1' Hs1 He2' Hs2 Hd HE Her2' Hrl2 Ha.
    destruct (restricted_event_inv g mask r _ _ Hr He1') as (s1 & e1 & Hn1 & He1 & _ & Hl1).
    destruct (restricted_event_inv g mask r _ _ Hr He2') as (s2 & e2 & Hn2 & He2 & _ & Hl2).
    destruct (restricted_event_inv g mask r _ _ Hr Her2') as (r2 & er2 & Hn & Her2 & _ & Hlr).
    apply as_send_Some in Hs1, Hs2. apply as_receive_Some in Hrl2.
    rewrite Hl1 in Hs1. rewrite Hl2 in Hs2. rewrite Hlr in Hrl2.
    apply as_send_Some in Hs1, Hs2. apply as_receive_Some in Hrl2.
    destruct (Hf s1 s2 r2 er2 rl2) as (o0 & Ho0 & Hpo0); try done.
    + split_and!; [by eapply renames_kept..| |by exists e1, e2, sl1, sl2].
      by apply (restricted_po n1 n2).
    + by apply (rewired_restricted s' s n2 n s2 r2).
    + unfold accepts_send. fold (events g). by rewrite He1; simpl; rewrite Hs1.
    + assert (kept mask o0) as [n0 Hn0]%kept_renamed.
      { destruct Ho0 as [[-> _]|[_ (_ & ? & _)]]; [by eapply renames_kept|done]. }
      exists n0. split; [by apply (rewired_restricted s' s n1 n0 s1 o0)|]. by apply (restricted_po n0 n o0 r2).
Qed.

Lemma candidate_restricted a b oa ob :
  renames a oa → renames b ob →
  candidate_le (candidate (events r) a) (candidate (events r) b) ↔
  candidate_le (candidate (events g) oa) (candidate (events g) ob).
Proof.
  intros Ha Hb. destruct (kept_event g mask Hlen oa) as [ea Hea]; [by eapply renames_kept|].
  destruct (kept_event g mask Hlen ob) as [eb Heb]; [by eapply renames_kept|].
  destruct (restricted_event g mask r _ _ _ Hr Ha Hea) as (ea' & Hea' & Hta & _).
  destruct (restricted_event g mask r _ _ _ Hr Hb Heb) as (eb' & Heb' & Htb & _).
  unfold candidate, candidate_le. rewrite Hea, Heb, Hea', Heb'. simpl. rewrite Hta, Htb.
  pose proof (kept_ids_mono mask b a ob oa Hb Ha). apply or_iff_compat_l, and_iff_compat_l. lia.
Qed.

End restricted.

(** ** The masked tiebreaker *)

Section masked_tiebreaker.
Context {V : Type} (model : CommunicationModel) (g : ExplorationGraph V) (mask : list bool)
  (r : ExplorationGraph V) (recv recv' current : EventId) (er er' : Event V)
  (rl : ReceiveLabel V).
Context (Hinv : Inv g) (Htotal : total_events (events g))
  (Hcons : consistent model (events g) (reads_from g) no_missing_reads_tolerance)
  (Hlen : length mask = event_count g)
  (Hclosed : ∀ a b, po (events g) a b → kept mask b → kept mask a)
  (Hr : Restricted g mask r) (Hrecv : kept_ids mask !! recv' = Some recv)
  (Her : events g !! recv = Some er) (Hrl : as_receive er = Some rl)
  (Hblocking : is_nonblocking rl = false)
  (Hsource : rf_find (reads_from g) recv = Some (from_send current)) (Hcur : kept mask current)
  (Her' : events r !! recv' = Some er') (Hth : thread er' = thread er)
  (Hrl' : as_receive er' = Some rl).

Abbreviation offered := (kept_available g mask recv er rl).
Abbreviation fits s :=
  (¬ tc (kept_porf g mask) recv s ∧
   (model = FifoP2P → kept_fifo g mask (kept_rewired g mask recv s))).

Lemma kept_recv : kept mask recv.
Proof. by apply (renames_kept mask recv'). Qed.

Lemma current_edge : kept_edge g mask current recv.
Proof. split_and!; [done|apply kept_recv|]. by exists (from_send current). Qed.

Lemma kept_rewired_current a b : kept_rewired g mask recv current a b ↔ kept_edge g mask a b.
Proof.
  unfold kept_rewired. split; [intros [[-> ->]|[_ ?]]; [apply current_edge|done]|].
  intros Hab. destruct (decide (b = recv)) as [->|]; [left|by right]. split; [done|].
  destruct Hab as (_ & _ & Hab), current_edge as (_ & _ & Hc). by eapply rf_edge_fun.
Qed.

(** Under [FifoP2P], a mask closed under program order keeps channels in order. *)
Lemma kept_fifo_current :
  model = FifoP2P → kept_fifo g mask (kept_rewired g mask recv current).
Proof.
  intros Hm s1 s2 r2 er2 rl2 (Hk1 & Hk2 & Hpo & e1 & e2 & sl1 & sl2 & He1 & Hs1 & He2 & Hs2 & Hd)
    HE Her2 Hrl2 Ha. apply kept_rewired_current in HE as (_ & Hkr & HE).
  pose proof Hcons as (_ & _ & Hfifo).
  destruct (Hfifo Hm s1 s2 e1 e2 sl1 sl2 r2 er2 rl2) as (r1 & Hr1 & Hpo1); try done.
  { unfold accepts_send in Ha. fold (events g) in Ha. rewrite He1 in Ha. simpl in Ha.
    by rewrite Hs1 in Ha. }
  exists r1. split; [|done]. apply kept_rewired_current. split_and!; [done| |done].
  by eapply Hclosed.
Qed.

(** The restricted graph is consistent up to the receives whose source was dropped. *)
Lemma restricted_tolerant :
  consistent model (events r) (reads_from r) (tolerance_of true recv').
Proof.
  pose proof Hcons as (Hrc & Hac & _). destruct (kept_renamed mask current Hcur) as [c' Hc'].
  assert (rf_edge (reads_from r) c' recv') as Hedge.
  { apply (restricted_edge_at g mask r Hr c' recv' current recv); [done..|]. apply current_edge. }
  split_and!.
  - split; [by apply restricted_entries with g mask| |].
    + intros id a b (oid & oa & Hid & Ha & H)%(restricted_edge g mask r Hr)
        (oid' & ob & Hid' & Hb & H')%(restricted_edge g mask r Hr).
      assert (oid' = oid) as -> by congruence.
      assert (oa = ob) as -> by (by eapply kept_edge_once). by eapply kept_ids_inj.
    + intros id e He _ Htol. apply bool_decide_eq_false, dec_stable in Htol. subst id.
      destruct Hedge as (src & Hsrc & _). by exists src.
  - intros a (oa & ob & Ha & Hb & H)%(restricted_tc g mask r _ _ Hr).
    assert (oa = ob) as -> by congruence. by apply (Hac ob).
  - intros Hm. pose proof Hedge as (src & Hsrc & Hs).
    assert (src = from_send c') as -> by (destruct src; simpl in Hs; simplify_eq; done).
    assert (fifo_ok (events r) (rewired (reads_from r) recv' c')) as Hf.
    { apply (fifo_restricted g mask r Hr recv recv' Hrecv c' current Hc'). by apply kept_fifo_current. }
    intros s1 s2 e1 e2 sl1 sl2 r2 er2 rl2 H1 H2 H3 H4 H5 H6 H7 H8 H9 H10.
    rewrite <-(rewired_current (events r) (reads_from r) recv' er' Her' c' Hsrc) in H7.
    destruct (Hf s1 s2 e1 e2 sl1 sl2 r2 er2 rl2) as (r1 & Hr1 & Hpo); [done..|].
    exists r1. split; [|done]. by rewrite <-(rewired_current (events r) (reads_from r) recv' er' Her' c' Hsrc).
Qed.

Context (m : MaskedPorfContext V) (Hm : tables g mask (bool_decide (model = FifoP2P)) m).

Lemma send_is_unread_Ok s :
  s < event_count g → ∃ b, send_is_unread m s = Ok b ∧
    (b = true ↔ kept mask s ∧ ∀ x, ¬ kept_edge g mask s x).
Proof.
  intros Hs. unfold send_is_unread, keeps. rewrite (tb_keep _ _ _ _ Hm).
  destruct (mask_keeps mask s) eqn:Hk.
  - apply mask_keeps_true in Hk.
    destruct (lookup_lt_is_Some_2 (consumed_send_mask m) s) as [c Hc];
      [by rewrite (tb_consumed_length _ _ _ _ Hm)|].
    rewrite (vec_get_Ok _ _ _ Hc). simpl. eexists. split; [done|].
    pose proof (tb_consumed _ _ _ _ Hm s) as Hiff. rewrite Hc in Hiff.
    destruct c; simpl.
    + split; [done|]. intros [_ Hno]. destruct (proj1 Hiff eq_refl) as [x Hx]. by apply Hno in Hx.
    + split; [|done]. intros _. split; [done|]. intros x Hx.
      by assert (Some false = Some true) by (apply Hiff; eauto).
  - exists false. split; [done|]. split; [done|]. intros [Hk' _]. apply mask_keeps_true in Hk'. congruence.
Qed.

Lemma unread_ids_Ok :
  ∃ ids, filterM (send_is_unread m) (seq 0 (event_count g)) = Ok ids ∧
    ∀ s, s ∈ ids ↔ s < event_count g ∧ kept mask s ∧ ∀ x, ¬ kept_edge g mask s x.
Proof.
  set (q s := match send_is_unread m s with Ok b => b | Throw _ => false end).
  exists (List.filter q (seq 0 (event_count g))). split.
  - apply filterM_pure. intros s [_ Hs]%elem_of_seq. unfold q.
    by destruct (send_is_unread_Ok s Hs) as (b & -> & _).
  - intros s. rewrite list_elem_of_In, filter_In, <-list_elem_of_In, elem_of_seq. unfold q. split.
    + intros [[_ Hs] Hq]. destruct (send_is_unread_Ok s Hs) as (b & Hb & Hiff).
      rewrite Hb in Hq. split; [done|]. by apply Hiff.
    + intros [Hs Hk]. split; [lia|]. destruct (send_is_unread_Ok s Hs) as (b & -> & Hiff).
      by apply Hiff.
Qed.

Lemma offered_unread (ids : list EventId) s :
  (∀ x, x ∈ ids ↔ x < event_count g ∧ kept mask x ∧ ∀ y, ¬ kept_edge g mask x y) →
  offered s ↔ (s ∈ ids ∨ s = current) ∧ compatible (events g) er rl s = true.
Proof.
  intros Hids. unfold kept_available. rewrite Hids. split.
  - intros (Hk & Hc & Hu). split; [|done]. destruct (decide (s = current)) as [->|Hne]; [by right|left].
    split_and!; [by rewrite <-Hlen; apply lookup_lt_Some in Hk|done|]. intros y Hy.
    apply Hne. pose proof (Hu y Hy) as ->. destruct Hy as (_ & _ & Hy), current_edge as (_ & _ & Hc').
    by eapply rf_edge_fun.
  - intros [[(_ & Hk & Hu)| ->] Hc]; split_and!; try done.
    + intros x Hx. by apply Hu in Hx.
    + intros x Hx. pose proof Hcons as (Hrc & _).
      eapply kept_edge_once; [done|exact Hx|apply current_edge].
Qed.


(** The loop returns the first offered send that fits. *)
Lemma try_masked_candidates_Ok reachable cs :
  length reachable = event_count g →
  (∀ x, marked reachable x ↔ tc (kept_porf g mask) recv x) →
  (∀ c, c ∈ cs → offered (cand_send c)) → (∃ c, c ∈ cs ∧ fits (cand_send c)) →
  ∃ s, try_masked_candidates m recv model current reachable cs = Ok s ∧
    first_match (λ s, fits s) cs s.
Proof.
  intros Hl Hreach. induction cs as [|c cs IH]; intros Hav (c0 & Hc0 & Hfit); [set_solver|].
  assert (offered (cand_send c)) as (Hk & Hcomp & Hu) by (apply Hav; set_solver).
  assert (¬ fits (cand_send c) → ∃ s,
    try_masked_candidates m recv model current reachable cs = Ok s ∧
    first_match (λ s, fits s) (c :: cs) s) as Hlater.
  { intros Hno. destruct IH as (s & Hs & Hfirst).
    - intros c' Hc'. apply Hav. set_solver.
    - exists c0. split; [|done]. apply elem_of_cons in Hc0 as [->|?]; done.
    - exists s. split; [done|]. by apply first_match_later. }
  apply compatible_spec in Hcomp as (e & sl & He & Hsl & Hd & _). simpl.
  destruct (lookup_lt_is_Some_2 reachable (cand_send c)) as [seen Hseen].
  { rewrite Hl. by eapply lookup_lt_Some. }
  rewrite (vec_get_Ok _ _ _ Hseen). simpl. pose proof (Hreach (cand_send c)) as Hiff.
  unfold marked in Hiff. rewrite Hseen in Hiff. destruct seen.
  { apply Hlater. intros [Hno _]. by apply Hno, Hiff. }
  assert (¬ tc (kept_porf g mask) recv (cand_send c)) as Hnotc by (by intros Htc%Hiff).
  destruct (decide (model = FifoP2P)) as [Hmodel|Hmodel].
  2:{ simpl. eexists. split; [done|]. apply first_match_here. done. }
  pose proof Hcons as (Hrc & _). rewrite (bool_decide_eq_true_2 _ Hmodel) in Hm.
  destruct (fifo_rewrite_violates_Ok g mask recv Hrc m current (cand_send c) er rl e sl)
    as (b & -> & Hb); try done; [apply Hinv|apply current_edge|]. simpl. destruct b.
  - apply Hlater. intros [_ Hf]. by pose proof (proj2 Hb (Hf Hmodel)).
  - eexists. split; [done|]. apply first_match_here. split; [done|]. intros _. by apply Hb.
Qed.

Lemma fits_restricted s' s :
  kept_ids mask !! s' = Some s → total_events (events r) →
  available (events r) (reads_from r) recv' er' rl s' →
  consistent model (events r) (rewired (reads_from r) recv' s') (tolerance_of true recv') ↔ fits s.
Proof.
  intros Hs Ht Ha. rewrite (rewired_consistent model _ _ _ _ er' rl Ht restricted_tolerant Her' Hrl' s' Ha).
  by rewrite (causes_restricted g mask r Hr recv' s' recv s Hrecv Hs),
    (fifo_restricted g mask r Hr recv recv' Hrecv s' s Hs).
Qed.

(** The run of the masked tiebreaker, its context being built. *)
Lemma masked_run_Ok :
  masked_reset g mask (bool_decide (model = FifoP2P)) = Ok m → total_events (events r) →
  ∃ s s', get_cons_tiebreaker_masked g mask recv model = Ok s ∧ kept_ids mask !! s' = Some s ∧
    tiebreak model (events r) (reads_from r) (tolerance_of true recv') recv' er' rl s'.
Proof.
  intros Hreset Htr. pose proof kept_recv as Hkr.
  destruct (reachable_from_Ok g mask _ m Hlen Hm recv Hkr) as (reachable & Hrun & Hl & Hreach).
  destruct unread_ids_Ok as (ids & Hids & Hel). pose proof (λ s, offered_unread ids s Hel) as Hoff.
  destruct (kept_renamed mask current Hcur) as [c' Hc'].
  pose proof (available_restricted g mask r Hr recv recv' er er' rl Hrecv Hth) as Hav.
  assert (rf_find (reads_from r) recv' = Some (from_send c')) as Hsource'.
  { assert (rf_edge (reads_from r) c' recv') as (src & Hsrc & Hs).
    { apply (restricted_edge_at g mask r Hr c' recv' current recv); [done..|]. apply current_edge. }
    destruct src; simpl in Hs; simplify_eq; done. }
  destruct (current_admissible model _ _ _ recv' er' rl restricted_tolerant Her' Hrl' c' Hsource')
    as [Hcav Hcfit].
  unfold get_cons_tiebreaker_masked, tiebreaker_receive, keeps. rewrite Hreset. simpl.
  rewrite (tb_keep _ _ _ _ Hm), (proj2 (mask_keeps_true mask recv) Hkr). simpl.
  rewrite (event_Ok _ _ _ Her). simpl. rewrite Hrl, Hblocking, Hsource. simpl.
  rewrite (proj2 (mask_keeps_true mask current) Hcur). simpl. rewrite Hids. simpl.
  assert (current < event_count g) as Hclt by (rewrite <-Hlen; by apply lookup_lt_Some in Hcur).
  pose proof (gather_candidates g recv er rl ids current Htotal Her Hrl
    (λ s Hs, proj1 (proj1 (Hel s) Hs)) Hclt) as Hgather.
  destruct (candidates_of _ _ _ _) as [unread|]; [|done]. simpl in *.
  destruct (candidate_of _ _ _ _) as [own|]; [|done]. simpl in *. injection Hgather as ->.
  rewrite Hrun. simpl.
  edestruct (try_masked_candidates_Ok reachable (sorted_candidates (events g) er rl ids current))
    as (s & Hs & Hfirst); [done|done| | |].
  - intros c (s & -> & Hs)%sorted_candidates_elem. by apply Hoff.
  - exists (candidate (events g) current). split.
    + apply sorted_candidates_elem. exists current. split; [done|]. apply Hoff. by apply (Hav c').
    + by apply (fits_restricted c' current).
  - destruct Hfirst as (pre & c & post & Hcs & -> & Hfit & Hpre).
    pose proof (sorted_candidates_sorted (events g) er rl ids current) as Hsorted.
    assert (∀ c', c' ∈ pre ++ c :: post ↔
      ∃ s, c' = candidate (events g) s ∧ kept_available g mask recv er rl s) as Hmem.
    { intros x. rewrite <-Hcs, sorted_candidates_elem. by setoid_rewrite Hoff. }
    rewrite Hcs in Hsorted. destruct (proj1 (Hmem c)) as (s & -> & Hos); [set_solver|]. simpl in *.
    destruct (kept_renamed mask s) as [s' Hs']; [by destruct Hos|].
    exists s, s'. split; [done|]. split; [done|].
    assert (available (events r) (reads_from r) recv' er' rl s') as Has by (by apply (Hav s' s)).
    split; [split; [done|]; by apply (fits_restricted s' s)|].
    intros t' [Hat Hct]. assert (∃ t, kept_ids mask !! t' = Some t) as [t Ht].
    { destruct Hat as (et & _ & Het & _).
      destruct (restricted_event_inv g mask r _ _ Hr Het) as (t & _ & ? & _). by exists t. }
    apply (candidate_restricted g mask r Hlen Hr er er' Hth s' t' s t Hs' Ht).
    eapply (first_is_least (λ s, fits s)); [done..| |by apply (fits_restricted t' t)].
    apply Hmem. exists t. split; [done|]. by apply (Hav t').
Qed.

End masked_tiebreaker.

Section masked_result.
Context {V : Type} (model : CommunicationModel) (g : ExplorationGraph V) (mask : list bool)
  (recv current : EventId) (er : Event V) (rl : ReceiveLabel V).
Context (Hinv : Inv g) (Htotal : total_events (events g))
  (Hcons : consistent model (events g) (reads_from g) no_missing_reads_tolerance)
  (Hlen : length mask = event_count g)
  (Hclosed : ∀ a b, po (events g) a b → kept mask b → kept mask a)
  (Her : events g !! recv = Some er) (Hrl : as_receive er = Some rl)
  (Hblocking : is_nonblocking rl = false)
  (Hsource : rf_find (reads_from g) recv = Some (from_send current))
  (Hrecv : kept mask recv) (Hcur : kept mask current).

(** The masked tiebreaker answers; materializing the restriction gives the same answer,
    and both are the tiebreaker of the restricted graph. *)
Lemma get_cons_tiebreaker_masked_Ok :
  ∃ s r recv' s' er', get_cons_tiebreaker_masked g mask recv model = Ok s ∧
    get_cons_tiebreaker_masked_via_restriction g mask recv model = Ok s ∧
    restrict_from_keep_mask g mask = Ok r ∧
    kept_ids mask !! recv' = Some recv ∧ kept_ids mask !! s' = Some s ∧
    events r !! recv' = Some er' ∧
    tiebreak model (events r) (reads_from r) (allow_missing_reads_for_non_target recv')
      recv' er' rl s'.
Proof.
  destruct (restrict_Ok g mask Hinv Hlen) as (r & Hrun & Hr).
  destruct (kept_renamed mask recv Hrecv) as [recv' Hren].
  destruct (restricted_event g mask r _ _ _ Hr Hren Her) as (er' & Her' & Hth & Hlab).
  assert (as_receive er' = Some rl) as Hrl'.
  { apply as_receive_Some in Hrl. apply as_receive_Some. congruence. }
  assert (total_events (events r)) as Htr.
  { intros i e' (old & e & _ & He & _ & ->)%(restricted_event_inv g mask r _ _ Hr).
    by apply (Htotal old). }
  pose proof Hcons as (Hrc & _).
  destruct (masked_reset_Ok g mask (bool_decide (model = FifoP2P)) Hlen Hrc) as (m & Hreset & Hm).
  destruct (masked_run_Ok model g mask r recv recv' current er er' rl) with m as (s & s' & Hs & Hren' & Htb);
    try done.
  exists s, r, recv', s', er'. split_and!; try done.
  unfold get_cons_tiebreaker_masked_via_restriction. rewrite Hrun. simpl.
  rewrite (kept_ids_filter g mask Hlen).
  assert (list_find (λ id, id = recv) (kept_ids mask) = Some (recv', recv)) as ->.
  { apply list_find_Some. split_and!; [done..|]. intros j y Hj Hlt ->.
    pose proof (kept_ids_inj mask j recv' recv Hj Hren). lia. }
  simpl. destruct (kept_renamed mask current Hcur) as [c' Hc'].
  assert (rf_find (reads_from r) recv' = Some (from_send c')) as Hsource'.
  { assert (rf_edge (reads_from r) c' recv') as (src & Hsrc & Hsend).
    { apply (restricted_edge_at g mask r Hr c' recv' current recv); [done..|].
      split_and!; [done..|]. by exists (from_send current). }
    destruct src; simpl in Hsend; simplify_eq; done. }
  destruct (get_cons_tiebreaker_Ok model true r recv' c' er' rl) as (s'' & -> & Htb');
    [apply Hr|by apply cache_ok_None, Hr|done| |done..|].
  { by apply (restricted_tolerant model g mask r recv recv' current er'). }
  simpl. assert (s'' = s') as -> by (by eapply tiebreak_unique). by rewrite Hren'.
Qed.

End masked_result.
