(* ===== verification/RevisitFacts.v ===== *)
(** * RevisitFacts: the sets a backward revisit is made of

    [Previous] and the complement of [Deleted] as the definitions of the algorithm have
    them, and the child a backward revisit produces. *)

From stdpp Require Import base tactics numbers relations sets list strings.
From S2P Require Import Prelude Errors Event Relation ExecutionGraph ExplorationGraph Porf.
From S2P Require Import Consistency StorageFacts ExecutionGraphFacts ExplorationFacts PorfFacts.
From S2P Require Import PorfClocks FifoFacts Masked Dpor Revisit RestrictFacts SoundFacts.

Section revisit.
Context {V : Type} `{EqDecision V} (value_lt : V → V → bool) (bound : nat)
  (model : CommunicationModel).
Implicit Types (g : ExplorationGraph V) (mask : list bool).

Abbreviation causes g := (tc (porf (events g) (reads_from g))).

(** On a consistent graph the causality query answers. *)
Lemma porf_query_spec g from to :
  Sound bound model g → from < event_count g → to < event_count g →
  ∃ b, porf_query g from to = Ok b ∧ (b = true ↔ causes g from to).
Proof.
  intros [[Hinv Hcache _ _] Hc] Hf Ht.
  pose proof (consistent_typed _ _ _ _ Hc) as Hty. destruct Hc as (_ & Hac & _).
  destruct (porf_contains_Ok g from to (inv_core _ Hinv) Hcache Hty Hac Hf Ht)
    as (b & c & Hp & _ & Hiff).
  exists b. unfold porf_query. by rewrite Hp.
Qed.

Lemma in_previous_spec g e s ep :
  Sound bound model g → e < event_count g → s < event_count g → ep < event_count g →
  ∃ b, in_previous g e s ep = Ok b ∧ (b = true ↔ ep ≤ e ∨ causes g ep s).
Proof.
  intros Hg He Hs Hep. unfold in_previous, inserted_before_or_equal.
  rewrite decide_False by lia. cbn [mbind result_bind]. destruct (decide (ep ≤ e)) as [Hle|Hle].
  - rewrite bool_decide_eq_true_2 by done. exists true. split; [done|]. split; [by left|done].
  - rewrite bool_decide_eq_false_2 by done.
    destruct (porf_query_spec g ep s Hg Hep Hs) as (b & Hq & Hb). exists b. split; [done|].
    rewrite Hb. split; [by right|]. by intros [?|?].
Qed.

Lemma mapM_Ok_spec {A B} (f : A → res B) (Q : A → B → Prop) l :
  (∀ a, a ∈ l → ∃ b, f a = Ok b ∧ Q a b) → ∃ bs, mapM f l = Ok bs ∧ Forall2 Q l bs.
Proof.
  induction l as [|a l IH]; intros Hf; [by exists []|].
  destruct (Hf a) as (b & Hb & HQ); [set_solver|].
  destruct IH as (bs & Hbs & Hall); [intros; apply Hf; set_solver|].
  exists (b :: bs). simpl. rewrite Hb. simpl. rewrite Hbs. by split; [|constructor].
Qed.

Lemma compute_previous_set_spec g e s :
  Sound bound model g → e < event_count g → s < event_count g →
  ∃ mask, compute_previous_set g e s = Ok mask ∧ length mask = event_count g ∧
    ∀ ep, mask !! ep = Some true ↔ ep < event_count g ∧ (ep ≤ e ∨ causes g ep s).
Proof.
  intros Hg He Hs.
  destruct (mapM_Ok_spec (in_previous g e s) (λ ep b, b = true ↔ ep ≤ e ∨ causes g ep s)
    (seq 0 (event_count g))) as (mask & Hmask & Hall).
  { intros ep Hep%elem_of_seq. apply in_previous_spec; [done|done|done|lia]. }
  exists mask. pose proof (Forall2_length _ _ _ Hall) as Hlen. rewrite length_seq in Hlen.
  split_and!; [done|done|]. intros ep. split.
  - intros Hep. pose proof (lookup_lt_Some _ _ _ Hep) as Hlt. split; [lia|].
    eapply Forall2_lookup_r in Hall as (ep' & Hep' & Hiff); [|exact Hep].
    apply lookup_seq in Hep' as [-> _]. by apply Hiff.
  - intros [Hlt Hp]. destruct (lookup_lt_is_Some_2 mask ep) as [b Hb]; [lia|].
    eapply Forall2_lookup_r in Hall as (ep' & Hep' & Hiff); [|exact Hb].
    apply lookup_seq in Hep' as [-> _]. by rewrite Hb, (proj2 Hiff Hp).
Qed.

(** The events a revisit of [recv] by [send] keeps. *)
Definition keeps_event g (recv send ep : EventId) : Prop :=
  ep = recv ∨ ep = send ∨ ep ≤ recv ∨ causes g ep send.

Lemma keeps_event_dec g recv send ep :
  Sound bound model g → recv < event_count g → send < event_count g → ep < event_count g →
  keeps_event g recv send ep ∨ ¬ keeps_event g recv send ep.
Proof.
  intros Hg Hr Hs Hep. destruct (in_previous_spec g recv send ep Hg Hr Hs Hep) as (b & _ & Hiff).
  unfold keeps_event. destruct b; [tauto|].
  assert (¬ (ep ≤ recv ∨ causes g ep send)) by (by rewrite <-Hiff).
  destruct (decide (ep = recv)), (decide (ep = send)); tauto.
Qed.

Lemma deleted_scan_spec g recv send keep eps mask :
  Sound bound model g → recv < event_count g → send < event_count g →
  (∀ ep, ep ∈ eps → ep < event_count g) →
  deleted_scan value_lt g recv send model keep eps = Ok (Some mask) →
  ∀ ep, if decide (ep ∈ eps)
        then (keeps_event g recv send ep → mask !! ep = keep !! ep) ∧
             (¬ keeps_event g recv send ep → mask !! ep = Some false ∧
                revisit_condition value_lt g ep send model = Ok true)
        else mask !! ep = keep !! ep.
Proof.
  intros Hg Hr Hs. revert keep. induction eps as [|a eps IH]; intros keep Hb Hrun ep; simpl in Hrun.
  { injection Hrun as <-. by rewrite decide_False by apply not_elem_of_nil. }
  assert (∀ ep, ep ∈ eps → ep < event_count g) as Hb' by set_solver.
  assert (a < event_count g) as Ha by (apply Hb; set_solver).
  assert (keeps_event g recv send a ∧ deleted_scan value_lt g recv send model keep eps = Ok (Some mask) ∨
    ¬ keeps_event g recv send a ∧ a < length keep ∧ revisit_condition value_lt g a send model = Ok true ∧
    deleted_scan value_lt g recv send model (<[a := false]> keep) eps = Ok (Some mask)) as Hcase.
  { case_decide as Hend; [left; split; [unfold keeps_event; tauto|done]|].
    destruct (in_previous_spec g recv send a Hg Hr Hs Ha) as (b & Hin & Hiff). rewrite Hin in Hrun.
    cbn [mbind result_bind] in Hrun. destruct b; [left; split; [unfold keeps_event; tauto|done]|right].
    apply bind_Ok_inv in Hrun as (keep' & [Hl ->]%vec_set_inv & Hrun).
    apply bind_Ok_inv in Hrun as ([] & Hrev & Hrun); [|done]. split_and!; [|done|done|done].
    intros [?|[?|Hk]]; [tauto|tauto|]. by apply Hiff in Hk. }
  clear Hrun. destruct Hcase as [[Hk Hrun]|(Hk & Hl & Hrev & Hrun)]; specialize (IH _ Hb' Hrun ep).
  - destruct (decide (ep ∈ eps)) as [Hin|Hin].
    + rewrite decide_True by set_solver. exact IH.
    + case_decide as Hep; [|done]. apply elem_of_cons in Hep as [->|?]; [|done]. by split.
  - destruct (decide (ep ∈ eps)) as [Hin|Hin].
    + rewrite decide_True by set_solver. destruct IH as [IH1 IH2]. split; [|done]. intros Hep.
      rewrite IH1 by done. destruct (decide (a = ep)) as [->|]; [done|]. by rewrite list_lookup_insert_ne.
    + case_decide as Hep; [apply elem_of_cons in Hep as [->|?]; [|done]|].
      * split; [done|]. rewrite list_lookup_insert_eq in IH by done. done.
      * rewrite list_lookup_insert_ne in IH by set_solver. done.
Qed.

(** The child [c] that a backward revisit of the [k]-th receive by [send] produces. *)
Record revisits g (send : EventId) (receives : list EventId) (k : nat)
    (c : ExplorationGraph V) : Prop := {
  rv_good : Good bound c;
  rv_shape : ∃ recv mask r new_recv new_send,
    receives !! k = Some recv ∧ ¬ causes g recv send ∧
    revisit_condition value_lt g recv send model = Ok true ∧
    length mask = event_count g ∧
    (∀ ep, mask !! ep = Some true ↔ ep < event_count g ∧ keeps_event g recv send ep) ∧
    (∀ ep, mask !! ep = Some false → revisit_condition value_lt g ep send model = Ok true) ∧
    restrict_from_keep_mask g mask = Ok r ∧
    kept_ids mask !! new_recv = Some recv ∧ kept_ids mask !! new_send = Some send ∧
    events c = events r ∧
    reads_from c = rf_set (reads_from r) new_recv (from_send new_send);
}.

Lemma full_scan g recv send mask :
  Sound bound model g → recv < event_count g → send < event_count g →
  deleted_scan value_lt g recv send model (replicate (event_count g) true)
    (seq 0 (event_count g)) = Ok (Some mask) →
  length mask = event_count g ∧
  (∀ ep, mask !! ep = Some true ↔ ep < event_count g ∧ keeps_event g recv send ep) ∧
  (∀ ep, mask !! ep = Some false → revisit_condition value_lt g ep send model = Ok true).
Proof.
  intros Hg Hr Hs Hscan. pose proof (deleted_scan_length value_lt model _ _ _ _ _ _ Hscan) as Hlen.
  rewrite length_replicate in Hlen.
  assert (∀ ep, ep < event_count g →
    (keeps_event g recv send ep → mask !! ep = Some true) ∧
    (¬ keeps_event g recv send ep → mask !! ep = Some false ∧
       revisit_condition value_lt g ep send model = Ok true)) as Hspec.
  { intros ep Hep.
    assert (∀ i, i ∈ seq 0 (event_count g) → i < event_count g) as Hseq
      by (intros i ?%elem_of_seq; lia).
    pose proof (deleted_scan_spec g recv send _ _ mask Hg Hr Hs Hseq Hscan ep) as Hep'.
    rewrite decide_True in Hep' by (apply elem_of_seq; lia).
    by rewrite lookup_replicate_2 in Hep' by done. }
  split_and!; [done| |].
  - intros ep. split.
    + intros Hep. pose proof (lookup_lt_Some _ _ _ Hep) as Hlt. rewrite Hlen in Hlt.
      split; [done|]. destruct (keeps_event_dec g recv send ep Hg Hr Hs Hlt) as [|Hk]; [done|]. apply Hspec in Hk as [? _]; [congruence|done].
    + intros [Hlt Hk]. by apply Hspec.
  - intros ep Hep. pose proof (lookup_lt_Some _ _ _ Hep) as Hlt. rewrite Hlen in Hlt.
    destruct (keeps_event_dec g recv send ep Hg Hr Hs Hlt) as [Hk|Hk]; [apply Hspec in Hk; [congruence|done]|]. by apply Hspec.
Qed.

Lemma backward_revisit_from_spec g send_id send idx receives res c :
  Sound bound model g → send_id < event_count g →
  backward_revisit_from value_lt g send_id send model idx receives = Ok res →
  child res = Some c →
  ∃ k, next_receive_index res = idx + S k ∧ revisits g send_id receives k c.
Proof.
  intros Hg Hsend. revert idx. induction receives as [|recv rest IH]; intros idx; simpl;
    [by intros [= <-]|].
  assert (∀ idx, backward_revisit_from value_lt g send_id send model (S idx) rest = Ok res →
    child res = Some c →
    ∃ k, next_receive_index res = idx + S k ∧ revisits g send_id (recv :: rest) k c) as Hskip.
  { intros i Hrun Hc. destruct (IH (S i) Hrun Hc) as (k & Hk & [Hgood Hshape]).
    exists (S k). split; [lia|]. by split. }
  intros Hrun Hc. apply bind_Ok_inv in Hrun as (e & He & Hrun).
  destruct (as_receive e) as [rl|]; [|by eapply Hskip].
  apply bind_Ok_inv in Hrun as (acc & _ & Hrun). destruct acc; simpl in Hrun; [|by eapply Hskip].
  apply bind_Ok_inv in Hrun as (causal & Hq & Hrun). destruct causal; [by eapply Hskip|].
  apply bind_Ok_inv in Hrun as (ok & Hok & Hrun). destruct ok; simpl in Hrun; [|by eapply Hskip].
  apply bind_Ok_inv in Hrun as (scan & Hscan & Hrun). destruct scan as [mask|]; [|by eapply Hskip].
  apply bind_Ok_inv in Hrun as (r & Hr & Hrun).
  destruct (new_id_of mask recv) as [nr|] eqn:Enr; [|by eapply Hskip].
  destruct (new_id_of mask send_id) as [ns|] eqn:Ens; [|by eapply Hskip].
  apply bind_Ok_inv in Hrun as (c' & Hre & [= <-]). simpl in Hc. injection Hc as ->.
  assert (recv < event_count g) as Hrecv.
  { unfold event, ExecutionGraph.event in He. fold (events g) in He.
    destruct (events g !! recv) eqn:E; [by eapply lookup_lt_Some|done]. }
  destruct (full_scan g recv send_id mask Hg Hrecv Hsend Hscan) as (Hlen & Hkeep & Hdel).
  destruct (restrict_Ok g mask (good_inv _ _ (sound_good _ _ _ Hg)) Hlen) as (r' & Hr' & Hres).
  rewrite Hr in Hr'. injection Hr' as <-.
  assert (¬ causes g recv send_id) as Hnc by (by apply (porf_query_false bound model)).
  pose proof (new_id_of_kept _ _ _ Enr) as Hnr. pose proof (new_id_of_kept _ _ _ Ens) as Hns.
  exists 0. split; [simpl; lia|]. split.
  - by eapply (revisit_child_Good bound model g mask r recv send_id).
  - assert (∀ new old, kept_ids mask !! new = Some old → new < event_count r) as Hbound.
    { intros new old Hnew%lookup_lt_Some. unfold event_count.
      by rewrite <-(Forall2_length _ _ _ (rs_events _ _ _ Hres)). }
    apply rebind_rf_Ok in Hre as (_ & Hev & Hrf & _);
      [|apply Hres|by eapply Hbound|by eapply Hbound].
    by exists recv, mask, r, nr, ns.
Qed.

Lemma next_backward_revisit_child_spec g send_id receives start res c :
  Sound bound model g → send_id < event_count g →
  next_backward_revisit_child value_lt g send_id model receives start = Ok res →
  child res = Some c →
  ∃ k, start ≤ k ∧ next_receive_index res = S k ∧ revisits g send_id receives k c.
Proof.
  intros Hg Hsend Hrun Hc. unfold next_backward_revisit_child in Hrun.
  apply bind_Ok_inv in Hrun as (e & _ & Hrun).
  destruct (as_send e) as [send|]; [|by injection Hrun as <-].
  destruct (backward_revisit_from_spec _ _ _ _ _ _ _ Hg Hsend Hrun Hc) as (k & Hk & [Hgood Hshape]).
  exists (start + k). split_and!; [lia|lia|]. split; [done|].
  destruct Hshape as (recv & mask & r & nr & ns & Hrecv & Hrest). rewrite lookup_drop in Hrecv.
  by exists recv, mask, r, nr, ns.
Qed.

End revisit.
