(* ===== verification/NextEvent.v ===== *)
(** * NextEvent: what the engine explores next

    [compute_next_event] asks the threads in order and returns the first label; when it
    returns none, every thread is terminated, done, or at the event bound.  The
    per-thread bound explores what the program whose thread functions stop at the bound
    would explore. *)

From stdpp Require Import base tactics numbers relations sets list strings.
From S2P Require Import Prelude Errors Event Relation ExecutionGraph ExplorationGraph.
From S2P Require Import StorageFacts ExecutionGraphFacts ExplorationFacts Queries.
From S2P Require Import ConsistencyFacts FifoFacts Program Dpor SoundFacts.

Section next_event.
Context {V : Type} `{EqDecision V}.
Implicit Types (program : Program V) (g : ExplorationGraph V) (tid : ThreadId) (bound : nat).

(** The matchers of the labels the threads return do not throw.  The library reports a
    matcher that throws as a [user_code_error] like any other callback; the theorems that
    assume [total_program] say nothing of explorations in which one does. *)
Definition total_program program : Prop :=
  ∀ tid f trace step l, tm_at (threads program) tid = Ok f → f trace step = Ok (Some l) →
    total_label l.

(** The thread has ended: its last event is a block or an error. *)
Definition ended g tid : Prop := thread_is_terminated g tid = Ok true.

(** The engine may not ask the thread for another event. *)
Definition at_limit bound g tid : Prop := bound ≠ 0 ∧ bound ≤ thread_event_count g tid.

(** The thread function has nothing more to do. *)
Definition done program g tid : Prop :=
  call_thread program g tid (thread_event_count g tid) = Ok None.

(** The label the thread function returns, as the engine adds it: a blocking receive
    without a matching unread send becomes a block event. *)
Definition offers program g tid (l : EventLabel V) : Prop :=
  ∃ l0, call_thread program g tid (thread_event_count g tid) = Ok (Some l0) ∧
    is_block_label l0 = false ∧
    match l0 with
    | LReceive r =>
        if is_blocking r then
          ∃ b, has_compatible_unread_send g tid r = Ok b ∧ l = if b then l0 else LBlock
        else l = l0
    | _ => l = l0
    end.

(** [tid] has no next event for the engine. *)
Definition idle program bound g tid : Prop :=
  ended g tid ∨ at_limit bound g tid ∨ done program g tid.

(** What an answer of [compute_next_event] means. *)
Definition next_event_meaning program bound g (tids : list ThreadId) (r : NextEventResult V)
    : Prop :=
  match next r with
  | Some (tid, l) =>
      (∃ pre post, tids = pre ++ tid :: post ∧ ∀ t, t ∈ pre → idle program bound g t) ∧
      ¬ ended g tid ∧ ¬ at_limit bound g tid ∧ offers program g tid l
  | None => ∀ tid, tid ∈ tids → idle program bound g tid
  end.

Lemma next_event_from_spec program bound g suppressed tids r :
  next_event_from program g bound suppressed tids = Ok r →
  next_event_meaning program bound g tids r ∧
  (next r = None → suppressed_by_thread_event_limit r = true ↔
     suppressed = true ∨ ∃ tid, tid ∈ tids ∧ ¬ ended g tid ∧ at_limit bound g tid).
Proof.
  revert suppressed. induction tids as [|tid tids IH]; intros suppressed; cbn [next_event_from].
  { intros [= <-]. split; [by intros tid ?%not_elem_of_nil|]. simpl. intros _.
    split; [by left|]. intros [?|(tid & ?%not_elem_of_nil & _)]; done. }
  assert (∀ b, next_event_from program g bound b tids = Ok r →
    idle program bound g tid →
    next_event_meaning program bound g (tid :: tids) r) as Hskip.
  { intros b [Hm _]%IH Hidle. unfold next_event_meaning in *. destruct (next r) as [[t l]|].
    - destruct Hm as ((pre & post & -> & Hpre) & ? & ? & ?). split_and!; [|done..].
      exists (tid :: pre), post. split; [done|]. by intros t' [->|Ht']%elem_of_cons; [|auto].
    - intros t [->|Ht]%elem_of_cons; [done|auto]. }
  intros Hrun. apply bind_Ok_inv in Hrun as (b & Hterm & Hrun).
  assert (ended g tid ↔ b = true) as Hended by (unfold ended; rewrite Hterm; naive_solver).
  destruct b.
  { split; [eapply Hskip; [done|left; by apply Hended]|].
    intros Hn. destruct (IH _ Hrun) as [_ Hs]. rewrite (Hs Hn). split.
    - intros [?|(t & ? & ?)]; [by left|right; exists t; split; [set_solver|done]].
    - intros [?|(t & [->|?]%elem_of_cons & Hne & ?)]; [by left|naive_solver|right; eauto]. }
  destruct (decide (bound ≠ 0 ∧ bound ≤ thread_event_count g tid)) as [Hlim|Hlim].
  { split; [eapply Hskip; [done|by right; left]|].
    intros Hn. destruct (IH _ Hrun) as [_ Hs]. rewrite (Hs Hn). split; [|by left].
    intros _. right. exists tid. split_and!; [set_solver|by rewrite Hended|done]. }
  apply bind_Ok_inv in Hrun as (nl & Hcall & Hrun). destruct nl as [l0|].
  2:{ split; [eapply Hskip; [done|by right; right]|].
      intros Hn. destruct (IH _ Hrun) as [_ Hs]. rewrite (Hs Hn). split.
      - intros [?|(t & ? & ?)]; [by left|right; exists t; split; [set_solver|done]].
      - intros [?|(t & [->|?]%elem_of_cons & ? & Hl)]; [by left|by destruct Hlim|right; eauto]. }
  destruct (is_block_label l0) eqn:Eb; [done|].
  assert (∀ l, offers program g tid l →
    (Ok (MkNextEventResult (Some (tid, l)) suppressed) : res _) = Ok r →
    next_event_meaning program bound g (tid :: tids) r ∧
    (next r = None → suppressed_by_thread_event_limit r = true ↔
     suppressed = true ∨ ∃ t, t ∈ tid :: tids ∧ ¬ ended g t ∧ at_limit bound g t)) as Hdone.
  { intros l Hoff [= <-]. split; [|done]. simpl.
    split_and!; [|by rewrite Hended|done|done]. exists [], tids. split; [done|]. by intros ? ?%not_elem_of_nil. }
  assert (Hoffer : ∀ l, match l0 with
    | LReceive r0 => if is_blocking r0 then
          ∃ b, has_compatible_unread_send g tid r0 = Ok b ∧ l = if b then l0 else LBlock
        else l = l0
    | _ => l = l0 end → offers program g tid l) by (intros l Hl; by exists l0).
  destruct l0 as [r0| | | |]; try done; try (by eapply Hdone; [apply Hoffer|]).
  destruct (is_blocking r0) eqn:Er.
  - apply bind_Ok_inv in Hrun as (has & Hhas & Hrun).
    destruct has; (eapply Hdone; [apply Hoffer; rewrite ?Er; eexists; by split|done]).
  - eapply Hdone; [apply Hoffer; by rewrite ?Er|done].
Qed.

Lemma offers_total program g tid l : total_program program → offers program g tid l → total_label l.
Proof.
  intros Ht (l0 & Hcall & _ & Hl).
  assert (total_label l0) as Hl0.
  { unfold call_thread in Hcall. apply bind_Ok_inv in Hcall as (f & Hf & Hcall).
    apply bind_Ok_inv in Hcall as (trace & _ & Hcall).
    destruct (f trace (thread_event_count g tid)) as [o|e] eqn:Ef; simpl in Hcall.
    - injection Hcall as ->. by eapply Ht.
    - destruct e; simpl in Hcall; done. }
  destruct l0 as [r| | | |]; try by subst. destruct (is_blocking r); [|by subst].
  destruct Hl as (b & _ & ->). by destruct b.
Qed.

(** ** The per-thread event bound *)

(** [f'(trace, step) = step >= max_thread_events ? nullopt : f(trace, step)]. *)
Definition cap_thread bound (f : ThreadFunctionT V) : ThreadFunctionT V := λ trace step,
  if decide (bound ≠ 0 ∧ bound ≤ step) then Ok None else f trace step.

Definition cap_program bound program : Program V :=
  MkProgram (MkThreadMap (map (option_map (cap_thread bound)) (entries_ (threads program)))
               (size_ (threads program))).

Lemma tm_at_cap bound program tid :
  tm_at (threads (cap_program bound program)) tid =
    cap_thread bound <$> tm_at (threads program) tid.
Proof.
  unfold tm_at. simpl. change (map ?f ?l) with (f <$> l). rewrite list_lookup_fmap.
  by destruct (entries_ (threads program) !! N.to_nat tid) as [[]|].
Qed.

(** Below the bound the capped program makes the same calls. *)
Lemma call_thread_cap_below bound program g tid step :
  ¬ (bound ≠ 0 ∧ bound ≤ step) →
  call_thread (cap_program bound program) g tid step = call_thread program g tid step.
Proof.
  intros Hb. unfold call_thread. rewrite tm_at_cap.
  destruct (tm_at (threads program) tid) as [f|]; [|done]. simpl.
  destruct (thread_trace g tid) as [trace|]; [|done]. simpl. unfold cap_thread.
  by rewrite decide_False.
Qed.

(** At the bound the capped thread is done. *)
Lemma call_thread_cap_at bound program g tid step :
  Core g → is_Ok (tm_at (threads program) tid) = true → bound ≠ 0 → bound ≤ step →
  call_thread (cap_program bound program) g tid step = Ok None.
Proof.
  intros Hcore Hf H0 Hb. unfold call_thread. rewrite tm_at_cap.
  destruct (tm_at (threads program) tid) as [f|]; [|done]. simpl.
  unfold thread_trace. rewrite thread_trace_into_eq by done. simpl. unfold cap_thread.
  by rewrite decide_True.
Qed.

Lemma next_event_from_cap program bound g tids b b' :
  Core g → (∀ tid, tid ∈ tids → is_Ok (tm_at (threads program) tid) = true) →
  next <$> next_event_from program g bound b tids =
  next <$> next_event_from (cap_program bound program) g 0 b' tids.
Proof.
  intros Hcore. revert b b'. induction tids as [|tid tids IH]; intros b b' Hin;
    cbn [next_event_from]; [done|].
  assert (∀ b b', next <$> next_event_from program g bound b tids =
    next <$> next_event_from (cap_program bound program) g 0 b' tids) as Hrest.
  { intros c c'. apply IH. intros t Ht. apply Hin. set_solver. }
  rewrite thread_is_terminated_eq by done. cbn [mbind result_bind].
  destruct (match thread_tail _ _ with Some e => _ | None => _ end); [apply Hrest|].
  rewrite (decide_False (P := 0 ≠ 0 ∧ _)) by naive_solver.
  destruct (decide (bound ≠ 0 ∧ bound ≤ thread_event_count g tid)) as [[H0 Hb]|Hb].
  - rewrite call_thread_cap_at by (try done; apply Hin; set_solver). cbn [mbind result_bind].
    apply Hrest.
  - rewrite call_thread_cap_below by done.
    destruct (call_thread program g tid _) as [[l|]|]; cbn [mbind result_bind];
      [|apply Hrest|done].
    destruct (is_block_label l); [done|]. destruct l as [r| | | |]; try done.
    destruct (is_blocking r); [|done].
    by destruct (has_compatible_unread_send g tid r) as [[]|].
Qed.

End next_event.
