(* ===== verification/Conformance.v ===== *)
(** * Conformance: executions that follow the program

    An execution follows the program when every event of it is what its thread function
    returned for the observations the thread had made by then.  The mutations of the
    engine keep that: insertions by what [compute_next_event] answers, restrictions
    because they keep the past of every event they keep.

    [Carried] is the interface through which the engine's invariant carries such a
    property of executions along; [follows_carried] discharges it. *)

From stdpp Require Import base tactics numbers relations sets list strings.
From S2P Require Import Prelude Errors Event Relation ExecutionGraph ExplorationGraph Porf.
From S2P Require Import Consistency StorageFacts ExecutionGraphFacts ExplorationFacts Rollback.
From S2P Require Import Queries ConsistencyFacts FifoFacts Program Masked Dpor Revisit Explorer.
From S2P Require Import RestrictFacts SoundFacts NextEvent RevisitFacts.

Lemma Forall2_impl_in {A B} (R R' : A → B → Prop) l k :
  Forall2 R l k → (∀ a b, a ∈ l → b ∈ k → R a b → R' a b) → Forall2 R' l k.
Proof.
  induction 1 as [|a b l k HR _ IH]; intros Hi; constructor; [apply Hi; set_solver|].
  apply IH. set_solver.
Qed.

Lemma omap_Forall2 {A B C} (f : A → option C) (h : B → option C) l k :
  Forall2 (λ a b, f a = h b) l k → omap f l = omap h k.
Proof.
  induction 1 as [|a b l k Hab _ IH]; [done|].
  change (a :: l) with ([a] ++ l). change (b :: k) with ([b] ++ k).
  rewrite !omap_app, IH. simpl. by rewrite Hab.
Qed.

Section follows.
Context {V : Type} `{EqDecision V} (program : Program V).
Implicit Types (es : list (Event V)) (rf : ReadsFromRelation) (g : ExplorationGraph V)
  (t : ThreadId) (l : EventLabel V) (ids : list EventId) (mask : list bool).

(** The labels an event may carry when the thread function returned [l0]: a choice is
    resolved to one of its alternatives, and a blocking receive may be recorded as a block. *)
Definition produced (l0 l : EventLabel V) : Prop :=
  match l0 with
  | LReceive r => l = l0 ∨ (is_blocking r = true ∧ l = LBlock)
  | LNd nd =>
      match choices nd with
      | [] => l = l0
      | vs => ∃ v, v ∈ vs ∧ l = LNd (MkNdLabel v (erase_duplicate_nd_choices vs))
      end
  | LBlock => False
  | _ => l = l0
  end.

(** What the thread function returned, from the label of the event. *)
Lemma produced_inv l0 l :
  produced l0 l →
  match l with
  | LNd n => ∃ nd, l0 = LNd nd ∧ (nd_value n ∈ choices nd ∨ choices nd = [] ∧ nd_value n = nd_value nd)
  | LBlock => ∃ r, l0 = LReceive r ∧ is_blocking r = true
  | _ => l0 = l
  end.
Proof.
  destruct l0 as [r|sl|nd| |msg]; simpl; try (by intros ->); try done.
  - intros [->|[Hb ->]]; [done|]. by exists r.
  - destruct (choices nd) as [|v vs] eqn:Ec.
    + intros ->. exists nd. rewrite Ec. auto.
    + intros (v' & Hv & ->). exists nd. rewrite Ec. auto.
Qed.

(** After the events [ids], thread [t] may take an event labelled [l]. *)
Definition continues es rf t ids l : Prop :=
  (∃ f l0, tm_at (threads program) t = Ok f ∧
     f (omap (observation es rf) ids) (length ids) = Ok (Some l0) ∧ produced l0 l) ∧
  ∀ a e, a ∈ ids → es !! a = Some e → is_block e || is_error e = false.

(** Every event is what its thread function asked for. *)
Definition follows es rf : Prop :=
  ∀ id e, es !! id = Some e →
    continues es rf (thread e) (thread_ids (take id es) (thread e)) (label e).

(** Two lists of events that look the same to their thread. *)
Definition alike es rf es' rf' (a b : EventId) : Prop :=
  observation es rf a = observation es' rf' b ∧
  ∀ e', es' !! b = Some e' → ∃ e, es !! a = Some e ∧ label e' = label e.

Lemma continues_alike es rf es' rf' t ids ids' l :
  Forall2 (alike es rf es' rf') ids ids' → continues es rf t ids l → continues es' rf' t ids' l.
Proof.
  intros Hal [(f & l0 & Hf & Hcall & Hl) Hend]. split.
  - exists f, l0. split_and!; [done| |done]. rewrite <-(Forall2_length _ _ _ Hal), <-Hcall. f_equal.
    symmetry. apply omap_Forall2. eapply Forall2_impl; [exact Hal|]. by intros a b [].
  - intros b e' [k Hb]%list_elem_of_lookup_1 He'.
    destruct (Forall2_lookup_r _ _ _ _ _ Hal Hb) as (a & Ha & _ & Hlab).
    destruct (Hlab e' He') as (e & He & El). specialize (Hend a e (list_elem_of_lookup_2 _ _ _ Ha) He).
    unfold is_block, is_error in *. by rewrite El.
Qed.

Lemma alike_refl es rf ids : Forall2 (alike es rf es rf) ids ids.
Proof. apply Forall_Forall2_diag, Forall_true. intros a. split; [done|]. eauto. Qed.

(** ** Insertion *)

Lemma observation_snoc es rf e a :
  rf_in_range es rf → a < length es → observation (es ++ [e]) rf a = observation es rf a.
Proof.
  intros Hrange Ha. unfold observation. rewrite lookup_app_l by done.
  destruct (es !! a) as [ea|]; [|done]. simpl. destruct (label ea); try done.
  destruct (rf_find rf a) as [s|] eqn:Es; [|done]. simpl. destruct (rf_send s) as [id|] eqn:Eid; [|done].
  by rewrite lookup_app_l by (by apply (Hrange a s Es)).
Qed.

(** The events of a thread that precede [id]. *)
Lemma thread_ids_take_bound es id t a : a ∈ thread_ids (take id es) t → a < id ∧ a < length es.
Proof.
  intros (e & He & _)%thread_ids_elem. apply lookup_take_Some in He as [He ?].
  split; [done|]. by eapply lookup_lt_Some.
Qed.

(** Growing the execution and changing the source of its last event leaves the past alone. *)
Lemma alike_snoc es rf e rf' ids :
  rf_in_range es rf → (∀ a, a < length es → rf_find rf' a = rf_find rf a) →
  (∀ a, a ∈ ids → a < length es) → Forall2 (alike es rf (es ++ [e]) rf') ids ids.
Proof.
  intros Hrange Hrf Hids. apply Forall_Forall2_diag, Forall_forall. intros a Ha%Hids.
  assert (rf_in_range es rf ∧ observation (es ++ [e]) rf' a = observation es rf a) as [_ Ho].
  { split; [done|]. rewrite <-(observation_snoc es rf e a Hrange Ha). unfold observation. by rewrite Hrf. }
  split; [done|]. intros e' He'. rewrite lookup_app_l in He' by done. eauto.
Qed.

Lemma follows_snoc es rf e rf' :
  rf_in_range es rf → (∀ a, a < length es → rf_find rf' a = rf_find rf a) → follows es rf →
  continues es rf (thread e) (thread_ids es (thread e)) (label e) → follows (es ++ [e]) rf'.
Proof.
  intros Hrange Hrf Hf Hc id e' [He'|[Hid He']]%lookup_app_Some.
  - pose proof (lookup_lt_Some _ _ _ He') as Hlt. rewrite take_app_le by lia.
    eapply continues_alike; [|by apply Hf]. apply alike_snoc; [done|done|].
    by intros a [? ?]%thread_ids_take_bound.
  - apply list_lookup_singleton_Some in He' as [Hz <-].
    assert (id = length es) as -> by lia. rewrite take_app_length.
    eapply continues_alike; [|done]. apply alike_snoc; [done|done|].
    intros a (e0 & He0 & _)%thread_ids_elem. by eapply lookup_lt_Some.
Qed.

Lemma continues_equiv es rf rf' t ids l :
  rf ≡ rf' → continues es rf t ids l → continues es rf' t ids l.
Proof.
  intros Hrf. apply continues_alike, Forall_Forall2_diag, Forall_true. intros a.
  split; [|by eauto]. unfold observation. by rewrite (Hrf a).
Qed.

Lemma follows_equiv es rf rf' : rf ≡ rf' → follows es rf → follows es rf'.
Proof. intros Hrf Hf id e He. by eapply continues_equiv, Hf. Qed.

(** What the engine may add to [g]: the thread has not ended and its function asks for it. *)
Definition extends g t l : Prop :=
  (∃ f l0, tm_at (threads program) t = Ok f ∧
     f (trace_of (events g) (reads_from g) t) (length (thread_ids (events g) t)) = Ok (Some l0) ∧
     produced l0 l) ∧
  ∀ e, thread_tail (events g) t = Some e → is_block e || is_error e = false.

Lemma extends_same g g' t l :
  events g = events g' → reads_from g ≡ reads_from g' → extends g t l → extends g' t l.
Proof.
  intros He Hrf. unfold extends, trace_of. rewrite <-He.
  rewrite (omap_Forall2 _ (observation (events g) (reads_from g')) _ (thread_ids (events g) t)); [done|].
  apply Forall_Forall2_diag, Forall_true. intros a. unfold observation. by rewrite (Hrf a).
Qed.

(** The labels the engine adds for an offered one: it resolves choices itself. *)
Definition resolves (l0 l : EventLabel V) : Prop :=
  match l0 with LNd _ => produced l0 l | _ => l = l0 end.

Lemma offers_extends g t l0 l :
  Core g → ¬ ended g t → offers program g t l0 → resolves l0 l → extends g t l.
Proof.
  intros Hcore Hend (l1 & Hcall & Hblock & Hl1) Hl. split.
  - unfold call_thread in Hcall. apply bind_Ok_inv in Hcall as (f & Hft & Hcall).
    apply bind_Ok_inv in Hcall as (trace & Htrace & Hcall).
    unfold thread_trace in Htrace. rewrite thread_trace_into_eq in Htrace by done. injection Htrace as <-.
    rewrite thread_event_count_eq in Hcall by done. exists f, l1. split_and!; [done| |].
    + destruct (f _ _) as [o|x]; simpl in Hcall; [congruence|]. destruct x; simpl in Hcall; done.
    + destruct l1 as [r|s|nd| |msg]; simpl in *; try (by subst l0).
      destruct (is_blocking r) eqn:Er; [destruct Hl1 as ([] & _ & ->)|subst l0]; simpl in Hl; auto.
  - intros e He. unfold ended in Hend. rewrite thread_is_terminated_eq, He in Hend by done.
    by destruct (is_block e || is_error e).
Qed.

Lemma follows_ended es rf a b e :
  follows es rf → es !! a = Some e → po es a b → is_block e || is_error e = false.
Proof.
  intros Hf He (Hab & ea & eb & Ha & Hb & Ht). destruct (Hf b eb Hb) as [_ Hend]. apply (Hend a e); [|done].
  apply thread_ids_elem. exists ea. split; [by rewrite lookup_take_lt|done].
Qed.

(** In an execution that follows the program only the last event of a thread can end it. *)
Lemma extends_continues g t l :
  follows (events g) (reads_from g) → extends g t l →
  continues (events g) (reads_from g) t (thread_ids (events g) t) l.
Proof.
  intros Hf [Hasks Htail]. split; [done|]. intros a e Ha He. unfold thread_tail in Htail.
  destruct (last (thread_ids (events g) t)) as [b|] eqn:Hl.
  2:{ apply last_None in Hl. rewrite Hl in Ha. by apply not_elem_of_nil in Ha. }
  destruct (decide (a = b)) as [->|Hne]; [by apply Htail|]. apply (follows_ended _ _ a b e Hf He).
  rewrite last_lookup in Hl. destruct (list_elem_of_lookup_1 _ _ Ha) as [i Hi].
  pose proof (lookup_lt_Some _ _ _ Hi) as Hlt.
  assert (i ≠ pred (length (thread_ids (events g) t))) as Hneq by (intros ->; congruence).
  split; [apply (ids_where_sorted _ _ _ _ _ _ Hi Hl); lia|].
  apply list_elem_of_lookup_2, thread_ids_elem in Hl as (eb & Heb & Ht).
  apply thread_ids_elem in Ha as (ea & Hea & Hta). exists ea, eb. split_and!; [done|done|congruence].
Qed.

(** ** Restriction *)

Lemma kept_ids_prefix m1 m2 :
  ∃ more, kept_ids (m1 ++ m2) = kept_ids m1 ++ more.
Proof.
  induction m2 as [|b m2 [more IH]] using rev_ind; [exists []; by rewrite !app_nil_r|].
  rewrite app_assoc, kept_ids_snoc, IH. eexists. by rewrite <-app_assoc.
Qed.

(** The renumbering of what precedes a kept event. *)
Lemma kept_ids_take mask new old :
  kept_ids mask !! new = Some old → kept_ids (take old mask) = take new (kept_ids mask).
Proof.
  intros Hk. pose proof (list_elem_of_lookup_2 _ _ _ Hk) as Hin%kept_ids_elem.
  pose proof (take_drop_middle mask old true Hin) as Hmask.
  assert (length (take old mask) = old) as Hlen by (apply lookup_lt_Some in Hin; rewrite length_take; lia).
  destruct (kept_ids_prefix (take old mask ++ [true]) (drop (S old) mask)) as [more Hmore].
  rewrite <-app_assoc in Hmore. simpl in Hmore. rewrite Hmask, kept_ids_snoc, Hlen, <-app_assoc in Hmore.
  simpl in Hmore. assert (new = length (kept_ids (take old mask))) as ->.
  { eapply kept_ids_inj; [done|]. by rewrite Hmore, lookup_app_r, Nat.sub_diag by lia. }
  by rewrite Hmore, take_app_length.
Qed.

(** A thread all of whose events are kept has the same events, renumbered. *)
Lemma copies_thread_ids es mask es' t :
  length mask = length es → Forall2 (copy_of es) (kept_ids mask) es' →
  (∀ i e, es !! i = Some e → thread e = t → mask !! i = Some true) →
  Forall2 (λ o n, kept_ids mask !! n = Some o) (thread_ids es t) (thread_ids es' t).
Proof.
  revert es es'. induction mask as [|b mask IH] using rev_ind; intros es es' Hlen Hcp Hall.
  { apply symmetry, nil_length_inv in Hlen as ->. apply Forall2_nil_inv_l in Hcp as ->.
    constructor. }
  destruct es as [|e es _] using rev_ind; [rewrite length_app in Hlen; simpl in Hlen; lia|].
  rewrite !length_app in Hlen. simpl in Hlen. assert (length mask = length es) as Hlen' by lia.
  rewrite kept_ids_snoc in Hcp |- *. apply Forall2_app_inv_l in Hcp as (es1 & es2 & Hcp & Hlast & ->).
  assert (Forall2 (copy_of es) (kept_ids mask) es1) as Hcp'.
  { eapply Forall2_impl_in; [exact Hcp|]. intros old e' Hold _ (e0 & He0 & ? & ?).
    apply kept_ids_elem, lookup_lt_Some in Hold. rewrite lookup_app_l in He0 by lia. by exists e0. }
  specialize (IH es es1 Hlen' Hcp'). rewrite thread_ids_snoc.
  assert (Forall2 (λ o n, (kept_ids mask ++ (if b then [length mask] else [])) !! n = Some o)
    (thread_ids es t) (thread_ids es1 t)) as Hpre.
  { eapply Forall2_impl; [apply IH|].
    - intros i e0 He0 Ht. specialize (Hall i e0 ltac:(by apply lookup_app_l_Some) Ht).
      rewrite lookup_app_l in Hall; [done|]. apply lookup_lt_Some in He0. lia.
    - intros o n Hn. by apply lookup_app_l_Some. }
  destruct b; simpl in *.
  - apply Forall2_cons_inv_l in Hlast as (e' & rest & (e0 & He0 & Ht & _) & Hnil & ->).
    apply Forall2_nil_inv_l in Hnil as ->.
    rewrite Hlen', lookup_app_r, Nat.sub_diag in He0 by lia. injection He0 as <-.
    rewrite thread_ids_snoc, Ht. apply Forall2_app; [done|]. case_decide; [|constructor].
    constructor; [|constructor].
    by rewrite <-(Forall2_length _ _ _ Hcp), lookup_app_r, Nat.sub_diag, Hlen' by lia.
  - apply Forall2_nil_inv_l in Hlast as ->. rewrite !app_nil_r. case_decide as Ht; [|by rewrite app_nil_r in *].
    specialize (Hall (length es) e ltac:(by rewrite lookup_app_r, Nat.sub_diag by lia) Ht).
    by rewrite lookup_app_r, Hlen', Nat.sub_diag in Hall by lia.
Qed.

(** The mask keeps the program order past of what it keeps. *)
Definition past_closed es mask : Prop :=
  ∀ a b, po es a b → mask !! b = Some true → mask !! a = Some true.

Lemma copies_past es mask es' old new e :
  length mask = length es → Forall2 (copy_of es) (kept_ids mask) es' → past_closed es mask →
  kept_ids mask !! new = Some old → es !! old = Some e →
  Forall2 (λ o n, kept_ids mask !! n = Some o) (thread_ids (take old es) (thread e))
    (thread_ids (take new es') (thread e)).
Proof.
  intros Hlen Hcp Hclosed Hk He. pose proof (kept_ids_take mask new old Hk) as Htake.
  pose proof (list_elem_of_lookup_2 _ _ _ Hk) as Hold%kept_ids_elem.
  assert (Forall2 (λ o n, kept_ids (take old mask) !! n = Some o) (thread_ids (take old es) (thread e))
    (thread_ids (take new es') (thread e))) as Hpast.
  { apply copies_thread_ids.
    - rewrite !length_take. lia.
    - rewrite Htake. eapply Forall2_impl_in; [by apply Forall2_take|].
      intros o e' Ho _ (e0 & He0 & ?). exists e0. split; [|done]. rewrite <-Htake in Ho.
      apply kept_ids_elem, lookup_lt_Some in Ho. rewrite length_take in Ho. rewrite lookup_take_lt; [done|lia].
    - intros i e0 [He0 Hi]%lookup_take_Some Ht. rewrite lookup_take_lt by done.
      apply (Hclosed i old); [|done]. split; [done|]. by exists e0, e. }
  eapply Forall2_impl; [exact Hpast|]. intros o n Hn. rewrite Htake in Hn.
  by apply lookup_take_Some in Hn as [? _].
Qed.

(** A restriction that keeps pasts and what they observed follows the program. *)
Lemma follows_copies es rf mask es' rf' :
  length mask = length es → Forall2 (copy_of es) (kept_ids mask) es' → past_closed es mask →
  (∀ o n old, kept_ids mask !! n = Some o → po es o old → mask !! old = Some true →
     observation es rf o = observation es' rf' n) →
  follows es rf → follows es' rf'.
Proof.
  intros Hlen Hcp Hclosed Hobs Hf new e' He'.
  destruct (Forall2_lookup_r _ _ _ _ _ Hcp He') as (old & Hk & e & He & Ht & Hl). rewrite Ht, Hl.
  eapply continues_alike; [|by apply (Hf old)].
  eapply Forall2_impl_in; [by eapply copies_past|]. intros o n Ho _ Hn. split.
  - apply (Hobs o n old Hn).
    + apply thread_ids_elem in Ho as (eo & [Heo Hlt]%lookup_take_Some & Hto).
      split; [done|]. by exists eo, e.
    + by eapply kept_ids_elem, list_elem_of_lookup_2.
  - intros en Hen. destruct (Forall2_lookup_l _ _ _ _ _ Hcp Hn) as (en' & Hen' & eo & Heo & _ & Hlo).
    rewrite Hen in Hen'. injection Hen' as <-. by exists eo.
Qed.

End follows.

(** ** The interface of the engine *)

Section carried.
Context {V : Type} `{EqDecision V} (value_lt : V → V → bool) (program : Program V) (bound : nat)
  (model : CommunicationModel).
Implicit Types (g : ExplorationGraph V) (Q : ExplorationGraph V → Prop).

(** A property of executions that the mutations of the engine keep; a backward revisit
    need only establish it when its graph turns out to be consistent. *)
Record Carried Q : Prop := {
  ca_same g g' : events g = events g' → reads_from g ≡ reads_from g' → Q g → Q g';
  ca_add g t l id g' : Inv g → Q g → extends program g t l → add_event g t l = Ok (id, g') → Q g';
  ca_receive g t l id g1 s g' : Inv g → Q g → extends program g t l → source_in_range (events g) s →
    add_event g t l = Ok (id, g1) → set_reads_from_source g1 id s = Ok g' → Q g';
  ca_reschedule g t g' : Sound bound model g → Q g → reschedule_thread program g t = Ok (Some g') → Q g';
  ca_revisit g send receives k c : Sound bound model g → Q g →
    revisits value_lt bound model g send receives k c → consistent_graph model c → Q c;
}.

(** The trivial property: the engine explores any graph. *)
Lemma anything_carried : Carried (λ _, True).
Proof. by split. Qed.

(** ** Executions of the program *)

Definition follows_graph g : Prop := follows program (events g) (reads_from g).

Lemma follows_empty : follows_graph empty_exploration_graph.
Proof. by intros id e He. Qed.

Lemma follows_add g t l id g' :
  Inv g → follows_graph g → extends program g t l → add_event g t l = Ok (id, g') → follows_graph g'.
Proof.
  intros Hinv Hf Hx Hadd. destruct (add_event_inv g t l id g' Hinv Hadd) as (_ & _ & _ & Hrf & _ & i & Hev).
  unfold follows_graph. rewrite Hev, Hrf.
  apply (follows_snoc program (events g) (reads_from g)); [by apply core_rf, Hinv|done|done|].
  by apply extends_continues.
Qed.

Lemma follows_receive g t l id g1 s g' :
  Inv g → follows_graph g → extends program g t l → source_in_range (events g) s →
  add_event g t l = Ok (id, g1) → set_reads_from_source g1 id s = Ok g' → follows_graph g'.
Proof.
  intros Hinv Hf Hx Hs Hadd Hset.
  destruct (add_event_inv g t l id g1 Hinv Hadd) as (_ & -> & Hinv1 & Hrf & _ & i & Hev).
  destruct (core_set_reads_from_source g1 (event_count g) s (inv_core _ Hinv1))
    as (g2 & Hset' & _ & Hev' & Hrf' & _).
  { unfold event_count. rewrite Hev, length_app. simpl. lia. }
  { intros j Hj. rewrite Hev, length_app. specialize (Hs j Hj). lia. }
  rewrite Hset in Hset'. injection Hset' as <-. unfold follows_graph. rewrite Hev', Hev.
  apply (follows_snoc program (events g) (reads_from g)); [by apply core_rf, Hinv| |done|].
  - intros a Ha. rewrite Hrf', Hrf, rf_find_set. rewrite decide_False; [done|]. unfold event_count. lia.
  - by apply extends_continues.
Qed.

(** What a kept event observes, when the restriction has not lost its source. *)
Lemma restricted_observation g mask r o n :
  Restricted g mask r → kept_ids mask !! n = Some o →
  (∀ e, events r !! n = Some e → is_receive e = true → is_Some (rf_find (reads_from r) n)) →
  observation (events g) (reads_from g) o = observation (events r) (reads_from r) n.
Proof.
  intros Hres Hn Hsrc. unfold observation.
  destruct (Forall2_lookup_l _ _ _ _ _ (rs_events _ _ _ Hres) Hn) as (en & Hen & eo & Heo & _ & Hl).
  rewrite Heo, Hen. simpl. rewrite Hl. destruct (label eo) as [rl| | | |] eqn:Elab; try done.
  destruct (Hsrc en Hen) as [s Hs]; [unfold is_receive; by rewrite Hl|]. rewrite Hs.
  apply (rs_rf _ _ _ Hres) in Hs as (o' & s0 & Ho' & Hs0 & Hs). rewrite Hn in Ho'. injection Ho' as <-.
  rewrite Hs0. simpl. unfold remap_source in Hs. destruct (rf_send s0) as [id|]; [|by injection Hs as <-].
  destruct (dense_ids mask 0 !! id) as [[new|]|] eqn:Ed; [|done|done]. injection Hs as <-. simpl.
  apply dense_ids_kept in Ed.
  destruct (Forall2_lookup_l _ _ _ _ _ (rs_events _ _ _ Hres) Ed) as (es' & Hes' & es & Hes & _ & Hls).
  rewrite Hes, Hes'. simpl. unfold as_send. by rewrite Hls.
Qed.

Lemma follows_reschedule g t g' :
  Sound bound model g → follows_graph g → reschedule_thread program g t = Ok (Some g') →
  follows_graph g'.
Proof.
  intros Hg Hf Hrun. pose proof (good_inv _ _ (sound_good _ _ _ Hg)) as Hinv.
  pose proof (reschedule_thread_Sound _ _ _ _ _ _ Hg Hrun) as [_ ([_ _ Htot] & _)].
  destruct (reschedule_inv program g t g' Hinv Hrun) as (last_id & e & Hlast & He & _ & Hres).
  rewrite last_event_id_eq in Hlast by apply Hinv.
  assert (last_id < event_count g) as Hlt by (by eapply lookup_lt_Some).
  apply (follows_copies program (events g) (reads_from g) (all_but g last_id)).
  - apply length_all_but.
  - apply Hres.
  - intros a b (Hab & ea & eb & Ha & Hb & Ht) Hkeep. rewrite all_but_lookup in Hkeep by done.
    rewrite decide_True in Hkeep by (by eapply lookup_lt_Some).
    rewrite all_but_lookup, decide_True by (done || by eapply lookup_lt_Some). f_equal.
    injection Hkeep as Hkeep%bool_decide_eq_true. apply bool_decide_eq_true. intros ->.
    rewrite last_lookup in Hlast. pose proof Hlast as Hin%list_elem_of_lookup_2%thread_ids_elem.
    destruct Hin as (e0 & He0 & Ht0). rewrite Ha in He0. injection He0 as <-.
    assert (b ∈ thread_ids (events g) t) as [i Hi]%list_elem_of_lookup_1
      by (apply thread_ids_elem; exists eb; split; [done|congruence]).
    pose proof (ids_where_sorted _ _ _ _ _ _ Hlast Hi) as Hsort. apply lookup_lt_Some in Hi. lia.
  - intros o n old Hn _ _. apply (restricted_observation g _ g' o n Hres Hn). intros en Hen Hr.
    by apply (Htot n en).
  - done.
Qed.

Lemma follows_revisit g send receives k c :
  Sound bound model g → follows_graph g → revisits value_lt bound model g send receives k c →
  consistent_graph model c → follows_graph c.
Proof.
  intros Hg Hf [_ (recv & mask & r & nr & ns & _ & Hno & _ & Hlen & Hkeep & _ & Hr & Hnr & Hns & Hev & Hrf)]
    ([_ _ Htot] & _).
  destruct (restrict_Ok g mask (good_inv _ _ (sound_good _ _ _ Hg)) Hlen) as (r' & Hr' & Hres).
  rewrite Hr in Hr'. injection Hr' as <-. unfold follows_graph. rewrite Hev.
  assert (∀ a b, po (events g) a b → tc (porf (events g) (reads_from g)) a b) as Hpo
    by (intros a b H; apply tc_once; by left).
  apply (follows_copies program (events g) (reads_from g) mask); [done|apply Hres| | |done].
  - intros a b Hab [Hb Hk]%Hkeep. apply Hkeep. pose proof Hab as [Hlt _]. split; [lia|].
    destruct Hk as [->|[->|[Hle|Hc]]]; unfold keeps_event; [right; right; left; lia|auto|right; right; left; lia|].
    do 3 right. eapply tc_l; [by left|done].
  - intros o n old Hn Hold [_ Hk]%Hkeep. assert (n ≠ nr) as Hne.
    { intros ->. rewrite Hnr in Hn. injection Hn as <-. pose proof Hold as [Hlt _].
      destruct Hk as [->|[->|[Hle|Hc]]]; [lia|by apply Hno, Hpo|lia|].
      apply Hno. eapply tc_l; [by left|done]. }
    assert (rf_find (reads_from c) n = rf_find (reads_from r) n) as Hfind
      by (by rewrite Hrf, rf_find_set, decide_False).
    rewrite (restricted_observation g mask r o n Hres Hn).
    + unfold observation. by rewrite Hfind.
    + intros e He Hrecv. rewrite <-Hfind. apply (Htot n e); [by rewrite Hev|done|done].
Qed.

Lemma follows_carried : Carried follows_graph.
Proof.
  split.
  - intros g g' He Hrf. unfold follows_graph. rewrite <-He. by apply follows_equiv.
  - apply follows_add.
  - apply follows_receive.
  - apply follows_reschedule.
  - apply follows_revisit.
Qed.

End carried.
