(* ===== verification/Runs.v ===== *)
(** * Runs: message-passing programs, and executions as their runs

    The semantics of the programs the model checker explores, as a transition system:
    threads with what they have observed, and messages in flight.  [step] is one action
    of one thread; a blocking receive has no step until an acceptable message is in
    flight, and under [FifoP2P] it may not overtake an acceptable message of the same
    sender.

    A consistent execution that follows the program is the record of a run: its causal
    order can be linearised (by the order [build_porf_adjacency_and_order] computes), and
    the steps can be taken in that order. *)

From stdpp Require Import base tactics numbers functions relations sets list strings.
From S2P Require Import Prelude Errors Event Relation ExecutionGraph ExplorationGraph Porf.
From S2P Require Import Consistency StorageFacts ExecutionGraphFacts ExplorationFacts Rollback.
From S2P Require Import Queries PorfFacts ConsistencyFacts FifoFacts Program Dpor.
From S2P Require Import RestrictFacts SoundFacts NextEvent Conformance.

(** ** The transition system *)

Section system.
Context {V : Type}.

(** What a thread has observed, how many steps it took, and whether it ended in an error. *)
Record Local := MkLocal { seen : list (ObservedValue V); taken : nat; over : bool }.

Record Message := MkMessage { sender : ThreadId; receiver : ThreadId; payload : V }.

(** Messages are in flight in the order they were sent. *)
Record System := MkSystem { local : ThreadId → Local; in_flight : list Message }.

Definition initial_system : System := MkSystem (λ _, MkLocal [] 0 false) [].

(** The thread is not over and its function answers [o]. *)
Definition answers (program : Program V) (s : System) (t : ThreadId) (o : option (EventLabel V)) : Prop :=
  over (local s t) = false ∧
  ∃ f, tm_at (threads program) t = Ok f ∧ f (seen (local s t)) (taken (local s t)) = Ok o.

(** Thread [t] has taken a step with the observations [vs]. *)
Definition advance (s : System) (t : ThreadId) (vs : list (ObservedValue V)) (over' : bool)
    (flight : list Message) : System :=
  MkSystem (<[t := MkLocal (seen (local s t) ++ vs) (S (taken (local s t))) over']> (local s)) flight.

(** Nothing that [r] would accept from the sender of [m] was sent before [m]. *)
Definition oldest (r : ReceiveLabel V) (m : Message) (before : list Message) : Prop :=
  ∀ m', m' ∈ before → sender m' = sender m → receiver m' = receiver m →
    accepts r (payload m') ≠ Ok true.

Inductive step (program : Program V) (model : CommunicationModel) (s : System) : System → Prop :=
| step_send t l :
    answers program s t (Some (LSend l)) →
    step program model s
      (advance s t [] false (in_flight s ++ [MkMessage t (destination l) (value l)]))
| step_choice t n v :
    answers program s t (Some (LNd n)) → v ∈ choices n ∨ (choices n = [] ∧ v = nd_value n) →
    step program model s (advance s t [Observed v] false (in_flight s))
| step_receive t r m before after :
    answers program s t (Some (LReceive r)) → in_flight s = before ++ m :: after →
    receiver m = t → accepts r (payload m) = Ok true → (model = FifoP2P → oldest r m before) →
    step program model s (advance s t [Observed (payload m)] false (before ++ after))
| step_nothing t r :
    answers program s t (Some (LReceive r)) → is_blocking r = false →
    step program model s (advance s t [BottomValue] false (in_flight s))
| step_error t msg :
    answers program s t (Some (LError msg)) →
    step program model s (advance s t [] true (in_flight s)).

(** The thread will take no further step. *)
Definition halted program s t : Prop := over (local s t) = true ∨ answers program s t None.

(** The thread waits for a message, and none that it accepts is in flight. *)
Definition waits program s t : Prop :=
  ∃ r, answers program s t (Some (LReceive r)) ∧ is_blocking r = true ∧
    ∀ m, m ∈ in_flight s → receiver m = t → accepts r (payload m) = Ok false.

End system.
Arguments Local V : clear implicits.
Arguments Message V : clear implicits.
Arguments System V : clear implicits.

(** A thread that waits cannot step. *)
Lemma waits_stuck {V} (program : Program V) model s s' t :
  waits program s t → step program model s s' → local s' t = local s t.
Proof.
  intros (r & [Ho (f & Hf & Hr)] & Hb & Hno) Hstep.
  assert (∀ t' o vs b fl, answers program s t' o → t' ≠ t →
    local (advance s t' vs b fl) t = local s t) as Hother
    by (intros t' o vs b fl _ Hne; simpl; by rewrite fn_lookup_insert_ne).
  assert (∀ o, answers program s t o → o = Some (LReceive r)) as Hdet.
  { intros o [_ (f' & Hf' & Hr')]. rewrite Hf in Hf'. injection Hf' as <-. rewrite Hr in Hr'.
    by injection Hr'. }
  destruct Hstep as [t' l Ha|t' n v Ha _|t' r' m before after Ha Hfl Hm Hacc _|t' r' Ha Hnb|t' msg Ha];
    (destruct (decide (t' = t)) as [->|Hne]; [apply Hdet in Ha as Heq|by eapply Hother]); try done.
  - injection Heq as ->. rewrite (Hno m) in Hacc; [done| |done]. rewrite Hfl. set_solver.
  - injection Heq as ->. congruence.
Qed.

(** ** Taking the events of an execution in causal order *)

Section replay.
Context {V : Type} `{EqDecision V} (program : Program V) (model : CommunicationModel)
  (es : list (Event V)) (rf : ReadsFromRelation).
Implicit Types (past : list EventId) (id : EventId) (t : ThreadId) (s : System V).

Definition at_thread t id : bool := match es !! id with Some e => on_thread t e | None => false end.
Definition at_block id : bool := match es !! id with Some e => is_block e | None => false end.
Definition at_error id : bool := match es !! id with Some e => is_error e | None => false end.

(** The events of thread [t] among [past]. *)
Definition of_thread t past : list EventId := List.filter (at_thread t) past.

Definition source_of id : option EventId := rf_find rf id ≫= rf_send.

(** A receive of [past] has read the send [id]. *)
Definition read_in past id : bool := existsb (λ r, bool_decide (source_of r = Some id)) past.

Definition pending past : list EventId := List.filter (λ id, negb (read_in past id)) past.

(** The message that the event [id] sends. *)
Definition message_of id : option (Message V) :=
  e ← es !! id; l ← as_send e; Some (MkMessage (thread e) (destination l) (value l)).

(** [s] is the state after the events [past]. *)
Record after past s : Prop := {
  af_seen t : seen (local s t) = omap (observation es rf) (of_thread t past);
  af_taken t : taken (local s t) = length (List.filter (λ id, negb (at_block id)) (of_thread t past));
  af_over t : over (local s t) = existsb at_error (of_thread t past);
  af_flight : in_flight s = omap message_of (pending past);
}.

Lemma after_nil : after [] initial_system.
Proof. by split. Qed.

(** The order in which the events are taken: causes first. *)
Record linear (topo : list EventId) : Prop := {
  li_nodup : NoDup topo;
  li_all id : id ∈ topo ↔ id < length es;
  li_causes i a b : topo !! i = Some b → porf es rf a b → a ∈ take i topo;
}.

Lemma thread_ids_prefix l1 l2 t : ∃ more, thread_ids (l1 ++ l2 : list (Event V)) t = thread_ids l1 t ++ more.
Proof.
  induction l2 as [|e l2 [more IH]] using rev_ind; [exists []; by rewrite !app_nil_r|].
  rewrite app_assoc, thread_ids_snoc, IH. eexists. by rewrite <-app_assoc.
Qed.

Lemma thread_ids_take id e :
  es !! id = Some e → ∃ more, thread_ids es (thread e) = thread_ids (take id es) (thread e) ++ id :: more.
Proof.
  intros He. pose proof (take_drop_middle es id e He) as Hes.
  destruct (thread_ids_prefix (take id es ++ [e]) (drop (S id) es) (thread e)) as [more Hmore].
  rewrite <-app_assoc in Hmore. simpl in Hmore. rewrite Hes in Hmore. exists more. rewrite Hmore.
  rewrite thread_ids_snoc, decide_True, length_take, <-app_assoc by done. apply lookup_lt_Some in He.
  by rewrite Nat.min_l by lia.
Qed.

Section order.
Context (topo : list EventId) (Htopo : linear topo).

Lemma at_thread_spec t id : at_thread t id = true ↔ id ∈ thread_ids es t.
Proof.
  unfold at_thread. rewrite thread_ids_elem. destruct (es !! id) as [e|]; [|naive_solver].
  unfold on_thread. rewrite bool_decide_eq_true. naive_solver.
Qed.

Lemma of_thread_elem t past id : id ∈ of_thread t past ↔ id ∈ past ∧ id ∈ thread_ids es t.
Proof. unfold of_thread. rewrite list_elem_of_In, filter_In, <-list_elem_of_In, at_thread_spec. done. Qed.

Lemma of_thread_snoc t past id :
  of_thread t (past ++ [id]) = of_thread t past ++ (if at_thread t id then [id] else []).
Proof. unfold of_thread. rewrite List.filter_app. simpl. by destruct (at_thread t id). Qed.

Lemma past_nodup past id rest : topo = past ++ id :: rest → id ∉ past.
Proof. intros Ht. pose proof (li_nodup _ Htopo) as Hnd. rewrite Ht in Hnd. apply NoDup_app in Hnd. set_solver. Qed.

(** What causes the next event has been taken. *)
Lemma causes_taken past id rest a : topo = past ++ id :: rest → porf es rf a id → a ∈ past.
Proof.
  intros Ht Ha. rewrite <-(take_app_length past (id :: rest)), <-Ht.
  apply (li_causes _ Htopo _ a id); [|done]. by rewrite Ht, lookup_app_r, Nat.sub_diag by lia.
Qed.

(** The next event of a thread is the first one not taken. *)
Lemma next_of_thread past id rest t n :
  topo = past ++ id :: rest → of_thread t past = take n (thread_ids es t) → id ∈ thread_ids es t →
  thread_ids es t !! n = Some id.
Proof.
  intros Ht Hn [i Hi]%list_elem_of_lookup_1. destruct (decide (i = n)) as [->|Hne]; [done|exfalso].
  destruct (decide (i < n)) as [Hlt|Hge].
  - apply (past_nodup past id rest Ht).
    assert (id ∈ of_thread t past) as [? _]%of_thread_elem; [|done].
    rewrite Hn. apply list_elem_of_lookup_2 with i. by rewrite lookup_take_lt.
  - destruct (lookup_lt_is_Some_2 (thread_ids es t) n) as [b Hb]; [apply lookup_lt_Some in Hi; lia|].
    pose proof (ids_where_sorted _ _ _ _ _ _ Hb Hi) as Hlt.
    pose proof (list_elem_of_lookup_2 _ _ _ Hb) as Hbt. pose proof (list_elem_of_lookup_2 _ _ _ Hi) as Hit.
    assert (b ∈ past) as Hpast.
    { apply (causes_taken past id rest b Ht). left. split; [apply Hlt; lia|].
      apply thread_ids_elem in Hbt as (eb & ? & ?), Hit as (ei & ? & ?). exists eb, ei.
      split_and!; congruence. }
    assert (b ∈ of_thread t past) as Hin by (by apply of_thread_elem).
    rewrite Hn in Hin. apply list_elem_of_lookup_1 in Hin as [j Hj]. apply lookup_take_Some in Hj as [Hj ?].
    pose proof (NoDup_lookup _ _ _ _ (ids_where_nodup _ es) Hb Hj). lia.
Qed.

Lemma of_thread_take past rest t :
  topo = past ++ rest → ∃ n, of_thread t past = take n (thread_ids es t).
Proof.
  revert rest. induction past as [|id past IH] using rev_ind; intros rest Ht; [by exists 0|].
  rewrite <-app_assoc in Ht. simpl in Ht. destruct (IH _ Ht) as [n Hn]. rewrite of_thread_snoc.
  destruct (at_thread t id) eqn:Eat; [|exists n; by rewrite app_nil_r]. apply at_thread_spec in Eat.
  exists (S n). rewrite Hn. symmetry. apply take_S_r. by eapply next_of_thread.
Qed.

(** The events of a thread are taken in program order. *)
Lemma taken_past past id rest e :
  topo = past ++ id :: rest → es !! id = Some e →
  of_thread (thread e) past = thread_ids (take id es) (thread e).
Proof.
  intros Ht He. destruct (of_thread_take past (id :: rest) (thread e) Ht) as [n Hn].
  destruct (thread_ids_take id e He) as [more Hmore].
  assert (thread_ids es (thread e) !! n = Some id) as Hid.
  { eapply next_of_thread; [done|done|]. rewrite Hmore. set_solver. }
  assert (n = length (thread_ids (take id es) (thread e))) as ->.
  { eapply (NoDup_lookup _ _ _ id (ids_where_nodup (on_thread (thread e)) es)); [done|].
    fold (thread_ids es (thread e)). by rewrite Hmore, lookup_app_r, Nat.sub_diag by lia. }
  by rewrite Hn, Hmore, take_app_length.
Qed.

(** ** Messages in flight *)

Lemma source_edge id a : source_of id = Some a ↔ rf_edge rf a id.
Proof.
  unfold source_of, rf_edge. destruct (rf_find rf id) as [src|]; simpl; naive_solver.
Qed.

Lemma read_in_elem past a : read_in past a = true ↔ ∃ r, r ∈ past ∧ rf_edge rf a r.
Proof.
  unfold read_in. rewrite existsb_exists. setoid_rewrite <-list_elem_of_In.
  setoid_rewrite bool_decide_eq_true. by setoid_rewrite source_edge.
Qed.

Lemma pending_elem past a : a ∈ pending past ↔ a ∈ past ∧ ∀ r, r ∈ past → ¬ rf_edge rf a r.
Proof.
  unfold pending. rewrite list_elem_of_In, filter_In, <-list_elem_of_In, negb_true_iff, <-not_true_iff_false, read_in_elem.
  naive_solver.
Qed.

Lemma filter_remove (l : list EventId) a l1 l2 :
  NoDup l → l = l1 ++ a :: l2 → List.filter (λ x, negb (bool_decide (Some a = Some x))) l = l1 ++ l2.
Proof.
  intros Hnd ->. rewrite List.filter_app. simpl. rewrite bool_decide_eq_true_2 by done. simpl.
  apply NoDup_app in Hnd as (_ & Hd & Hnd%NoDup_cons). destruct Hnd as [Ha _].
  assert (∀ k, a ∉ k → List.filter (λ x, negb (bool_decide (Some a = Some x))) k = k) as Hk.
  { induction k as [|x k IH]; [done|]. intros Hx. simpl. rewrite bool_decide_eq_false_2 by set_solver.
    simpl. f_equal. apply IH. set_solver. }
  rewrite !Hk; [done|done|]. intros ?. eapply Hd; [done|]. set_solver.
Qed.

(** Taking an event: what it reads leaves, and it is pending itself. *)
Lemma pending_snoc past id rest :
  topo = past ++ id :: rest → rf_in_range es rf → acyclic (porf es rf) →
  pending (past ++ [id]) =
    List.filter (λ x, negb (bool_decide (source_of id = Some x))) (pending past) ++ [id].
Proof.
  intros Ht Hrange Hac. unfold pending. rewrite List.filter_app. simpl.
  assert (read_in (past ++ [id]) id = false) as ->.
  { apply not_true_iff_false. rewrite read_in_elem. intros (r & Hr & He).
    apply elem_of_app in Hr as [Hr|Hr%list_elem_of_singleton].
    - apply list_elem_of_split in Hr as (p1 & p2 & ->). rewrite <-app_assoc in Ht. simpl in Ht.
      assert (id ∈ p1) by (eapply causes_taken; [done|by right]).
      eapply (past_nodup (p1 ++ r :: p2) id rest); [by rewrite <-app_assoc|set_solver].
    - subst r. apply (Hac id), tc_once. by right. }
  simpl. f_equal.
  assert (∀ l, List.filter (λ x, negb (read_in (past ++ [id]) x)) l =
    List.filter (λ x, negb (bool_decide (source_of id = Some x)))
      (List.filter (λ x, negb (read_in past x)) l)) as Hl; [|apply Hl].
  induction l as [|x l IH]; [done|]. cbn [List.filter].
  assert (read_in (past ++ [id]) x = read_in past x || bool_decide (source_of id = Some x)) as ->.
  { unfold read_in. rewrite existsb_app. simpl. by rewrite orb_false_r. }
  rewrite IH. destruct (read_in past x); [done|]. cbn. by destruct (bool_decide _).
Qed.

(** An event that reads nothing takes nothing out of flight. *)
Lemma pending_other past id rest :
  topo = past ++ id :: rest → rf_in_range es rf → acyclic (porf es rf) → source_of id = None →
  pending (past ++ [id]) = pending past ++ [id].
Proof.
  intros Ht Hrange Hac Hsrc. rewrite (pending_snoc past id rest) by done. rewrite Hsrc. f_equal.
  induction (pending past) as [|x l IH]; [done|]. cbn [List.filter].
  rewrite bool_decide_eq_false_2 by done. cbn [negb]. by rewrite IH.
Qed.

(** A receive takes the message it reads out of flight. *)
Lemma pending_read past id rest a :
  topo = past ++ id :: rest → rf_consistent es rf no_missing_reads_tolerance → rf_in_range es rf →
  acyclic (porf es rf) → source_of id = Some a →
  ∃ l1 l2, pending past = l1 ++ a :: l2 ∧ pending (past ++ [id]) = (l1 ++ l2) ++ [id].
Proof.
  intros Ht Hc Hrange Hac Hsrc. pose proof Hsrc as Hedge%source_edge.
  assert (a ∈ pending past) as (l1 & l2 & Hl)%list_elem_of_split.
  { apply pending_elem. split; [eapply causes_taken; [done|by right]|]. intros r Hr He.
    rewrite (rc_once _ _ _ Hc a r id He Hedge) in Hr. by apply (past_nodup past id rest). }
  exists l1, l2. split; [done|]. rewrite (pending_snoc past id rest) by done. f_equal. rewrite Hsrc.
  apply filter_remove; [|done]. apply NoDup_ListNoDup, List.NoDup_filter, NoDup_ListNoDup.
  pose proof (li_nodup _ Htopo) as Hnd. rewrite Ht in Hnd. by apply NoDup_app in Hnd as (? & _).
Qed.

(** Only receives read. *)
Lemma no_source id e :
  rf_consistent es rf no_missing_reads_tolerance → es !! id = Some e → is_receive e = false →
  source_of id = None.
Proof.
  intros Hc He Hr. unfold source_of. destruct (rf_find rf id) as [src|] eqn:Es; [|done].
  destruct (rc_entries _ _ _ Hc id src Es) as (er & rl & Her & Hrl & _). simpl in Her. rewrite He in Her.
  injection Her as <-. unfold is_receive, as_receive in *. by destruct (label e).
Qed.

(** ** One event *)

Context (Hrange : rf_in_range es rf) (Hcons : consistent model es rf no_missing_reads_tolerance)
  (Hfollows : follows program es rf).

(** What the state after [past] knows of the thread of the next event. *)
Lemma after_local past id rest e s :
  topo = past ++ id :: rest → es !! id = Some e → after past s →
  over (local s (thread e)) = false ∧
  seen (local s (thread e)) = omap (observation es rf) (thread_ids (take id es) (thread e)) ∧
  taken (local s (thread e)) = length (thread_ids (take id es) (thread e)).
Proof.
  intros Ht He [Hseen Htaken Hover _]. pose proof (taken_past past id rest e Ht He) as Hpast.
  rewrite Hseen, Htaken, Hover, Hpast. destruct (Hfollows id e He) as [_ Hend].
  assert (∀ a, a ∈ thread_ids (take id es) (thread e) → at_block a = false ∧ at_error a = false) as Hopen.
  { intros a Ha. unfold at_block, at_error. destruct (es !! a) as [ea|] eqn:Ea; [|done].
    specialize (Hend a ea Ha Ea). by apply orb_false_iff in Hend. }
  split_and!; [|done|].
  - apply not_true_iff_false. rewrite existsb_exists. intros (a & Ha%list_elem_of_In & Herr).
    destruct (Hopen a Ha). congruence.
  - f_equal. revert Hopen. generalize (thread_ids (take id es) (thread e)). intros l.
    induction l as [|a l IH]; intros Hl; [done|]. simpl. rewrite (proj1 (Hl a ltac:(set_solver))). simpl.
    f_equal. apply IH. set_solver.
Qed.

(** The event is what the thread function answers. *)
Lemma next_answer past id rest e s :
  topo = past ++ id :: rest → es !! id = Some e → after past s →
  ∃ l0, answers program s (thread e) (Some l0) ∧ produced l0 (label e).
Proof.
  intros Ht He Ha. destruct (after_local past id rest e s Ht He Ha) as (Hover & Hseen & Htaken).
  destruct (Hfollows id e He) as [(f & l0 & Hf & Hcall & Hl0) _]. exists l0. split; [|done].
  split; [done|]. exists f. by rewrite Hseen, Htaken.
Qed.

(** The state after an event that its thread takes as a step. *)
Lemma after_snoc past id rest e s vs ov flight :
  topo = past ++ id :: rest → es !! id = Some e → after past s → is_block e = false →
  option_list (observation es rf id) = vs → is_error e = ov →
  flight = omap message_of (pending (past ++ [id])) →
  after (past ++ [id]) (advance s (thread e) vs ov flight).
Proof.
  intros Ht He Ha Hb Hvs Hov ->. destruct (after_local past id rest e s Ht He Ha) as (Hover & _ & _).
  destruct Ha as [Hseen Htaken Hov' _].
  assert (∀ t, at_thread t id = bool_decide (thread e = t)) as Hat
    by (intros t; unfold at_thread, on_thread; by rewrite He).
  split; [| | |done]; intros t; cbn [local advance]; rewrite of_thread_snoc, Hat;
    (destruct (decide (thread e = t)) as [<-|Hne];
     [rewrite fn_lookup_insert, bool_decide_eq_true_2 by done
     |rewrite fn_lookup_insert_ne, bool_decide_eq_false_2, app_nil_r by done; done]); cbn [seen taken over].
  - rewrite omap_app, Hseen. f_equal. rewrite <-Hvs. simpl. by destruct (observation es rf id).
  - rewrite List.filter_app, length_app, Htaken. cbn [List.filter].
    assert (at_block id = false) as -> by (unfold at_block; by rewrite He). simpl. lia.
  - rewrite existsb_app, <-Hov', Hover. simpl. unfold at_error. by rewrite He, Hov, orb_false_r.
Qed.

Lemma pending_silent past id rest e :
  topo = past ++ id :: rest → es !! id = Some e → is_receive e = false →
  pending (past ++ [id]) = pending past ++ [id].
Proof.
  intros Ht He Hr. destruct Hcons as (Hrf & Hac & _).
  apply (pending_other past id rest); [done|done|done|]. by eapply no_source.
Qed.

(** The messages in flight after an event that receives nothing. *)
Lemma flight_silent past id rest e :
  topo = past ++ id :: rest → es !! id = Some e → is_receive e = false →
  omap message_of (pending (past ++ [id])) =
    omap message_of (pending past) ++ option_list (message_of id).
Proof.
  intros Ht He Hr. rewrite (pending_silent past id rest e Ht He Hr), omap_app. by f_equal.
Qed.

(** A block event is not a step. *)
Lemma after_block past id rest e s :
  topo = past ++ id :: rest → es !! id = Some e → after past s → is_block e = true →
  after (past ++ [id]) s.
Proof.
  intros Ht He [Hseen Htaken Hover Hflight] Hb. destruct Hcons as (Hrf & Hac & _).
  assert (label e = LBlock) as Hl by (unfold is_block in Hb; by destruct (label e)).
  assert (at_block id = true ∧ at_error id = false ∧ observation es rf id = None ∧ message_of id = None)
    as (H1 & H2 & H3 & H4).
  { unfold at_block, at_error, observation, message_of, as_send, is_error. rewrite He. simpl. by rewrite Hl. }
  split.
  - intros t. rewrite of_thread_snoc, omap_app, Hseen. destruct (at_thread t id); simpl; [rewrite H3|];
      by rewrite app_nil_r.
  - intros t. rewrite of_thread_snoc, List.filter_app, length_app, Htaken.
    destruct (at_thread t id); simpl; [rewrite H1|]; simpl; lia.
  - intros t. rewrite of_thread_snoc, existsb_app, Hover. destruct (at_thread t id); simpl; [rewrite H2|];
      by rewrite orb_false_r.
  - rewrite (pending_silent past id rest e Ht He) by (unfold is_receive; by rewrite Hl).
    rewrite omap_app, Hflight. simpl. by rewrite H4, app_nil_r.
Qed.

Lemma filter_split {A} (p : A → bool) l l1 a l2 :
  List.filter p l = l1 ++ a :: l2 →
  ∃ k1 k2, l = k1 ++ a :: k2 ∧ List.filter p k1 = l1 ∧ List.filter p k2 = l2.
Proof.
  revert l1. induction l as [|x l IH]; intros l1 Hl; simpl in Hl; [by destruct l1|].
  destruct (p x) eqn:Ex.
  - destruct l1 as [|y l1]; injection Hl as -> Hl; [by exists [], l|].
    destruct (IH l1 Hl) as (k1 & k2 & -> & <- & <-). exists (y :: k1), k2. simpl. by rewrite Ex.
  - destruct (IH l1 Hl) as (k1 & k2 & -> & <- & <-). exists (x :: k1), k2. simpl. by rewrite Ex.
Qed.

(** Of two messages of one sender, the one in front was sent first. *)
Lemma pending_order past id rest a b l1 l2 ea eb :
  topo = past ++ id :: rest → pending past = l1 ++ b :: l2 → a ∈ l1 →
  es !! a = Some ea → es !! b = Some eb → thread ea = thread eb → po es a b.
Proof.
  intros Ht Hp Ha Hea Heb Hth. destruct (filter_split _ _ _ _ _ Hp) as (k1 & k2 & -> & Hk1 & _).
  assert (a ∈ k1) as (x & y & ->)%list_elem_of_split.
  { rewrite <-Hk1 in Ha. by apply list_elem_of_In, filter_In in Ha as [?%list_elem_of_In _]. }
  assert (b ∉ x ++ a :: y) as Hb.
  { apply (past_nodup _ _ (k2 ++ id :: rest)). by rewrite Ht, <-app_assoc. }
  split; [|by exists ea, eb]. destruct (decide (a < b)) as [|Hge]; [done|exfalso]. apply Hb.
  assert (a ≠ b) by (intros ->; apply Hb; set_solver).
  assert (b ∈ x); [|set_solver]. apply (causes_taken x a (y ++ b :: k2 ++ id :: rest)).
  - rewrite Ht. by repeat (rewrite <-app_assoc; simpl).
  - left. split; [lia|]. by exists eb, ea.
Qed.

Lemma message_of_Some a ea sl :
  es !! a = Some ea → as_send ea = Some sl →
  message_of a = Some (MkMessage (thread ea) (destination sl) (value sl)).
Proof. intros He Hs. unfold message_of. rewrite He. simpl. by rewrite Hs. Qed.

Lemma message_of_inv a m :
  message_of a = Some m → ∃ ea sl, es !! a = Some ea ∧ as_send ea = Some sl ∧
    m = MkMessage (thread ea) (destination sl) (value sl).
Proof.
  unfold message_of. destruct (es !! a) as [ea|] eqn:Ea; [|done]. simpl.
  destruct (as_send ea) as [sl|] eqn:Es; [|done]. simpl. intros [= <-]. by exists ea, sl.
Qed.

(** A receive that reads the send [a] takes its message out of flight. *)
Lemma receive_step past id rest e r a s :
  topo = past ++ id :: rest → es !! id = Some e → after past s → as_receive e = Some r →
  answers program s (thread e) (Some (LReceive r)) → source_of id = Some a →
  ∃ s', step program model s s' ∧ after (past ++ [id]) s'.
Proof.
  intros Ht He Ha Hr Hans Hsrc. destruct Hcons as (Hrf & Hac & Hfifo). pose proof (af_flight _ _ Ha) as Hfl.
  destruct (pending_read past id rest a Ht Hrf Hrange Hac Hsrc) as (l1 & l2 & Hp & Hp').
  unfold source_of in Hsrc. destruct (rf_find rf id) as [src|] eqn:Hfind; [|done]. simpl in Hsrc.
  destruct (rc_entries _ _ _ Hrf id src Hfind) as (er & rl & Her & Hrl & Hsend). simpl in Her, Hsend.
  rewrite He in Her. injection Her as <-. rewrite Hr in Hrl. injection Hrl as <-. rewrite Hsrc in Hsend.
  destruct Hsend as (ea & sl & Hea & Hsl & Hdest & Hacc).
  pose proof (message_of_Some a ea sl Hea Hsl) as Hm.
  assert (label e = LReceive r) as Hl by (unfold as_receive in Hr; destruct (label e); congruence).
  eexists. split.
  - eapply (step_receive program model s (thread e) r _ (omap message_of l1) (omap message_of l2) Hans).
    + rewrite Hfl, Hp, omap_app. simpl. by rewrite Hm.
    + done.
    + done.
    + intros Hmodel m' (b & Hb & Hmb)%list_elem_of_omap Hsender Hrecv Hacc'. simpl in *.
      apply message_of_inv in Hmb as (eb & sb & Heb & Hsb & ->). simpl in *.
      pose proof (pending_order past id rest b a l1 l2 eb ea Ht Hp Hb Heb Hea Hsender) as Hpo.
      destruct (Hfifo Hmodel b a eb ea sb sl id e r Hpo Heb Hsb Hea Hsl Hrecv) as (r1 & Hr1 & Hpo1); try done.
      * by exists src.
      * unfold accepts_pure. by rewrite Hacc'.
      * assert (b ∈ pending past) as [_ Hun]%pending_elem by (rewrite Hp; set_solver).
        apply (Hun r1); [|done]. eapply causes_taken; [done|by left].
  - eapply after_snoc; [done|done|done|unfold is_block; by rewrite Hl| |unfold is_error; by rewrite Hl|].
    + unfold observation. rewrite He. simpl. rewrite Hl, Hfind. simpl. rewrite Hsrc, Hea. simpl.
      by rewrite Hsl.
    + rewrite Hp', omap_app, omap_app. simpl.
      assert (message_of id = None) as -> by (unfold message_of, as_send; rewrite He; simpl; by rewrite Hl).
      by rewrite app_nil_r.
Qed.

(** A receive takes a step, whether it reads a message or gives up. *)
Lemma take_receive past id rest e r s :
  topo = past ++ id :: rest → es !! id = Some e → after past s → label e = LReceive r →
  answers program s (thread e) (Some (LReceive r)) →
  ∃ s', step program model s s' ∧ after (past ++ [id]) s'.
Proof.
  intros Ht He Ha Hl Hans. assert (as_receive e = Some r) as Hr by (unfold as_receive; by rewrite Hl).
  destruct (source_of id) as [a|] eqn:Hsrc; [by eapply receive_step|].
  destruct Hcons as (Hrf & Hac & _).
  destruct (rc_total _ _ _ Hrf id e He) as [src Hfind]; [unfold is_receive; by rewrite Hl|done|].
  assert (rf_send src = None) as Hbot by (unfold source_of in Hsrc; by rewrite Hfind in Hsrc).
  destruct (rc_entries _ _ _ Hrf id src Hfind) as (er & rl & Her & Hrl & Hblock). simpl in Her, Hblock.
  rewrite He in Her. injection Her as <-. rewrite Hr in Hrl. injection Hrl as <-. rewrite Hbot in Hblock.
  eexists. split; [by apply (step_nothing program model s (thread e) r)|].
  eapply after_snoc; [done|done|done|unfold is_block; by rewrite Hl| |unfold is_error; by rewrite Hl|].
  - unfold observation. rewrite He. simpl. rewrite Hl, Hfind. simpl. by rewrite Hbot.
  - rewrite (pending_other past id rest) by done. rewrite omap_app, (af_flight _ _ Ha). simpl.
    assert (message_of id = None) as -> by (unfold message_of, as_send; rewrite He; simpl; by rewrite Hl).
    by rewrite app_nil_r.
Qed.

(** Every other event but a block is a step as well. *)
Lemma take_other past id rest e s vs ov m :
  topo = past ++ id :: rest → es !! id = Some e → after past s →
  is_receive e = false → is_block e = false → option_list (observation es rf id) = vs →
  is_error e = ov → message_of id = m →
  step program model s (advance s (thread e) vs ov (in_flight s ++ option_list m)) →
  ∃ s', step program model s s' ∧ after (past ++ [id]) s'.
Proof.
  intros Ht He Ha Hr Hb Hvs Hov Hm Hstep. eexists. split; [exact Hstep|].
  eapply after_snoc; [done..|]. by rewrite (flight_silent past id rest e Ht He Hr), (af_flight _ _ Ha), Hm.
Qed.

Lemma take_event past id rest e s :
  topo = past ++ id :: rest → es !! id = Some e → after past s →
  ∃ s', rtc (step program model) s s' ∧ after (past ++ [id]) s'.
Proof.
  intros Ht He Ha. destruct (is_block e) eqn:Hb; [exists s; split; [done|by eapply after_block]|].
  destruct (next_answer past id rest e s Ht He Ha) as (l0 & Hans & Hl0).
  assert ((∃ s', step program model s s' ∧ after (past ++ [id]) s') →
    ∃ s', rtc (step program model) s s' ∧ after (past ++ [id]) s') as Hone
    by (intros (s' & ? & ?); exists s'; split; [by apply rtc_once|done]).
  apply Hone. apply produced_inv in Hl0. destruct (label e) as [r|l|n| |msg] eqn:Hl.
  - subst l0. by eapply take_receive.
  - subst l0. apply (take_other past id rest e s [] false
      (Some (MkMessage (thread e) (destination l) (value l)))); try done;
      try (unfold is_receive, is_error; by rewrite Hl).
    + unfold observation. rewrite He. simpl. by rewrite Hl.
    + by apply message_of_Some; [|unfold as_send; rewrite Hl].
    + by apply step_send.
  - destruct Hl0 as (nd & -> & Hv).
    apply (take_other past id rest e s [Observed (nd_value n)] false None); try done;
      try (unfold is_receive, is_error; by rewrite Hl).
    + unfold observation. rewrite He. simpl. by rewrite Hl.
    + unfold message_of, as_send. rewrite He. simpl. by rewrite Hl.
    + cbn [option_list option_rect]. rewrite app_nil_r. by eapply step_choice.
  - unfold is_block in Hb. by rewrite Hl in Hb.
  - subst l0. apply (take_other past id rest e s [] true None); try done;
      try (unfold is_receive, is_error; by rewrite Hl).
    + unfold observation. rewrite He. simpl. by rewrite Hl.
    + unfold message_of, as_send. rewrite He. simpl. by rewrite Hl.
    + cbn [option_list option_rect]. rewrite app_nil_r. by eapply step_error.
Qed.

(** Taking all events, causes first. *)
Lemma take_all past rest :
  topo = past ++ rest → ∃ s, rtc (step program model) initial_system s ∧ after past s.
Proof.
  revert rest. induction past as [|id past IH] using rev_ind; intros rest Ht.
  { exists initial_system. split; [done|apply after_nil]. }
  rewrite <-app_assoc in Ht. simpl in Ht. destruct (IH _ Ht) as (s & Hs & Ha).
  assert (id < length es) as [e He]%lookup_lt_is_Some by (apply (li_all _ Htopo); rewrite Ht; set_solver).
  destruct (take_event past id rest e s Ht He Ha) as (s' & Hs' & Ha'). exists s'. split; [by etrans|done].
Qed.

(** When all events have been taken, so have those of every thread. *)
Lemma of_thread_all t : of_thread t topo = thread_ids es t.
Proof.
  destruct (of_thread_take topo [] t) as [n Hn]; [by rewrite app_nil_r|]. rewrite Hn. apply take_ge.
  destruct (decide (length (thread_ids es t) ≤ n)) as [|Hlt]; [done|exfalso].
  destruct (lookup_lt_is_Some_2 (thread_ids es t) n) as [id Hid]; [lia|].
  assert (id ∈ of_thread t topo) as Hin.
  { pose proof (list_elem_of_lookup_2 _ _ _ Hid) as Hel. apply of_thread_elem. split; [|done].
    apply (li_all _ Htopo). apply thread_ids_elem in Hel as (e & He & _). by eapply lookup_lt_Some. }
  rewrite Hn in Hin. apply list_elem_of_lookup_1 in Hin as [j Hj]. apply lookup_take_Some in Hj as [Hj ?].
  pose proof (NoDup_lookup _ _ _ _ (ids_where_nodup _ es) Hid Hj). lia.
Qed.

End order.
End replay.

(** ** Executions as runs *)

Section records.
Context {V : Type} `{EqDecision V} (program : Program V) (model : CommunicationModel).
Implicit Types (g : ExplorationGraph V) (s : System V).

(** [s] is the state of the system after the execution [g]: every thread has observed its
    trace and taken its events but for a final block, and what is in flight are the
    unread sends. *)
Record records g s : Prop := {
  rec_seen t : seen (local s t) = trace_of (events g) (reads_from g) t;
  rec_taken t : taken (local s t) =
    length (List.filter (λ id, negb (at_block (events g) id)) (thread_ids (events g) t));
  rec_over t : over (local s t) = existsb (at_error (events g)) (thread_ids (events g) t);
  rec_flight : in_flight s ≡ₚ omap (message_of (events g)) (unread_send_event_ids g);
}.

(** The topological order of the causal order cache linearises the execution. *)
Lemma linear_exists g :
  Core g → consistent_graph model g → ∃ topo, linear (events g) (reads_from g) topo.
Proof.
  intros Hcore Hc. pose proof (consistent_typed _ _ _ _ Hc) as Hty. destruct Hc as (_ & Hac & _).
  destruct (build_porf_adjacency_and_order_Ok g Hcore Hty)
    as (b & topo & _ & Hb & Hnd & Hlt & Hsorted & Hlen). apply Hb in Hac as ->. specialize (Hlen eq_refl).
  exists topo. split; [done| |].
  - assert (topo ≡ₚ seq 0 (event_count g)) as Hperm.
    { apply submseteq_length_Permutation; [|rewrite length_seq; lia].
      apply NoDup_submseteq; [done|]. intros v Hv%Hlt. apply elem_of_seq. lia. }
    intros id. rewrite Hperm, elem_of_seq. unfold event_count. lia.
  - intros i a b Hi Hab.
    assert (tc (edge_rel (all_edges g)) a b) as Htc by (apply all_edges_tc; [done|by apply tc_once]).
    destruct (topo_sorted_position _ topo a b i Hnd Hsorted Htc Hi) as (j & Hj & Hji).
    apply list_elem_of_lookup_2 with j. by rewrite lookup_take_lt.
Qed.

Lemma pending_unread g topo :
  Core g → linear (events g) (reads_from g) topo →
  omap (message_of (events g)) (pending (reads_from g) topo) ≡ₚ
    omap (message_of (events g)) (unread_send_event_ids g).
Proof.
  intros Hcore Htopo. set (sends := List.filter (λ id, match message_of (events g) id with Some _ => true | None => false end)).
  assert (∀ l, omap (message_of (events g)) l = omap (message_of (events g)) (sends l)) as Hsends.
  { induction l as [|id l IH]; [done|]. unfold sends in *. cbn [List.filter].
    change (id :: l) with ([id] ++ l). rewrite omap_app, IH. simpl. destruct (message_of (events g) id) eqn:E; [|done].
    change (id :: List.filter ?p l) with ([id] ++ List.filter p l). rewrite omap_app. simpl. by rewrite E. }
  rewrite (Hsends (pending _ _)), (Hsends (unread_send_event_ids g)). apply omap_Permutation, NoDup_Permutation.
  - do 2 apply NoDup_ListNoDup, List.NoDup_filter, NoDup_ListNoDup. apply Htopo.
  - apply NoDup_ListNoDup, List.NoDup_filter, NoDup_ListNoDup.
    rewrite unread_send_event_ids_eq by done. unfold ExecutionGraph.unread_send_event_ids.
    apply NoDup_ListNoDup, List.NoDup_filter, NoDup_ListNoDup. apply ids_where_nodup.
  - intros id. unfold sends. rewrite !list_elem_of_In, !filter_In, <-!list_elem_of_In.
    rewrite (pending_elem (reads_from g)), (li_all _ _ _ Htopo), (unread_send_event_ids_elem g id Hcore).
    split.
    + intros [[Hlt Hun] Hm]. split; [|done]. split.
      * destruct (message_of (events g) id) as [m|] eqn:E; [|done].
        apply message_of_inv in E as (e & sl & He & Hsl & _). exists e. split; [done|].
        apply is_send_true. eauto.
      * intros r Hr. apply (Hun r); [|done]. apply (li_all _ _ _ Htopo).
        by apply (rf_edge_range _ _ _ _ (core_rf _ Hcore)) in Hr as [_ ?].
    + intros [[(e & He & _) Hun] Hm]. split; [|done]. split; [by eapply lookup_lt_Some|].
      intros r _. apply Hun.
Qed.

(** A consistent execution that follows the program is the record of a run. *)
Lemma execution_is_run g :
  Core g → consistent_graph model g → follows_graph program g →
  ∃ s, rtc (step program model) initial_system s ∧ records g s.
Proof.
  intros Hcore Hc Hf. destruct (linear_exists g Hcore Hc) as [topo Htopo].
  destruct (take_all program model (events g) (reads_from g) topo Htopo (core_rf _ Hcore) Hc Hf topo [])
    as (s & Hs & [Hseen Htaken Hover Hflight]); [by rewrite app_nil_r|].
  exists s. split; [done|]. split.
  - intros t. unfold trace_of. by rewrite Hseen, (of_thread_all _ _ topo Htopo t).
  - intros t. by rewrite Htaken, (of_thread_all _ _ topo Htopo t).
  - intros t. by rewrite Hover, (of_thread_all _ _ topo Htopo t).
  - rewrite Hflight. by apply pending_unread.
Qed.

End records.
