(* ===== verification/Totality.v ===== *)
(** * Totality: on a sound graph the decisions of the engine are made

    The functions of [Dpor] and [Revisit] check their arguments and throw
    [internal_error] or [precondition_error] when an invariant of the exploration is
    broken.  On a sound graph none of these checks fails: the revisit condition, the
    Deleted scan and the backward revisits answer, and what a thread function can make
    the engine throw is the user-code error that reports it. *)

From stdpp Require Import base tactics numbers relations sets sorting list strings.
From S2P Require Import Prelude Errors Event Relation ExecutionGraph ExplorationGraph Porf.
From S2P Require Import Consistency StorageFacts ExecutionGraphFacts ExplorationFacts Rollback.
From S2P Require Import Queries PorfFacts PorfClocks ConsistencyFacts CheckerFacts FifoFacts.
From S2P Require Import Program Masked Dpor Revisit RestrictFacts SoundFacts Tiebreaker.
From S2P Require Import MaskedFacts RevisitFacts NextEvent.

(** ** Computations that return *)

Definition returns {A} (r : res A) : Prop := ∃ a, r = Ok a.

Lemma returns_bind {A B} (r : res A) (f : A → res B) :
  returns r → (∀ a, r = Ok a → returns (f a)) → returns (r ≫= f).
Proof. intros [a ->] Hf. by apply Hf. Qed.

Lemma returns_existsM {A} (p : A → res bool) l :
  (∀ a, a ∈ l → returns (p a)) → returns (existsM p l).
Proof.
  induction l as [|a l IH]; intros Hp; simpl; [by eexists|].
  destruct (Hp a) as [b ->]; [set_solver|]. simpl. destruct b; [by eexists|].
  apply IH. set_solver.
Qed.

Lemma returns_filterM {A} (p : A → res bool) l :
  (∀ a, a ∈ l → returns (p a)) → returns (filterM p l).
Proof.
  induction l as [|a l IH]; intros Hp; simpl; [by eexists|].
  destruct (Hp a) as [b ->]; [set_solver|]. simpl.
  destruct IH as [l' ->]; [set_solver|]. simpl. by eexists.
Qed.

Section totality.
Context {V : Type} `{EqDecision V} (value_lt : V → V → bool) (bound : nat)
  (model : CommunicationModel).
Implicit Types (g : ExplorationGraph V).

Abbreviation causes g := (tc (porf (events g) (reads_from g))).

Lemma event_returns g id : id < event_count g → ∃ e, events g !! id = Some e ∧
  ExplorationGraph.event g id = Ok e.
Proof.
  intros [e He]%lookup_lt_is_Some_2. exists e. split; [done|]. by apply event_Ok.
Qed.

(** *** Queries *)

Lemma send_is_compatible_returns g tid r id :
  total_label (LReceive r) → id < event_count g → returns (send_is_compatible g tid r id).
Proof.
  intros Ht Hid. destruct (event_returns g id Hid) as (e & _ & He). unfold send_is_compatible.
  rewrite He. simpl. destruct (as_send e) as [s|]; [|by eexists]. case_decide; [|by eexists].
  unfold accepts, invoke_user_code. destruct (Ht (value s)) as [b ->]. by eexists.
Qed.

Lemma unread_in_range g id :
  Core g → id ∈ ExplorationGraph.unread_send_event_ids g → id < event_count g.
Proof.
  intros Hcore [(e & He & _) _]%(unread_send_event_ids_elem g id Hcore).
  by apply lookup_lt_Some in He.
Qed.

Lemma has_compatible_returns g tid r :
  Core g → total_label (LReceive r) → returns (has_compatible_unread_send g tid r).
Proof.
  intros Hcore Ht. unfold has_compatible_unread_send. rewrite any_unread_send_eq by done.
  apply returns_existsM. intros id Hid. apply send_is_compatible_returns; [done|].
  by apply unread_in_range.
Qed.

Lemma compatible_ids_returns g tid r :
  Core g → total_label (LReceive r) → returns (compatible_unread_send_ids g tid r).
Proof.
  intros Hcore Ht. apply returns_filterM. intros id Hid.
  apply send_is_compatible_returns; [done|]. by apply unread_in_range.
Qed.

Lemma check_consistency_returns g :
  Good bound g → returns (check_consistency g model).
Proof.
  intros [Hinv Hcache Ht _].
  destruct (check_exploration_graph_Ok model g no_missing_reads_tolerance Hinv Hcache Ht)
    as (r & g' & Hr & _). exists (r, g'). exact Hr.
Qed.

(** *** The revisit condition *)

Lemma in_previous_checked_spec g e s ep :
  Sound bound model g → e < event_count g → s < event_count g →
  ∃ b, in_previous_checked g e s ep = Ok b ∧
    (b = true ↔ ep < event_count g ∧ (ep ≤ e ∨ causes g ep s)).
Proof.
  intros Hs He Hs'. unfold in_previous_checked. case_decide as Hep.
  - destruct (in_previous_spec bound model g e s ep Hs He Hs' Hep) as (b & -> & Hb).
    exists b. split; [done|]. rewrite Hb. tauto.
  - exists false. split; [done|]. split; [done|]. by intros [? _].
Qed.

(** Previous is closed under program order. *)
Lemma previous_closed g e s mask a b :
  (∀ ep, mask !! ep = Some true ↔ ep < event_count g ∧ (ep ≤ e ∨ causes g ep s)) →
  po (events g) a b → kept mask b → kept mask a.
Proof.
  unfold kept. intros Hmask Hpo. rewrite !Hmask. intros [Hb Hor]. pose proof Hpo as [Hlt _].
  split; [lia|]. destruct Hor as [?|Hc]; [left; lia|right]. eapply tc_l; [by left|done].
Qed.

Lemma revisit_blocking_receive_returns g e s er rl :
  Sound bound model g → s < event_count g → events g !! e = Some er →
  as_receive er = Some rl → is_nonblocking rl = false →
  returns (revisit_blocking_receive g e s model).
Proof.
  intros Hs Hlt Her Hrl Hb. pose proof Hs as [[Hinv _ Ht _] Hc].
  assert (e < event_count g) as He by (by apply lookup_lt_Some in Her).
  unfold revisit_blocking_receive.
  destruct (in_previous_checked_spec g e s e Hs He Hlt) as (b & -> & Hbe). simpl.
  assert (b = true) as -> by (apply Hbe; split; [done|by left]). simpl.
  pose proof Hc as ([Hent _ Htot] & _).
  destruct (Htot e er Her) as [src Hsrc]; [|done|].
  { unfold is_receive. apply as_receive_Some in Hrl. by rewrite Hrl. }
  rewrite Hsrc. destruct (Hent _ _ Hsrc) as (er' & rl' & Her' & Hrl' & Hs'). simpl in *.
  assert (er' = er) as -> by congruence. assert (rl' = rl) as -> by congruence.
  destruct (rf_send src) as [current|] eqn:Ecur.
  2:{ unfold is_blocking, is_nonblocking in *. by destruct (mode rl). }
  assert (src = from_send current) as -> by (destruct src; simpl in Ecur; simplify_eq; done).
  destruct (in_previous_checked_spec g e s current Hs He Hlt) as (inside & -> & Hin). simpl.
  destruct inside; [|by eexists]. simpl.
  destruct (compute_previous_set_spec bound model g e s Hs He Hlt) as (mask & -> & Hlen & Hmask).
  simpl. destruct (get_cons_tiebreaker_masked_Ok model g mask e current er rl)
    as (t & _ & _ & _ & _ & -> & _); try done.
  - intros a b. by apply (previous_closed g e s).
  - by apply Hmask, Hbe.
  - by apply Hmask, Hin.
  - by eexists.
Qed.

Lemma revisit_condition_returns g e s :
  Sound bound model g → e < event_count g → s < event_count g →
  returns (revisit_condition value_lt g e s model).
Proof.
  intros Hs He Hlt. destruct (event_returns g e He) as (er & Her & Hev). unfold revisit_condition.
  rewrite Hev. simpl. pose proof Hs as [[Hinv _ _ _] Hc].
  assert (returns (read ← existsM (reads_in_previous g e s) (rf_to_list (reads_from g));
                   Ok (negb read))) as Hother.
  { apply returns_bind; [|by eexists]. apply returns_existsM. intros [r src] Hr.
    unfold reads_in_previous. case_decide; [|by eexists].
    apply rf_to_list_elem, (core_rf _ (inv_core _ Hinv)) in Hr as [Hr _]. simpl.
    destruct (event_returns g r Hr) as (e' & _ & ->). simpl. destruct (is_receive e'); [|by eexists].
    by destruct (in_previous_checked_spec g e s r Hs He Hlt) as (b & -> & _); eexists. }
  destruct (label er) as [rl| |nd| |] eqn:El; try done.
  - destruct (is_nonblocking rl) eqn:Enb.
    + destruct Hc as ([_ _ Htot] & _). destruct (Htot e er Her) as [src ->]; [|done|by eexists].
      unfold is_receive. by rewrite El.
    + eapply revisit_blocking_receive_returns; try done. by apply as_receive_Some.
  - by destruct (choices nd); eexists.
Qed.

Lemma deleted_scan_returns g recv send keep eps :
  Sound bound model g → recv < event_count g → send < event_count g →
  (∀ ep, ep ∈ eps → ep < event_count g) → length keep = event_count g →
  ∃ scan, deleted_scan value_lt g recv send model keep eps = Ok scan ∧
    ∀ mask, scan = Some mask → length mask = event_count g.
Proof.
  intros Hs Hr Hlt. revert keep. induction eps as [|ep eps IH]; intros keep Heps Hlen; simpl.
  { eexists. split; [done|]. by intros mask [= <-]. }
  assert (ep < event_count g) as Hep by (apply Heps; set_solver).
  assert (∀ ep', ep' ∈ eps → ep' < event_count g) as Heps' by (intros; apply Heps; set_solver).
  case_decide; [by apply IH|].
  destruct (in_previous_spec bound model g recv send ep Hs Hr Hlt Hep) as (b & -> & _). simpl.
  destruct b; [by apply IH|]. rewrite vec_set_Ok by lia. simpl.
  destruct (revisit_condition_returns g ep send Hs Hep Hlt) as [ok ->]. simpl.
  destruct ok; [apply IH; [done|by rewrite length_insert]|]. by exists None.
Qed.

Lemma backward_revisit_from_returns g send_id send idx receives :
  Sound bound model g → send_id < event_count g → (∀ r, r ∈ receives → r < event_count g) →
  returns (backward_revisit_from value_lt g send_id send model idx receives).
Proof.
  intros Hs Hlt. revert idx. induction receives as [|recv receives IH]; intros idx Hrs; simpl.
  { by eexists. }
  assert (recv < event_count g) as Hr by (apply Hrs; set_solver).
  assert (∀ idx, returns (backward_revisit_from value_lt g send_id send model idx receives))
    as Hnext by (intros; apply IH; set_solver).
  pose proof Hs as [[Hinv _ Ht _] _].
  destruct (event_returns g recv Hr) as (er & Her & ->). simpl.
  destruct (as_receive er) as [rl|] eqn:Hrl; [|apply Hnext].
  rewrite (as_receive_total _ _ _ _ (value send) Ht Her Hrl). simpl.
  destruct (accepts_pure rl (value send)); [simpl|apply Hnext].
  destruct (porf_query_spec bound model g recv send_id Hs Hr Hlt) as (c & -> & _). simpl.
  destruct c; [apply Hnext|]. destruct (revisit_condition_returns g recv send_id Hs Hr Hlt) as [ok ->]. simpl.
  destruct ok; [simpl|apply Hnext].
  destruct (deleted_scan_returns g recv send_id (replicate (event_count g) true)
    (seq 0 (event_count g)) Hs Hr Hlt) as (scan & -> & Hscan).
  { intros ep [_ ?]%elem_of_seq. done. }
  { apply length_replicate. }
  simpl. destruct scan as [mask|]; [|apply Hnext]. specialize (Hscan mask eq_refl).
  destruct (restrict_Ok g mask Hinv Hscan) as (r & -> & Hrest). simpl.
  destruct (new_id_of mask recv) as [nr|] eqn:Enr; [|apply Hnext].
  destruct (new_id_of mask send_id) as [ns|] eqn:Ens; [|apply Hnext].
  assert (∀ new old, new_id_of mask old = Some new → new < event_count r) as Hnew.
  { intros new old Hn%new_id_of_kept%lookup_lt_Some. unfold event_count.
    by rewrite <-(Forall2_length _ _ _ (rs_events _ _ _ Hrest)). }
  unfold rebind_rf_preserving_known_acyclicity.
  destruct (rebind_rf_run r nr ns
    (known_acyclic_ r && holds_at r is_receive nr && holds_at r is_send ns))
    as (c & -> & _); [apply Hrest|by eapply Hnew|by eapply Hnew|apply Hrest|apply Hrest|].
  by eexists.
Qed.

Lemma next_backward_revisit_child_returns g send_id receives i :
  Sound bound model g → send_id < event_count g → (∀ r, r ∈ receives → r < event_count g) →
  returns (next_backward_revisit_child value_lt g send_id model receives i).
Proof.
  intros Hs Hlt Hrs. unfold next_backward_revisit_child.
  destruct (event_returns g send_id Hlt) as (e & _ & ->). simpl.
  destruct (as_send e) as [send|]; [|by eexists].
  apply backward_revisit_from_returns; [done..|]. intros r Hr. apply Hrs.
  rewrite <-(take_drop i receives). set_solver.
Qed.

End totality.
