(* ===== verification/EngineFacts.v ===== *)
(** * EngineFacts: the invariant of the exploration engine

    Every context of the engine holds a graph and a stack of frames.  The invariant says
    what each frame knows: its checkpoint is the checkpoint of a sound graph, and the
    frames above it have only appended to the logs since.  It follows that every rollback
    of the engine succeeds in restoring the graph it is for, that a graph is visited only
    when it is consistent, and that the caller's graph is left as it was.

    The invariant carries along a property of executions that the mutations of the engine
    keep ([Carried]): of the graphs of frames, of tasks that prove consistent, and of what
    is published.

    What the executor is told is described by [published]; an executor invariant that
    survives such publications survives the exploration ([Preserves]). *)

From stdpp Require Import base tactics numbers relations sets list strings.
From S2P Require Import Prelude Errors Event Relation ExecutionGraph ExplorationGraph Porf.
From S2P Require Import Consistency StorageFacts ExecutionGraphFacts ExplorationFacts Rollback.
From S2P Require Import Queries ConsistencyFacts FifoFacts Program Masked Dpor Revisit Explorer.
From S2P Require Import RestrictFacts SoundFacts NextEvent Conformance.
From S2P Require Import RevisitFacts.

Section engine.
Context {V O X : Type} `{EqDecision V} `{Executor V X} (value_lt : V → V → bool)
  (config : DporConfig V O) (thread_ids : list ThreadId) (Q : ExplorationGraph V → Prop).
Implicit Types (m : Explorer V X) (g : ExplorationGraph V) (f : ExplorationFrame V)
  (fs : list (ExplorationFrame V)) (x : X).

Abbreviation Good := (Good (V := V) (max_thread_events config)).
Abbreviation Sound := (Sound (V := V) (max_thread_events config) (communication_model config)).
Abbreviation consistent_graph := (consistent_graph (V := V) (communication_model config)).
Abbreviation extends := (extends (V := V) (program config)).
Abbreviation may_grow := (may_grow (V := V) (max_thread_events config)).

(** ** What is published *)

(** No thread has a next event, whether or not the bound hides one. *)
Definition exhausted g : Prop :=
  ∀ tid, tid ∈ thread_ids → idle (program config) (max_thread_events config) g tid.

(** A maximal execution: every thread has ended or is done, and no blocked thread can be
    rescheduled. *)
Definition maximal g : Prop :=
  (∀ tid, tid ∈ thread_ids → ended g tid ∨ done (program config) g tid) ∧
  ∀ tid, tid ∈ thread_ids → reschedule_thread (program config) g tid = Ok None.

(** The terminal executions the engine publishes.  [DepthLimit] says where the exploration
    was cut off ([max_depth] branching decisions deep), not what the graph is like. *)
Definition published g (kind : TerminalExecutionKind) (depth : nat) : Prop :=
  Sound g ∧ depth = compute_max_thread_event_depth g thread_ids ∧
  (max_thread_events config ≠ 0 → depth ≤ max_thread_events config) ∧
  match kind with
  | Full => maximal g ∧ ¬ ∃ t, blocked (events g) t
  | Blocked => maximal g ∧ ∃ t, blocked (events g) t
  | ErrorExecution => ∃ es e, events g = es ++ [e] ∧ is_error e = true
  | DepthLimit => True
  | ThreadEventLimit => exhausted g ∧
      ∃ tid, tid ∈ thread_ids ∧ ¬ ended g tid ∧ at_limit (max_thread_events config) g tid
  end.

(** ** Executor invariants *)

(** The executor has just answered that no stop is requested. *)
Definition ongoing x : Prop := ∃ x0, stop_requested (V := V) x0 = (false, x).

(** [P] survives everything the engine asks of the executor; the engine publishes only
    right after it has learned that it need not stop. *)
Record Preserves (P : X → Prop) : Prop := {
  pr_stop : ∀ x, P x → P (stop_requested (V := V) x).2;
  pr_report : ∀ x x', P x → maybe_report_progress (V := V) x = Ok x' → P x';
  pr_spawn : ∀ d x, P x → P (can_spawn (V := V) d x).2;
  pr_split : ∀ d x, P x → P (should_split_to_idle_worker (V := V) d x).2;
  pr_note_nd : ∀ x, P x → P (note_nd_split (V := V) x);
  pr_note_receive : ∀ x, P x → P (note_receive_split (V := V) x);
  pr_enqueue : ∀ task x, P x → Good (task_graph _ task) →
    (task_mode _ task = Visit → Sound (task_graph _ task)) →
    (consistent_graph (task_graph _ task) → Q (task_graph _ task)) → P (try_enqueue task x).2;
  pr_publish : ∀ g kind depth x b x', P x → ongoing x → published g kind depth → Q g →
    publish_terminal_execution g kind depth x = Ok (b, x') → P x';
}.

(** ** What frames know *)

(** The data a suspended frame will use on the graph [g0] it goes back to. *)
Definition frame_data f g0 : Prop :=
  match frame_kind f with
  | ResumeNd => may_grow (events g0) (thread_id f) ∧ thread_id f ∈ thread_ids ∧
      ∃ nd, frame_label f = Some (LNd nd) ∧ choices nd ≠ [] ∧
        ∀ v, v ∈ choices nd → extends g0 (thread_id f) (LNd (MkNdLabel v (choices nd)))
  | ResumeReceive => may_grow (events g0) (thread_id f) ∧ thread_id f ∈ thread_ids ∧
      (∃ recv, frame_label f = Some (LReceive recv) ∧ total_label (LReceive recv) ∧
         extends g0 (thread_id f) (LReceive recv)) ∧
      ∀ id, id ∈ candidate_event_ids f → id < event_count g0
  | _ => True
  end.

(** The frame of a send that is live in [g], with receives of [g] to revisit. *)
Definition send_frame f g : Prop :=
  ∃ id, event_id f = Some id ∧ holds_at g is_send id = true ∧
    ∀ r, r ∈ candidate_event_ids f → r < event_count g.

(** The graph the bottom of the frames belongs to, when it is the caller's. *)
Definition base_ok (root : option (ExplorationGraph V)) g : Prop :=
  match root with Some g0 => same_execution g0 g | None => True end.

(** [f] can go back to the graph of its checkpoint. *)
Definition suspended (below : ExplorationGraph V → list (ExplorationFrame V) → Prop)
    f fs g : Prop :=
  ∃ g0, Sound g0 ∧ Q g0 ∧ frame_checkpoint f = checkpoint g0 ∧ Since g0 g ∧ frame_data f g0 ∧
    below g0 fs.

(** The frames under the graph of a visit in progress. *)
Fixpoint below_ok root g fs : Prop :=
  match fs with
  | [] => base_ok root g
  | f :: fs' =>
      frame_kind f ≠ Enter ∧ frame_kind f ≠ ResumeSendRevisits ∧
      suspended (λ g0 fs', below_ok root g0 fs') f fs' g
  end.

Definition frames_ok root g fs : Prop :=
  match fs with
  | [] => Good g ∧ base_ok root g
  | f :: fs' =>
      match frame_kind f with
      | Enter => Good g ∧ (frame_mode f = Visit → consistent_graph g) ∧
          (consistent_graph g → Q g) ∧ below_ok root g fs'
      | ResumeSendRevisits => Sound g ∧ Q g ∧ send_frame f g ∧ suspended (below_ok root) f fs' g
      | _ => below_ok root g fs
      end
  end.

(** What a visit knows of the next event. *)
Lemma next_label_facts g r tid l :
  total_program (program config) → Sound g →
  compute_next_event (program config) g thread_ids (max_thread_events config) = Ok r →
  Dpor.next r = Some (tid, l) →
  tid ∈ thread_ids ∧ total_label l ∧ may_grow (events g) tid ∧ ∀ l', resolves l l' → extends g tid l'.
Proof.
  clear Q. intros Htotal Hs Hnext En. destruct (next_event_from_spec _ _ _ _ _ _ Hnext) as [Hmean _].
  unfold next_event_meaning in Hmean. rewrite En in Hmean.
  destruct Hmean as ((pre & post & Htids & _) & Hend & Hlim & Hoff).
  split_and!; [rewrite Htids; set_solver|by eapply offers_total| |].
  - intros Hn. rewrite <-thread_event_count_eq by apply Hs.
    destruct (decide (max_thread_events config ≤ thread_event_count g tid)); [|lia]. by destruct Hlim.
  - intros l' Hl'. eapply offers_extends; [apply Hs|done..].
Qed.

(** [put_eq] proves that an update of the current context is a [put]. *)
Ltac put_eq :=
  match goal with Hcur : current ?m = Ok _ |- _ =>
    destruct m as [? ? [|[[?|] [|? ?]] ?]]; try discriminate Hcur;
    injection Hcur as <- <-; reflexivity
  end.

Section invariant.
Context (root : ExplorationGraph V) (P : X → Prop) (HP : Preserves P)
  (HQ : Carried value_lt (program config) (max_thread_events config) (communication_model config) Q).

Fixpoint contexts_ok (borrowed : ExplorationGraph V) (cs : list (ExplorationContext V)) : Prop :=
  match cs with
  | [] => Good borrowed ∧ base_ok (Some root) borrowed
  | c :: cs' =>
      match owned_graph c with
      | Some g => frames_ok None g (frames c) ∧ contexts_ok borrowed cs'
      | None => cs' = [] ∧ frames_ok (Some root) borrowed (frames c)
      end
  end.

Record Explorer_ok m : Prop := {
  ok_executor : P (executor m);
  ok_contexts : contexts_ok (borrowed_graph m) (contexts m);
}.

(** ** Moving between graphs that hold the same execution *)

Lemma base_ok_same r g g' : base_ok r g → same_execution g g' → base_ok r g'.
Proof.
  destruct r as [g0|]; [|done]. simpl. intros [] []. split; etrans; eauto.
Qed.

Lemma below_ok_same r g g' fs : below_ok r g fs → same_execution g g' → Inv g' → below_ok r g' fs.
Proof.
  destruct fs as [|f fs]; simpl; [intros; by eapply base_ok_same|].
  intros (Hk & Hk' & g0 & Hs & HQ0 & Hcp & Hsince & Hd & Hb) Hsame Hinv. split_and!; [done|done|].
  exists g0. split_and!; try done. by eapply since_same.
Qed.

Lemma below_frames_ok r g fs : Good g → below_ok r g fs → frames_ok r g fs.
Proof.
  destruct fs as [|f fs]; [done|]. intros Hg Hb. pose proof Hb as (Hk & Hk' & _). unfold frames_ok.
  destruct (frame_kind f) eqn:E; congruence || exact Hb.
Qed.

Lemma frame_data_same f g g' :
  events g = events g' → reads_from g ≡ reads_from g' → frame_data f g → frame_data f g'.
Proof.
  intros He Hrf. assert (∀ t l, extends g t l → extends g' t l) as Hx
    by (intros t l; by apply extends_same).
  unfold frame_data, event_count. rewrite <-He. destruct (frame_kind f); [done|done|..|done].
  - intros (? & ? & nd & ? & ? & Hv). split_and!; [done|done|]. exists nd. split_and!; auto.
  - intros (? & ? & (recv & ? & ? & ?) & ?). split_and!; [done|done| |done]. exists recv. split_and!; auto.
Qed.

(** Rolling a suspended frame back. *)
Lemma suspended_rollback r f fs g g' :
  suspended (below_ok r) f fs g → rollback g (frame_checkpoint f) = Ok g' →
  Sound g' ∧ Q g' ∧ below_ok r g' fs ∧ suspended (below_ok r) f fs g' ∧ frame_data f g'.
Proof.
  intros (g0 & Hs & HQ0 & Hcp & Hsince & Hd & Hb) Hroll.
  destruct (rollback_Sound _ _ g0 g _ g' Hs Hsince Hcp Hroll) as [Hs' Hsame].
  pose proof (good_inv _ _ (sound_good _ _ _ Hs')) as Hinv'.
  assert (events g0 = events g' ∧ reads_from g0 ≡ reads_from g') as [He Hrf] by (by destruct Hsame).
  split_and!; [done|by eapply (ca_same _ _ _ _ Q HQ)|by eapply below_ok_same| |].
  - exists g0. split_and!; try done.
    apply (since_same g0 g0); [apply since_refl, Hs|done|done].
  - by eapply frame_data_same.
Qed.

(** ** The current context *)

(** The machine with executor state [x], current graph [g] and current frames [fs]. *)
Definition put m x g fs : Explorer V X :=
  set_current_frames (set_current_graph (set_executor m x) g) fs.

Definition current_root m : option (ExplorationGraph V) :=
  match contexts m with
  | c :: _ => match owned_graph c with Some _ => None | None => Some root end
  | [] => None
  end.

Lemma current_inv m c f :
  current m = Ok (c, f) → ∃ cs fs, contexts m = c :: cs ∧ frames c = f :: fs.
Proof.
  unfold current. destruct (contexts m) as [|c' cs]; [done|].
  destruct (frames c') as [|f' fs] eqn:Ef; [done|]. intros [= -> ->]. eauto.
Qed.

Lemma top_ok m c f :
  Explorer_ok m → current m = Ok (c, f) →
  frames_ok (current_root m) (context_graph m c) (f :: tail (current_frames m)) ∧
  contexts m ≠ [].
Proof.
  intros [_ Hc] (cs & fs & Hcs & Hfs)%current_inv. destruct m as [x b cs0]. simpl in Hcs. subst cs0.
  split; [|done]. destruct c as [[g|] fs0]; simpl in Hfs; subst fs0; exact (proj1 Hc) || exact (proj2 Hc).
Qed.

Lemma put_ok m x g fs :
  Explorer_ok m → contexts m ≠ [] → P x → frames_ok (current_root m) g fs →
  Explorer_ok (put m x g fs).
Proof.
  intros [_ Hc] Hne Hx Hf. unfold put, current_root in *.
  destruct m as [x0 b [|[[g0|] fs0] cs]]; [done|..]; (split; [done|]); simpl in *;
    by destruct Hc as [? ?].
Qed.

(** Popping the top frame of the machine above. *)
Lemma put_pop_ok m x g fs :
  Explorer_ok m → contexts m ≠ [] → P x → frames_ok (current_root m) g fs →
  Explorer_ok (pop_context_if_empty (put m x g fs)).
Proof.
  intros Hm Hne Hx Hf. pose proof (put_ok m x g fs Hm Hne Hx Hf) as Hput.
  destruct fs as [|f fs].
  - destruct Hput as [HPx Hc]. unfold put, current_root in *.
    destruct m as [x0 b [|[[g0|] fs0] cs]]; [done|..]; (split; [done|]); simpl in *.
    + by destruct Hc.
    + by destruct Hc as [-> Hc].
  - unfold put in *. by destruct m as [x0 b [|[[g0|] fs0] cs]].
Qed.

Lemma put_push_ok m x g fs g' d md :
  Explorer_ok m → contexts m ≠ [] → P x → frames_ok (current_root m) g fs →
  Good g' → (md = Visit → Sound g') → (consistent_graph g' → Q g') →
  Explorer_ok (push_owned_context (put m x g fs) g' d md).
Proof.
  intros Hm Hne Hx Hf Hg' Hs' HQ'. destruct (put_ok m x g fs Hm Hne Hx Hf) as [HPx Hc].
  split; [done|]. simpl. split; [|done]. split_and!; [done| |done|done].
  intros Hmd. by apply Hs'.
Qed.

(** ** Steps that only pop *)

Lemma frames_suspended r g f fs :
  frame_kind f ≠ Enter → frames_ok r g (f :: fs) → suspended (below_ok r) f fs g.
Proof.
  intros Hk Hf. unfold frames_ok in Hf. destruct (frame_kind f) eqn:E; try done;
    by destruct Hf as (_ & _ & _ & ?) || destruct Hf as (_ & _ & ?).
Qed.

Lemma pop_top_frame_ok m c f x g :
  Explorer_ok m → current m = Ok (c, f) → P x → Good g →
  below_ok (current_root m) g (tail (current_frames m)) →
  Explorer_ok (pop_top_frame (set_current_graph (set_executor m x) g)).
Proof.
  intros Hm Hcur Hx Hg Hb. destruct (top_ok m c f Hm Hcur) as [_ Hne].
  assert (pop_top_frame (set_current_graph (set_executor m x) g) =
          pop_context_if_empty (put m x g (tail (current_frames m)))) as -> by put_eq.
  apply put_pop_ok; try done. by apply below_frames_ok.
Qed.

Lemma rollback_and_pop_ok m c f m' :
  Explorer_ok m → current m = Ok (c, f) → frame_kind f ≠ Enter →
  rollback_and_pop_top_frame m = Ok m' → Explorer_ok m'.
Proof.
  intros Hm Hcur Hk Hrun. destruct (top_ok m c f Hm Hcur) as [Hf Hne].
  unfold rollback_and_pop_top_frame in Hrun. rewrite Hcur in Hrun. simpl in Hrun.
  apply bind_Ok_inv in Hrun as (g & Hroll & [= <-]).
  destruct (suspended_rollback _ f _ _ g (frames_suspended _ _ _ _ Hk Hf) Hroll)
    as (Hs & _ & Hb & _).
  assert (m = set_executor m (executor m)) as -> by (by destruct m).
  eapply pop_top_frame_ok; try done; [by apply ok_executor|by apply Hs].
Qed.

Lemma unwind_one_step_ok m m' : Explorer_ok m → unwind_one_step m = Ok m' → Explorer_ok m'.
Proof.
  intros Hm Hrun. unfold unwind_one_step in Hrun.
  destruct (contexts m) as [|c cs] eqn:Ec; [by injection Hrun as <-|].
  destruct (frames c) as [|f fs] eqn:Ef.
  - injection Hrun as <-. destruct Hm as [Hx Hc]. split; [done|]. simpl. rewrite Ec in *.
    simpl in *. rewrite Ef in Hc. destruct (owned_graph c); by destruct Hc as [? ?]; subst.
  - assert (current m = Ok (c, f)) as Hcur by (unfold current; by rewrite Ec, Ef).
    destruct (frame_kind f) eqn:Ek; try (by eapply rollback_and_pop_ok; rewrite ?Ek).
    injection Hrun as <-. destruct (top_ok m c f Hm Hcur) as [Hf _].
    unfold frames_ok in Hf. rewrite Ek in Hf. destruct Hf as (Hg & _ & _ & Hb).
    assert (pop_top_frame m =
      pop_top_frame (set_current_graph (set_executor m (executor m)) (context_graph m c)))
      as -> by put_eq.
    eapply pop_top_frame_ok; try done. by apply ok_executor.
Qed.

(** Unwinding cannot fail. *)
Lemma unwind_one_step_total m : Explorer_ok m → ∃ m', unwind_one_step m = Ok m'.
Proof.
  intros Hm. unfold unwind_one_step.
  destruct (contexts m) as [|c cs] eqn:Ec; [by eexists|].
  destruct (frames c) as [|f fs] eqn:Ef; [by eexists|].
  assert (current m = Ok (c, f)) as Hcur by (unfold current; by rewrite Ec, Ef).
  destruct (decide (frame_kind f = Enter)) as [Hk|Hk]; [rewrite Hk; by eexists|].
  destruct (top_ok m c f Hm Hcur) as [Hf _].
  destruct (frames_suspended _ _ _ _ Hk Hf) as (g0 & Hs & _ & Hcp & Hsince & _).
  destruct (rollback_since g0 _ (good_inv _ _ (sound_good _ _ _ Hs)) Hsince) as (g' & Hroll & _).
  assert (rollback_and_pop_top_frame m = Ok (pop_top_frame (set_current_graph m g'))) as Hrun.
  { unfold rollback_and_pop_top_frame. rewrite Hcur. simpl. by rewrite Hcp, Hroll. }
  destruct (frame_kind f); [done|..]; by eexists.
Qed.

(** ** Visits *)

Lemma publish_ok m g kind m' :
  P (executor m) → ongoing (executor m) →
  published g kind (compute_max_thread_event_depth g thread_ids) → Q g →
  publish_terminal thread_ids m g kind = Ok m' → ∃ x, m' = set_executor m x ∧ P x.
Proof.
  intros Hx Ho Hp HQg Hrun. apply bind_Ok_inv in Hrun as ([b x] & Hpub & [= <-]).
  exists x. split; [done|]. by eapply (pr_publish P HP).
Qed.

(** The depth handed to the executor respects the bound. *)
Lemma compute_max_depth_bound g tids :
  Good g → max_thread_events config ≠ 0 →
  compute_max_thread_event_depth g tids ≤ max_thread_events config.
Proof.
  intros [Hinv _ _ Hb] Hn. unfold compute_max_thread_event_depth.
  assert (∀ d, d ≤ max_thread_events config →
    foldl (λ depth tid, depth `max` thread_event_count g tid) d tids ≤ max_thread_events config)
    as Hfold; [|apply Hfold; lia].
  induction tids as [|t tids IH]; intros d Hd; simpl; [done|]. apply IH.
  rewrite thread_event_count_eq by apply Hinv. specialize (Hb Hn t). lia.
Qed.

(** Exploring [g'] above the suspended frame [f']. *)
Lemma push_child_ok m c f x d g' f' md :
  Explorer_ok m → current m = Ok (c, f) → P x → Good g' →
  (md = Visit → consistent_graph g') → (consistent_graph g' → Q g') →
  frame_kind f' ≠ Enter → frame_kind f' ≠ ResumeSendRevisits →
  suspended (below_ok (current_root m)) f' (tail (current_frames m)) g' →
  Explorer_ok (put m x g' (enter d md :: f' :: tail (current_frames m))).
Proof.
  intros Hm Hcur Hx Hg Hc HQg Hk Hk' Hs. destruct (top_ok m c f Hm Hcur) as [_ Hne].
  by apply put_ok.
Qed.

Lemma suspend_Sound r f fs g g' :
  Sound g → Q g → below_ok r g fs → Since g g' → frame_checkpoint f = checkpoint g →
  frame_data f g → suspended (below_ok r) f fs g'.
Proof. intros Hs HQg Hb Hsince Hcp Hd. by exists g. Qed.

(** What [handle_enter_frame] knows when it visits. *)
Record visiting m c f g : Prop := {
  vi_ok : Explorer_ok m;
  vi_current : current m = Ok (c, f);
  vi_sound : Sound g;
  vi_carried : Q g;
  vi_graph : context_graph m c = g;
  vi_below : below_ok (current_root m) g (tail (current_frames m));
}.

Lemma visiting_executor m c f g x :
  visiting m c f g → P x → visiting (set_executor m x) c f g.
Proof. intros [[_ Hc] Hcur Hs HQg Hg Hb] Hx. by split; [split| | | | |]. Qed.

Lemma visit_pop_ok m c f g x :
  visiting m c f g → P x → Explorer_ok (pop_top_frame (set_executor m x)).
Proof.
  intros [Hm Hcur [Hg _] _ Hgr Hb] Hx.
  assert (pop_top_frame (set_executor m x) =
    pop_top_frame (set_current_graph (set_executor m x) g)) as -> by (subst g; put_eq).
  by eapply pop_top_frame_ok.
Qed.

Lemma carried_add g tid l id g' :
  Sound g → Q g → extends g tid l → add_event g tid l = Ok (id, g') → Q g'.
Proof. intros Hs. apply (ca_add _ _ _ _ Q HQ), Hs. Qed.

Lemma enter_linear_child_ok m c f g tid l m' :
  visiting m c f g → total_label l → is_receive (MkEvent tid 0%N l) = false →
  may_grow (events g) tid → extends g tid l → enter_linear_child m g f tid l = Ok m' → Explorer_ok m'.
Proof.
  intros [Hm Hcur Hs HQg Hgr Hb] Hl Hr Hgrow Hx Hrun.
  apply bind_Ok_inv in Hrun as ([id g'] & Hadd & [= <-]).
  assert (push_frame (set_frame (set_current_graph m g') (exit_linear_child f (checkpoint g)))
            (enter (dpor_tree_depth f + 1) Visit) =
          put m (executor m) g' (enter (dpor_tree_depth f + 1) Visit ::
            exit_linear_child f (checkpoint g) :: tail (current_frames m))) as -> by put_eq.
  pose proof (add_event_Sound _ _ _ _ _ _ _ Hs Hl Hr Hgrow Hadd) as [Hg' Hc'].
  eapply push_child_ok; try done; [by apply ok_executor|intros _; exact (carried_add g tid _ _ _ Hs HQg Hx Hadd)|].
  apply (suspend_Sound _ _ _ g); try done.
  eapply since_add_event; [|done]. apply since_refl, Hs.
Qed.

(** Replacing the frame of a visit by a suspended one that has not moved yet. *)
Lemma suspend_frame_ok m c f g f' :
  visiting m c f g → frame_checkpoint f' = checkpoint g →
  frame_kind f' = ResumeNd ∨ frame_kind f' = ResumeReceive → frame_data f' g →
  Explorer_ok (set_frame m f').
Proof.
  intros [Hm Hcur Hs HQg Hgr Hb] Hcp Hk Hd. destruct (top_ok m c f Hm Hcur) as [_ Hne].
  assert (set_frame m f' = put m (executor m) g (f' :: tail (current_frames m))) as ->
    by (subst g; put_eq).
  apply put_ok; [done|done|by apply ok_executor|].
  assert (below_ok (current_root m) g (f' :: tail (current_frames m))) as Hb'.
  { split_and!; [destruct Hk as [-> | ->]; done..|].
    apply (suspend_Sound _ _ _ g); try done. apply since_refl, Hs. }
  apply below_frames_ok; [apply Hs|done].
Qed.

(** Removing repetitions leaves something. *)
Lemma erase_duplicates_nonempty (v : V) vs : erase_duplicate_nd_choices (v :: vs) ≠ [].
Proof.
  assert (∀ l kept, kept ≠ [] → erase_duplicates_from (V := V) kept l ≠ []) as Hkeep.
  { intros l. induction l as [|a l IH]; intros kept Hk; simpl; [done|].
    case_decide; apply IH; [done|]. unfold push_back. by destruct kept. }
  unfold erase_duplicate_nd_choices. simpl. by apply Hkeep.
Qed.

(** Removing repetitions adds nothing. *)
Lemma erase_duplicates_elem (vs : list V) v : v ∈ erase_duplicate_nd_choices vs → v ∈ vs.
Proof.
  assert (∀ l kept, v ∈ erase_duplicates_from kept l → v ∈ kept ∨ v ∈ l) as Hgen.
  { induction l as [|a l IH]; intros kept Hv; simpl in Hv; [by left|].
    case_decide; apply IH in Hv as [Hv|Hv]; unfold push_back in *; set_solver. }
  intros [Hin|?]%Hgen; [by apply not_elem_of_nil in Hin|done].
Qed.

(** The frame pushed for a send just added. *)
Lemma send_frame_new g tid send id g' receives f :
  Sound g → Sound g' → add_event g tid (LSend send) = Ok (id, g') →
  receives_in_destination g' id = Ok receives →
  event_id f = Some id → candidate_event_ids f = receives → send_frame f g'.
Proof.
  intros Hs Hs' Hadd Hrecvs Hid Hcand. pose proof (good_inv _ _ (sound_good _ _ _ Hs')) as Hinv'.
  destruct (add_event_inv g tid (LSend send) id g') as (_ & -> & _ & _ & _ & i & Hev); [apply Hs|done|].
  exists (event_count g). split; [done|].
  assert (events g' !! event_count g = Some (MkEvent tid i (LSend send))) as He.
  { rewrite Hev. by rewrite lookup_app_r, Nat.sub_diag by (unfold event_count; lia). }
  split; [unfold holds_at; by rewrite He|]. rewrite Hcand.
  rewrite (receives_in_destination_eq g' _ _ send (inv_core _ Hinv') He eq_refl) in Hrecvs.
  injection Hrecvs as <-. intros r Hr. by apply ids_where_bound in Hr.
Qed.

Lemma enter_send_ok m c f g tid send m' :
  visiting m c f g → may_grow (events g) tid → extends g tid (LSend send) →
  enter_label thread_ids m g f tid (LSend send) = Ok m' → Explorer_ok m'.
Proof.
  intros [Hm Hcur Hs HQg Hgr Hb] Hgrow Hext Hrun. destruct (top_ok m c f Hm Hcur) as [_ Hne].
  unfold enter_label in Hrun. apply bind_Ok_inv in Hrun as ([send_id g'] & Hadd & Hrun).
  apply bind_Ok_inv in Hrun as (receives & Hrecvs & Hrun).
  pose proof (pr_spawn P HP (dpor_tree_depth f + 1) (executor m) (ok_executor _ Hm)) as Hx.
  destruct (can_spawn _ _) as [spawn x]. injection Hrun as <-.
  set (f' := MkFrame ResumeSendRevisits _ _ _ _ _ _ _ _ _).
  assert (set_frame (set_executor (set_current_graph m g') x) f' =
          put m x g' (f' :: tail (current_frames m))) as -> by put_eq.
  apply put_ok; [done|done|done|].
  assert (Sound g') as Hs' by (by eapply (add_event_Sound _ _ g tid (LSend send))).
  split; [done|]. split; [exact (carried_add g tid _ _ _ Hs HQg Hext Hadd)|]. split.
  - exact (send_frame_new g tid send send_id g' receives f' Hs Hs' Hadd Hrecvs eq_refl eq_refl).
  - apply (suspend_Sound _ _ _ g); try done.
    eapply since_add_event; [|done]. apply since_refl, Hs.
Qed.

Lemma compatible_unread_send_ids_bound g tid recv ids :
  Core g → compatible_unread_send_ids g tid recv = Ok ids →
  ∀ id, id ∈ ids → id < event_count g.
Proof.
  intros Hcore Hrun. unfold compatible_unread_send_ids in Hrun.
  assert (∀ id, id ∈ unread_send_event_ids g → id < event_count g) as Hb.
  { intros id Hid. apply (unread_send_event_ids_elem g id Hcore) in Hid as ((e & He & _) & _).
    by eapply lookup_lt_Some. }
  revert ids Hrun Hb. generalize (unread_send_event_ids g). intros l.
  induction l as [|a l IH]; intros ids Hrun Hb id Hid; simpl in Hrun.
  - injection Hrun as <-. by apply not_elem_of_nil in Hid.
  - apply bind_Ok_inv in Hrun as (b & _ & Hrun). apply bind_Ok_inv in Hrun as (rest & Hr & [= <-]).
    assert (id ∈ rest → id < event_count g) as Hrest.
    { intros. eapply IH; [done| |done]. intros. apply Hb. set_solver. }
    destruct b; [|by apply Hrest]. apply elem_of_cons in Hid as [->|Hid]; [|by apply Hrest].
    apply Hb. set_solver.
Qed.

Lemma enter_error_ok m c f g tid msg m' :
  visiting m c f g → ongoing (executor m) → may_grow (events g) tid → extends g tid (LError msg) →
  enter_label thread_ids m g f tid (LError msg) = Ok m' → Explorer_ok m'.
Proof.
  intros Hv Ho Hgrow Hext Hrun. pose proof Hv as [Hm Hcur Hs HQg Hgr Hb]. unfold enter_label in Hrun.
  apply bind_Ok_inv in Hrun as ([id g'] & Hadd & Hrun).
  apply bind_Ok_inv in Hrun as (m1 & Hpub & Hrun).
  apply bind_Ok_inv in Hrun as (g'' & Hroll & [= <-]).
  pose proof (add_event_Sound _ _ g tid (LError msg) id g' Hs I eq_refl Hgrow Hadd) as Hs'.
  destruct (add_event_inv g tid (LError msg) id g' (good_inv _ _ (sound_good _ _ _ Hs)) Hadd)
    as (_ & _ & _ & _ & _ & i & Hev).
  apply publish_ok in Hpub as (x & -> & Hx).
  2,3: assert (executor (set_current_graph m g') = executor m) as -> by put_eq;
    done || by apply ok_executor.
  2:{ split_and!; [done|done| |].
      - apply compute_max_depth_bound, Hs'.
      - rewrite Hev. by eexists _, _. }
  2:{ exact (carried_add g tid _ _ _ Hs HQg Hext Hadd). }
  assert (Since g g') as Hsince.
  { eapply since_add_event; [|done]. apply since_refl, Hs. }
  destruct (rollback_Sound _ _ g g' _ g'' Hs Hsince eq_refl Hroll) as [Hs'' Hsame].
  assert (pop_top_frame (set_current_graph (set_executor (set_current_graph m g') x) g'') =
          pop_top_frame (set_current_graph (set_executor m x) g'')) as -> by put_eq.
  eapply pop_top_frame_ok; try done; [apply Hs''|].
  eapply below_ok_same; [done|done|]. apply Hs''.
Qed.

Lemma enter_label_ok m c f g tid l m' :
  visiting m c f g → ongoing (executor m) → total_label l → may_grow (events g) tid →
  (∀ l', resolves l l' → extends g tid l') → tid ∈ thread_ids → enter_label thread_ids m g f tid l = Ok m' → Explorer_ok m'.
Proof.
  intros Hv Ho Hl Hgrow Hext Htid Hrun. destruct l as [recv|send|nd| |msg].
  - unfold enter_label in Hrun. apply bind_Ok_inv in Hrun as (ids & Hids & [= <-]).
    eapply suspend_frame_ok; [done|done|by right|]. simpl. split_and!; [done|done|exists recv; split_and!; [done|done|by apply Hext]|].
    eapply compatible_unread_send_ids_bound; [|done].
    apply (inv_core _ (good_inv _ _ (sound_good _ _ _ (vi_sound _ _ _ _ Hv)))).
  - eapply enter_send_ok; [done|done|by apply Hext|done].
  - unfold enter_label in Hrun. destruct (choices nd) as [|v vs] eqn:Ec.
    + eapply enter_linear_child_ok; try done. apply Hext. simpl. by rewrite Ec.
    + injection Hrun as <-. eapply suspend_frame_ok; [done|done|by left|]. split_and!; [done..|].
      eexists. split; [done|]. rewrite ?Ec. split; [apply erase_duplicates_nonempty|]. simpl.
      intros v' Hv'. apply Hext. simpl. rewrite Ec. exists v'. split; [|done]. by apply erase_duplicates_elem.
  - eapply enter_linear_child_ok; try done. by apply Hext.
  - eapply enter_error_ok; [done|done|done|by apply Hext|done].
Qed.

Lemma find_reschedule_from_ok g x tids r x' :
  Sound g → Q g → P x → ongoing x → find_reschedule_from config g x tids = Ok (r, x') →
  P x' ∧ match r with
         | RescheduleReady g' => Sound g' ∧ Q g'
         | RescheduleNone => ongoing x' ∧
             ∀ tid, tid ∈ tids → reschedule_thread (program config) g tid = Ok None
         | RescheduleStopRequested => True
         end.
Proof.
  intros Hs HQg. revert x. induction tids as [|tid tids IH]; intros x Hx Ho Hrun; simpl in Hrun.
  { injection Hrun as <- <-. split_and!; [done|done|]. by intros tid ?%not_elem_of_nil. }
  pose proof (pr_stop P HP x Hx) as Hx1. destruct (stop_requested x) as [stop x1] eqn:Estop.
  destruct stop; [by injection Hrun as <- <-|].
  apply bind_Ok_inv in Hrun as (child & Hre & Hrun). destruct child as [g'|].
  - injection Hrun as <- <-. split_and!; [done|by eapply reschedule_thread_Sound|].
    by eapply (ca_reschedule _ _ _ _ Q HQ).
  - destruct (IH x1 Hx1 ltac:(by exists x) Hrun) as [? Hr]. split; [done|]. destruct r; try done.
    destruct Hr as [Ho' Hr]. split; [done|]. intros t [->|Ht]%elem_of_cons; [done|auto].
Qed.

Lemma ended_dec g tid : Core g → ended g tid ∨ ¬ ended g tid.
Proof.
  intros Hcore. unfold ended. rewrite thread_is_terminated_eq by done.
  destruct (match thread_tail _ _ with Some e => _ | None => _ end); [by left|by right].
Qed.

(** The classification of an execution without a next event. *)
Lemma enter_maximal_published g r blocked :
  Sound g → compute_next_event (program config) g thread_ids (max_thread_events config) = Ok r →
  next r = None →
  (∀ tid, tid ∈ thread_ids → reschedule_thread (program config) g tid = Ok None) →
  (if suppressed_by_thread_event_limit r then Ok false else has_blocked_thread g) = Ok blocked →
  published g (if suppressed_by_thread_event_limit r then ThreadEventLimit
               else if blocked then Blocked else Full)
    (compute_max_thread_event_depth g thread_ids).
Proof.
  intros Hs Hnext Hnone Hno Hblocked.
  pose proof (inv_core _ (good_inv _ _ (sound_good _ _ _ Hs))) as Hcore.
  destruct (next_event_from_spec _ _ _ _ _ _ Hnext) as [Hm Hsup].
  unfold next_event_meaning in Hm. rewrite Hnone in Hm. specialize (Hsup Hnone).
  split_and!; [done|done|apply compute_max_depth_bound, Hs|].
  destruct (suppressed_by_thread_event_limit r) eqn:Es.
  - split; [done|]. by destruct (proj1 Hsup eq_refl).
  - assert (maximal g) as Hmax.
    { split; [|done]. intros tid Htid. destruct (ended_dec g tid Hcore) as [He|He]; [by left|].
      destruct (Hm tid Htid) as [?|[Hl|?]]; [by left| |by right].
      assert (false = true); [|done]. apply Hsup. right. by exists tid. }
    destruct (has_blocked_thread_eq g Hcore) as (b & Hb & Hiff). rewrite Hb in Hblocked.
    injection Hblocked as <-. destruct b; (split; [done|]); [by apply Hiff|]. by rewrite <-Hiff.
Qed.

Lemma enter_maximal_ok m c f g r m' :
  visiting m c f g → ongoing (executor m) →
  compute_next_event (program config) g thread_ids (max_thread_events config) = Ok r →
  next r = None →
  enter_maximal config thread_ids m g f (suppressed_by_thread_event_limit r) = Ok m' →
  Explorer_ok m'.
Proof.
  intros Hv Ho Hnext Hnone Hrun. pose proof Hv as [Hm Hcur Hs HQg Hgr Hb].
  unfold enter_maximal in Hrun. apply bind_Ok_inv in Hrun as ([re x] & Hre & Hrun).
  destruct (find_reschedule_from_ok g (executor m) thread_ids re x Hs HQg (ok_executor _ Hm) Ho Hre)
    as [Hx Hspec].
  destruct re as [|g'|].
  - apply bind_Ok_inv in Hrun as (bl & Hbl & Hrun). apply bind_Ok_inv in Hrun as (m1 & Hpub & [= <-]).
    destruct Hspec as [Hox Hnore].
    apply publish_ok in Hpub as (x' & -> & Hx'); [|done|done|by apply enter_maximal_published|done].
    assert (set_executor (set_executor m x) x' = set_executor m x') as -> by done.
    by eapply visit_pop_ok.
  - injection Hrun as <-. pose proof (visit_pop_ok m c f g x Hv Hx) as [HPx Hc].
    destruct Hspec as [Hs' HQ'].
    split; [done|]. simpl. split; [|done]. split_and!; [apply Hs'|intros; apply Hs'|done|done].
  - injection Hrun as <-. destruct Hm as [_ Hc]. by split.
Qed.

Context (Htotal : total_program (program config)).

Lemma enter_visit_ok m c f g m' :
  visiting m c f g → enter_visit config thread_ids m = Ok m' → Explorer_ok m'.
Proof.
  intros Hv Hrun. pose proof Hv as [Hm Hcur Hs HQg Hgr Hb]. unfold enter_visit in Hrun.
  rewrite Hcur in Hrun. simpl in Hrun. rewrite Hgr in Hrun.
  apply bind_Ok_inv in Hrun as (x0 & Hrep & Hrun).
  pose proof (pr_stop P HP x0 (pr_report P HP _ _ (ok_executor _ Hm) Hrep)) as Hx.
  destruct (stop_requested x0) as [stop x] eqn:Estop. simpl in Hx.
  pose proof (visiting_executor m c f g x Hv Hx) as Hv'.
  destruct stop; [injection Hrun as <-; apply Hv'|].
  assert (ongoing (executor (set_executor m x))) as Ho by (by exists x0). case_decide as Hd.
  - apply bind_Ok_inv in Hrun as (m1 & Hpub & [= <-]).
    apply publish_ok in Hpub as (x' & -> & Hx'); [|done|done| |done].
    + by eapply (visit_pop_ok (set_executor m x)).
    + split_and!; [done|done|apply compute_max_depth_bound, Hs|done].
  - apply bind_Ok_inv in Hrun as (r & Hnext & Hrun).
    destruct (Dpor.next r) as [[tid l]|] eqn:En; [|by eapply enter_maximal_ok].
    destruct (next_label_facts g r tid l Htotal Hs Hnext En) as (Htid & Hl & Hgrow & Hext).
    by eapply enter_label_ok.
Qed.

(** The context of a graph that passed the consistency check. *)
Lemma checked_visiting m c f x g :
  Explorer_ok m → current m = Ok (c, f) → frame_kind f = Enter → P x → Sound g → Q g →
  below_ok (current_root m) g (tail (current_frames m)) →
  ∃ c', visiting (set_frame (set_current_graph (set_executor m x) g) (set_mode f Visit)) c'
          (set_mode f Visit) g.
Proof.
  intros Hm Hcur Hk Hx Hs HQg Hb. destruct (top_ok m c f Hm Hcur) as [_ Hne].
  set (f' := set_mode f Visit) in *.
  assert (set_frame (set_current_graph (set_executor m x) g) f' =
          put m x g (f' :: tail (current_frames m))) as -> by put_eq.
  assert (∃ c', current (put m x g (f' :: tail (current_frames m))) = Ok (c', f') ∧
    context_graph (put m x g (f' :: tail (current_frames m))) c' = g ∧
    current_root (put m x g (f' :: tail (current_frames m))) = current_root m ∧
    tail (current_frames (put m x g (f' :: tail (current_frames m)))) = tail (current_frames m))
    as (c' & H1 & H2 & H3 & H4).
  { unfold f' in *. clear -Hcur. destruct m as [? ? [|[[?|] [|? ?]] ?]]; try discriminate Hcur;
      eexists; split_and!; reflexivity. }
  exists c'. split; try done.
  - apply put_ok; try done. unfold frames_ok. simpl. rewrite Hk.
    split_and!; [apply Hs|intros; apply Hs|done|done].
  - by rewrite H3, H4.
Qed.

Lemma checked_child m c f x r g :
  Explorer_ok m → current m = Ok (c, f) → frame_kind f = Enter → P x →
  check_consistency (context_graph m c) (communication_model config) = Ok (r, g) → is_consistent r = true →
  ∃ c', visiting (set_frame (set_current_graph (set_executor m x) g) (set_mode f Visit)) c'
          (set_mode f Visit) g.
Proof.
  intros Hm Hcur Hk Hx Hcheck Hr. destruct (top_ok m c f Hm Hcur) as [Hf _].
  unfold frames_ok in Hf. rewrite Hk in Hf. destruct Hf as (Hg & _ & HQg & Hb).
  destruct (check_consistency_Good _ _ _ r g Hg Hcheck) as (Hg' & Hsame & Hcons).
  eapply checked_visiting; try done; [by split; auto| |by eapply below_ok_same; [..|apply Hg']].
  eapply (ca_same _ _ _ _ Q HQ); [apply Hsame..|]. apply HQg. eapply consistent_same; [by apply Hcons|].
  by apply same_execution_sym.
Qed.

Lemma handle_enter_frame_ok m c f m' :
  Explorer_ok m → current m = Ok (c, f) → frame_kind f = Enter →
  handle_enter_frame config thread_ids m = Ok m' → Explorer_ok m'.
Proof.
  intros Hm Hcur Hk Hrun. destruct (top_ok m c f Hm Hcur) as [Hf _].
  unfold frames_ok in Hf. rewrite Hk in Hf. destruct Hf as (Hg & Hvisit & HQg & Hb).
  unfold handle_enter_frame in Hrun. rewrite Hcur in Hrun. simpl in Hrun.
  destruct (frame_mode f) eqn:Emode.
  { eapply enter_visit_ok; [|done]. split; try done; [by split; [|apply Hvisit]|]. by apply HQg, Hvisit. }
  pose proof (pr_stop P HP _ (ok_executor _ Hm)) as Hx.
  destruct (stop_requested (executor m)) as [stop x]. simpl in Hx. destruct stop.
  { injection Hrun as <-.
    assert (pop_top_frame (set_executor m x) =
      pop_top_frame (set_current_graph (set_executor m x) (context_graph m c))) as -> by put_eq.
    by eapply pop_top_frame_ok. }
  apply bind_Ok_inv in Hrun as ([r g] & Hcheck & Hrun).
  change (context_graph (set_executor m x) c) with (context_graph m c) in Hcheck.
  destruct (check_consistency_Good _ _ _ r g Hg Hcheck) as (Hg' & Hsame & Hcons).
  assert (below_ok (current_root m) g (tail (current_frames m))) as Hb'.
  { eapply below_ok_same; [done|done|apply Hg']. }
  destruct (is_consistent r) eqn:Er; [|injection Hrun as <-; by eapply pop_top_frame_ok].
  destruct (checked_child m c f x r g) as [c' Hv]; try done. by eapply enter_visit_ok.
Qed.

(** ** Resumed frames *)

Lemma offer_child_ok m keeps d md build g handed x :
  P (executor m) → (∀ child, build (copy g) = Ok child → Good child) →
  (md = Visit → ∀ child, build (copy g) = Ok child → Sound child) →
  (∀ child, build (copy g) = Ok child → Q child) →
  offer_child m keeps d md build g = Ok (handed, x) → P x.
Proof.
  intros Hx Hgood Hsound HQc Hrun. unfold offer_child in Hrun.
  destruct keeps; [|by injection Hrun as _ <-].
  pose proof (pr_split P HP d (executor m) Hx) as Hx'.
  destruct (should_split_to_idle_worker d (executor m)) as [split x'].
  destruct split; [|by injection Hrun as _ <-].
  apply bind_Ok_inv in Hrun as (child & Hb & Hrun). unfold try_enqueue_owned_task in Hrun.
  pose proof (pr_enqueue P HP (MkExplorationTask child d md) x' Hx' (Hgood child Hb)) as He.
  injection Hrun as Hrun. rewrite Hrun in He. apply He; [intros Hmd; by apply Hsound|intros _; by apply HQc].
Qed.

Lemma suspended_mutates r f fs g g' :
  suspended (below_ok r) f fs g → mutates g g' → suspended (below_ok r) f fs g'.
Proof.
  intros (g0 & Hs & HQ0 & Hcp & Hsince & Hd & Hb) Hm. exists g0. split_and!; try done.
  by eapply since_mutates.
Qed.

(** Cursors and flags play no part in what a suspended frame goes back to. *)
Lemma suspended_frame r f f' fs g :
  suspended (below_ok r) f fs g → frame_checkpoint f' = frame_checkpoint f →
  (∀ g0, frame_data f g0 → frame_data f' g0) → suspended (below_ok r) f' fs g.
Proof.
  intros (g0 & Hs & HQ0 & Hcp & Hsince & Hd & Hb) Hcp' Hd'. exists g0. split_and!; try done; [congruence|auto].
Qed.

(** A suspended frame at the top of the frames. *)
Lemma suspended_frames_ok r f fs g :
  suspended (below_ok r) f fs g → frame_kind f = ResumeNd ∨ frame_kind f = ResumeReceive →
  frames_ok r g (f :: fs).
Proof.
  intros Hs Hk.
  assert (below_ok r g (f :: fs)) as Hb
    by (split_and!; [destruct Hk as [-> | ->]; done..|exact Hs]).
  unfold frames_ok. by destruct Hk as [-> | ->].
Qed.

Lemma copy_Good g : Good g → Good (copy g).
Proof.
  intros [[Hcore _ [Hac Hpe]] Hc Ht Hb]. split; try done. split; [by apply (core_ext g)| |done].
  constructor.
Qed.

Lemma copy_Sound g : Sound g → Sound (copy g).
Proof. intros [Hg Hc]. split; [by apply copy_Good|done]. Qed.

(** What suspended frames know of a graph they know of its copies. *)
Lemma copy_carried g : Q g → Q (copy g).
Proof. by apply (ca_same _ _ _ _ Q HQ). Qed.

Lemma copy_extends g tid l : extends g tid l → extends (copy g) tid l.
Proof. by apply extends_same. Qed.

Lemma add_nd_choice_ok g tid nd v g' :
  Sound g → Q g → may_grow (events g) tid → extends g tid (LNd (MkNdLabel v (choices nd))) →
  add_nd_choice g tid nd v = Ok g' → Sound g' ∧ Q g' ∧ mutates g g'.
Proof.
  intros Hs HQg Hgrow Hext Hrun. apply fmap_Ok_inv in Hrun as ([id g1] & Hadd & ->). split_and!.
  - by eapply (add_event_Sound _ _ g tid (LNd _)).
  - by eapply carried_add.
  - by eapply mutate_add.
Qed.

(** Adding a receive and its source. *)
Lemma add_receive_ok g tid l id g1 s g' :
  Good g → Q g → may_grow (events g) tid → total_label l → extends g tid l →
  source_in_range (events g) s →
  add_event g tid l = Ok (id, g1) → set_reads_from_source g1 id s = Ok g' →
  Good g' ∧ Q g' ∧ mutates g g1 ∧ mutates g1 g'.
Proof.
  intros Hg HQg Hgrow Hl Hext Hs Hadd Hset.
  assert (Q g') as HQ' by (eapply (ca_receive _ _ _ _ Q HQ g); [apply Hg|done..]).
  destruct (add_event_inv g tid l id g1 (good_inv _ _ Hg) Hadd) as (_ & -> & _ & _ & _ & i & Hev).
  assert (event_count g < event_count g1) as Hlt
    by (unfold event_count; rewrite Hev, length_app; simpl; lia).
  assert (source_in_range (events g1) s) as Hs1
    by (intros j Hj; rewrite Hev, length_app; specialize (Hs j Hj); lia).
  split_and!; [|done|by eapply mutate_add|by eapply mutate_rf].
  eapply set_reads_from_Good; [by eapply add_event_Good|done..].
Qed.

Lemma handle_resume_nd_ok m c f m' :
  Explorer_ok m → current m = Ok (c, f) → frame_kind f = ResumeNd →
  handle_resume_nd_frame m = Ok m' → Explorer_ok m'.
Proof.
  intros Hm Hcur Hk Hrun. destruct (top_ok m c f Hm Hcur) as [Hf Hne].
  unfold handle_resume_nd_frame in Hrun. rewrite Hcur in Hrun. simpl in Hrun.
  apply bind_Ok_inv in Hrun as (g & Hroll & Hrun).
  destruct (suspended_rollback _ f _ _ g (frames_suspended _ _ _ _ ltac:(by rewrite Hk) Hf) Hroll)
    as (Hs & HQg & Hb & Hsusp & Hd).
  unfold frame_data in Hd. rewrite Hk in Hd. destruct Hd as (Hd & _ & nd & Hlab & _ & Hext).
  rewrite Hlab in Hrun.
  destruct (choices nd) as [|v0 vs] eqn:Ec; [done|]. rewrite <-Ec in *.
  destruct (choices nd !! cursor f) as [v|] eqn:Ev.
  2:{ injection Hrun as <-.
      assert (set_current_graph m g = set_current_graph (set_executor m (executor m)) g) as ->
        by put_eq.
      eapply pop_top_frame_ok; try done; [by apply ok_executor|apply Hs]. }
  apply list_elem_of_lookup_2, Hext in Ev. clear Hext. rename Ev into Hext.
  apply bind_Ok_inv in Hrun as ([handed x] & Hoff & Hrun).
  assert (∀ child, add_nd_choice (copy g) (thread_id f) nd v = Ok child → Sound child ∧ Q child) as Hcopy.
  { intros child Hchild. by apply (add_nd_choice_ok _ _ _ _ _ (copy_Sound g Hs) (copy_carried g HQg) Hd
      (copy_extends g _ _ Hext)) in Hchild as (? & ? & _). }
  apply offer_child_ok in Hoff as Hx.
  2:{ assert (executor (set_current_graph m g) = executor m) as -> by put_eq. by apply ok_executor. }
  2:{ by intros child [[? _] _]%Hcopy. }
  2:{ by intros _ child [? _]%Hcopy. }
  2:{ by intros child [_ ?]%Hcopy. }
  set (f' := set_cursor f (cursor f + 1)) in *.
  assert (suspended (below_ok (current_root m)) f' (tail (current_frames m)) g) as Hsusp'
    by (by eapply suspended_frame).
  destruct handed.
  - injection Hrun as <-.
    set (m1 := set_frame _ f').
    assert (m1 = put m x g (f' :: tail (current_frames m))) as -> by (unfold m1, f'; put_eq).
    assert (∀ x', set_executor (put m x g (f' :: tail (current_frames m))) x' =
      put m x' g (f' :: tail (current_frames m))) as -> by (intros; unfold f'; put_eq).
    apply put_ok; try done.
    + apply (pr_note_nd P HP). by assert (executor (put m x g (f' :: tail (current_frames m))) = x)
        as -> by (unfold f'; put_eq).
    + apply suspended_frames_ok; [done|by left].
  - apply bind_Ok_inv in Hrun as (g' & Hadd & [= <-]).
    apply (add_nd_choice_ok g (thread_id f) nd v g' Hs HQg Hd Hext) in Hadd as (Hs' & HQ' & Hmut).
    set (d := dpor_tree_depth f + 1). set (m1 := push_frame _ _).
    assert (m1 = put m x g' (enter d Visit :: f' :: tail (current_frames m))) as ->
      by (unfold m1, f'; put_eq).
    eapply push_child_ok; try done; [apply Hs'|intros; apply Hs'|unfold f'; simpl; by rewrite Hk..|].
    by eapply suspended_mutates.
Qed.

(** The local continuation of a resumed receive frame. *)
Lemma receive_child_ok m c f x g f' d tid l s id g1 g' :
  Explorer_ok m → current m = Ok (c, f) → P x → Good g → Q g →
  suspended (below_ok (current_root m)) f' (tail (current_frames m)) g →
  frame_kind f' = ResumeReceive → may_grow (events g) tid → total_label l → extends g tid l →
  source_in_range (events g) s → add_event g tid l = Ok (id, g1) →
  set_reads_from_source g1 id s = Ok g' →
  Explorer_ok (put m x g' (enter d VisitIfConsistent :: f' :: tail (current_frames m))).
Proof.
  intros Hm Hcur Hx Hg HQg Hsusp Hk Hgrow Hl Hext Hs Hadd Hset.
  destruct (add_receive_ok g tid l id g1 s g' Hg HQg Hgrow Hl Hext Hs Hadd Hset) as (Hg' & HQ' & Hm1 & Hm2).
  eapply push_child_ok; try done; [by rewrite Hk..|].
  by eapply suspended_mutates, Hm2; eapply suspended_mutates.
Qed.

Lemma handle_resume_receive_ok m c f m' :
  Explorer_ok m → current m = Ok (c, f) → frame_kind f = ResumeReceive →
  handle_resume_receive_frame m = Ok m' → Explorer_ok m'.
Proof.
  intros Hm Hcur Hk Hrun. destruct (top_ok m c f Hm Hcur) as [Hf Hne].
  unfold handle_resume_receive_frame in Hrun. rewrite Hcur in Hrun. simpl in Hrun.
  apply bind_Ok_inv in Hrun as (g & Hroll & Hrun).
  destruct (suspended_rollback _ f _ _ g (frames_suspended _ _ _ _ ltac:(by rewrite Hk) Hf) Hroll)
    as (Hs & HQg & Hb & Hsusp & Hd).
  unfold frame_data in Hd. rewrite Hk in Hd. destruct Hd as (Hgrow & _ & (recv & Hlab & Htot & Hext) & Hcand). rewrite Hlab in Hrun.
  destruct (candidate_event_ids f !! cursor f) as [send_id|] eqn:Ecand.
  - apply list_elem_of_lookup_2, Hcand in Ecand as Hsend.
    assert (∀ g2, events g2 = events g → source_in_range (events g2) (from_send send_id)) as Hsrc
      by (intros g2 -> id [= <-]; done).
    apply bind_Ok_inv in Hrun as ([handed x] & Hoff & Hrun).
    assert (∀ child, add_receive_from (copy g) (thread_id f) (LReceive recv) send_id = Ok child →
      Good child ∧ Q child) as Hcopy.
    { intros child Hchild. apply bind_Ok_inv in Hchild as ([id g1] & Hadd & Hset).
      apply (add_receive_ok (copy g) (thread_id f) (LReceive recv) id g1 (from_send send_id) child)
        in Hset as (? & ? & _); try done;
        [by apply copy_Good, Hs|by apply copy_carried|by apply Hsrc]. }
    apply offer_child_ok in Hoff as Hx; [| | |done|].
    2:{ assert (executor (set_current_graph m g) = executor m) as -> by put_eq.
        by apply ok_executor. }
    2:{ by intros child [? _]%Hcopy. }
    2:{ by intros child [_ ?]%Hcopy. }
    set (f' := set_cursor f (cursor f + 1)) in *.
    assert (suspended (below_ok (current_root m)) f' (tail (current_frames m)) g) as Hsusp'
      by (by eapply suspended_frame).
    destruct handed.
    + injection Hrun as <-. set (m1 := set_frame _ f').
      assert (m1 = put m x g (f' :: tail (current_frames m))) as -> by (unfold m1, f'; put_eq).
      assert (∀ x', set_executor (put m x g (f' :: tail (current_frames m))) x' =
        put m x' g (f' :: tail (current_frames m))) as -> by (intros; unfold f'; put_eq).
      apply put_ok; try done.
      * apply (pr_note_receive P HP).
        by assert (executor (put m x g (f' :: tail (current_frames m))) = x) as ->
          by (unfold f'; put_eq).
      * apply suspended_frames_ok; [done|by right].
    + apply bind_Ok_inv in Hrun as (g' & Hrecv & [= <-]).
      apply bind_Ok_inv in Hrecv as ([id g1] & Hadd & Hset).
      set (d := dpor_tree_depth f + 1). set (m1 := push_frame _ _).
      assert (m1 = put m x g' (enter d VisitIfConsistent :: f' :: tail (current_frames m))) as ->
        by (unfold m1, f'; put_eq).
      eapply (receive_child_ok m c f x g f'); try done; [apply Hs|by apply Hsrc].
  - destruct (flag f).
    + apply bind_Ok_inv in Hrun as (g' & Hrecv & [= <-]).
      apply bind_Ok_inv in Hrecv as ([id g1] & Hadd & Hset).
      set (d := dpor_tree_depth f + 1). set (m1 := push_frame _ _).
      assert (m1 = put m (executor m) g'
        (enter d VisitIfConsistent :: clear_flag f :: tail (current_frames m))) as ->
        by (unfold m1; put_eq).
      eapply (receive_child_ok m c f (executor m) g (clear_flag f)); try done.
      * by apply ok_executor.
      * apply Hs.
      * by intros i Hi.
    + injection Hrun as <-.
      assert (set_current_graph m g = set_current_graph (set_executor m (executor m)) g) as ->
        by put_eq.
      eapply pop_top_frame_ok; try done; [by apply ok_executor|apply Hs].
Qed.

Lemma handle_resume_send_ok m c f m' :
  Explorer_ok m → current m = Ok (c, f) → frame_kind f = ResumeSendRevisits →
  handle_resume_send_revisits_frame value_lt config m = Ok m' → Explorer_ok m'.
Proof.
  intros Hm Hcur Hk Hrun. destruct (top_ok m c f Hm Hcur) as [Hf Hne].
  unfold frames_ok in Hf. rewrite Hk in Hf. destruct Hf as (Hs & HQg & Hsend & Hsusp).
  unfold handle_resume_send_revisits_frame in Hrun. rewrite Hcur in Hrun. simpl in Hrun.
  destruct (event_id f) as [send_id|]; [|done].
  destruct (holds_at (context_graph m c) is_send send_id) eqn:Esend; [|done]. simpl in Hrun.
  assert (send_id < event_count (context_graph m c)) as Hlt.
  { unfold holds_at in Esend. destruct (events (context_graph m c) !! send_id) eqn:E; [|done].
    by eapply lookup_lt_Some. }
  apply bind_Ok_inv in Hrun as (next & Hnext & Hrun).
  set (f' := set_cursor f (next_receive_index next)) in *.
  assert (set_frame m f' = put m (executor m) (context_graph m c) (f' :: tail (current_frames m)))
    as Hput by (unfold f'; put_eq).
  rewrite Hput in Hrun.
  assert (suspended (below_ok (current_root m)) f' (tail (current_frames m)) (context_graph m c))
    as Hsusp' by (by eapply suspended_frame).
  assert (frames_ok (current_root m) (context_graph m c) (f' :: tail (current_frames m))) as Hf'.
  { unfold frames_ok. simpl. rewrite Hk. split_and!; done. }
  assert (executor (put m (executor m) (context_graph m c) (f' :: tail (current_frames m))) =
    executor m) as Hex by (unfold f'; put_eq).
  destruct (child next) as [g'|] eqn:Echild.
  - destruct (next_backward_revisit_child_spec _ _ _ _ _ _ _ _ g' Hs Hlt Hnext Echild)
      as (k & _ & _ & Hrev).
    pose proof (rv_good _ _ _ _ _ _ _ _ Hrev) as Hg'.
    assert (consistent_graph g' → Q g') as HQ' by (by eapply (ca_revisit _ _ _ _ Q HQ)).
    destruct (if flag f then _ else _) as [handed x] eqn:Eoff.
    assert (P x) as Hx.
    { rewrite Hex in Eoff. pose proof (ok_executor _ Hm) as Hx0. destruct (flag f).
      - unfold try_enqueue_owned_task in Eoff.
        pose proof (pr_enqueue P HP (MkExplorationTask g' (dpor_tree_depth f + 1) VisitIfConsistent)
          _ Hx0 Hg' ltac:(done) HQ') as He. by rewrite Eoff in He.
      - by injection Eoff as _ <-. }
    assert (set_executor (put m (executor m) (context_graph m c) (f' :: tail (current_frames m))) x
      = put m x (context_graph m c) (f' :: tail (current_frames m))) as Hput'
      by (unfold f'; put_eq).
    rewrite Hput' in Hrun.
    destruct handed; injection Hrun as <-; [by apply put_ok|by apply put_push_ok].
  - injection Hrun as <-. set (d := dpor_tree_depth f + 1). set (m1 := push_frame _ _).
    assert (m1 = put m (executor m) (context_graph m c) (enter d Visit ::
      exit_linear_child f' (frame_checkpoint f') :: tail (current_frames m))) as ->
      by (unfold m1, f'; put_eq).
    eapply push_child_ok; try done; [by apply ok_executor|apply Hs|intros; apply Hs|].
    by eapply suspended_frame.
Qed.

(** ** The loop *)

Lemma run_step_ok m r :
  Explorer_ok m → run_step value_lt config thread_ids m = Ok r →
  match r with inl m' => Explorer_ok m' | inr m' => m' = m ∧ contexts m = [] end.
Proof.
  intros Hm Hrun. unfold run_step in Hrun.
  destruct (contexts m) as [|c cs] eqn:Ec; [by injection Hrun as <-|].
  pose proof (pr_stop P HP _ (ok_executor _ Hm)) as Hx.
  destruct (stop_requested (executor m)) as [stop x]. simpl in Hx.
  assert (Explorer_ok (set_executor m x)) as Hm' by (destruct Hm; by split).
  destruct stop.
  { apply fmap_Ok_inv in Hrun as (m' & Hrun & ->). by eapply unwind_one_step_ok. }
  destruct (frames c) as [|f fs] eqn:Ef.
  - assert (current_frames (set_executor m x) = []) as Hfr
      by (unfold current_frames; simpl; by rewrite Ec).
    rewrite Hfr in Hrun. injection Hrun as <-.
    apply (unwind_one_step_ok (set_executor m x)); [done|].
    unfold unwind_one_step. simpl. by rewrite Ec, Ef.
  - assert (current (set_executor m x) = Ok (c, f)) as Hcur
      by (unfold current; simpl; by rewrite Ec, Ef).
    assert (current_frames (set_executor m x) = f :: fs) as Hfr
      by (unfold current_frames; simpl; by rewrite Ec).
    rewrite Hfr in Hrun. apply fmap_Ok_inv in Hrun as (m' & Hrun & ->).
    destruct (frame_kind f) eqn:Ek.
    + by eapply handle_enter_frame_ok.
    + eapply rollback_and_pop_ok; [done|done|by rewrite Ek|done].
    + by eapply handle_resume_nd_ok.
    + by eapply handle_resume_receive_ok.
    + by eapply handle_resume_send_ok.
Qed.

Lemma run_loop_ok fuel m m' :
  Explorer_ok m → run_loop value_lt config thread_ids fuel m = Ok m' →
  P (executor m') ∧ contexts m' = [] ∧ Good (borrowed_graph m') ∧
  same_execution root (borrowed_graph m').
Proof.
  revert m. induction fuel as [|fuel IH]; intros m Hm Hrun; [done|].
  unfold run_loop in *. cbn [while] in Hrun. apply bind_Ok_inv in Hrun as (r & Hstep & Hrun).
  apply run_step_ok in Hstep; [|done]. destruct r as [m1|m1].
  - by apply (IH m1).
  - injection Hrun as <-. destruct Hstep as [-> Hc]. destruct Hm as [Hx Hctx].
    rewrite Hc in Hctx. by destruct Hctx.
Qed.

End invariant.

(** An exploration keeps every executor invariant and gives the graph back. *)
Lemma run_ok (P : X → Prop) fuel x g d md m :
  Preserves P →
  Carried value_lt (program config) (max_thread_events config) (communication_model config) Q →
  total_program (program config) → P x → Good g → (md = Visit → Sound g) → (consistent_graph g → Q g) →
  run value_lt config thread_ids fuel x g d md = Ok m →
  P (executor m) ∧ contexts m = [] ∧ Good (borrowed_graph m) ∧ same_execution g (borrowed_graph m).
Proof.
  intros HP HQ Htot Hx Hg Hs HQg Hrun. eapply run_loop_ok; try done.
  split; [done|]. simpl. split; [done|]. split_and!; [done| |done|by split].
  intros Hmd. by apply Hs.
Qed.

End engine.
