(* ===== verification/RunFacts.v ===== *)
(** * RunFacts: what is published is a run of the program

    The execution a terminal kind is published with is the record of a run of the
    program, and the kind says how the run ended: every thread has finished, or some wait
    for messages that nobody will send, or one has failed. *)

From stdpp Require Import base tactics numbers functions relations sets list strings.
From S2P Require Import Prelude Errors Event Relation ExecutionGraph ExplorationGraph.
From S2P Require Import StorageFacts ExecutionGraphFacts ExplorationFacts Rollback Queries.
From S2P Require Import ConsistencyFacts FifoFacts Program Dpor Revisit Explorer.
From S2P Require Import SoundFacts NextEvent Conformance Runs EngineFacts.

Section outcome.
Context {V : Type} `{EqDecision V} (program : Program V).
Implicit Types (g : ExplorationGraph V) (s : System V) (t : ThreadId).

(** How a run that is published as [kind] ended, where [bound] is the number of events a
    thread may contribute.  A run cut off at the maximal depth may be anywhere: the depth
    counts branching decisions of the exploration, and a run does not record them. *)
Definition outcome (tids : list ThreadId) (bound : nat) s (kind : TerminalExecutionKind) : Prop :=
  match kind with
  | Full => ∀ t, t ∈ tids → halted program s t
  | Blocked =>
      (∀ t, t ∈ tids → halted program s t ∨ waits program s t) ∧ ∃ t, t ∈ tids ∧ waits program s t
  | ErrorExecution => ∃ t, t ∈ tids ∧ over (local s t) = true
  | ThreadEventLimit =>
      bound ≠ 0 ∧ ∃ t, t ∈ tids ∧ over (local s t) = false ∧ bound ≤ taken (local s t)
  | DepthLimit => True
  end.

(** Threads that have halted or wait have no step. *)
Lemma halted_stuck model s s' t : halted program s t → step program model s s' → local s' t = local s t.
Proof.
  intros Hh Hstep.
  assert (∀ t' l vs b fl, answers program s t' (Some l) → local (advance s t' vs b fl) t = local s t) as Hother.
  { intros t' l vs b fl [Ho (f & Hf & Hl)]. simpl. destruct (decide (t' = t)) as [->|Hne].
    - destruct Hh as [Hh|[_ (f' & Hf' & Hl')]]; congruence.
    - by rewrite fn_lookup_insert_ne. }
  destruct Hstep; by eapply Hother.
Qed.

Lemma stuck model (tids : list ThreadId) s s' :
  (∀ t f, tm_at (threads program) t = Ok f → t ∈ tids) →
  (∀ t, t ∈ tids → halted program s t ∨ waits program s t) → ¬ step program model s s'.
Proof.
  intros Htids Hall Hstep.
  assert (∃ t l vs b fl, answers program s t (Some l) ∧ s' = advance s t vs b fl) as (t & l & vs & b & fl & Ha & Hs').
  { destruct Hstep; eexists _, _, _, _, _; (split; [eassumption|reflexivity]). }
  pose proof Ha as [_ (f & Hf & _)].
  assert (local s' t = local s t) as Heq.
  { destruct (Hall t (Htids t f Hf)); [by eapply halted_stuck|by eapply waits_stuck]. }
  apply (f_equal taken) in Heq. rewrite Hs' in Heq. simpl in Heq. rewrite fn_lookup_insert in Heq.
  simpl in Heq. lia.
Qed.

(** The events of a thread but the last do not end it. *)
Lemma thread_ids_tail g t id :
  follows_graph program g → last (thread_ids (events g) t) = Some id →
  ∃ pre, thread_ids (events g) t = pre ++ [id] ∧
    ∀ a, a ∈ pre → at_block (events g) a = false ∧ at_error (events g) a = false.
Proof.
  intros Hf Hl. apply last_Some in Hl as [pre Hpre]. exists pre. split; [done|]. intros a Ha.
  assert (a ∈ thread_ids (events g) t ∧ id ∈ thread_ids (events g) t) as [Hat Hit]
    by (rewrite Hpre; set_solver).
  pose proof Hat as (ea & Hea & Hta)%thread_ids_elem. pose proof Hit as (ei & Hei & Hti)%thread_ids_elem.
  unfold at_block, at_error. rewrite Hea. apply orb_false_iff.
  apply (follows_ended program _ _ a id ea Hf Hea). split; [|exists ea, ei; split_and!; congruence].
  apply list_elem_of_lookup_1 in Ha as [i Hi]. pose proof (lookup_lt_Some _ _ _ Hi).
  apply (ids_where_sorted (on_thread t) (events g) i (length pre)); [| |done];
    fold (thread_ids (events g) t); rewrite Hpre.
  - by apply lookup_app_l_Some.
  - by rewrite lookup_app_r, Nat.sub_diag by lia.
Qed.

Lemma open_filter (es : list (Event V)) l :
  (∀ a, a ∈ l → at_block es a = false ∧ at_error es a = false) →
  length (List.filter (λ id, negb (at_block es id)) l) = length l ∧ existsb (at_error es) l = false.
Proof.
  induction l as [|a l IH]; intros Hl; [done|]. destruct (Hl a) as [H1 H2]; [set_solver|].
  destruct IH as [IH1 IH2]; [set_solver|]. simpl. by rewrite H1, H2, <-IH1.
Qed.

(** A thread that has not ended is where its function is called next. *)
Lemma records_open g s t :
  Core g → follows_graph program g → records g s → ¬ ended g t →
  over (local s t) = false ∧ taken (local s t) = thread_event_count g t.
Proof.
  intros Hcore Hf [_ Htaken Hover _] Hend. rewrite Htaken, Hover, thread_event_count_eq by done.
  destruct (last (thread_ids (events g) t)) as [id|] eqn:Hl.
  2:{ apply last_None in Hl. by rewrite Hl. }
  destruct (thread_ids_tail g t id Hf Hl) as (pre & Hpre & Hopen).
  destruct (open_filter (events g) (thread_ids (events g) t)) as [H1 H2]; [|done].
  intros a. rewrite Hpre. intros [Ha|Ha%list_elem_of_singleton]%elem_of_app; [by apply Hopen|subst a].
  unfold ended in Hend. rewrite thread_is_terminated_eq in Hend by done. unfold thread_tail in Hend.
  rewrite Hl in Hend. simpl in Hend. unfold at_block, at_error.
  destruct (events g !! id) as [e|]; [|done]. apply orb_false_iff. by destruct (is_block e || is_error e).
Qed.

(** The call of the thread function is the question the semantics asks. *)
Lemma records_answers g s t step o :
  Core g → records g s → over (local s t) = false → taken (local s t) = step →
  call_thread program g t step = Ok o → answers program s t o.
Proof.
  intros Hcore Hrec Hover Htaken Hcall. split; [done|]. unfold call_thread in Hcall.
  apply bind_Ok_inv in Hcall as (f & Hf & Hcall). apply bind_Ok_inv in Hcall as (trace & Htrace & Hcall).
  unfold thread_trace in Htrace. rewrite thread_trace_into_eq in Htrace by done. injection Htrace as <-.
  exists f. split; [done|]. rewrite (rec_seen _ _ Hrec), Htaken.
  destruct (f _ _) as [o'|x]; simpl in Hcall; [congruence|]. destruct x; simpl in Hcall; done.
Qed.

(** No acceptable message is in flight for a receive without a compatible unread send. *)
Lemma records_no_message g s t r :
  Core g → records g s → has_compatible_unread_send g t r = Ok false →
  ∀ m, m ∈ in_flight s → receiver m = t → accepts r (payload m) = Ok false.
Proof.
  intros Hcore Hrec Hno m Hm Ht. rewrite (rec_flight _ _ Hrec) in Hm.
  apply list_elem_of_omap in Hm as (id & Hid & Hm). unfold has_compatible_unread_send in Hno.
  rewrite any_unread_send_eq in Hno by done. apply message_of_inv in Hm as (e & sl & He & Hsl & ->).
  simpl in *. assert (send_is_compatible g t r id = Ok false) as Hc.
  { revert Hid Hno. clear. generalize (unread_send_event_ids g). intros l.
    induction l as [|a l IH]; intros Hid Hno; [by apply not_elem_of_nil in Hid|]. simpl in Hno.
    apply bind_Ok_inv in Hno as ([] & Ha & Hno); [done|].
    by apply elem_of_cons in Hid as [->|Hid]; [|apply IH]. }
  unfold send_is_compatible, event, ExecutionGraph.event in Hc. fold (events g) in Hc. rewrite He in Hc.
  simpl in Hc. rewrite Hsl in Hc. by rewrite decide_True in Hc.
Qed.

(** A thread that ended has failed, or waits when it cannot be rescheduled. *)
Lemma records_ended g s t :
  Core g → follows_graph program g → records g s → ended g t →
  reschedule_thread program g t = Ok None →
  (over (local s t) = true ∧ ¬ blocked (events g) t) ∨ (waits program s t ∧ blocked (events g) t).
Proof.
  intros Hcore Hf Hrec Hend Hre. pose proof Hrec as [_ Htaken Hover _].
  unfold ended in Hend. rewrite thread_is_terminated_eq in Hend by done. unfold thread_tail in Hend.
  unfold reschedule_thread in Hre. rewrite last_event_id_eq in Hre by done.
  destruct (last (thread_ids (events g) t)) as [id|] eqn:Hl; [|done].
  destruct (thread_ids_tail g t id Hf Hl) as (pre & Hpre & Hopen).
  destruct (open_filter (events g) pre Hopen) as [H1 H2]. simpl in Hend.
  destruct (events g !! id) as [e|] eqn:He; [|done]. injection Hend as Hend.
  assert (event g id = Ok e) as Hev by (unfold event, ExecutionGraph.event; fold (events g); by rewrite He).
  rewrite Hev in Hre. cbn [mbind result_bind] in Hre. destruct (is_block e) eqn:Eb.
  2:{ left. split.
      - rewrite Hover, Hpre, existsb_app, H2. simpl in *. unfold at_error. by rewrite He, Hend.
      - intros (e' & He' & Hb). unfold thread_tail in He'. rewrite Hl in He'. simpl in He'. congruence. }
  right. split; [|exists e; split; [unfold thread_tail; rewrite Hl; simpl; by rewrite He|done]].
  assert (is_error e = false) as Ee by (unfold is_block, is_error in *; by destruct (label e)).
  simpl in Hre. apply bind_Ok_inv in Hre as (nl & Hcall & Hre).
  destruct nl as [[r| | | |]|]; try done. destruct (is_nonblocking r) eqn:Er; [done|].
  apply bind_Ok_inv in Hre as (has & Hhas & Hre). destruct has.
  { apply bind_Ok_inv in Hre as (mask & _ & Hre). by apply bind_Ok_inv in Hre as (r' & _ & Hre). }
  exists r. split_and!.
  - eapply records_answers; [done|done| | |exact Hcall].
    + rewrite Hover, Hpre, existsb_app, H2. simpl. unfold at_error. by rewrite He, Ee.
    + rewrite Htaken, thread_event_count_eq, Hpre, List.filter_app, !length_app, H1 by done. cbn [List.filter].
      assert (at_block (events g) id = true) as -> by (unfold at_block; by rewrite He). simpl. lia.
  - unfold is_nonblocking, is_blocking in *. destruct (mode r); [done|].
    by rewrite bool_decide_eq_true_2 in Er.
  - by eapply records_no_message.
Qed.

End outcome.

Section published.
Context {V O : Type} `{EqDecision V} (config : DporConfig V O) (tids : list ThreadId).
Context (Htids : sorted_thread_ids (program config) = Ok tids).
Implicit Types (g : ExplorationGraph V).

Lemma program_threads t f : tm_at (threads (program config)) t = Ok f → t ∈ tids.
Proof.
  intros Hf. unfold sorted_thread_ids in Htids. apply bind_Ok_inv in Htids as (_ & _ & [= <-]).
  apply assigned_ids_elem. unfold tm_at in Hf. unfold tm_contains.
  by destruct (entries_ _ !! _) as [[]|].
Qed.

(** The threads of an execution that follows the program are threads of the program. *)
Lemma follows_thread g id e :
  follows_graph (program config) g → events g !! id = Some e → thread e ∈ tids.
Proof.
  intros Hf He. destruct (Hf id e He) as [(f & _ & Htm & _) _].
  by apply program_threads in Htm.
Qed.

Lemma maximal_threads g s t :
  Core g → follows_graph (program config) g → records g s → maximal config tids g → t ∈ tids →
  (halted (program config) s t ∧ ¬ blocked (events g) t) ∨
  (waits (program config) s t ∧ blocked (events g) t).
Proof.
  intros Hcore Hf Hrec [Hdone Hre] Ht. destruct (ended_dec g t Hcore) as [Hend|Hend].
  - destruct (records_ended _ g s t Hcore Hf Hrec Hend (Hre t Ht)) as [[? ?]|?]; [by left; split; [left|]|by right].
  - left. split.
    2:{ intros (e & He & Hb). apply Hend. unfold ended. rewrite thread_is_terminated_eq by done. by rewrite He, Hb. }
    right. destruct (records_open _ g s t Hcore Hf Hrec Hend) as [Ho Htk].
    eapply records_answers; [done|done|done|done|]. by destruct (Hdone t Ht).
Qed.

(** [g] records a run of the program that ended as [kind] says: when it is [Full] or
    [Blocked], nothing more can happen. *)
Definition run_of g kind : Prop :=
  ∃ s, rtc (step (program config) (communication_model config)) initial_system s ∧ records g s ∧
    outcome (program config) tids (max_thread_events config) s kind ∧
    (kind = Full ∨ kind = Blocked → ∀ s', ¬ step (program config) (communication_model config) s s').

Lemma outcome_stuck s kind :
  outcome (program config) tids (max_thread_events config) s kind → kind = Full ∨ kind = Blocked →
  ∀ s', ¬ step (program config) (communication_model config) s s'.
Proof.
  intros Ho Hk s'. apply (stuck _ _ tids).
  - apply program_threads.
  - destruct Hk as [-> | ->]; simpl in Ho; [auto|by destruct Ho].
Qed.

(** What is published is the record of a run that ended as the kind says. *)
Lemma published_is_run g kind depth :
  published config tids g kind depth → follows_graph (program config) g → run_of g kind.
Proof.
  intros ([[Hinv _ _ _] Hc] & _ & _ & Hkind) Hf. pose proof (inv_core _ Hinv) as Hcore.
  destruct (execution_is_run (program config) _ g Hcore Hc Hf) as (s & Hs & Hrec).
  assert (outcome (program config) tids (max_thread_events config) s kind) as Ho.
  2:{ exists s. split_and!; [done|done|done|by apply outcome_stuck]. }
  assert (∀ t, blocked (events g) t → t ∈ tids) as Hbt.
  { intros t (e & Htail & _). unfold thread_tail in Htail.
    destruct (last (thread_ids (events g) t)) as [id|] eqn:Hl; [|done].
    rewrite last_lookup in Hl. apply list_elem_of_lookup_2, thread_ids_elem in Hl as (e' & He' & <-).
    by eapply follows_thread. }
  destruct kind; simpl; [| | |done|].
  - destruct Hkind as [Hmax Hnb]. intros t Ht.
    destruct (maximal_threads g s t Hcore Hf Hrec Hmax Ht) as [[? _]|[_ Hb]]; [done|].
    by destruct Hnb; exists t.
  - destruct Hkind as [Hmax [t Hb]]. split.
    + intros t' Ht'. destruct (maximal_threads g s t' Hcore Hf Hrec Hmax Ht') as [[? _]|[? _]]; auto.
    + exists t. split; [by apply Hbt|].
      destruct (maximal_threads g s t Hcore Hf Hrec Hmax (Hbt t Hb)) as [[_ ?]|[? _]]; done.
  - destruct Hkind as (es & e & Hev & He). exists (thread e).
    assert (events g !! length es = Some e) as Hlast by (by rewrite Hev, lookup_app_r, Nat.sub_diag by lia).
    split; [by eapply follows_thread|]. rewrite (rec_over _ _ Hrec). apply existsb_exists.
    exists (length es). split; [|unfold at_error; by rewrite Hlast].
    apply list_elem_of_In, thread_ids_elem. by exists e.
  - destruct Hkind as (_ & t & Ht & Hopen & Hb & Hle). split; [done|]. exists t.
    destruct (records_open _ g s t Hcore Hf Hrec Hopen) as [? ->]. by split_and!.
Qed.

End published.
