(* ===== verification/Faults.v ===== *)
(** * Faults: what the engine can throw

    The engine guards its invariants with [internal_error] and [precondition_error].  From
    a state that an exploration can reach, none of them is thrown: an iteration returns, or
    it reports an exception of user code, or a thread has run out of event indices.  The
    same holds of the accesses the source does not check: no step has undefined
    behaviour. *)

From stdpp Require Import base tactics numbers relations sets sorting list strings.
From S2P Require Import Prelude Errors Event Relation ExecutionGraph ExplorationGraph Porf.
From S2P Require Import Consistency StorageFacts ExecutionGraphFacts ExplorationFacts Rollback.
From S2P Require Import Queries PorfFacts PorfClocks ConsistencyFacts CheckerFacts FifoFacts.
From S2P Require Import Program Masked Dpor Revisit Explorer RestrictFacts SoundFacts.
From S2P Require Import RevisitFacts NextEvent Conformance Totality EngineFacts.

(** ** Expected exceptions *)

(** What a caller of the engine must be prepared for: a [user_code_error], or the error of
    a thread that has used every event index. *)
Definition expected (e : exn) : Prop := is_Some (user_code_kind e) ∨ e = no_available_index.

(** A call that throws nothing but what [E] allows. *)
Definition throws_only (E : exn → Prop) {A} (r : res A) : Prop := ∀ e, r = Throw e → E e.

Abbreviation guarded := (throws_only expected).

(** A call that fails only for want of an event index. *)
Abbreviation index_bound := (throws_only (eq no_available_index)).

Lemma only_Ok E {A} (a : A) : throws_only E (Ok a).
Proof. by intros e. Qed.

Lemma only_returns E {A} (r : res A) : returns r → throws_only E r.
Proof. by intros [a ->] e. Qed.

Lemma only_bind E {A B} (r : res A) (f : A → res B) :
  throws_only E r → (∀ a, r = Ok a → throws_only E (f a)) → throws_only E (r ≫= f).
Proof. intros Hr Hf. destruct r as [a|e]; [by apply Hf|]. intros e' [= <-]. by apply Hr. Qed.

Lemma only_fmap E {A B} (f : A → B) (r : res A) : throws_only E r → throws_only E (f <$> r).
Proof. intros Hr. destruct r as [a|e]; [by intros e'|]. intros e' [= <-]. by apply Hr. Qed.

Lemma index_bound_guarded {A} (r : res A) : index_bound r → guarded r.
Proof. intros Hr e He. right. symmetry. by apply Hr. Qed.

Lemma guarded_user {A} k t o w : guarded (@Throw exn A (make_user_code_error k t o w)).
Proof. intros e [= <-]. left. by eexists. Qed.

(** A callback that returns or throws makes the library throw [user_code_error]s only. *)
Lemma guarded_invoke {A} k t (r : res A) :
  (∀ e, r = Throw e → catchable e = true) → guarded (invoke_user_code k t r).
Proof.
  intros Hc. destruct r as [a|e]; [by intros e'|]. specialize (Hc e eq_refl).
  unfold invoke_user_code. rewrite Hc.
  destruct e; try done; (intros e' [= <-]; left; by eexists).
Qed.

#[export] Hint Resolve only_Ok guarded_user only_returns only_fmap : dpor.

(** User code that returns or throws. *)
Definition catchable_program {V} (program : Program V) : Prop :=
  ∀ tid f trace step e, tm_at (threads program) tid = Ok f → f trace step = Throw e →
    catchable e = true.

(** The thread ids an exploration runs over. *)
Definition runnable {V} (program : Program V) (tids : list ThreadId) : Prop :=
  ∀ tid, tid ∈ tids → (tid ≤ kMaxThreadId)%N ∧ tm_contains (threads program) tid = true.

Lemma sorted_runnable {V} (program : Program V) tids :
  sorted_thread_ids program = Ok tids → (∀ tid, tid ∈ tids → tid ≤ kMaxThreadId)%N → runnable program tids.
Proof.
  intros Htids Hmax tid Htid. split; [by apply Hmax|]. apply assigned_ids_elem.
  unfold sorted_thread_ids in Htids. by apply bind_Ok_inv in Htids as (_ & _ & [= ->]).
Qed.

Section decisions.
Context {V : Type} `{EqDecision V} (bound : nat) (model : CommunicationModel)
  (program : Program V) (Htotal : total_program program) (Hcatch : catchable_program program).
Implicit Types (g : ExplorationGraph V).

Lemma add_event_index_bound g t l : Core g → (t ≤ kMaxThreadId)%N → index_bound (add_event g t l).
Proof.
  intros Hcore Ht e He. pose proof (core_add_event g t l Hcore Ht) as H. cbn zeta in H.
  rewrite He in H. by destruct H as [-> _].
Qed.

Lemma call_thread_guarded g tid step :
  Core g → tm_contains (threads program) tid = true → guarded (call_thread program g tid step).
Proof.
  intros Hcore Hin. unfold call_thread. unfold tm_contains in Hin.
  assert (∃ f, tm_at (threads program) tid = Ok f) as [f Hf].
  { unfold tm_at. destruct (entries_ (threads program) !! N.to_nat tid) as [[f|]|]; try done.
    by exists f. }
  rewrite Hf. simpl. unfold thread_trace. rewrite thread_trace_into_eq by done. simpl.
  apply guarded_invoke. intros e He. by eapply Hcatch.
Qed.

Lemma call_thread_total g tid step l :
  call_thread program g tid step = Ok (Some l) → total_label l.
Proof.
  intros Hrun. unfold call_thread in Hrun. apply bind_Ok_inv in Hrun as (f & Hf & Hrun).
  apply bind_Ok_inv in Hrun as (trace & _ & Hrun).
  destruct (f trace step) as [o|e] eqn:Ef; simpl in Hrun; [|by destruct e].
  injection Hrun as ->. by eapply Htotal.
Qed.

Lemma next_event_from_guarded g limit suppressed tids :
  Core g → runnable program tids → guarded (next_event_from program g limit suppressed tids).
Proof.
  intros Hcore. revert suppressed. induction tids as [|tid tids IH]; intros suppressed Hrun; simpl.
  { apply only_Ok. }
  assert (runnable program tids) as Hrun' by (intros t Ht; apply Hrun; set_solver).
  rewrite thread_is_terminated_eq by done. cbn [mbind result_bind].
  destruct (match thread_tail _ _ with Some _ => _ | None => _ end); [by apply IH|].
  case_decide; [by apply IH|].
  apply only_bind; [apply call_thread_guarded; [done|apply Hrun; set_solver]|].
  intros [l|] Hcall; [|by apply IH]. destruct (is_block_label l); [apply guarded_user|].
  destruct l as [r| | | |]; try apply only_Ok. destruct (is_blocking r); [|apply only_Ok].
  apply only_bind; [|intros [] _; apply only_Ok]. apply only_returns.
  apply has_compatible_returns; [done|]. by eapply call_thread_total.
Qed.

Lemma reschedule_thread_guarded g tid :
  Sound bound model g → tm_contains (threads program) tid = true →
  guarded (reschedule_thread program g tid).
Proof.
  intros [[Hinv _ _ _] _] Hin. pose proof (inv_core _ Hinv) as Hcore. unfold reschedule_thread.
  rewrite last_event_id_eq by done.
  destruct (last (thread_ids (events g) tid)) as [id|] eqn:El; [|apply only_Ok].
  assert (id < event_count g) as Hid.
  { rewrite last_lookup in El. apply list_elem_of_lookup_2, ids_where_bound in El. done. }
  destruct (event_returns g id Hid) as (e & _ & ->). cbn [mbind result_bind].
  destruct (is_block e); [simpl|apply only_Ok].
  apply only_bind; [by apply call_thread_guarded|].
  intros [[r| | | |]|] Hcall; try apply guarded_user.
  destruct (is_nonblocking r); [apply guarded_user|].
  apply only_bind.
  { apply only_returns, has_compatible_returns; [done|]. by eapply call_thread_total. }
  intros [] _; [|apply only_Ok]. rewrite vec_set_Ok by (by rewrite length_replicate).
  cbn [mbind result_bind]. apply only_bind; [|intros; apply only_Ok]. apply only_returns.
  destruct (restrict_Ok g (<[id := false]> (replicate (event_count g) true)) Hinv) as (r' & Hr & _).
  { by rewrite length_insert, length_replicate. }
  by exists r'.
Qed.

(** The receives in the destination of a send just added. *)
Lemma sent_receives_return g tid send id g' :
  Inv g → add_event g tid (LSend send) = Ok (id, g') → returns (receives_in_destination g' id).
Proof.
  intros Hinv Hadd. destruct (add_event_inv g tid (LSend send) id g' Hinv Hadd)
    as (_ & -> & Hinv' & _ & _ & i & Hev).
  assert (events g' !! event_count g = Some (MkEvent tid i (LSend send))) as He.
  { rewrite Hev. by rewrite lookup_app_r, Nat.sub_diag by (unfold event_count; lia). }
  eexists. by eapply (receives_in_destination_eq g' _ _ send (inv_core _ Hinv') He).
Qed.

End decisions.

(** ** The handlers *)

(** Executors report progress and publish executions through user code only. *)
Class GuardedExecutor (V X : Type) `{Executor V X} : Prop := {
  report_guarded : ∀ x : X, guarded (maybe_report_progress (V := V) x);
  publish_guarded : ∀ (g : ExplorationGraph V) kind depth (x : X),
    guarded (publish_terminal_execution g kind depth x);
}.

Section handlers.
Context {V O X : Type} `{EqDecision V} `{Executor V X} `{!GuardedExecutor V X}
  (value_lt : V → V → bool) (config : DporConfig V O) (thread_ids : list ThreadId).
Context (Q : ExplorationGraph V → Prop)
  (HQ : Carried value_lt (program config) (max_thread_events config) (communication_model config) Q)
  (root : ExplorationGraph V) (P : X → Prop) (HP : Preserves config thread_ids Q P)
  (Htotal : total_program (program config)) (Hcatch : catchable_program (program config))
  (Hruns : runnable (program config) thread_ids).
Implicit Types (m : Explorer V X) (g : ExplorationGraph V) (f : ExplorationFrame V).

Abbreviation Sound := (Sound (max_thread_events config) (communication_model config)).
Abbreviation Good := (Good (max_thread_events config)).
Abbreviation Explorer_ok := (Explorer_ok config thread_ids Q root P).
Abbreviation visiting := (visiting config thread_ids Q root P).
Abbreviation suspended f g r fs := (suspended config thread_ids Q (below_ok config thread_ids Q r) f fs g).

Lemma sound_core g : Sound g → Core g.
Proof. intros [[Hinv _ _ _] _]. apply Hinv. Qed.

Lemma publish_terminal_guarded m g kind : guarded (publish_terminal thread_ids m g kind).
Proof. unfold publish_terminal. apply only_bind; [apply publish_guarded|]. intros [] _. apply only_Ok. Qed.

(** A suspended frame can roll back. *)
Lemma suspended_rollback_returns r f fs g :
  suspended f g r fs → returns (rollback g (frame_checkpoint f)).
Proof.
  intros (g0 & Hs & _ & -> & Hsince & _).
  destruct (rollback_since g0 _ (good_inv _ _ (sound_good _ _ _ Hs)) Hsince) as (g' & Hroll & _).
  by exists g'.
Qed.

Lemma rollback_and_pop_index_bound m c f :
  Explorer_ok m → current m = Ok (c, f) → frame_kind f ≠ Enter →
  index_bound (rollback_and_pop_top_frame m).
Proof.
  intros Hm Hcur Hk. destruct (top_ok _ _ _ _ _ m c f Hm Hcur) as [Hf _].
  unfold rollback_and_pop_top_frame. rewrite Hcur. simpl.
  apply only_bind; [|intros; apply only_Ok]. apply only_returns.
  eapply suspended_rollback_returns. by apply frames_suspended.
Qed.

Lemma enter_label_guarded m c f g tid l :
  visiting m c f g → total_label l → tid ∈ thread_ids → may_grow (max_thread_events config) (events g) tid →
  guarded (enter_label thread_ids m g f tid l).
Proof.
  intros [Hm Hcur Hs HQg Hgr Hb] Hl Htid Hgrow. pose proof (sound_core g Hs) as Hcore.
  pose proof (index_bound_guarded _ (add_event_index_bound g tid l Hcore (proj1 (Hruns tid Htid)))) as Hadd.
  assert (guarded (enter_linear_child m g f tid l)) as Hlin.
  { unfold enter_linear_child. apply only_bind; [done|]. intros [] _. apply only_Ok. }
  destruct l as [recv|send|nd| |msg]; simpl.
  - apply only_bind; [|intros; apply only_Ok]. apply only_returns.
    by apply compatible_ids_returns.
  - apply only_bind; [done|]. intros [id g'] Hrun. apply only_bind.
    + by eapply only_returns, sent_receives_return; [apply Hs|].
    + intros receives _. destruct (can_spawn _ _). apply only_Ok.
  - destruct (choices nd); [done|apply only_Ok].
  - done.
  - apply only_bind; [done|]. intros [id g'] Hrun. apply only_bind; [apply publish_terminal_guarded|].
    intros m1 _. apply only_bind; [|intros; apply only_Ok]. apply only_returns.
    assert (Since g g') as Hsince by (eapply since_add_event; [apply since_refl, Hs|done]).
    destruct (rollback_since g g' (good_inv _ _ (sound_good _ _ _ Hs)) Hsince) as (g'' & Hroll & _).
    by exists g''.
Qed.

Lemma find_reschedule_guarded g x tids :
  Sound g → runnable (program config) tids → guarded (find_reschedule_from config g x tids).
Proof.
  intros Hs. revert x. induction tids as [|tid tids IH]; intros x Hr; simpl; [apply only_Ok|].
  destruct (stop_requested x) as [[] x1]; [apply only_Ok|].
  apply only_bind.
  { eapply reschedule_thread_guarded; try done. apply Hr. set_solver. }
  intros [g'|] _; [apply only_Ok|]. apply IH. intros t Ht. apply Hr. set_solver.
Qed.

Lemma enter_maximal_guarded m c f g suppressed :
  visiting m c f g → guarded (enter_maximal config thread_ids m g f suppressed).
Proof.
  intros [Hm Hcur Hs HQg Hgr Hb]. unfold enter_maximal.
  apply only_bind; [by apply find_reschedule_guarded|]. intros [[|g'|] x] _; try apply only_Ok.
  apply only_bind.
  { apply only_returns. destruct suppressed; [by eexists|].
    destruct (has_blocked_thread_eq g (sound_core g Hs)) as (b & -> & _). by eexists. }
  intros blocked _. apply only_bind; [apply publish_terminal_guarded|]. intros; apply only_Ok.
Qed.

Lemma enter_visit_guarded m c f g :
  visiting m c f g → guarded (enter_visit config thread_ids m).
Proof.
  intros Hv. pose proof Hv as [Hm Hcur Hs HQg Hgr Hb]. unfold enter_visit. rewrite Hcur. simpl. rewrite Hgr.
  apply only_bind; [apply report_guarded|]. intros x0 Hrep.
  pose proof (pr_stop _ _ _ P HP x0 (pr_report _ _ _ P HP _ _ (ok_executor _ _ _ _ _ _ Hm) Hrep)) as Hx.
  destruct (stop_requested x0) as [stop x] eqn:Estop. simpl in Hx. destruct stop; [apply only_Ok|].
  pose proof (visiting_executor _ _ _ _ _ m c f g x Hv Hx) as Hv'.
  case_decide as Hd.
  { apply only_bind; [apply publish_terminal_guarded|]. intros; apply only_Ok. }
  apply only_bind.
  { apply next_event_from_guarded; try done. by apply sound_core. }
  intros r Hnext. destruct (Dpor.next r) as [[tid l]|] eqn:En; [|by eapply enter_maximal_guarded].
  destruct (next_label_facts config thread_ids g r tid l Htotal Hs Hnext En) as (Htid & Hl & Hgrow & _).
  by eapply enter_label_guarded.
Qed.

Lemma handle_enter_guarded m c f :
  Explorer_ok m → current m = Ok (c, f) → frame_kind f = Enter →
  guarded (handle_enter_frame config thread_ids m).
Proof.
  intros Hm Hcur Hk. destruct (top_ok _ _ _ _ _ m c f Hm Hcur) as [Hf _].
  unfold frames_ok in Hf. rewrite Hk in Hf. destruct Hf as (Hg & Hvisit & HQg & Hb).
  unfold handle_enter_frame. rewrite Hcur. simpl. destruct (frame_mode f) eqn:Emode.
  { eapply enter_visit_guarded. split; try done; [by split; [|apply Hvisit]|]. by apply HQg, Hvisit. }
  pose proof (pr_stop _ _ _ P HP _ (ok_executor _ _ _ _ _ _ Hm)) as Hx.
  destruct (stop_requested (executor m)) as [stop x]. simpl in Hx. destruct stop; [apply only_Ok|].
  apply only_bind; [by apply only_returns, check_consistency_returns with (max_thread_events config)|].
  intros [r g] Hcheck. change (context_graph (set_executor m x) c) with (context_graph m c) in Hcheck.
  destruct (is_consistent r) eqn:Er; [|apply only_Ok].
  destruct (checked_child value_lt config thread_ids Q root P HQ m c f x r g) as [c' Hv]; try done.
  by eapply enter_visit_guarded.
Qed.


Lemma offer_child_only E m keeps_local_work d md build g :
  throws_only E (build (copy g)) → throws_only E (offer_child m keeps_local_work d md build g).
Proof.
  intros Hb. unfold offer_child. destruct keeps_local_work; [|apply only_Ok].
  destruct (should_split_to_idle_worker _ _) as [[] x]; [|apply only_Ok].
  apply only_bind; [done|]. intros; apply only_Ok.
Qed.

Lemma copy_Core g : Core g → Core (copy g).
Proof. intros Hcore. by apply (core_ext g). Qed.

Lemma add_nd_choice_index_bound g tid nd v :
  Core g → tid ∈ thread_ids → index_bound (add_nd_choice g tid nd v).
Proof.
  intros Hcore Htid. apply only_fmap, add_event_index_bound; [done|]. by apply Hruns.
Qed.

Lemma handle_resume_nd_index_bound m c f :
  Explorer_ok m → current m = Ok (c, f) → frame_kind f = ResumeNd →
  index_bound (handle_resume_nd_frame m).
Proof.
  intros Hm Hcur Hk. destruct (top_ok _ _ _ _ _ m c f Hm Hcur) as [Hf _].
  pose proof (frames_suspended _ _ _ _ _ _ _ ltac:(by rewrite Hk) Hf) as Hsusp.
  unfold handle_resume_nd_frame. rewrite Hcur. simpl.
  apply only_bind; [by eapply only_returns, suspended_rollback_returns|]. intros g Hroll.
  destruct (suspended_rollback _ _ _ _ HQ _ f _ _ g Hsusp Hroll) as (Hs & _ & _ & _ & Hd).
  unfold frame_data in Hd. rewrite Hk in Hd. destruct Hd as (_ & Htid & nd & -> & Hne & _).
  destruct (choices nd) as [|v0 vs] eqn:Ec; [done|]. rewrite <-Ec.
  destruct (choices nd !! cursor f) as [v|]; [|apply only_Ok].
  apply only_bind.
  { apply offer_child_only, add_nd_choice_index_bound; [|done]. by apply copy_Core, sound_core. }
  intros [[] x] _; [apply only_Ok|]. apply only_bind; [|intros; apply only_Ok].
  apply add_nd_choice_index_bound; [|done]. by apply sound_core.
Qed.

(** Adding a receive with a source of the graph. *)
Lemma add_receive_index_bound g tid l s :
  Inv g → tid ∈ thread_ids → source_in_range (events g) s →
  index_bound ('(recv_id, g1) ← add_event g tid l; set_reads_from_source g1 recv_id s).
Proof.
  intros Hinv Htid Hs. apply only_bind.
  { apply add_event_index_bound; [apply Hinv|by apply Hruns]. }
  intros [id g1] Hadd. destruct (add_event_inv g tid l id g1 Hinv Hadd)
    as (_ & -> & Hinv1 & _ & _ & i & Hev). apply only_returns.
  assert (event_count g1 = S (event_count g)) as Hn.
  { unfold event_count. rewrite Hev, length_app. simpl. lia. }
  destruct (core_set_reads_from_source g1 (event_count g) s (inv_core _ Hinv1)) as (g' & Hset & _).
  - lia.
  - intros id Hid. apply Hs in Hid. unfold event_count in Hn. lia.
  - by exists g'.
Qed.

Lemma handle_resume_receive_index_bound m c f :
  Explorer_ok m → current m = Ok (c, f) → frame_kind f = ResumeReceive →
  index_bound (handle_resume_receive_frame m).
Proof.
  intros Hm Hcur Hk. destruct (top_ok _ _ _ _ _ m c f Hm Hcur) as [Hf _].
  pose proof (frames_suspended _ _ _ _ _ _ _ ltac:(by rewrite Hk) Hf) as Hsusp.
  unfold handle_resume_receive_frame. rewrite Hcur. simpl.
  apply only_bind; [by eapply only_returns, suspended_rollback_returns|]. intros g Hroll.
  destruct (suspended_rollback _ _ _ _ HQ _ f _ _ g Hsusp Hroll) as (Hs & _ & _ & _ & Hd).
  unfold frame_data in Hd. rewrite Hk in Hd. destruct Hd as (_ & Htid & (recv & -> & _) & Hcand).
  assert (Inv g ∧ Inv (copy g)) as [Hinv Hinvc].
  { split; [apply Hs|]. by apply (good_inv _ _ (copy_Good _ _ (sound_good _ _ _ Hs))). }
  destruct (candidate_event_ids f !! cursor f) as [send_id|] eqn:Ec.
  - apply list_elem_of_lookup_2, Hcand in Ec as Hsend.
    assert (∀ g', Inv g' → events g' = events g →
      index_bound (add_receive_from g' (thread_id f) (LReceive recv) send_id)) as Hadd.
    { intros g' Hg' Hev. apply add_receive_index_bound; [done|done|]. rewrite Hev. by intros id [= <-]. }
    apply only_bind; [by apply offer_child_only, Hadd|].
    intros [[] x] _; [apply only_Ok|]. apply only_bind; [by apply Hadd|]. intros; apply only_Ok.
  - destruct (flag f); [|apply only_Ok]. apply only_bind; [|intros; apply only_Ok].
    by apply add_receive_index_bound.
Qed.

Lemma handle_resume_send_index_bound m c f :
  Explorer_ok m → current m = Ok (c, f) → frame_kind f = ResumeSendRevisits →
  index_bound (handle_resume_send_revisits_frame value_lt config m).
Proof.
  intros Hm Hcur Hk. destruct (top_ok _ _ _ _ _ m c f Hm Hcur) as [Hf _].
  unfold frames_ok in Hf. rewrite Hk in Hf. destruct Hf as (Hs & _ & (id & Hid & Hlive & Hcand) & _).
  unfold handle_resume_send_revisits_frame. rewrite Hcur. simpl. rewrite Hid, Hlive. simpl.
  apply only_bind.
  - apply only_returns, (next_backward_revisit_child_returns _ (max_thread_events config));
      [done| |done].
    unfold holds_at in Hlive. destruct (events (context_graph m c) !! id) eqn:E; [|done].
    by apply lookup_lt_Some in E.
  - intros next _. destruct (child next); [|apply only_Ok].
    destruct (if flag f then _ else _) as [[] x]; apply only_Ok.
Qed.

(** *** The loop *)

Lemma run_step_guarded m : Explorer_ok m → guarded (run_step value_lt config thread_ids m).
Proof.
  intros Hm. unfold run_step. destruct (contexts m) as [|c cs] eqn:Ec; [apply only_Ok|].
  pose proof (pr_stop _ _ _ P HP _ (ok_executor _ _ _ _ _ _ Hm)) as Hx.
  destruct (stop_requested (executor m)) as [stop x]. simpl in Hx.
  assert (Explorer_ok (set_executor m x)) as Hm' by (destruct Hm; by split).
  destruct stop.
  { apply only_fmap, only_returns. by eapply unwind_one_step_total. }
  destruct (current_frames (set_executor m x)) as [|f fs] eqn:Ef; [apply only_Ok|].
  assert (current (set_executor m x) = Ok (c, f)) as Hcur.
  { unfold current_frames in Ef. unfold current. simpl in *. rewrite Ec in *. by rewrite Ef. }
  apply only_fmap. destruct (frame_kind f) eqn:Ek; [by eapply handle_enter_guarded|..];
    apply index_bound_guarded.
  - eapply rollback_and_pop_index_bound; [done|done|by rewrite Ek].
  - by eapply handle_resume_nd_index_bound.
  - by eapply handle_resume_receive_index_bound.
  - by eapply handle_resume_send_index_bound.
Qed.

(** The exceptions of the loop, apart from the fuel's. *)
Lemma while_guarded fuel oof m e :
  Explorer_ok m → while fuel oof (run_step value_lt config thread_ids) m = Throw e →
  e = oof ∨ expected e.
Proof.
  revert m. induction fuel as [|fuel IH]; intros m Hm Hrun; [left; by injection Hrun|].
  rewrite while_S in Hrun. destruct (run_step value_lt config thread_ids m) as [r|e'] eqn:Er.
  - simpl in Hrun. pose proof (run_step_ok _ _ _ _ _ P HP HQ Htotal m r Hm Er) as Hok.
    destruct r as [m'|m']; [by apply (IH m')|done].
  - injection Hrun as <-. right. by eapply run_step_guarded.
Qed.

End handlers.

(** ** The sequential executor *)

Section sequential.
Context {V O : Type} (config : DporConfig V O) (clock : nat → Z) (start : Z).

(** Observers that return or throw. *)
Definition catchable_observers : Prop :=
  (∀ f o t e, on_terminal_execution config = Some f → f o t = Throw e → catchable e = true) ∧
  (∀ f o t e, on_execution config = Some f → f o t = Throw e → catchable e = true) ∧
  (∀ f o s e, on_progress config = Some f → f o s = Throw e → catchable e = true).

Context (Hobs : catchable_observers).

Lemma seq_report_guarded s state now reads next :
  guarded (seq_report config start s state now reads next).
Proof.
  unfold seq_report, notify_progress. destruct Hobs as (_ & _ & Hp).
  apply only_bind; [|intros; apply only_Ok].
  destruct (on_progress config) as [f|] eqn:Ef; [|apply only_Ok].
  apply guarded_invoke. intros e. by apply Hp.
Qed.

Lemma publish_final_guarded s : guarded (publish_final_progress config clock start s).
Proof.
  unfold publish_final_progress. destruct (on_progress config); [|apply only_Ok].
  apply seq_report_guarded.
Qed.

Lemma sequential_guarded :
  GuardedExecutor V (SequentialState O) (H := sequential_executor config clock start).
Proof.
  split; simpl.
  - intros x. unfold seq_maybe_report_progress. destruct (on_progress config); [|apply only_Ok].
    case_decide; [case_decide; [apply only_Ok|]|]; apply seq_report_guarded.
  - intros g kind depth x. unfold seq_publish_terminal_execution, notify_terminal_execution.
    destruct Hobs as (Ht & Ho & _).
    apply only_bind; [|intros [] _; apply only_Ok].
    destruct (on_terminal_execution config) as [f|] eqn:Ef.
    + apply guarded_invoke. intros e. by apply Ht.
    + destruct (on_execution config) as [f|] eqn:Ef'; [|apply only_Ok].
      apply guarded_invoke. intros e. by apply Ho.
Qed.

End sequential.
