(* ===== verification/Termination.v ===== *)
(** * Termination: the exploration loop ends

    The loop of [DepthFirstExplorer] ends for every program, whatever the executor and the
    callbacks do, as long as a stop request is not withdrawn.  Children of a frame are one
    level deeper in the search tree than the frame, and [max_depth] bounds the levels; a
    reschedule stays on its level but drops the trailing block event of a thread; a resumed
    frame has one alternative less each time.  The proof follows the explicit stack: a
    frame ends if the frames under it do. *)

From stdpp Require Import base tactics numbers relations sets list strings.
From S2P Require Import Prelude Errors Event Relation ExecutionGraph ExplorationGraph Porf.
From S2P Require Import Consistency Program Masked Dpor Revisit Explorer.

(** ** Restrictions drop events *)

Section counts.
Context {V : Type}.
Implicit Types (g : ExplorationGraph V).

Lemma execution_add_event_length (x : ExecutionGraph V) t l id x' :
  ExecutionGraph.add_event x t l = Ok (id, x') → length (events_ x') = S (length (events_ x)).
Proof.
  intros Hrun. apply bind_Ok_inv in Hrun as ([i x1] & Hnext & Hrun).
  assert (events_ x1 = events_ x) as Hx1.
  { unfold next_event_index, ensure_thread_storage in Hnext. inv_bind.
    repeat (case_decide || case_match); inv_bind; by simplify_eq. }
  unfold append_event_unchecked in Hrun. inv_bind. simplify_eq. simpl.
  unfold push_back. rewrite length_app, Hx1. simpl. lia.
Qed.

Lemma index_new_event_graph g x t id g' : index_new_event g x t id = Ok g' → graph_ g' = x.
Proof.
  intros Hrun. unfold index_new_event in Hrun. inv_bind.
  match goal with p : (_ * _)%type |- _ => destruct p end. by inv_bind.
Qed.

Lemma append_for_bulk_build_count g t l g' :
  append_event_for_bulk_build g t l = Ok g' → event_count g' = S (event_count g).
Proof.
  intros Hrun. apply bind_Ok_inv in Hrun as ([id x] & Hadd & Hrun).
  apply bind_Ok_inv in Hrun as (g2 & Hindex & Hrun).
  apply execution_add_event_length in Hadd. apply index_new_event_graph in Hindex.
  unfold update_acyclicity_after_add_event in Hrun.
  assert (graph_ g' = graph_ g2) as Hg'.
  { destruct (known_acyclic_ g2); inv_bind; [|done]. by destruct (is_receive _). }
  unfold event_count, events. by rewrite Hg', Hindex, Hadd.
Qed.

Lemma adjust_send_reader_count_graph g s d g' :
  adjust_send_reader_count g s d = Ok g' → graph_ g' = graph_ g.
Proof.
  unfold adjust_send_reader_count. intros Hrun.
  repeat (case_match; try done); inv_bind; done.
Qed.

Lemma set_reads_from_source_count g r s g' :
  set_reads_from_source g r s = Ok g' → event_count g' = event_count g.
Proof.
  intros Hrun. apply bind_Ok_inv in Hrun as (g3 & Hup & [= <-]).
  apply bind_Ok_inv in Hup as (g2 & H1%adjust_send_reader_count_graph & H2%adjust_send_reader_count_graph).
  unfold event_count, events, update_acyclicity_after_rf_assignment.
  repeat case_match; simpl; by rewrite H2, H1.
Qed.

Lemma restrict_count g mask r :
  restrict_from_keep_mask g mask = Ok r → event_count r = length (kept_ids mask).
Proof.
  intros Hrun. unfold restrict_from_keep_mask in Hrun. case_decide; [done|].
  apply bind_Ok_inv in Hrun as (r1 & Hev & Hrun). apply bind_Ok_inv in Hrun as (r2 & Hrf & [= <-]).
  assert (event_count r1 = length (kept_ids mask)) as Hr1.
  { eapply (foldM_Ok_inv _ (λ l s, event_count s = length l) _ _ _ Hev); [done|].
    intros l1 a l2 s s' _ Hs Hstep. apply bind_Ok_inv in Hstep as (e & _ & Hstep).
    apply append_for_bulk_build_count in Hstep. rewrite length_app. simpl. lia. }
  assert (event_count r2 = event_count r1) as Hr2.
  { eapply (foldM_Ok_inv _ (λ _ s, event_count s = event_count r1) _ _ _ Hrf); [done|].
    intros l1 [recv s0] l2 s s' _ Hs Hstep. unfold remap_rf in Hstep. inv_bind.
    rewrite <-Hs. repeat (case_match; inv_bind); try done.
    all: by eapply set_reads_from_source_count. }
  rewrite <-Hr1, <-Hr2. by destruct (known_acyclic_ g).
Qed.

(** A reschedule drops one event. *)
Lemma reschedule_thread_count (program : Program V) `{EqDecision V} g tid g' :
  reschedule_thread program g tid = Ok (Some g') → event_count g' < event_count g.
Proof.
  unfold reschedule_thread. intros Hrun. destruct (last_event_id g tid) as [id|]; [|done].
  apply bind_Ok_inv in Hrun as (e & _ & Hrun). destruct (is_block e); [|done]. simpl in Hrun.
  apply bind_Ok_inv in Hrun as ([[r| | | |]|] & _ & Hrun); try done.
  destruct (is_nonblocking r); [done|]. apply bind_Ok_inv in Hrun as ([] & _ & Hrun); [|done].
  apply bind_Ok_inv in Hrun as (mask & Hmask & Hrun). apply bind_Ok_inv in Hrun as (c & Hc & [= <-]).
  apply vec_set_inv in Hmask as [Hid ->]. rewrite length_replicate in Hid.
  rewrite (restrict_count _ _ _ Hc). unfold kept_ids. rewrite length_insert, length_replicate.
  eapply Nat.lt_le_trans; [apply (filter_length_lt (λ _, true) _ _ id); [done| |done|]|].
  - apply elem_of_seq. lia.
  - by rewrite list_lookup_insert_eq by (by rewrite length_replicate).
  - etrans; [apply List.filter_length_le|]. by rewrite length_seq.
Qed.

Lemma check_consistency_count `{EqDecision V} g model r g' :
  check_consistency g model = Ok (r, g') → event_count g' = event_count g.
Proof.
  intros Hrun. apply bind_Ok_inv in Hrun as ([r1 g1] & Has & Hrun).
  assert (event_count g1 = event_count g) as Hg1.
  { clear Hrun. unfold check_async_exploration_graph in Has.
    apply bind_Ok_inv in Has as (v & _ & Has). destruct (v_cycle_query_safe v); simpl in Has.
    2:{ by inv_bind. }
    apply bind_Ok_inv in Has as ([cyc g2] & Hcyc & Has).
    assert (event_count g2 = event_count g) as Hg2.
    { destruct (is_known_acyclic g); [by injection Hcyc as <- <-|].
      destruct (has_porf_cache g); [|by inv_bind].
      unfold Porf.has_causal_cycle, ensure_porf_cache in Hcyc.
      destruct (porf_cache_ g); inv_bind; done. }
    destruct cyc; injection Has as <- <-; [done|]. by destruct (is_consistent _). }
  case_decide; inv_bind; done.
Qed.

End counts.

(** ** The law of stop requests *)

(** What termination needs of an executor: a stop request is not withdrawn. *)
Class StopSticky (V X : Type) `{Executor V X} : Prop :=
  stop_sticky : ∀ x x', stop_requested (V := V) x = (true, x') →
    (stop_requested (V := V) x').1 = true.

#[export] Instance sequential_sticky {V O} (config : DporConfig V O) clock start :
  StopSticky V (SequentialState O) (H := sequential_executor config clock start).
Proof. intros s s' [= Hs <-]. exact Hs. Qed.

(** ** Halting machines *)

Section halting.
Context {V O X : Type} `{EqDecision V} `{Executor V X} (value_lt : V → V → bool)
  (config : DporConfig V O) (thread_ids : list ThreadId).
Implicit Types (m : Explorer V X) (g b : ExplorationGraph V) (f : ExplorationFrame V)
  (fs : list (ExplorationFrame V)) (cs : list (ExplorationContext V)) (x : X).

Abbreviation step := (run_step value_lt config thread_ids).

(** The loop ends from [m]. *)
Definition halts : Explorer V X → Prop := Acc (λ m' m, step m = Ok (inl m')).

Lemma halts_intro m : (∀ m', step m = Ok (inl m') → halts m') → halts m.
Proof. intros Hm. constructor. exact Hm. Qed.

(** A halting loop needs a fixed number of iterations, and the exception for running out
    of them plays no part in its result. *)
Lemma halts_run m :
  halts m → ∃ n, ∀ fuel oof, n ≤ fuel → while fuel oof step m = run_loop value_lt config thread_ids n m.
Proof.
  induction 1 as [m _ IH]. destruct (step m) as [[m'|m']|e] eqn:Hstep.
  - destruct (IH m' eq_refl) as (n & Hn). exists (S n). intros [|fuel] oof Hle; [lia|].
    unfold run_loop. rewrite !while_S, Hstep. simpl. rewrite (Hn fuel oof) by lia.
    symmetry. apply Hn. lia.
  - exists 1. intros [|fuel] oof Hle; [lia|]. unfold run_loop. by rewrite !while_S, Hstep.
  - exists 1. intros [|fuel] oof Hle; [lia|]. unfold run_loop. by rewrite !while_S, Hstep.
Qed.

(** *** Unwinding *)

Context `{!StopSticky V X}.

Fixpoint stack_size cs : nat :=
  match cs with [] => 0 | c :: cs' => S (length (frames c)) + stack_size cs' end.

Lemma pop_top_frame_size m c cs f fs :
  contexts m = c :: cs → frames c = f :: fs →
  stack_size (contexts (pop_top_frame m)) < stack_size (contexts m) ∧
  executor (pop_top_frame m) = executor m.
Proof.
  intros Hc Hf. destruct m as [x b cs0]; simpl in Hc; subst cs0.
  destruct c as [o fs0]; simpl in Hf; subst fs0.
  unfold pop_top_frame, pop_context_if_empty. destruct fs; simpl; split; done || lia.
Qed.

Lemma unwind_one_step_size m m' :
  contexts m ≠ [] → unwind_one_step m = Ok m' →
  stack_size (contexts m') < stack_size (contexts m) ∧ executor m' = executor m.
Proof.
  intros Hne Hrun. unfold unwind_one_step in Hrun.
  destruct (contexts m) as [|c cs] eqn:Hc; [done|]. rewrite <-Hc.
  destruct (frames c) as [|f fs] eqn:Hf.
  { injection Hrun as <-. simpl. rewrite Hc. simpl. split; [lia|done]. }
  destruct (frame_kind f); [injection Hrun as <-; by eapply pop_top_frame_size|..].
  all: apply bind_Ok_inv in Hrun as ([c' f'] & _ & Hrun).
  all: apply bind_Ok_inv in Hrun as (g & _ & [= <-]).
  all: destruct m as [x b cs0]; simpl in Hc; subst cs0; destruct c as [[o|] fs0]; simpl in Hf; subst fs0.
  all: exact (pop_top_frame_size (MkExplorer x b (MkContext (Some g) _ :: cs)) _ cs f fs eq_refl eq_refl) ||
       exact (pop_top_frame_size (MkExplorer x g (MkContext None _ :: cs)) _ cs f fs eq_refl eq_refl).
Qed.

Lemma stopped_halts m : (stop_requested (V := V) (executor m)).1 = true → halts m.
Proof.
  remember (stack_size (contexts m)) as n eqn:Hn. revert m Hn.
  induction n as [n IH] using lt_wf_ind. intros m -> Hstop. apply halts_intro. intros m' Hstep.
  unfold run_step in Hstep. destruct (contexts m) as [|c cs] eqn:Hc; [done|].
  destruct (stop_requested (executor m)) as [stop x] eqn:Ex. simpl in Hstop. subst stop.
  apply fmap_Ok_inv in Hstep as (m1 & Hun & [= ->]).
  apply unwind_one_step_size in Hun as [Hlt He]; [|simpl; by rewrite Hc].
  simpl in Hlt. rewrite Hc in Hlt. eapply IH; [exact Hlt|done|].
  rewrite He. simpl. by eapply stop_sticky.
Qed.

(** A machine with a frame on top: it is enough to look at the handler of that frame. *)
Lemma handler_halts m c cs f fs :
  contexts m = c :: cs → frames c = f :: fs →
  (∀ x, stop_requested (executor m) = (false, x) →
    ∀ m', match frame_kind f with
          | Enter => handle_enter_frame config thread_ids (set_executor m x)
          | ExitLinearChild => rollback_and_pop_top_frame (set_executor m x)
          | ResumeNd => handle_resume_nd_frame (set_executor m x)
          | ResumeReceive => handle_resume_receive_frame (set_executor m x)
          | ResumeSendRevisits =>
              handle_resume_send_revisits_frame value_lt config (set_executor m x)
          end = Ok m' → halts m') →
  halts m.
Proof.
  intros Hc Hf Hh. apply halts_intro. intros m' Hstep.
  destruct (stop_requested (V := V) (executor m)) as [[] x] eqn:Ex.
  { assert (halts m) as [Hm]; [|by apply Hm]. apply stopped_halts. by rewrite Ex. }
  unfold run_step in Hstep. rewrite Hc, Ex in Hstep.
  assert (current_frames (set_executor m x) = f :: fs) as Hcur
    by (unfold current_frames; simpl; by rewrite Hc).
  rewrite Hcur in Hstep. apply fmap_Ok_inv in Hstep as (m1 & Hrun & [= ->]).
  by eapply (Hh x).
Qed.

(** *** Frames on a stack *)

(** The current context: its graph is the caller's or its own. *)
Definition machine (owned : bool) x b g fs cs : Explorer V X :=
  if owned then MkExplorer x b (MkContext (Some g) fs :: cs)
  else MkExplorer x g (MkContext None fs :: cs).

(** The stack [fs] of the current context over [cs] ends, whatever the executor and the
    graphs are when the engine comes back to it. *)
Definition ends (owned : bool) fs cs : Prop :=
  match fs with
  | [] => ∀ x b, halts (MkExplorer x b cs)
  | _ => ∀ x b g, halts (machine owned x b g fs cs)
  end.

Lemma ends_pop owned f fs cs x b g :
  ends owned fs cs → halts (pop_top_frame (machine owned x b g (f :: fs) cs)).
Proof.
  intros He. unfold machine, pop_top_frame, pop_context_if_empty in *.
  destruct fs as [|f' fs]; destruct owned; simpl; apply He || apply (He x b g).
Qed.

Lemma machine_halts owned f fs cs x b g :
  (∀ x', stop_requested x = (false, x') →
    ∀ m', match frame_kind f with
          | Enter => handle_enter_frame config thread_ids (machine owned x' b g (f :: fs) cs)
          | ExitLinearChild => rollback_and_pop_top_frame (machine owned x' b g (f :: fs) cs)
          | ResumeNd => handle_resume_nd_frame (machine owned x' b g (f :: fs) cs)
          | ResumeReceive => handle_resume_receive_frame (machine owned x' b g (f :: fs) cs)
          | ResumeSendRevisits => handle_resume_send_revisits_frame value_lt config
              (machine owned x' b g (f :: fs) cs)
          end = Ok m' → halts m') →
  halts (machine owned x b g (f :: fs) cs).
Proof.
  intros Hh. destruct owned; unfold machine in *; (eapply handler_halts; [done|done|]); exact Hh.
Qed.

Lemma machine_current owned x b g f fs cs :
  current (machine owned x b g (f :: fs) cs) =
    Ok (MkContext (if owned then Some g else None) (f :: fs), f).
Proof. by destruct owned. Qed.

Lemma machine_graph owned x b g f fs cs :
  context_graph (machine owned x b g (f :: fs) cs)
    (MkContext (if owned then Some g else None) (f :: fs)) = g.
Proof. by destruct owned. Qed.

Lemma machine_set_graph owned x b g g' fs cs :
  set_current_graph (machine owned x b g fs cs) g' = machine owned x b g' fs cs.
Proof. by destruct owned. Qed.

Lemma machine_executor owned x b g fs cs : executor (machine owned x b g fs cs) = x.
Proof. by destruct owned. Qed.

Lemma machine_set_executor owned x x' b g fs cs :
  set_executor (machine owned x b g fs cs) x' = machine owned x' b g fs cs.
Proof. by destruct owned. Qed.

Lemma machine_set_frame owned x b g f f' fs cs :
  set_frame (machine owned x b g (f :: fs) cs) f' = machine owned x b g (f' :: fs) cs.
Proof. by destruct owned. Qed.

Lemma machine_push_frame owned x b g f fs cs :
  push_frame (machine owned x b g fs cs) f = machine owned x b g (f :: fs) cs.
Proof. by destruct owned. Qed.

(** A child graph in a context of its own, over a stack that ends. *)
Lemma ends_push owned x b g fs cs g' d md :
  fs ≠ [] → ends owned fs cs →
  (∀ cs', ends true [] cs' → ∀ x b, halts (machine true x b g' [enter d md] cs')) →
  halts (push_owned_context (machine owned x b g fs cs) g' d md).
Proof.
  intros Hne He Hchild.
  assert (ends true [] (MkContext (if owned then Some g else None) fs :: cs)) as Hcs.
  { destruct fs as [|f fs]; [done|]. intros x' b'. destruct owned; [apply (He x' b' g)|apply (He x' b' b')]. }
  specialize (Hchild _ Hcs x). by destruct owned; [apply (Hchild b)|apply (Hchild g)].
Qed.

(** *** Suspended frames *)

Ltac open_machine Hrun :=
  rewrite machine_current in Hrun; cbn [mbind result_bind] in Hrun; rewrite machine_graph in Hrun.

Lemma exit_ends owned f fs cs :
  frame_kind f = ExitLinearChild → ends owned fs cs → ends owned (f :: fs) cs.
Proof.
  intros Hk He. intros x b g. apply machine_halts. intros x' _ m' Hrun. rewrite Hk in Hrun.
  unfold rollback_and_pop_top_frame in Hrun. open_machine Hrun.
  apply bind_Ok_inv in Hrun as (g' & _ & [= <-]). rewrite machine_set_graph. by apply ends_pop.
Qed.

(** Entering at depth [d] ends over every stack that ends. *)
Definition descends (d : nat) : Prop :=
  ∀ md owned fs cs, ends owned fs cs → ends owned (enter d md :: fs) cs.

(** The outcomes of the handlers of suspended frames: they pop the frame, or move on to
    the next alternative and perhaps enter a child. *)
Lemma resume_nd_cases owned x b g f fs cs m' :
  handle_resume_nd_frame (machine owned x b g (f :: fs) cs) = Ok m' →
  ∃ nd, frame_label f = Some (LNd nd) ∧
    ((∃ g', m' = pop_top_frame (machine owned x b g' (f :: fs) cs)) ∨
     cursor f < length (choices nd) ∧ ∃ x' g',
       m' = machine owned x' b g' (set_cursor f (cursor f + 1) :: fs) cs ∨
       m' = machine owned x' b g' (enter (dpor_tree_depth f + 1) Visit ::
              set_cursor f (cursor f + 1) :: fs) cs).
Proof.
  intros Hrun. unfold handle_resume_nd_frame in Hrun. open_machine Hrun.
  apply bind_Ok_inv in Hrun as (g1 & _ & Hrun). rewrite machine_set_graph in Hrun.
  destruct (frame_label f) as [[| |nd| |]|]; try discriminate Hrun. exists nd. split; [done|].
  destruct (choices nd) as [|v0 vs] eqn:Ec; [discriminate Hrun|]. rewrite <-Ec in *.
  destruct (choices nd !! cursor f) as [v|] eqn:Ev; [right|left; injection Hrun as <-; by exists g1].
  split; [by eapply lookup_lt_Some|]. apply bind_Ok_inv in Hrun as ([handed x1] & _ & Hrun).
  rewrite machine_set_executor, machine_set_frame in Hrun. destruct handed.
  - injection Hrun as <-. rewrite machine_set_executor. eexists _, _. by left.
  - apply bind_Ok_inv in Hrun as (g2 & _ & [= <-]).
    rewrite machine_set_graph, machine_push_frame. eexists _, _. by right.
Qed.

Lemma resume_receive_cases owned x b g f fs cs m' :
  handle_resume_receive_frame (machine owned x b g (f :: fs) cs) = Ok m' →
  (∃ g', m' = pop_top_frame (machine owned x b g' (f :: fs) cs)) ∨
  (cursor f < length (candidate_event_ids f) ∧ ∃ x' g',
     m' = machine owned x' b g' (set_cursor f (cursor f + 1) :: fs) cs ∨
     m' = machine owned x' b g' (enter (dpor_tree_depth f + 1) VisitIfConsistent ::
            set_cursor f (cursor f + 1) :: fs) cs) ∨
  (flag f = true ∧ ∃ g',
     m' = machine owned x b g' (enter (dpor_tree_depth f + 1) VisitIfConsistent ::
            clear_flag f :: fs) cs).
Proof.
  intros Hrun. unfold handle_resume_receive_frame in Hrun. open_machine Hrun.
  apply bind_Ok_inv in Hrun as (g1 & _ & Hrun). rewrite machine_set_graph in Hrun.
  destruct (frame_label f) as [[recv| | | |]|]; try discriminate Hrun.
  destruct (candidate_event_ids f !! cursor f) as [id|] eqn:Eid.
  - right. left. split; [by eapply lookup_lt_Some|].
    apply bind_Ok_inv in Hrun as ([handed x1] & _ & Hrun).
    rewrite machine_set_executor, machine_set_frame in Hrun. destruct handed.
    + injection Hrun as <-. rewrite machine_set_executor. eexists _, _. by left.
    + apply bind_Ok_inv in Hrun as (g2 & _ & [= <-]).
      rewrite machine_set_graph, machine_push_frame. eexists _, _. by right.
  - destruct (flag f).
    + right. right. split; [done|]. apply bind_Ok_inv in Hrun as (g2 & _ & [= <-]).
      rewrite machine_set_graph, machine_set_frame, machine_push_frame. by eexists.
    + left. injection Hrun as <-. by exists g1.
Qed.

Lemma backward_revisit_from_index g id send model i receives r :
  backward_revisit_from value_lt g id send model i receives = Ok r →
  is_Some (child r) → i < next_receive_index r ≤ i + length receives.
Proof.
  revert i. induction receives as [|recv receives IH]; intros i Hrun [c Hc]; simpl in *.
  { injection Hrun as <-. discriminate Hc. }
  assert (backward_revisit_from value_lt g id send model (S i) receives = Ok r →
    i < next_receive_index r ≤ i + S (length receives)) as Hcont.
  { intros Hr. apply IH in Hr; [lia|by eexists]. }
  apply bind_Ok_inv in Hrun as (e & _ & Hrun). destruct (as_receive e) as [rl|]; [|auto].
  apply bind_Ok_inv in Hrun as ([] & _ & Hrun); simpl in Hrun; [|auto].
  apply bind_Ok_inv in Hrun as ([] & _ & Hrun); simpl in Hrun; [auto|].
  apply bind_Ok_inv in Hrun as ([] & _ & Hrun); simpl in Hrun; [|auto].
  apply bind_Ok_inv in Hrun as ([mask|] & _ & Hrun); [|auto].
  apply bind_Ok_inv in Hrun as (g' & _ & Hrun).
  destruct (new_id_of mask recv) as [nr|]; [|auto]. destruct (new_id_of mask id) as [ns|]; [|auto].
  apply bind_Ok_inv in Hrun as (c' & _ & [= <-]). simpl. lia.
Qed.

Lemma resume_send_cases owned x b g f fs cs m' :
  handle_resume_send_revisits_frame value_lt config (machine owned x b g (f :: fs) cs) = Ok m' →
  (∃ n, cursor f < n ∧ cursor f < length (candidate_event_ids f) ∧ ∃ x',
     m' = machine owned x' b g (set_cursor f n :: fs) cs ∨ ∃ g',
     m' = push_owned_context (machine owned x' b g (set_cursor f n :: fs) cs) g'
            (dpor_tree_depth f + 1) VisitIfConsistent) ∨
  ∃ f', frame_kind f' = ExitLinearChild ∧
    m' = machine owned x b g (enter (dpor_tree_depth f + 1) Visit :: f' :: fs) cs.
Proof.
  intros Hrun. unfold handle_resume_send_revisits_frame in Hrun. open_machine Hrun.
  destruct (event_id f) as [id|]; [|discriminate Hrun].
  destruct (holds_at g is_send id); cbn [negb] in Hrun; [|discriminate Hrun].
  apply bind_Ok_inv in Hrun as (next & Hnext & Hrun). rewrite machine_set_frame in Hrun.
  destruct (child next) as [g'|] eqn:Ec.
  - left. assert (cursor f < next_receive_index next ∧ cursor f < length (candidate_event_ids f))
      as [Hlt Hlen].
    { unfold next_backward_revisit_child in Hnext. apply bind_Ok_inv in Hnext as (e & _ & Hnext).
      destruct (as_send e) as [send|]; [|by injection Hnext as <-].
      apply backward_revisit_from_index in Hnext; [|by eexists]. rewrite length_drop in Hnext. lia. }
    exists (next_receive_index next). split_and!; [done|done|].
    destruct (if flag f then _ else _) as [handed x']. rewrite machine_set_executor in Hrun.
    exists x'. destruct handed; injection Hrun as <-; [by left|right; by exists g'].
  - right. injection Hrun as <-. rewrite machine_set_frame, machine_push_frame.
    by eexists (exit_linear_child _ _).
Qed.

(** *** Suspended frames end *)

Lemma nd_ends d owned fs cs :
  descends (d + 1) → ends owned fs cs →
  ∀ f, frame_kind f = ResumeNd → dpor_tree_depth f = d → ends owned (f :: fs) cs.
Proof.
  intros Hd He.
  assert (∀ n f, (∀ nd, frame_label f = Some (LNd nd) → length (choices nd) - cursor f < n) →
    frame_kind f = ResumeNd → dpor_tree_depth f = d → ends owned (f :: fs) cs) as Hind.
  { intros n. induction n as [n IH] using lt_wf_ind. intros f Hn Hk Hdf. intros x b g.
    apply machine_halts. intros x' _ m' Hrun. rewrite Hk in Hrun.
    apply resume_nd_cases in Hrun as (nd & Hl & [(g' & ->)|(Hlt & x1 & g' & Hm)]);
      [by apply ends_pop|].
    assert (ends owned (set_cursor f (cursor f + 1) :: fs) cs) as He'.
    { apply (IH (length (choices nd) - cursor f)); [by apply Hn| |done|done].
      simpl. intros nd' Hl'. replace nd' with nd by congruence. lia. }
    destruct Hm as [-> | ->]; [apply He'|]. rewrite Hdf. by apply Hd. }
  intros f Hk Hdf. destruct (frame_label f) as [[| |nd| |]|] eqn:Hl.
  3: apply (Hind (S (length (choices nd) - cursor f))); [|done|done]; intros nd' Hl';
     replace nd' with nd by congruence; lia.
  all: apply (Hind 0); [|done|done]; congruence.
Qed.

Lemma receive_ends d owned fs cs :
  descends (d + 1) → ends owned fs cs →
  ∀ f, frame_kind f = ResumeReceive → dpor_tree_depth f = d → ends owned (f :: fs) cs.
Proof.
  intros Hd He f.
  remember (length (candidate_event_ids f) - cursor f + if flag f then 1 else 0) as n eqn:Hn.
  revert f Hn. induction n as [n IH] using lt_wf_ind. intros f -> Hk Hdf. intros x b g.
  apply machine_halts. intros x' _ m' Hrun. rewrite Hk in Hrun.
  apply resume_receive_cases in Hrun as [(g' & ->)|[(Hlt & x1 & g' & Hm)|(Hfl & g' & ->)]].
  - by apply ends_pop.
  - assert (ends owned (set_cursor f (cursor f + 1) :: fs) cs) as He'
      by (eapply IH; [|done|done|done]; simpl; lia).
    destruct Hm as [-> | ->]; [apply He'|]. rewrite Hdf. by apply Hd.
  - rewrite Hdf. apply Hd. eapply IH; [|done|done|done]. simpl. rewrite Hfl. lia.
Qed.

Lemma send_ends d owned fs cs :
  descends (d + 1) → ends owned fs cs →
  ∀ f, frame_kind f = ResumeSendRevisits → dpor_tree_depth f = d → ends owned (f :: fs) cs.
Proof.
  intros Hd He f. remember (length (candidate_event_ids f) - cursor f) as n eqn:Hn.
  revert f Hn. induction n as [n IH] using lt_wf_ind. intros f -> Hk Hdf. intros x b g.
  apply machine_halts. intros x' _ m' Hrun. rewrite Hk in Hrun.
  apply resume_send_cases in Hrun as [(i & Hi & Hlen & x1 & Hm)|(f' & Hk' & ->)].
  - assert (ends owned (set_cursor f i :: fs) cs) as He'
      by (eapply IH; [|done|done|done]; simpl; lia).
    destruct Hm as [-> | (g' & ->)]; [apply He'|]. apply ends_push; [done|done|].
    intros cs' Hcs' x2 b2. rewrite Hdf. by apply Hd.
  - rewrite Hdf. apply Hd. by apply exit_ends.
Qed.

(** *** Entering *)

(** The outcomes of [handle_enter_frame] at depth [d] with [n] events in the graph. *)
Inductive entered (owned : bool) b fs cs (d n : nat) : Explorer V X → Prop :=
| entered_pop x g f : entered owned b fs cs d n (pop_top_frame (machine owned x b g (f :: fs) cs))
| entered_stop x m : stop_requested x = (true, executor m) → entered owned b fs cs d n m
| entered_reschedule x g f g' :
    event_count g' < n →
    entered owned b fs cs d n
      (push_owned_context (pop_top_frame (machine owned x b g (f :: fs) cs)) g' d Visit)
| entered_suspend x g f :
    ¬ max_depth config ≤ d → dpor_tree_depth f = d →
    frame_kind f = ResumeNd ∨ frame_kind f = ResumeReceive ∨ frame_kind f = ResumeSendRevisits →
    entered owned b fs cs d n (machine owned x b g (f :: fs) cs)
| entered_child x g f :
    ¬ max_depth config ≤ d → frame_kind f = ExitLinearChild →
    entered owned b fs cs d n (machine owned x b g (enter (d + 1) Visit :: f :: fs) cs).

Lemma publish_cases owned x b g fs cs g0 kind m' :
  publish_terminal thread_ids (machine owned x b g fs cs) g0 kind = Ok m' →
  ∃ x', m' = machine owned x' b g fs cs.
Proof.
  intros Hrun. apply bind_Ok_inv in Hrun as ([ok x'] & _ & [= <-]).
  rewrite machine_set_executor. by eexists.
Qed.

Lemma enter_label_cases owned x b g f fs cs tid l m' :
  ¬ max_depth config ≤ dpor_tree_depth f →
  enter_label thread_ids (machine owned x b g (f :: fs) cs) g f tid l = Ok m' →
  entered owned b fs cs (dpor_tree_depth f) (event_count g) m'.
Proof.
  intros Hd Hrun.
  assert (enter_linear_child (machine owned x b g (f :: fs) cs) g f tid l = Ok m' →
    entered owned b fs cs (dpor_tree_depth f) (event_count g) m') as Hlinear.
  { intros Hl. apply bind_Ok_inv in Hl as ([id g'] & _ & [= <-]).
    rewrite machine_set_graph, machine_set_frame, machine_push_frame. by constructor. }
  unfold enter_label in Hrun. destruct l as [recv|send|nd| |msg].
  - apply bind_Ok_inv in Hrun as (ids & _ & [= <-]). rewrite machine_set_frame.
    constructor; [done|done|by right; left].
  - apply bind_Ok_inv in Hrun as ([id g'] & _ & Hrun). apply bind_Ok_inv in Hrun as (ids & _ & Hrun).
    destruct (can_spawn _ _) as [spawn x']. injection Hrun as <-.
    rewrite machine_set_graph, machine_set_executor, machine_set_frame.
    constructor; [done|done|by right; right].
  - destruct (choices nd) as [|v vs]; [auto|]. injection Hrun as <-. rewrite machine_set_frame.
    constructor; [done|done|by left].
  - auto.
  - apply bind_Ok_inv in Hrun as ([id g'] & _ & Hrun). apply bind_Ok_inv in Hrun as (m1 & Hpub & Hrun).
    rewrite machine_set_graph in Hpub. apply publish_cases in Hpub as (x' & ->).
    apply bind_Ok_inv in Hrun as (g'' & _ & [= <-]). rewrite machine_set_graph. constructor.
Qed.

Lemma find_reschedule_cases g x tids r x' :
  find_reschedule_from config g x tids = Ok (r, x') →
  match r with
  | RescheduleStopRequested => ∃ x0, stop_requested (V := V) x0 = (true, x')
  | RescheduleReady g' => event_count g' < event_count g
  | RescheduleNone => True
  end.
Proof.
  revert x. induction tids as [|tid tids IH]; intros x Hrun; simpl in Hrun.
  { by injection Hrun as <- <-. }
  destruct (stop_requested x) as [[] x1] eqn:Ex; [injection Hrun as <- <-; by exists x|].
  apply bind_Ok_inv in Hrun as ([g'|] & Hre & Hrun); [|by eapply IH].
  injection Hrun as <- <-. by eapply reschedule_thread_count.
Qed.

Lemma enter_maximal_cases owned x b g f fs cs suppressed m' :
  enter_maximal config thread_ids (machine owned x b g (f :: fs) cs) g f suppressed = Ok m' →
  entered owned b fs cs (dpor_tree_depth f) (event_count g) m'.
Proof.
  intros Hrun. unfold enter_maximal in Hrun. rewrite machine_executor in Hrun.
  apply bind_Ok_inv in Hrun as ([r x'] & Hre & Hrun). apply find_reschedule_cases in Hre.
  rewrite machine_set_executor in Hrun. destruct r as [|g'|].
  - apply bind_Ok_inv in Hrun as (bl & _ & Hrun). apply bind_Ok_inv in Hrun as (m1 & Hpub & [= <-]).
    apply publish_cases in Hpub as (x'' & ->). constructor.
  - injection Hrun as <-. by constructor.
  - injection Hrun as <-. destruct Hre as (x0 & Hx0). apply (entered_stop _ _ _ _ _ _ x0).
    by rewrite machine_executor.
Qed.

Lemma enter_visit_cases owned x b g f fs cs m' :
  enter_visit config thread_ids (machine owned x b g (f :: fs) cs) = Ok m' →
  entered owned b fs cs (dpor_tree_depth f) (event_count g) m'.
Proof.
  intros Hrun. unfold enter_visit in Hrun. open_machine Hrun. rewrite machine_executor in Hrun.
  apply bind_Ok_inv in Hrun as (x1 & _ & Hrun). destruct (stop_requested x1) as [[] x2] eqn:Ex;
    rewrite machine_set_executor in Hrun.
  { injection Hrun as <-. apply (entered_stop _ _ _ _ _ _ x1). by rewrite machine_executor. }
  destruct (decide (max_depth config ≤ dpor_tree_depth f)) as [Hd|Hd].
  - apply bind_Ok_inv in Hrun as (m1 & Hpub & [= <-]). apply publish_cases in Hpub as (x3 & ->).
    constructor.
  - apply bind_Ok_inv in Hrun as (r & _ & Hrun). destruct (Dpor.next r) as [[tid l]|].
    + by eapply enter_label_cases.
    + by eapply enter_maximal_cases.
Qed.

Lemma handle_enter_cases owned x b g f fs cs m' :
  handle_enter_frame config thread_ids (machine owned x b g (f :: fs) cs) = Ok m' →
  entered owned b fs cs (dpor_tree_depth f) (event_count g) m'.
Proof.
  intros Hrun. unfold handle_enter_frame in Hrun.
  rewrite machine_current in Hrun; cbn [mbind result_bind] in Hrun.
  destruct (frame_mode f); [by apply enter_visit_cases in Hrun|].
  rewrite machine_executor in Hrun. destruct (stop_requested x) as [[] x1];
    rewrite machine_set_executor in Hrun; [injection Hrun as <-; constructor|].
  rewrite machine_graph in Hrun. apply bind_Ok_inv in Hrun as ([r g1] & Hcheck & Hrun).
  apply check_consistency_count in Hcheck. rewrite machine_set_graph in Hrun.
  destruct (is_consistent r); [|injection Hrun as <-; constructor].
  rewrite machine_set_frame in Hrun. apply enter_visit_cases in Hrun. by rewrite Hcheck in Hrun.
Qed.

Lemma reschedule_halts owned x b g f fs cs g' d :
  ends owned fs cs →
  (∀ cs', ends true [] cs' → ∀ x b, halts (machine true x b g' [enter d Visit] cs')) →
  halts (push_owned_context (pop_top_frame (machine owned x b g (f :: fs) cs)) g' d Visit).
Proof.
  intros He Hchild. destruct fs as [|f' fs].
  - destruct owned; [apply (Hchild cs He x b)|apply (Hchild cs He x g)].
  - replace (pop_top_frame _) with (machine owned x b g (f' :: fs) cs) by (by destruct owned).
    by apply ends_push.
Qed.

Lemma enter_halts d n :
  (max_depth config ≤ d ∨ descends (d + 1)) →
  ∀ g, event_count g = n → ∀ f owned fs cs, frame_kind f = Enter → dpor_tree_depth f = d →
  ends owned fs cs → ∀ x b, halts (machine owned x b g (f :: fs) cs).
Proof.
  intros Hd. induction n as [n IH] using lt_wf_ind. intros g Hn f owned fs cs Hk Hdf He x b.
  apply machine_halts. intros x' _ m' Hrun. rewrite Hk in Hrun.
  apply handle_enter_cases in Hrun. rewrite Hdf, Hn in Hrun.
  destruct Hrun as [x1 g1 f1|x0 m' Hstop|x1 g1 f1 g' Hlt|x1 g1 f1 Hmax Hdf1 Hk1|x1 g1 f1 Hmax Hk1].
  - by apply ends_pop.
  - apply stopped_halts. by eapply stop_sticky.
  - apply reschedule_halts; [done|]. intros cs' Hcs' x2 b2. by eapply (IH _ Hlt g').
  - destruct Hd as [?|Hd]; [done|]. destruct Hk1 as [Hk1|[Hk1|Hk1]].
    + by eapply nd_ends.
    + by eapply receive_ends.
    + by eapply send_ends.
  - destruct Hd as [?|Hd]; [done|]. apply Hd. by apply exit_ends.
Qed.

Lemma all_descend k d : max_depth config - d ≤ k → descends d.
Proof.
  revert d. induction k as [|k IH]; intros d Hk md owned fs cs He x b g.
  - apply (enter_halts d (event_count g)); try done. left. lia.
  - apply (enter_halts d (event_count g)); try done. right. apply IH. lia.
Qed.

Lemma run_halts x g d md : halts (MkExplorer x g [MkContext None [enter d md]]).
Proof.
  apply (all_descend _ d (Nat.le_refl _) md false [] [] ltac:(intros x' b'; by apply halts_intro) x g).
Qed.

End halting.
