(* ===== verification/VerifyFacts.v ===== *)
(** * VerifyFacts: what a run of [verify] keeps

    The sequential executor's result and the state of the observers change in two ways
    only: a terminal execution is published, or progress is reported.  [verify_rule] turns
    that into an induction principle for properties of what [verify] returns. *)

From stdpp Require Import base tactics numbers relations sets list strings.
From S2P Require Import Prelude Errors Event Relation ExecutionGraph ExplorationGraph Porf.
From S2P Require Import Consistency Program Masked Dpor Revisit Explorer ExplorationFacts.
From S2P Require Import SoundFacts NextEvent Conformance EngineFacts Termination.

Section verify.
Context {V O : Type} `{EqDecision V} (value_lt : V → V → bool) (clock : nat → Z)
  (config : DporConfig V O).
Implicit Types (r : VerifyResult) (o : O).

(** The result after a publication that the observer answered with [a]. *)
Definition after_publication r (kind : TerminalExecutionKind) (depth : nat)
    (a : TerminalExecutionAction) : VerifyResult :=
  let r' := increment_terminal_counts r kind depth in
  if decide (a = Stop) then request_stop r' else r'.

(** More fuel changes no result. *)
Lemma verify_more fuel fuel' o out :
  verify value_lt clock config o fuel = Ok out → fuel ≤ fuel' →
  verify value_lt clock config o fuel' = Ok out.
Proof.
  intros Hrun Hle. unfold verify, visit_sequential, run, run_loop in *.
  apply bind_Ok_inv in Hrun as ([] & -> & Hrun). cbn [mbind result_bind].
  apply bind_Ok_inv in Hrun as (tids & -> & Hrun). cbn [mbind result_bind].
  apply bind_Ok_inv in Hrun as (m & Hvisit & Hrun). by rewrite (while_more _ _ _ fuel' _ _ Hvisit Hle).
Qed.

Section rule.
Context (I : VerifyResult → O → Prop).
Hypothesis Hprogress : ∀ r o s o', I r o → notify_progress config o s = Ok o' → I r o'.
Hypothesis Hpublish : ∀ tids r o g kind depth a o',
  sorted_thread_ids (program config) = Ok tids → I r o → vr_kind r ≠ Stopped →
  published config tids g kind depth → follows_graph (program config) g →
  notify_terminal_execution config o g kind = Ok (a, o') →
  I (after_publication r kind depth a) o'.

Definition state_ok (s : SequentialState O) : Prop := I (seq_result s) (seq_observers s).

Lemma seq_report_ok start s state now reads at' s' :
  state_ok s → seq_report config start s state now reads at' = Ok s' → state_ok s'.
Proof.
  intros Hs Hrun. apply bind_Ok_inv in Hrun as (o & Hn & [= <-]). by eapply Hprogress.
Qed.

Lemma seq_maybe_report_progress_ok start s s' :
  state_ok s → seq_maybe_report_progress config clock start s = Ok s' → state_ok s'.
Proof.
  intros Hs. unfold seq_maybe_report_progress. destruct (on_progress config); [|by intros [= <-]].
  destruct (decide _); [destruct (decide _); [by intros [= <-]|]|]; by apply seq_report_ok.
Qed.

Lemma publish_final_progress_ok start s s' :
  state_ok s → publish_final_progress config clock start s = Ok s' → state_ok s'.
Proof.
  intros Hs. unfold publish_final_progress. destruct (on_progress config); [|by intros [= <-]].
  by apply seq_report_ok.
Qed.

Lemma sequential_preserves tids start :
  sorted_thread_ids (program config) = Ok tids →
  Preserves (H := sequential_executor config clock start) config tids (follows_graph (program config)) state_ok.
Proof.
  intros Htids. split; try done; simpl.
  - intros s s'. apply seq_maybe_report_progress_ok.
  - intros g kind depth s b s' Hs (s0 & Hstop) Hp Hf Hrun.
    injection Hstop as Hrunning%bool_decide_eq_false ->.
    apply bind_Ok_inv in Hrun as ([a o] & Hn & [= _ <-]). by eapply Hpublish.
Qed.

Lemma verify_rule fuel o r o' :
  total_program (program config) → I new_result o →
  verify value_lt clock config o fuel = Ok (r, o') → I r o'.
Proof.
  intros Htotal HI Hrun. unfold verify, visit_sequential in Hrun.
  apply bind_Ok_inv in Hrun as (_ & _ & Hrun).
  apply bind_Ok_inv in Hrun as (tids & Htids & Hrun).
  apply bind_Ok_inv in Hrun as (m & Hvisit & Hrun).
  apply bind_Ok_inv in Hrun as (s & Hfinal & [= <- <-]).
  pose proof (empty_Sound (V := V) (max_thread_events config) (communication_model config)) as He.
  eapply (run_ok (H := sequential_executor config clock (clock 0))) in Hvisit as (Hm & _).
  - by eapply publish_final_progress_ok.
  - by apply sequential_preserves.
  - apply follows_carried.
  - done.
  - done.
  - apply He.
  - done.
  - intros _. apply follows_empty.
Qed.

End rule.

End verify.

(** ** The account of recorded executions *)

Section accounts.
Context {V : Type}.
Implicit Types (log : list (TerminalExecution V)) (r : VerifyResult).

Definition count_kind (k : TerminalExecutionKind) log : nat :=
  length (List.filter (λ e, bool_decide (te_kind e = k)) log).

Definition deepest (tids : list ThreadId) log : nat :=
  foldl (λ d e, d `max` compute_max_thread_event_depth (te_graph e) tids) 0 log.

(** [r] is the account of the executions in [log]. *)
Record accounts (tids : list ThreadId) log r : Prop := {
  acc_all : executions_explored r = length log;
  acc_full : full_executions_explored r = count_kind Full log;
  acc_blocked : blocked_executions_explored r = count_kind Blocked log;
  acc_error : error_executions_explored r = count_kind ErrorExecution log;
  acc_depth : depth_limit_executions_explored r = count_kind DepthLimit log;
  acc_limit : thread_event_limit_executions_explored r = count_kind ThreadEventLimit log;
  acc_deepest : max_thread_event_depth_reached r = deepest tids log;
}.

Lemma count_kind_snoc k log e :
  count_kind k (log ++ [e]) = if decide (te_kind e = k) then S (count_kind k log) else count_kind k log.
Proof.
  unfold count_kind. rewrite List.filter_app, length_app. simpl.
  destruct (decide (te_kind e = k)) as [E|E].
  - rewrite bool_decide_eq_true_2 by done. simpl. lia.
  - rewrite bool_decide_eq_false_2 by done. simpl. lia.
Qed.

Lemma accounts_snoc tids log r e a :
  accounts tids log r →
  accounts tids (log ++ [e])
    (after_publication r (te_kind e) (compute_max_thread_event_depth (te_graph e) tids) a).
Proof.
  intros []. unfold after_publication. destruct (decide (a = Stop)); split; simpl;
    rewrite ?count_kind_snoc, ?length_app; simpl; try (case_decide; lia); try lia.
  all: unfold deepest in *; rewrite foldl_app; simpl; case_decide; lia.
Qed.

End accounts.

(** ** Termination *)

Section halts.
Context {V O : Type} `{EqDecision V} (value_lt : V → V → bool) (clock : nat → Z)
  (config : DporConfig V O).

(** The loop of a run from the empty graph ends after a fixed number of iterations. *)
Lemma sequential_halts tids (o : O) :
  let x := new_sequential_state config (clock 0) new_result o 1 in
  ∃ n, ∀ fuel oof, n ≤ fuel →
    while fuel oof (run_step (H := sequential_executor config clock (clock 0)) value_lt config tids)
      (MkExplorer x empty_exploration_graph [MkContext None [enter 0 Visit]]) =
    visit_sequential value_lt clock config (clock 0) n tids x empty_exploration_graph 0 Visit.
Proof.
  exact (halts_run (H := sequential_executor config clock (clock 0)) value_lt config tids _
    (run_halts (H := sequential_executor config clock (clock 0)) value_lt config tids _ _ 0 Visit)).
Qed.

(** From some fuel on, the result is settled. *)
Lemma verify_returns (o : O) :
  ∃ n, ∀ fuel, n ≤ fuel → verify value_lt clock config o fuel = verify value_lt clock config o n.
Proof.
  unfold verify. destruct (validate_terminal_observer_config config); [|by exists 0].
  destruct (sorted_thread_ids (program config)) as [tids|e]; [|by exists 0].
  destruct (sequential_halts tids o) as (n & Hn). exists n. intros fuel Hle. cbn [mbind result_bind].
  unfold visit_sequential at 1, run, run_loop. by rewrite (Hn fuel nontermination Hle).
Qed.

End halts.
