(* ===== verification/EntryFacts.v ===== *)
(** * EntryFacts: the loop over the backward revisits of a send

    [next_backward_revisit_child] resumes a search at a receive index.  Iterating it visits
    the receives one by one ([revisits_of_each]), and what it emits for each of them does
    not depend on the others. *)

From stdpp Require Import base tactics numbers relations sets list strings.
From S2P Require Import Prelude Errors Event Relation ExecutionGraph ExplorationGraph Porf.
From S2P Require Import Consistency Program Masked Dpor Revisit Explorer EntryPoints.
From S2P Require Import StorageFacts ExecutionGraphFacts ExplorationFacts Queries.
From S2P Require Import ConsistencyFacts.
From S2P Require Import SoundFacts RevisitFacts NextEvent Totality EngineFacts Termination.
From S2P Require Import VerifyFacts.

(** [search_one recv] follows the search through the receive [recv]. *)
Ltac search_one recv :=
  cbn [backward_revisit_from];
  destruct (ExplorationGraph.event _ recv) as [e|]; [|done]; cbn [mbind result_bind negb];
  destruct (as_receive e) as [rl|]; [|done];
  destruct (accepts rl _) as [[]|]; cbn [mbind result_bind negb]; [|done..];
  destruct (porf_query _ recv _) as [[]|]; cbn [mbind result_bind negb]; [done| |done];
  destruct (revisit_condition _ _ recv _ _) as [[]|]; cbn [mbind result_bind negb]; [|done..];
  destruct (deleted_scan _ _ recv _ _ _ _) as [[mask|]|]; cbn [mbind result_bind negb]; [|done..];
  destruct (restrict_from_keep_mask _ mask) as [r|]; cbn [mbind result_bind negb]; [|done];
  destruct (new_id_of mask recv) as [nr|]; [|done];
  destruct (new_id_of mask _) as [ns|]; [|done];
  destruct (rebind_rf_preserving_known_acyclicity r nr ns) as [c|]; done.

Section children.
Context {V : Type} `{EqDecision V} (value_lt : V → V → bool) (bound : nat) (model : CommunicationModel).
Implicit Types (g : ExplorationGraph V) (receives : list EventId).

(** The backward revisit of one receive. *)
Definition revisit_of g (send_id recv : EventId) : res (option (ExplorationGraph V)) :=
  r ← next_backward_revisit_child value_lt g send_id model [recv] 0; Ok (child r).

Lemma backward_revisit_from_cons g send_id send idx recv rest :
  backward_revisit_from value_lt g send_id send model idx (recv :: rest) =
  (r ← backward_revisit_from value_lt g send_id send model idx [recv];
   match child r with
   | Some _ => Ok r
   | None => backward_revisit_from value_lt g send_id send model (S idx) rest
   end).
Proof. search_one recv. Qed.
(** The search in one receive ends past it, wherever it starts. *)
Lemma backward_revisit_from_one g send_id send idx recv :
  backward_revisit_from value_lt g send_id send model idx [recv] =
  (r ← backward_revisit_from value_lt g send_id send model 0 [recv];
   Ok (MkBackwardRevisitChild (S idx) (child r))).
Proof. search_one recv. Qed.

Section loop.
Context (g : ExplorationGraph V) (send_id : EventId) (e : Event V) (send : SendLabel V)
  (He : events g !! send_id = Some e) (Hsend : as_send e = Some send).

Lemma event_of_send : ExplorationGraph.event g send_id = Ok e.
Proof. unfold ExplorationGraph.event, ExecutionGraph.event. fold (events g). by rewrite He. Qed.

(** The search at [idx] of receives whose revisits are [os]. *)
Lemma search_receives receives os idx :
  Forall2 (λ recv o, revisit_of g send_id recv = Ok o) receives os →
  ∃ r, backward_revisit_from value_lt g send_id send model idx receives = Ok r ∧
    match child r with
    | None => omap id os = []
    | Some c => ∃ k, next_receive_index r = idx + S k ∧ k < length receives ∧
        omap id os = c :: omap id (drop (S k) os)
    end.
Proof.
  intros Hos. revert idx. induction Hos as [|recv o receives os Ho Hos IH]; intros idx.
  { by eexists. }
  rewrite backward_revisit_from_cons, backward_revisit_from_one.
  unfold revisit_of, next_backward_revisit_child in Ho. rewrite event_of_send in Ho. cbn [mbind result_bind] in Ho.
  rewrite Hsend in Ho. cbn [drop] in Ho.
  apply bind_Ok_inv in Ho as (r & Hr & [= <-]). rewrite Hr. cbn [mbind result_bind child].
  destruct (child r) as [c|] eqn:Hc.
  - eexists. split; [done|]. cbn [child]. exists 0. simpl. split_and!; [lia|lia|done].
  - destruct (IH (S idx)) as (r' & Hr' & Hm). exists r'. split; [done|].
    destruct (child r') as [c|]; [|done]. destruct Hm as (k & Hk & Hlt & Heq).
    exists (S k). simpl. split_and!; [lia|lia|done].
Qed.

Context {S' : Type} (should_stop : S' → bool) (emit : ExplorationGraph V → S' → res (bool * S')).

(** The callbacks on a list of children. *)
Fixpoint emit_each (children : list (ExplorationGraph V)) (s : S') : res S' :=
  match children with
  | [] => Ok s
  | c :: rest =>
      if should_stop s then Ok s
      else '(go_on, s') ← emit c s; if (go_on : bool) then emit_each rest s' else Ok s'
  end.

Lemma revisit_step_eq receives i s r :
  next_backward_revisit_child value_lt g send_id model receives i = Ok r →
  revisit_child_step value_lt should_stop emit g send_id model receives (i, s) =
  if should_stop s then Ok (inr s)
  else match child r with
       | None => Ok (inr s)
       | Some c => '(go_on, s') ← emit c s;
                   if (go_on : bool) then Ok (inl (next_receive_index r, s')) else Ok (inr s')
       end.
Proof. intros Hr. unfold revisit_child_step. by rewrite Hr. Qed.

Lemma revisit_loop receives os i s fuel :
  Forall2 (λ recv o, revisit_of g send_id recv = Ok o) receives os →
  length receives - i < fuel →
  while fuel nontermination (revisit_child_step value_lt should_stop emit g send_id model receives) (i, s) =
  emit_each (omap id (drop i os)) s.
Proof.
  intros Hos. revert i s. induction fuel as [|fuel IH]; intros i s Hf; [lia|].
  rewrite while_S.
  assert (Forall2 (λ recv o, revisit_of g send_id recv = Ok o) (drop i receives) (drop i os)) as Hd
    by by apply Forall2_drop.
  destruct (search_receives _ _ i Hd) as (r & Hrun & Hr).
  assert (next_backward_revisit_child value_lt g send_id model receives i = Ok r) as Hnext.
  { unfold next_backward_revisit_child. rewrite event_of_send. cbn [mbind result_bind]. by rewrite Hsend. }
  rewrite (revisit_step_eq _ _ _ _ Hnext). destruct (child r) as [c|].
  - destruct Hr as (k & Hk & Hlt & ->). rewrite length_drop in Hlt. cbn [emit_each].
    destruct (should_stop s); [done|]. cbn [mbind result_bind].
    destruct (emit c s) as [[[] s']|]; cbn [mbind result_bind]; [|done..].
    rewrite IH by lia. by rewrite Hk, drop_drop.
  - rewrite Hr. by destruct (should_stop s).
Qed.

End loop.

(** On a sound graph every receive has a definite revisit. *)
Lemma revisit_of_each g send_id receives :
  Sound bound model g → send_id < event_count g → (∀ r, r ∈ receives → r < event_count g) →
  ∃ os, Forall2 (λ recv o, revisit_of g send_id recv = Ok o) receives os.
Proof.
  intros Hs Hlt. induction receives as [|recv receives IH]; intros Hr; [by exists []|].
  destruct IH as [os Hos]; [set_solver|].
  destruct (next_backward_revisit_child_returns value_lt bound model g send_id [recv] 0) as [r Hrun];
    [done|done|intros x ->%list_elem_of_singleton; apply Hr; set_solver|].
  exists (child r :: os). constructor; [|done]. unfold revisit_of. by rewrite Hrun.
Qed.

End children.
