(* ===== verification/ExecutorFacts.v ===== *)
(** * ExecutorFacts: the engine does not look into its executor

    The engine passes the state of its executor from one operation of [Executor] to the
    next and never looks into it.  So when two executors simulate each other, so do the
    iterations of the engine on them ([run_step_simulates]).  A predicate that the
    operations of one executor keep is the special case of an executor that simulates
    itself ([run_step_stable]). *)

From stdpp Require Import base tactics numbers sets list strings.
From S2P Require Import Prelude Errors Event Relation ExecutionGraph ExplorationGraph Porf.
From S2P Require Import Consistency Program Masked Dpor Revisit Explorer EngineFacts.

Create HintDb executor.

(** ** Related results *)

(** The same exception, or related values. *)
Inductive res_rel {A B} (R : A → B → Prop) : res A → res B → Prop :=
| rel_Ok a b : R a b → res_rel R (Ok a) (Ok b)
| rel_Throw e : res_rel R (Throw e) (Throw e).

Section res_rel.
Context {A B A' B' : Type} (R : A → B → Prop) (S : A' → B' → Prop).

Lemma res_rel_bind r r' (k : A → res A') (k' : B → res B') :
  res_rel R r r' → (∀ a b, R a b → res_rel S (k a) (k' b)) → res_rel S (r ≫= k) (r' ≫= k').
Proof. intros [a b Hab|e] Hk; [by apply Hk|constructor]. Qed.

Lemma res_rel_fmap r r' (f : A → A') (f' : B → B') :
  res_rel R r r' → (∀ a b, R a b → S (f a) (f' b)) → res_rel S (f <$> r) (f' <$> r').
Proof. intros [a b Hab|e] Hf; constructor. by apply Hf. Qed.

End res_rel.

(** Both sides start with the same computation. *)
Lemma res_rel_same {C A B} (S : A → B → Prop) (r : res C) (k : C → res A) (k' : C → res B) :
  (∀ c, r = Ok c → res_rel S (k c) (k' c)) → res_rel S (r ≫= k) (r ≫= k').
Proof. intros Hk. destruct r as [c|e]; [by apply Hk|constructor]. Qed.

(** ** Simulations *)

Section simulation.
Context {V O X Y : Type} `{EqDecision V} {HX : Executor V X} {HY : Executor V Y}
  (value_lt : V → V → bool) (config : DporConfig V O) (thread_ids : list ThreadId).
Implicit Types (g : ExplorationGraph V) (f : ExplorationFrame V).

(** Related answers of two executors. *)
Definition answers (R : X → Y → Prop) {A : Type} (a : A * X) (b : A * Y) : Prop :=
  a.1 = b.1 ∧ R a.2 b.2.

(** The second executor accepts tasks. *)
Definition accepts : Prop := ∃ (task : ExplorationTask V) (y : Y), (try_enqueue task y).1 = true.

(** The engine publishes only when the executor has just denied a request to stop, and
    notes a split only when the executor has accepted a task. *)
Record Simulates (R : X → Y → Prop) : Prop := {
  si_stop : ∀ x y, R x y → answers R (stop_requested (V := V) x) (stop_requested (V := V) y);
  si_report : ∀ x y, R x y →
    res_rel R (maybe_report_progress (V := V) x) (maybe_report_progress (V := V) y);
  si_spawn : ∀ d x y, R x y → answers R (can_spawn (V := V) d x) (can_spawn (V := V) d y);
  si_split : ∀ d x y, R x y → answers R (should_split_to_idle_worker (V := V) d x)
    (should_split_to_idle_worker (V := V) d y);
  si_note_nd : ∀ x y, R x y → accepts → R (note_nd_split (V := V) x) (note_nd_split (V := V) y);
  si_note_receive : ∀ x y, R x y → accepts →
    R (note_receive_split (V := V) x) (note_receive_split (V := V) y);
  si_enqueue : ∀ (task : ExplorationTask V) x y, R x y →
    answers R (try_enqueue task x) (try_enqueue task y);
  si_publish : ∀ g kind depth x y, R x y → ongoing (V := V) y →
    res_rel (answers R) (publish_terminal_execution g kind depth x)
      (publish_terminal_execution g kind depth y);
}.

Context (R : X → Y → Prop) (HR : Simulates R).

(** Machines that differ in their executors only. *)
Record alike (m : Explorer V X) (n : Explorer V Y) : Prop := {
  al_executor : R (executor m) (executor n);
  al_graph : borrowed_graph m = borrowed_graph n;
  al_contexts : contexts m = contexts n;
}.

(** *** Updates of machines *)

Lemma alike_executor m n x y : alike m n → R x y → alike (set_executor m x) (set_executor n y).
Proof. by intros []. Qed.

Lemma alike_current_graph m n g : alike m n → alike (set_current_graph m g) (set_current_graph n g).
Proof.
  intros Hm. pose proof Hm as [Hx Hg Hc]. unfold set_current_graph. rewrite <-Hc. destruct (contexts m) as [|c cs]; [done|].
  by destruct (owned_graph c).
Qed.

Lemma alike_current_frames m n fs :
  alike m n → alike (set_current_frames m fs) (set_current_frames n fs).
Proof.
  intros Hm. pose proof Hm as [Hx Hg Hc]. unfold set_current_frames. rewrite <-Hc.
  by destruct (contexts m) as [|c cs].
Qed.

Lemma current_frames_alike m n : alike m n → current_frames n = current_frames m.
Proof. intros [_ _ Hc]. unfold current_frames. by rewrite Hc. Qed.

Lemma alike_frame m n f : alike m n → alike (set_frame m f) (set_frame n f).
Proof.
  intros Hm. unfold set_frame. rewrite (current_frames_alike m n Hm). by apply alike_current_frames.
Qed.

Lemma alike_push_frame m n f : alike m n → alike (push_frame m f) (push_frame n f).
Proof.
  intros Hm. unfold push_frame. rewrite (current_frames_alike m n Hm). by apply alike_current_frames.
Qed.

Lemma alike_pop_context m n : alike m n → alike (pop_context m) (pop_context n).
Proof. intros []. split; simpl; congruence. Qed.

Lemma alike_pop_top m n : alike m n → alike (pop_top_frame m) (pop_top_frame n).
Proof.
  intros Hm. unfold pop_top_frame. rewrite (current_frames_alike m n Hm).
  apply (alike_current_frames m n (tail (current_frames m))) in Hm as Hf.
  unfold pop_context_if_empty. pose proof (al_contexts _ _ Hf) as Hc. rewrite <-Hc.
  destruct (contexts (set_current_frames m _)) as [|c cs]; [done|].
  destruct (frames c); [by apply alike_pop_context|done].
Qed.

Lemma alike_push_owned m n g d md :
  alike m n → alike (push_owned_context m g d md) (push_owned_context n g d md).
Proof. intros []. split; simpl; congruence. Qed.

#[local] Hint Resolve alike_executor alike_current_graph alike_frame alike_push_frame alike_pop_context
  alike_pop_top alike_push_owned al_executor : executor.

Lemma current_alike m n : alike m n → current n = current m.
Proof. intros [_ _ Hc]. unfold current. by rewrite Hc. Qed.

Lemma context_graph_alike m n c : alike m n → context_graph n c = context_graph m c.
Proof. intros [_ Hg _]. unfold context_graph. by rewrite Hg. Qed.

(** Reads of the current context. *)
Ltac same_context Hm :=
  rewrite ?(current_alike _ _ Hm); apply res_rel_same; intros [c f] _;
  rewrite ?(context_graph_alike _ _ c Hm).

Lemma rollback_and_pop_alike m n :
  alike m n → res_rel alike (rollback_and_pop_top_frame m) (rollback_and_pop_top_frame n).
Proof.
  intros Hm. unfold rollback_and_pop_top_frame. same_context Hm. apply res_rel_same. intros g _.
  constructor. auto with executor.
Qed.

Lemma unwind_alike m n : alike m n → res_rel alike (unwind_one_step m) (unwind_one_step n).
Proof.
  intros Hm. unfold unwind_one_step. rewrite <-(al_contexts _ _ Hm).
  destruct (contexts m) as [|c cs]; [by constructor|].
  destruct (frames c) as [|f fs]; [constructor; auto with executor|].
  destruct (frame_kind f); [constructor; auto with executor|..]; by apply rollback_and_pop_alike.
Qed.

(** *** Handlers *)

Lemma publish_alike m n g kind :
  alike m n → ongoing (V := V) (executor n) →
  res_rel alike (publish_terminal thread_ids m g kind) (publish_terminal thread_ids n g kind).
Proof.
  intros Hm Ho. unfold publish_terminal.
  eapply res_rel_bind; [by apply (si_publish R HR); [apply Hm|]|].
  intros [b x] [b' y] [_ Hxy]. constructor. by apply alike_executor.
Qed.

Lemma find_reschedule_alike g x y tids :
  R x y → ongoing (V := V) y →
  res_rel (λ a b, answers R a b ∧ (b.1 = RescheduleNone → ongoing (V := V) b.2))
    (find_reschedule_from config g x tids) (find_reschedule_from config g y tids).
Proof.
  revert x y. induction tids as [|tid tids IH]; intros x y Hxy Ho; simpl; [by constructor|].
  pose proof (si_stop R HR x y Hxy) as [Hb Hxy'].
  destruct (stop_requested x) as [b x1], (stop_requested y) as [b' y1] eqn:Ey. simpl in Hb, Hxy'.
  subst b'. destruct b; [by constructor|]. apply res_rel_same. intros [g'|] _; [by constructor|].
  apply IH; [done|by exists y].
Qed.

Lemma enter_linear_alike m n g f tid l :
  alike m n → res_rel alike (enter_linear_child m g f tid l) (enter_linear_child n g f tid l).
Proof.
  intros Hm. apply res_rel_same. intros [id g'] _. constructor. auto with executor.
Qed.

Lemma enter_label_alike m n g f tid l :
  alike m n → ongoing (V := V) (executor n) →
  res_rel alike (enter_label thread_ids m g f tid l) (enter_label thread_ids n g f tid l).
Proof.
  intros Hm Ho. destruct l as [recv|send|nd| |msg]; unfold enter_label.
  - apply res_rel_same. intros ids _. constructor. auto with executor.
  - apply res_rel_same. intros [id g'] _. apply res_rel_same. intros rs _.
    destruct (si_spawn R HR (dpor_tree_depth f + 1) _ _ (al_executor _ _ Hm)) as [Hb Hxy].
    destruct (can_spawn _ (executor m)) as [b x], (can_spawn _ (executor n)) as [b' y].
    simpl in Hb, Hxy. subst b'. constructor. auto with executor.
  - destruct (choices nd); [by apply enter_linear_alike|]. constructor. auto with executor.
  - by apply enter_linear_alike.
  - apply res_rel_same. intros [id g'] _. eapply res_rel_bind.
    + apply publish_alike; [auto with executor|]. unfold set_current_graph.
      by destruct (contexts n) as [|[[] ] ].
    + intros m1 n1 Hm1. apply res_rel_same. intros g'' _. constructor. auto with executor.
Qed.

Lemma enter_maximal_alike m n g f sup :
  alike m n → ongoing (V := V) (executor n) →
  res_rel alike (enter_maximal config thread_ids m g f sup) (enter_maximal config thread_ids n g f sup).
Proof.
  intros Hm Ho. unfold enter_maximal, find_blocked_receive_reschedule_child.
  eapply res_rel_bind; [by apply find_reschedule_alike; [apply Hm|]|].
  intros [r x] [r' y] [[Hr Hxy] Hon]. simpl in *. subst r'. destruct r as [|g'|].
  - apply res_rel_same. intros bl _. eapply res_rel_bind.
    + apply publish_alike; [auto with executor|]. by apply Hon.
    + intros m1 n1 Hm1. constructor. auto with executor.
  - constructor. auto with executor.
  - constructor. auto with executor.
Qed.

Lemma enter_visit_alike m n :
  alike m n → res_rel alike (enter_visit config thread_ids m) (enter_visit config thread_ids n).
Proof.
  intros Hm. unfold enter_visit. same_context Hm.
  eapply res_rel_bind; [by apply (si_report R HR), Hm|]. intros x y Hxy.
  pose proof (si_stop R HR x y Hxy) as [Hb Hxy'].
  destruct (stop_requested x) as [b x1], (stop_requested y) as [b' y1] eqn:Ey. simpl in Hb, Hxy'.
  subst b'. destruct b; [constructor; auto with executor|].
  assert (ongoing (V := V) (executor (set_executor n y1))) as Ho by (by exists y).
  destruct (decide _).
  - eapply res_rel_bind; [apply publish_alike; [auto with executor|done]|].
    intros m1 n1 Hm1. constructor. auto with executor.
  - apply res_rel_same. intros next _. destruct (Dpor.next next) as [[tid l]|].
    + apply enter_label_alike; [auto with executor|done].
    + apply enter_maximal_alike; [auto with executor|done].
Qed.

Lemma handle_enter_alike m n :
  alike m n →
  res_rel alike (handle_enter_frame config thread_ids m) (handle_enter_frame config thread_ids n).
Proof.
  intros Hm. unfold handle_enter_frame. same_context Hm.
  destruct (frame_mode f); [by apply enter_visit_alike|].
  destruct (si_stop R HR _ _ (al_executor _ _ Hm)) as [Hb Hxy].
  destruct (stop_requested (executor m)) as [b x], (stop_requested (executor n)) as [b' y].
  simpl in Hb, Hxy. subst b'. destruct b; [constructor; auto with executor|].
  rewrite (context_graph_alike _ _ c (alike_executor m n x y Hm Hxy)). apply res_rel_same.
  intros [r g] _. destruct (is_consistent r); [|constructor; auto with executor].
  apply enter_visit_alike. auto with executor.
Qed.

Lemma offer_child_alike m n keeps_local_work d md build g :
  alike m n →
  res_rel (λ a b, answers R a b ∧ (b.1 = true → accepts)) (offer_child m keeps_local_work d md build g)
    (offer_child n keeps_local_work d md build g).
Proof.
  intros Hm. unfold offer_child. destruct keeps_local_work; [|constructor; by split; [split; [|apply Hm]|]].
  destruct (si_split R HR d _ _ (al_executor _ _ Hm)) as [Hb Hxy].
  destruct (should_split_to_idle_worker d (executor m)) as [b x],
    (should_split_to_idle_worker d (executor n)) as [b' y].
  simpl in Hb, Hxy. subst b'. destruct b; [|by constructor]. apply res_rel_same. intros child _.
  constructor. split; [by apply (si_enqueue R HR)|]. intros Hq. by eexists _, y.
Qed.

Lemma handle_resume_nd_alike m n :
  alike m n → res_rel alike (handle_resume_nd_frame m) (handle_resume_nd_frame n).
Proof.
  intros Hm. unfold handle_resume_nd_frame. same_context Hm. apply res_rel_same. intros g _.
  destruct (frame_label f) as [[| |nd| |]|]; try constructor.
  destruct (choices nd) as [|v0 vs] eqn:Ec; [constructor|]. rewrite <-Ec.
  destruct (choices nd !! cursor f); [|constructor; auto with executor].
  eapply res_rel_bind; [by apply offer_child_alike, alike_current_graph|].
  intros [b x] [b' y] [[Hb Hxy] Hacc]. simpl in Hb, Hxy, Hacc. subst b'. destruct b.
  - constructor. apply alike_executor; [auto with executor|]. apply (si_note_nd R HR); [|auto].
    auto 8 with executor.
  - apply res_rel_same. intros g' _. constructor. auto 8 with executor.
Qed.

Lemma handle_resume_receive_alike m n :
  alike m n → res_rel alike (handle_resume_receive_frame m) (handle_resume_receive_frame n).
Proof.
  intros Hm. unfold handle_resume_receive_frame. same_context Hm. apply res_rel_same. intros g _.
  destruct (frame_label f) as [[recv| | | |]|]; try constructor.
  destruct (candidate_event_ids f !! cursor f).
  - eapply res_rel_bind; [by apply offer_child_alike, alike_current_graph|].
    intros [b x] [b' y] [[Hb Hxy] Hacc]. simpl in Hb, Hxy, Hacc. subst b'. destruct b.
    + constructor. apply alike_executor; [auto with executor|]. apply (si_note_receive R HR); [|auto].
      auto 8 with executor.
    + apply res_rel_same. intros g' _. constructor. auto 8 with executor.
  - destruct (flag f); [|constructor; auto with executor].
    apply res_rel_same. intros g' _. constructor. auto 8 with executor.
Qed.

Lemma handle_resume_send_alike m n :
  alike m n →
  res_rel alike (handle_resume_send_revisits_frame value_lt config m)
    (handle_resume_send_revisits_frame value_lt config n).
Proof.
  intros Hm. unfold handle_resume_send_revisits_frame. same_context Hm.
  destruct (event_id f) as [id|]; [|constructor]. destruct (negb _); [constructor|].
  apply res_rel_same. intros next _. destruct (child next) as [g'|]; [|constructor; auto 8 with executor].
  set (f' := set_cursor f (next_receive_index next)).
  pose proof (alike_frame m n f' Hm) as Hm'.
  assert (answers R
    (if flag f then try_enqueue_owned_task (executor (set_frame m f')) g' (dpor_tree_depth f + 1)
       VisitIfConsistent else (false, executor (set_frame m f')))
    (if flag f then try_enqueue_owned_task (executor (set_frame n f')) g' (dpor_tree_depth f + 1)
       VisitIfConsistent else (false, executor (set_frame n f')))) as [Hb Hxy].
  { destruct (flag f); [|by split; [|apply Hm']]. apply (si_enqueue R HR), Hm'. }
  destruct (if flag f then try_enqueue_owned_task (executor (set_frame m f')) _ _ _ else _) as [b x],
    (if flag f then try_enqueue_owned_task (executor (set_frame n f')) _ _ _ else _) as [b' y].
  simpl in Hb, Hxy. subst b'. destruct b; constructor; auto with executor.
Qed.

(** Iterations on executors that simulate each other simulate each other. *)
Lemma run_step_simulates m n :
  alike m n →
  res_rel (λ a b, match a, b with
                  | inl m', inl n' => alike m' n'
                  | inr m', inr n' => alike m' n'
                  | _, _ => False
                  end) (run_step value_lt config thread_ids m) (run_step value_lt config thread_ids n).
Proof.
  intros Hm. unfold run_step. rewrite <-(al_contexts _ _ Hm).
  destruct (contexts m) as [|c cs]; [by constructor|].
  destruct (si_stop R HR _ _ (al_executor _ _ Hm)) as [Hb Hxy].
  destruct (stop_requested (executor m)) as [b x], (stop_requested (executor n)) as [b' y].
  simpl in Hb, Hxy. subst b'. apply (alike_executor m n x y) in Hm; [|done].
  destruct b; [by eapply res_rel_fmap; [by apply unwind_alike|]|].
  rewrite <-(current_frames_alike _ _ Hm).
  destruct (current_frames (set_executor n y)) as [|f fs]; [constructor; by apply alike_pop_context|].
  eapply res_rel_fmap; [|done]. destruct (frame_kind f).
  - by apply handle_enter_alike.
  - by apply rollback_and_pop_alike.
  - by apply handle_resume_nd_alike.
  - by apply handle_resume_receive_alike.
  - by apply handle_resume_send_alike.
Qed.

End simulation.

(** ** Predicates of one executor *)

Section stable.
Context {V O X : Type} `{EqDecision V} `{Executor V X} (value_lt : V → V → bool)
  (config : DporConfig V O) (thread_ids : list ThreadId).

Record Stable (P : X → Prop) : Prop := {
  st_stop : ∀ x, P x → P (stop_requested (V := V) x).2;
  st_report : ∀ x x', P x → maybe_report_progress (V := V) x = Ok x' → P x';
  st_spawn : ∀ d x, P x → P (can_spawn (V := V) d x).2;
  st_split : ∀ d x, P x → P (should_split_to_idle_worker (V := V) d x).2;
  st_note_nd : ∀ x, P x → P (note_nd_split (V := V) x);
  st_note_receive : ∀ x, P x → P (note_receive_split (V := V) x);
  st_enqueue : ∀ task x, P x → P (try_enqueue task x).2;
  st_publish : ∀ (g : ExplorationGraph V) kind depth x b x', P x →
    publish_terminal_execution g kind depth x = Ok (b, x') → P x';
}.

Lemma stable_simulates (P : X → Prop) : Stable P → Simulates (V := V) (λ x y, y = x ∧ P x).
Proof.
  intros HP. split.
  - intros x ? [-> Hx]. split; [done|]. split; [done|]. by apply st_stop.
  - intros x ? [-> Hx]. destruct (maybe_report_progress x) eqn:E; constructor.
    split; [done|]. by eapply st_report.
  - intros d x ? [-> Hx]. split; [done|]. split; [done|]. by apply st_spawn.
  - intros d x ? [-> Hx]. split; [done|]. split; [done|]. by apply st_split.
  - intros x ? [-> Hx] _. split; [done|]. by apply st_note_nd.
  - intros x ? [-> Hx] _. split; [done|]. by apply st_note_receive.
  - intros t x ? [-> Hx]. split; [done|]. split; [done|]. by apply st_enqueue.
  - intros g kind d x ? [-> Hx] _. destruct (publish_terminal_execution g kind d x) as [[b x']|e] eqn:E;
      constructor. split; [done|]. split; [done|]. by eapply st_publish.
Qed.

(** A predicate that every operation of the executor keeps is kept by an iteration of the
    engine. *)
Lemma run_step_stable (P : X → Prop) (HP : Stable P) (m : Explorer V X) r :
  P (executor m) → run_step value_lt config thread_ids m = Ok r →
  match r with inl m' | inr m' => P (executor m') end.
Proof.
  intros Hx Hrun.
  pose proof (run_step_simulates value_lt config thread_ids _ (stable_simulates P HP) m m
    ltac:(by split)) as Hr.
  rewrite Hrun in Hr. inversion Hr as [a b Hab Ha Hb|]; subst. destruct r as [m'|m']; apply Hab.
Qed.

End stable.
