(* ===== verification/PoolFacts.v ===== *)
(** * PoolFacts: the protocol of the worker pool

    The lock, the counter of active workers, the completion flag and the parked workers
    of [Parallel] are tied together by an invariant ([protocol]).  As long as no stop is
    requested, it rules out lost wake-ups: a pool that cannot move has left its loops,
    with an empty queue and the search complete ([pool_progress]). *)

From stdpp Require Import base tactics numbers relations sets list strings.
From S2P Require Import Prelude Errors Event Relation ExecutionGraph ExplorationGraph Porf.
From S2P Require Import Consistency Program Masked Dpor Revisit Explorer Parallel ExecutorFacts.

(** ** Phases *)

(** The phases in which a worker holds [queue_mutex_]. *)
Definition holds_lock {V} (ph : Phase V) : bool :=
  match ph with Checking | Waiting | Parking | Taking => true | _ => false end.

(** The phases [active_workers_] counts. *)
Definition busy {V} (ph : Phase V) : bool :=
  match ph with Starting _ | Working _ _ | Failed _ | Finishing => true | _ => false end.

(** The phases that lead to the queue without a notification. *)
Definition awake {V} (ph : Phase V) : bool :=
  match ph with AtLock | Checking | Waiting | Woken | Taking => true | _ => false end.

Definition busy_count {V} (ws : list (Worker V)) : nat :=
  length (List.filter (λ w, busy (w_phase w)) ws).

Lemma busy_count_insert {V} (ws : list (Worker V)) i w w' :
  ws !! i = Some w →
  busy_count (<[i := w']> ws) + Nat.b2n (busy (w_phase w)) =
  busy_count ws + Nat.b2n (busy (w_phase w')).
Proof.
  unfold busy_count. revert i. induction ws as [|w0 ws IH]; intros [|i]; simpl; try done.
  - intros [= ->]. destruct (busy (w_phase w)), (busy (w_phase w')); simpl; lia.
  - intros Hi. specialize (IH i Hi). destruct (busy (w_phase w0)); simpl; lia.
Qed.

Section protocol.
Context {V O : Type}.
Implicit Types (p : Pool V O) (s : Shared V O) (ws : list (Worker V)).

(** Some worker is in a phase that satisfies [Q]. *)
Definition some_phase (Q : Phase V → Prop) ws : Prop := ∃ i w, ws !! i = Some w ∧ Q (w_phase w).

(** The invariant, apart from pending broadcasts.  What concerns the queue is claimed
    only while no stop is requested. *)
Record protocol p : Prop := {
  pr_lock : ∀ i w, workers p !! i = Some w →
    holds_lock (w_phase w) = true ↔ lock_owner p = Some i;
  pr_owner : ∀ i, lock_owner p = Some i → is_Some (workers p !! i);
  pr_exception : is_Some (first_exception_ (p_shared p)) → stop_requested_ (p_shared p) = true;
  pr_quiet : stop_requested_ (p_shared p) = false →
    active_workers_ (p_shared p) = busy_count (workers p) ∧
    (search_complete_ (p_shared p) = true →
       task_queue_ (p_shared p) = [] ∧ active_workers_ (p_shared p) = 0) ∧
    (search_complete_ (p_shared p) = false →
       (task_queue_ (p_shared p) ≠ [] ∨ 0 < active_workers_ (p_shared p)) ∧
       (active_workers_ (p_shared p) = 0 → some_phase (λ ph, awake ph = true) (workers p)) ∧
       ¬ some_phase (λ ph, ph = Exited ∨ ph = Notifying) (workers p)) ∧
    (∀ i w, workers p !! i = Some w → w_phase w = Parking →
       task_queue_ (p_shared p) = [] ∧ search_complete_ (p_shared p) = false) ∧
    (∀ i w, workers p !! i = Some w → w_phase w = Taking →
       search_complete_ (p_shared p) = true ∨ task_queue_ (p_shared p) ≠ []);
}.

(** A completed search has a broadcast coming for every parked worker. *)
Definition broadcast_due p : Prop :=
  stop_requested_ (p_shared p) = false → search_complete_ (p_shared p) = true →
  some_phase (λ ph, ph = Parked) (workers p) → some_phase (λ ph, ph = Notifying) (workers p).

(** *** Moving one worker *)

Lemma some_phase_insert (Q : Phase V → Prop) ws i w w' :
  ws !! i = Some w →
  some_phase Q (<[i := w']> ws) ↔
    Q (w_phase w') ∨ ∃ j x, j ≠ i ∧ ws !! j = Some x ∧ Q (w_phase x).
Proof.
  intros Hi. pose proof (lookup_lt_Some _ _ _ Hi) as Hlt. split.
  - intros (j & x & Hj & HQ). destruct (decide (j = i)) as [->|Hne].
    + rewrite list_lookup_insert_eq in Hj by done. injection Hj as <-. by left.
    + rewrite list_lookup_insert_ne in Hj by done. right. by exists j, x.
  - intros [HQ|(j & x & Hne & Hj & HQ)].
    + exists i, w'. by rewrite list_lookup_insert_eq.
    + exists j, x. by rewrite list_lookup_insert_ne.
Qed.

(** What a step of worker [i] from phase [ph] to phase [ph'] has to establish. *)
Record fair_move p (i : nat) (ph : Phase V) s' (owner' : option nat) (ph' : Phase V) : Prop := {
  fm_lock : holds_lock ph' = true ↔ owner' = Some i;
  fm_others : ∀ j, j ≠ i → owner' = Some j ↔ lock_owner p = Some j;
  fm_exception : is_Some (first_exception_ s') → stop_requested_ s' = true;
  fm_quiet : stop_requested_ s' = false →
    stop_requested_ (p_shared p) = false ∧
    active_workers_ s' + Nat.b2n (busy ph) = active_workers_ (p_shared p) + Nat.b2n (busy ph') ∧
    (search_complete_ s' = true → task_queue_ s' = [] ∧ active_workers_ s' = 0) ∧
    (search_complete_ s' = false →
       (task_queue_ s' ≠ [] ∨ 0 < active_workers_ s') ∧
       (active_workers_ s' = 0 → awake ph' = true ∨
          active_workers_ (p_shared p) = 0 ∧ awake ph = false) ∧
       search_complete_ (p_shared p) = false ∧ ph' ≠ Exited ∧ ph' ≠ Notifying) ∧
    (ph' = Parking → task_queue_ s' = [] ∧ search_complete_ s' = false) ∧
    (ph' = Taking → search_complete_ s' = true ∨ task_queue_ s' ≠ []) ∧
    (lock_owner p ≠ None → lock_owner p ≠ Some i →
       task_queue_ s' = task_queue_ (p_shared p) ∧
       search_complete_ s' = search_complete_ (p_shared p));
}.

Lemma protocol_move p i w s' owner' ph' st' :
  protocol p → workers p !! i = Some w → fair_move p i (w_phase w) s' owner' ph' →
  protocol (move p i s' owner' ph' st').
Proof.
  intros [Hlock Hown _ Hq] Hi [Hl Ho He Hm]. pose proof (lookup_lt_Some _ _ _ Hi) as Hlt.
  split; simpl; [| |done|].
  - intros j x. destruct (decide (j = i)) as [->|Hne].
    + rewrite list_lookup_insert_eq by done. by intros [= <-].
    + rewrite list_lookup_insert_ne by done. intros Hj. rewrite (Ho j Hne). by apply Hlock.
  - intros j Hj. destruct (decide (j = i)) as [->|Hne].
    + by rewrite list_lookup_insert_eq.
    + rewrite list_lookup_insert_ne by done. by apply Hown, Ho.
  - intros Hstop. destruct (Hm Hstop) as (Hs0 & Hact & Hc & Hnc & Hpark & Htake & Hsame).
    destruct (Hq Hs0) as (Hact0 & Hc0 & Hnc0 & Hpark0 & Htake0).
    assert (∀ j x, j ≠ i → workers p !! j = Some x → holds_lock (w_phase x) = true →
      task_queue_ s' = task_queue_ (p_shared p) ∧
      search_complete_ s' = search_complete_ (p_shared p)) as Hkeep.
    { intros j x Hne Hj Hx. apply (Hlock j x Hj) in Hx. apply Hsame; rewrite Hx; congruence. }
    split_and!.
    + pose proof (busy_count_insert (workers p) i w (MkWorker ph' st') Hi) as Hb. simpl in Hb. lia.
    + done.
    + intros Hf. destruct (Hnc Hf) as (Hwork & Haw & Hf0 & Hne1 & Hne2). split_and!; [done| |].
      * intros H0. apply (some_phase_insert _ _ _ _ _ Hi). simpl.
        destruct (Haw H0) as [?|[H00 Hna]]; [by left|right].
        destruct (Hnc0 Hf0) as (_ & Haw0 & _). destruct (Haw0 H00) as (j & x & Hj & Hx).
        exists j, x. split_and!; [|done..]. intros ->. congruence.
      * intros [[?|?]|(j & x & Hne & Hj & Hx)]%(some_phase_insert _ _ _ _ _ Hi); [done..|].
        destruct (Hnc0 Hf0) as (_ & _ & Hno). apply Hno. by exists j, x.
    + intros j x. destruct (decide (j = i)) as [->|Hne].
      * rewrite list_lookup_insert_eq by done. intros [= <-]. done.
      * rewrite list_lookup_insert_ne by done. intros Hj Hx.
        destruct (Hkeep j x Hne Hj) as [-> ->]; [by rewrite Hx|]. by apply (Hpark0 j x).
    + intros j x. destruct (decide (j = i)) as [->|Hne].
      * rewrite list_lookup_insert_eq by done. intros [= <-]. done.
      * rewrite list_lookup_insert_ne by done. intros Hj Hx.
        destruct (Hkeep j x Hne Hj) as [-> ->]; [by rewrite Hx|]. by apply (Htake0 j x).
Qed.

(** A broadcast stays due when worker [i] does not send it, does not park and does not
    complete the search. *)
Lemma broadcast_move p i w s' owner' ph' st' :
  broadcast_due p → workers p !! i = Some w →
  (stop_requested_ s' = false → search_complete_ s' = true →
     ph' = Notifying ∨ stop_requested_ (p_shared p) = false ∧
       search_complete_ (p_shared p) = true ∧ ph' ≠ Parked ∧ w_phase w ≠ Notifying) →
  broadcast_due (move p i s' owner' ph' st').
Proof.
  intros Hb Hi Hcond Hstop Hc Hpark. simpl in *. apply (some_phase_insert _ _ _ _ _ Hi). simpl.
  destruct (Hcond Hstop Hc) as [->|(Hs0 & Hc0 & Hne & Hnn)]; [by left|right].
  apply (some_phase_insert _ _ _ _ _ Hi) in Hpark as [?|(j & x & Hne' & Hj & Hx)]; [done|].
  destruct (Hb Hs0 Hc0) as (k & y & Hk & Hy); [by exists j, x|].
  exists k, y. split_and!; [|done..]. intros ->. congruence.
Qed.

(** *** Waking workers *)

(** [ws'] is [ws] with some parked workers woken. *)
Definition woken_from ws ws' : Prop :=
  length ws' = length ws ∧
  ∀ i w, ws !! i = Some w → ws' !! i = Some w ∨ (w_phase w = Parked ∧ ws' !! i = Some (wake w)).

Lemma wake_parked (w : Worker V) : w_phase w = Parked → wake w = MkWorker Woken (w_state w).
Proof. intros Hw. unfold wake, is_parked. by rewrite Hw. Qed.

Lemma wake_other (w : Worker V) : w_phase w ≠ Parked → wake w = w.
Proof. intros Hw. unfold wake, is_parked. by destruct (w_phase w). Qed.

Lemma wake_all_from ws : woken_from ws (wake <$> ws).
Proof.
  split; [apply length_fmap|]. intros i w Hi. rewrite list_lookup_fmap, Hi. simpl.
  destruct (decide (is_parked w = true)) as [Hp|Hp].
  - right. unfold is_parked in Hp. split; [by destruct (w_phase w)|done].
  - left. by rewrite wake_other by (intros Hw; apply Hp; unfold is_parked; by rewrite Hw).
Qed.

Lemma wake_chosen_from chosen ws : woken_from ws (wake_chosen chosen ws).
Proof.
  split; [apply length_imap|]. intros i w Hi. unfold wake_chosen. rewrite list_lookup_imap, Hi. simpl.
  case_decide; [|by left]. destruct (wake_all_from ws) as [_ Hall].
  destruct (Hall i w Hi) as [Hw|[Hw _]]; [|by right].
  rewrite list_lookup_fmap, Hi in Hw. left. by simpl in Hw.
Qed.

Lemma woken_phase ws ws' i w' :
  woken_from ws ws' → ws' !! i = Some w' →
  ∃ w, ws !! i = Some w ∧ (w' = w ∨ (w_phase w = Parked ∧ w_phase w' = Woken)).
Proof.
  intros [Hl Hw] Hi. destruct (lookup_lt_is_Some_2 ws i) as [w Hwi].
  { rewrite <-Hl. by eapply lookup_lt_Some. }
  exists w. split; [done|]. destruct (Hw i w Hwi) as [Hi'|[Hp Hi']]; [left; congruence|right].
  split; [done|]. rewrite wake_parked in Hi' by done. by simplify_eq.
Qed.

Lemma woken_keeps ws ws' i w :
  woken_from ws ws' → ws !! i = Some w → w_phase w ≠ Parked → ws' !! i = Some w.
Proof. intros [_ Hw] Hi Hne. by destruct (Hw i w Hi) as [?|[? _]]. Qed.

Lemma woken_busy ws ws' : woken_from ws ws' → busy_count ws' = busy_count ws.
Proof.
  unfold busy_count. revert ws'. induction ws as [|w ws IH]; intros [|w' ws'] [Hl Hw];
    simpl in *; try done.
  assert (busy (w_phase w') = busy (w_phase w)) as ->.
  { destruct (Hw 0 w eq_refl) as [Hx|[Hp Hx]]; simpl in Hx; injection Hx as ->; [done|].
    by rewrite (wake_parked w Hp), Hp. }
  assert (woken_from ws ws') as Hrest.
  { split; [lia|]. intros i x Hi. by apply (Hw (S i)). }
  specialize (IH ws' Hrest). destruct (busy (w_phase w)); simpl; congruence.
Qed.

Lemma protocol_wake p ws' :
  protocol p → woken_from (workers p) ws' → protocol (MkPool (p_shared p) (lock_owner p) ws').
Proof.
  intros [Hlock Hown Hex Hq] Hw. split; simpl; [| |done|].
  - intros i w' Hi. destruct (woken_phase _ _ _ _ Hw Hi) as (w & Hwi & [->|[Hp Hp']]); [by apply Hlock|].
    rewrite <-(Hlock i w Hwi). by rewrite Hp, Hp'.
  - intros i [w Hwi]%Hown. destruct Hw as [Hl _]. apply lookup_lt_is_Some_2. rewrite Hl.
    by eapply lookup_lt_Some.
  - intros Hs. destruct (Hq Hs) as (Ha & Hc & Hnc & Hpark & Htake).
    rewrite (woken_busy _ _ Hw). split_and!; [done|done| | |].
    + intros Hf. destruct (Hnc Hf) as (Hwork & Haw & Hno). split_and!; [done| |].
      * intros H0. destruct (Haw H0) as (i & w & Hi & Hx). exists i, w. split; [|done].
        eapply woken_keeps; [done|done|]. intros Hp. by rewrite Hp in Hx.
      * intros (i & w' & Hi & Hx). apply Hno.
        destruct (woken_phase _ _ _ _ Hw Hi) as (w & Hwi & [->|[_ Hp']]); [by exists i, w|].
        rewrite Hp' in Hx. by destruct Hx.
    + intros i w' Hi Hx. destruct (woken_phase _ _ _ _ Hw Hi) as (w & Hwi & [->|[_ Hp']]).
      * by apply (Hpark i w).
      * congruence.
    + intros i w' Hi Hx. destruct (woken_phase _ _ _ _ Hw Hi) as (w & Hwi & [->|[_ Hp']]).
      * by apply (Htake i w).
      * congruence.
Qed.

Lemma broadcast_wake p ws' :
  broadcast_due p → woken_from (workers p) ws' →
  broadcast_due (MkPool (p_shared p) (lock_owner p) ws').
Proof.
  intros Hb Hw Hs Hc (i & w' & Hi & Hx). simpl in *.
  destruct (woken_phase _ _ _ _ Hw Hi) as (w & Hwi & [->|[_ Hp']]); [|congruence].
  destruct (Hb Hs Hc) as (j & y & Hj & Hy); [by exists i, w|].
  exists j, y. split; [|done]. eapply woken_keeps; [done|done|]. by rewrite Hy.
Qed.

(** After a broadcast no worker is parked. *)
Lemma broadcast_all s owner ws : broadcast_due (MkPool s owner (wake <$> ws)).
Proof.
  intros _ _ (i & w' & Hi & Hx). exfalso. simpl in Hi. rewrite list_lookup_fmap in Hi.
  destruct (ws !! i) as [w|]; [|done]. injection Hi as <-. unfold wake, is_parked in Hx.
  destruct (w_phase w) eqn:E; simpl in Hx; congruence.
Qed.

End protocol.

(** ** What a worker's operations do to the queue *)

Section evolution.
Context {V O : Type} (config : DporConfig V O) (pc : PoolConfig) (clock : nat → Z) (start : Z).
Implicit Types (v : View V O).

(** From [v0] to [v] the worker may have requested a stop and, holding the mutex, added
    tasks to a search that is not complete. *)
Record evolves v0 v : Prop := {
  ev_stop : stop_requested_ (vw_shared v) = false → stop_requested_ (vw_shared v0) = false;
  ev_active : active_workers_ (vw_shared v) = active_workers_ (vw_shared v0);
  ev_complete : search_complete_ (vw_shared v) = search_complete_ (vw_shared v0);
  ev_exception : first_exception_ (vw_shared v) = first_exception_ (vw_shared v0);
  ev_idle : idle_workers_ (vw_shared v) = idle_workers_ (vw_shared v0);
  ev_locked : vw_locked v0 = true → vw_locked v = true;
  ev_queue : task_queue_ (vw_shared v) = task_queue_ (vw_shared v0) ∨
    vw_locked v = true ∧ search_complete_ (vw_shared v0) = false;
}.

#[export] Instance evolves_refl : Reflexive evolves.
Proof. intros v. split; auto. Qed.

#[export] Instance evolves_trans : Transitive evolves.
Proof.
  intros v1 v2 v3 [] []. split; try congruence; auto.
  destruct ev_queue1 as [->|[? ?]]; [|right; split; congruence].
  destruct ev_queue0 as [->|[? ?]]; [by left|right]. auto.
Qed.

Lemma p_stop_requested_evolves v : evolves v (p_stop_requested pc v).2.
Proof. unfold p_stop_requested. repeat case_decide; split; simpl; auto. Qed.

Lemma flush_evolves v : evolves v (flush_local_counts v).
Proof. split; simpl; auto. Qed.

Lemma increment_evolves v kind d : evolves v (increment_local_terminal_counts config pc v kind d).
Proof.
  unfold increment_local_terminal_counts. destruct (on_progress config); [case_decide|];
    split; simpl; auto.
Qed.

Lemma publish_progress_evolves v st now b v' :
  publish_progress_snapshot config pc start v st now b = Ok v' → evolves v v'.
Proof.
  intros Hrun. apply bind_Ok_inv in Hrun as (o & _ & [= <-]). split; simpl; auto.
Qed.

Lemma maybe_report_evolves v v' :
  p_maybe_report_progress config pc clock start v = Ok v' → evolves v v'.
Proof.
  unfold p_maybe_report_progress. destruct (on_progress config); [|by intros [= <-]].
  case_decide.
  { simpl. intros Hrun%publish_progress_evolves. etransitivity; [|done]. split; simpl; auto. }
  assert (evolves v (poll_progress pc v).2) as Hpoll.
  { unfold poll_progress. repeat case_decide; split; simpl; auto. }
  destruct (poll_progress pc v) as [due v1]. simpl in Hpoll. destruct due; [|by intros [= <-]].
  simpl. case_decide.
  { intros [= <-]. etransitivity; [done|]. split; simpl; auto. }
  intros Hrun%publish_progress_evolves. etransitivity; [done|]. etransitivity; [|done].
  split; simpl; auto.
Qed.

Lemma can_spawn_evolves d v : evolves v (p_can_spawn pc d v).2.
Proof.
  unfold p_can_spawn. case_decide; [done|]. pose proof (p_stop_requested_evolves v) as Hs.
  destruct (p_stop_requested pc v) as [[] v1]; [done|]. by case_decide.
Qed.

Lemma should_split_evolves d v : evolves v (p_should_split_to_idle_worker pc d v).2.
Proof.
  unfold p_should_split_to_idle_worker. case_decide; [done|].
  assert (∀ w, evolves v (view_worker v w)) as Hw by (intros w; split; simpl; auto).
  case_decide.
  - destruct (cached_workers_idle (vw_worker v)); [|apply Hw].
    etransitivity; [apply Hw|apply can_spawn_evolves].
  - destruct (bool_decide (idle_workers_ (vw_shared v) ≠ 0)); [|apply Hw].
    etransitivity; [apply Hw|apply can_spawn_evolves].
Qed.

Lemma try_enqueue_evolves task v : evolves v (p_try_enqueue pc task v).2.
Proof.
  unfold p_try_enqueue. case_decide; [done|]. pose proof (p_stop_requested_evolves v) as Hs.
  destruct (p_stop_requested pc v) as [[] v1]; [done|]. simpl in Hs.
  case_decide as Hc; (etransitivity; [exact Hs|]); split; simpl; auto. right. by destruct Hc as (_ & ? & _).
Qed.

Lemma publish_terminal_evolves g kind d v b v' :
  p_publish_terminal_execution config pc g kind d v = Ok (b, v') → evolves v v'.
Proof.
  unfold p_publish_terminal_execution.
  assert (evolves v (if decide (sync_steps pc = 0) then (stop_requested_ (vw_shared v), v)
                     else p_stop_requested pc v).2) as Hs.
  { case_decide; [done|apply p_stop_requested_evolves]. }
  destruct (if decide (sync_steps pc = 0) then _ else _) as [stop v1]. simpl in Hs.
  destruct stop; [by intros [= _ <-]|]. intros Hrun.
  apply bind_Ok_inv in Hrun as ([a o] & _ & [= _ <-]).
  etransitivity; [done|]. etransitivity; [apply (increment_evolves v1 kind d)|].
  destruct (decide (a = Stop)); split; simpl; auto. done.
Qed.

Lemma evolves_stable v0 :
  Stable (H := parallel_executor config pc clock start) (evolves v0).
Proof.
  split; simpl.
  - intros v Hv. etransitivity; [done|apply p_stop_requested_evolves].
  - intros v v' Hv Hrun. etransitivity; [done|by apply maybe_report_evolves].
  - intros d v Hv. etransitivity; [done|apply can_spawn_evolves].
  - intros d v Hv. etransitivity; [done|apply should_split_evolves].
  - intros v Hv. etransitivity; [done|]. split; simpl; auto.
  - intros v Hv. etransitivity; [done|]. split; simpl; auto.
  - intros t v Hv. etransitivity; [done|apply try_enqueue_evolves].
  - intros g k d v b v' Hv Hrun. etransitivity; [done|by eapply publish_terminal_evolves].
Qed.

End evolution.

(** ** Steps keep the protocol *)

Section steps.
Context {V O : Type} `{EqDecision V} (value_lt : V → V → bool) (config : DporConfig V O)
  (pc : PoolConfig) (clock : nat → Z) (start : Z) (tids : list ThreadId).
Implicit Types (p : Pool V O) (s : Shared V O).

Abbreviation worker_step := (worker_step value_lt config pc clock start tids).
Abbreviation pool_step := (pool_step value_lt config pc clock start tids).

(** The pool is in order. *)
Definition orderly p : Prop := protocol p ∧ broadcast_due p.

Lemma orderly_move p i w s' owner' ph' st' :
  orderly p → workers p !! i = Some w → fair_move p i (w_phase w) s' owner' ph' →
  (stop_requested_ s' = false → search_complete_ s' = true →
     ph' = Notifying ∨ stop_requested_ (p_shared p) = false ∧
       search_complete_ (p_shared p) = true ∧ ph' ≠ Parked ∧ w_phase w ≠ Notifying) →
  orderly (move p i s' owner' ph' st').
Proof.
  intros [Hp Hb] Hi Hm Hcond. split; [by eapply protocol_move|by eapply broadcast_move].
Qed.

Lemma act_orderly p i w chosen v ph' p' :
  orderly p → workers p !! i = Some w → act p i chosen v ph' = Some p' →
  ((vw_locked v = true → lock_owner p = None) →
     fair_move p i (w_phase w) (vw_shared v) (lock_owner p) ph') →
  (vw_notify_all v = false → stop_requested_ (vw_shared v) = false →
     search_complete_ (vw_shared v) = true →
     stop_requested_ (p_shared p) = false ∧ search_complete_ (p_shared p) = true ∧
     ph' ≠ Parked ∧ w_phase w ≠ Notifying) →
  orderly p'.
Proof.
  intros [Hp Hb] Hi Hact Hm Hcond. unfold act in Hact.
  destruct (decide _) as [|Hlock]; [done|].
  assert (vw_locked v = true → lock_owner p = None) as Hfree.
  { intros Hl. destruct (decide (lock_owner p = None)); [done|]. by destruct Hlock. }
  pose proof (protocol_move p i w (vw_shared v) (lock_owner p) ph' (vw_worker v) Hp Hi (Hm Hfree))
    as Hp'.
  destruct (vw_notify_all v) eqn:Hall.
  - injection Hact as <-. split; [by apply (protocol_wake _ _ Hp'), wake_all_from|apply broadcast_all].
  - destruct (valid_choice _ _ _); [|done]. injection Hact as <-.
    split; [by apply (protocol_wake _ _ Hp'), wake_chosen_from|].
    eapply (broadcast_wake (move p i _ _ ph' _)); [|apply wake_chosen_from].
    eapply broadcast_move; [done|done|]. intros Hs Hc. right. by apply Hcond.
Qed.

(** A worker that is counted as active is. *)
Lemma busy_active p i w :
  protocol p → workers p !! i = Some w → busy (w_phase w) = true →
  stop_requested_ (p_shared p) = false →
  0 < active_workers_ (p_shared p) ∧ search_complete_ (p_shared p) = false.
Proof.
  intros Hp Hi Hb Hs. destruct (pr_quiet _ Hp Hs) as (Ha & Hc & _).
  assert (0 < busy_count (workers p)) as Hpos.
  { unfold busy_count. assert (w ∈ List.filter (λ w, busy (w_phase w)) (workers p)) as Hin.
    { apply list_elem_of_In, filter_In. split; [|done].
      by apply list_elem_of_In, list_elem_of_lookup_2 with i. }
    destruct (List.filter _ (workers p)); [set_solver|simpl; lia]. }
  split; [lia|]. destruct (search_complete_ (p_shared p)); [|done].
  destruct (Hc eq_refl). lia.
Qed.

(** A busy worker whose operations evolved its view stays busy. *)
Lemma busy_move p i w v ph' :
  protocol p → workers p !! i = Some w → busy (w_phase w) = true → holds_lock ph' = false →
  busy ph' = true → evolves (view_of (p_shared p) (w_state w)) v →
  (vw_locked v = true → lock_owner p = None) →
  fair_move p i (w_phase w) (vw_shared v) (lock_owner p) ph'.
Proof.
  intros Hp Hi Hb Hl Hb' Hev Hfree.
  assert (lock_owner p ≠ Some i) as Hno.
  { intros Ho. apply (pr_lock _ Hp i w Hi) in Ho. by destruct (w_phase w). }
  destruct Hev as [Hst Hac Hco Hex Hid Hlo Hqu]. simpl in *. split.
  - rewrite Hl. split; [done|]. by intros ?.
  - done.
  - rewrite Hex. intros He. pose proof (pr_exception _ Hp He) as H0.
    destruct (stop_requested_ (vw_shared v)) eqn:E; [done|]. by rewrite Hst in H0.
  - intros Hs. specialize (Hst Hs). destruct (busy_active p i w Hp Hi Hb Hst) as [Hpos Hnc].
    rewrite Hac, Hco, Hb, Hb', Hnc. split_and!; try done; try lia.
    + intros _. split_and!; [by right|lia|done|by destruct ph'|by destruct ph'].
    + intros ->. done.
    + intros ->. done.
    + intros Hne _. destruct Hqu as [->|[Hlk _]]; [done|]. by apply Hfree in Hlk.
Qed.


(** A worker without the lock takes it when it is free. *)
Lemma lock_move p i w ph' :
  orderly p → workers p !! i = Some w → lock_owner p = None → awake (w_phase w) = true →
  ph' = Checking ∨ ph' = Waiting → orderly (move p i (p_shared p) (Some i) ph' (w_state w)).
Proof.
  intros Ho Hi Hfree Haw Hph. pose proof Ho as [Hp _].
  assert (busy (w_phase w) = false ∧ w_phase w ≠ Notifying) as [Hnb Hnn]
    by (by destruct (w_phase w)).
  assert (holds_lock ph' = true ∧ busy ph' = false ∧ awake ph' = true ∧ ph' ≠ Parked ∧
    ph' ≠ Parking ∧ ph' ≠ Taking ∧ ph' ≠ Exited ∧ ph' ≠ Notifying)
    as (Hl & Hb & Ha & H1 & H2 & H3 & H4 & H5) by (by destruct Hph as [-> | ->]).
  eapply orderly_move; [done|done| |].
  - split.
    + done.
    + intros j Hne. rewrite Hfree. split; congruence.
    + apply Hp.
    + intros Hs. destruct (pr_quiet _ Hp Hs) as (_ & Hc & Hnc & _). rewrite Hnb, Hb.
      split_and!; try done.
      intros Hf. destruct (Hnc Hf) as (Hwork & _). split_and!; try done. by left.
  - intros Hs Hc. right. done.
Qed.

(** The lock holder moves on, the queue being as it was. *)
Lemma holder_move p i w s' ph' st' :
  orderly p → workers p !! i = Some w → holds_lock (w_phase w) = true → holds_lock ph' = true →
  stop_requested_ s' = stop_requested_ (p_shared p) →
  active_workers_ s' = active_workers_ (p_shared p) →
  search_complete_ s' = search_complete_ (p_shared p) →
  task_queue_ s' = task_queue_ (p_shared p) →
  first_exception_ s' = first_exception_ (p_shared p) →
  (stop_requested_ (p_shared p) = false → ph' = Parking →
     task_queue_ (p_shared p) = [] ∧ search_complete_ (p_shared p) = false) →
  (stop_requested_ (p_shared p) = false → ph' = Taking →
     search_complete_ (p_shared p) = true ∨ task_queue_ (p_shared p) ≠ []) →
  orderly (move p i s' (lock_owner p) ph' st').
Proof.
  intros Ho Hi Hh Hh' Es Ea Ec Eq Ee Hpark Htake. pose proof Ho as [Hp _].
  pose proof (proj1 (pr_lock _ Hp i w Hi) Hh) as Hown.
  eapply orderly_move; [done|done| |].
  - split.
    + rewrite Hh', Hown. done.
    + done.
    + rewrite Ee, Es. apply Hp.
    + rewrite Es, Ea, Ec, Eq. intros Hs. destruct (pr_quiet _ Hp Hs) as (_ & Hc & Hnc & _).
      assert (busy (w_phase w) = false ∧ busy ph' = false) as [-> ->]
        by (by destruct (w_phase w), ph').
      split_and!; try done; [|auto|auto].
      intros Hf. destruct (Hnc Hf) as (Hwork & _). split_and!; [done| |done|by destruct ph'..].
      intros H0. destruct ph'; try done; [by left..| |by left].
      destruct (Hpark Hs eq_refl) as [Hq _]. destruct Hwork; [done|lia].
  - rewrite Es, Ec. intros Hs Hc. right. split_and!; [done|done|by destruct ph'|by destruct (w_phase w)].
Qed.

Lemma ready_spec s :
  ready s = true ↔ stop_requested_ s = true ∨ search_complete_ s = true ∨ task_queue_ s ≠ [].
Proof.
  unfold ready. rewrite !orb_true_iff, negb_true_iff, bool_decide_eq_false, length_zero_iff_nil.
  tauto.
Qed.


(** A worker parks: another one is active. *)
Lemma park_move p i w st' :
  orderly p → workers p !! i = Some w → w_phase w = Parking →
  orderly (move p i (p_shared p) None Parked st').
Proof.
  intros Ho Hi Hw. pose proof Ho as [Hp _].
  pose proof (proj1 (pr_lock _ Hp i w Hi)) as Hown. rewrite Hw in Hown. specialize (Hown eq_refl).
  eapply orderly_move; [done|done| |].
  - split; [done| |apply Hp|].
    + intros j Hne. rewrite Hown. split; congruence.
    + intros Hs. destruct (pr_quiet _ Hp Hs) as (_ & Hc & Hnc & Hpark & _).
      destruct (Hpark i w Hi Hw) as [Hq Hf]. destruct (Hnc Hf) as (Hwork & _).
      rewrite Hw. split_and!; try done.
      intros _. split_and!; try done. intros H0. destruct Hwork; [done|lia].
  - intros Hs Hc. destruct (pr_quiet _ Hp Hs) as (_ & _ & _ & Hpark & _).
    destruct (Hpark i w Hi Hw) as [_ Hf]. congruence.
Qed.

(** A worker past its wait leaves the loop or takes a task. *)
Lemma take_move p i st p' :
  orderly p → workers p !! i = Some (MkWorker Taking st) →
  (if stop_requested_ (p_shared p) || search_complete_ (p_shared p) then
     Some (move p i (vw_shared (flush_worker_state (view_of (p_shared p) st))) None Exited
             (vw_worker (flush_worker_state (view_of (p_shared p) st))))
   else match task_queue_ (p_shared p) with
        | [] => None
        | task :: q => Some (move p i (set_queue (p_shared p) q (S (active_workers_ (p_shared p)))
                                         (search_complete_ (p_shared p))) None (Starting task) st)
        end) = Some p' → orderly p'.
Proof.
  intros Ho Hi Hstep. pose proof Ho as [Hp _].
  pose proof (proj1 (pr_lock _ Hp i _ Hi) eq_refl) as Hown.
  assert (∀ j, j ≠ i → None = Some j ↔ lock_owner p = Some j) as Hothers
    by (intros j Hne; rewrite Hown; split; congruence).
  destruct (stop_requested_ (p_shared p) || search_complete_ (p_shared p)) eqn:Hend.
  - injection Hstep as <-. eapply orderly_move; [done|done| |].
    + split; simpl; [done|done|apply Hp|]. intros Hs. rewrite Hs in Hend. simpl in Hend.
      destruct (pr_quiet _ Hp Hs) as (_ & Hc & _). split_and!; try done. by rewrite Hend.
    + simpl. intros Hs Hc. by right.
  - apply orb_false_iff in Hend as [Hs Hc].
    destruct (task_queue_ (p_shared p)) as [|task q] eqn:Hq; [done|]. injection Hstep as <-.
    eapply orderly_move; [done|done| |].
    + split; simpl; [done|done|apply Hp|]. intros _. rewrite Hc.
      split_and!; try done; try lia. intros _. split_and!; try done; lia.
    + simpl. congruence.
Qed.

(** A worker that has finished a task completes the search or goes back to the queue. *)
Lemma finish_move p i st p' :
  orderly p → workers p !! i = Some (MkWorker Finishing st) →
  (if lock_owner p then None
   else
     if decide (stop_requested_ (p_shared p) = false ∧ task_queue_ (p_shared p) = [] ∧
                active_workers_ (p_shared p) - 1 = 0)
     then Some (move p i (set_queue (p_shared p) (task_queue_ (p_shared p))
                            (active_workers_ (p_shared p) - 1) true) None Notifying st)
     else Some (move p i (set_queue (p_shared p) (task_queue_ (p_shared p))
                            (active_workers_ (p_shared p) - 1) (search_complete_ (p_shared p)))
                  None AtLock st)) = Some p' → orderly p'.
Proof.
  intros Ho Hi Hstep. pose proof Ho as [Hp _]. destruct (lock_owner p) eqn:Hfree; [done|].
  assert (∀ j, j ≠ i → None = Some j ↔ lock_owner p = Some j) as Hothers
    by (intros j Hne; by rewrite Hfree).
  destruct (decide _) as [(Hs & Hq & Ha)|Hgo]; injection Hstep as <-.
  - destruct (busy_active p i _ Hp Hi eq_refl Hs) as [Hpos Hnc].
    eapply orderly_move; [done|done| |by left].
    split; simpl; [done|done|apply Hp|]. intros _. split_and!; try done. lia.
  - eapply orderly_move; [done|done| |].
    + split; simpl; [done|done|apply Hp|]. intros Hs.
      destruct (busy_active p i _ Hp Hi eq_refl Hs) as [Hpos Hnc]. rewrite Hnc.
      split_and!; try done; [lia|]. intros _. split_and!; try done; [|by left].
      destruct (task_queue_ (p_shared p)) eqn:Hq; [right|by left].
      destruct (decide (active_workers_ (p_shared p) - 1 = 0)); [by destruct Hgo|lia].
    + simpl. intros Hs Hc. by destruct (busy_active p i _ Hp Hi eq_refl Hs) as [_ ?]; congruence.
Qed.

(** A busy worker acts on its view and stays busy. *)
Lemma busy_act p i w chosen v ph' p' :
  orderly p → workers p !! i = Some w → busy (w_phase w) = true → holds_lock ph' = false →
  busy ph' = true → evolves (view_of (p_shared p) (w_state w)) v →
  act p i chosen v ph' = Some p' → orderly p'.
Proof.
  intros Ho Hi Hb Hl Hb' Hev Hact. pose proof Ho as [Hp _].
  eapply act_orderly; [done|done|done| |].
  - intros Hfree. by eapply busy_move.
  - intros _ Hs Hc. exfalso. rewrite (ev_complete _ _ Hev) in Hc.
    destruct (busy_active p i w Hp Hi Hb (ev_stop _ _ Hev Hs)) as [_ ?]. simpl in Hc. congruence.
Qed.

Lemma worker_step_orderly p i chosen p' :
  orderly p → worker_step p i chosen = Some p' → orderly p'.
Proof.
  intros Ho Hstep. pose proof Ho as [Hp Hb]. unfold Parallel.worker_step in Hstep.
  destruct (workers p !! i) as [w|] eqn:Hi; [|done].
  pose proof (pr_lock _ Hp i w Hi) as Hlk. destruct w as [ph st]. simpl in *.
  destruct ph as [ | | | | | | |task|g cs|e| | | ]; try done.
  - (* AtLock *) destruct (lock_owner p) eqn:Hfree; [done|]. injection Hstep as <-.
    eapply (lock_move p i (MkWorker AtLock st)); auto.
  - (* Checking *) injection Hstep as <-.
    destruct (ready (p_shared p)) eqn:Hr; (eapply (holder_move p i (MkWorker Checking st)); try done).
    intros Hs _. apply ready_spec in Hr as [?|?]; [congruence|done].
  - (* Waiting *) injection Hstep as <-.
    destruct (ready (p_shared p)) eqn:Hr; (eapply (holder_move p i (MkWorker Waiting st)); try done).
    + intros Hs _. apply ready_spec in Hr as [?|?]; [congruence|done].
    + intros Hs _. apply not_true_iff_false in Hr. rewrite ready_spec in Hr.
      destruct (task_queue_ (p_shared p)) as [|t q], (search_complete_ (p_shared p));
        [tauto|done| |]; destruct Hr; auto.
  - (* Parking *) injection Hstep as <-. by apply (park_move p i (MkWorker Parking st)).
  - (* Woken *) destruct (lock_owner p) eqn:Hfree; [done|]. injection Hstep as <-.
    eapply (lock_move p i (MkWorker Woken st)); auto.
  - (* Taking *) by eapply (take_move p i st).
  - (* Starting *) pose proof (p_stop_requested_evolves pc (view_of (p_shared p) st)) as Hev.
    destruct (p_stop_requested pc _) as [stop v].
    eapply (busy_act p i (MkWorker (Starting task) st)); [done|done|done| | |done|done];
      by destruct stop.
  - (* Working *)
    destruct (run_step _ _ _ _) as [r|e] eqn:Hrun.
    + pose proof (run_step_stable (H := parallel_executor config pc clock start) value_lt config tids _
        (evolves_stable config pc clock start (view_of (p_shared p) st))
        (MkExplorer (view_of (p_shared p) st) g cs) r (evolves_refl _) Hrun) as Hev.
      destruct r as [m|m];
        (eapply (busy_act p i (MkWorker (Working g cs) st)); [done|done|done| | |exact Hev|exact Hstep];
         done).
    + injection Hstep as <-. eapply (orderly_move p i (MkWorker (Working g cs) st)); [done|done| |].
      * by apply (busy_move p i (MkWorker (Working g cs) st) (view_of (p_shared p) st)).
      * intros Hs Hc. by destruct (busy_active p i _ Hp Hi eq_refl Hs) as [_ ?]; congruence.
  - (* Failed *) eapply (act_orderly p i (MkWorker (Failed e) st)); [done|done|done| |done].
    intros _. split; simpl; [|done|done|done].
    split; [done|]. by intros ?%Hlk.
  - (* Finishing *) by eapply (finish_move p i st).
  - (* Notifying *) eapply (act_orderly p i (MkWorker Notifying st)); [done|done|done| |done].
    intros _. split; simpl; [|done|apply Hp|].
    + split; [done|]. by intros ?%Hlk.
    + intros Hs. destruct (pr_quiet _ Hp Hs) as (_ & Hc & Hnc & _). split_and!; try done.
      intros Hf. destruct (Hnc Hf) as (Hwork & _). split_and!; try done. by left.
Qed.

Lemma spurious_wake_orderly p i p' : orderly p → spurious_wake p i = Some p' → orderly p'.
Proof.
  intros [Hp Hb] Hstep. unfold spurious_wake in Hstep. destruct (workers p !! i) as [w|] eqn:Hi; [|done].
  destruct (is_parked w) eqn:Hpk; [|done]. injection Hstep as <-.
  assert (woken_from (workers p) (<[i := MkWorker Woken (w_state w)]> (workers p))) as Hw.
  { split; [apply length_insert|]. intros j x Hj. destruct (decide (j = i)) as [->|Hne].
    - right. assert (x = w) as -> by congruence.
      assert (w_phase w = Parked) as Hx by (unfold is_parked in Hpk; by destruct (w_phase w)).
      split; [done|]. rewrite (wake_parked w Hx). apply list_lookup_insert_eq. by eapply lookup_lt_Some.
    - left. by rewrite list_lookup_insert_ne. }
  split; [by apply (protocol_wake p)|by apply (broadcast_wake p)].
Qed.

Lemma pool_step_orderly p p' : orderly p → pool_step p p' → orderly p'.
Proof.
  intros Ho [i chosen Hs|i Hs]; [by eapply worker_step_orderly|by eapply spurious_wake_orderly].
Qed.

Lemma initial_orderly o : 1 ≤ pc_max_workers pc → orderly (initial_pool config pc start o).
Proof.
  intros Hn. assert (∀ i w, workers (initial_pool config pc start o) !! i = Some w → w_phase w = AtLock)
    as Hall by (intros i w [-> _]%lookup_replicate; done).
  split; [split; simpl|].
  - intros i w Hi. rewrite (Hall i w Hi). by split.
  - done.
  - by intros [? ?].
  - intros _. split_and!; try done.
    + unfold busy_count. generalize (pc_max_workers pc). intros n. by induction n.
    + intros _. split_and!; [by left| |].
      * intros _. exists 0, (MkWorker AtLock new_worker). split; [|done]. by apply lookup_replicate_2.
      * intros (i & w & Hi & [?|?]); rewrite (Hall i w Hi) in *; done.
    + intros i w Hi. by rewrite (Hall i w Hi).
    + intros i w Hi. by rewrite (Hall i w Hi).
  - intros _ Hc. done.
Qed.

Lemma reachable_orderly p p' : orderly p → rtc pool_step p p' → orderly p'.
Proof. intros Ho Hr. induction Hr; [done|]. eauto using pool_step_orderly. Qed.

(** ** Progress *)

Lemma valid_choice_exists n (ws : list (Worker V)) : ∃ chosen, valid_choice n chosen ws = true.
Proof.
  assert (∃ l, NoDup l ∧ (∀ i, i ∈ l → ∃ w, ws !! i = Some w ∧ is_parked w = true) ∧
    length l = length (List.filter is_parked ws)) as (l & Hnd & Hl & Hlen).
  { induction ws as [|w ws (l & Hnd & Hl & Hlen)].
    { exists []. split_and!; [apply NoDup_nil_2|set_solver|done]. }
    assert (∀ i, i ∈ S <$> l → ∃ x, (w :: ws) !! i = Some x ∧ is_parked x = true) as Hl'
      by (intros i (j & -> & Hj)%list_elem_of_fmap; by apply Hl).
    assert (NoDup (S <$> l)) as Hnd' by (apply NoDup_fmap_2; [intros ?? [=]|]; done).
    simpl. destruct (is_parked w) eqn:Hw.
    - exists (0 :: (S <$> l)). split_and!.
      + apply NoDup_cons. split; [|done]. by intros (j & ? & _)%list_elem_of_fmap.
      + intros i [->|Hi]%elem_of_cons; [by exists w|auto].
      + simpl. rewrite length_fmap. lia.
    - exists (S <$> l). rewrite length_fmap. done. }
  exists (take n l). unfold valid_choice. rewrite !andb_true_iff, forallb_forall, !bool_decide_eq_true.
  split_and!.
  - rewrite <-(take_drop n l) in Hnd. by apply NoDup_app in Hnd as [? _].
  - intros i Hi%list_elem_of_In. destruct (Hl i) as (w & -> & ?); [|done].
    rewrite <-(take_drop n l). apply elem_of_app. by left.
  - rewrite length_take. lia.
Qed.

Lemma act_enabled p i v ph' : lock_owner p = None → ∃ chosen p', act p i chosen v ph' = Some p'.
Proof.
  intros Hfree.
  destruct (valid_choice_exists (vw_notify_one v)
    (workers (move p i (vw_shared v) (lock_owner p) ph' (vw_worker v)))) as [chosen Hc].
  exists chosen. unfold act. rewrite decide_False by tauto. rewrite Hc.
  destruct (vw_notify_all v); by eexists.
Qed.

(** The holder of the lock can move, unless it has been given nothing to do. *)
Lemma holder_enabled p i :
  protocol p → lock_owner p = Some i → ∃ p', worker_step p i [] = Some p'.
Proof.
  intros Hp Ho. destruct (pr_owner _ Hp i Ho) as [w Hi].
  pose proof (proj2 (pr_lock _ Hp i w Hi) Ho) as Hh.
  unfold Parallel.worker_step. rewrite Hi. destruct (w_phase w) eqn:Hw; try done; [by eexists..|].
  destruct (stop_requested_ (p_shared p)) eqn:Hs; [by eexists|].
  destruct (search_complete_ (p_shared p)) eqn:Hc; [by eexists|]. simpl.
  destruct (pr_quiet _ Hp Hs) as (_ & _ & _ & _ & Htake).
  destruct (Htake i w Hi Hw) as [?|Hq]; [congruence|].
  destruct (task_queue_ (p_shared p)); [done|by eexists].
Qed.

(** The others can move when the lock is free, unless they are parked or have left. *)
Lemma free_enabled p i w :
  lock_owner p = None → workers p !! i = Some w → holds_lock (w_phase w) = false →
  w_phase w ≠ Parked → w_phase w ≠ Exited → ∃ chosen p', worker_step p i chosen = Some p'.
Proof.
  intros Hfree Hi Hh Hnp Hne. unfold Parallel.worker_step. rewrite Hi.
  destruct (w_phase w) as [ | | | | | | |task|g cs|e| | | ] eqn:Hw; try done.
  - rewrite Hfree. by exists []; eexists.
  - rewrite Hfree. by exists []; eexists.
  - destruct (p_stop_requested pc _) as [stop v]. by apply act_enabled.
  - destruct (run_step _ _ _ _) as [[m|m]|e]; [by apply act_enabled..|]. by exists []; eexists.
  - by apply act_enabled.
  - rewrite Hfree. case_decide; by exists []; eexists.
  - by apply act_enabled.
Qed.

(** A pool that cannot move has no worker left but parked ones; without a request to stop
    it has none at all, and the search is complete. *)
Lemma stuck_pool p :
  orderly p → (∀ i chosen, worker_step p i chosen = None) →
  (∀ i w, workers p !! i = Some w → w_phase w = Exited ∨ w_phase w = Parked) ∧
  (stop_requested_ (p_shared p) = false →
     (∀ i w, workers p !! i = Some w → w_phase w = Exited) ∧ 
     search_complete_ (p_shared p) = true ∧ task_queue_ (p_shared p) = [] ∧
     active_workers_ (p_shared p) = 0 ∧ first_exception_ (p_shared p) = None).
Proof.
  intros [Hp Hb] Hstuck.
  assert (lock_owner p = None) as Hfree.
  { destruct (lock_owner p) as [i|] eqn:Ho; [|done].
    destruct (holder_enabled p i Hp Ho) as [p' Hp']. by rewrite Hstuck in Hp'. }
  assert (∀ i w, workers p !! i = Some w → w_phase w = Exited ∨ w_phase w = Parked) as Hall.
  { intros i w Hi. assert (holds_lock (w_phase w) = false) as Hh.
    { apply not_true_iff_false. intros Hh%(pr_lock _ Hp i w Hi). congruence. }
    destruct (w_phase w) eqn:Hw; auto; exfalso;
      (destruct (free_enabled p i w Hfree Hi) as (ch & p' & Hp'); [by rewrite Hw..|]);
      by rewrite Hstuck in Hp'. }
  split; [done|]. intros Hs. destruct (pr_quiet _ Hp Hs) as (_ & Hc & Hnc & _).
  assert (active_workers_ (p_shared p) = 0 ∧ search_complete_ (p_shared p) = true) as [Ha Hcomp].
  { assert (active_workers_ (p_shared p) = 0) as Ha.
    { destruct (pr_quiet _ Hp Hs) as (-> & _). unfold busy_count.
      destruct (List.filter _ (workers p)) as [|w l] eqn:Hf; [done|].
      assert (In w (List.filter (λ w, busy (w_phase w)) (workers p))) as Hin by (rewrite Hf; by left).
      apply filter_In in Hin as [Hin Hbusy]. apply list_elem_of_In, list_elem_of_lookup in Hin as [i Hi].
      by destruct (Hall i w Hi) as [Hw|Hw]; rewrite Hw in Hbusy. }
    split; [done|]. destruct (search_complete_ (p_shared p)); [done|].
    destruct (Hnc eq_refl) as (_ & Haw & _). destruct (Haw Ha) as (i & w & Hi & Hx).
    by destruct (Hall i w Hi) as [Hw|Hw]; rewrite Hw in Hx. }
  destruct (Hc Hcomp) as [Hq _]. split_and!; [|done..|].
  - intros i w Hi. destruct (Hall i w Hi) as [?|Hpk]; [done|].
    destruct (Hb Hs Hcomp) as (j & x & Hj & Hx); [by exists i, w|].
    by destruct (Hall j x Hj) as [Hw|Hw]; rewrite Hw in Hx.
  - destruct (first_exception_ (p_shared p)) eqn:He; [|done].
    pose proof (pr_exception _ Hp) as Hex. rewrite He in Hex. rewrite Hex in Hs; [done|by eexists].
Qed.

End steps.

Lemma resolve_options_workers options hc : 1 ≤ pc_max_workers (resolve_options options hc).
Proof. unfold resolve_options, resolve_max_workers. simpl. repeat case_decide; lia. Qed.
