(* ===== verification/PoolRule.v ===== *)
(** * PoolRule: what a run of [verify_parallel] keeps

    The pool's account of an exploration is the sum of the shared counters and of the
    counters that workers have not flushed yet.  Together with the state of the observers
    and the stop flag it changes in two ways only: a worker publishes a terminal
    execution, or progress is reported.  [verify_parallel_rule] turns that into an
    induction principle for properties of what [verify_parallel] returns, whatever the
    interleaving of the workers. *)

From stdpp Require Import base tactics numbers relations sets list strings.
From S2P Require Import Prelude Errors Event Relation ExecutionGraph ExplorationGraph Porf.
From S2P Require Import Consistency Program Masked Dpor Revisit Explorer Parallel.
From S2P Require Import ExplorationFacts.
From S2P Require Import SoundFacts NextEvent Conformance EngineFacts PoolFacts.

(** ** Sums of counters *)

#[export] Instance add_counts_comm : Comm (=) add_counts.
Proof. intros [] []. unfold add_counts. simpl. f_equal; lia. Qed.

#[export] Instance add_counts_assoc : Assoc (=) add_counts.
Proof. intros [] [] []. unfold add_counts. simpl. f_equal; lia. Qed.

#[export] Instance no_counts_left_id : LeftId (=) no_counts add_counts.
Proof. by intros []. Qed.

#[export] Instance no_counts_right_id : RightId (=) no_counts add_counts.
Proof. intros c. by rewrite (comm_L add_counts), (left_id_L no_counts add_counts). Qed.

Lemma count_one_add a b kind d :
  add_counts a (count_one b kind d) = count_one (add_counts a b) kind d.
Proof.
  destruct a, b. unfold add_counts, count_one. simpl. f_equal; repeat case_decide; lia.
Qed.

(** The counts that workers have not flushed. *)
Definition total_local {V} (ws : list (Worker V)) : Counts :=
  foldr (λ w, add_counts (local_counts (w_state w))) no_counts ws.

Lemma total_local_split {V} (ws : list (Worker V)) i w :
  ws !! i = Some w →
  ∃ rest, total_local ws = add_counts rest (local_counts (w_state w)) ∧
    ∀ w', total_local (<[i := w']> ws) = add_counts rest (local_counts (w_state w')).
Proof.
  revert i. induction ws as [|w0 ws IH]; intros [|i] Hi; simpl in Hi; try done.
  - injection Hi as ->. exists (total_local ws). unfold total_local. simpl.
    split; [|intros w']; apply (comm_L add_counts).
  - destruct (IH i Hi) as (rest & Hw & Hw').
    exists (add_counts (local_counts (w_state w0)) rest). unfold total_local in *. simpl.
    split; [|intros w']; rewrite ?Hw, ?Hw'; apply (assoc_L add_counts).
Qed.

Lemma total_local_woken {V} (ws ws' : list (Worker V)) :
  woken_from ws ws' → total_local ws' = total_local ws.
Proof.
  revert ws'. induction ws as [|w ws IH]; intros [|w' ws'] [Hl Hw]; simpl in Hl; try done.
  assert (w_state w' = w_state w) as Hst.
  { destruct (Hw 0 w eq_refl) as [[= ->]|[Hp [= ->]]]; [done|]. by rewrite (wake_parked w Hp). }
  assert (woken_from ws ws') as Hrest by (split; [lia|]; intros i x Hi; by apply (Hw (S i))).
  specialize (IH ws' Hrest). unfold total_local in *. simpl. by rewrite Hst, IH.
Qed.

Lemma total_local_none {V} (ws : list (Worker V)) :
  (∀ i w, ws !! i = Some w → local_counts (w_state w) = no_counts) → total_local ws = no_counts.
Proof.
  induction ws as [|w ws IH]; intros Hall; [done|]. unfold total_local in *. simpl.
  rewrite IH by (intros i x Hi; by apply (Hall (S i))).
  by rewrite (Hall 0 w eq_refl), (left_id_L no_counts add_counts).
Qed.

Section rule.
Context {V O : Type} `{EqDecision V} (value_lt : V → V → bool) (config : DporConfig V O)
  (pc : PoolConfig) (clock : nat → Z) (start : Z) (tids : list ThreadId).
Implicit Types (v : View V O) (p : Pool V O) (s : Shared V O).

(** The property of the observers, the account and the stop flag. *)
Context (J : O → Counts → bool → Prop).
Hypothesis Hprogress : ∀ o c b snapshot o',
  J o c b → notify_progress config o snapshot = Ok o' → J o' c b.
Hypothesis Hpublish : ∀ o c b g kind depth a o',
  J o c b → published config tids g kind depth → follows_graph (program config) g →
  notify_terminal_execution config o g kind = Ok (a, o') →
  J o' (count_one c kind depth) (bool_decide (a = Stop) || b).
Hypothesis Htotal : total_program (program config).

(** A task the engine may be given. *)
Definition task_ok (t : ExplorationTask V) : Prop :=
  Good (max_thread_events config) (task_graph _ t) ∧
  (task_mode _ t = Visit → Sound (max_thread_events config) (communication_model config) (task_graph _ t)) ∧
  (consistent_graph (communication_model config) (task_graph _ t) →
     follows_graph (program config) (task_graph _ t)).

(** What a worker's view accounts for. *)
Definition view_counts v : Counts :=
  add_counts (sh_counts (vw_shared v)) (local_counts (vw_worker v)).

(** [rest] is what the other workers have not flushed.  After an exception nothing is
    claimed: [run] reports no counts then. *)
Record view_ok (rest : Counts) v : Prop := {
  vo_queue : Forall task_ok (task_queue_ (vw_shared v));
  vo_account : first_exception_ (vw_shared v) = None →
    J (sh_observers (vw_shared v)) (add_counts rest (view_counts v)) (stop_requested_ (vw_shared v));
}.

(** ** The executor *)

(** [v'] differs from [v] in cadence counters, the clock and the like. *)
Record same_account v v' : Prop := {
  sa_queue : task_queue_ (vw_shared v') = task_queue_ (vw_shared v);
  sa_exception : first_exception_ (vw_shared v') = first_exception_ (vw_shared v);
  sa_observers : sh_observers (vw_shared v') = sh_observers (vw_shared v);
  sa_stop : stop_requested_ (vw_shared v') = stop_requested_ (vw_shared v);
  sa_counts : view_counts v' = view_counts v;
}.

#[local] Instance same_account_refl : Reflexive same_account.
Proof. by intros v. Qed.

#[local] Instance same_account_trans : Transitive same_account.
Proof. intros v1 v2 v3 [] []. split; congruence. Qed.

Lemma view_ok_same rest v v' : view_ok rest v → same_account v v' → view_ok rest v'.
Proof.
  intros [Hq Ha] [Eq Ee Eo Es Ec]. split; [by rewrite Eq|]. rewrite Ee, Eo, Es, Ec. done.
Qed.

Lemma stop_requested_same v : same_account v (p_stop_requested pc v).2.
Proof. unfold p_stop_requested. repeat case_decide; by split. Qed.

Lemma flush_same v : same_account v (flush_local_counts v).
Proof.
  split; try done. unfold view_counts. simpl. by rewrite (right_id_L no_counts add_counts).
Qed.

Lemma can_spawn_same d v : same_account v (p_can_spawn pc d v).2.
Proof.
  unfold p_can_spawn. case_decide; [done|]. pose proof (stop_requested_same v) as Hs.
  destruct (p_stop_requested pc v) as [[] v1]; [done|]. by case_decide.
Qed.

Lemma should_split_same d v : same_account v (p_should_split_to_idle_worker pc d v).2.
Proof.
  unfold p_should_split_to_idle_worker. case_decide; [done|].
  assert (∀ a b c e f, same_account v (view_worker v (set_polls (vw_worker v) a b c e f))) as Hw
    by (by split).
  case_decide.
  - destruct (cached_workers_idle (vw_worker v)); [|apply Hw].
    etransitivity; [apply Hw|apply can_spawn_same].
  - destruct (bool_decide (idle_workers_ (vw_shared v) ≠ 0)); [|apply Hw].
    etransitivity; [apply Hw|apply can_spawn_same].
Qed.

Lemma publish_progress_ok rest v st now b v' :
  view_ok rest v → publish_progress_snapshot config pc start v st now b = Ok v' → view_ok rest v'.
Proof.
  intros Hv Hrun. apply bind_Ok_inv in Hrun as (o & Hn & [= <-]).
  destruct (view_ok_same rest v _ Hv (flush_same v)) as [Hq Ha]. split; [done|].
  intros He. by eapply Hprogress; [apply Ha|].
Qed.

Lemma maybe_report_ok rest v v' :
  view_ok rest v → p_maybe_report_progress config pc clock start v = Ok v' → view_ok rest v'.
Proof.
  intros Hv. unfold p_maybe_report_progress. destruct (on_progress config); [|by intros [= <-]].
  assert (∀ v1 n, same_account v1 (view_shared v1 (set_user (vw_shared v1) (sh_observers (vw_shared v1))
    n (next_progress_report_tick_ (vw_shared v1))))) as Hclock by (by split).
  case_decide; simpl.
  { apply publish_progress_ok. by eapply view_ok_same. }
  assert (same_account v (poll_progress pc v).2) as Hpoll
    by (unfold poll_progress; repeat case_decide; by split).
  destruct (poll_progress pc v) as [due v1]. simpl in Hpoll.
  pose proof (view_ok_same rest v v1 Hv Hpoll) as Hv1. destruct due; [|by intros [= <-]]. simpl.
  case_decide; [intros [= <-]; by eapply view_ok_same|].
  apply publish_progress_ok. eapply view_ok_same; [exact Hv1|]. by split.
Qed.

Lemma increment_counts v kind d :
  let v' := increment_local_terminal_counts config pc v kind d in
  task_queue_ (vw_shared v') = task_queue_ (vw_shared v) ∧
  first_exception_ (vw_shared v') = first_exception_ (vw_shared v) ∧
  sh_observers (vw_shared v') = sh_observers (vw_shared v) ∧
  stop_requested_ (vw_shared v') = stop_requested_ (vw_shared v) ∧
  view_counts v' = count_one (view_counts v) kind d.
Proof.
  simpl. unfold increment_local_terminal_counts, view_counts. rewrite <-count_one_add.
  destruct (on_progress config); [case_decide|]; split_and!; try done. simpl.
  by rewrite (right_id_L no_counts add_counts).
Qed.

Lemma publish_terminal_ok rest v g kind d b v' :
  view_ok rest v → published config tids g kind d → follows_graph (program config) g →
  p_publish_terminal_execution config pc g kind d v = Ok (b, v') → view_ok rest v'.
Proof.
  intros Hv Hp Hf. unfold p_publish_terminal_execution.
  assert (same_account v (if decide (sync_steps pc = 0) then (stop_requested_ (vw_shared v), v)
                          else p_stop_requested pc v).2) as Hs
    by (case_decide; [done|apply stop_requested_same]).
  destruct (if decide (sync_steps pc = 0) then _ else _) as [stop v1]. simpl in Hs.
  pose proof (view_ok_same rest v v1 Hv Hs) as [Hq Ha].
  destruct stop; [by intros [= _ <-]|]. intros Hrun.
  apply bind_Ok_inv in Hrun as ([a o] & Hn & [= _ <-]).
  destruct (increment_counts v1 kind d) as (Eq & Ee & Eo & Es & Ec).
  set (v2 := increment_local_terminal_counts config pc v1 kind d) in *.
  assert (first_exception_ (vw_shared v2) = None →
    J o (add_counts rest (view_counts v2)) (bool_decide (a = Stop) || stop_requested_ (vw_shared v2)))
    as HJ.
  { rewrite Ee, Es, Ec, count_one_add. intros He. eapply Hpublish; [by apply Ha|done|done|]. by rewrite <-Eo. }
  destruct (decide (a = Stop)) as [->|Hne]; split; simpl; rewrite ?Eq; try done.
  by rewrite bool_decide_eq_false_2 in HJ.
Qed.

Lemma try_enqueue_ok rest task v :
  view_ok rest v → task_ok task → view_ok rest (p_try_enqueue pc task v).2.
Proof.
  intros Hv Ht. unfold p_try_enqueue. case_decide; [done|].
  pose proof (view_ok_same rest v _ Hv (stop_requested_same v)) as Hv1.
  destruct (p_stop_requested pc v) as [[] v1]; [done|]. simpl in Hv1. destruct Hv1 as [Hq Ha].
  case_decide; simpl; split; simpl; try done. apply Forall_app. by split; [|constructor].
Qed.

Lemma parallel_preserves rest :
  Preserves (H := parallel_executor config pc clock start) config tids (follows_graph (program config)) (view_ok rest).
Proof.
  split; simpl.
  - intros v Hv. eapply view_ok_same; [done|apply stop_requested_same].
  - intros v v'. apply maybe_report_ok.
  - intros d v Hv. eapply view_ok_same; [done|apply can_spawn_same].
  - intros d v Hv. eapply view_ok_same; [done|apply should_split_same].
  - intros v Hv. by eapply view_ok_same.
  - intros v Hv. by eapply view_ok_same.
  - intros t v Hv Hg Hs Hf. by apply try_enqueue_ok.
  - intros g kind d v b v' Hv _ Hp Hf Hrun. by eapply publish_terminal_ok.
Qed.

(** ** The pool *)

Abbreviation worker_step := (worker_step value_lt config pc clock start tids).
Abbreviation pool_step := (pool_step value_lt config pc clock start tids).

(** What a worker's phase promises: it runs the engine on graphs the engine accepts, and
    has flushed its counters when it has left. *)
Definition worker_ok (w : Worker V) : Prop :=
  match w_phase w with
  | Starting task => task_ok task
  | Working g cs => ∃ root, contexts_ok config tids (follows_graph (program config)) root g cs
  | Exited => local_counts (w_state w) = no_counts
  | _ => True
  end.

Record pool_ok p : Prop := {
  po_queue : Forall task_ok (task_queue_ (p_shared p));
  po_account : first_exception_ (p_shared p) = None →
    J (sh_observers (p_shared p)) (add_counts (sh_counts (p_shared p)) (total_local (workers p)))
      (stop_requested_ (p_shared p));
  po_workers : ∀ i w, workers p !! i = Some w → worker_ok w;
}.

(** The pool as worker [i] sees it, and as it leaves it. *)
Lemma pool_view p i w :
  pool_ok p → workers p !! i = Some w →
  ∃ rest, view_ok rest (view_of (p_shared p) (w_state w)) ∧
    ∀ v owner ph, view_ok rest v → worker_ok (MkWorker ph (vw_worker v)) →
      pool_ok (move p i (vw_shared v) owner ph (vw_worker v)).
Proof.
  intros [Hq Ha Hw] Hi. destruct (total_local_split _ _ _ Hi) as (rest & Hsum & Hsum').
  assert (∀ v, add_counts rest (view_counts v) =
    add_counts (sh_counts (vw_shared v)) (add_counts rest (local_counts (vw_worker v)))) as Hswap.
  { intros v. unfold view_counts. rewrite !(assoc_L add_counts). f_equal. apply (comm_L add_counts). }
  exists rest. split.
  - split; [done|]. intros He. rewrite Hswap. simpl. rewrite <-Hsum. by apply Ha.
  - intros v owner ph [Hq' Ha'] Hph. split; simpl; [done| |].
    + rewrite Hsum'. simpl. rewrite <-Hswap. exact Ha'.
    + intros j x. destruct (decide (j = i)) as [->|Hne].
      * rewrite list_lookup_insert_eq by (by eapply lookup_lt_Some). by intros [= <-].
      * rewrite list_lookup_insert_ne by done. apply Hw.
Qed.

Lemma pool_ok_wake p ws' :
  pool_ok p → woken_from (workers p) ws' → pool_ok (MkPool (p_shared p) (lock_owner p) ws').
Proof.
  intros [Hq Ha Hw] Hwoken. split; simpl; [done| |].
  - by rewrite (total_local_woken _ _ Hwoken).
  - intros i w' Hi. destruct (woken_phase _ _ _ _ Hwoken Hi) as (w & Hwi & [->|[_ Hp']]); [by eapply Hw|].
    unfold worker_ok. by rewrite Hp'.
Qed.

Lemma act_ok p i chosen v ph p' :
  pool_ok (move p i (vw_shared v) (lock_owner p) ph (vw_worker v)) →
  act p i chosen v ph = Some p' → pool_ok p'.
Proof.
  intros Hp Hact. unfold act in Hact. destruct (decide _); [done|]. destruct (vw_notify_all v).
  - injection Hact as <-. apply (pool_ok_wake _ _ Hp), wake_all_from.
  - destruct (valid_choice _ _ _); [|done]. injection Hact as <-.
    apply (pool_ok_wake _ _ Hp), wake_chosen_from.
Qed.

(** A move that leaves the account as it is. *)
Lemma plain_move p i w s' owner ph :
  pool_ok p → workers p !! i = Some w →
  (∀ rest, view_ok rest (view_of (p_shared p) (w_state w)) → view_ok rest (view_of s' (w_state w))) →
  worker_ok (MkWorker ph (w_state w)) → pool_ok (move p i s' owner ph (w_state w)).
Proof.
  intros Hp Hi Hs Hph. destruct (pool_view p i w Hp Hi) as (rest & Hv & Hmove).
  by apply (Hmove (view_of s' (w_state w)) owner ph (Hs rest Hv)).
Qed.

(** A worker leaves its loop or takes a task. *)
Lemma take_ok p i chosen st p' :
  pool_ok p → workers p !! i = Some (MkWorker Taking st) → worker_step p i chosen = Some p' →
  pool_ok p'.
Proof.
  intros Hp Hi Hstep. unfold Parallel.worker_step in Hstep. rewrite Hi in Hstep. simpl in Hstep.
  destruct (stop_requested_ (p_shared p) || search_complete_ (p_shared p)).
  - injection Hstep as <-. destruct (pool_view p i _ Hp Hi) as (rest & Hv & Hmove).
    apply (Hmove (flush_worker_state (view_of (p_shared p) st)) None Exited); [|done].
    eapply view_ok_same; [exact Hv|]. etransitivity; [apply flush_same|]. by split.
  - destruct (task_queue_ (p_shared p)) as [|task q] eqn:Hq; [done|]. injection Hstep as <-.
    pose proof (po_queue p Hp) as Htasks. rewrite Hq in Htasks. apply Forall_cons in Htasks as [Ht Htasks].
    apply (plain_move p i (MkWorker Taking st)); [done|done| |done].
    intros rest [_ Ha]. by split.
Qed.

(** One iteration of a worker's engine. *)
Lemma working_ok p i chosen g cs st p' :
  pool_ok p → workers p !! i = Some (MkWorker (Working g cs) st) → worker_step p i chosen = Some p' →
  pool_ok p'.
Proof.
  intros Hp Hi Hstep. unfold Parallel.worker_step in Hstep. rewrite Hi in Hstep. simpl in Hstep.
  destruct (pool_view p i _ Hp Hi) as (rest & Hv & Hmove). simpl in Hv.
  destruct (po_workers p Hp i _ Hi) as [root Hctx].
  destruct (run_step _ _ _ _) as [r|e] eqn:Hrun.
  2:{ injection Hstep as <-. by apply (Hmove (view_of (p_shared p) st)). }
  pose proof (run_step_ok (H := parallel_executor config pc clock start) value_lt config tids _ root _
    (parallel_preserves rest) (follows_carried _ _ _ _) Htotal (MkExplorer (view_of (p_shared p) st) g cs) r
    ltac:(by split) Hrun) as Hr.
  destruct r as [m|m]; (eapply act_ok; [|exact Hstep]); apply Hmove; try done.
  - apply Hr.
  - exists root. apply Hr.
  - by destruct Hr as [-> _].
Qed.

Lemma worker_step_ok p i chosen p' : pool_ok p → worker_step p i chosen = Some p' → pool_ok p'.
Proof.
  intros Hp Hstep. destruct (workers p !! i) as [[ph st]|] eqn:Hi.
  2:{ unfold Parallel.worker_step in Hstep. by rewrite Hi in Hstep. }
  assert (∀ s' owner ph', task_queue_ s' = task_queue_ (p_shared p) →
    (first_exception_ s' = None → first_exception_ (p_shared p) = None ∧
       sh_observers s' = sh_observers (p_shared p) ∧ sh_counts s' = sh_counts (p_shared p) ∧
       stop_requested_ s' = stop_requested_ (p_shared p)) →
    worker_ok (MkWorker ph' st) → pool_ok (move p i s' owner ph' st)) as Hplain.
  { intros s' owner ph' Eq Ee Hph. apply (plain_move p i (MkWorker ph st)); [done|done| |done].
    intros rest [Hq Ha]. split; simpl; [by rewrite Eq|]. intros He.
    destruct (Ee He) as (He0 & -> & Ec & ->). unfold view_counts in *. simpl in *. rewrite Ec. by apply Ha. }
  destruct ph as [ | | | | | | |task|g cs|e| | | ];
    try (by eapply take_ok); try (by eapply working_ok);
    unfold Parallel.worker_step in Hstep; rewrite Hi in Hstep; simpl in Hstep; try done.
  - destruct (lock_owner p); [done|]. injection Hstep as <-. by apply Hplain.
  - injection Hstep as <-. destruct (ready _); by apply Hplain.
  - injection Hstep as <-. destruct (ready _); by apply Hplain.
  - injection Hstep as <-. by apply Hplain.
  - destruct (lock_owner p); [done|]. injection Hstep as <-. by apply Hplain.
  - destruct (pool_view p i _ Hp Hi) as (rest & Hv & Hmove).
    pose proof (stop_requested_same (view_of (p_shared p) st)) as Hsame.
    destruct (p_stop_requested pc _) as [stop v]. eapply act_ok; [|exact Hstep].
    apply Hmove; [by eapply view_ok_same|]. destruct stop; [done|].
    pose proof (po_workers p Hp i _ Hi) as (Hg & Hs & Hf). exists (task_graph _ task). split; [done|].
    split_and!; [done| |done|by split]. intros Hmd. by apply Hs.
  - eapply act_ok; [|exact Hstep]. apply Hplain; [done| |done]. simpl.
    by destruct (first_exception_ (p_shared p)).
  - destruct (lock_owner p); [done|]. case_decide; injection Hstep as <-; by apply Hplain.
  - eapply act_ok; [|exact Hstep]. by apply Hplain.
Qed.

Lemma pool_step_ok p p' : pool_ok p → pool_step p p' → pool_ok p'.
Proof.
  intros Hp [i chosen Hs|i Hs]; [by eapply worker_step_ok|].
  unfold spurious_wake in Hs. destruct (workers p !! i) as [w|] eqn:Hi; [|done].
  destruct (is_parked w); [|done]. injection Hs as <-. by apply (plain_move p i w).
Qed.

Lemma initial_ok o : J o no_counts false → pool_ok (initial_pool config pc start o).
Proof.
  intros Ho. pose proof (empty_Sound (V := V) (max_thread_events config) (communication_model config))
    as He.
  assert (∀ i w, workers (initial_pool config pc start o) !! i = Some w →
    w = MkWorker AtLock new_worker) as Hall by (by intros i w [-> _]%lookup_replicate).
  split; simpl.
  - constructor; [|constructor]. split_and!; [apply He|done|]. intros _. apply follows_empty.
  - intros _. rewrite total_local_none; [done|]. intros i w Hi. by rewrite (Hall i w Hi).
  - intros i w Hi. by rewrite (Hall i w Hi).
Qed.

Lemma reachable_ok p p' : pool_ok p → rtc pool_step p p' → pool_ok p'.
Proof. intros Hp Hr. induction Hr; [done|]. eauto using pool_step_ok. Qed.

(** The counters of a result. *)
Definition result_counts (r : VerifyResult) : Counts :=
  MkCounts (full_executions_explored r) (blocked_executions_explored r) (error_executions_explored r)
    (depth_limit_executions_explored r) (thread_event_limit_executions_explored r)
    (max_thread_event_depth_reached r).

Lemma finish_ok p w r o' :
  pool_ok p → forallb is_exited (workers p) = true → workers p !! 0 = Some w →
  finish_pool config pc clock start (p_shared p) (w_state w) = Ok (r, o') →
  J o' (result_counts r) (bool_decide (vr_kind r = Stopped)) ∧
  executions_explored r = total_count (result_counts r).
Proof.
  intros [_ Ha Hw] Hexit Hw0 Hrun.
  assert (∀ i x, workers p !! i = Some x → local_counts (w_state x) = no_counts) as Hflushed.
  { intros i x Hi. specialize (Hw i x Hi). rewrite forallb_forall in Hexit.
    assert (is_exited x = true) as Hx by (apply Hexit, list_elem_of_In; by eapply list_elem_of_lookup_2).
    unfold is_exited in Hx. unfold worker_ok in Hw. by destruct (w_phase x). }
  rewrite (total_local_none _ Hflushed), (right_id_L no_counts add_counts) in Ha.
  unfold finish_pool in Hrun. destruct (first_exception_ (p_shared p)); [done|]. specialize (Ha eq_refl).
  set (result := pool_result_counts (p_shared p)) in *.
  assert (result_counts result = sh_counts (p_shared p)) as Hc
    by (unfold result, pool_result_counts; by destruct (sh_counts (p_shared p))).
  assert (bool_decide (vr_kind result = Stopped) = stop_requested_ (p_shared p)) as Hk.
  { unfold result, pool_result_counts. simpl. by destruct (stop_requested_ (p_shared p)). }
  destruct (on_progress config).
  - simpl in Hrun. apply bind_Ok_inv in Hrun as (v & Hpub & [= <- <-]).
    apply bind_Ok_inv in Hpub as (o & Hn & [= <-]). rewrite Hk, Hc. split; [|done].
    by eapply Hprogress.
  - injection Hrun as <- <-. by rewrite Hk, Hc.
Qed.

End rule.

(** What holds of the observers before the workers start and survives publications and
    progress reports holds when [verify_parallel] returns. *)
Lemma verify_parallel_rule {V O : Type} `{EqDecision V} (value_lt : V → V → bool) (clock : nat → Z)
    (config : DporConfig V O) options hc inside (J : O → Counts → bool → Prop) o r o' :
  (∀ o c b snapshot o', J o c b → notify_progress config o snapshot = Ok o' → J o' c b) →
  (∀ tids o c b g kind depth a o', sorted_thread_ids (program config) = Ok tids → J o c b →
     published config tids g kind depth → follows_graph (program config) g →
     notify_terminal_execution config o g kind = Ok (a, o') →
     J o' (count_one c kind depth) (bool_decide (a = Stop) || b)) →
  total_program (program config) → J o no_counts false →
  verify_parallel value_lt clock config options hc inside o (Ok (r, o')) →
  J o' (result_counts r) (bool_decide (vr_kind r = Stopped)) ∧
  executions_explored r = total_count (result_counts r).
Proof.
  intros Hprogress Hpublish Htotal HJ Hrun. inversion Hrun as [| | |tids p w _ Htids _ Hsteps Hexit Hw Hfin].
  eapply (finish_ok config (resolve_options options hc) clock (clock 0) tids J Hprogress p w); try done.
  eapply (reachable_ok value_lt config _ clock (clock 0) tids J Hprogress); [|done| |exact Hsteps].
  - intros ????????. by apply Hpublish.
  - by apply initial_ok.
Qed.
