(* ===== verification/FatalFacts.v ===== *)
(** * FatalFacts: the engine at the point of failure

    A step that says where it fails is a step: its result is that of [run_step].  When it
    fails in user code, it does so in a visit, on a consistent graph that follows the
    program, or on such a graph with the error event that is being published; and the
    unwinding that follows succeeds. *)

From stdpp Require Import base tactics numbers relations sets list strings.
From S2P Require Import Prelude Errors Event Relation ExecutionGraph ExplorationGraph Porf.
From S2P Require Import Consistency ExplorationFacts Rollback Queries Program Masked Dpor.
From S2P Require Import Revisit.
From S2P Require Import Explorer Parallel Fatal SoundFacts RevisitFacts NextEvent Conformance.
From S2P Require Import Totality.
From S2P Require Import EngineFacts Faults ExecutorFacts PoolFacts PoolRule.

(** ** Attempts *)

Lemma settled_bind {M A B} (r : attempt M A) (f : A → attempt M B) :
  settled (r ≫= f) = (a ← settled r; settled (f a)).
Proof. by destruct r. Qed.

Lemma settled_leaving {M A} (m : M) (r : res A) : settled (leaving m r) = r.
Proof. by destruct r. Qed.

Lemma leaving_Raised {M A} (m m' : M) (r : res A) e :
  leaving m r = Raised e m' → r = Throw e ∧ m' = m.
Proof. destruct r; simpl; [done|]. by intros [= -> ->]. Qed.

Lemma leaving_Returned {M A} (m : M) (r : res A) a : leaving m r = Returned a → r = Ok a.
Proof. destruct r; simpl; [|done]. by intros [= ->]. Qed.

Lemma bind_Raised {M A B} (r : attempt M A) (f : A → attempt M B) e m :
  r ≫= f = Raised e m → r = Raised e m ∨ ∃ a, r = Returned a ∧ f a = Raised e m.
Proof. destruct r as [a|e' m']; simpl; [right; by exists a|]. intros [= -> ->]. by left. Qed.

(** [settle] follows an attempt through the calls it makes. *)
Ltac settle := unfold mutating; repeat
  match goal with
  | |- settled (mbind _ (leaving _ ?r)) = _ => destruct r as [?|?]; cbn [leaving mbind attempt_bind result_bind]
  | |- context [let '(_, _) := ?p in _] => destruct p
  | |- settled (Returned _) = _ => reflexivity
  | |- settled (Raised _ _) = _ => reflexivity
  | |- settled (leaving _ _) = _ => apply settled_leaving
  | |- settled (match ?x with _ => _ end) = _ => destruct x; cbn [leaving mbind attempt_bind result_bind]
  end.

Section attempts.
Context {V O X : Type} `{EqDecision V} `{Executor V X} (value_lt : V → V → bool)
  (config : DporConfig V O) (thread_ids : list ThreadId)
  (torn : ExplorationGraph V → ExplorationGraph V).
Implicit Types (m : Explorer V X) (g : ExplorationGraph V) (f : ExplorationFrame V).

Lemma attempt_maximal_settled m g f b :
  settled (attempt_maximal config thread_ids m g f b) = enter_maximal config thread_ids m g f b.
Proof. unfold attempt_maximal, enter_maximal. settle. Qed.

Lemma attempt_label_settled m g f tid l :
  settled (attempt_label thread_ids torn m g f tid l) = enter_label thread_ids m g f tid l.
Proof. destruct l; unfold attempt_label, enter_label; settle. Qed.

Lemma attempt_visit_settled m :
  settled (attempt_visit config thread_ids torn m) = enter_visit config thread_ids m.
Proof.
  unfold attempt_visit, enter_visit. settle; [apply attempt_label_settled|apply attempt_maximal_settled].
Qed.

Lemma attempt_enter_frame_settled m :
  settled (attempt_enter_frame config thread_ids torn m) = handle_enter_frame config thread_ids m.
Proof. unfold attempt_enter_frame, handle_enter_frame. settle; apply attempt_visit_settled. Qed.

Lemma attempt_resume_nd_settled m : settled (attempt_resume_nd torn m) = handle_resume_nd_frame m.
Proof. unfold attempt_resume_nd, handle_resume_nd_frame. settle. Qed.

Lemma attempt_resume_receive_settled m :
  settled (attempt_resume_receive torn m) = handle_resume_receive_frame m.
Proof. unfold attempt_resume_receive, handle_resume_receive_frame. settle. Qed.

(** A step that says where it fails is a step of the engine. *)
Lemma attempt_step_settled m :
  settled (attempt_step value_lt config thread_ids torn m) = run_step value_lt config thread_ids m.
Proof.
  unfold attempt_step, run_step, mutating. destruct (contexts m) as [|c cs]; [done|].
  destruct (stop_requested (executor m)) as [[] x].
  { rewrite settled_bind, settled_leaving. by destruct (unwind_one_step _). }
  destruct (current_frames _) as [|f fs]; [done|]. rewrite settled_bind.
  rewrite <-attempt_enter_frame_settled, <-attempt_resume_nd_settled, <-attempt_resume_receive_settled.
  destruct (frame_kind f); rewrite ?settled_leaving; [by destruct (settled _)|..|by destruct (_ : res _)];
    [by destruct (rollback_and_pop_top_frame _)|by destruct (settled _)..].
Qed.

Lemma attempt_loop_settled fuel m :
  settled (attempt_loop value_lt config thread_ids torn fuel m) = run_loop value_lt config thread_ids fuel m.
Proof.
  revert m. induction fuel as [|fuel IH]; intros m; [done|]. unfold run_loop. rewrite while_S.
  rewrite <-attempt_step_settled. cbn [attempt_loop]. rewrite settled_bind.
  destruct (settled _) as [[m'|m']|e]; [apply IH|done|done].
Qed.

End attempts.

(** ** The stack at the point of failure *)

Section height.
Context {V O X : Type} `{EqDecision V} `{Executor V X} (value_lt : V → V → bool)
  (config : DporConfig V O) (thread_ids : list ThreadId)
  (torn : ExplorationGraph V → ExplorationGraph V).
Implicit Types (m : Explorer V X) (g : ExplorationGraph V) (f : ExplorationFrame V).

(** A stack with something on it. *)
Definition standing m : Prop := contexts m ≠ [].

Lemma standing_graph m g : standing m → standing (set_current_graph m g).
Proof. by destruct m as [x b [|[[g'|] fs] cs]]. Qed.

Lemma standing_executor m x : standing m → standing (set_executor m x).
Proof. done. Qed.

Lemma standing_frame m f : standing m → standing (set_frame m f).
Proof. by destruct m as [x b [|c cs]]. Qed.

Lemma leaving_standing {A} m m' (r : res A) e : standing m → leaving m r = Raised e m' → standing m'.
Proof. by intros Hm [_ ->]%leaving_Raised. Qed.

Lemma mutating_standing {A} m m' g (r : res A) e :
  standing m → mutating torn m g r = Raised e m' → standing m'.
Proof. intros Hm. by apply leaving_standing, standing_graph. Qed.

Lemma publish_standing m g kind m' :
  standing m → publish_terminal thread_ids m g kind = Ok m' → standing m'.
Proof. intros Hm Hrun. apply bind_Ok_inv in Hrun as ([b x] & _ & [= <-]). done. Qed.

(** [stands Hrun] closes a failing sequence of calls on engines with a stack. *)
Ltac stands Hrun := repeat (
  simpl in Hrun;
  match type of Hrun with
  | Returned _ = Raised _ _ => discriminate Hrun
  | Raised _ _ = Raised _ _ => injection Hrun as <- <-; auto using standing_graph, standing_frame, standing_executor; done
  | leaving _ _ = Raised _ _ =>
      eapply leaving_standing; [|exact Hrun]; auto using standing_graph, standing_frame, standing_executor; done
  | mutating _ _ _ _ = Raised _ _ =>
      eapply mutating_standing; [|exact Hrun]; auto using standing_graph, standing_frame, standing_executor; done
  | mbind _ _ = Raised _ _ =>
      let Hr := fresh "Hr" in
      apply bind_Raised in Hrun as [Hrun|(? & Hr%leaving_Returned & Hrun)]
  | (match ?x with _ => _ end) = Raised _ _ => destruct x
  | (let '(_, _) := ?x in _) = Raised _ _ => destruct x
  end).

Lemma attempt_maximal_standing m g f b e m' :
  standing m → attempt_maximal config thread_ids m g f b = Raised e m' → standing m'.
Proof. intros Hm Hrun. unfold attempt_maximal in Hrun. stands Hrun. Qed.

Lemma attempt_label_standing m g f tid l e m' :
  standing m → attempt_label thread_ids torn m g f tid l = Raised e m' → standing m'.
Proof.
  intros Hm Hrun. destruct l; unfold attempt_label in Hrun; stands Hrun.
  eapply mutating_standing; [|exact Hrun]. eapply publish_standing; [|done]. by apply standing_graph.
Qed.

Lemma attempt_visit_standing m e m' :
  standing m → attempt_visit config thread_ids torn m = Raised e m' → standing m'.
Proof.
  intros Hm Hrun. unfold attempt_visit in Hrun.
  stands Hrun; [by eapply attempt_label_standing; [|done]|by eapply attempt_maximal_standing; [|done]].
Qed.

Lemma attempt_enter_standing m e m' :
  standing m → attempt_enter_frame config thread_ids torn m = Raised e m' → standing m'.
Proof.
  intros Hm Hrun. unfold attempt_enter_frame in Hrun.
  stands Hrun; (eapply attempt_visit_standing; [|done]); auto using standing_frame, standing_graph.
Qed.

Lemma attempt_step_standing m e m' :
  attempt_step value_lt config thread_ids torn m = Raised e m' → standing m'.
Proof.
  intros Hrun. unfold attempt_step in Hrun. destruct (contexts m) as [|c cs] eqn:Ec; [done|].
  destruct (stop_requested (executor m)) as [stop x].
  assert (standing (set_executor m x)) as Hm by (unfold standing; simpl; by rewrite Ec). destruct stop; [stands Hrun|].
  destruct (current_frames _) as [|f fs]; [done|]. apply bind_Raised in Hrun as [Hrun|(? & _ & ?)]; [|done].
  destruct (frame_kind f); [by eapply attempt_enter_standing; [|done]|stands Hrun|..|stands Hrun].
  - unfold attempt_resume_nd in Hrun. stands Hrun.
  - unfold attempt_resume_receive in Hrun. stands Hrun.
Qed.

End height.

(** ** Unwinding *)

Section unwinding.
Context {V O X : Type} `{EqDecision V} `{Executor V X} (value_lt : V → V → bool)
  (config : DporConfig V O) (thread_ids : list ThreadId) (Q : ExplorationGraph V → Prop)
  (HQ : Carried value_lt (program config) (max_thread_events config) (communication_model config) Q)
  (root : ExplorationGraph V).
Implicit Types (m : Explorer V X) (g : ExplorationGraph V) (f : ExplorationFrame V).

Abbreviation Sound := (Sound (max_thread_events config) (communication_model config)).
Abbreviation Explorer_ok := (Explorer_ok config thread_ids Q root (λ _ : X, True)).
Abbreviation visiting := (visiting config thread_ids Q root (λ _ : X, True)).

(** Every step of unwinding removes a frame or a context. *)
Lemma unwind_one_step_shrinks m m' :
  contexts m ≠ [] → unwind_one_step m = Ok m' → unwind_fuel m' < unwind_fuel m.
Proof.
  destruct m as [x b [|[[g|] [|f fs]] cs]]; [done|..]; intros _ Hrun; unfold unwind_one_step in Hrun;
    simpl in Hrun; try (injection Hrun as <-; unfold unwind_fuel; simpl; lia).
  all: destruct (frame_kind f); simpl in Hrun; try (injection Hrun as <-); try (
    unfold rollback_and_pop_top_frame in Hrun; simpl in Hrun; apply bind_Ok_inv in Hrun as (g' & _ & [= <-]));
    unfold pop_top_frame, pop_context_if_empty, unwind_fuel; simpl; destruct fs; simpl; lia.
Qed.

(** Unwinding a state of the engine empties the stack and gives the caller's graph back. *)
Lemma unwind_from_ok n m :
  unwind_fuel m ≤ n → Explorer_ok m →
  ∃ m', while n nontermination
    (λ m, match contexts m with [] => Ok (inr m) | _ => inl <$> unwind_one_step m end) m = Ok m' ∧
    contexts m' = [] ∧ same_execution root (borrowed_graph m').
Proof.
  revert m. induction n as [|n IH]; intros m Hn Hm; [unfold unwind_fuel in Hn; lia|].
  rewrite while_S. destruct (contexts m) as [|c cs] eqn:Ec.
  { exists m. split; [done|]. split; [done|]. destruct Hm as [_ Hc]. rewrite Ec in Hc. apply Hc. }
  destruct (unwind_one_step_total config thread_ids Q root _ m Hm) as [m' Hm'].
  rewrite Hm'. cbn [fmap result_fmap mbind result_bind]. apply IH.
  - apply unwind_one_step_shrinks in Hm'; [lia|by rewrite Ec].
  - by eapply unwind_one_step_ok.
Qed.

(** *** The point of failure *)

(** The exception [e] came out of the publication of [g] as an error execution. *)
Definition refused g (e : exn) : Prop :=
  ∃ x, publish_terminal_execution g ErrorExecution (compute_max_thread_event_depth g thread_ids) x = Throw e.

(** User code fails with [e] in a visit, or when it is given an error execution. *)
Inductive interrupted (e : exn) : Explorer V X → Prop :=
| interrupted_visit m c f g : visiting m c f g → frame_kind f = Enter → interrupted e m
| interrupted_error m c f g tid msg id g' :
    visiting m c f g → frame_kind f = Enter → may_grow (max_thread_events config) (events g) tid →
    extends (program config) g tid (LError msg) → add_event g tid (LError msg) = Ok (id, g') →
    refused g' e → interrupted e (set_current_graph m g').

(** The graph the hook is given is a consistent execution of the program. *)
Lemma interrupted_graph e m :
  interrupted e m → ∃ c, head (contexts m) = Some c ∧ Sound (context_graph m c) ∧ Q (context_graph m c).
Proof.
  destruct 1 as [m c f g [_ Hcur Hs HQg <- _] _|m c f g tid msg id g' [_ Hcur Hs HQg Hgr _] _ Hgrow Hext Hadd _].
  - apply current_inv in Hcur as (cs & fs & Hcs & _). exists c. by rewrite Hcs.
  - pose proof (add_event_Sound _ _ g tid (LError msg) id g' Hs I eq_refl Hgrow Hadd) as Hs'.
    pose proof (carried_add value_lt config Q HQ g tid (LError msg) id g' Hs HQg Hext Hadd) as HQ'.
    clear Hgr. destruct m as [x b [|[[g1|] fs1] cs1]]; [done|..]; eexists; (split; [reflexivity|]); by split.
Qed.

(** Frames that were suspended under [g] still are after more mutations. *)
Lemma below_ok_since r g g' fs :
  fs ≠ [] ∨ r = None → below_ok config thread_ids Q r g fs → (∀ g0, Since g0 g → Since g0 g') →
  below_ok config thread_ids Q r g' fs.
Proof.
  intros Hne Hb Hsince. destruct fs as [|f fs]; [by destruct Hne as [?| ->]|].
  destruct Hb as (Hk & Hk' & g0 & Hs & HQ0 & Hcp & Hg & Hd & Hb). split_and!; [done|done|].
  exists g0. split_and!; try done. by apply Hsince.
Qed.

(** The unwinding after a failure in user code succeeds.  The caller's graph is as it was,
    unless the publication of an error execution one event above it threw [e]. *)
Lemma interrupted_unwinds e m :
  interrupted e m → ∃ m', unwind_all m = Ok m' ∧ contexts m' = [] ∧
    (same_execution root (borrowed_graph m') ∨
     ∃ ev, events (borrowed_graph m') = events root ++ [ev] ∧ is_error ev = true ∧
       refused (borrowed_graph m') e).
Proof.
  destruct 1 as [m c f g [Hm _ _ _ _ _] _|m c f g tid msg id g' [Hm Hcur Hs HQg Hgr Hb] Hk Hgrow Hext Hadd Href].
  { destruct (unwind_from_ok _ m (le_n _) Hm) as (m' & ? & ? & ?). exists m'. eauto. }
  pose proof (add_event_Sound _ _ g tid (LError msg) id g' Hs I eq_refl Hgrow Hadd) as Hs'.
  assert (∀ g0, Since g0 g → Since g0 g') as Hsince by (intros g0 Hg0; by eapply since_add_event).
  set (m1 := set_current_graph m g'). assert (unwind_one_step m1 = Ok (pop_top_frame m1)) as Hpop.
  { unfold m1, unwind_one_step. clear -Hcur Hk. destruct m as [x b [|[[g1|] [|f1 fs1]] cs1]]; try done;
      injection Hcur as <- <-; simpl in *; by rewrite Hk. }
  assert (contexts m1 ≠ []) as Hne.
  { unfold m1. clear -Hcur. by destruct m as [x b [|[[g1|] [|f1 fs1]] cs1]]. }
  assert (∀ n, while (S n) nontermination (λ m, match contexts m with [] => Ok (inr m)
    | _ => inl <$> unwind_one_step m end) m1 = while n nontermination (λ m, match contexts m with
    [] => Ok (inr m) | _ => inl <$> unwind_one_step m end) (pop_top_frame m1)) as Hstep.
  { intros n. rewrite while_S, Hpop. by destruct (contexts m1). }
  pose proof (unwind_one_step_shrinks m1 _ Hne Hpop) as Hfuel. unfold unwind_all.
  destruct (unwind_fuel m1) as [|n] eqn:En; [lia|]. rewrite Hstep.
  destruct (decide (tail (current_frames m) ≠ [] ∨ current_root root m = None)) as [Hdeep|Hflat].
  - assert (Explorer_ok (pop_top_frame m1)) as Hok.
    { assert (m1 = set_current_graph (set_executor m (executor m)) g') as -> by (unfold m1; by destruct m).
      eapply pop_top_frame_ok; [done|done|done|apply Hs'|]. by eapply below_ok_since. }
    destruct (unwind_from_ok n (pop_top_frame m1) ltac:(lia) Hok) as (m' & ? & ? & ?). exists m'. eauto.
  - destruct (add_event_inv g tid (LError msg) id g') as (_ & _ & _ & _ & _ & i & Hev); [apply Hs|done|].
    assert (contexts (pop_top_frame m1) = [] ∧ borrowed_graph (pop_top_frame m1) = g' ∧
      same_execution root g) as (Hc & Hg' & Hroot).
    { unfold m1. destruct Hm as [_ Hctx]. clear -Hcur Hflat Hctx Hgr Hb.
      destruct m as [x b [|[[g1|] [|f1 [|f2 fs1]]] cs1]]; try done; simpl in *;
        try (exfalso; tauto || (apply Hflat; by left)). destruct Hctx as [-> _]. by split_and!. }
    exists (pop_top_frame m1). destruct n as [|n]; [unfold unwind_fuel in Hfuel; lia|].
    rewrite while_S, Hc. split_and!; [done..|]. right. eexists. rewrite Hg', Hev.
    split; [by rewrite (se_events _ _ Hroot)|]. by split.
Qed.

(** *** Failures in user code *)

Context (torn : ExplorationGraph V → ExplorationGraph V)
  (Htotal : total_program (program config)) (Hruns : runnable (program config) thread_ids).

Definition user_error (e : exn) : Prop := is_Some (user_code_kind e).

(** A call that fails for want of an index, or not at all, does not fail in user code. *)
Lemma index_bound_silent {A} (r : res A) e : index_bound r → r = Throw e → ¬ user_error e.
Proof. intros Hr <-%Hr [k Hk]. done. Qed.

Lemma leaving_silent {A} m m' (r : res A) e :
  index_bound r → leaving m r = Raised e m' → user_error e → interrupted e m'.
Proof. intros Hr [He _]%leaving_Raised Hu. by destruct (index_bound_silent r e Hr He). Qed.

Lemma leaving_interrupted {A} m m' (r : res A) e :
  interrupted e m → leaving m r = Raised e m' → interrupted e m'.
Proof. by intros Hm [_ ->]%leaving_Raised. Qed.

Lemma publish_refused m g kind e :
  publish_terminal thread_ids m g kind = Throw e →
  publish_terminal_execution g kind (compute_max_thread_event_depth g thread_ids) (executor m) = Throw e.
Proof.
  unfold publish_terminal. destruct (publish_terminal_execution _ _ _ _) as [[b x]|e']; simpl; [done|].
  by intros [= ->].
Qed.

(** [fails Hrun] splits a failing sequence of calls at its first one: it is the one that
    failed, or it returned. *)
Ltac fails Hrun := apply bind_Raised in Hrun as [Hrun|(? & ?%leaving_Returned & Hrun)].

Lemma attempt_label_raised m c f g tid l e m' :
  visiting m c f g → frame_kind f = Enter → total_label l → tid ∈ thread_ids →
  may_grow (max_thread_events config) (events g) tid → (∀ l', resolves l l' → extends (program config) g tid l') →
  attempt_label thread_ids torn m g f tid l = Raised e m' → user_error e → interrupted e m'.
Proof.
  intros Hv Hk Hl Htid Hgrow Hext Hrun Hu. pose proof Hv as [Hm Hcur Hs HQg Hgr Hb].
  pose proof (sound_core config g Hs) as Hcore.
  assert (∀ l, index_bound (add_event g tid l)) as Hadd
    by (intros l'; apply add_event_index_bound; [done|by apply Hruns]).
  destruct l as [recv|send|nd| |msg]; unfold attempt_label in Hrun.
  - fails Hrun; [|done]. eapply leaving_silent; [|done..]. by apply only_returns, compatible_ids_returns.
  - apply bind_Raised in Hrun as [Hrun|([id g'] & Ha%leaving_Returned & Hrun)]; [by eapply leaving_silent|].
    fails Hrun; [|by destruct (can_spawn _ _)]. eapply leaving_silent; [|done..]. apply only_returns.
    eapply (sent_receives_return g tid send); [apply Hs|done].
  - eapply leaving_silent; [|done..]. unfold enter_label, enter_linear_child. destruct (choices nd); [|apply only_Ok].
    apply only_bind; [done|]. intros [] _. apply only_Ok.
  - eapply leaving_silent; [|done..]. unfold enter_label, enter_linear_child.
    apply only_bind; [done|]. intros [] _. apply only_Ok.
  - apply bind_Raised in Hrun as [Hrun|([id g'] & Ha%leaving_Returned & Hrun)]; [by eapply leaving_silent|].
    fails Hrun.
    { apply leaving_Raised in Hrun as [Hpub ->]. eapply interrupted_error; try done; [by apply Hext|].
      eexists. by apply publish_refused in Hpub. }
    fails Hrun; [|done]. eapply leaving_silent; [|done..]. apply only_returns.
    assert (Since g g') as Hsince by (eapply since_add_event; [apply since_refl, Hs|done]).
    destruct (rollback_since g g' (good_inv _ _ (sound_good _ _ _ Hs)) Hsince) as (g'' & Hroll & _).
    by exists g''.
Qed.

Lemma attempt_maximal_raised m c f g b e m' :
  visiting m c f g → frame_kind f = Enter →
  attempt_maximal config thread_ids m g f b = Raised e m' → interrupted e m'.
Proof.
  intros Hv Hk Hrun. unfold attempt_maximal in Hrun.
  apply bind_Raised in Hrun as [Hrun|([re x] & _ & Hrun)].
  { eapply leaving_interrupted; [by eapply interrupted_visit|done]. }
  assert (interrupted e (set_executor m x)) as Hi by (eapply interrupted_visit; [by apply visiting_executor|done]).
  destruct re; try done. fails Hrun; [by eapply leaving_interrupted|].
  fails Hrun; [by eapply leaving_interrupted|done].
Qed.

Lemma attempt_visit_raised m c f g e m' :
  visiting m c f g → frame_kind f = Enter →
  attempt_visit config thread_ids torn m = Raised e m' → user_error e → interrupted e m'.
Proof.
  intros Hv Hk Hrun Hu. pose proof Hv as [Hm Hcur Hs HQg Hgr Hb]. unfold attempt_visit in Hrun.
  rewrite Hcur in Hrun. cbn [leaving mbind attempt_bind] in Hrun. rewrite Hgr in Hrun.
  fails Hrun; [eapply leaving_interrupted; [by eapply interrupted_visit|done]|].
  destruct (stop_requested _) as [[] x']; [done|].
  pose proof (visiting_executor _ _ _ _ _ m c f g x' Hv I) as Hv'.
  assert (interrupted e (set_executor m x')) as Hi by (by eapply interrupted_visit).
  case_decide; [fails Hrun; [by eapply leaving_interrupted|done]|].
  apply bind_Raised in Hrun as [Hrun|(r & Hnext%leaving_Returned & Hrun)]; [by eapply leaving_interrupted|].
  destruct (Dpor.next r) as [[tid l]|] eqn:En; [|by eapply attempt_maximal_raised].
  destruct (next_label_facts config thread_ids g r tid l Htotal Hs Hnext En) as (Htid & Hl & Hgrow & Hext).
  by eapply attempt_label_raised.
Qed.

Lemma attempt_enter_raised m c f e m' :
  Explorer_ok m → current m = Ok (c, f) → frame_kind f = Enter →
  attempt_enter_frame config thread_ids torn m = Raised e m' → user_error e → interrupted e m'.
Proof.
  intros Hm Hcur Hk Hrun Hu. destruct (top_ok _ _ _ _ _ m c f Hm Hcur) as [Hf _].
  unfold frames_ok in Hf. rewrite Hk in Hf. destruct Hf as (Hg & Hvisit & HQg & Hb).
  unfold attempt_enter_frame in Hrun. rewrite Hcur in Hrun. cbn [leaving mbind attempt_bind] in Hrun.
  destruct (frame_mode f) eqn:Emode.
  { eapply attempt_visit_raised; [|done..]. split; try done; [by split; [|apply Hvisit]|]. by apply HQg, Hvisit. }
  destruct (stop_requested (executor m)) as [[] x]; [done|].
  apply bind_Raised in Hrun as [Hrun|([r g] & Hcheck%leaving_Returned & Hrun)].
  { eapply leaving_silent; [|done..]. by apply only_returns, check_consistency_returns with (max_thread_events config). }
  destruct (is_consistent r) eqn:Er; [|done].
  destruct (checked_child value_lt config thread_ids Q root (λ _, True) HQ m c f x r g) as [c' Hv]; try done.
  by eapply attempt_visit_raised.
Qed.

Lemma attempt_step_raised m e m' :
  Explorer_ok m → attempt_step value_lt config thread_ids torn m = Raised e m' → user_error e →
  interrupted e m'.
Proof.
  intros Hm Hrun Hu. unfold attempt_step in Hrun. destruct (contexts m) as [|c cs] eqn:Ec; [done|].
  destruct (stop_requested (executor m)) as [stop x].
  assert (Explorer_ok (set_executor m x)) as Hm' by (destruct Hm; by split). destruct stop.
  { fails Hrun; [|done]. eapply leaving_silent; [|done..]. apply only_returns. by eapply unwind_one_step_total. }
  destruct (current_frames (set_executor m x)) as [|f fs] eqn:Ef; [done|].
  assert (current (set_executor m x) = Ok (c, f)) as Hcur.
  { unfold current_frames in Ef. unfold current. simpl in *. rewrite Ec in *. by rewrite Ef. }
  apply bind_Raised in Hrun as [Hrun|(? & _ & ?)]; [|done].
  assert (∀ r : attempt (Explorer V X) (Explorer V X), r = Raised e m' → index_bound (settled r) → interrupted e m')
    as Hsilent by (intros r -> Hr; by destruct (index_bound_silent _ e Hr eq_refl)).
  destruct (frame_kind f) eqn:Ek; [by eapply attempt_enter_raised|..]; apply (Hsilent _ Hrun);
    unfold mutating; rewrite ?attempt_resume_nd_settled, ?attempt_resume_receive_settled, ?settled_leaving.
  - eapply rollback_and_pop_index_bound; [done|done|by rewrite Ek].
  - by eapply handle_resume_nd_index_bound.
  - by eapply handle_resume_receive_index_bound.
  - by eapply handle_resume_send_index_bound.
Qed.

(** *** The loop *)

Lemma trivial_preserves : Preserves config thread_ids Q (λ _ : X, True).
Proof. by split. Qed.

(** The loop fails in a step, with a context on the stack, unless it is out of fuel. *)
Lemma attempt_loop_standing fuel m e m' :
  attempt_loop value_lt config thread_ids torn fuel m = Raised e m' →
  (∀ oof, while fuel oof (run_step value_lt config thread_ids) m = Throw oof) ∨ standing m'.
Proof.
  revert m. induction fuel as [|fuel IH]; intros m Hrun; [by left|]. cbn [attempt_loop] in Hrun.
  pose proof (attempt_step_settled value_lt config thread_ids torn m) as Hset.
  destruct (attempt_step value_lt config thread_ids torn m) as [r|e1 m1] eqn:Er.
  - simpl in Hset, Hrun. destruct r as [m2|m2]; [|done].
    destruct (IH m2 Hrun) as [Hout|?]; [left|by right]. intros oof. rewrite while_S, <-Hset. apply Hout.
  - simpl in Hrun. injection Hrun as <- <-. right. by eapply attempt_step_standing.
Qed.

(** On a state of the engine, it fails where [interrupted] says when user code failed. *)
Lemma attempt_loop_raised fuel m e m' :
  Explorer_ok m → attempt_loop value_lt config thread_ids torn fuel m = Raised e m' →
  (∀ oof, while fuel oof (run_step value_lt config thread_ids) m = Throw oof) ∨
  (user_error e → interrupted e m').
Proof.
  revert m. induction fuel as [|fuel IH]; intros m Hm Hrun; [by left|]. cbn [attempt_loop] in Hrun.
  pose proof (attempt_step_settled value_lt config thread_ids torn m) as Hset.
  destruct (attempt_step value_lt config thread_ids torn m) as [r|e1 m1] eqn:Er.
  - simpl in Hset, Hrun. pose proof (run_step_ok value_lt config thread_ids Q root _ trivial_preserves HQ Htotal
      m r Hm (eq_sym Hset)) as Hr. destruct r as [m2|m2]; [|done].
    destruct (IH m2 Hr Hrun) as [Hout|?]; [left|by right]. intros oof. rewrite while_S, <-Hset. apply Hout.
  - simpl in Hrun. injection Hrun as <- <-. right. intros Hu. by eapply attempt_step_raised.
Qed.

End unwinding.

(** ** The pool *)

Section pool.
Context {V O F : Type} `{EqDecision V} (value_lt : V → V → bool) (config : DporConfig V O)
  (pc : PoolConfig) (clock : nat → Z) (start : Z) (tids : list ThreadId)
  (torn : ExplorationGraph V → ExplorationGraph V) (hook : FatalErrorObserver V F).
Implicit Types (p : Pool V O) (s : Shared V O) (h : F).

Abbreviation worker_step := (worker_step value_lt config pc clock start tids).
Abbreviation pool_step := (pool_step value_lt config pc clock start tids).
Abbreviation reporting_step := (reporting_step value_lt config pc clock start tids torn (Some hook)).
Abbreviation attempt_step :=
  (attempt_step (H := parallel_executor config pc clock start) value_lt config tids torn).

(** No worker has failed. *)
Definition quiet p : Prop :=
  first_exception_ (p_shared p) = None ∧ ∀ i w e, workers p !! i = Some w → w_phase w ≠ Failed e.

Lemma quiet_move p i s owner ph ws :
  quiet p → first_exception_ s = None → (∀ e, ph ≠ Failed e) → quiet (move p i s owner ph ws).
Proof.
  intros [_ Hw] Hs Hph. split; [done|]. simpl. intros j w e. destruct (decide (j = i)) as [->|Hne].
  - destruct (decide (i < length (workers p))).
    + rewrite list_lookup_insert_eq by done. intros [= <-]. apply Hph.
    + by rewrite lookup_ge_None_2 by (rewrite length_insert; lia).
  - rewrite list_lookup_insert_ne by done. apply Hw.
Qed.

Lemma quiet_wake p ws' :
  quiet p → woken_from (workers p) ws' → quiet (MkPool (p_shared p) (lock_owner p) ws').
Proof.
  intros [Hs Hw] Hwoken. split; [done|]. simpl. intros i w' e Hi.
  destruct (woken_phase _ _ _ _ Hwoken Hi) as (w & Hwi & [->|[_ ->]]); [by eapply Hw|done].
Qed.

Lemma quiet_act p i chosen v ph p' :
  quiet p → first_exception_ (vw_shared v) = None → (∀ e, ph ≠ Failed e) → act p i chosen v ph = Some p' →
  quiet p'.
Proof.
  intros Hp Hv Hph Hact. unfold act in Hact. destruct (decide _); [done|].
  pose proof (quiet_move p i (vw_shared v) (lock_owner p) ph (vw_worker v) Hp Hv Hph) as Hm.
  destruct (vw_notify_all v).
  - injection Hact as <-. apply (quiet_wake _ _ Hm), wake_all_from.
  - destruct (valid_choice _ _ _); [|done]. injection Hact as <-. apply (quiet_wake _ _ Hm), wake_chosen_from.
Qed.

(** A step in which no engine fails keeps the pool quiet. *)
Lemma worker_step_quiet p i chosen p' :
  quiet p → worker_step p i chosen = Some p' →
  (∀ g cs ws e m, workers p !! i = Some (MkWorker (Working g cs) ws) →
     attempt_step (MkExplorer (view_of (p_shared p) ws) g cs) ≠ Raised e m) → quiet p'.
Proof.
  intros Hp Hstep Hno. unfold Parallel.worker_step in Hstep. destruct (workers p !! i) as [[ph ws]|] eqn:Hi; [|done].
  pose proof Hp as [Hs Hw].
  assert (∀ e, ph ≠ Failed e) as Hphase by (intros e; by apply (Hw i _ e Hi)). simpl in Hstep.
  destruct ph as [ | | | | | | |task|g cs|e| | | ]; try done.
  - destruct (lock_owner p); [done|]. injection Hstep as <-. by apply quiet_move.
  - injection Hstep as <-. destruct (ready _); by apply quiet_move.
  - injection Hstep as <-. destruct (ready _); by apply quiet_move.
  - injection Hstep as <-. by apply quiet_move.
  - destruct (lock_owner p); [done|]. injection Hstep as <-. by apply quiet_move.
  - destruct (stop_requested_ _ || _); [injection Hstep as <-; by apply quiet_move|].
    destruct (task_queue_ _); [done|]. injection Hstep as <-. by apply quiet_move.
  - pose proof (p_stop_requested_evolves pc (view_of (p_shared p) ws)) as Hev.
    destruct (p_stop_requested pc _) as [stop v]. simpl in Hev. eapply quiet_act; [done| | |done].
    + by rewrite (ev_exception _ _ Hev).
    + by destruct stop.
  - specialize (Hno g cs ws). rewrite <-(attempt_step_settled (H := parallel_executor config pc clock start)
      value_lt config tids torn) in Hstep.
    destruct (attempt_step _) as [r|e m] eqn:Er; [|by destruct (Hno e m)]. simpl in Hstep.
    pose proof (attempt_step_settled (H := parallel_executor config pc clock start) value_lt config tids torn
      (MkExplorer (view_of (p_shared p) ws) g cs)) as Hset. rewrite Er in Hset. simpl in Hset.
    pose proof (run_step_stable (H := parallel_executor config pc clock start) value_lt config tids
      (evolves (view_of (p_shared p) ws)) (evolves_stable config pc clock start _)
      (MkExplorer (view_of (p_shared p) ws) g cs) r (evolves_refl _) (eq_sym Hset)) as Hev.
    destruct r as [m|m]; (eapply quiet_act; [done| | |exact Hstep]); by rewrite ?(ev_exception _ _ Hev).
  - by destruct (Hphase e).
  - destruct (lock_owner p); [done|]. case_decide; injection Hstep as <-; by apply quiet_move.
  - eapply quiet_act; [done| | |done]; done.
Qed.

(** What [fatal_error_reported_] and the state of the hook say. *)
Definition reported_ok (h0 : F) p (s : bool * F) : Prop :=
  (s = (false, h0) ∧ quiet p) ∨
  ∃ g e, s = (true, (hook h0 (MkFatalErrorContext g e)).1) ∧
    (user_error e → Sound (max_thread_events config) (communication_model config) g ∧
       follows_graph (program config) g).

Context (Htotal : total_program (program config)) (Hruns : runnable (program config) tids).

Abbreviation pool_ok := (pool_ok config tids (λ _ _ _, True)).

Lemma reporting_step_ok h0 p (s : bool * F) p' (s' : bool * F) :
  pool_ok p → reported_ok h0 p s → reporting_step (p, s) (p', s') →
  pool_ok p' ∧ reported_ok h0 p' s' ∧ pool_step p p'.
Proof.
  intros Hp Hs Hstep. assert (pool_step p p') as Hps by (inversion Hstep; subst; by econstructor).
  split; [by eapply (pool_step_ok value_lt config pc clock start tids (λ _ _ _, True))|]. split; [|done].
  inversion Hstep as [p1 s1 i chosen p2 Hw|p1 s1 i p2 Hw]; subst.
  2:{ destruct Hs as [[-> Hq]|Hs]; [left; split; [done|]|by right]. unfold spurious_wake in Hw.
      destruct (workers p !! i) as [w|] eqn:Hi; [|done]. destruct (is_parked w); [|done]. injection Hw as <-.
      apply quiet_move; [done|apply Hq|done]. }
  unfold report_worker. destruct (workers p !! i) as [[ph ws]|] eqn:Hi.
  2:{ unfold Parallel.worker_step in Hw. by rewrite Hi in Hw. }
  assert (∀ ph', ph = ph' → (∀ g cs, ph' ≠ Working g cs) → reported_ok h0 p' s) as Hother.
  { intros ph' -> Hph. destruct Hs as [[-> Hq]|Hs]; [left; split; [done|]|by right].
    eapply worker_step_quiet; [done..|]. intros g cs ws' e m. rewrite Hi. intros [= -> _]. by destruct (Hph g cs). }
  destruct ph as [ | | | | | | |task|g cs|e| | | ]; try (by eapply Hother).
  destruct (attempt_step _) as [r|e m] eqn:Er.
  { destruct Hs as [[-> Hq]|Hs]; [left; split; [done|]|by right].
    eapply worker_step_quiet; [done..|]. intros g1 cs1 ws1 e m. rewrite Hi. intros [= <- <- <-]. by rewrite Er. }
  right. unfold report_failure. pose proof (attempt_step_standing _ _ _ _ _ _ _ Er) as Hst. unfold standing in Hst.
  destruct (contexts m) as [|c cs'] eqn:Ec; [done|]. destruct Hs as [[-> Hq]|(g1 & e1 & -> & Hg1)]; simpl.
  - exists (context_graph m c), e. split; [done|]. intros Hu.
    destruct (po_workers _ _ _ p Hp i _ Hi) as [root Hctx].
    assert (interrupted (H := parallel_executor config pc clock start) config tids (follows_graph (program config)) root e m)
      as Hint.
    { eapply (attempt_step_raised (H := parallel_executor config pc clock start) value_lt config tids _
        (follows_carried _ _ _ _) root torn Htotal Hruns); [|exact Er|done]. by split. }
    destruct (interrupted_graph (H := parallel_executor config pc clock start) value_lt config tids _ (follows_carried _ _ _ _)
      root e m Hint) as (c' & Hc' & Hg).
    rewrite Ec in Hc'. by injection Hc' as <-.
  - by exists g1, e1.
Qed.

Lemma reporting_run_ok h0 p (s : bool * F) p' (s' : bool * F) :
  pool_ok p → reported_ok h0 p s → rtc reporting_step (p, s) (p', s') →
  pool_ok p' ∧ reported_ok h0 p' s' ∧ rtc pool_step p p'.
Proof.
  intros Hp Hs Hrun. remember (p, s) as a eqn:Ea. remember (p', s') as b eqn:Eb. revert p s Ea Hp Hs.
  induction Hrun as [a|a [p1 s1] b Hstep _ IH]; intros p s -> Hp Hs.
  - by injection Eb as -> ->.
  - destruct (reporting_step_ok h0 p s p1 s1 Hp Hs Hstep) as (Hp1 & Hs1 & Hps).
    destruct (IH Eb p1 s1 eq_refl Hp1 Hs1) as (? & ? & ?). split_and!; [done..|]. by eapply rtc_l.
Qed.

(** Every run of the pool is one with a hook. *)
Lemma pool_run_reports p (s : bool * F) p' :
  rtc pool_step p p' → ∃ s' : bool * F, rtc reporting_step (p, s) (p', s').
Proof.
  intros Hrun. revert s. induction Hrun as [p|p p1 p' Hstep _ IH]; intros s; [by exists s|].
  destruct Hstep as [i chosen Hw|i Hw].
  - destruct (IH (report_worker value_lt config pc clock start tids torn (Some hook) p i s)) as [s' Hs'].
    exists s'. eapply rtc_l; [|done]. by econstructor.
  - destruct (IH s) as [s' Hs']. exists s'. eapply rtc_l; [|done]. by econstructor.
Qed.

End pool.
