(* ===== verification/SingleWorker.v ===== *)
(** * SingleWorker: a pool of one worker is the sequential engine

    With one worker and no progress observer, the executor of [verify_parallel] simulates
    the sequential one, and the pool goes through the phases of its only worker, which
    never waits.  So [verify_parallel] returns, and returns what [verify] returns. *)

From stdpp Require Import base tactics numbers relations sets list strings.
From S2P Require Import Prelude Errors Event Relation ExecutionGraph ExplorationGraph Porf.
From S2P Require Import Consistency Program Masked Dpor Revisit Explorer Parallel.
From S2P Require Import ExplorationFacts.
From S2P Require Import EngineFacts Termination ExecutorFacts PoolFacts PoolRule.

Section single.
Context {V O : Type} `{EqDecision V} (value_lt : V → V → bool) (config : DporConfig V O)
  (pc : PoolConfig) (clock : nat → Z) (start : Z) (tids : list ThreadId).
Hypothesis Hquiet : on_progress config = None.
Hypothesis Hone : pc_max_workers pc = 1.
Implicit Types (v : View V O) (p : Pool V O) (s : SequentialState O).

Abbreviation worker_step := (worker_step value_lt config pc clock start tids).
Abbreviation pool_step := (pool_step value_lt config pc clock start tids).
Abbreviation seq_step :=
  (run_step (H := sequential_executor config clock start) value_lt config tids).

(** ** The executors *)

(** The result that a view amounts to. *)
Definition view_result v : VerifyResult :=
  let c := view_counts v in
  MkVerifyResult (if stop_requested_ (vw_shared v) then Stopped else AllExplored) (total_count c)
    (cn_full c) (cn_blocked c) (cn_error c) (cn_depth_limit c) (cn_thread_event_limit c)
    (cn_max_depth c) (nd_splits_ (vw_shared v)) (receive_splits_ (vw_shared v)).

Record sim v s : Prop := {
  sim_observers : seq_observers s = sh_observers (vw_shared v);
  sim_result : seq_result s = view_result v;
  sim_cached : sync_steps pc ≠ 0 → cached_stop (vw_worker v) = stop_requested_ (vw_shared v);
}.

Lemma sim_stop v s :
  sim v s → answers sim (p_stop_requested pc v) (seq_stop_requested s).
Proof.
  intros [Ho Hr Hc]. unfold p_stop_requested, seq_stop_requested. rewrite Hr.
  assert (bool_decide (vr_kind (view_result v) = Stopped) = stop_requested_ (vw_shared v)) as Hk
    by (simpl; by destruct (stop_requested_ (vw_shared v))).
  rewrite Hk. repeat case_decide; (split; [simpl; auto|split; simpl; auto]).
Qed.

Lemma sim_publish g kind d v s :
  sim v s → ongoing (H := sequential_executor config clock start) s →
  res_rel (answers sim) (p_publish_terminal_execution config pc g kind d v)
    (seq_publish_terminal_execution config g kind d s).
Proof.
  intros Hsim [s0 Hs0]. simpl in Hs0. injection Hs0 as Hk ->. apply bool_decide_eq_false in Hk.
  assert (stop_requested_ (vw_shared v) = false) as Hs.
  { rewrite (sim_result _ _ Hsim) in Hk. simpl in Hk. by destruct (stop_requested_ (vw_shared v)). }
  unfold p_publish_terminal_execution, seq_publish_terminal_execution.
  assert (∃ v1, (if decide (sync_steps pc = 0) then (stop_requested_ (vw_shared v), v)
    else p_stop_requested pc v) = (false, v1) ∧ sim v1 s) as (v1 & -> & [Ho Hr Hc]).
  { case_decide; [by exists v; rewrite Hs|]. destruct (sim_stop v s Hsim) as [Hb Hv1].
    destruct (p_stop_requested pc v) as [b v1]. simpl in *. exists v1. split; [|done].
    rewrite Hb. by rewrite bool_decide_eq_false_2. }
  destruct (increment_counts config pc v1 kind d) as (_ & _ & Eo & Es & Ec).
  assert (let v2 := increment_local_terminal_counts config pc v1 kind d in
    nd_splits_ (vw_shared v2) = nd_splits_ (vw_shared v1) ∧
    receive_splits_ (vw_shared v2) = receive_splits_ (vw_shared v1) ∧
    cached_stop (vw_worker v2) = cached_stop (vw_worker v1)) as (En & Er & Eca)
    by (unfold increment_local_terminal_counts; rewrite Hquiet; done).
  set (v2 := increment_local_terminal_counts config pc v1 kind d) in *. rewrite Eo, Ho.
  apply res_rel_same. intros [a o] _. constructor. split; [done|]. simpl.
  assert (increment_terminal_counts (seq_result s) kind d = view_result v2) as Hr2.
  { rewrite Hr. unfold view_result. rewrite Ec, En, Er, Es. unfold increment_terminal_counts, count_one.
    destruct kind; simpl; f_equal; unfold total_count; simpl; lia. }
  destruct (decide (a = Stop)); split; simpl; try done; rewrite ?Hr2; try done.
  by rewrite Eca, Es.
Qed.

Lemma single_simulates :
  Simulates (HX := parallel_executor config pc clock start)
    (HY := sequential_executor config clock start) sim.
Proof.
  split; simpl.
  - intros v s. apply sim_stop.
  - intros v s Hsim. unfold p_maybe_report_progress, seq_maybe_report_progress. rewrite Hquiet.
    by constructor.
  - intros d v s Hsim. unfold p_can_spawn. rewrite decide_True by lia. done.
  - intros d v s Hsim. unfold p_should_split_to_idle_worker. rewrite decide_True by lia. done.
  - intros v s _ (task & s' & [=]).
  - intros v s _ (task & s' & [=]).
  - intros task v s Hsim. unfold p_try_enqueue. rewrite decide_True by lia. done.
  - intros g kind d v s. apply sim_publish.
Qed.

(** ** The pool *)

(** The sequential engine ends with [r] after [k] further iterations. *)
Inductive ends : nat → Explorer V (SequentialState O) → res (VerifyResult * O) → Prop :=
| ends_throw m e : seq_step m = Throw e → ends 0 m (Throw e)
| ends_done m m' : seq_step m = Ok (inr m') →
    ends 0 m (Ok (seq_result (executor m'), seq_observers (executor m')))
| ends_more k m m' r : seq_step m = Ok (inl m') → ends k m' r → ends (S k) m r.

Definition initial_task : ExplorationTask V := MkExplorationTask empty_exploration_graph 0 Visit.

(** The engine runs on the only task. *)
Definition taken (sh : Shared V O) : Prop :=
  task_queue_ sh = [] ∧ active_workers_ sh = 1 ∧ search_complete_ sh = false ∧
  first_exception_ sh = None.

Lemma taken_stable :
  Stable (H := parallel_executor config pc clock start) (λ v, taken (vw_shared v)).
Proof.
  assert (∀ v, taken (vw_shared v) → taken (vw_shared (p_stop_requested pc v).2)) as Hstop
    by (intros v Hv; unfold p_stop_requested; by repeat case_decide).
  split; simpl; try done.
  - intros v v' Hv. unfold p_maybe_report_progress. rewrite Hquiet. by intros [= <-].
  - intros d v Hv. unfold p_can_spawn. by rewrite decide_True by lia.
  - intros d v Hv. unfold p_should_split_to_idle_worker. by rewrite decide_True by lia.
  - intros t v Hv. unfold p_try_enqueue. by rewrite decide_True by lia.
  - intros g kind d v b v' Hv. unfold p_publish_terminal_execution.
    assert (taken (vw_shared (if decide (sync_steps pc = 0) then (stop_requested_ (vw_shared v), v)
      else p_stop_requested pc v).2)) as Hv1 by (case_decide; [done|auto]).
    destruct (if decide (sync_steps pc = 0) then _ else _) as [stop v1]. simpl in Hv1.
    destruct stop; [by intros [= _ <-]|]. intros Hrun. apply bind_Ok_inv in Hrun as ([a o] & _ & [= _ <-]).
    unfold increment_local_terminal_counts. rewrite Hquiet. by destruct (decide (a = Stop)).
Qed.

Section phases.
Context (r : res (VerifyResult * O)).

(** The outcome [r] is what the pool is going to report. *)
Definition reported v : Prop :=
  match first_exception_ (vw_shared v) with
  | Some e => r = Throw e
  | None => r = Ok (view_result v, sh_observers (vw_shared v))
  end.

Definition running (k : nat) (sh : Shared V O) (ws : WorkerState) g cs : Prop :=
  ∃ x, sim (view_of sh ws) x ∧ ends k (MkExplorer x g cs) r.

Definition fresh (k : nat) (sh : Shared V O) (ws : WorkerState) : Prop :=
  task_queue_ sh = [initial_task] ∧ active_workers_ sh = 0 ∧ search_complete_ sh = false ∧
  first_exception_ sh = None ∧ stop_requested_ sh = false ∧
  running k sh ws empty_exploration_graph [MkContext None [enter 0 Visit]].

Definition finished (sh : Shared V O) (ws : WorkerState) : Prop :=
  stop_requested_ sh || search_complete_ sh = true ∧ reported (view_of sh ws).

(** What is known in each phase; [n] is a bound on the steps that remain. *)
Definition phase_ok (n : nat) (sh : Shared V O) (ph : Phase V) (ws : WorkerState) : Prop :=
  match ph with
  | AtLock => (∃ k, n = k + 12 ∧ fresh k sh ws) ∨ n = 4 ∧ finished sh ws
  | Checking => (∃ k, n = k + 11 ∧ fresh k sh ws) ∨ n = 3 ∧ finished sh ws
  | Taking => (∃ k, n = k + 10 ∧ fresh k sh ws) ∨ n = 2 ∧ finished sh ws
  | Starting task => task = initial_task ∧ taken sh ∧ stop_requested_ sh = false ∧
      ∃ k, n = k + 9 ∧ running k sh ws empty_exploration_graph [MkContext None [enter 0 Visit]]
  | Working g cs => taken sh ∧ ∃ k, n = k + 8 ∧ running k sh ws g cs
  | Failed e => n = 7 ∧ taken sh ∧ r = Throw e
  | Finishing => n = 6 ∧ task_queue_ sh = [] ∧ active_workers_ sh = 1 ∧ reported (view_of sh ws) ∧
      (is_Some (first_exception_ sh) → stop_requested_ sh = true)
  | Notifying => n = 5 ∧ finished sh ws
  | Exited => n = 0 ∧ local_counts ws = no_counts ∧ reported (view_of sh ws)
  | Waiting | Parking | Parked | Woken => False
  end.

Definition single (n : nat) p : Prop :=
  ∃ ph ws, workers p = [MkWorker ph ws] ∧ phase_ok n (p_shared p) ph ws.

Lemma single_move n p w sh owner ph ws :
  workers p = [w] → phase_ok n sh ph ws → single n (move p 0 sh owner ph ws).
Proof. intros Hw Hph. exists ph, ws. split; [|done]. simpl. by rewrite Hw. Qed.

Lemma single_act n p w chosen v ph p' :
  workers p = [w] → act p 0 chosen v ph = Some p' → phase_ok n (vw_shared v) ph (vw_worker v) →
  single n p'.
Proof.
  intros Hw Hact Hph. assert (is_parked (MkWorker ph (vw_worker v)) = false) as Hnp by (by destruct ph).
  exists ph, (vw_worker v). unfold act in Hact. destruct (decide _); [done|].
  destruct (vw_notify_all v); [|destruct (valid_choice _ _ _); [|done]]; injection Hact as <-;
    (split; [|done]); simpl; rewrite Hw; unfold wake_chosen; simpl; unfold wake; rewrite Hnp;
    [done|by case_decide].
Qed.

(** The first steps. *)
Lemma fresh_ready k sh ws : fresh k sh ws → ready sh = true.
Proof. intros (Hq & _). unfold ready. rewrite Hq, orb_true_r. done. Qed.

Lemma finished_ready sh ws : finished sh ws → ready sh = true.
Proof. intros [He _]. unfold ready. by rewrite He. Qed.

Lemma taking_single n p chosen ws p' :
  workers p = [MkWorker Taking ws] → phase_ok n (p_shared p) Taking ws →
  worker_step p 0 chosen = Some p' → ∃ n', n' < n ∧ single n' p'.
Proof.
  intros Hw Hph Hstep. unfold Parallel.worker_step in Hstep. rewrite Hw in Hstep. simpl in Hstep.
  destruct Hph as [(k & -> & Hq & Ha & Hc & He & Hs & Hrun)|(-> & Hend & Hrep)].
  - rewrite Hs, Hc, Hq in Hstep. injection Hstep as <-. exists (k + 9). split; [lia|].
    eapply single_move; [done|]. simpl. split_and!; [done|split_and!; simpl; auto|done|].
    exists k. split; [done|]. destruct Hrun as (x & [Ho Hr Hca] & Hx). by exists x.
  - rewrite Hend in Hstep. injection Hstep as <-. exists 0. split; [lia|].
    eapply single_move; [done|]. simpl. split_and!; [done..|]. unfold reported in *. simpl in *.
    destruct (first_exception_ (p_shared p)); [done|]. rewrite Hrep. unfold view_result.
    by rewrite <-(sa_counts _ _ (flush_same (view_of (p_shared p) ws))).
Qed.

Lemma working_single n p chosen g cs ws p' :
  workers p = [MkWorker (Working g cs) ws] → phase_ok n (p_shared p) (Working g cs) ws →
  worker_step p 0 chosen = Some p' → ∃ n', n' < n ∧ single n' p'.
Proof.
  intros Hw (Ht & k & -> & x & Hsim & Hends) Hstep.
  unfold Parallel.worker_step in Hstep. rewrite Hw in Hstep. simpl in Hstep.
  pose proof (run_step_simulates (HX := parallel_executor config pc clock start)
    (HY := sequential_executor config clock start) value_lt config tids sim single_simulates
    (MkExplorer (view_of (p_shared p) ws) g cs) (MkExplorer x g cs) ltac:(by split)) as Hrel.
  destruct (run_step _ _ _ (MkExplorer (view_of _ _) g cs)) as [a|e] eqn:Hrun.
  2:{ injection Hstep as <-. inversion Hrel as [|e' He' Hx]. exists 7. split; [lia|].
      eapply single_move; [done|]. split_and!; [done|done|]. by inversion Hends; congruence. }
  pose proof (run_step_stable (H := parallel_executor config pc clock start) value_lt config tids _
    taken_stable (MkExplorer (view_of (p_shared p) ws) g cs) a Ht Hrun) as Ht'.
  inversion Hrel as [a' b Hab Ha Hb|]; subst a'.
  destruct a as [m|m], b as [m'|m']; try done; destruct Hab as [Hm Hg Hc].
  - inversion Hends as [? e He|? m2 He|k' ? m2 r' He Hk']; subst; try congruence.
    exists (k' + 8). split; [lia|]. eapply single_act; [done|done|]. split; [done|].
    exists k'. split; [done|]. exists (executor m'). rewrite Hg, Hc.
    assert (m2 = m') as -> by congruence. split; [|by destruct m'].
    destruct Hm as [Ho Hr Hca]. by split.
  - inversion Hends as [? e He|? m2 He Hk Hm2 Hr|k' ? m2 r' He Hk']; subst; try congruence.
    exists 6. split; [lia|]. eapply single_act; [done|done|].
    destruct Ht' as (Hq & Ha' & _ & Hex). split_and!; [done..| |by rewrite Hex; intros [? ?]].
    assert (m2 = m') as -> by congruence. unfold reported. simpl. rewrite Hex.
    rewrite <-Hr. by rewrite (sim_result _ _ Hm), (sim_observers _ _ Hm).
Qed.

Lemma finishing_single n p chosen ws p' :
  workers p = [MkWorker Finishing ws] → phase_ok n (p_shared p) Finishing ws →
  worker_step p 0 chosen = Some p' → ∃ n', n' < n ∧ single n' p'.
Proof.
  intros Hw (-> & Hq & Ha & Hrep & Hex) Hstep. unfold Parallel.worker_step in Hstep.
  rewrite Hw in Hstep. simpl in Hstep. destruct (lock_owner p); [done|].
  destruct (decide _) as [[Hs _]|Hno]; injection Hstep as <-.
  - exists 5. split; [lia|]. eapply single_move; [done|]. split; [done|].
    split; [simpl; by rewrite orb_true_r|done].
  - exists 4. split; [lia|]. eapply single_move; [done|]. right. split; [done|]. split; [|done]. simpl.
    destruct (stop_requested_ (p_shared p)); [done|]. destruct Hno. split_and!; [done|done|lia].
Qed.

Lemma single_step n p i chosen p' :
  single n p → worker_step p i chosen = Some p' → ∃ n', n' < n ∧ single n' p'.
Proof.
  intros (ph & ws & Hw & Hph) Hstep. destruct i as [|i].
  2:{ unfold Parallel.worker_step in Hstep. by rewrite Hw in Hstep. }
  destruct ph as [ | | | | | | |task|g cs|e| | | ]; try done;
    try (by eapply taking_single); try (by eapply working_single); try (by eapply finishing_single);
    unfold Parallel.worker_step in Hstep; rewrite Hw in Hstep; simpl in Hstep; try done.
  - destruct (lock_owner p); [done|]. injection Hstep as <-.
    destruct Hph as [(k & -> & Hf)|[-> Hf]]; [exists (k + 11)|exists 3]; (split; [lia|]);
      (eapply single_move; [done|]); simpl; eauto.
  - injection Hstep as <-. destruct Hph as [(k & -> & Hf)|[-> Hf]];
      [rewrite (fresh_ready _ _ _ Hf); exists (k + 10)|rewrite (finished_ready _ _ Hf); exists 2];
      (split; [lia|]); (eapply single_move; [done|]); simpl; eauto.
  - destruct Hph as (-> & Ht & Hs & k & -> & x & Hsim & Hends).
    destruct (sim_stop _ _ Hsim) as [Hb Hv].
    assert (taken (vw_shared (p_stop_requested pc (view_of (p_shared p) ws)).2)) as Ht'
      by (by apply (st_stop _ taken_stable)).
    destruct (p_stop_requested pc _) as [stop v]. simpl in *. subst stop.
    rewrite (sim_result _ _ Hsim) in Hstep. simpl in Hstep. rewrite Hs in Hstep. simpl in Hstep.
    exists (k + 8). split; [lia|]. eapply single_act; [done|done|]. split; [done|].
    exists k. split; [done|]. exists x. split; [|done]. destruct Hv. by split.
  - destruct Hph as (-> & (Hq & Ha & Hc & He) & Hr). exists 6. split; [lia|].
    eapply single_act; [done|done|]. split_and!; try done. unfold reported. simpl. by rewrite He.
  - destruct Hph as (-> & Hf). exists 4. split; [lia|]. eapply single_act; [done|done|]. right. done.
Qed.

Lemma single_pool_step n p p' : single n p → pool_step p p' → ∃ n', n' < n ∧ single n' p'.
Proof.
  intros Hs [i chosen Hstep|i Hstep]; [by eapply single_step|].
  destruct Hs as (ph & ws & Hw & Hph). unfold spurious_wake in Hstep. rewrite Hw in Hstep.
  destruct i as [|i]; [|done]. simpl in Hstep. by destruct ph.
Qed.

(** Every run keeps the invariant. *)
Lemma single_run n p p' : single n p → rtc pool_step p p' → ∃ n', single n' p'.
Proof.
  intros Hs Hr. revert n Hs. induction Hr as [p|p p1 p2 Hstep _ IH]; intros n Hs; [by exists n|].
  destruct (single_pool_step n p p1 Hs Hstep) as (n' & _ & Hs'). by eapply IH.
Qed.

(** The worker leaves its loop: the pool cannot get stuck before. *)
Lemma single_exits n p :
  orderly p → single n p → ∃ p', rtc pool_step p p' ∧ forallb is_exited (workers p') = true.
Proof.
  revert p. induction n as [n IH] using lt_wf_ind. intros p Ho Hs.
  assert ((∃ i chosen p', worker_step p i chosen = Some p') ∨ forallb is_exited (workers p) = true)
    as [(i & chosen & p' & Hstep)|Hexit]; [| |by exists p].
  - destruct Hs as (ph & ws & Hw & Hph). pose proof Ho as [Hp _].
    assert (workers p !! 0 = Some (MkWorker ph ws)) as Hi by (by rewrite Hw).
    destruct (lock_owner p) as [i|] eqn:Hl.
    { left. destruct (holder_enabled value_lt config pc clock start tids p i Hp Hl) as [p' Hp']. eauto. }
    destruct (holds_lock ph) eqn:Hh.
    { apply (pr_lock _ Hp 0 _ Hi) in Hh. congruence. }
    destruct ph; try done;
      try (left; edestruct (free_enabled value_lt config pc clock start tids p 0) as (ch & p' & Hp');
           [done|done|done|done|done|eauto]).
    right. by rewrite Hw.
  - destruct (single_step n p i chosen p' Hs Hstep) as (n' & Hlt & Hs').
    destruct (IH n' Hlt p') as (p2 & Hr & Hx); [by eapply worker_step_orderly|done|].
    exists p2. split; [|done]. eapply rtc_l; [|done]. by eapply step_worker.
Qed.

(** What the pool reports when its worker has left. *)
Lemma single_finish n p w :
  single n p → forallb is_exited (workers p) = true → workers p !! 0 = Some w →
  finish_pool config pc clock start (p_shared p) (w_state w) = r.
Proof.
  intros (ph & ws & Hw & Hph) Hexit Hw0. rewrite Hw in Hexit, Hw0. simpl in Hexit. injection Hw0 as <-.
  destruct ph; try done. destruct Hph as (_ & Hl & Hrep). unfold finish_pool. rewrite Hquiet.
  unfold reported in Hrep. simpl in Hrep. destruct (first_exception_ (p_shared p)); [done|].
  rewrite Hrep. unfold view_result.
  assert (view_counts (view_of (p_shared p) ws) = sh_counts (p_shared p)) as ->; [|done].
  unfold view_counts. simpl. by rewrite Hl, (right_id_L no_counts add_counts).
Qed.

End phases.

(** ** The sequential run *)

Lemma halts_ends m :
  halts (H := sequential_executor config clock start) value_lt config tids m → ∃ k r, ends k m r.
Proof.
  induction 1 as [m _ IH]. destruct (seq_step m) as [[m'|m']|e] eqn:Hstep.
  - destruct (IH m' eq_refl) as (k & r & Hk). exists (S k), r. by eapply ends_more.
  - eexists 0, _. by apply ends_done.
  - eexists 0, _. by apply ends_throw.
Qed.

Lemma ends_loop k m r :
  ends k m r → ∀ fuel, k < fuel →
  (m' ← run_loop (H := sequential_executor config clock start) value_lt config tids fuel m;
   Ok (seq_result (executor m'), seq_observers (executor m'))) = r.
Proof.
  clear Hone. unfold run_loop. induction 1 as [m e He|m m' He|k m m' r He _ IH]; intros [|fuel] Hlt; try lia;
    rewrite while_S, He; try done. apply IH. lia.
Qed.

Lemma initial_single o k r :
  ends k (MkExplorer (new_sequential_state config start new_result o 1) empty_exploration_graph
            [MkContext None [enter 0 Visit]]) r →
  single r (k + 12) (initial_pool config pc start o).
Proof.
  intros Hends. exists AtLock, new_worker. split; [simpl; by rewrite Hone|]. left. exists k.
  split; [done|]. split_and!; try done. eexists. split; [|done]. done.
Qed.

End single.
