(* ===== verification/Samples.v ===== *)
(** * Samples: small programs and graphs

    Concrete inputs for the theorems: a program of two senders and one receiver, a
    recording configuration for it, and graphs built with the operations of the model.
    They show that the hypotheses of the theorems hold of real inputs. *)

From stdpp Require Import base tactics numbers relations sets list strings.
From S2P Require Import Prelude Errors Event Relation ExecutionGraph ExplorationGraph Porf.
From S2P Require Import Consistency Program Masked Dpor Revisit Explorer Parallel.
From S2P Require Import ExecutionGraphFacts.
From S2P Require Import ExplorationFacts PorfClocks Consistency ConsistencyFacts FifoFacts.
From S2P Require Import SoundFacts NextEvent.

(** ** Programs *)

(** Receives any value. *)
Definition receive_any (md : ReceiveMode) : EventLabel nat :=
  LReceive (MkReceiveLabel md (λ _, Ok true)).

Definition send_to (tid : ThreadId) (v : nat) : EventLabel nat := LSend (MkSendLabel tid v).

(** A thread that returns the labels of a list, whatever it has observed. *)
Definition script (ls : list (EventLabel nat)) : ThreadFunctionT nat := λ _ step, Ok (ls !! step).

Definition two_senders : Program nat :=
  MkProgram (tm_of_list [(0%N, script [send_to 2 7]); (1%N, script [send_to 2 8]);
                         (2%N, script [receive_any Blocking])]).

(** An observer that keeps every terminal execution and answers as [stop] says. *)
Definition recording {V} (stop : list (TerminalExecution V) → TerminalExecution V →
    TerminalExecutionAction) : TerminalExecutionObserver V (list (TerminalExecution V)) :=
  λ log e, Ok (stop log e, log ++ [e]).

Definition recording_config {V} (p : Program V) (depth bound : nat) (model : CommunicationModel)
    (stop : list (TerminalExecution V) → TerminalExecution V → TerminalExecutionAction)
    : DporConfig V (list (TerminalExecution V)) :=
  MkDporConfig p depth bound model (Some (recording stop)) None 0%Z None.

Definition sample_config : DporConfig nat (list (TerminalExecution nat)) :=
  recording_config two_senders 20 3 FifoP2P (λ _ _, Continue).

Definition sample_run : VerifyResult * list (TerminalExecution nat) :=
  match verify Nat.ltb (λ _, 0%Z) sample_config [] 100 with
  | Ok r => r
  | Throw _ => (new_result, [])
  end.

Lemma sample_run_Ok : verify Nat.ltb (λ _, 0%Z) sample_config [] 100 = Ok sample_run.
Proof. vm_compute. reflexivity. Qed.

Lemma script_total ls trace step l :
  (∀ l, l ∈ ls → total_label l) → script ls trace step = Ok (Some l) → total_label l.
Proof. intros Hls [= Hl]. apply Hls. by eapply list_elem_of_lookup_2. Qed.

Lemma two_senders_total : total_program two_senders.
Proof.
  intros tid f trace step l Hf Hl.
  assert (∃ ls, f = script ls ∧ ∀ l, l ∈ ls → total_label l) as (ls & -> & Hls).
  { unfold tm_at, two_senders in Hf. simpl in Hf.
    destruct (N.to_nat tid) as [|[|[|n]]]; simpl in Hf; try done; injection Hf as <-;
      eexists; (split; [reflexivity|]); intros l' ->%list_elem_of_singleton; simpl; done || eauto. }
  by eapply script_total.
Qed.

(** ** Pools *)

Section drive.
Context {V O : Type} `{EqDecision V} (value_lt : V → V → bool) (config : DporConfig V O)
  (pc : PoolConfig) (clock : nat → Z) (start : Z) (tids : list ThreadId).

Abbreviation worker_step := (worker_step value_lt config pc clock start tids).
Abbreviation pool_step := (pool_step value_lt config pc clock start tids).

(** The step of worker [i] when it can move; the first parked worker gets a notification. *)
Definition try_step (p : Pool V O) (i : nat) : Pool V O :=
  let parked := List.filter (λ j, match workers p !! j with Some w => is_parked w | None => false end)
                  (seq 0 (length (workers p))) in
  match worker_step p i [] with
  | Some p' => p'
  | None => match worker_step p i (take 1 parked) with Some p' => p' | None => p end
  end.

(** The run of a schedule: the workers named move in turn, those that have to wait do not. *)
Definition drive (schedule : list nat) (p : Pool V O) : Pool V O := foldl try_step p schedule.

Lemma drive_reachable schedule p : rtc pool_step p (drive schedule p).
Proof.
  revert p. induction schedule as [|i schedule IH]; intros p; [apply rtc_refl|].
  assert (rtc pool_step p (try_step p i)) as Hi.
  { unfold try_step. destruct (worker_step p i []) eqn:E; [by eapply rtc_once, step_worker|].
    destruct (worker_step p i (take 1 _)) eqn:E'; [by eapply rtc_once, step_worker|apply rtc_refl]. }
  etransitivity; [exact Hi|]. apply IH.
Qed.

End drive.

Definition two_workers : ParallelVerifyOptions := MkOptions 2 0 0 0 1 1024 64.

(** Two workers, in turn, explore the two senders. *)
Definition sample_pool : Pool nat (list (TerminalExecution nat)) :=
  drive Nat.ltb sample_config (resolve_options two_workers 8) (λ _, 0%Z) 0%Z [0; 1; 2]%N
    (concat (replicate 200 [0; 1]))
    (initial_pool sample_config (resolve_options two_workers 8) 0%Z []).

Lemma sample_pool_reachable :
  rtc (pool_step Nat.ltb sample_config (resolve_options two_workers 8) (λ _, 0%Z) 0%Z [0; 1; 2]%N)
    (initial_pool sample_config (resolve_options two_workers 8) 0%Z []) sample_pool.
Proof. apply drive_reachable. Qed.

Lemma sample_pool_exited :
  forallb is_exited (workers sample_pool) = true ∧
  workers sample_pool !! 0 = Some (MkWorker Exited new_worker).
Proof. split; vm_compute; reflexivity. Qed.
