(* ===== verification/GraphTheorems.v ===== *)
(** * GraphTheorems: what the graphs guarantee

    The theorems about [ExecutionGraphT] and [ExplorationGraphT]: appending events,
    reads-from assignments, the caches behind the queries, rollback, restriction, and the
    storage the graphs are built on. *)

From stdpp Require Import base tactics numbers relations sets list strings.
From S2P Require Import Prelude Errors Event Relation ExecutionGraph ExplorationGraph Porf.
From S2P Require Import StorageFacts ExecutionGraphFacts ExplorationFacts Rollback Queries.
From S2P Require Import PorfFacts PorfClocks RestrictFacts SoundFacts BuiltFacts Samples.

(** ** Sample graphs *)

Definition ok_or {A} (d : A) (r : res A) : A := match r with Ok a => a | Throw _ => d end.

(** Thread 0 has sent 7 to thread 1. *)
Definition sent : ExplorationGraph nat :=
  snd (ok_or (0, empty_exploration_graph) (add_event empty_exploration_graph 0%N (send_to 1 7))).

(** Thread 1 has a receive with no source yet. *)
Definition received : ExplorationGraph nat :=
  snd (ok_or (0, empty_exploration_graph) (add_event sent 1%N (receive_any Blocking))).

(** The receive reads from the send. *)
Definition read : ExplorationGraph nat :=
  ok_or empty_exploration_graph (set_reads_from received 1 0).

Lemma sent_Inv : Inv sent.
Proof. apply (add_event_Inv empty_exploration_graph 0%N (send_to 1 7) 0); [apply empty_Inv|done|reflexivity]. Qed.

Lemma received_Inv : Inv received.
Proof. apply (add_event_Inv sent 1%N (receive_any Blocking) 1); [apply sent_Inv|done|reflexivity]. Qed.

Lemma read_Inv : Inv read.
Proof.
  apply (set_reads_from_source_Inv received 1 (from_send 0)); [apply received_Inv|..|reflexivity].
  - apply Nat.ltb_lt. vm_compute. reflexivity.
  - intros id [= <-]. simpl. lia.
Qed.

(** ** The invariant *)

Section graphs.
Context {V : Type}.
Implicit Types (g : ExplorationGraph V).

(** C18: the invariant of [ExplorationGraphT] holds of every graph built from the empty one
    with its public operations (insertions, reads-from assignments, queries that fill the
    cache, rollback to an earlier checkpoint, copies, restrictions, rewritten reads-from
    entries and choice values, the marking as acyclic), provided that reads-from
    assignments name events of the graph and that callers who vouch for acyclicity
    ([mark_known_acyclic], the rewrites that preserve the flag to a send) are right.  The
    per-thread sequences are dense, reads-from entries refer to events, every cache (thread
    states, thread and receive ids, send ids, reader counts, unread mask) agrees with the
    events and reads-from entries, the undo log matches the events, and a graph flagged
    acyclic is acyclic. *)
Theorem built_graphs_keep_invariant g : built g → Inv g.
Proof.
  assert (∀ a b c, a && b && c = true → a = true) as Hflag by (by intros [] [] []).
  induction 1 as [|g g' _ IH He|g g' g'' _ IH He Hr|g _ IH|g keep r _ IH Hr|g mask r _ IH Hr|g recv send r _ IH Hv Hs Hr
    |g recv source r _ IH Hv Hs Hr|g recv send r _ IH Hv Hs Hr Hac|g recv r _ IH Hv Hr|g recv send b r _ IH Hv Hs Hr Hac
    |g recv send r _ IH Hv Hs Hr Hac|g id v r _ IH Hr].
  - apply empty_Inv.
  - by eapply edits_Inv.
  - by eapply rollback_Inv.
  - by apply copy_Inv.
  - exact (restrict_Inv _ _ _ IH Hr).
  - by eapply restrict_Inv.
  - unfold with_rf in Hr. by eapply (copy_with_rf_source_Inv g recv (from_send send)); [| |intros id [= <-]|..].
  - unfold with_rf_source in Hr. by eapply (copy_with_rf_source_Inv g recv source).
  - unfold with_rf_preserving_known_acyclicity in Hr.
    eapply (copy_with_rf_source_Inv g recv (from_send send)); [done|done|by intros id [= <-]|done|].
    intros Hk. by apply Hac, (Hflag _ _ _ Hk).
  - by eapply with_bottom_rf_Inv.
  - exact (rebind_rf_Inv g recv send b r IH Hv Hs Hr Hac).
  - unfold rebind_rf_preserving_known_acyclicity in Hr.
    apply (rebind_rf_Inv g recv send _ r IH Hv Hs Hr). intros Hk. by apply Hac, (Hflag _ _ _ Hk).
  - by eapply with_nd_value_Inv.
Qed.

(** C17: rolling back to a checkpoint restores the graph it was taken of, whatever events
    were appended and reads-from entries assigned since; the call cannot fail. *)
Theorem rollback_restores g g' :
  Inv g → rtc mutates g g' →
  ∃ g'', rollback g' (checkpoint g) = Ok g'' ∧ g'' ≡ g ∧ Inv g'' ∧ porf_cache_ g'' = None.
Proof. intros Hg Hm. by apply rollback_since, since_rtc. Qed.

(** [add_event] appends one event with the next id and the next index of its thread
    and changes nothing else of the execution; it throws exactly when the thread id is too
    large or the thread has used every index. *)
Theorem add_event_outcome g t l :
  Inv g →
  let k := N.of_nat (length (thread_ids (events g) t)) in
  match add_event g t l with
  | Ok (id, g') => id = event_count g ∧ Inv g' ∧ (t ≤ kMaxThreadId)%N ∧
      events g' = events g ++ [MkEvent t k l] ∧ reads_from g' = reads_from g
  | Throw e =>
      ((kMaxThreadId < t)%N ∧
         e = precondition_error "thread id exceeds the maximum supported thread id") ∨
      ((kMaxIndex < k)%N ∧ e = no_available_index)
  end.
Proof.
  intros Hg k. destruct (decide (t ≤ kMaxThreadId)%N) as [Ht|Ht].
  - pose proof (core_add_event g t l (inv_core _ Hg) Ht) as Hspec.
    destruct (add_event g t l) as [[id g']|e] eqn:Hadd.
    + destruct Hspec as (-> & _ & _ & He & Hr & _). split_and!; try done.
      by eapply add_event_Inv.
    + right. by destruct Hspec as [-> ?].
  - assert (kMaxThreadId < t)%N as Hlt by lia. unfold add_event.
    rewrite add_event_bad_thread; [by left|apply Hg|done].
Qed.

(** The unread-send caches are exact: the sends reported as unread are the sends that
    no reads-from entry names, in id order, as a recomputation from the execution graph
    finds them; and [any_unread_send] searches the same list. *)
Theorem unread_sends_exact g p :
  Inv g →
  unread_send_event_ids g = ExecutionGraph.unread_send_event_ids (graph_ g) ∧
  (∀ id, id ∈ unread_send_event_ids g ↔
     (∃ e, events g !! id = Some e ∧ is_send e = true) ∧ ∀ r, ¬ rf_edge (reads_from g) id r) ∧
  any_unread_send g p = existsM p (unread_send_event_ids g).
Proof.
  intros [Hcore _ _]. split_and!.
  - by apply unread_send_event_ids_eq.
  - intros id. by apply unread_send_event_ids_elem.
  - by apply any_unread_send_eq.
Qed.

(** The per-thread queries are exact: the number of events of a thread, its last
    event, whether that event is a block or an error, and whether some thread is blocked. *)
Theorem thread_queries_exact g t :
  Inv g →
  thread_event_count g t = length (thread_ids (events g) t) ∧
  last_event_id g t = last (thread_ids (events g) t) ∧
  thread_is_terminated g t =
    Ok (match thread_tail (events g) t with Some e => is_block e || is_error e | None => false end) ∧
  ∃ b, has_blocked_thread g = Ok b ∧ (b = true ↔ ∃ t', blocked (events g) t').
Proof.
  intros [Hcore _ _]. split_and!.
  - by apply thread_event_count_eq.
  - by apply last_event_id_eq.
  - by apply thread_is_terminated_eq.
  - by apply has_blocked_thread_eq.
Qed.

(** [thread_trace_into] writes the observations of the thread, in program order, no
    matter what the reused buffer held. *)
Theorem thread_trace_ignores_buffer `{EqDecision V} g t buffer :
  Inv g → thread_trace_into g t buffer = Ok (trace_of (events g) (reads_from g) t) ∧
  thread_trace g t = Ok (trace_of (events g) (reads_from g) t).
Proof. intros [Hcore _ _]. split; by apply thread_trace_into_eq. Qed.

(** C28: restricting to a mask succeeds and yields exactly the kept events, renumbered in
    order, with the reads-from entries whose two ends are kept; it forgets the history and
    keeps the acyclicity flag. *)
Theorem restriction_exact g (mask : list bool) :
  Inv g → length mask = event_count g →
  ∃ r, restrict_from_keep_mask g mask = Ok r ∧ Inv r ∧
    Forall2 (λ old e', ∃ e, events g !! old = Some e ∧ thread e' = thread e ∧ label e' = label e)
      (kept_ids mask) (events r) ∧
    (∀ new s, rf_find (reads_from r) new = Some s ↔
       ∃ old s0, kept_ids mask !! new = Some old ∧ rf_find (reads_from g) old = Some s0 ∧
         remap_source mask s0 = Some s) ∧
    known_acyclic_ r = known_acyclic_ g ∧ event_undo_log_ r = [] ∧ rf_undo_log_ r = [].
Proof.
  intros Hg Hl. destruct (restrict_Ok g mask Hg Hl) as (r & Hr & [Hinv Hev Hrf Hk He Hl' _]).
  by exists r.
Qed.

End graphs.

(** The receive is marked by a caller who knows the graph is acyclic, then reads nothing. *)
Lemma built_graphs_keep_invariant_witness :
  ∃ g, with_bottom_rf (mark_known_acyclic read) 1 = Ok g ∧ known_acyclic_ g = true ∧ Inv g.
Proof.
  eexists. split; [reflexivity|]. split; [reflexivity|].
  apply built_graphs_keep_invariant, (built_with_bottom_rf (mark_known_acyclic read) 1);
    [|apply Nat.ltb_lt; vm_compute; reflexivity|reflexivity].
  apply (built_edit read); [|apply edit_mark, (fl_acyclic _ (inv_flags _ read_Inv)); reflexivity].
  apply (built_edit received); [|apply edit_mutates, (mutate_rf _ 1 (from_send 0));
    [|intros id [= <-]|reflexivity]; unfold event_count; simpl; lia].
  apply (built_edit sent); [apply (built_edit empty_exploration_graph); [constructor|]|]; apply edit_mutates.
  - apply (mutate_add _ 0%N (send_to 1 7) 0). reflexivity.
  - apply (mutate_add _ 1%N (receive_any Blocking) 1). reflexivity.
Defined.

Lemma rollback_restores_witness :
  ∃ g, rollback read (checkpoint sent) = Ok g ∧ events g = events sent.
Proof.
  destruct (rollback_restores sent read) as (g & Hg & Heq & _).
  - exact sent_Inv.
  - apply (rtc_l _ _ received); [|apply rtc_once].
    + apply (mutate_add _ 1%N (receive_any Blocking) 1). reflexivity.
    + apply (mutate_rf _ 1 (from_send 0)); [|intros id [= <-]|reflexivity];
        unfold event_count; simpl; lia.
  - exists g. split; [exact Hg|]. vm_compute in Hg. injection Hg as <-. reflexivity.
Defined.

Lemma add_event_outcome_witness :
  match add_event sent 1%N (receive_any Blocking) with
  | Ok (id, g') => id = 1 ∧ length (events g') = 2
  | Throw _ => False
  end.
Proof.
  pose proof (add_event_outcome sent 1%N (receive_any Blocking) sent_Inv) as H. cbv zeta in H.
  assert (is_Ok (add_event sent 1%N (receive_any Blocking)) = true) as E by reflexivity.
  destruct (add_event sent 1%N (receive_any Blocking)) as [[id g']|e]; [|discriminate E].
  destruct H as (Hid & _ & _ & Hev & _). rewrite Hid, Hev. split; reflexivity.
Defined.

Lemma unread_sends_exact_witness : unread_send_event_ids received = [0].
Proof.
  destruct (unread_sends_exact received (λ _, Ok true) received_Inv) as [-> _]. reflexivity.
Defined.

Lemma thread_queries_exact_witness :
  thread_event_count read 1 = 1 ∧ last_event_id read 1 = Some 1.
Proof.
  destruct (thread_queries_exact read 1%N read_Inv) as (-> & -> & _). split; reflexivity.
Defined.

Lemma thread_trace_ignores_buffer_witness :
  thread_trace_into read 1 [BottomValue; BottomValue] = Ok [Observed 7].
Proof.
  destruct (thread_trace_ignores_buffer read 1%N [BottomValue; BottomValue] read_Inv) as [-> _].
  reflexivity.
Defined.

Lemma restriction_exact_witness :
  ∃ r, restrict_from_keep_mask read [false; true] = Ok r ∧ rf_find (reads_from r) 0 = None.
Proof.
  destruct (restriction_exact read [false; true] read_Inv eq_refl) as (r & Hr & _ & _ & Hrf & _).
  exists r. split; [exact Hr|]. destruct (rf_find (reads_from r) 0) as [s|] eqn:E; [|reflexivity].
  apply Hrf in E as (old & s0 & Hk & Hf & Hs). vm_compute in Hk. injection Hk as <-.
  vm_compute in Hf. injection Hf as <-. vm_compute in Hs. discriminate Hs.
Defined.
