(* ===== verification/CheckerTheorems.v ===== *)
(** * CheckerTheorems: causality and consistency

    The theorems about the causal order of an exploration graph, the cycle tests, and the
    consistency checkers. *)

From stdpp Require Import base tactics numbers relations sets list strings.
From S2P Require Import Prelude Errors Event Relation ExecutionGraph ExplorationGraph Porf.
From S2P Require Import Consistency RelationFacts StorageFacts ExecutionGraphFacts.
From S2P Require Import ExplorationFacts Queries PorfFacts PorfClocks DerivedOrder CycleSearch.
From S2P Require Import ConsistencyFacts CheckerFacts FifoFacts SoundFacts Samples.
From S2P Require Import GraphTheorems.

Section causality.
Context {V : Type}.
Implicit Types (g : ExplorationGraph V).

(** C27: on a graph whose reads-from entries join sends to receives, [porf_contains]
    answers membership in the transitive closure of program order and reads-from when that
    order is acyclic, throws when it is cyclic, and throws on ids that are not events; the
    only thing it changes is the clock cache. *)
Theorem porf_contains_exact g from to :
  Inv g → cache_ok g → rf_typed (events g) (reads_from g) →
  match porf_contains g from to with
  | Ok (b, g') => from < event_count g ∧ to < event_count g ∧
      acyclic (porf (events g) (reads_from g)) ∧ cache_ok g' ∧
      (∃ c, g' = set_cache g (Some c)) ∧
      (b = true ↔ tc (porf (events g) (reads_from g)) from to)
  | Throw e =>
      (event_count g ≤ from ∨ event_count g ≤ to) ∧
        e = precondition_error "event id not found in exploration graph" ∨
      ¬ acyclic (porf (events g) (reads_from g)) ∧
        e = precondition_error "porf_contains called on a graph with a causal cycle"
  end.
Proof.
  intros [Hcore _ _] Hc Ht.
  destruct (decide (event_count g ≤ from ∨ event_count g ≤ to)) as [Hid|Hid].
  { rewrite porf_contains_unknown by done. by left. }
  destruct (has_causal_cycle_Ok g Hcore Hc Ht) as (b & c & _ & _ & Hb). destruct b.
  - assert (¬ acyclic (porf (events g) (reads_from g))) as Hcyc by (intros ?%Hb; done).
    rewrite porf_contains_cyclic by (done || lia). by right.
  - destruct (porf_contains_Ok g from to) as (b' & c' & -> & Hbuild & Hiff);
      [done|done|done|by apply Hb|lia|lia|].
    split_and!; [lia|lia|by apply Hb| |by eexists|done].
    intros c0 [= <-]. exact Hbuild.
Qed.

(** The two cycle tests agree with each other and with the definition: the one that
    builds the clock cache and the one that only counts a topological order. *)
Theorem cycle_tests_agree g :
  Inv g → cache_ok g → rf_typed (events g) (reads_from g) →
  ∃ b, has_causal_cycle_without_cache g = Ok b ∧ fst <$> Porf.has_causal_cycle g = Ok b ∧
    (b = false ↔ acyclic (porf (events g) (reads_from g))).
Proof.
  intros [Hcore _ _] Hc Ht.
  destruct (has_causal_cycle_without_cache_Ok g Hcore Ht) as (b & Hb & Hiff).
  destruct (has_causal_cycle_Ok g Hcore Hc Ht) as (b' & c & Hb' & _ & Hiff').
  exists b. split_and!; [done| |done]. rewrite Hb'. simpl. f_equal.
  destruct b, b'; try done; [by symmetry; apply Hiff, Hiff'|by apply Hiff', Hiff].
Qed.

(** Kahn's algorithm over the compressed adjacency: the order it returns lists
    distinct events, each after all its causal predecessors, and it lists every event
    exactly when the causal order is acyclic. *)
Theorem topological_order_correct g :
  Inv g → rf_typed (events g) (reads_from g) →
  ∃ b topo, build_porf_adjacency_and_order g = Ok (b, topo) ∧
    (b = true ↔ acyclic (porf (events g) (reads_from g))) ∧
    NoDup topo ∧ (∀ v, v ∈ topo → v < event_count g) ∧ topo_sorted (all_edges g) topo ∧
    (b = true → length topo = event_count g).
Proof. intros [Hcore _ _]. by apply build_porf_adjacency_and_order_Ok. Qed.

(** C20: [check] on an execution graph decides consistency: it returns an issue list that
    is empty exactly when every reads-from entry joins a receive to a send it may read,
    no send is read twice, every receive that must read does, the causal order is acyclic
    and, under [FifoP2P], messages on a channel are received in the order they were sent. *)
Theorem check_execution_decides (x : ExecutionGraph V) model tolerance :
  graph_wf x → total_events (events_ x) →
  ∃ issues, check_execution_graph x model tolerance = Ok issues ∧
    (issues = [] ↔ consistent model (events_ x) (reads_from_ x) tolerance).
Proof. apply check_execution_graph_spec. Qed.

(** C19: the checker of exploration graphs, which uses the acyclicity flag and the cached
    order where it can, returns the issues the checker of execution graphs returns. *)
Theorem checkers_agree g model tolerance :
  Inv g → cache_ok g →
  fst <$> check_exploration_graph g model tolerance =
    check_execution_graph (graph_ g) model tolerance.
Proof. apply check_exploration_graph_agrees. Qed.

(** Appending an event that is not a receive keeps a consistent execution
    consistent, under both communication models: what lets the engine visit such children
    without checking them. *)
Theorem fresh_event_keeps_consistency g model t l id g' :
  Inv g → consistent model (events g) (reads_from g) no_missing_reads_tolerance →
  is_receive (MkEvent t 0 l) = false → add_event g t l = Ok (id, g') →
  consistent model (events g') (reads_from g') no_missing_reads_tolerance.
Proof.
  intros Hg Hc Hr Hadd.
  destruct (add_event_inv g t l id g' Hg Hadd) as (_ & _ & _ & Hrf & _ & i & Hev).
  rewrite Hrf, Hev. apply consistent_snoc; [apply Hg|done|done].
Qed.

End causality.

(** ** The sample graph *)

Lemma read_total : total_events (events read).
Proof.
  assert (events read = [MkEvent 0 0 (send_to 1 7); MkEvent 1 0 (receive_any Blocking)]) as ->
    by reflexivity.
  intros [|[|i]] e He; [by injection He as <-|injection He as <-|done]. intros v. by exists true.
Qed.

Lemma read_consistent :
  consistent FifoP2P (events read) (reads_from read) no_missing_reads_tolerance.
Proof.
  destruct (check_execution_graph_spec (graph_ read) FifoP2P no_missing_reads_tolerance)
    as (r & Hr & Hiff); [apply read_Inv|apply read_total|].
  apply Hiff. vm_compute in Hr. by injection Hr as <-.
Qed.

Lemma read_typed : rf_typed (events read) (reads_from read).
Proof. eapply consistent_typed, read_consistent. Qed.

Lemma read_cache : cache_ok read.
Proof. by apply cache_ok_None. Qed.

Lemma read_Sound : Sound 0 FifoP2P read.
Proof.
  split; [split|apply read_consistent].
  - apply read_Inv.
  - apply read_cache.
  - apply read_total.
  - by intros [].
Qed.

Lemma porf_contains_exact_witness : tc (porf (events read) (reads_from read)) 0 1.
Proof.
  pose proof (porf_contains_exact read 0 1 read_Inv read_cache read_typed) as H.
  assert ((match porf_contains read 0 1 with Ok (b, _) => b | Throw _ => false end) = true) as Hb
    by reflexivity.
  destruct (porf_contains read 0 1) as [[b g']|e]; [|discriminate Hb].
  destruct H as (_ & _ & _ & _ & _ & Hiff). by apply Hiff.
Defined.

Lemma cycle_tests_agree_witness : acyclic (porf (events read) (reads_from read)).
Proof.
  destruct (cycle_tests_agree read read_Inv read_cache read_typed) as (b & Hb & _ & Hiff).
  apply Hiff. vm_compute in Hb. by injection Hb as <-.
Defined.

Lemma topological_order_correct_witness :
  ∃ topo, build_porf_adjacency_and_order read = Ok (true, topo) ∧ length topo = 2.
Proof.
  destruct (topological_order_correct read read_Inv read_typed)
    as (b & topo & Hrun & Hb & _ & _ & _ & Hlen).
  assert (b = true) as -> by (apply Hb, read_consistent).
  exists topo. split; [exact Hrun|]. by apply Hlen.
Defined.

Lemma check_execution_decides_witness :
  ∃ issues, check_execution_graph (graph_ received) Async no_missing_reads_tolerance = Ok issues ∧
    issues ≠ [].
Proof.
  destruct (check_execution_decides (graph_ received) Async no_missing_reads_tolerance)
    as (issues & Hrun & _).
  - apply received_Inv.
  - exact read_total.
  - exists issues. split; [exact Hrun|]. vm_compute in Hrun. by injection Hrun as <-.
Defined.

Lemma checkers_agree_witness :
  fst <$> check_exploration_graph read FifoP2P no_missing_reads_tolerance = Ok [].
Proof. rewrite (checkers_agree read FifoP2P _ read_Inv read_cache). reflexivity. Defined.

Lemma fresh_event_keeps_consistency_witness :
  ∃ g', add_event read 1 (send_to 0 9) = Ok (2, g') ∧
    consistent FifoP2P (events g') (reads_from g') no_missing_reads_tolerance.
Proof.
  exists (snd (ok_or (0, read) (add_event read 1 (send_to 0 9)))). split; [reflexivity|].
  eapply (fresh_event_keeps_consistency read FifoP2P 1%N (send_to 0 9)).
  - exact read_Inv.
  - exact read_consistent.
  - reflexivity.
  - reflexivity.
Defined.
