(* ===== verification/StepTheorems.v ===== *)
(** * StepTheorems: next events and revisits

    The theorems about the decisions of one exploration step: which event comes next, what
    the per-thread bound does, which blocked receives are rescheduled, and what a backward
    revisit produces. *)

From stdpp Require Import base tactics numbers relations sets list strings.
From S2P Require Import Prelude Errors Event Relation ExecutionGraph ExplorationGraph Porf.
From S2P Require Import Consistency StorageFacts ExecutionGraphFacts ExplorationFacts Queries.
From S2P Require Import FifoFacts Program Masked Dpor Revisit Explorer RestrictFacts SoundFacts.
From S2P Require Import RevisitFacts NextEvent Termination Samples GraphTheorems.
From S2P Require Import CheckerTheorems.

Section steps.
Context {V : Type} `{EqDecision V}.
Implicit Types (g : ExplorationGraph V) (program : Program V).

(** C26: [compute_next_event] returns the event of the first thread, in the given order,
    that has one: earlier threads have ended, sit at the bound or are done; a blocking
    receive without a compatible unread send becomes a block event.  Without a next event
    the flag says whether the bound hid a thread that has not ended. *)
Theorem next_event_exact program g tids bound r :
  compute_next_event program g tids bound = Ok r →
  next_event_meaning program bound g tids r ∧
  (next r = None → suppressed_by_thread_event_limit r = true ↔
     ∃ tid, tid ∈ tids ∧ ¬ ended g tid ∧ at_limit bound g tid).
Proof.
  intros Hrun. destruct (next_event_from_spec _ _ _ _ _ _ Hrun) as [Hm Hs]. split; [done|].
  intros Hn. rewrite (Hs Hn). split; [by intros [?|?]|by right].
Qed.

(** C29: the bound on the events of a thread chooses the same next event as wrapping every
    thread function so that it returns nothing from step [bound] on. *)
Theorem bound_is_wrapping program g tids bound :
  Inv g → (∀ tid, tid ∈ tids → tm_contains (threads program) tid = true) →
  next <$> compute_next_event program g tids bound =
  next <$> compute_next_event (cap_program bound program) g tids 0.
Proof.
  intros [Hcore _ _] Htids. apply next_event_from_cap; [done|].
  intros tid Htid%Htids. unfold tm_contains in Htid. unfold tm_at. by destruct (entries_ _ !! _) as [[]|].
Qed.

(** Rescheduling a blocked receive gives a consistent graph with one event less, in
    which the thread is no longer blocked by its removed event. *)
Theorem reschedule_sound program g bound model tid g' :
  Sound bound model g → reschedule_thread program g tid = Ok (Some g') →
  Sound bound model g' ∧ event_count g' < event_count g ∧ blocked (events g) tid.
Proof.
  intros Hg Hrun. split_and!.
  - by eapply reschedule_thread_Sound.
  - by eapply reschedule_thread_count.
  - unfold reschedule_thread in Hrun. rewrite last_event_id_eq in Hrun by apply Hg.
    unfold blocked, thread_tail. destruct (last _) as [id|]; [|done].
    apply bind_Ok_inv in Hrun as (e & He & Hrun). unfold event, ExecutionGraph.event in He.
    fold (events g) in He. simpl. destruct (events g !! id) as [e'|]; [|done]. injection He as ->.
    exists e. split; [done|]. by destruct (is_block e).
Qed.

(** [Previous] is the set the algorithm names: the events inserted up to [e] and the
    causal predecessors of [s]. *)
Theorem previous_set_exact g bound model e s :
  Sound bound model g → e < event_count g → s < event_count g →
  ∃ mask, compute_previous_set g e s = Ok mask ∧ length mask = event_count g ∧
    ∀ ep, mask !! ep = Some true ↔
      ep < event_count g ∧ (ep ≤ e ∨ tc (porf (events g) (reads_from g)) ep s).
Proof. apply compute_previous_set_spec. Qed.

(** C16: a backward revisit of a consistent graph by [send] takes a receive from [start]
    on, one that does not cause the send, and resumes after it; it keeps the events
    inserted up to the receive, the receive, the send and the causal past of the send;
    every event it deletes satisfies the revisit condition; the child is that restriction
    with the receive reading from the send, and it keeps the invariant. *)
Theorem backward_revisit_exact (value_lt : V → V → bool) g bound model send receives start r c :
  Sound bound model g → send < event_count g →
  next_backward_revisit_child value_lt g send model receives start = Ok r → child r = Some c →
  ∃ k, start ≤ k ∧ next_receive_index r = S k ∧
    revisits value_lt bound model g send receives k c.
Proof. apply next_backward_revisit_child_spec. Qed.

(** [erase_duplicate_nd_choices] keeps every choice exactly once, in the order of
    first occurrences. *)
Theorem erase_duplicates_exact (choices : list V) :
  NoDup (erase_duplicate_nd_choices choices) ∧
  (∀ v, v ∈ erase_duplicate_nd_choices choices ↔ v ∈ choices) ∧
  erase_duplicate_nd_choices choices `sublist_of` choices.
Proof.
  unfold erase_duplicate_nd_choices.
  assert (∀ l kept : list V, NoDup kept →
    ∃ extra, erase_duplicates_from kept l = kept ++ extra ∧ extra `sublist_of` l ∧
      NoDup (kept ++ extra) ∧ ∀ v, v ∈ kept ++ extra ↔ v ∈ kept ∨ v ∈ l) as Hind.
  { induction l as [|c l IH]; intros kept Hk; simpl.
    - exists []. rewrite app_nil_r. split_and!; [done|constructor|done|set_solver].
    - case_decide as Hc.
      + destruct (IH kept Hk) as (extra & He & Hsub & Hnd & Hel). exists extra.
        split_and!; [done|by constructor|done|]. intros v. rewrite Hel. set_solver.
      + destruct (IH (push_back kept c)) as (extra & He & Hsub & Hnd & Hel).
        { unfold push_back. apply NoDup_app. split_and!; [done| |apply NoDup_singleton]. set_solver. }
        unfold push_back in *. rewrite <-app_assoc in He, Hnd, Hel. exists (c :: extra).
        split_and!; [done|by constructor|done|]. intros v. rewrite (Hel v). set_solver. }
  destruct (Hind choices []) as (extra & -> & Hsub & Hnd & Hel); [constructor|].
  split_and!; [done| |done]. intros v. rewrite (Hel v). set_solver.
Qed.

End steps.

(** ** Witnesses *)

Lemma next_event_exact_witness :
  next_event_meaning two_senders 0 read [0; 1; 2]%N
    (ok_or (MkNextEventResult None false) (compute_next_event two_senders read [0; 1; 2]%N 0)).
Proof. apply next_event_exact. vm_compute. reflexivity. Defined.

Lemma bound_is_wrapping_witness :
  next <$> compute_next_event two_senders read [0; 1; 2]%N 1 =
  next <$> compute_next_event (cap_program 1 two_senders) read [0; 1; 2]%N 0.
Proof.
  apply bound_is_wrapping; [exact read_Inv|].
  intros tid Htid. repeat (apply elem_of_cons in Htid as [->|Htid]; [reflexivity|]).
  by apply not_elem_of_nil in Htid.
Defined.

Lemma previous_set_exact_witness :
  ∃ mask, compute_previous_set read 0 1 = Ok mask ∧ mask !! 1 ≠ Some true.
Proof.
  destruct (previous_set_exact read 0 FifoP2P 0 1 read_Sound) as (mask & Hrun & _ & Hmask).
  - apply Nat.ltb_lt. vm_compute. reflexivity.
  - apply Nat.ltb_lt. vm_compute. reflexivity.
  - exists mask. split; [exact Hrun|]. vm_compute in Hrun. injection Hrun as <-. discriminate.
Defined.

(** Thread 2 has sent a second message to the receiver of [read]. *)
Definition rival : ExplorationGraph nat :=
  snd (ok_or (0, empty_exploration_graph) (add_event read 2%N (send_to 1 8))).

Lemma rival_Sound : Sound 0 Async rival.
Proof.
  apply (add_event_Sound 0 Async read 2%N (send_to 1 8) 2); [|done|done|by intros []|reflexivity].
  destruct read_Sound as [Hg [H1 [H2 _]]]. split; [exact Hg|]. by split_and!.
Qed.

Lemma backward_revisit_exact_witness :
  ∃ c k, child (ok_or (MkBackwardRevisitChild 0 None)
             (next_backward_revisit_child Nat.ltb rival 2 Async [1] 0)) = Some c ∧
    revisits Nat.ltb 0 Async rival 2 [1] k c.
Proof.
  set (r := next_backward_revisit_child Nat.ltb rival 2 Async [1] 0).
  assert (is_Some (child (ok_or (MkBackwardRevisitChild 0 None) r))) as [c Hc]
    by (vm_compute; by eexists).
  destruct r as [res|e] eqn:Hr; [|discriminate Hc].
  destruct (backward_revisit_exact Nat.ltb rival 0 Async 2 [1] 0 res c rival_Sound) as (k & _ & _ & Hk).
  - apply Nat.ltb_lt. vm_compute. reflexivity.
  - exact Hr.
  - exact Hc.
  - exists c, k. split; [exact Hc|exact Hk].
Defined.

(** The receiver of [sent] blocks although the message is there, as after a revisit. *)
Definition blocked_receiver : ExplorationGraph nat :=
  snd (ok_or (0, empty_exploration_graph) (add_event sent 1%N LBlock)).

Definition one_receiver : Program nat :=
  MkProgram (tm_of_list [(0%N, script [send_to 1 7]); (1%N, script [receive_any Blocking])]).

Lemma blocked_receiver_Sound : Sound 0 FifoP2P blocked_receiver.
Proof.
  apply (add_event_Sound 0 FifoP2P sent 1%N LBlock 1); [|done|done|by intros []|reflexivity].
  apply (add_event_Sound 0 FifoP2P empty_exploration_graph 0%N (send_to 1 7) 0);
    [apply empty_Sound|done|done|by intros []|reflexivity].
Qed.

Lemma reschedule_sound_witness :
  ∃ g', reschedule_thread one_receiver blocked_receiver 1 = Ok (Some g') ∧ Sound 0 FifoP2P g'.
Proof.
  set (r := reschedule_thread one_receiver blocked_receiver 1).
  assert (is_Some (ok_or None r)) as [g' Hg'] by (vm_compute; by eexists).
  destruct r as [o|e] eqn:Hr; [simpl in Hg'; subst o|discriminate Hg'].
  exists g'. split; [reflexivity|].
  exact (proj1 (reschedule_sound one_receiver blocked_receiver 0 FifoP2P 1 g'
    blocked_receiver_Sound Hr)).
Defined.
