(* ===== verification/StorageTheorems.v ===== *)
(** * StorageTheorems: the building blocks

    The theorems about execution graphs, their storage, the relations derived from them,
    thread maps and the frame around user callbacks. *)

From stdpp Require Import base tactics numbers relations sets list strings.
From S2P Require Import Prelude Errors Event Relation RelationFacts ExecutionGraph StorageFacts.
From S2P Require Import ExecutionGraphFacts ExplorationGraph ExplorationFacts PorfFacts.
From S2P Require Import DerivedOrder.
From S2P Require Import CycleSearch FifoFacts Consistency ConsistencyFacts Program Samples.
From S2P Require Import GraphTheorems CheckerTheorems.

(** ** Execution graphs *)

Section execution_graphs.
Context {V : Type}.
Implicit Types (x : ExecutionGraph V).

(** The replay path: [add_event_with_index] appends the event with the index it is
    given when that index is larger than every index the thread has used; otherwise it
    says whether the index is taken or out of order, and a thread id above the limit is
    refused before that. *)
Theorem add_event_with_index_outcome x t i l :
  graph_wf x → (i ≤ kMaxIndex)%N →
  match add_event_with_index x t i l with
  | Ok (id, x') => (t ≤ kMaxThreadId)%N ∧ id = length (events_ x) ∧ graph_wf x' ∧
      events_ x' = events_ x ++ [MkEvent t i l] ∧ reads_from_ x' = reads_from_ x ∧
      ∀ j, has_index (events_ x) t j → (j < i)%N
  | Throw e =>
      (e = precondition_error "thread id exceeds the maximum supported thread id" ∧
         (kMaxThreadId < t)%N) ∨
      (e = precondition_error "event index already used in this thread" ∧
         has_index (events_ x) t i) ∨
      (e = precondition_error
             "event indices must be inserted in increasing order within each thread" ∧
         (i < default 0 (next_event_index_by_thread_ x !! N.to_nat t))%N ∧
         ¬ has_index (events_ x) t i)
  end.
Proof.
  intros Hx Hi. destruct (decide (t ≤ kMaxThreadId)%N) as [Ht|Ht].
  - pose proof (add_event_with_index_spec x t i l Hx Ht Hi) as Hspec.
    destruct (add_event_with_index x t i l) as [[id x']|e]; [by destruct Hspec as (? & ? & ? & ? & ?)|].
    right. exact Hspec.
  - assert (kMaxThreadId < t)%N as Hlt by lia. unfold add_event_with_index.
    rewrite ensure_thread_storage_Throw by done. by left.
Qed.

(** The set of used indices behaves as a set of indices under insertion and
    removal, for every mix of dense and sparse indices; removing what was inserted gives
    the set back. *)
Theorem used_indices_are_a_set s i :
  used_wf s → (i ≤ kMaxIndex)%N → used_contains s i = false →
  used_wf (used_insert s i) ∧
  (∀ j, used_contains (used_insert s i) j = true ↔ used_contains s j = true ∨ j = i) ∧
  fst (used_erase (used_insert s i) i) = 1 ∧
  used_wf (snd (used_erase (used_insert s i) i)) ∧
  ∀ j, used_contains (snd (used_erase (used_insert s i) i)) j = used_contains s j.
Proof.
  intros Hs Hi Hni. destruct (used_insert_spec s i Hs Hni Hi) as [Hw Hins].
  destruct (used_erase_spec (used_insert s i) i Hw) as (Hn & Hw' & Her).
  split_and!; [done|done| |done|].
  - by rewrite Hn, (proj2 (Hins i) (or_intror eq_refl)).
  - intros j. apply eq_bool_prop_intro. rewrite !Is_true_true, Her, Hins.
    split; [by intros [[?|?] ?]|]. intros Hj. split; [by left|]. intros ->. congruence.
Qed.

(** The reads-from storage is a finite map: looking up after [set] and [clear], and
    its iterator visits exactly the entries, each once, and ends. *)
Theorem reads_from_is_a_map (rf : ReadsFromRelation) i s :
  rf_wf rf →
  (∀ j, rf_find (rf_set rf i s) j = if decide (i = j) then Some s else rf_find rf j) ∧
  (∀ j, rf_find (rf_clear rf i) j = if decide (i = j) then None else rf_find rf j) ∧
  rf_wf (rf_set rf i s) ∧ rf_wf (rf_clear rf i) ∧
  ∃ entries, rf_walk rf = Ok entries ∧ NoDup (fst <$> entries) ∧ length entries = rf_size rf ∧
    ∀ j s', (j, s') ∈ entries ↔ rf_find rf j = Some s'.
Proof.
  intros Hrf. split_and!.
  - intros j. apply rf_find_set.
  - intros j. apply rf_find_clear.
  - by apply rf_set_wf.
  - by apply rf_clear_wf.
  - exists (rf_to_list rf). rewrite rf_walk_correct.
    split_and!; [done|apply rf_to_list_nodup|by symmetry|apply rf_to_list_elem].
Qed.

(** C40: the relation algebra on a graph: program order and reads-from are derived without
    errors, and the transitive closure of their union enumerates and decides exactly the
    causal order. *)
Theorem closure_is_causal_order x :
  graph_wf x → rf_typed (events_ x) (reads_from_ x) →
  ∃ po rf porf_base, po_relation x = Ok po ∧ rf_relation x = Ok rf ∧
    relation_union po rf = Ok porf_base ∧
    ∀ a b, a < length (events_ x) → b < length (events_ x) →
      (∃ c, contains (transitive_closure porf_base) a b = Ok c ∧
         (c = true ↔ tc (porf (events_ x) (reads_from_ x)) a b)) ∧
      ∃ l, for_each_successor (transitive_closure porf_base) a = Ok l ∧ NoDup l ∧
        (b ∈ l ↔ tc (porf (events_ x) (reads_from_ x)) a b).
Proof.
  intros Hx Ht. destruct (po_relation_Ok x Hx) as (p & Hp & Hpwf & Hpn & Hpe).
  destruct (rf_relation_Ok x Ht) as (r & Hr & Hrwf & Hrn & Hre).
  exists p, r, (MkUnionRelation p r). unfold relation_union. rewrite decide_True by congruence.
  split_and!; [done|done|done|]. intros a b Ha Hb.
  assert (union_wf (MkUnionRelation p r)) as Hu by (split_and!; [done|done|simpl in *; congruence]).
  assert (∀ a b, tc (edge (MkUnionRelation p r)) a b ↔ tc (porf (events_ x) (reads_from_ x)) a b)
    as Htc.
  { intros a' b'. split; apply tc_subrel || idtac.
    all: intros Htc; induction Htc as [u v Huv|u v w Huv _ IH]; [apply tc_once|eapply tc_l; [|exact IH]].
    all: revert Huv; rewrite union_edge by done; unfold porf; by rewrite Hpe, Hre. }
  assert (node_count (transitive_closure (MkUnionRelation p r)) = length (events_ x)) as Hn by done.
  assert (rel_wf (MkUnionRelation p r)) as Hw by exact Hu.
  assert (rel_wf (transitive_closure (MkUnionRelation p r))) as Hw' by exact Hu. split.
  - destruct (contains_edge (transitive_closure (MkUnionRelation p r)) a b Hw') as (c & Hc & Hiff);
      [by rewrite Hn..|].
    exists c. split; [done|]. rewrite Hiff, closure_edge by done. apply Htc.
  - destruct (closure_succ_spec (transitive_closure (MkUnionRelation p r)) a Hw) as (l & Hl & Hnd & Hel);
      [by rewrite Hn|].
    exists l. split_and!; [done|done|]. rewrite Hel. apply Htc.
Qed.

End execution_graphs.

(** ** Thread maps *)

Section thread_maps.
Context {T : Type}.
Implicit Types (m : ThreadMap T) (tid : ThreadId).

Lemma assigned_from_nodup (l : list (option T)) k : NoDup (assigned_from l k).
Proof.
  revert k. induction l as [|[v|] l IH]; intros k; simpl; [constructor| |done].
  constructor; [|done]. rewrite assigned_from_elem. intros (i & v' & Hi & _). lia.
Qed.

(** The loop over the assigned ids finds their extremes. *)
Lemma span_spec (l : list ThreadId) :
  l ≠ [] → ∃ lo hi, foldl span_step (None, 0%N) l = (Some lo, hi) ∧ lo ∈ l ∧ hi ∈ l ∧
    ∀ tid, tid ∈ l → (lo ≤ tid ≤ hi)%N.
Proof.
  induction l as [|tid l IH] using rev_ind; [done|]. intros _. rewrite foldl_app. simpl.
  destruct (decide (l = [])) as [->|Hne].
  - exists tid, tid. simpl. split_and!; [|set_solver|set_solver|].
    + f_equal. destruct (N.ltb_spec 0 tid); [done|lia].
    + intros t Ht. assert (t = tid) as -> by set_solver. lia.
  - destruct (IH Hne) as (lo & hi & -> & Hlo & Hhi & Hall). simpl.
    assert (lo ≤ hi)%N as Hle by (by apply Hall).
    exists (if (tid <? lo)%N then tid else lo), (if (hi <? tid)%N then tid else hi).
    split_and!.
    + by destruct (tid <? lo)%N.
    + destruct (tid <? lo)%N; set_solver.
    + destruct (hi <? tid)%N; set_solver.
    + intros t [Ht| ->%list_elem_of_singleton]%elem_of_app; [specialize (Hall t Ht)|];
        destruct (N.ltb_spec tid lo), (N.ltb_spec hi tid); lia.
Qed.

(** Distinct ids that fill a range of their number are all of it. *)
Lemma range_filled (l : list ThreadId) first n :
  NoDup l → (∀ tid, tid ∈ l → (first ≤ tid < first + N.of_nat n)%N) → length l = n →
  ∀ tid, (first ≤ tid < first + N.of_nat n)%N → tid ∈ l.
Proof.
  intros Hnd Hin Hlen tid Htid.
  assert (N.to_nat <$> l ≡ₚ seq (N.to_nat first) n) as Hperm.
  { apply submseteq_length_Permutation; [|rewrite length_fmap, length_seq; lia].
    apply NoDup_submseteq; [by apply NoDup_fmap_2; [intros ? ? ?; lia|]|].
    intros i (t & -> & Ht)%list_elem_of_fmap. apply elem_of_seq. specialize (Hin t Ht). lia. }
  assert (N.to_nat tid ∈ N.to_nat <$> l) as (t & Ht & Hl)%list_elem_of_fmap.
  { rewrite Hperm. apply elem_of_seq. lia. }
  by replace tid with t by lia.
Qed.

(** Assigning a thread updates that entry alone and keeps the count of assigned
    threads right; the ids are accepted exactly when they are 0..n-1 or 1..n for the n
    assigned threads. *)
Theorem thread_map_exact m tid v :
  tm_wf m →
  tm_wf (tm_assign m tid v) ∧ tm_at (tm_assign m tid v) tid = Ok v ∧
  (∀ tid', tid' ≠ tid → tm_contains (tm_assign m tid v) tid' = tm_contains m tid') ∧
  (validate_compact_thread_ids m = Ok tt ↔
     (∀ t, tm_contains m t = true ↔ (t < N.of_nat (tm_size m))%N) ∨
     (∀ t, tm_contains m t = true ↔ (1 ≤ t ≤ N.of_nat (tm_size m))%N)).
Proof.
  intros Hm. destruct (tm_assign_spec m tid v Hm) as (Hw & Hat & Hother).
  split_and!; [done|done| |].
  { intros t Ht. unfold tm_contains.
    destruct (Hother t Ht) as [-> |[Hnone Hsome]]; [done|]. by rewrite Hnone, Hsome. }
  pose proof (assigned_from_nodup (entries_ m) 0) as Hnd. fold (assigned_ids m) in Hnd.
  unfold validate_compact_thread_ids, tm_size, tm_wf in *.
  destruct (decide (size_ m = 0)) as [Hz|Hz].
  { split; [|done]. intros _. left. intros t. rewrite <-assigned_ids_elem, Hz.
    destruct (assigned_ids m); [|simpl in Hm; lia]. split; [set_solver|lia]. }
  assert (assigned_ids m ≠ []) as Hne by (intros Hnil; rewrite Hnil in Hm; simpl in Hm; lia).
  unfold tm_span. destruct (span_spec _ Hne) as (lo & hi & -> & Hlo & Hhi & Hall).
  destruct (decide (_ ∨ _)) as [Hd|Hd]; (split; [try done|try done]).
  - intros _. destruct Hd as [[-> Hhi']|[-> Hhi']]; [left|right]; intros t; rewrite <-assigned_ids_elem.
    + split; [intros Ht; specialize (Hall t Ht); lia|]. intros Ht.
      apply (range_filled _ 0%N (size_ m)); [done| |done|lia]. intros t' Ht'. specialize (Hall t' Ht'). lia.
    + split; [intros Ht; specialize (Hall t Ht); lia|]. intros Ht.
      apply (range_filled _ 1%N (size_ m)); [done| |done|lia]. intros t' Ht'. specialize (Hall t' Ht'). lia.
  - intros Hc. exfalso. apply Hd. destruct Hc as [Hc|Hc]; [left|right].
    all: assert (∀ t, t ∈ assigned_ids m ↔ tm_contains m t = true) as Hel by apply assigned_ids_elem.
    + assert (0 ∈ assigned_ids m)%N as H0 by (apply Hel, Hc; lia).
      assert (N.of_nat (size_ m) - 1 ∈ assigned_ids m)%N as H1 by (apply Hel, Hc; lia).
      apply Hall in H0, H1. apply Hel, Hc in Hhi. split; lia.
    + assert (1 ∈ assigned_ids m)%N as H0 by (apply Hel, Hc; lia).
      assert (N.of_nat (size_ m) ∈ assigned_ids m)%N as H1 by (apply Hel, Hc; lia).
      apply Hall in H0, H1. apply Hel, Hc in Hhi. apply Hel, Hc in Hlo. split; lia.
Qed.

End thread_maps.

(** ** User callbacks *)

(** The frame around user callbacks: results and exceptions already tagged pass
    through; any other exception is tagged with the callback and thread it escaped from,
    and the original can be rethrown from it. *)
Theorem callback_errors_are_tagged {A} (kind : UserCallbackKind) (tid : option N) (r : res A) :
  match r with
  | Ok a => invoke_user_code kind tid r = Ok a
  | Throw e =>
      (is_Some (user_code_kind e) ∧ invoke_user_code kind tid r = Throw e) ∨
      (user_code_kind e = None ∧ catchable e = false ∧ invoke_user_code kind tid r = Throw e) ∨
      (user_code_kind e = None ∧ catchable e = true ∧ ∃ w,
         let tagged := user_code_error kind tid (Some e) w in
         invoke_user_code kind tid r = Throw tagged ∧ has_original tagged = true ∧
         user_code_kind tagged = Some kind ∧ user_code_thread tagged = Some tid ∧
         rethrow_original (A := A) (Some e) = Throw e)
  end.
Proof.
  destruct r as [a|e]; [reflexivity|].
  destruct e; simpl; try (right; right; split_and!; [reflexivity..|]; eexists; split_and!; reflexivity).
  - left. split; [eexists|]; reflexivity.
  - right; left; split_and!; reflexivity.
  - right; left; split_and!; reflexivity.
Qed.

(** ** Witnesses *)

Lemma add_event_with_index_outcome_witness :
  match add_event_with_index (graph_ sent) 0%N 5%N (send_to 1 9) with
  | Ok (id, _) => id = 1
  | Throw _ => False
  end.
Proof.
  pose proof (add_event_with_index_outcome (graph_ sent) 0%N 5%N (send_to 1 9)
    (core_graph _ (inv_core _ sent_Inv)) ltac:(vm_compute; discriminate)) as H.
  assert (is_Ok (add_event_with_index (graph_ sent) 0%N 5%N (send_to 1 9)) = true) as E by reflexivity.
  destruct (add_event_with_index (graph_ sent) 0%N 5%N (send_to 1 9)) as [[id x']|e];
    [|discriminate E].
  destruct H as (_ & -> & _). reflexivity.
Defined.

Lemma used_indices_are_a_set_witness : used_contains (used_insert used_empty 3%N) 3%N = true.
Proof.
  destruct (used_indices_are_a_set used_empty 3%N) as (_ & Hins & _).
  - apply used_empty_wf.
  - vm_compute. discriminate.
  - reflexivity.
  - apply Hins. right. reflexivity.
Defined.

Lemma reads_from_is_a_map_witness : rf_find (rf_set (reads_from_ (graph_ read)) 4 rf_bottom) 1
  = Some (from_send 0).
Proof.
  destruct (reads_from_is_a_map (reads_from_ (graph_ read)) 4 rf_bottom
    (gw_rf _ (core_graph _ (inv_core _ read_Inv)))) as (Hset & _).
  rewrite Hset. reflexivity.
Defined.

Lemma closure_is_causal_order_witness :
  ∃ p, po_relation (graph_ read) = Ok p.
Proof.
  destruct (closure_is_causal_order (graph_ read) (core_graph _ (inv_core _ read_Inv)) read_typed)
    as (p & _ & _ & Hp & _).
  exists p. exact Hp.
Defined.

Lemma thread_map_exact_witness :
  validate_compact_thread_ids (threads two_senders) = Ok tt ∧
  tm_contains (tm_assign (threads two_senders) 9%N (script [])) 2%N = true.
Proof.
  assert (tm_wf (threads two_senders)) as Hm by reflexivity.
  destruct (thread_map_exact (threads two_senders) 9%N (script []) Hm) as (_ & _ & Hother & Hok).
  split; [reflexivity|]. rewrite Hother; [reflexivity|discriminate].
Defined.
