(* ===== verification/EngineTheorems.v ===== *)
(** * EngineTheorems: what [verify] guarantees

    The theorems about whole runs of the engine: what observers see, what the counters
    count, when a run stops, and what it leaves behind. *)

From stdpp Require Import base tactics numbers relations sets list strings.
From S2P Require Import Prelude Errors Event Relation ExecutionGraph ExplorationGraph Porf.
From S2P Require Import Consistency Program Masked Dpor Revisit Explorer ExplorationFacts.
From S2P Require Import FifoFacts SoundFacts NextEvent Conformance Runs EngineFacts RunFacts.
From S2P Require Import VerifyFacts.
From S2P Require Import Samples.
From S2P Require Import Termination.

(** ** What observers see *)

Section observers.
Context {V O : Type} `{EqDecision V} (value_lt : V → V → bool) (clock : nat → Z)
  (config : DporConfig V O).

(** C1: for a program whose receive matchers do not throw ([total_program]), and whatever the
    observers do, a property of their state that survives progress reports and the publication
    of executions that follow the program, are consistent under the configured communication
    model, within the per-thread bound and of the kind they are published with, holds when
    [verify] returns: nothing else is ever published. (Of an execution cut off at [max_depth]
    the kind says nothing more: the depth counts branching decisions, which the graph does not
    record.) *)
Theorem verify_observes_published (Q : O → Prop) fuel o r o' :
  total_program (program config) → Q o →
  (∀ o1 s o2, Q o1 → notify_progress config o1 s = Ok o2 → Q o2) →
  (∀ tids o1 g kind depth a o2, sorted_thread_ids (program config) = Ok tids → Q o1 →
     published config tids g kind depth → follows_graph (program config) g →
     notify_terminal_execution config o1 g kind = Ok (a, o2) → Q o2) →
  verify value_lt clock config o fuel = Ok (r, o') → Q o'.
Proof.
  intros Htotal Ho Hprogress Hpublish Hrun.
  apply (verify_rule value_lt clock config (λ _, Q)) in Hrun; eauto.
Qed.

(** C39: for a program whose receive matchers do not throw, in every result the five kinds
    partition the published executions, the parallel counters are zero, and no thread of a
    published execution exceeds [max_thread_events]. *)
Theorem verify_counters fuel o r o' :
  total_program (program config) → verify value_lt clock config o fuel = Ok (r, o') →
  terminal_executions_explored r =
    full_executions_explored r + blocked_executions_explored r + error_executions_explored r +
    depth_limit_executions_explored r + thread_event_limit_executions_explored r ∧
  nd_splits r = 0 ∧ receive_splits r = 0 ∧
  (max_thread_events config ≠ 0 →
     max_thread_event_depth_reached r ≤ max_thread_events config).
Proof.
  intros Htotal Hrun.
  eapply (verify_rule value_lt clock config (λ r _,
    terminal_executions_explored r =
      full_executions_explored r + blocked_executions_explored r + error_executions_explored r +
      depth_limit_executions_explored r + thread_event_limit_executions_explored r ∧
    nd_splits r = 0 ∧ receive_splits r = 0 ∧
    (max_thread_events config ≠ 0 →
       max_thread_event_depth_reached r ≤ max_thread_events config))); [done| |done| |done].
  - intros tids r1 o1 g kind depth a o2 _ (Hsum & Hnd & Hrecv & Hmax) _ (_ & _ & Hdepth & _) _ _.
    unfold after_publication, terminal_executions_explored in *.
    destruct (decide (a = Stop)); destruct kind; simpl; split_and!; try done; try lia;
      intros Hn; specialize (Hmax Hn); specialize (Hdepth Hn); case_decide; lia.
  - simpl. split_and!; try done. lia.
Qed.

(** A configuration with both terminal observers, or a program whose thread ids are
    not compact, is refused before anything is explored. *)
Theorem verify_refuses o fuel :
  (∀ e, validate_terminal_observer_config config = Throw e →
     verify value_lt clock config o fuel = Throw e) ∧
  (∀ e, validate_terminal_observer_config config = Ok tt →
     validate_compact_thread_ids (threads (program config)) = Throw e →
     verify value_lt clock config o fuel = Throw e) ∧
  ((∃ f h, on_terminal_execution config = Some f ∧ on_execution config = Some h) ↔
     validate_terminal_observer_config config = Throw (precondition_error
       "DporConfigT: set only one of on_terminal_execution and its legacy alias on_execution")).
Proof.
  unfold verify. split_and!.
  - by intros e ->.
  - intros e -> He. unfold sorted_thread_ids. by rewrite He.
  - unfold validate_terminal_observer_config.
    destruct (on_terminal_execution config) as [f|], (on_execution config) as [h|]; split;
      try done; try (intros (f' & h' & ? & ?); done). by exists f, h.
Qed.

End observers.

(** On a run of two senders and a receiver: every execution in the log is consistent
    under FIFO delivery. *)
Lemma verify_observes_published_witness :
  Forall (λ e, consistent FifoP2P (events (te_graph e)) (reads_from (te_graph e))
                 no_missing_reads_tolerance) (snd sample_run).
Proof.
  eapply (verify_observes_published Nat.ltb (λ _, 0%Z) sample_config
    (Forall (λ e, consistent FifoP2P (events (te_graph e)) (reads_from (te_graph e))
                    no_missing_reads_tolerance)) 100 [] (fst sample_run)).
  - exact two_senders_total.
  - constructor.
  - intros o1 s o2 Ho [= <-]. exact Ho.
  - intros tids o1 g kind depth a o2 _ Ho [[_ Hc] _] _ [= _ <-].
    apply Forall_app. split; [exact Ho|]. constructor; [exact Hc|constructor].
  - rewrite sample_run_Ok. by destruct sample_run.
Defined.

Lemma verify_counters_witness :
  nd_splits (fst sample_run) = 0 ∧ max_thread_event_depth_reached (fst sample_run) ≤ 3.
Proof.
  destruct (verify_counters Nat.ltb (λ _, 0%Z) sample_config 100 [] (fst sample_run)
    (snd sample_run)) as (_ & Hnd & _ & Hmax).
  - exact two_senders_total.
  - rewrite sample_run_Ok. by destruct sample_run.
  - split; [exact Hnd|]. by apply Hmax.
Defined.

Lemma verify_refuses_witness :
  verify (O := unit) Nat.ltb (λ _, 0%Z) (MkDporConfig two_senders 5 0 Async
      (Some (λ o _, Ok (Continue, o))) None 0%Z (Some (λ o _, Ok (Continue, o)))) tt 10 =
  Throw (precondition_error
    "DporConfigT: set only one of on_terminal_execution and its legacy alias on_execution").
Proof. refine (proj1 (verify_refuses Nat.ltb (λ _, 0%Z) _ tt 10) _ _). reflexivity. Defined.

(** ** What a recording observer has recorded *)

Section recording.
Context {V : Type} `{EqDecision V} (value_lt : V → V → bool) (clock : nat → Z).
Implicit Types (log : list (TerminalExecution V)) (r : VerifyResult).

(** The observer asked to stop at the last execution of [log], and at no earlier one. *)
Definition stopped_at_end (stop : list (TerminalExecution V) → TerminalExecution V →
    TerminalExecutionAction) log (k : VerifyResultKind) : Prop :=
  ∀ i e, log !! i = Some e → stop (take i log) e = Stop ↔ S i = length log ∧ k = Stopped.

Lemma stopped_at_end_snoc stop log e k :
  stopped_at_end stop log k → k ≠ Stopped →
  stopped_at_end stop (log ++ [e])
    (if decide (stop log e = Stop) then Stopped else k).
Proof.
  intros Hlog Hk i e' Hi. rewrite length_app. simpl.
  destruct (decide (i < length log)) as [Hlt|Hge].
  - rewrite lookup_app_l in Hi by done. rewrite take_app_le by lia. rewrite (Hlog i e' Hi).
    split; intros []; [done|lia].
  - apply lookup_app_Some in Hi as [?%lookup_lt_Some|[_ Hi]]; [done|].
    apply list_lookup_singleton_Some in Hi as [Hi <-]. replace i with (length log) by lia.
    rewrite take_app_length. case_decide as Hs; split; try done; [by split; [lia|]|by intros [_ ?]].
Qed.

(** C5: for a program whose receive matchers do not throw, and with an observer that records
    what it is given and answers as [stop] says, the counters of the result are exactly the
    account of the recorded executions, each of which follows the program, is consistent and of
    its kind, and exploration publishes nothing after the first request to stop. *)
Theorem verify_log p depth bound model stop tids fuel r log :
  total_program p → sorted_thread_ids p = Ok tids →
  verify value_lt clock (recording_config p depth bound model stop) [] fuel = Ok (r, log) →
  accounts tids log r ∧
  Forall (λ e, published (recording_config p depth bound model stop) tids (te_graph e) (te_kind e)
                 (compute_max_thread_event_depth (te_graph e) tids) ∧
               follows_graph p (te_graph e)) log ∧
  stopped_at_end stop log (vr_kind r) ∧
  (vr_kind r = Stopped → log ≠ []).
Proof.
  intros Htotal Htids Hrun. set (config := recording_config p depth bound model stop) in *.
  eapply (verify_rule value_lt clock config (λ r log, accounts tids log r ∧
    Forall (λ e, published config tids (te_graph e) (te_kind e)
                 (compute_max_thread_event_depth (te_graph e) tids) ∧
               follows_graph p (te_graph e)) log ∧
    stopped_at_end stop log (vr_kind r) ∧ (vr_kind r = Stopped → log ≠ []))); [..|done].
  - intros r1 o1 s o2 HI [= <-]. done.
  - intros tids' r1 log1 g kind d a o2 Htids' (Hacc & Hpub & Hstop & _) Hk Hp Hf [= Ha <-].
    assert (tids' = tids) as -> by (unfold config in Htids'; simpl in Htids'; congruence).
    pose proof Hp as (_ & Hd & _). subst d a. split_and!.
    + by apply (accounts_snoc tids log1 r1 (MkTerminalExecution g kind)).
    + apply Forall_app. split; [done|]. by constructor.
    + pose proof (stopped_at_end_snoc stop log1 (MkTerminalExecution g kind) _ Hstop Hk) as Hs.
      unfold after_publication. by destruct (decide (stop _ _ = Stop)).
    + intros _ Hnil. by destruct log1.
  - done.
  - split_and!; [by split|apply Forall_nil_2|by intros i e ?|done].
Qed.

(** C2: when the receive matchers of the program do not throw, every execution [verify] hands
    to the observer is the record of a run of the program in the semantics of message passing:
    its observations, its unread sends and its ended threads are those of a state the program
    reaches.  A [Full] execution is a run after which every thread has finished, a [Blocked]
    one a deadlock, in which some thread waits and no message it accepts is in flight, an error
    execution a run in which a thread failed, and one cut off by [max_thread_events] a run in
    which some thread has used up its events and has not ended; after a [Full] or [Blocked]
    execution the program has no further step. *)
Theorem verify_publishes_runs p depth bound model stop tids fuel r log :
  total_program p → sorted_thread_ids p = Ok tids →
  verify value_lt clock (recording_config p depth bound model stop) [] fuel = Ok (r, log) →
  Forall (λ e, run_of (recording_config p depth bound model stop) tids (te_graph e) (te_kind e)) log.
Proof.
  intros Htotal Htids Hrun. set (config := recording_config p depth bound model stop) in *.
  eapply (verify_rule value_lt clock config (λ _ log, Forall (λ e, run_of config tids (te_graph e) (te_kind e)) log));
    [..|done].
  - intros r1 o1 s o2 HI [= <-]. done.
  - intros tids' r1 log1 g kind d a o2 Htids' Hlog _ Hp Hf [= _ <-].
    assert (tids' = tids) as -> by (unfold config in Htids'; simpl in Htids'; congruence).
    apply Forall_app. split; [done|]. constructor; [|constructor]. by eapply published_is_run.
  - done.
  - apply Forall_nil_2.
Qed.

End recording.

(** The two senders and the receiver: one execution of the log is a run that ends with
    the receiver done and the second message in flight. *)
Lemma verify_publishes_runs_witness :
  Forall (λ e, run_of sample_config [0; 1; 2]%N (te_graph e) (te_kind e)) (snd sample_run) ∧
  length (snd sample_run) = 2.
Proof.
  split; [|vm_compute; reflexivity].
  apply (verify_publishes_runs Nat.ltb (λ _, 0%Z) two_senders 20 3 FifoP2P (λ _ _, Continue) [0; 1; 2]%N 100
    (fst sample_run) (snd sample_run)).
  - exact two_senders_total.
  - reflexivity.
  - change (recording_config two_senders 20 3 FifoP2P (λ _ _, Continue)) with sample_config.
    rewrite sample_run_Ok. by destruct sample_run.
Defined.

Lemma verify_log_witness :
  executions_explored (fst sample_run) = length (snd sample_run) ∧
  full_executions_explored (fst sample_run) = count_kind Full (snd sample_run).
Proof.
  destruct (verify_log Nat.ltb (λ _, 0%Z) two_senders 20 3 FifoP2P (λ _ _, Continue) [0; 1; 2]%N 100
    (fst sample_run) (snd sample_run)) as ([Hall Hfull _ _ _ _ _] & _).
  - exact two_senders_total.
  - reflexivity.
  - change (recording_config two_senders 20 3 FifoP2P (λ _ _, Continue)) with sample_config.
    rewrite sample_run_Ok. by destruct sample_run.
  - split; [exact Hall|exact Hfull].
Defined.

(** ** Termination *)

Section termination.
Context {V O X : Type} `{EqDecision V} `{Executor V X} `{!StopSticky V X}
  (value_lt : V → V → bool) (config : DporConfig V O) (thread_ids : list ThreadId).

(** C14: on every executor that does not withdraw stop requests, from every graph and for
    every program, the exploration loop ends after a number of iterations that depends on
    neither the fuel nor the exception used when fuel runs out. *)
Theorem exploration_terminates (x : X) (g : ExplorationGraph V) depth md :
  ∃ n, ∀ fuel oof, n ≤ fuel →
    while fuel oof (run_step value_lt config thread_ids)
      (MkExplorer x g [MkContext None [enter depth md]]) =
    run value_lt config thread_ids n x g depth md.
Proof. by apply halts_run, run_halts. Qed.

End termination.

Section verify_termination.
Context {V O : Type} `{EqDecision V} (value_lt : V → V → bool) (clock : nat → Z)
  (config : DporConfig V O).

(** C3: [verify] terminates on every configuration: from some fuel on its result no
    longer depends on the fuel, and the loop has then left by itself. *)
Theorem verify_terminates (o : O) :
  ∃ n, ∀ fuel, n ≤ fuel →
    verify value_lt clock config o fuel = verify value_lt clock config o n ∧
    ∀ tids oof, sorted_thread_ids (program config) = Ok tids →
      while fuel oof
        (run_step (H := sequential_executor config clock (clock 0)) value_lt config tids)
        (MkExplorer (new_sequential_state config (clock 0) new_result o 1)
           empty_exploration_graph [MkContext None [enter 0 Visit]]) =
      visit_sequential value_lt clock config (clock 0) n tids
        (new_sequential_state config (clock 0) new_result o 1) empty_exploration_graph 0 Visit.
Proof.
  destruct (verify_returns value_lt clock config o) as (n1 & Hn1).
  destruct (sorted_thread_ids (program config)) as [tids|e].
  2:{ exists n1. intros fuel Hle. split; [by apply Hn1|done]. }
  destruct (sequential_halts value_lt clock config tids o) as (n2 & Hn2).
  exists (n1 + n2). intros fuel Hle. split.
  - by rewrite (Hn1 fuel), (Hn1 (n1 + n2)) by lia.
  - intros tids' oof [= <-]. rewrite (Hn2 fuel oof) by lia. symmetry. apply Hn2. lia.
Qed.

End verify_termination.

Lemma exploration_terminates_witness :
  ∃ n, ∀ fuel, n ≤ fuel →
    while fuel undefined_behavior
      (run_step (H := sequential_executor sample_config (λ _, 0%Z) 0%Z) Nat.ltb sample_config
         [0; 1; 2]%N)
      (MkExplorer (new_sequential_state sample_config 0%Z new_result [] 1)
         empty_exploration_graph [MkContext None [enter 0 Visit]]) =
    run (H := sequential_executor sample_config (λ _, 0%Z) 0%Z) Nat.ltb sample_config [0; 1; 2]%N n
      (new_sequential_state sample_config 0%Z new_result [] 1) empty_exploration_graph 0 Visit.
Proof.
  destruct (exploration_terminates (H := sequential_executor sample_config (λ _, 0%Z) 0%Z)
    Nat.ltb sample_config [0; 1; 2]%N (new_sequential_state sample_config 0%Z new_result [] 1)
    empty_exploration_graph 0 Visit) as (n & Hn).
  exists n. intros fuel Hle. by apply Hn.
Defined.

(** ** Unwinding and the caller's graph *)

Section contract.
Context {V O X : Type} `{EqDecision V} `{Executor V X} `{!StopSticky V X}
  (value_lt : V → V → bool) (config : DporConfig V O) (thread_ids : list ThreadId).

(** C21: the contract between the engine and any executor, for programs whose receive
    matchers do not throw: an invariant of the executor
    that survives its own operations, valid hand-offs and the publication of correctly
    classified executions survives the run, where what is handed off and published may be
    relied on to have any property that the engine's own mutations keep; and when the run
    returns, its stack is empty and the caller's graph holds the execution it held before. *)
Theorem exploration_contract (Q : ExplorationGraph V → Prop) (P : X → Prop) fuel x g depth md m :
  Carried value_lt (program config) (max_thread_events config) (communication_model config) Q →
  Preserves config thread_ids Q P → total_program (program config) → P x →
  Good (max_thread_events config) g →
  (md = Visit → Sound (max_thread_events config) (communication_model config) g) →
  (consistent_graph (communication_model config) g → Q g) →
  run value_lt config thread_ids fuel x g depth md = Ok m →
  P (executor m) ∧ contexts m = [] ∧ same_execution g (borrowed_graph m).
Proof.
  intros HQ HP Htot Hx Hg Hs HQg Hrun.
  destruct (run_ok value_lt config thread_ids Q P fuel x g depth md m HP HQ Htot Hx Hg Hs HQg Hrun)
    as (? & ? & _ & ?). done.
Qed.

Lemma stopped_run_Ok root (P : X → Prop) (m : Explorer V X) :
  Preserves config thread_ids (λ _, True) P → Explorer_ok config thread_ids (λ _, True) root P m →
  (stop_requested (V := V) (executor m)).1 = true →
  ∃ n m', ∀ fuel, n ≤ fuel → run_loop value_lt config thread_ids fuel m = Ok m' ∧
    contexts m' = [] ∧ same_execution root (borrowed_graph m').
Proof.
  intros HP Hm Hstop. remember (stack_size (contexts m)) as k eqn:Hk. revert m Hm Hstop Hk.
  induction k as [k IH] using lt_wf_ind. intros m Hm Hstop ->.
  destruct (stop_requested (executor m)) as [stop x] eqn:Ex. simpl in Hstop. subst stop.
  destruct (contexts m) as [|c cs] eqn:Hc.
  - exists 1, m. intros [|fuel] Hle; [lia|]. unfold run_loop. rewrite while_S.
    unfold run_step. rewrite Hc. destruct Hm as [_ Hctx]. rewrite Hc in Hctx.
    destruct Hctx as [_ Hb]. done.
  - assert (Explorer_ok config thread_ids (λ _, True) root P (set_executor m x)) as Hm'.
    { destruct Hm as [Hx Hctx]. split; [|done].
      pose proof (pr_stop config thread_ids _ P HP _ Hx) as Hx'. by rewrite Ex in Hx'. }
    destruct (unwind_one_step_total config thread_ids _ root P _ Hm') as (m1 & Hun).
    pose proof Hun as [Hlt He]%unwind_one_step_size; [|simpl; by rewrite Hc].
    destruct (IH (stack_size (contexts m1))) with (m := m1) as (n & m' & Hn).
    + by rewrite <-Hc.
    + eapply (unwind_one_step_ok value_lt); [apply anything_carried|done..].
    + rewrite He. simpl. by eapply stop_sticky.
    + done.
    + exists (S n), m'. intros [|fuel] Hle; [lia|]. unfold run_loop. rewrite while_S.
      unfold run_step. rewrite Hc, Ex, Hun. apply Hn. lia.
Qed.

(** C22: unwinding never fails, when receive matchers do not throw: from every state that an
    exploration can reach between two iterations, once a stop is requested the loop returns,
    with an empty stack and the caller's graph as it was. *)
Theorem stop_request_unwinds x g depth md (m : Explorer V X) :
  total_program (program config) → Good (max_thread_events config) g →
  (md = Visit → Sound (max_thread_events config) (communication_model config) g) →
  rtc (λ m1 m2, run_step value_lt config thread_ids m1 = Ok (inl m2))
    (MkExplorer x g [MkContext None [enter depth md]]) m →
  (stop_requested (V := V) (executor m)).1 = true →
  ∃ n m', ∀ fuel, n ≤ fuel → run_loop value_lt config thread_ids fuel m = Ok m' ∧
    contexts m' = [] ∧ same_execution g (borrowed_graph m').
Proof.
  intros Htot Hg Hs Hsteps Hstop.
  assert (Preserves config thread_ids (λ _, True) (λ _ : X, True)) as HP by (by split).
  apply (stopped_run_Ok g (λ _, True)); [done| |done].
  assert (Explorer_ok config thread_ids (λ _, True) g (λ _, True) (MkExplorer x g [MkContext None [enter depth md]]))
    as Hinit.
  { split; [done|]. simpl. split; [done|]. split_and!; [done| |done|by split].
    intros Hmd. by apply Hs. }
  revert Hinit. clear Hstop. induction Hsteps as [|m1 m2 m3 Hstep _ IH]; [done|].
  intros Hm1. apply IH. by apply (run_step_ok value_lt config thread_ids _ g _ HP (anything_carried _ _ _ _) Htot m1 _ Hm1) in Hstep.
Qed.

End contract.

(** The sample program with an observer that asks to stop at once. *)
Definition stopping_config : DporConfig nat (list (TerminalExecution nat)) :=
  recording_config two_senders 20 3 FifoP2P (λ _ _, Stop).

Abbreviation stopping_step :=
  (run_step (H := sequential_executor stopping_config (λ _, 0%Z) 0%Z) Nat.ltb stopping_config [0; 1; 2]%N).

(** The engine after [n] iterations, or fewer when it ends or throws before. *)
Fixpoint iterations (n : nat) (m : Explorer nat (SequentialState (list (TerminalExecution nat))))
    : Explorer nat (SequentialState (list (TerminalExecution nat))) :=
  match n with
  | 0 => m
  | S n' => match stopping_step m with Ok (inl m') => iterations n' m' | _ => m end
  end.

Lemma iterations_reachable n m : rtc (λ m1 m2, stopping_step m1 = Ok (inl m2)) m (iterations n m).
Proof.
  revert m. induction n as [|n IH]; intros m; simpl; [apply rtc_refl|].
  destruct (stopping_step m) as [[m'|m']|e] eqn:Hm; [|apply rtc_refl..]. by eapply rtc_l.
Qed.

Definition stopping_start : Explorer nat (SequentialState (list (TerminalExecution nat))) :=
  MkExplorer (new_sequential_state stopping_config 0%Z new_result [] 1) empty_exploration_graph
    [MkContext None [enter 0 Visit]].

Lemma sample_preserves : Preserves (H := sequential_executor sample_config (λ _, 0%Z) 0%Z)
  sample_config [0; 1; 2]%N (follows_graph two_senders) (λ _, True).
Proof. by split. Qed.

Lemma exploration_contract_witness :
  ∃ m, run (H := sequential_executor sample_config (λ _, 0%Z) 0%Z) Nat.ltb sample_config [0; 1; 2]%N
         100 (new_sequential_state sample_config 0%Z new_result [] 1) empty_exploration_graph 0 Visit
       = Ok m ∧ events (borrowed_graph m) = [].
Proof.
  set (r := run (H := sequential_executor sample_config (λ _, 0%Z) 0%Z) Nat.ltb sample_config
    [0; 1; 2]%N 100 (new_sequential_state sample_config 0%Z new_result [] 1)
    empty_exploration_graph 0 Visit).
  assert (is_Ok r = true) as Hok by (vm_compute; reflexivity).
  destruct r as [m|e] eqn:Hr; [|discriminate Hok]. exists m. split; [reflexivity|].
  destruct (exploration_contract (H := sequential_executor sample_config (λ _, 0%Z) 0%Z) Nat.ltb
    sample_config [0; 1; 2]%N (follows_graph two_senders) (λ _, True) 100
    (new_sequential_state sample_config 0%Z new_result [] 1) empty_exploration_graph 0 Visit m
    (follows_carried _ _ _ _) sample_preserves two_senders_total I) as (_ & _ & [Hev _ _ _]).
  - apply (sound_good _ FifoP2P), empty_Sound.
  - intros _. apply empty_Sound.
  - intros _. apply follows_empty.
  - exact Hr.
  - rewrite <-Hev. reflexivity.
Defined.

(** Seven iterations reach the first complete execution, whose observer asks to stop, with
    three frames still on the stack. *)
Lemma stop_request_unwinds_witness :
  length (concat (frames <$> contexts (iterations 7 stopping_start))) = 3 ∧
  ∃ n m', ∀ fuel, n ≤ fuel →
    run_loop (H := sequential_executor stopping_config (λ _, 0%Z) 0%Z) Nat.ltb stopping_config
      [0; 1; 2]%N fuel (iterations 7 stopping_start) = Ok m' ∧ contexts m' = [].
Proof.
  split; [vm_compute; reflexivity|].
  assert ((stop_requested (V := nat) (Executor := sequential_executor stopping_config (λ _, 0%Z) 0%Z)
    (executor (iterations 7 stopping_start))).1 = true) as Hstop by (vm_compute; reflexivity).
  pose proof (iterations_reachable 7 stopping_start) as Hsteps. revert Hstop Hsteps.
  generalize (iterations 7 stopping_start). intros m Hstop Hsteps.
  destruct (stop_request_unwinds (H := sequential_executor stopping_config (λ _, 0%Z) 0%Z) Nat.ltb
    stopping_config [0; 1; 2]%N (new_sequential_state stopping_config 0%Z new_result [] 1)
    empty_exploration_graph 0 Visit m) as (n & m' & Hn).
  - exact two_senders_total.
  - apply (sound_good _ FifoP2P), empty_Sound.
  - intros _. apply empty_Sound.
  - exact Hsteps.
  - exact Hstop.
  - exists n, m'. intros fuel Hle. destruct (Hn fuel Hle) as (Hrun & Hc & _). by split.
Defined.
