(* ===== verification/FaultTheorems.v ===== *)
(** * FaultTheorems: the invariant checks of the engine never fail

    The two theorems on the error behaviour of the engine, with their witnesses: the
    masked tiebreaker is total and agrees with its reference implementation, and
    [verify] throws nothing but what user code made it throw. *)

From stdpp Require Import base tactics numbers relations sets sorting list strings.
From S2P Require Import Prelude Errors Event Relation ExecutionGraph ExplorationGraph Porf.
From S2P Require Import Consistency StorageFacts ExecutionGraphFacts ExplorationFacts Rollback.
From S2P Require Import Queries PorfFacts PorfClocks ConsistencyFacts CheckerFacts FifoFacts.
From S2P Require Import Program Masked Dpor Revisit Explorer RestrictFacts SoundFacts.
From S2P Require Import Tiebreaker.
From S2P Require Import MaskedFacts RevisitFacts NextEvent Conformance Totality EngineFacts.
From S2P Require Import Faults.
From S2P Require Import Termination VerifyFacts Samples GraphTheorems CheckerTheorems.
From S2P Require Import StepTheorems.

Section faults.
Context {V : Type} `{EqDecision V} (value_lt : V → V → bool).

(** C15: the tiebreaker that works on the full graph with a keep mask returns, and returns
    what materializing the restricted graph and running the reference tiebreaker on it
    returns: on a sound graph, for a mask closed under program order that keeps a blocking
    receive and its source, both give the send that comes first, by sender thread and
    insertion order, among the sends the receive may read instead of its source such that
    the restricted graph stays consistent. *)
Theorem masked_tiebreaker_agrees bound model (g : ExplorationGraph V) mask recv current er rl :
  Sound bound model g → length mask = event_count g →
  (∀ a b, po (events g) a b → mask !! b = Some true → mask !! a = Some true) →
  events g !! recv = Some er → as_receive er = Some rl → is_nonblocking rl = false →
  rf_find (reads_from g) recv = Some (from_send current) →
  mask !! recv = Some true → mask !! current = Some true →
  ∃ s r recv' s' er', get_cons_tiebreaker_masked g mask recv model = Ok s ∧
    get_cons_tiebreaker_masked_via_restriction g mask recv model = Ok s ∧
    restrict_from_keep_mask g mask = Ok r ∧
    kept_ids mask !! recv' = Some recv ∧ kept_ids mask !! s' = Some s ∧
    events r !! recv' = Some er' ∧
    tiebreak model (events r) (reads_from r) (allow_missing_reads_for_non_target recv')
      recv' er' rl s'.
Proof.
  intros [[Hinv _ Ht _] Hc] Hlen Hclosed Her Hrl Hb Hsrc Hr Hcur.
  by eapply get_cons_tiebreaker_masked_Ok.
Qed.

(** C23: [revisit_condition] and [next_backward_revisit_child] return on every sound graph:
    none of the invariant checks they make ([internal_error]), none of the checked lookups
    ([precondition_error]) and none of the unchecked vector accesses (undefined behaviour)
    fails, for any event and any list of receives of the graph. *)
Theorem revisits_return bound model (g : ExplorationGraph V) send receives i :
  Sound bound model g → send < event_count g → (∀ r, r ∈ receives → r < event_count g) →
  (∀ e, e < event_count g → ∃ b, revisit_condition value_lt g e send model = Ok b) ∧
  ∃ c, next_backward_revisit_child value_lt g send model receives i = Ok c.
Proof.
  intros Hs Hsend Hr. split.
  - intros e He. by apply (revisit_condition_returns value_lt bound model).
  - by apply (next_backward_revisit_child_returns value_lt bound model).
Qed.

Context {O : Type} (clock : nat → Z) (config : DporConfig V O).

(** C4: an accepted configuration makes [verify] throw nothing but a [user_code_error] or
    the error of a thread with no event index left: when every callback returns or throws,
    every receive matcher returns, and the thread ids fit, no [internal_error], no other
    [precondition_error] and no undefined behaviour occurs in the whole exploration,
    however long it runs. *)
Theorem verify_reports_user_errors_only (o : O) tids :
  total_program (program config) → catchable_program (program config) →
  catchable_observers config → validate_terminal_observer_config config = Ok tt →
  sorted_thread_ids (program config) = Ok tids → (∀ tid, tid ∈ tids → tid ≤ kMaxThreadId)%N →
  ∃ n, ∀ fuel e, n ≤ fuel → verify value_lt clock config o fuel = Throw e →
    is_Some (user_code_kind e) ∨ e = no_available_index.
Proof.
  intros Htotal Hcatch Hobs Hval Htids Hmax.
  set (x0 := new_sequential_state config (clock 0) new_result o 1).
  destruct (sequential_halts value_lt clock config tids o) as (n & Hn). fold x0 in Hn.
  exists n. intros fuel e Hle Hrun. unfold verify in Hrun. rewrite Hval, Htids in Hrun.
  cbn [mbind result_bind] in Hrun.
  pose proof (sorted_runnable _ _ Htids Hmax) as Hruns.
  pose proof (sequential_guarded config clock (clock 0) Hobs) as Hguard.
  destruct (visit_sequential _ _ _ _ fuel _ _ _ _ _) as [m|e'] eqn:Hv; cbn [mbind result_bind] in Hrun.
  - destruct (publish_final_progress config clock (clock 0) (executor m)) as [s|e'] eqn:Hf; [done|].
    injection Hrun as <-. by apply (publish_final_guarded config clock (clock 0) Hobs (executor m)).
  - injection Hrun as <-. unfold visit_sequential, run, run_loop in Hv. fold x0 in Hv.
    assert (Explorer_ok config tids (λ _, True) (empty_exploration_graph (V := V)) (λ _, True)
      (MkExplorer x0 empty_exploration_graph [MkContext None [enter 0 Visit]])) as Hok.
    { pose proof (empty_Sound (V := V) (max_thread_events config) (communication_model config)) as Hs.
      split; [done|]. simpl. split; [done|]. split_and!; [apply Hs|intros; apply Hs|done|done]. }
    assert (∀ oof, while fuel oof (run_step (H := sequential_executor config clock (clock 0))
      value_lt config tids) (MkExplorer x0 empty_exploration_graph
        [MkContext None [enter 0 Visit]]) = Throw e') as Hany.
    { intros oof. by rewrite (Hn fuel oof Hle), <-(Hn fuel nontermination Hle). }
    assert (∀ oof, e' = oof ∨ expected e') as Hcases.
    { intros oof. eapply (while_guarded (H := sequential_executor config clock (clock 0))
        value_lt config tids (λ _, True) (anything_carried _ _ _ _) empty_exploration_graph (λ _, True));
        [by split|done..|apply Hany]. }
    destruct (Hcases nontermination) as [->|?]; [|done].
    by destruct (Hcases undefined_behavior).
Qed.

End faults.

(** ** Witnesses *)

(** In [rival] the receive 1 reads the send 0; the send 2 of thread 2 is unread. *)
Lemma masked_tiebreaker_agrees_witness :
  ∃ s, get_cons_tiebreaker_masked rival [true; true; true] 1 Async = Ok s ∧
    get_cons_tiebreaker_masked_via_restriction rival [true; true; true] 1 Async = Ok s.
Proof.
  assert (∃ er rl, events rival !! 1 = Some er ∧ as_receive er = Some rl ∧ is_nonblocking rl = false)
    as (er & rl & Her & Hrl & Hb).
  { vm_compute. eexists _, _. by split_and!. }
  destruct (masked_tiebreaker_agrees 0 Async rival [true; true; true] 1 0 er rl rival_Sound)
    as (s & _ & _ & _ & _ & Hs & Hs' & _).
  - reflexivity.
  - intros a b [Hab _] Hb'%lookup_lt_Some. simpl in Hb'.
    destruct a as [|[|[|a]]]; [reflexivity..|lia].
  - exact Her.
  - exact Hrl.
  - exact Hb.
  - vm_compute. reflexivity.
  - reflexivity.
  - reflexivity.
  - exists s. split; [exact Hs|exact Hs'].
Defined.

Lemma revisits_return_witness :
  ∃ c, next_backward_revisit_child Nat.ltb rival 2 Async [1] 0 = Ok c.
Proof.
  apply (revisits_return Nat.ltb 0 Async rival 2 [1] 0 rival_Sound).
  - apply Nat.ltb_lt. vm_compute. reflexivity.
  - intros r ->%list_elem_of_singleton. apply Nat.ltb_lt. vm_compute. reflexivity.
Defined.

Lemma two_senders_catchable : catchable_program two_senders.
Proof.
  intros tid f trace step e Hf He. exfalso. unfold tm_at, two_senders in Hf. simpl in Hf.
  destruct (N.to_nat tid) as [|[|[|n]]]; simpl in Hf; try discriminate Hf; injection Hf as <-;
    discriminate He.
Qed.

Lemma verify_reports_user_errors_only_witness :
  ∃ n, ∀ fuel e, n ≤ fuel → verify Nat.ltb (λ _, 0%Z) sample_config [] fuel = Throw e →
    is_Some (user_code_kind e) ∨ e = no_available_index.
Proof.
  apply (verify_reports_user_errors_only Nat.ltb (λ _, 0%Z) sample_config [] [0; 1; 2]%N).
  - exact two_senders_total.
  - exact two_senders_catchable.
  - split_and!; [|discriminate|discriminate]. intros f o t e [= <-]. discriminate.
  - reflexivity.
  - vm_compute. reflexivity.
  - intros tid Htid. apply N.leb_le.
    repeat (apply elem_of_cons in Htid as [->|Htid]; [reflexivity|]). by apply elem_of_nil in Htid.
Defined.
