(* ===== verification/ParallelTheorems.v ===== *)
(** * ParallelTheorems: what [verify_parallel] guarantees

    The theorems about the pool of workers: it does not deadlock unless a stop is
    requested, when it can; what observers see and what the counters count, whatever the
    interleaving; and that one worker does what the sequential engine does. *)

From stdpp Require Import base tactics numbers relations sets list strings.
From S2P Require Import Prelude Errors Event Relation ExecutionGraph ExplorationGraph Porf.
From S2P Require Import Consistency Program Masked Dpor Revisit Explorer Parallel.
From S2P Require Import ExplorationFacts.
From S2P Require Import SoundFacts NextEvent Conformance EngineFacts RunFacts Termination.
From S2P Require Import VerifyFacts.
From S2P Require Import PoolFacts.
From S2P Require Import PoolRule.
From S2P Require Import SingleWorker Samples.

(** ** Progress *)

Section progress.
Context {V O : Type} `{EqDecision V} (value_lt : V → V → bool) (config : DporConfig V O)
  (clock : nat → Z) (start : Z) (tids : list ThreadId).

(** C9: no wake-up is lost as long as no stop is requested: when none of the workers can
    move, every worker has left its loop or is parked; and unless a stop was requested,
    every worker has left, the search is complete, the queue is empty, no worker counts as
    active and no exception was recorded. *)
Theorem pool_progress options hc o p :
  rtc (pool_step value_lt config (resolve_options options hc) clock start tids)
    (initial_pool config (resolve_options options hc) start o) p →
  (∀ i chosen,
     worker_step value_lt config (resolve_options options hc) clock start tids p i chosen = None) →
  (∀ i w, workers p !! i = Some w → w_phase w = Exited ∨ w_phase w = Parked) ∧
  (stop_requested_ (p_shared p) = false →
     (∀ i w, workers p !! i = Some w → w_phase w = Exited) ∧
     search_complete_ (p_shared p) = true ∧ task_queue_ (p_shared p) = [] ∧
     active_workers_ (p_shared p) = 0 ∧ first_exception_ (p_shared p) = None).
Proof.
  intros Hr Hstuck. eapply stuck_pool; [|exact Hstuck].
  eapply reachable_orderly; [|exact Hr]. apply initial_orderly, resolve_options_workers.
Qed.

End progress.

Lemma pool_progress_witness :
  search_complete_ (p_shared sample_pool) = true ∧ task_queue_ (p_shared sample_pool) = [].
Proof.
  destruct (pool_progress Nat.ltb sample_config (λ _, 0%Z) 0%Z [0; 1; 2]%N two_workers 8 []
    sample_pool) as [_ Hquiet].
  - exact sample_pool_reachable.
  - intros [|[|i]] chosen; vm_compute; reflexivity.
  - destruct Hquiet as (_ & Hc & Hq & _); [vm_compute; reflexivity|]. split; [exact Hc|exact Hq].
Defined.

(** ** A lost wake-up *)

(** A thread that sends one message, and an observer that asks to stop. *)
Definition stopping_config : DporConfig nat (list (TerminalExecution nat)) :=
  recording_config (MkProgram (tm_of_list [(0%N, script [send_to 0 1])])) 20 3 Async (λ _ _, Stop).

(** Worker 0 takes the task; worker 1 finds the queue empty and is about to block; worker
    0 publishes an execution, is told to stop and broadcasts; only then does worker 1
    block. *)
Definition unlucky_schedule : list nat :=
  [0; 0; 0; 0; 1; 1; 1] ++ replicate 20 0 ++ [1] ++ replicate 8 0.

(** C10: [request_stop] stores the stop flag and broadcasts without holding
    [queue_mutex_].  A worker between the evaluation of its wait predicate and the wait
    misses that broadcast: two workers reach a state in which a stop is requested, worker
    0 has left its loop, worker 1 is parked, and no worker can move, so that joining
    worker 1 waits for a spurious wake-up. *)
Theorem stop_request_can_lose_wakeup :
  ∃ p, rtc (pool_step Nat.ltb stopping_config (resolve_options two_workers 8) (λ _, 0%Z) 0%Z [0%N])
         (initial_pool stopping_config (resolve_options two_workers 8) 0%Z []) p ∧
    stop_requested_ (p_shared p) = true ∧ first_exception_ (p_shared p) = None ∧
    lock_owner p = None ∧ w_phase <$> workers p = [Exited; Parked] ∧
    ∀ i chosen, worker_step Nat.ltb stopping_config (resolve_options two_workers 8) (λ _, 0%Z) 0%Z
                  [0%N] p i chosen = None.
Proof.
  exists (drive Nat.ltb stopping_config (resolve_options two_workers 8) (λ _, 0%Z) 0%Z [0%N]
    unlucky_schedule (initial_pool stopping_config (resolve_options two_workers 8) 0%Z [])).
  split_and!; [apply drive_reachable|vm_compute; reflexivity..|].
  intros [|[|i]] chosen; vm_compute; reflexivity.
Qed.

(** ** What a recording observer has recorded *)

Section recording.
Context {V : Type} `{EqDecision V} (value_lt : V → V → bool) (clock : nat → Z).
Implicit Types (log : list (TerminalExecution V)).

(** The result with the counters [c]. *)
Definition counts_result (c : Counts) : VerifyResult :=
  MkVerifyResult AllExplored (total_count c) (cn_full c) (cn_blocked c) (cn_error c)
    (cn_depth_limit c) (cn_thread_event_limit c) (cn_max_depth c) 0 0.

Lemma counts_result_one c kind d :
  counts_result (count_one c kind d) = after_publication (counts_result c) kind d Continue.
Proof.
  unfold after_publication. simpl. unfold increment_terminal_counts, counts_result, count_one, total_count.
  destruct kind; simpl; f_equal; lia.
Qed.

(** The observer answered [Stop] to an execution of [log]. *)
Definition asked_to_stop (stop : list (TerminalExecution V) → TerminalExecution V →
    TerminalExecutionAction) log : Prop :=
  ∃ i e, log !! i = Some e ∧ stop (take i log) e = Stop.

Lemma asked_to_stop_snoc stop log e :
  asked_to_stop stop (log ++ [e]) ↔ stop log e = Stop ∨ asked_to_stop stop log.
Proof.
  split.
  - intros (i & e' & [Hi|[Hge Hi]]%lookup_app_Some & Hs).
    + right. exists i, e'. split; [done|]. rewrite <-Hs. f_equal.
      rewrite take_app_le; [done|]. apply lookup_lt_Some in Hi. lia.
    + left. apply list_lookup_singleton_Some in Hi as [Hi <-].
      replace i with (length log) in Hs by lia. by rewrite take_app_length in Hs.
  - intros [Hs|(i & e' & Hi & Hs)].
    + exists (length log), e. rewrite take_app_length. by rewrite lookup_app_r, Nat.sub_diag by lia.
    + pose proof (lookup_lt_Some _ _ _ Hi). exists i, e'.
      by rewrite lookup_app_l, take_app_le by lia.
Qed.

(** C6: for a program whose receive matchers do not throw and every interleaving of any
    number of workers, with an observer that records
    what it is given and answers as [stop] says, the counters of the result of
    [verify_parallel] are exactly the account of the recorded executions, each of which
    follows the program, is consistent and of its kind, and the result is [Stopped] exactly when the observer
    asked for it. *)
Theorem verify_parallel_log p depth bound model stop tids options hc inside r log :
  total_program p → sorted_thread_ids p = Ok tids →
  verify_parallel value_lt clock (recording_config p depth bound model stop) options hc inside []
    (Ok (r, log)) →
  accounts tids log r ∧
  Forall (λ e, published (recording_config p depth bound model stop) tids (te_graph e) (te_kind e)
                 (compute_max_thread_event_depth (te_graph e) tids) ∧
               follows_graph p (te_graph e)) log ∧
  (vr_kind r = Stopped ↔ asked_to_stop stop log).
Proof.
  intros Htotal Htids Hrun. set (config := recording_config p depth bound model stop) in *.
  apply (verify_parallel_rule value_lt clock config options hc inside (λ log c b,
    accounts tids log (counts_result c) ∧
    Forall (λ e, published config tids (te_graph e) (te_kind e)
                 (compute_max_thread_event_depth (te_graph e) tids) ∧
               follows_graph p (te_graph e)) log ∧
    (b = true ↔ asked_to_stop stop log))) in Hrun as [([] & Hpub & Hstop) Hsum].
  - split_and!; [|done|by rewrite <-Hstop, bool_decide_eq_true]. split; try done. by rewrite Hsum.
  - intros o c b s o' HJ [= <-]. done.
  - intros tids' o c b g kind d a o' Htids' (Hacc & Hpub & Hstop) Hp Hf [= Ha <-].
    assert (tids' = tids) as -> by (unfold config in Htids'; simpl in Htids'; congruence).
    pose proof Hp as (_ & Hd & _). subst d a. split_and!.
    + rewrite counts_result_one. by apply (accounts_snoc tids o _ (MkTerminalExecution g kind)).
    + apply Forall_app. split; [done|]. by constructor.
    + by rewrite asked_to_stop_snoc, orb_true_iff, bool_decide_eq_true, Hstop.
  - done.
  - split_and!; [by split|apply Forall_nil_2|]. split; [done|]. by intros (i & e & ? & _).
Qed.

(** C7: for a program whose receive matchers do not throw and every interleaving of any
    number of workers, every execution [verify_parallel]
    hands to the observer is the record of a run of the program that ended as its kind
    says. *)
Theorem verify_parallel_publishes_runs p depth bound model stop tids options hc inside r log :
  total_program p → sorted_thread_ids p = Ok tids →
  verify_parallel value_lt clock (recording_config p depth bound model stop) options hc inside []
    (Ok (r, log)) →
  Forall (λ e, run_of (recording_config p depth bound model stop) tids (te_graph e) (te_kind e)) log.
Proof.
  intros Htotal Htids Hrun. set (config := recording_config p depth bound model stop) in *.
  apply (verify_parallel_rule value_lt clock config options hc inside (λ log _ _,
    Forall (λ e, run_of config tids (te_graph e) (te_kind e)) log)) in Hrun as [Hlog _]; [done|..|done|].
  - intros o c b s o' HJ [= <-]. done.
  - intros tids' o c b g kind d a o' Htids' Hlog Hp Hf [= _ <-].
    assert (tids' = tids) as -> by (unfold config in Htids'; simpl in Htids'; congruence).
    apply Forall_app. split; [done|]. constructor; [|constructor]. by eapply published_is_run.
  - apply Forall_nil_2.
Qed.

End recording.

Lemma verify_parallel_publishes_runs_witness :
  ∃ r log, verify_parallel Nat.ltb (λ _, 0%Z) sample_config two_workers 8 false [] (Ok (r, log)) ∧
    Forall (λ e, run_of sample_config [0; 1; 2]%N (te_graph e) (te_kind e)) log.
Proof.
  set (fin := finish_pool sample_config (resolve_options two_workers 8) (λ _, 0%Z) 0%Z
    (p_shared sample_pool) new_worker).
  assert (verify_parallel Nat.ltb (λ _, 0%Z) sample_config two_workers 8 false [] fin) as Hrun.
  { exact (vp_run Nat.ltb (λ _, 0%Z) sample_config two_workers 8 false [] [0; 1; 2]%N sample_pool
      (MkWorker Exited new_worker) eq_refl eq_refl eq_refl sample_pool_reachable
      (proj1 sample_pool_exited) (proj2 sample_pool_exited)). }
  assert (is_Ok fin = true) as Hok by (vm_compute; reflexivity).
  destruct fin as [[r log]|e]; [|discriminate Hok]. exists r, log. split; [exact Hrun|].
  apply (verify_parallel_publishes_runs Nat.ltb (λ _, 0%Z) two_senders 20 3 FifoP2P (λ _ _, Continue)
    [0; 1; 2]%N two_workers 8 false r log).
  - exact two_senders_total.
  - reflexivity.
  - exact Hrun.
Defined.

(** The run of the sample pool ends, and its counters agree with its log. *)
Lemma verify_parallel_log_witness :
  ∃ r log, verify_parallel Nat.ltb (λ _, 0%Z) sample_config two_workers 8 false [] (Ok (r, log)) ∧
    executions_explored r = length log ∧ length log = 2.
Proof.
  set (fin := finish_pool sample_config (resolve_options two_workers 8) (λ _, 0%Z) 0%Z
    (p_shared sample_pool) new_worker).
  assert (verify_parallel Nat.ltb (λ _, 0%Z) sample_config two_workers 8 false [] fin) as Hrun.
  { exact (vp_run Nat.ltb (λ _, 0%Z) sample_config two_workers 8 false [] [0; 1; 2]%N sample_pool
      (MkWorker Exited new_worker) eq_refl eq_refl eq_refl sample_pool_reachable
      (proj1 sample_pool_exited) (proj2 sample_pool_exited)). }
  assert (match fin with Ok (_, log) => length log | Throw _ => 0 end = 2) as Hlen
    by (vm_compute; reflexivity).
  destruct fin as [[r log]|e]; [|discriminate Hlen]. exists r, log. split; [exact Hrun|].
  destruct (verify_parallel_log Nat.ltb (λ _, 0%Z) two_senders 20 3 FifoP2P (λ _ _, Continue)
    [0; 1; 2]%N two_workers 8 false r log) as [[Hall _ _ _ _ _ _] _].
  - exact two_senders_total.
  - reflexivity.
  - exact Hrun.
  - split; [exact Hall|exact Hlen].
Defined.

(** ** One worker *)

Section one_worker.
Context {V O : Type} `{EqDecision V} (value_lt : V → V → bool) (clock : nat → Z)
  (config : DporConfig V O).

(** C8: with one worker and no progress observer, whatever the other options,
    [verify_parallel] returns, it returns one result only, and that is the result of
    [verify], exceptions included. *)
Theorem single_worker_is_verify options hc o :
  on_progress config = None → resolve_max_workers (opt_max_workers options) hc = 1 →
  ∃ n r, (∀ fuel, n ≤ fuel → verify value_lt clock config o fuel = r) ∧
    ∀ r', verify_parallel value_lt clock config options hc false o r' ↔ r' = r.
Proof.
  intros Hquiet Hone. unfold verify.
  destruct (validate_terminal_observer_config config) as [[]|e] eqn:Hcfg.
  2:{ exists 0, (Throw e). split; [done|]. intros r'. split; [|intros ->; by constructor].
      by inversion 1; congruence. }
  destruct (sorted_thread_ids (program config)) as [tids|e] eqn:Htids.
  2:{ exists 0, (Throw e). split; [done|]. intros r'. split; [|intros ->; by constructor].
      by inversion 1; congruence. }
  set (pc := resolve_options options hc). assert (pc_max_workers pc = 1) as Hpc by done.
  destruct (halts_ends value_lt config clock (clock 0) tids _
    (run_halts (H := sequential_executor config clock (clock 0)) value_lt config tids
       (new_sequential_state config (clock 0) new_result o 1) empty_exploration_graph 0 Visit))
    as (k & r & Hends).
  pose proof (initial_single value_lt config pc clock (clock 0) tids Hpc o k r Hends) as Hs.
  exists (S k), r. split.
  - intros fuel Hle. rewrite <-(ends_loop value_lt config clock (clock 0) tids k _ r Hends fuel) by lia.
    simpl. unfold visit_sequential, run. destruct (run_loop _ _ _ _ _) as [m|e]; [|done].
    simpl. unfold publish_final_progress. by rewrite Hquiet.
  - intros r'. split.
    + intros Hrun. inversion Hrun as [| | |tids' p w _ Htids' _ Hsteps Hexit Hw]; try congruence.
      assert (tids' = tids) as -> by congruence.
      destruct (single_run value_lt config pc clock (clock 0) tids Hquiet Hpc r _ _ p Hs Hsteps) as [n Hn].
      by apply (single_finish value_lt config pc clock (clock 0) tids Hquiet r n p w).
    + intros ->. destruct (single_exits value_lt config pc clock (clock 0) tids Hquiet Hpc r _ _
        (initial_orderly config pc (clock 0) o ltac:(lia)) Hs) as (p & Hsteps & Hexit).
      destruct (single_run value_lt config pc clock (clock 0) tids Hquiet Hpc r _ _ p Hs Hsteps) as [n Hn].
      pose proof Hn as (ph & ws & Hw & _).
      rewrite <-(single_finish value_lt config pc clock (clock 0) tids Hquiet r n p (MkWorker ph ws));
        [|done|done|by rewrite Hw].
      by eapply vp_run; [..|rewrite Hw].
Qed.

End one_worker.

Lemma single_worker_is_verify_witness :
  ∃ r, verify_parallel Nat.ltb (λ _, 0%Z) sample_config (MkOptions 1 0 0 512 1 1024 64) 8 false [] r ∧
    ∀ r', verify_parallel Nat.ltb (λ _, 0%Z) sample_config (MkOptions 1 0 0 512 1 1024 64) 8 false [] r' →
      r' = r.
Proof.
  destruct (single_worker_is_verify Nat.ltb (λ _, 0%Z) sample_config (MkOptions 1 0 0 512 1 1024 64) 8
    [] eq_refl eq_refl) as (n & r & _ & Hr).
  exists r. split; [apply Hr; reflexivity|]. intros r'. apply Hr.
Defined.
