(* ===== verification/FatalTheorems.v ===== *)
(** * FatalTheorems: the diagnostic hook

    [on_fatal_error] is told of a failure of the exploration once, with an execution of the
    program, and cannot change what [verify] and [verify_parallel] do; the stack is unwound
    before the exception is rethrown. *)

From stdpp Require Import base tactics numbers relations sets list strings.
From S2P Require Import Prelude Errors Event ExecutionGraph ExplorationGraph Program Dpor.
From S2P Require Import Explorer.
From S2P Require Import Parallel Fatal SoundFacts NextEvent Conformance EngineFacts Faults.
From S2P Require Import VerifyFacts PoolFacts PoolRule FatalFacts Samples.

Section sequential.
Context {V O F : Type} `{EqDecision V} (value_lt : V → V → bool) (clock : nat → Z)
  (config : DporConfig V O) (torn : ExplorationGraph V → ExplorationGraph V)
  (hook : FatalErrorObserver V F).

(** The engine at the start of an exploration. *)
Lemma initial_explorer_ok {X} (x : X) tids :
  Explorer_ok config tids (follows_graph (program config)) (empty_exploration_graph (V := V)) (λ _, True)
    (MkExplorer x empty_exploration_graph [MkContext None [enter 0 Visit]]).
Proof.
  pose proof (empty_Sound (V := V) (max_thread_events config) (communication_model config)) as Hs.
  split; [done|]. simpl. split; [done|]. split_and!; [apply Hs|intros; apply Hs|intros; apply follows_empty|done].
Qed.

(** C11: the hook is diagnostic.  Whatever it does, throwing included, [verify] returns or
    throws what it does without one.  It is not called when the exploration ends by itself, and
    called exactly once when the exploration throws, with that exception; so much holds of
    every program.  When the program's receive matchers do not throw ([total_program]), its
    thread ids are within the limit, and the exception comes from user code (a thread function,
    an observer or the progress callback), the graph the hook is given is a consistent
    execution that follows the program; a matcher that throws may do so on a candidate whose
    consistency has not been checked yet. *)
Theorem fatal_error_reported (o : O) (h : F) tids :
  validate_terminal_observer_config config = Ok tt → sorted_thread_ids (program config) = Ok tids →
  ∃ n, ∀ fuel, n ≤ fuel →
    let '(out, h') := verify_reporting value_lt clock torn (Some hook) config o h fuel in
    out = verify value_lt clock config o fuel ∧
    match visit_sequential value_lt clock config (clock 0) fuel tids
            (new_sequential_state config (clock 0) new_result o 1) empty_exploration_graph 0 Visit with
    | Ok _ => h' = h
    | Throw e => out = Throw e ∧ ∃ g, h' = (hook h (MkFatalErrorContext g e)).1 ∧
        (total_program (program config) → (∀ tid, tid ∈ tids → tid ≤ kMaxThreadId)%N → user_error e →
           Sound (max_thread_events config) (communication_model config) g ∧
           follows_graph (program config) g)
    end.
Proof.
  intros Hval Htids.
  destruct (sequential_halts value_lt clock config tids o) as (n & Hn). exists n. intros fuel Hle.
  unfold verify_reporting, verify. rewrite Hval, Htids. cbn [mbind result_bind]. unfold run_loop_reporting.
  set (x := new_sequential_state config (clock 0) new_result o 1) in *. unfold visit_sequential, run in *.
  set (m0 := MkExplorer x empty_exploration_graph [MkContext None [enter 0 Visit]]) in *.
  pose proof (attempt_loop_settled (H := sequential_executor config clock (clock 0)) value_lt config tids torn fuel m0)
    as Hset. rewrite <-Hset.
  destruct (attempt_loop _ _ _ _ _ _) as [m|e m] eqn:Hloop; [done|]. simpl. split_and!; [done..|].
  assert (¬ ∀ oof, while fuel oof (run_step (H := sequential_executor config clock (clock 0)) value_lt config tids) m0 =
    Throw oof) as Hfuel.
  { intros Hout. pose proof (Hn fuel nontermination Hle) as H1. pose proof (Hn fuel undefined_behavior Hle) as H2.
    rewrite Hout in H1, H2. congruence. }
  destruct (attempt_loop_standing (H := sequential_executor config clock (clock 0)) value_lt config tids torn fuel m0 e m
    Hloop) as [Hout|Hst]; [done|].
  unfold report_failure. unfold standing in Hst. destruct (contexts m) as [|c cs] eqn:Ec; [done|].
  exists (context_graph m c). split; [done|]. intros Htotal Hmax Hu.
  destruct (attempt_loop_raised (H := sequential_executor config clock (clock 0)) value_lt config tids _
    (follows_carried _ _ _ _) _ torn Htotal (sorted_runnable _ _ Htids Hmax) fuel m0 e m (initial_explorer_ok _ _) Hloop)
    as [Hout|Hint]; [done|].
  destruct (interrupted_graph (H := sequential_executor config clock (clock 0)) value_lt config tids _ (follows_carried _ _ _ _) _ e m (Hint Hu)) as (c' & Hc & Hg).
  rewrite Ec in Hc. by injection Hc as <-.
Qed.

End sequential.

Section unwinding.
Context {V O X F : Type} `{EqDecision V} `{Executor V X} (value_lt : V → V → bool)
  (config : DporConfig V O) (thread_ids : list ThreadId)
  (torn : ExplorationGraph V → ExplorationGraph V).

(** C13: when the program's receive matchers do not throw ([total_program]), the stack is
    unwound before an exception of the other user code (a thread function, an observer or
    the progress callback) is rethrown, and no rollback of the unwinding fails: the
    caller's graph is as it was, unless the exception came out of the publication of an
    error execution that is the caller's graph and one error event, which is then what the
    caller's graph is left as. *)
Theorem failure_unwinds x g depth md (notify : ExplorationGraph V → exn → F → F) fuel h e h' g' :
  total_program (program config) → runnable (program config) thread_ids →
  Good (max_thread_events config) g →
  (md = Visit → Sound (max_thread_events config) (communication_model config) g) →
  run_loop_reporting value_lt config thread_ids torn notify fuel
    (MkExplorer x g [MkContext None [enter depth md]]) h = (Throw e, h', g') → user_error e →
  same_execution g g' ∨
  ∃ ev, events g' = events g ++ [ev] ∧ is_error ev = true ∧
    ∃ x', publish_terminal_execution g' ErrorExecution (compute_max_thread_event_depth g' thread_ids) x' = Throw e.
Proof.
  intros Htotal Hruns Hg Hs Hrun Hu. unfold run_loop_reporting in Hrun.
  set (m0 := MkExplorer x g [MkContext None [enter depth md]]) in *.
  destruct (attempt_loop _ _ _ _ _ _) as [m|e1 m] eqn:Hloop; [done|]. injection Hrun as <- <- <-.
  assert (Explorer_ok config thread_ids (λ _, True) g (λ _ : X, True) m0) as Hok.
  { split; [done|]. simpl. split; [done|]. split_and!; [done| |done|by split]. intros Hmd. by apply Hs. }
  destruct (attempt_loop_raised value_lt config thread_ids _ (anything_carried _ _ _ _) g torn Htotal Hruns fuel m0
    e1 m Hok Hloop) as [Hout|Hint].
  { pose proof (attempt_loop_settled value_lt config thread_ids torn fuel m0) as Hset. rewrite Hloop in Hset.
    unfold run_loop in Hset. rewrite Hout in Hset. injection Hset as ->. by destruct Hu. }
  destruct (interrupted_unwinds value_lt config thread_ids _ (anything_carried _ _ _ _) g e1 m (Hint Hu)) as (m' & Hunw & _ & Hm').
  unfold caller_graph_after. by rewrite Hunw.
Qed.

End unwinding.

Section parallel.
Context {V O F : Type} `{EqDecision V} (value_lt : V → V → bool) (clock : nat → Z)
  (config : DporConfig V O) (pc : PoolConfig) (torn : ExplorationGraph V → ExplorationGraph V)
  (hook : FatalErrorObserver V F).

(** C12: in a parallel exploration of a program whose receive matchers do not throw the hook is
    called at most once, whatever the interleaving and however many workers fail: it has been
    called, with one failure, when some worker has failed, and the graph it was given is a
    consistent execution that follows the program when user code failed.  The hook has no part
    in how the workers move. *)
Theorem fatal_error_reported_once o h tids p b h' :
  total_program (program config) → sorted_thread_ids (program config) = Ok tids →
  (∀ tid, tid ∈ tids → tid ≤ kMaxThreadId)%N →
  rtc (reporting_step value_lt config pc clock (clock 0) tids torn (Some hook))
    (initial_pool config pc (clock 0) o, (false, h)) (p, (b, h')) →
  rtc (pool_step value_lt config pc clock (clock 0) tids) (initial_pool config pc (clock 0) o) p ∧
  if b then ∃ g e, h' = (hook h (MkFatalErrorContext g e)).1 ∧
    (user_error e → Sound (max_thread_events config) (communication_model config) g ∧
       follows_graph (program config) g)
  else h' = h ∧ first_exception_ (p_shared p) = None ∧
    ∀ i w e, workers p !! i = Some w → w_phase w ≠ Failed e.
Proof.
  intros Htotal Htids Hmax Hrun. pose proof (sorted_runnable _ _ Htids Hmax) as Hruns.
  destruct (reporting_run_ok value_lt config pc clock (clock 0) tids torn hook Htotal Hruns h
    (initial_pool config pc (clock 0) o) (false, h) p (b, h')) as (_ & Hrep & Hsteps).
  - by apply initial_ok.
  - left. split; [done|]. split; [done|]. by intros i w e [-> _]%lookup_replicate.
  - exact Hrun.
  - split; [exact Hsteps|]. destruct Hrep as [[[= -> ->] Hq]|(g & e & [= -> ->] & Hg)]; [by split|eauto].
Qed.

End parallel.

(** ** Witnesses *)

(** A thread that chooses a value, sends it and then throws. *)
Definition thrower : Program nat :=
  MkProgram (tm_of_list [(0%N, λ _ step,
    match step with
    | 0 => Ok (Some (LNd (MkNdLabel 1 [1; 2])))
    | 1 => Ok (Some (send_to 0 7))
    | _ => Throw (std_exception "lost"%string)
    end)]).

Definition thrower_config : DporConfig nat (list (TerminalExecution nat)) :=
  recording_config thrower 20 0 Async (λ _ _, Continue).

(** A hook that records what it is told and throws. *)
Definition failing_hook : FatalErrorObserver nat (list (FatalErrorContext nat)) :=
  λ h context, (h ++ [context], Some (std_exception "hook"%string)).

Lemma thrower_total : total_program thrower.
Proof.
  intros tid f trace step l Hf Hl. unfold tm_at, thrower in Hf. simpl in Hf.
  destruct (N.to_nat tid) as [|n]; simpl in Hf; [|done]. injection Hf as <-.
  destruct step as [|[|step]]; [by injection Hl as <-..|done].
Qed.

(** The hook is called once, with the two events before the failure. *)
Example thrower_reported :
  (λ c, (length (events (fe_graph c)), user_code_kind (fe_exception c))) <$>
    (verify_reporting Nat.ltb (λ _, 0%Z) id (Some failing_hook) thrower_config [] [] 40).2 =
  [(2, Some ThreadFunction)].
Proof. vm_compute. reflexivity. Qed.

Lemma fatal_error_reported_witness :
  ∃ n, ∀ fuel, n ≤ fuel →
    (verify_reporting Nat.ltb (λ _, 0%Z) id (Some failing_hook) thrower_config [] [] fuel).1 =
    verify Nat.ltb (λ _, 0%Z) thrower_config [] fuel.
Proof.
  destruct (fatal_error_reported Nat.ltb (λ _, 0%Z) thrower_config id failing_hook [] [] [0%N]) as (n & Hn).
  - reflexivity.
  - reflexivity.
  - exists n. intros fuel Hle. specialize (Hn fuel Hle).
    destruct (verify_reporting _ _ _ _ _ _ _ _) as [out h']. exact (proj1 Hn).
Defined.

(** An observer that throws on the error execution of a thread whose first step fails. *)
Definition error_config : DporConfig nat (list (TerminalExecution nat)) :=
  MkDporConfig (MkProgram (tm_of_list [(0%N, script [LError "bad"%string])])) 20 0 Async
    (Some (λ _ _, Throw (std_exception "observer"%string))) None 0%Z None.

Lemma error_total : total_program (program error_config).
Proof.
  intros tid f trace step l Hf Hl. unfold tm_at in Hf. simpl in Hf.
  destruct (N.to_nat tid) as [|n]; simpl in Hf; [|done]. injection Hf as <-.
  eapply script_total; [|exact Hl]. by intros l0 ->%list_elem_of_singleton.
Qed.

(** The error event is left in the caller's graph. *)
Lemma failure_unwinds_witness :
  ∃ e h' g', run_loop_reporting (H := sequential_executor error_config (λ _, 0%Z) 0%Z) Nat.ltb error_config [0%N] id
      (seq_notify_fatal_error (Some failing_hook)) 10
      (MkExplorer (new_sequential_state error_config 0%Z new_result [] 1) empty_exploration_graph
         [MkContext None [enter 0 Visit]]) [] = (Throw e, h', g') ∧
    length (events g') = 1 ∧
    (same_execution empty_exploration_graph g' ∨
     ∃ ev, events g' = events empty_exploration_graph ++ [ev] ∧ is_error ev = true ∧
       ∃ x', publish_terminal_execution (Executor := sequential_executor error_config (λ _, 0%Z) 0%Z) g' ErrorExecution
               (compute_max_thread_event_depth g' [0%N]) x' = Throw e).
Proof.
  set (out := run_loop_reporting _ _ _ _ _ _ _ _).
  assert (match out with (Throw e, _, g') => (user_code_kind e, length (events g')) | _ => (None, 0) end =
    (Some TerminalObserver, 1)) as Hout by (vm_compute; reflexivity).
  destruct out as [[[m|e] h'] g'] eqn:Eout; [discriminate Hout|]. injection Hout as Hk Hl.
  exists e, h', g'. split; [reflexivity|]. split; [exact Hl|].
  refine (failure_unwinds (H := sequential_executor error_config (λ _, 0%Z) 0%Z) Nat.ltb error_config [0%N] id
    _ empty_exploration_graph 0 Visit _ 10 _ e h' g' error_total _ _ _ Eout _).
  - intros tid Htid. apply list_elem_of_singleton in Htid as ->. by vm_compute.
  - apply (sound_good _ Async), empty_Sound.
  - intros _. apply empty_Sound.
  - by exists TerminalObserver.
Defined.

(** Two workers on the program that throws: the run ends with the exception recorded and
    the hook called. *)
Definition failed_pool : Pool nat (list (TerminalExecution nat)) :=
  drive Nat.ltb thrower_config (resolve_options two_workers 8) (λ _, 0%Z) 0%Z [0%N]
    (replicate 60 0 ++ replicate 10 1) (initial_pool thrower_config (resolve_options two_workers 8) 0%Z []).

Lemma fatal_error_reported_once_witness :
  is_Some (first_exception_ (p_shared failed_pool)) ∧
  ∃ h', rtc (reporting_step Nat.ltb thrower_config (resolve_options two_workers 8) (λ _, 0%Z) 0%Z [0%N] id
      (Some failing_hook))
    (initial_pool thrower_config (resolve_options two_workers 8) 0%Z [], (false, []))
    (failed_pool, (true, h')) ∧ length h' = 1.
Proof.
  assert (is_Some (first_exception_ (p_shared failed_pool))) as Hexn.
  { assert (match first_exception_ (p_shared failed_pool) with Some _ => true | None => false end = true)
      as He by (vm_compute; reflexivity). destruct (first_exception_ (p_shared failed_pool)); [by eexists|done]. }
  split; [exact Hexn|].
  assert (rtc (pool_step Nat.ltb thrower_config (resolve_options two_workers 8) (λ _, 0%Z) 0%Z [0%N])
    (initial_pool thrower_config (resolve_options two_workers 8) 0%Z []) failed_pool) as Hsteps
    by apply drive_reachable.
  revert Hexn Hsteps. generalize failed_pool as p. intros p Hexn Hsteps.
  destruct (pool_run_reports Nat.ltb thrower_config (resolve_options two_workers 8) (λ _, 0%Z) 0%Z [0%N] id
    failing_hook _ (false, []) p Hsteps) as [[b h'] Hrun].
  destruct (fatal_error_reported_once Nat.ltb (λ _, 0%Z) thrower_config (resolve_options two_workers 8) id
    failing_hook [] [] [0%N] p b h' thrower_total eq_refl) as [_ Hb]; [|exact Hrun|].
  - intros tid Htid. apply list_elem_of_singleton in Htid as ->. by vm_compute.
  - destruct b; [|destruct Hb as (_ & Hnone & _); rewrite Hnone in Hexn; by destruct Hexn].
    destruct Hb as (g & e & -> & _). eexists. split; [exact Hrun|reflexivity].
Defined.
