(* ===== verification/TwoPhase.v ===== *)
(** * TwoPhase: the two-phase commit protocol, [examples/two_phase_commit_timeout/protocol.hpp]

    The coordinator and the participants, their messages and the text format of the
    messages.  The protocol is written against the interface [Environment]: it sends
    messages, asks for a vote and sets timers; the environment decides what that means.
    Its operations are actions on the state [E] of an environment that may throw.

    A timer callback of the source is a lambda that calls one member function of the
    object that set the timer; it is represented by the name of that function.  Numbers of
    type [size_t] are [N]; the counters stay below the number of participants plus one. *)

From stdpp Require Import base tactics numbers pretty list strings.
From S2P Require Import Prelude Errors.

(** ** Actions *)

(** The state changes of an action are kept when it throws. *)
Definition act (E X A : Type) : Type := E → result X A * E.

#[export] Instance act_ret {E X} : MRet (act E X) := λ A a s, (Ok a, s).

#[export] Instance act_bind {E X} : MBind (act E X) := λ A B f m s,
  match m s with (Ok a, s') => f a s' | (Throw e, s') => (Throw e, s') end.

Definition throw {E X A} (e : X) : act E X A := λ s, (Throw e, s).

(** A range-based [for] loop. *)
Fixpoint for_each {E X A} (f : A → act E X unit) (l : list A) : act E X unit :=
  match l with
  | [] => mret ()
  | a :: l' => _ ← f a; for_each f l'
  end.

(** ** Messages *)

Abbreviation ParticipantId := N (only parsing).

Definition kCoordinator : ParticipantId := 0%N.

Inductive Vote := Yes | No.

Inductive DecisionValue := Commit | Abort.

Inductive Message :=
| Prepare
| VoteMsg (from : ParticipantId) (vote : Vote)
| DecisionMsg (decision : DecisionValue)
| Ack (from : ParticipantId).

#[export] Instance Vote_eq_dec : EqDecision Vote.
Proof. solve_decision. Defined.

#[export] Instance DecisionValue_eq_dec : EqDecision DecisionValue.
Proof. solve_decision. Defined.

#[export] Instance Message_eq_dec : EqDecision Message.
Proof. solve_decision. Defined.

(** ** Serialization *)

Open Scope string_scope.

Definition serialize (msg : Message) : string :=
  match msg with
  | Prepare => "PREPARE"
  | VoteMsg from vote => "VOTE " +:+ pretty from +:+ " " +:+ (if decide (vote = Yes) then "YES" else "NO")
  | DecisionMsg d => "DECISION " +:+ (if decide (d = Commit) then "COMMIT" else "ABORT")
  | Ack from => "ACK " +:+ pretty from
  end.

(** *** Extraction from an [istringstream] *)

(** What is left to read; [None] once an extraction has failed. *)
Abbreviation istream := (option string) (only parsing).

Definition is_space_char (c : Ascii.ascii) : bool :=
  let n := Ascii.N_of_ascii c in ((9 <=? n) && (n <=? 13) || (n =? 32))%N.

Definition is_digit (c : Ascii.ascii) : bool :=
  let n := Ascii.N_of_ascii c in ((48 <=? n) && (n <=? 57))%N.

Fixpoint skip_ws (s : string) : string :=
  match s with
  | String c s' => if is_space_char c then skip_ws s' else s
  | EmptyString => s
  end.

(** The longest prefix whose characters satisfy [p], and the rest. *)
Fixpoint span (p : Ascii.ascii → bool) (s : string) : string * string :=
  match s with
  | String c s' => if p c then let '(a, b) := span p s' in (String c a, b) else ("", s)
  | EmptyString => ("", "")
  end.

(** [iss >> word] into a variable that held [old]. *)
Definition read_word (iss : istream) (old : string) : string * istream :=
  match iss with
  | None => (old, None)
  | Some s =>
      match skip_ws s with
      | EmptyString => (old, None)
      | s' => let '(w, rest) := span (λ c, negb (is_space_char c)) s' in (w, Some rest)
      end
  end.

Fixpoint digits_value (acc : N) (s : string) : N :=
  match s with
  | String c s' => digits_value (acc * 10 + (Ascii.N_of_ascii c - 48))%N s'
  | EmptyString => acc
  end.

Definition size_t_max : N := (2 ^ 64 - 1)%N.

(** [iss >> n] for a [size_t]: an optional sign (a minus is character 45, a plus 43) and
    digits; a minus sign negates modulo
    2^64, and a number out of range fails. *)
Definition read_size_t (iss : istream) : option (N * string) :=
  match iss with
  | None => None
  | Some s =>
      let s := skip_ws s in
      let '(negative, s) :=
        match s with
        | String c s' => if decide (Ascii.N_of_ascii c = 45%N) then (true, s')
                         else if decide (Ascii.N_of_ascii c = 43%N) then (false, s') else (false, s)
        | EmptyString => (false, s)
        end in
      let '(ds, rest) := span is_digit s in
      let n := digits_value 0 ds in
      if decide (ds = "" ∨ (size_t_max < n)%N) then None
      else Some (if (negative : bool) then ((2 ^ 64 - n) mod 2 ^ 64)%N else n, rest)
  end.

Definition deserialize (data : string) : res Message :=
  let '(tag, iss) := read_word (Some data) "" in
  if decide (tag = "PREPARE") then Ok Prepare
  else if decide (tag = "VOTE") then
    match read_size_t iss with
    | None => Throw (std_exception ("malformed VOTE message: " +:+ data))
    | Some (from, rest) =>
        match read_word (Some rest) "" with
        | (_, None) => Throw (std_exception ("malformed VOTE message: " +:+ data))
        | (vote_str, Some _) =>
            if decide (vote_str = "YES") then Ok (VoteMsg from Yes)
            else if decide (vote_str = "NO") then Ok (VoteMsg from No)
            else Throw (std_exception ("unknown vote value: " +:+ vote_str))
        end
    end
  else if decide (tag = "DECISION") then
    let '(dec_str, _) := read_word iss "" in
    if decide (dec_str = "COMMIT") then Ok (DecisionMsg Commit)
    else if decide (dec_str = "ABORT") then Ok (DecisionMsg Abort)
    else Throw (std_exception ("unknown decision value: " +:+ dec_str))
  else if decide (tag = "ACK") then
    match read_size_t iss with
    | None => Throw (std_exception ("malformed ACK message: " +:+ data))
    | Some (from, _) => Ok (Ack from)
    end
  else Throw (std_exception ("unknown message tag: " +:+ tag)).

Close Scope string_scope.

(** ** The environment *)

Abbreviation TimerId := N (only parsing).

Inductive TimerCallback := OnVoteTimeout | OnAckTimeout | OnDecisionTimeout.

Class Environment (E X : Type) := {
  send : ParticipantId → Message → act E X unit;
  get_vote : act E X Vote;
  set_timer : TimerId → N → TimerCallback → act E X unit;
  cancel_timer : TimerId → act E X unit;
}.

(** The exceptions the protocol code itself can raise: [std::logic_error], and the
    undefined behaviour of a vector access out of range. *)
Class ProtocolErrors (X : Type) := { logic_error : string → X; out_of_range : X }.

(** ** The coordinator *)

Inductive CoordinatorPhase := CollectingVotes | CollectingAcks | CoordinatorDone.

#[export] Instance CoordinatorPhase_eq_dec : EqDecision CoordinatorPhase.
Proof. solve_decision. Defined.

Record Coordinator := MkCoordinator {
  num_participants_ : N;
  bug_on_p1_no_ : bool;
  vote_timeout_ms_ : N;
  ack_timeout_ms_ : N;
  decision_ : option DecisionValue;
  phase_ : CoordinatorPhase;
  all_yes_ : bool;
  votes_received_ : N;
  acks_received_ : N;
  vote_seen_ : list bool;
  ack_seen_ : list bool;
}.

(** The constructor; the timeouts have the default values. *)
Definition new_coordinator (num_participants : N) (bug_on_p1_no : bool) : Coordinator :=
  MkCoordinator num_participants bug_on_p1_no 100 1000 None CollectingVotes true 0 0 [] [].

Definition kVoteTimeoutTimerId : TimerId := 1%N.

Definition kAckTimeoutTimerId : TimerId := 2%N.

Definition is_valid_participant (c : Coordinator) (id : ParticipantId) : bool :=
  (1 <=? id)%N && (id <=? num_participants_ c)%N.

(** The ids from 1 to the number of participants. *)
Definition participant_ids (c : Coordinator) : list ParticipantId :=
  N.of_nat <$> seq 1 (N.to_nat (num_participants_ c)).

Definition set_phase (c : Coordinator) (ph : CoordinatorPhase) : Coordinator :=
  MkCoordinator (num_participants_ c) (bug_on_p1_no_ c) (vote_timeout_ms_ c) (ack_timeout_ms_ c)
    (decision_ c) ph (all_yes_ c) (votes_received_ c) (acks_received_ c) (vote_seen_ c) (ack_seen_ c).

(** [all_yes_ = y; decision_ = d]. *)
Definition set_decision (c : Coordinator) (y : bool) (d : DecisionValue) : Coordinator :=
  MkCoordinator (num_participants_ c) (bug_on_p1_no_ c) (vote_timeout_ms_ c) (ack_timeout_ms_ c)
    (Some d) (phase_ c) y (votes_received_ c) (acks_received_ c) (vote_seen_ c) (ack_seen_ c).

(** [vote_seen_[from] = true; ++votes_received_], and [all_yes_ = y]. *)
Definition note_vote (c : Coordinator) (from : ParticipantId) (y : bool) : Coordinator :=
  MkCoordinator (num_participants_ c) (bug_on_p1_no_ c) (vote_timeout_ms_ c) (ack_timeout_ms_ c)
    (decision_ c) (phase_ c) y (votes_received_ c + 1) (acks_received_ c)
    (<[N.to_nat from := true]> (vote_seen_ c)) (ack_seen_ c).

(** [ack_seen_[from] = true; ++acks_received_]. *)
Definition note_ack (c : Coordinator) (from : ParticipantId) : Coordinator :=
  MkCoordinator (num_participants_ c) (bug_on_p1_no_ c) (vote_timeout_ms_ c) (ack_timeout_ms_ c)
    (decision_ c) (phase_ c) (all_yes_ c) (votes_received_ c) (acks_received_ c + 1) (vote_seen_ c)
    (<[N.to_nat from := true]> (ack_seen_ c)).

Section protocol.
Context {E X : Type} `{Environment E X} `{ProtocolErrors X}.

(** [seen[i]] of a [std::vector<bool>]. *)
Definition seen_at (seen : list bool) (i : ParticipantId) : act E X bool :=
  match seen !! N.to_nat i with Some b => mret b | None => throw out_of_range end.

Definition coordinator_start (c0 : Coordinator) : act E X (bool * Coordinator) :=
  let n := num_participants_ c0 in
  let c := MkCoordinator n (bug_on_p1_no_ c0) (vote_timeout_ms_ c0) (ack_timeout_ms_ c0)
             None CollectingVotes true 0 0 (replicate (N.to_nat n + 1) false)
             (replicate (N.to_nat n + 1) false) in
  _ ← for_each (λ pid, send pid Prepare) (participant_ids c);
  _ ← set_timer kVoteTimeoutTimerId (vote_timeout_ms_ c) OnVoteTimeout;
  mret (true, c).

(** [*decision_] of an empty optional is undefined behaviour. *)
Definition broadcast_decision (c : Coordinator) : act E X Coordinator :=
  _ ← for_each (λ pid, match decision_ c with
                       | Some d => send pid (DecisionMsg d)
                       | None => throw out_of_range
                       end) (participant_ids c);
  _ ← set_timer kAckTimeoutTimerId (ack_timeout_ms_ c) OnAckTimeout;
  mret (set_phase c CollectingAcks).

(** The part of [receive] that handles a vote of [from] in the phase [CollectingVotes]. *)
Definition receive_vote (c : Coordinator) (from : ParticipantId) (vote : Vote)
    : act E X (bool * Coordinator) :=
  let c := note_vote c from (if decide (vote = No) then false else all_yes_ c) in
  if decide (vote = No ∧ bug_on_p1_no_ c = true ∧ from = 1%N) then
    throw (logic_error "BUG: coordinator cannot handle No vote from participant 1")
  else if decide (votes_received_ c < num_participants_ c)%N then mret (true, c)
  else
    _ ← cancel_timer kVoteTimeoutTimerId;
    let c := set_decision c (all_yes_ c) (if all_yes_ c then Commit else Abort) in
    c ← broadcast_decision c;
    mret (true, c).

(** The part of [receive] that handles an acknowledgement in the phase [CollectingAcks]. *)
Definition receive_ack (c : Coordinator) (from : ParticipantId) : act E X (bool * Coordinator) :=
  let c := note_ack c from in
  if decide (acks_received_ c < num_participants_ c)%N then mret (true, c)
  else
    _ ← cancel_timer kAckTimeoutTimerId;
    mret (false, set_phase c CoordinatorDone).

Definition coordinator_receive (c : Coordinator) (msg : Message) : act E X (bool * Coordinator) :=
  match phase_ c with
  | CollectingVotes =>
      match msg with
      | VoteMsg from vote =>
          if is_valid_participant c from then
            seen ← seen_at (vote_seen_ c) from;
            if (seen : bool) then mret (true, c) else receive_vote c from vote
          else mret (true, c)
      | _ => mret (true, c)
      end
  | CollectingAcks =>
      match msg with
      | Ack from =>
          if is_valid_participant c from then
            seen ← seen_at (ack_seen_ c) from;
            if (seen : bool) then mret (true, c) else receive_ack c from
          else mret (true, c)
      | _ => mret (true, c)
      end
  | CoordinatorDone => mret (false, c)
  end.

Definition on_vote_timeout (c : Coordinator) : act E X (bool * Coordinator) :=
  if decide (phase_ c ≠ CollectingVotes) then mret (true, c)
  else
    c ← broadcast_decision (set_decision c false Abort);
    mret (true, c).

Definition on_ack_timeout (c : Coordinator) : act E X (bool * Coordinator) :=
  if decide (phase_ c ≠ CollectingAcks) then mret (true, c)
  else mret (false, set_phase c CoordinatorDone).

(** The lambdas the coordinator gives to its timers. *)
Definition coordinator_timer (cb : TimerCallback) (c : Coordinator) : act E X (bool * Coordinator) :=
  match cb with
  | OnVoteTimeout => on_vote_timeout c
  | OnAckTimeout => on_ack_timeout c
  | OnDecisionTimeout => throw out_of_range
  end.

End protocol.

(** ** Participants *)

Inductive ParticipantState := WaitPrepare | WaitDecision | ParticipantDone.

#[export] Instance ParticipantState_eq_dec : EqDecision ParticipantState.
Proof. solve_decision. Defined.

Record Participant := MkParticipant {
  id_ : ParticipantId;
  decision_timeout_ms_ : N;
  state_ : ParticipantState;
  outcome_ : option DecisionValue;
}.

Definition new_participant (id : ParticipantId) : Participant := MkParticipant id 1000 WaitPrepare None.

Definition kDecisionTimeoutTimerId : TimerId := 1%N.

Section participant.
Context {E X : Type} `{Environment E X} `{ProtocolErrors X}.

Definition participant_start (p : Participant) : act E X (bool * Participant) :=
  mret (true, MkParticipant (id_ p) (decision_timeout_ms_ p) WaitPrepare None).

Definition participant_receive (p : Participant) (msg : Message) : act E X (bool * Participant) :=
  match state_ p with
  | WaitPrepare =>
      match msg with
      | Prepare =>
          vote ← get_vote;
          _ ← send kCoordinator (VoteMsg (id_ p) vote);
          _ ← set_timer kDecisionTimeoutTimerId (decision_timeout_ms_ p) OnDecisionTimeout;
          mret (true, MkParticipant (id_ p) (decision_timeout_ms_ p) WaitDecision (outcome_ p))
      | _ => mret (true, p)
      end
  | WaitDecision =>
      match msg with
      | DecisionMsg d =>
          _ ← cancel_timer kDecisionTimeoutTimerId;
          _ ← send kCoordinator (Ack (id_ p));
          mret (false, MkParticipant (id_ p) (decision_timeout_ms_ p) ParticipantDone (Some d))
      | _ => mret (true, p)
      end
  | ParticipantDone => mret (false, p)
  end.

Definition on_decision_timeout (p : Participant) : act E X (bool * Participant) :=
  if decide (state_ p ≠ WaitDecision) then mret (true, p)
  else mret (false, MkParticipant (id_ p) (decision_timeout_ms_ p) ParticipantDone (Some Abort)).

Definition participant_timer (cb : TimerCallback) (p : Participant) : act E X (bool * Participant) :=
  match cb with
  | OnDecisionTimeout => on_decision_timeout p
  | OnVoteTimeout | OnAckTimeout => throw out_of_range
  end.

End participant.

(** ** Protocol objects *)

(** What an environment drives: [start], [receive] and the lambdas of the object's timers;
    each says whether the object needs more input.  An object is not used again after a
    call of it threw. *)
Class Protocol (E X Obj : Type) := {
  start : Obj → act E X (bool * Obj);
  receive : Obj → Message → act E X (bool * Obj);
  run_timer : TimerCallback → Obj → act E X (bool * Obj);
}.

#[export] Instance coordinator_protocol {E X} `{Environment E X} `{ProtocolErrors X}
    : Protocol E X Coordinator := {|
  start := coordinator_start;
  receive := coordinator_receive;
  run_timer := coordinator_timer;
|}.

#[export] Instance participant_protocol {E X} `{Environment E X} `{ProtocolErrors X}
    : Protocol E X Participant := {|
  start := participant_start;
  receive := participant_receive;
  run_timer := participant_timer;
|}.

(** Exceptions of the library as the protocol's exceptions. *)
#[export] Instance exn_errors : ProtocolErrors exn := {|
  logic_error := std_exception;
  out_of_range := undefined_behavior;
|}.
