(* ===== verification/Benchmark.v ===== *)
(** * Benchmark: the benchmark harness, [benchmarks/common/two_phase_commit_benchmark.hpp]

    The command line, the configuration of a run, the consistency checks across
    iterations and between the model checker and the oracle, and the exit code.  The
    program under benchmark and the oracle (the exhaustive enumeration of the test
    support) are arguments; the text the harness prints is not modelled beyond what is
    printed when, and times are taken from the caller. *)

From stdpp Require Import base tactics numbers pretty list strings.
From S2P Require Import Prelude Errors Event Program Dpor Explorer Parallel TwoPhase.

(** ** Options *)

Inductive Mode := ModeDpor | ModeOracle | ModeBoth.

#[export] Instance Mode_eq_dec : EqDecision Mode.
Proof. solve_decision. Defined.

Record Options := MkBenchOptions {
  bo_mode : Mode;
  bo_communication_model : CommunicationModel;
  bo_participants : N;
  bo_iterations : nat;
  bo_inject_crash : bool;
  bo_parallel : bool;
  bo_progress_report_interval : Z;
  bo_parallel_options : ParallelVerifyOptions;
}.

(** The default member initialisers; the interval is in milliseconds. *)
Definition default_bench_options : Options :=
  MkBenchOptions ModeBoth Async 3 1 true false 1000%Z default_options.

(** ** Numbers *)

Open Scope string_scope.

Definition invalid_argument (w : string) : exn := std_exception w.

(** [std::stoull]: leading blanks, a sign and digits; what follows is ignored, and a minus
    sign negates modulo 2^64. *)
Definition stoull (text : string) : option N := fst <$> read_size_t (Some text).

(** [!text.empty() && text.front() == '-']. *)
Definition starts_with_minus (text : string) : bool :=
  match text with String c _ => bool_decide (Ascii.N_of_ascii c = 45%N) | EmptyString => false end.

Definition parse_positive_int (text flag : string) : res N :=
  if starts_with_minus text then Throw (invalid_argument ("invalid numeric value for " +:+ flag))
  else
    match stoull text with
    | None => Throw (invalid_argument ("invalid numeric value for " +:+ flag))
    | Some value =>
        if decide (value = 0%N) then Throw (invalid_argument (flag +:+ " must be positive"))
        else Ok value
    end.

Definition parse_nonnegative_int (text flag : string) : res N :=
  if starts_with_minus text then Throw (invalid_argument ("invalid numeric value for " +:+ flag))
  else
    match stoull text with
    | None => Throw (invalid_argument ("invalid numeric value for " +:+ flag))
    | Some value => Ok value
    end.

(** The conversion of a [size_t] to the signed representation of milliseconds. *)
Definition to_milliseconds (n : N) : Z :=
  let z := Z.of_N n in if decide (z < 2 ^ 63)%Z then z else (z - 2 ^ 64)%Z.

(** ** The command line *)

Definition set_mode o m : Options :=
  MkBenchOptions m (bo_communication_model o) (bo_participants o) (bo_iterations o) (bo_inject_crash o)
    (bo_parallel o) (bo_progress_report_interval o) (bo_parallel_options o).

Definition set_fifo o : Options :=
  MkBenchOptions (bo_mode o) FifoP2P (bo_participants o) (bo_iterations o) (bo_inject_crash o)
    (bo_parallel o) (bo_progress_report_interval o) (bo_parallel_options o).

Definition set_participants o n : Options :=
  MkBenchOptions (bo_mode o) (bo_communication_model o) n (bo_iterations o) (bo_inject_crash o)
    (bo_parallel o) (bo_progress_report_interval o) (bo_parallel_options o).

Definition set_iterations o n : Options :=
  MkBenchOptions (bo_mode o) (bo_communication_model o) (bo_participants o) n (bo_inject_crash o)
    (bo_parallel o) (bo_progress_report_interval o) (bo_parallel_options o).

Definition set_no_crash o : Options :=
  MkBenchOptions (bo_mode o) (bo_communication_model o) (bo_participants o) (bo_iterations o) false
    (bo_parallel o) (bo_progress_report_interval o) (bo_parallel_options o).

Definition set_interval o ms : Options :=
  MkBenchOptions (bo_mode o) (bo_communication_model o) (bo_participants o) (bo_iterations o)
    (bo_inject_crash o) (bo_parallel o) ms (bo_parallel_options o).

(** [options.parallel = true], with the parallel options [p]. *)
Definition set_parallel o p : Options :=
  MkBenchOptions (bo_mode o) (bo_communication_model o) (bo_participants o) (bo_iterations o)
    (bo_inject_crash o) true (bo_progress_report_interval o) p.

Definition set_max_workers (p : ParallelVerifyOptions) n : ParallelVerifyOptions :=
  let '(MkOptions _ q c s sp f pp) := p in MkOptions n q c s sp f pp.

Definition set_max_queued_tasks (p : ParallelVerifyOptions) n : ParallelVerifyOptions :=
  let '(MkOptions w _ c s sp f pp) := p in MkOptions w n c s sp f pp.

Definition set_spawn_depth_cutoff (p : ParallelVerifyOptions) n : ParallelVerifyOptions :=
  let '(MkOptions w q _ s sp f pp) := p in MkOptions w q n s sp f pp.

Definition set_split_poll_interval_steps (p : ParallelVerifyOptions) n : ParallelVerifyOptions :=
  let '(MkOptions w q c s _ f pp) := p in MkOptions w q c s n f pp.

Definition set_progress_counter_flush_interval (p : ParallelVerifyOptions) n : ParallelVerifyOptions :=
  let '(MkOptions w q c s sp _ pp) := p in MkOptions w q c s sp n pp.

Definition set_progress_poll_interval_steps (p : ParallelVerifyOptions) n : ParallelVerifyOptions :=
  let '(MkOptions w q c s sp f _) := p in MkOptions w q c s sp f n.

(** The part of the loop body after [const std::string_view value = argv[++i]]. *)
Definition parse_value (o : Options) (arg value : string) : res Options :=
  if decide (arg = "--mode") then
    if decide (value = "dpor") then Ok (set_mode o ModeDpor)
    else if decide (value = "oracle") then Ok (set_mode o ModeOracle)
    else if decide (value = "both") then Ok (set_mode o ModeBoth)
    else Throw (invalid_argument ("invalid mode: " +:+ value))
  else if decide (arg = "--participants") then
    n ← parse_positive_int value arg; Ok (set_participants o n)
  else if decide (arg = "--iterations") then
    n ← parse_positive_int value arg; Ok (set_iterations o (N.to_nat n))
  else if decide (arg = "--max-workers") then
    n ← parse_positive_int value arg;
    Ok (set_parallel o (set_max_workers (bo_parallel_options o) (N.to_nat n)))
  else if decide (arg = "--max-queued-tasks") then
    n ← parse_nonnegative_int value arg;
    Ok (set_parallel o (set_max_queued_tasks (bo_parallel_options o) (N.to_nat n)))
  else if decide (arg = "--spawn-depth-cutoff") then
    n ← parse_nonnegative_int value arg;
    Ok (set_parallel o (set_spawn_depth_cutoff (bo_parallel_options o) (N.to_nat n)))
  else if decide (arg = "--split-poll-interval-steps") then
    n ← parse_nonnegative_int value arg;
    Ok (set_parallel o (set_split_poll_interval_steps (bo_parallel_options o) (N.to_nat n)))
  else if decide (arg = "--progress-interval-ms") then
    n ← parse_nonnegative_int value arg; Ok (set_interval o (to_milliseconds n))
  else if decide (arg = "--progress-counter-flush-interval") then
    n ← parse_nonnegative_int value arg;
    Ok (set_parallel o (set_progress_counter_flush_interval (bo_parallel_options o) (N.to_nat n)))
  else if decide (arg = "--progress-poll-interval-steps") then
    n ← parse_nonnegative_int value arg;
    Ok (set_parallel o (set_progress_poll_interval_steps (bo_parallel_options o) (N.to_nat n)))
  else Throw (invalid_argument ("unknown argument: " +:+ arg)).

(** The loop of [parse_args]: the options, or the exit code of [print_usage_and_exit]. *)
Fixpoint parse_from (o : Options) (args : list string) : res (Options + Z) :=
  match args with
  | [] => Ok (inl o)
  | arg :: rest =>
      if decide (arg = "--help" ∨ arg = "-h") then Ok (inr 0%Z)
      else if decide (arg = "--no-crash") then parse_from (set_no_crash o) rest
      else if decide (arg = "--fifo") then parse_from (set_fifo o) rest
      else if decide (arg = "--parallel") then parse_from (set_parallel o (bo_parallel_options o)) rest
      else
        match rest with
        | [] => Throw (invalid_argument ("missing value for " +:+ arg))
        | value :: rest' => o' ← parse_value o arg value; parse_from o' rest'
        end
  end.

(** [args] is [argv] without the name of the program. *)
Definition parse_args (args : list string) : res (Options + Z) := parse_from default_bench_options args.

Close Scope string_scope.

(** ** Runs *)

Record BenchmarkRunResult := MkRunResult {
  run_terminal_executions : nat;
  run_full_executions : nat;
  run_blocked_executions : nat;
  run_error_executions : nat;
  run_depth_limit_executions : nat;
  run_paths_explored : nat;
}.

Record Measurement := MkMeasurement { counts_of : BenchmarkRunResult; elapsed_time : Z }.

(** [elapsed] is the time the run took. *)
Definition measure_once (elapsed : Z) (run : res BenchmarkRunResult) : res Measurement :=
  result ← run; Ok (MkMeasurement result elapsed).

(** The snapshots printed so far: only those of a running exploration are. *)
Definition print_progress_snapshot (printed : list ProgressSnapshot) (snapshot : ProgressSnapshot)
    : res (list ProgressSnapshot) :=
  match ps_state snapshot with
  | ProgressRunning => Ok (printed ++ [snapshot])
  | _ => Ok printed
  end.

Section runs.
Context {V : Type} `{EqDecision V} (value_lt : V → V → bool) (make_program : N → bool → Program V).

(** The configuration [run_dpor] builds; the fields it does not set have their defaults. *)
Definition benchmark_config (o : Options) : DporConfig V (list ProgressSnapshot) :=
  MkDporConfig (make_program (bo_participants o) (bo_inject_crash o)) 1000 0 (bo_communication_model o)
    None
    (if decide (0 < bo_progress_report_interval o)%Z then Some print_progress_snapshot else None)
    (bo_progress_report_interval o) None.

(** What [run_dpor] makes of the result. *)
Definition dpor_run_result (r : VerifyResult) : res BenchmarkRunResult :=
  if decide (vr_kind r = AllExplored) then
    Ok (MkRunResult (executions_explored r) (full_executions_explored r) (blocked_executions_explored r)
          (error_executions_explored r) (depth_limit_executions_explored r) 0)
  else Throw (std_exception "DPOR was stopped before exploring all executions").

(** What the model checker may answer for [o]; a parallel exploration has as many answers
    as interleavings. *)
Inductive explores (clock : nat → Z) (hc : nat) (o : Options) : res (VerifyResult * list ProgressSnapshot) → Prop :=
| explores_sequentially n out :
    bo_parallel o = false →
    (∀ fuel, n ≤ fuel → verify value_lt clock (benchmark_config o) [] fuel = out) →
    explores clock hc o out
| explores_in_parallel out :
    bo_parallel o = true →
    verify_parallel value_lt clock (benchmark_config o) (bo_parallel_options o) hc false [] out →
    explores clock hc o out.

(** [run_dpor]: the answer of the model checker, as the harness reports it. *)
Definition run_dpor (clock : nat → Z) (hc : nat) (o : Options) (out : res BenchmarkRunResult) : Prop :=
  ∃ answer, explores clock hc o answer ∧ out = ('(r, _) ← answer; dpor_run_result r).

(** What the oracle counts: signatures, those with a block event, and paths. *)
Record OracleStats := MkOracleStats { signatures : nat; blocked_signatures : nat; paths : nat }.

Definition run_oracle (collect_oracle_stats : Program V → CommunicationModel → res OracleStats) (o : Options)
    : res BenchmarkRunResult :=
  stats ← collect_oracle_stats (make_program (bo_participants o) (bo_inject_crash o))
            (bo_communication_model o);
  Ok (MkRunResult (signatures stats) (signatures stats - blocked_signatures stats)
        (blocked_signatures stats) 0 0 (paths stats)).

End runs.

(** ** Iterations *)

Open Scope string_scope.

(** The chain of comparisons of the last measurement with the first. *)
Definition check_counts (front back : BenchmarkRunResult) : res unit :=
  if decide (run_terminal_executions back ≠ run_terminal_executions front) then
    Throw (std_exception "terminal execution count changed across iterations")
  else if decide (run_full_executions back ≠ run_full_executions front) then
    Throw (std_exception "full execution count changed across iterations")
  else if decide (run_blocked_executions back ≠ run_blocked_executions front) then
    Throw (std_exception "blocked execution count changed across iterations")
  else if decide (run_error_executions back ≠ run_error_executions front) then
    Throw (std_exception "error execution count changed across iterations")
  else if decide (run_depth_limit_executions back ≠ run_depth_limit_executions front) then
    Throw (std_exception "depth-limit execution count changed across iterations")
  else if decide (run_paths_explored back ≠ run_paths_explored front) then
    Throw (std_exception "path count changed across iterations")
  else Ok tt.

Close Scope string_scope.

(** One measurement appended and compared with the first. *)
Definition collect_one (measurements : list Measurement) (run : Z * res BenchmarkRunResult)
    : res (list Measurement) :=
  m ← measure_once run.1 run.2;
  let measurements := measurements ++ [m] in
  _ ← check_counts (counts_of (hd m measurements)) (counts_of m);
  Ok measurements.

(** [sizeof(Measurement)]: six counters and a double, of eight bytes each. *)
Definition sizeof_measurement : N := 56.

(** [max_size()] of a vector of them: what a pointer difference can count. *)
Definition max_measurements : N := ((2 ^ 63 - 1) / sizeof_measurement)%N.

(** [reserve] on the empty vector of measurements; [memory] says how many bytes the
    allocator has. *)
Definition reserve_measurements (memory : N) (n : N) : res unit :=
  if decide (max_measurements < n)%N then Throw (std_exception "vector::reserve"%string)
  else if decide (memory < n * sizeof_measurement)%N then Throw (std_exception "std::bad_alloc"%string)
  else Ok tt.

(** [run i] is the outcome of iteration [i], counted from 1, with the time it takes. *)
Definition collect_measurements (memory : N) (o : Options) (run : nat → Z * res BenchmarkRunResult)
    : res (list Measurement) :=
  _ ← reserve_measurements memory (N.of_nat (bo_iterations o));
  foldM (λ measurements i, collect_one measurements (run (i + 1))) [] (seq 0 (bo_iterations o)).

(** The comparison of the first measurements, when there are both. *)
Definition compare_measurements (dpor oracle : list Measurement) : Z :=
  match dpor, oracle with
  | d :: _, o :: _ =>
      if decide (run_full_executions (counts_of d) ≠ run_full_executions (counts_of o)) then 2%Z
      else if decide (run_blocked_executions (counts_of d) ≠ run_blocked_executions (counts_of o)) then 2%Z
      else 0%Z
  | _, _ => 0%Z
  end.

(** [run_two_phase_commit_benchmark]: the exit code.  [dpor] and [oracle] give the outcome
    of each iteration of [run_dpor] and [run_oracle], given the options; [memory use_oracle] is
    what the allocator has for the measurements of each. *)
Definition run_two_phase_commit_benchmark (memory : bool → N) (args : list string)
    (dpor oracle : Options → nat → Z * res BenchmarkRunResult) : res Z :=
  let body : res Z :=
    parsed ← parse_args args;
    match parsed with
    | inr code => Ok code
    | inl o =>
        d ← (if decide (bo_mode o = ModeDpor ∨ bo_mode o = ModeBoth) then collect_measurements (memory false) o (dpor o)
             else Ok []);
        m ← (if decide (bo_mode o = ModeOracle ∨ bo_mode o = ModeBoth) then collect_measurements (memory true) o (oracle o)
             else Ok []);
        Ok (compare_measurements d m)
    end in
  match body with
  | Ok code => Ok code
  | Throw e => match what e with Some _ => Ok 1%Z | None => Throw e end
  end.
