(* ===== verification/Bridge.v ===== *)
(** * Bridge: protocol messages as values of the model checker

    [examples/two_phase_commit_timeout/sim/dpor_types.hpp] and [sim/bridge.hpp]: messages,
    votes and crash choices of the simulated protocol are packed in one 64-bit integer, a
    tag in the low byte and a participant id above it. *)

From stdpp Require Import base tactics numbers pretty list strings.
From S2P Require Import Prelude Errors Event TwoPhase.

(** [SimValue]; the encoding is below 2^64. *)
Record SimValue := MkSimValue { encoded : N }.

#[export] Instance SimValue_eq_dec : EqDecision SimValue.
Proof. solve_decision. Defined.

(** The defaulted [operator<=>]. *)
Definition sim_value_lt (a b : SimValue) : bool := (encoded a <? encoded b)%N.

(** [SimValue::Tag], with underlying type [uint8_t]. *)
Inductive Tag :=
| InvalidTag | PrepareMessage | VoteYesMessage | VoteNoMessage | DecisionCommitMessage
| DecisionAbortMessage | AckMessage | VoteChoiceYes | VoteChoiceNo | CrashChoiceNoCrash
| CrashChoiceCrash.

#[export] Instance Tag_eq_dec : EqDecision Tag.
Proof. solve_decision. Defined.

(** The enumerators in the order of their values. *)
Definition all_tags : list Tag :=
  [InvalidTag; PrepareMessage; VoteYesMessage; VoteNoMessage; DecisionCommitMessage;
   DecisionAbortMessage; AckMessage; VoteChoiceYes; VoteChoiceNo; CrashChoiceNoCrash;
   CrashChoiceCrash].

Definition tag_code (t : Tag) : N :=
  match t with
  | InvalidTag => 0 | PrepareMessage => 1 | VoteYesMessage => 2 | VoteNoMessage => 3
  | DecisionCommitMessage => 4 | DecisionAbortMessage => 5 | AckMessage => 6
  | VoteChoiceYes => 7 | VoteChoiceNo => 8 | CrashChoiceNoCrash => 9 | CrashChoiceCrash => 10
  end%N.

(** ** Encoding *)

Definition make_value (tag : Tag) (payload : N) : SimValue :=
  MkSimValue (N.lor (N.shiftl payload 8 mod 2 ^ 64) (tag_code tag)).

(** The enumerator with the value of the low byte; [None] when no enumerator has it. *)
Definition tag_of (value : SimValue) : option Tag :=
  all_tags !! N.to_nat (N.land (encoded value) 255).

Definition payload_of (value : SimValue) : ParticipantId := N.shiftr (encoded value) 8.

Definition prepare_message : SimValue := make_value PrepareMessage 0.

Definition vote_message (from : ParticipantId) (vote : Vote) : SimValue :=
  make_value (if decide (vote = Yes) then VoteYesMessage else VoteNoMessage) from.

Definition decision_message (d : DecisionValue) : SimValue :=
  make_value (if decide (d = Commit) then DecisionCommitMessage else DecisionAbortMessage) 0.

Definition ack_message (from : ParticipantId) : SimValue := make_value AckMessage from.

Definition encode_message (msg : Message) : SimValue :=
  match msg with
  | Prepare => prepare_message
  | VoteMsg from vote => vote_message from vote
  | DecisionMsg d => decision_message d
  | Ack from => ack_message from
  end.

Definition decode_message (value : SimValue) : res Message :=
  match tag_of value with
  | Some PrepareMessage => Ok Prepare
  | Some VoteYesMessage => Ok (VoteMsg (payload_of value) Yes)
  | Some VoteNoMessage => Ok (VoteMsg (payload_of value) No)
  | Some DecisionCommitMessage => Ok (DecisionMsg Commit)
  | Some DecisionAbortMessage => Ok (DecisionMsg Abort)
  | Some AckMessage => Ok (Ack (payload_of value))
  | _ => Throw (std_exception "observed value is not a message")
  end.

Definition vote_choice (vote : Vote) : SimValue :=
  make_value (if decide (vote = Yes) then VoteChoiceYes else VoteChoiceNo) 0.

Definition decode_vote_choice (value : SimValue) : res Vote :=
  match tag_of value with
  | Some VoteChoiceYes => Ok Yes
  | Some VoteChoiceNo => Ok No
  | _ => Throw (std_exception "observed value is not a vote choice")
  end.

Definition crash_choice (crash : bool) : SimValue :=
  make_value (if crash then CrashChoiceCrash else CrashChoiceNoCrash) 0.

Definition decode_crash_choice (value : SimValue) : res bool :=
  match tag_of value with
  | Some CrashChoiceNoCrash => Ok false
  | Some CrashChoiceCrash => Ok true
  | _ => Throw (std_exception "observed value is not a crash choice")
  end.

Definition decode_decision_message (value : SimValue) : option DecisionValue :=
  match tag_of value with
  | Some DecisionCommitMessage => Some Commit
  | Some DecisionAbortMessage => Some Abort
  | _ => None
  end.

Open Scope string_scope.

(** What [operator<<] writes. *)
Definition show_value (value : SimValue) : string :=
  match tag_of value with
  | Some InvalidTag => "<invalid>"
  | Some PrepareMessage => "PREPARE"
  | Some VoteYesMessage => "VOTE " +:+ pretty (payload_of value) +:+ " YES"
  | Some VoteNoMessage => "VOTE " +:+ pretty (payload_of value) +:+ " NO"
  | Some DecisionCommitMessage => "DECISION COMMIT"
  | Some DecisionAbortMessage => "DECISION ABORT"
  | Some AckMessage => "ACK " +:+ pretty (payload_of value)
  | Some VoteChoiceYes => "YES"
  | Some VoteChoiceNo => "NO"
  | Some CrashChoiceNoCrash => "no_crash"
  | Some CrashChoiceCrash => "crash"
  | None => "<unknown>"
  end.

Close Scope string_scope.

(** Coordinator 0 is thread 1, participant N is thread N + 1; thread ids have 32 bits. *)
Definition participant_to_thread (pid : ParticipantId) : ThreadId :=
  (((pid + 1) mod 2 ^ 64) mod 2 ^ 32)%N.
