(* ===== verification/Simulation.v ===== *)
(** * Simulation: the protocol as a program of the model checker

    [examples/two_phase_commit_timeout/sim/crash_before_decision.hpp].  A thread function
    is called with the thread's trace and a step number; it builds a fresh protocol object
    and a fresh environment, replays the I/O operations before that step from the trace and
    returns the label of the operation at that step.  Control leaves the protocol code by
    an exception when that operation is reached. *)

From stdpp Require Import base tactics numbers list strings.
From S2P Require Import Prelude Errors Event Program TwoPhase Bridge.

(** ** Exceptions *)

(** [ProtocolException] is any other exception, or undefined behaviour. *)
Inductive sim_exn :=
| ScenarioThreadTerminated
| StepBoundaryReached
| SimulationFailure (what : string)
| ProtocolException (e : exn).

#[export] Instance sim_errors : ProtocolErrors sim_exn := {|
  logic_error w := ProtocolException (std_exception w);
  out_of_range := ProtocolException undefined_behavior;
|}.

(** The exception of a library function, thrown inside the simulation. *)
Definition lift_res {E A} (r : res A) : act E sim_exn A := λ s,
  match r with Ok a => (Ok a, s) | Throw e => (Throw (ProtocolException e), s) end.

Definition make_protocol_error_label (message : string) : EventLabel SimValue := LError message.

(** A protocol step whose exceptions, those of the simulation apart, become error labels. *)
Definition invoke_protocol_step {E A} (fn : act E sim_exn A)
    : act E sim_exn (A + EventLabel SimValue) := λ s,
  match fn s with
  | (Ok a, s') => (Ok (inl a), s')
  | (Throw (ProtocolException e), s') =>
      if catchable e then
        (Ok (inr (make_protocol_error_label
                    (match what e with Some w => w | None => "uncaught non-standard exception"%string end))), s')
      else (Throw (ProtocolException e), s')
  | (Throw e, s') => (Throw e, s')
  end.

(** ** The environment *)

Record ReplayState := MkReplayState {
  id_map_ : ParticipantId → ThreadId;
  target_io_ : nat;
  trace_ : ThreadTrace SimValue;
  trace_offset_ : nat;
  io_count_ : nat;
  trace_consume_count_ : nat;
  result_ : option (EventLabel SimValue);
  active_timer_ : option (TimerId * TimerCallback);
}.

(** [crash_before_decision::Environment]. *)
Record SimEnv := MkSimEnv {
  replay_ : ReplayState;
  inject_crash_ : bool;
  crash_injected_ : bool;
}.

Definition new_env (id_map : ParticipantId → ThreadId) (target_io : nat) (trace : ThreadTrace SimValue)
    (trace_offset : nat) (inject_crash : bool) : SimEnv :=
  MkSimEnv (MkReplayState id_map target_io trace trace_offset 0 0 None None) inject_crash false.

Abbreviation sim := (act SimEnv sim_exn).

Definition get_env : sim SimEnv := λ env, (Ok env, env).

(** [io_count_++]: the number before it. *)
Definition next_io : sim nat := λ env,
  let r := replay_ env in
  (Ok (io_count_ r),
   MkSimEnv (MkReplayState (id_map_ r) (target_io_ r) (trace_ r) (trace_offset_ r) (S (io_count_ r))
               (trace_consume_count_ r) (result_ r) (active_timer_ r))
     (inject_crash_ env) (crash_injected_ env)).

(** [trace_offset_ + trace_consume_count_++]. *)
Definition next_trace_index : sim nat := λ env,
  let r := replay_ env in
  (Ok (trace_offset_ r + trace_consume_count_ r),
   MkSimEnv (MkReplayState (id_map_ r) (target_io_ r) (trace_ r) (trace_offset_ r) (io_count_ r)
               (S (trace_consume_count_ r)) (result_ r) (active_timer_ r))
     (inject_crash_ env) (crash_injected_ env)).

Definition set_result (l : EventLabel SimValue) : sim unit := λ env,
  let r := replay_ env in
  (Ok (),
   MkSimEnv (MkReplayState (id_map_ r) (target_io_ r) (trace_ r) (trace_offset_ r) (io_count_ r)
               (trace_consume_count_ r) (Some l) (active_timer_ r))
     (inject_crash_ env) (crash_injected_ env)).

Definition set_active_timer (t : option (TimerId * TimerCallback)) : sim unit := λ env,
  let r := replay_ env in
  (Ok (),
   MkSimEnv (MkReplayState (id_map_ r) (target_io_ r) (trace_ r) (trace_offset_ r) (io_count_ r)
               (trace_consume_count_ r) (result_ r) t)
     (inject_crash_ env) (crash_injected_ env)).

Definition trace_entry (idx : nat) : sim (ObservedValue SimValue) :=
  env ← get_env;
  match trace_ (replay_ env) !! idx with
  | Some o => mret o
  | None => throw (SimulationFailure "trace shorter than expected for simulated replay")
  end.

Definition trace_value (idx : nat) : sim SimValue :=
  observed ← trace_entry idx;
  match observed with
  | Observed v => mret v
  | BottomValue => throw (SimulationFailure "trace requested a concrete value but observed bottom")
  end.

(** Exceptions of [decode_message] are failures of the simulation. *)
Definition decode_sim_message (value : SimValue) : sim Message :=
  match decode_message value with
  | Ok msg => mret msg
  | Throw e =>
      match what e with
      | Some w => throw (SimulationFailure w)
      | None => throw (ProtocolException e)
      end
  end.

Definition capture_send (destination : ParticipantId) (value : SimValue) : sim unit :=
  current ← next_io;
  env ← get_env;
  if decide (current < target_io_ (replay_ env)) then mret ()
  else
    _ ← set_result (LSend (MkSendLabel (id_map_ (replay_ env) destination) value));
    throw StepBoundaryReached.

Definition replay_choice_or_capture (choices : list SimValue) : sim SimValue :=
  current ← next_io;
  env ← get_env;
  if decide (current < target_io_ (replay_ env)) then
    idx ← next_trace_index;
    trace_value idx
  else
    _ ← set_result (LNd (MkNdLabel (MkSimValue 0) choices));
    throw StepBoundaryReached.

Definition sim_set_timer (id : TimerId) (callback : TimerCallback) : sim unit :=
  env ← get_env;
  match active_timer_ (replay_ env) with
  | Some (id', _) =>
      if decide (id' ≠ id) then
        throw (SimulationFailure
                 "the simulation environment supports at most one active timer per thread")
      else set_active_timer (Some (id, callback))
  | None => set_active_timer (Some (id, callback))
  end.

Definition sim_cancel_timer (id : TimerId) : sim unit :=
  env ← get_env;
  match active_timer_ (replay_ env) with
  | Some (id', _) => if decide (id' = id) then set_active_timer None else mret ()
  | None => mret ()
  end.

Definition mark_crash_injected : sim unit := λ env,
  (Ok (), MkSimEnv (replay_ env) (inject_crash_ env) true).

Definition is_decision_msg (msg : Message) : bool :=
  match msg with DecisionMsg _ => true | _ => false end.

Definition sim_send (destination : ParticipantId) (msg : Message) : sim unit :=
  env ← get_env;
  _ ← (if inject_crash_ env && negb (crash_injected_ env) && is_decision_msg msg then
         _ ← mark_crash_injected;
         choice ← replay_choice_or_capture [crash_choice false; crash_choice true];
         crash ← lift_res (decode_crash_choice choice);
         if (crash : bool) then throw ScenarioThreadTerminated else mret ()
       else mret ());
  capture_send destination (encode_message msg).

Definition sim_get_vote : sim Vote :=
  choice ← replay_choice_or_capture [vote_choice Yes; vote_choice No];
  lift_res (decode_vote_choice choice).

#[export] Instance sim_environment : Environment SimEnv sim_exn := {|
  send := sim_send;
  get_vote := sim_get_vote;
  set_timer id _ callback := sim_set_timer id callback;
  cancel_timer := sim_cancel_timer;
|}.

(** ** Replay *)

Inductive ReceiveResult :=
| ReplayedMessage (msg : Message)
| ReplayedTimerFire (keep_waiting : bool)
| CapturedReceive.

Section replay.
Context {Obj : Type} `{Protocol SimEnv sim_exn Obj}.

Definition fire_active_timer (obj : Obj) : sim (bool * Obj) :=
  env ← get_env;
  match active_timer_ (replay_ env) with
  | None => throw (SimulationFailure "trace requested timer firing but no timer is active")
  | Some (_, callback) =>
      _ ← set_active_timer None;
      r ← invoke_protocol_step (run_timer callback obj);
      match r with
      | inr error => _ ← set_result error; throw StepBoundaryReached
      | inl (keep_waiting, obj') => mret (keep_waiting, obj')
      end
  end.

(** [ReplayState::receive_step], with the object whose timer may fire. *)
Definition receive_step (obj : Obj) : sim (ReceiveResult * Obj) :=
  current ← next_io;
  env ← get_env;
  if decide (current < target_io_ (replay_ env)) then
    idx ← next_trace_index;
    observed ← trace_entry idx;
    match observed with
    | BottomValue =>
        '(keep_waiting, obj') ← fire_active_timer obj;
        mret (ReplayedTimerFire keep_waiting, obj')
    | Observed _ =>
        value ← trace_value idx;
        msg ← decode_sim_message value;
        mret (ReplayedMessage msg, obj)
    end
  else
    _ ← set_result (match active_timer_ (replay_ env) with
                    | Some _ => LReceive (make_nonblocking_receive_label match_any_value)
                    | None => LReceive (make_receive_label match_any_value Blocking)
                    end);
    mret (CapturedReceive, obj).

(** The [while (needs_message)] loop of [run_and_capture]. *)
Fixpoint replay_loop (fuel : nat) (obj : Obj) : sim (option (EventLabel SimValue)) :=
  match fuel with
  | O => throw (ProtocolException nontermination)
  | S fuel' =>
      '(step, obj) ← receive_step obj;
      match step with
      | CapturedReceive => env ← get_env; mret (result_ (replay_ env))
      | ReplayedTimerFire needs_message =>
          if (needs_message : bool) then replay_loop fuel' obj else mret None
      | ReplayedMessage msg =>
          r ← invoke_protocol_step (receive obj msg);
          match r with
          | inr error => mret (Some error)
          | inl (needs_message, obj) =>
              if (needs_message : bool) then replay_loop fuel' obj else mret None
          end
      end
  end.

Definition run_to_boundary (obj : Obj) : sim (option (EventLabel SimValue)) :=
  env ← get_env;
  r ← invoke_protocol_step (start obj);
  match r with
  | inr error => mret (Some error)
  | inl (needs_message, obj) =>
      if (needs_message : bool) then replay_loop (S (target_io_ (replay_ env))) obj else mret None
  end.

(** Every iteration of the loop is one I/O operation, so that the loop ends at the target. *)
Definition run_and_capture (obj : Obj) (env : SimEnv) : res (option (EventLabel SimValue)) :=
  match run_to_boundary obj env with
  | (Ok r, _) => Ok r
  | (Throw ScenarioThreadTerminated, _) => Ok None
  | (Throw StepBoundaryReached, env') => Ok (result_ (replay_ env'))
  | (Throw (SimulationFailure w), _) => Throw (std_exception w)
  | (Throw (ProtocolException e), _) => Throw e
  end.

End replay.

(** ** Programs *)

Record Options := MkSimOptions {
  num_participants : N;
  bug_on_p1_no : bool;
  inject_crash : bool;
}.

Definition make_coordinator_function (options : Options) : ThreadFunctionT SimValue := λ trace step,
  run_and_capture (new_coordinator (num_participants options) (bug_on_p1_no options))
    (new_env participant_to_thread step trace 0 (inject_crash options)).

Definition make_participant_function (pid : ParticipantId) : ThreadFunctionT SimValue := λ trace step,
  run_and_capture (new_participant pid) (new_env participant_to_thread step trace 0 false).

Definition make_program (options : Options) : Program SimValue :=
  MkProgram
    (foldl (λ m pid, tm_assign m (participant_to_thread pid) (make_participant_function pid))
       (tm_assign tm_empty_map (participant_to_thread kCoordinator) (make_coordinator_function options))
       (N.of_nat <$> seq 1 (N.to_nat (num_participants options)))).
