(* ===== verification/BridgeFacts.v ===== *)
(** * BridgeFacts: encodings of messages are undone by their decodings

    The packing of messages in 64-bit values loses the high bits of large participant
    ids; the text format is exact for every [size_t]. *)

From Stdlib Require Import Ascii.
From stdpp Require Import base tactics numbers pretty list strings.
From S2P Require Import Prelude Errors Event TwoPhase Bridge.

(** ** Packed values *)

(** The payload that survives the shift. *)
Definition kept_payload (n : N) : N := (n mod 2 ^ 56)%N.

Lemma kept_payload_small n : (n < 2 ^ 56)%N → kept_payload n = n.
Proof. intros Hn. by apply N.mod_small. Qed.

Lemma shifted_payload n : (N.shiftl n 8 mod 2 ^ 64 = N.shiftl (kept_payload n) 8)%N.
Proof.
  unfold kept_payload. rewrite !N.shiftl_mul_pow2.
  change (2 ^ 64)%N with (2 ^ 56 * 2 ^ 8)%N. apply N.Div0.mul_mod_distr_r.
Qed.

Lemma tag_code_small t : (tag_code t < 2 ^ 8)%N.
Proof. by destruct t. Qed.

Lemma tag_of_make t n : tag_of (make_value t n) = Some t.
Proof.
  unfold tag_of, make_value. simpl. rewrite shifted_payload. change 255%N with (N.ones 8).
  rewrite N.land_lor_distr_l, !N.land_ones, N.shiftl_mul_pow2, N.Div0.mod_mul by done.
  rewrite N.lor_0_l, N.mod_small by apply tag_code_small. by destruct t.
Qed.

Lemma payload_of_make t n : payload_of (make_value t n) = kept_payload n.
Proof.
  unfold payload_of, make_value. simpl. rewrite shifted_payload, N.shiftr_lor.
  rewrite N.shiftr_shiftl_l by done. rewrite N.sub_diag, N.shiftl_0_r.
  rewrite (N.shiftr_div_pow2 (tag_code t)), N.div_small by apply tag_code_small.
  apply N.lor_0_r.
Qed.

(** The message with the ids that survive. *)
Definition kept_ids_of (msg : Message) : Message :=
  match msg with
  | VoteMsg from vote => VoteMsg (kept_payload from) vote
  | Ack from => Ack (kept_payload from)
  | m => m
  end.

Lemma decode_encode msg : decode_message (encode_message msg) = Ok (kept_ids_of msg).
Proof.
  destruct msg as [|from []|[]|from]; unfold decode_message; simpl; unfold vote_message, ack_message,
    decision_message, prepare_message; simpl; rewrite ?tag_of_make, ?payload_of_make; done.
Qed.

(** A message survives exactly when its id fits in 56 bits. *)
Lemma kept_ids_exact msg :
  kept_ids_of msg = msg ↔
  match msg with VoteMsg from _ | Ack from => (from < 2 ^ 56)%N | _ => True end.
Proof.
  assert (∀ n, kept_payload n = n ↔ (n < 2 ^ 56)%N) as Hk.
  { intros n. split; [|apply kept_payload_small]. intros <-. by apply N.mod_lt. }
  destruct msg as [|from vote|d|from]; simpl; [done| |done|]; rewrite <-Hk; split; congruence.
Qed.

Lemma decode_choices vote crash :
  decode_vote_choice (vote_choice vote) = Ok vote ∧ decode_crash_choice (crash_choice crash) = Ok crash.
Proof. by destruct vote, crash. Qed.

(** ** The text format *)

Open Scope string_scope.

(** Every character of [s] satisfies [p]. *)
Fixpoint all_chars (p : Ascii.ascii → bool) (s : string) : bool :=
  match s with String c s' => p c && all_chars p s' | EmptyString => true end.

(** [s] does not start with a character of [p]. *)
Definition stops (p : Ascii.ascii → bool) (s : string) : bool :=
  match s with String c _ => negb (p c) | EmptyString => true end.

Lemma span_app p s s' : all_chars p s = true → stops p s' = true → span p (s +:+ s') = (s, s').
Proof.
  intros Hs Hs'. induction s as [|c s IH]; simpl in *.
  - destruct s' as [|c t]; [done|]. simpl in *. by destruct (p c).
  - apply andb_true_iff in Hs as [-> Hs]. by rewrite IH.
Qed.

(** Reading a word that is followed by nothing or by white space. *)
Lemma read_word_app w rest old :
  w ≠ "" → all_chars (λ c, negb (is_space_char c)) w = true →
  stops (λ c, negb (is_space_char c)) rest = true →
  read_word (Some (w +:+ rest)) old = (w, Some rest).
Proof.
  intros Hne Hw Hrest. unfold read_word. destruct w as [|c w]; [done|].
  assert (skip_ws (String c w +:+ rest) = String c w +:+ rest) as ->.
  { simpl in Hw. apply andb_true_iff in Hw as [Hc _]. simpl. by destruct (is_space_char c). }
  change (String c w +:+ rest) with (String c (w +:+ rest)). cbn iota.
  change (String c (w +:+ rest)) with (String c w +:+ rest). by rewrite span_app.
Qed.

Lemma skip_space s old : read_word (Some (String " "%char s)) old = read_word (Some s) old.
Proof. done. Qed.

(** *** Decimal numbers *)

Lemma pretty_char_digit n :
  (n < 10)%N → is_digit (pretty_N_char n) = true ∧ (Ascii.N_of_ascii (pretty_N_char n) - 48 = n)%N.
Proof.
  intros Hn. assert (n = 0 ∨ n = 1 ∨ n = 2 ∨ n = 3 ∨ n = 4 ∨ n = 5 ∨ n = 6 ∨ n = 7 ∨ n = 8 ∨ n = 9)%N
    as Hcases by lia. repeat (destruct Hcases as [->|Hcases]; [done|]). by subst n.
Qed.

Lemma pretty_go_value n s : digits_value 0 (pretty_N_go n s) = digits_value n s.
Proof.
  revert s. induction (N.lt_wf_0 n) as [n _ IH]; intros s.
  destruct (decide (n = 0%N)) as [->|Hne]; [done|]. rewrite pretty_N_go_step by lia.
  rewrite IH by (apply N.div_lt; lia). simpl.
  destruct (pretty_char_digit (n `mod` 10)) as [_ ->]; [by apply N.mod_lt|].
  f_equal. rewrite N.mul_comm. symmetry. apply N.div_mod. done.
Qed.

Lemma pretty_go_digits n s : all_chars is_digit s = true → all_chars is_digit (pretty_N_go n s) = true.
Proof.
  revert s. induction (N.lt_wf_0 n) as [n _ IH]; intros s Hs.
  destruct (decide (n = 0%N)) as [->|Hne]; [done|]. rewrite pretty_N_go_step by lia.
  apply IH; [apply N.div_lt; lia|]. simpl.
  destruct (pretty_char_digit (n `mod` 10)) as [-> _]; [by apply N.mod_lt|done].
Qed.

Lemma pretty_go_nonempty n s : s ≠ "" → pretty_N_go n s ≠ "".
Proof.
  revert s. induction (N.lt_wf_0 n) as [n _ IH]; intros s Hs.
  destruct (decide (n = 0%N)) as [->|Hne]; [done|]. rewrite pretty_N_go_step by lia.
  apply IH; [apply N.div_lt; lia|done].
Qed.

Lemma pretty_number (n : N) :
  pretty n ≠ "" ∧ all_chars is_digit (pretty n) = true ∧ digits_value 0 (pretty n) = n.
Proof.
  unfold pretty, pretty_N. destruct (decide (n = 0%N)) as [->|Hne]; [done|]. split_and!.
  - rewrite pretty_N_go_step by lia. by apply pretty_go_nonempty.
  - by apply pretty_go_digits.
  - by rewrite pretty_go_value.
Qed.

(** Reading back a printed number. *)
Lemma read_number n rest :
  (n ≤ size_t_max)%N → stops is_digit rest = true →
  read_size_t (Some (String " "%char (pretty n +:+ rest))) = Some (n, rest).
Proof.
  intros Hn Hrest. destruct (pretty_number n) as (Hne & Hd & Hv). unfold read_size_t.
  destruct (pretty n) as [|c ds] eqn:Hp; [done|].
  assert (is_digit c = true) as Hc by (simpl in Hd; by apply andb_true_iff in Hd as [? _]).
  assert (48 ≤ Ascii.N_of_ascii c)%N as Hlow.
  { unfold is_digit in Hc. apply andb_true_iff in Hc as [Hc _]. by apply N.leb_le. }
  assert (is_space_char c = false) as Hsp.
  { unfold is_digit, is_space_char in *. apply andb_true_iff in Hc as [H1%N.leb_le H2%N.leb_le].
    apply orb_false_iff. split; [apply andb_false_iff; right; apply N.leb_gt; lia|apply N.eqb_neq; lia]. }
  assert (skip_ws (String " "%char (String c ds +:+ rest)) = String c ds +:+ rest) as ->.
  { simpl. by rewrite Hsp. }
  change (String c ds +:+ rest) with (String c (ds +:+ rest)). cbn iota.
  rewrite !decide_False by lia. change (String c (ds +:+ rest)) with (String c ds +:+ rest).
  rewrite span_app by done. rewrite Hv. rewrite decide_False; [done|]. intros [?|?]; [done|lia].
Qed.

(** *** Messages *)

(** The ids of a message fit in a [size_t]. *)
Definition ids_fit (msg : Message) : Prop :=
  match msg with VoteMsg from _ | Ack from => (from ≤ size_t_max)%N | _ => True end.

Lemma string_app_empty s : s +:+ "" = s.
Proof.
  induction s as [|c s IH]; [done|]. change (String c (s +:+ "") = String c s). by rewrite IH.
Qed.

Lemma deserialize_serialize msg : ids_fit msg → deserialize (serialize msg) = Ok msg.
Proof.
  intros Hfit. destruct msg as [|from vote|d|from]; simpl in Hfit.
  - done.
  - unfold deserialize.
    set (v := if decide (vote = Yes) then "YES" else "NO").
    change (serialize (VoteMsg from vote)) with ("VOTE" +:+ String " "%char (pretty from +:+ String " "%char v)).
    rewrite read_word_app by done. rewrite decide_False, decide_True by done.
    rewrite read_number by done. rewrite skip_space.
    rewrite <-(string_app_empty v), read_word_app by (unfold v; by destruct vote).
    unfold v. by destruct vote.
  - by destruct d.
  - unfold deserialize. change (serialize (Ack from)) with ("ACK" +:+ String " "%char (pretty from)).
    rewrite read_word_app by done. rewrite !decide_False, decide_True by done.
    rewrite <-(string_app_empty (pretty from)), read_number by done. done.
Qed.

Close Scope string_scope.
