(* ===== verification/Replay.v ===== *)
(** * Replay: one run of a simulated thread

    The reference for the replay of [Simulation]: an environment that runs a protocol
    object once, from its first operation on, answering choices and receives from a list of
    observations and recording the label of every operation.  [log_run] is the list of
    labels and how the run ended. *)

From stdpp Require Import base tactics numbers list strings.
From S2P Require Import Prelude Errors Event Program TwoPhase Bridge Simulation.

(** How a recorded run can end other than by returning: the thread crashed, the
    observations ran out at the last recorded operation, the protocol threw, or the
    observations do not fit the operations. *)
Inductive log_exn :=
| LogCrashed
| LogExhausted
| LogErrored (l : EventLabel SimValue)
| LogFailed (what : string)
| LogProtocol (e : exn).

Record LogEnv := MkLogEnv {
  lg_answers : ThreadTrace SimValue;
  lg_log : list (EventLabel SimValue);
  lg_timer : option (TimerId * TimerCallback);
  lg_inject : bool;
  lg_injected : bool;
}.

Abbreviation logged := (act LogEnv log_exn).

#[export] Instance log_errors : ProtocolErrors log_exn := {|
  logic_error w := LogProtocol (std_exception w);
  out_of_range := LogProtocol undefined_behavior;
|}.

Definition log_get : logged LogEnv := λ lg, (Ok lg, lg).

(** Records the label of an operation. *)
Definition record (l : EventLabel SimValue) : logged unit := λ lg,
  (Ok (), MkLogEnv (lg_answers lg) (lg_log lg ++ [l]) (lg_timer lg) (lg_inject lg) (lg_injected lg)).

(** The next observation. *)
Definition next_answer : logged (ObservedValue SimValue) := λ lg,
  match lg_answers lg with
  | [] => (Throw LogExhausted, lg)
  | a :: answers => (Ok a, MkLogEnv answers (lg_log lg) (lg_timer lg) (lg_inject lg) (lg_injected lg))
  end.

Definition log_set_timer (t : option (TimerId * TimerCallback)) : logged unit := λ lg,
  (Ok (), MkLogEnv (lg_answers lg) (lg_log lg) t (lg_inject lg) (lg_injected lg)).

Definition log_mark : logged unit := λ lg,
  (Ok (), MkLogEnv (lg_answers lg) (lg_log lg) (lg_timer lg) (lg_inject lg) true).

Definition log_lift {A} (r : res A) : logged A := λ lg,
  match r with Ok a => (Ok a, lg) | Throw e => (Throw (LogProtocol e), lg) end.

Definition log_choice (choices : list SimValue) : logged SimValue :=
  _ ← record (LNd (MkNdLabel (MkSimValue 0) choices));
  a ← next_answer;
  match a with
  | Observed v => mret v
  | BottomValue => throw (LogFailed "trace requested a concrete value but observed bottom")
  end.

Definition log_send (destination : ParticipantId) (msg : Message) : logged unit :=
  lg ← log_get;
  _ ← (if lg_inject lg && negb (lg_injected lg) && is_decision_msg msg then
         _ ← log_mark;
         choice ← log_choice [crash_choice false; crash_choice true];
         crash ← log_lift (decode_crash_choice choice);
         if (crash : bool) then throw LogCrashed else mret ()
       else mret ());
  record (LSend (MkSendLabel (participant_to_thread destination) (encode_message msg))).

#[export] Instance log_environment : Environment LogEnv log_exn := {|
  send := log_send;
  get_vote := choice ← log_choice [vote_choice Yes; vote_choice No]; log_lift (decode_vote_choice choice);
  set_timer id _ callback :=
    lg ← log_get;
    match lg_timer lg with
    | Some (id', _) =>
        if decide (id' ≠ id) then
          throw (LogFailed "the simulation environment supports at most one active timer per thread")
        else log_set_timer (Some (id, callback))
    | None => log_set_timer (Some (id, callback))
    end;
  cancel_timer id :=
    lg ← log_get;
    match lg_timer lg with
    | Some (id', _) => if decide (id' = id) then log_set_timer None else mret ()
    | None => mret ()
    end;
|}.

(** A protocol step; an exception of the protocol ends the run with an error label. *)
Definition log_step {A} (fn : logged A) : logged A := λ lg,
  match fn lg with
  | (Throw (LogProtocol e), lg') =>
      if catchable e then
        (Throw (LogErrored (make_protocol_error_label
           (match what e with Some w => w | None => "uncaught non-standard exception"%string end))), lg')
      else (Throw (LogProtocol e), lg')
  | r => r
  end.

Section run.
Context {Obj : Type} `{Protocol LogEnv log_exn Obj}.

(** The receive the thread waits in. *)
Definition wait_label (timer : option (TimerId * TimerCallback)) : EventLabel SimValue :=
  match timer with
  | Some _ => LReceive (make_nonblocking_receive_label match_any_value)
  | None => LReceive (make_receive_label match_any_value Blocking)
  end.

(** What the object does with the next observation: the timer fires on bottom. *)
Definition log_answer (timer : option (TimerId * TimerCallback)) (obj : Obj) : logged (bool * Obj) :=
  a ← next_answer;
  match a with
  | BottomValue =>
      match timer with
      | None => throw (LogFailed "trace requested timer firing but no timer is active")
      | Some (_, callback) => _ ← log_set_timer None; log_step (run_timer callback obj)
      end
  | Observed v =>
      match decode_message v with
      | Ok msg => log_step (receive obj msg)
      | Throw e => match what e with Some w => throw (LogFailed w) | None => throw (LogProtocol e) end
      end
  end.

(** One wait. *)
Definition log_wait (obj : Obj) : logged (bool * Obj) :=
  lg ← log_get;
  _ ← record (wait_label (lg_timer lg));
  log_answer (lg_timer lg) obj.

(** Waits as long as the object needs input; every wait takes an observation. *)
Fixpoint log_loop (fuel : nat) (obj : Obj) : logged unit :=
  match fuel with
  | O => throw (LogProtocol nontermination)
  | S fuel' => '(more, obj') ← log_wait obj; if (more : bool) then log_loop fuel' obj' else mret ()
  end.

Definition log_run (obj : Obj) (trace : ThreadTrace SimValue) (crashes : bool)
    : result log_exn unit * list (EventLabel SimValue) :=
  let '(r, lg) :=
    ('(more, obj') ← log_step (start obj);
     if (more : bool) then log_loop (S (length trace)) obj' else mret ())
      (MkLogEnv trace [] None crashes false) in
  (r, lg_log lg).

(** What a thread function that indexes the run returns at a step. *)
Definition nth_label (run : result log_exn unit * list (EventLabel SimValue)) (step : nat)
    : res (option (EventLabel SimValue)) :=
  match run.2 !! step with
  | Some l => Ok (Some l)
  | None =>
      match run.1 with
      | Ok () | Throw LogCrashed => Ok None
      | Throw (LogErrored l) => Ok (Some l)
      | Throw LogExhausted =>
          Throw (std_exception "trace shorter than expected for simulated replay")
      | Throw (LogFailed w) => Throw (std_exception w)
      | Throw (LogProtocol e) => Throw e
      end
  end.

End run.
