(* ===== verification/ReplayFacts.v ===== *)
(** * ReplayFacts: replaying a thread is indexing its run

    A thread function of [Simulation] replays its thread from scratch at every call and
    stops at one operation.  It returns the label that one run of [Replay] records for
    that operation ([run_and_capture_indexes]). *)

From stdpp Require Import base tactics numbers list strings.
From S2P Require Import Prelude Errors Event Program TwoPhase Bridge Simulation Replay.

Section tracks.
(** The step a thread function is called for, and the trace it is called with. *)
Context (k : nat) (trace : ThreadTrace SimValue).

(** The replay has reached the operation the run is about to make. *)
Record insync (env : SimEnv) (lg : LogEnv) : Prop := {
  is_target : target_io_ (replay_ env) = k;
  is_trace : trace_ (replay_ env) = trace;
  is_offset : trace_offset_ (replay_ env) = 0;
  is_map : id_map_ (replay_ env) = participant_to_thread;
  is_count : io_count_ (replay_ env) = length (lg_log lg);
  is_before : length (lg_log lg) ≤ k;
  is_answers : lg_answers lg = drop (trace_consume_count_ (replay_ env)) trace;
  is_timer : active_timer_ (replay_ env) = lg_timer lg;
  is_inject : inject_crash_ env = lg_inject lg;
  is_injected : crash_injected_ env = lg_injected lg;
}.

(** The replay stopped at its target, or as the run did before. *)
Definition stopped {A} (e : sim_exn) (env : SimEnv) (o : result log_exn A * LogEnv) : Prop :=
  match e with
  | StepBoundaryReached => ∃ l, result_ (replay_ env) = Some l ∧
      (lg_log o.2 !! k = Some l ∨ o.1 = Throw (LogErrored l) ∧ length (lg_log o.2) ≤ k)
  | ScenarioThreadTerminated => o.1 = Throw LogCrashed ∧ length (lg_log o.2) ≤ k
  | SimulationFailure w => length (lg_log o.2) ≤ k ∧
      (o.1 = Throw (LogFailed w) ∨
       o.1 = Throw LogExhausted ∧ w = "trace shorter than expected for simulated replay"%string)
  | ProtocolException e => o.1 = Throw (LogProtocol e) ∧ length (lg_log o.2) ≤ k
  end.

Definition follows {A} (o : result sim_exn A * SimEnv) (o' : result log_exn A * LogEnv) : Prop :=
  match o.1 with
  | Ok a => o'.1 = Ok a ∧ insync o.2 o'.2
  | Throw e => stopped e o.2 o'
  end.

(** A run only adds to its log and only takes observations. *)
Definition grows {A} (m : logged A) : Prop := ∀ lg,
  lg_log lg `prefix_of` lg_log (m lg).2 ∧ length (lg_answers (m lg).2) ≤ length (lg_answers lg).

Definition tracks {A} (m : sim A) (m' : logged A) : Prop :=
  grows m' ∧ ∀ env lg, insync env lg → follows (m env) (m' lg).

(** ** Combinators *)

Lemma grows_ret {A} (a : A) : grows (mret a).
Proof. by intros lg. Qed.

Lemma grows_throw {A} e : grows (throw (A := A) e).
Proof. by intros lg. Qed.

Lemma grows_bind {A B} (m : logged A) (f : A → logged B) :
  grows m → (∀ a, grows (f a)) → grows (m ≫= f).
Proof.
  intros Hm Hf lg. specialize (Hm lg). unfold mbind, act_bind. destruct (m lg) as [[a|e] lg1]; [|done].
  destruct (Hf a lg1) as [Hl Ha]. simpl in *. destruct Hm as [Hl' Ha']. split; [by etrans|lia].
Qed.

Lemma tracks_ret {A} (a : A) : tracks (mret a) (mret a).
Proof. split; [apply grows_ret|]. by intros env lg Hin. Qed.

Lemma stopped_throw {A B} e env (e' : log_exn) lg :
  stopped (A := A) e env (Throw e', lg) → stopped (A := B) e env (Throw e', lg).
Proof.
  destruct e; simpl; naive_solver.
Qed.

Lemma tracks_bind {A B} (m : sim A) (m' : logged A) (f : A → sim B) (f' : A → logged B) :
  tracks m m' → (∀ a, tracks (f a) (f' a)) → tracks (m ≫= f) (m' ≫= f').
Proof.
  intros [Hg Hm] Hf. split; [apply grows_bind; [done|apply Hf]|]. intros env lg Hin.
  specialize (Hm env lg Hin). unfold mbind, act_bind, follows in *.
  destruct (m env) as [[a|e] env1], (m' lg) as [[a'|e'] lg1]; simpl in *.
  - destruct Hm as [[= ->] Hin1]. by apply Hf.
  - by destruct Hm.
  - destruct e; simpl in Hm; try naive_solver. destruct Hm as (l & Hr & [Hl|[? _]]); [|done].
    exists l. split; [done|]. left. destruct (Hf a') as [Hg' _]. destruct (Hg' lg1) as [Hpre _].
    by eapply prefix_lookup_Some.
  - by eapply stopped_throw.
Qed.

Lemma tracks_throw {A} e e' :
  (∀ env lg, insync env lg → stopped (A := A) e env (Throw e', lg)) → tracks (A := A) (throw e) (throw e').
Proof. intros He. split; [apply grows_throw|]. intros env lg Hin. by apply He. Qed.

Lemma tracks_for_each {A} (f : A → sim unit) (f' : A → logged unit) l :
  (∀ a, tracks (f a) (f' a)) → tracks (for_each f l) (for_each f' l).
Proof.
  intros Hf. induction l as [|a l IH]; simpl; [apply tracks_ret|]. by apply tracks_bind.
Qed.

(** Reading the environments. *)
Lemma tracks_get {B} (f : SimEnv → sim B) (f' : LogEnv → logged B) :
  (∀ lg, grows (f' lg)) →
  (∀ env lg, insync env lg → follows (f env env) (f' lg lg)) →
  tracks (get_env ≫= f) (log_get ≫= f').
Proof.
  intros Hg Hf. split; [|by intros env lg Hin; apply (Hf env lg)].
  intros lg. apply (Hg lg lg).
Qed.

(** ** Operations *)

Lemma grows_record l : grows (record l).
Proof. intros lg. split; simpl; [by apply prefix_app_r|done]. Qed.

Lemma grows_answer : grows next_answer.
Proof. intros lg. unfold next_answer. destruct (lg_answers lg) eqn:E; simpl; rewrite ?E; simpl; split; [done|lia|done|lia]. Qed.

Lemma grows_timer t : grows (log_set_timer t).
Proof. by intros lg. Qed.

Lemma grows_mark : grows log_mark.
Proof. by intros lg. Qed.

Lemma grows_get : grows log_get.
Proof. by intros lg. Qed.

Lemma grows_lift {A} (r : res A) : grows (log_lift r).
Proof. intros lg. unfold log_lift. by destruct r. Qed.

End tracks.

Create HintDb replay.
#[export] Hint Resolve grows_ret grows_throw grows_bind grows_record grows_answer grows_timer grows_mark
  grows_get grows_lift tracks_ret : replay.

Section operations.
Context (k : nat) (trace : ThreadTrace SimValue).

Abbreviation insync := (insync k trace).
Abbreviation tracks := (tracks k trace).

Lemma tracks_send destination msg :
  tracks (capture_send destination (encode_message msg))
    (record (LSend (MkSendLabel (participant_to_thread destination) (encode_message msg)))).
Proof.
  split; [apply grows_record|]. intros env lg []. unfold follows, capture_send, mbind, act_bind. simpl.
  rewrite is_target0, is_count0, is_map0. destruct (decide (length (lg_log lg) < k)) as [Hlt|Hge]; simpl.
  - split; [done|]. split; simpl; try done; rewrite ?length_app; simpl; lia.
  - eexists. split; [done|]. left. rewrite lookup_app_r by lia.
    by replace (k - length (lg_log lg)) with 0 by lia.
Qed.

(** The observation the replay takes. *)
Lemma answer_lookup env lg :
  insync env lg →
  match lg_answers lg with
  | [] => trace !! trace_consume_count_ (replay_ env) = None
  | a :: answers => trace !! trace_consume_count_ (replay_ env) = Some a ∧
      answers = drop (S (trace_consume_count_ (replay_ env))) trace
  end.
Proof.
  intros Hin. pose proof (is_answers _ _ _ _ Hin) as Ha. set (c := trace_consume_count_ (replay_ env)) in *.
  pose proof (lookup_drop trace c 0) as Hl. rewrite Nat.add_0_r, <-Ha in Hl.
  destruct (lg_answers lg) as [|a answers] eqn:E; simpl in Hl; [done|]. split; [done|].
  replace (S c) with (c + 1) by lia. by rewrite <-drop_drop, <-Ha.
Qed.

Lemma tracks_choice choices : tracks (replay_choice_or_capture choices) (log_choice choices).
Proof.
  split; [unfold log_choice; apply grows_bind; [auto with replay|intros _];
    apply grows_bind; [auto with replay|intros []; auto with replay]|].
  intros env lg Hin. pose proof (answer_lookup env lg Hin) as Ha. destruct Hin.
  unfold follows, replay_choice_or_capture, log_choice, record, next_answer, mbind, act_bind. simpl.
  rewrite is_target0, is_count0. destruct (decide (length (lg_log lg) < k)) as [Hlt|Hge]; simpl.
  - unfold trace_value, trace_entry, mbind, act_bind. simpl. rewrite is_trace0, is_offset0. simpl.
    destruct (lg_answers lg) as [|[v|] answers] eqn:E; simpl.
    + rewrite Ha. simpl. split; [rewrite length_app; simpl; lia|by right].
    + destruct Ha as [-> Ha]. simpl. split; [done|]. split; simpl; try done; rewrite ?length_app; simpl; lia.
    + destruct Ha as [-> Ha]. simpl. split; [rewrite length_app; simpl; lia|by left].
  - eexists. split; [done|]. left.
    assert (∀ o : result log_exn SimValue * LogEnv, lg_log o.2 = lg_log lg ++ [LNd (MkNdLabel (MkSimValue 0) choices)] →
      lg_log o.2 !! k = Some (LNd (MkNdLabel (MkSimValue 0) choices))) as Hk.
    { intros o ->. rewrite lookup_app_r by lia. by replace (k - length (lg_log lg)) with 0 by lia. }
    apply Hk. by destruct (lg_answers lg) as [|[] ?].
Qed.

Lemma tracks_lift {A} (r : res A) : tracks (lift_res r) (log_lift r).
Proof.
  split; [apply grows_lift|]. intros env lg Hin. unfold follows, lift_res, log_lift.
  destruct r; simpl; split; try done. apply Hin.
Qed.

Lemma tracks_set_active t : tracks (set_active_timer t) (log_set_timer t).
Proof. split; [apply grows_timer|]. intros env lg []. by split; [|split]. Qed.

Lemma tracks_mark : tracks mark_crash_injected log_mark.
Proof. split; [apply grows_mark|]. intros env lg []. by split; [|split]. Qed.

Lemma tracks_crashed : tracks (throw (A := unit) ScenarioThreadTerminated) (throw LogCrashed).
Proof. apply tracks_throw. intros env lg Hin. split; [done|apply Hin]. Qed.

Lemma tracks_failure {A} w : tracks (throw (A := A) (SimulationFailure w)) (throw (LogFailed w)).
Proof. apply tracks_throw. intros env lg Hin. split; [apply Hin|by left]. Qed.

Lemma tracks_protocol {A} e : tracks (throw (A := A) (ProtocolException e)) (throw (LogProtocol e)).
Proof. apply tracks_throw. intros env lg Hin. split; [done|apply Hin]. Qed.

Lemma tracks_sim_send destination msg : tracks (sim_send destination msg) (log_send destination msg).
Proof.
  unfold sim_send, log_send.
  assert (∀ b : bool, tracks
    (_ ← (if b then
         _ ← mark_crash_injected;
         choice ← replay_choice_or_capture [crash_choice false; crash_choice true];
         crash ← lift_res (decode_crash_choice choice);
         if (crash : bool) then throw ScenarioThreadTerminated else mret ()
       else mret ()); capture_send destination (encode_message msg))
    (_ ← (if b then
         _ ← log_mark;
         choice ← log_choice [crash_choice false; crash_choice true];
         crash ← log_lift (decode_crash_choice choice);
         if (crash : bool) then throw LogCrashed else mret ()
       else mret ());
     record (LSend (MkSendLabel (participant_to_thread destination) (encode_message msg))))) as Hb.
  { intros b. apply tracks_bind; [|intros _; apply tracks_send]. destruct b; [|apply tracks_ret].
    apply tracks_bind; [apply tracks_mark|intros _]. apply tracks_bind; [apply tracks_choice|intros choice].
    apply tracks_bind; [apply tracks_lift|intros []]; [apply tracks_crashed|apply tracks_ret]. }
  apply tracks_get; [intros lg; apply Hb|]. intros env lg Hin.
  rewrite (is_inject _ _ _ _ Hin), (is_injected _ _ _ _ Hin). by apply Hb.
Qed.

Lemma tracks_get_vote :
  tracks sim_get_vote
    (choice ← log_choice [vote_choice Yes; vote_choice No]; log_lift (decode_vote_choice choice)).
Proof. apply tracks_bind; [apply tracks_choice|intros; apply tracks_lift]. Qed.

Lemma tracks_set_timer id ms cb : tracks (set_timer id ms cb) (set_timer id ms cb).
Proof.
  simpl. unfold sim_set_timer. apply tracks_get.
  - intros lg. destruct (lg_timer lg) as [[id' ?]|]; [case_decide|]; auto with replay.
  - intros env lg Hin. rewrite (is_timer _ _ _ _ Hin).
    destruct (lg_timer lg) as [[id' ?]|]; [case_decide|]; by (apply tracks_failure || apply tracks_set_active).
Qed.

Lemma tracks_cancel_timer id : tracks (cancel_timer id) (cancel_timer id).
Proof.
  simpl. unfold sim_cancel_timer. apply tracks_get.
  - intros lg. destruct (lg_timer lg) as [[id' ?]|]; [case_decide|]; auto with replay.
  - intros env lg Hin. rewrite (is_timer _ _ _ _ Hin).
    destruct (lg_timer lg) as [[id' ?]|]; [case_decide|]; by (apply tracks_set_active || apply tracks_ret).
Qed.

End operations.

(** ** The protocol *)

(** An object whose operations on the two environments track each other. *)
Class Replayable (Obj : Type) `{Protocol SimEnv sim_exn Obj} `{Protocol LogEnv log_exn Obj} : Prop := {
  rp_start : ∀ k trace obj, tracks k trace (start obj) (start obj);
  rp_receive : ∀ k trace obj msg, tracks k trace (receive obj msg) (receive obj msg);
  rp_timer : ∀ k trace cb obj, tracks k trace (run_timer cb obj) (run_timer cb obj);
}.

(** [track] proves that the same protocol code on the two environments tracks. *)
Ltac track :=
  repeat first
    [ apply tracks_ret
    | apply tracks_sim_send
    | apply tracks_get_vote
    | apply tracks_set_timer
    | apply tracks_cancel_timer
    | apply tracks_protocol
    | apply tracks_for_each; intros
    | apply tracks_bind; [|intros]
    | progress case_decide
    | case_match ].

#[export] Instance coordinator_replayable : Replayable Coordinator.
Proof.
  split; intros k trace; simpl.
  - intros c. unfold coordinator_start. track.
  - intros c msg. unfold coordinator_receive, receive_vote, receive_ack, seen_at, broadcast_decision.
    track.
  - intros cb c. unfold coordinator_timer, on_vote_timeout, on_ack_timeout, broadcast_decision. track.
Qed.

#[export] Instance participant_replayable : Replayable Participant.
Proof.
  split; intros k trace; simpl.
  - intros p. unfold participant_start. track.
  - intros p msg. unfold participant_receive. track.
  - intros cb p. unfold participant_timer, on_decision_timeout. track.
Qed.

(** ** The loop *)

Section loop.
Context {Obj : Type} `{Replayable Obj} (k : nat) (trace : ThreadTrace SimValue).

Abbreviation insync := (insync k trace).
Abbreviation tracks := (tracks k trace).

Lemma grows_step {A} (fn : logged A) : grows fn → grows (log_step fn).
Proof.
  intros Hg lg. specialize (Hg lg). unfold log_step. destruct (fn lg) as [[a|[]] lg1]; try done.
  by destruct (catchable e).
Qed.

Lemma grows_answer_step timer (obj : Obj) : grows (log_answer timer obj).
Proof.
  unfold log_answer. apply grows_bind; [auto with replay|intros [v|]].
  - destruct (decode_message v) as [msg|e]; [|destruct (what e); auto with replay].
    apply grows_step, (rp_receive k trace).
  - destruct timer as [[id cb]|]; [|auto with replay].
    apply grows_bind; [auto with replay|intros _]. apply grows_step, (rp_timer k trace).
Qed.

Lemma grows_wait (obj : Obj) : grows (log_wait obj).
Proof.
  unfold log_wait. apply grows_bind; [auto with replay|intros lg].
  apply grows_bind; [auto with replay|intros _]. apply grows_answer_step.
Qed.

Lemma grows_loop fuel (obj : Obj) : grows (log_loop fuel obj).
Proof.
  revert obj. induction fuel as [|fuel IH]; intros obj; simpl; [auto with replay|].
  apply grows_bind; [apply grows_wait|intros [[] obj']; auto with replay].
Qed.

(** A protocol step either continues, or ends with an error label, or stops. *)
Lemma step_follows {A} (fn : sim A) (fn' : logged A) env lg :
  tracks fn fn' → insync env lg →
  match invoke_protocol_step fn env with
  | (Ok (inl a), env') => ∃ lg', log_step fn' lg = (Ok a, lg') ∧ insync env' lg'
  | (Ok (inr l), _) => ∃ lg', log_step fn' lg = (Throw (LogErrored l), lg') ∧ length (lg_log lg') ≤ k
  | (Throw e, env') => stopped k e env' (log_step fn' lg)
  end.
Proof.
  intros [_ Hf] Hin. specialize (Hf env lg Hin). unfold invoke_protocol_step, log_step, follows in *.
  destruct (fn env) as [[a|e] env'], (fn' lg) as [r lg'] eqn:Elg; simpl in Hf.
  - destruct Hf as [-> Hin']. by exists lg'.
  - destruct e as [| |w|e]; simpl in *.
    + by destruct Hf as [-> Hle].
    + destruct Hf as (l & Hr & [Hl|[-> Hle]]); [|exists l; auto]. exists l. split; [done|]. left.
      destruct r as [a|[]]; try done. by destruct (catchable e).
    + by destruct Hf as [Hle [-> |[-> ->]]]; (split; [done|]); auto.
    + destruct Hf as [-> Hle]. destruct (catchable e); [by exists lg'|done].
Qed.

(** What [run_and_capture] will return, against the end of the run. *)
Definition finishes (o : result sim_exn (option (EventLabel SimValue)) * SimEnv)
    (o' : result log_exn unit * LogEnv) : Prop :=
  match o.1 with
  | Ok None => o'.1 = Ok () ∧ length (lg_log o'.2) ≤ k
  | Ok (Some l) => lg_log o'.2 !! k = Some l ∨ o'.1 = Throw (LogErrored l) ∧ length (lg_log o'.2) ≤ k
  | Throw e => stopped k e o.2 o'
  end.

(** A step of the object in the loop, and the rest of the loop. *)
Lemma continue_finishes f1 f2 (fn : sim (bool * Obj)) (fn' : logged (bool * Obj)) env lg :
  (∀ obj env lg, insync env lg → k < f1 + length (lg_log lg) → length (lg_answers lg) < f2 →
     finishes (replay_loop f1 obj env) (log_loop f2 obj lg)) →
  tracks fn fn' → insync env lg → k < f1 + length (lg_log lg) → length (lg_answers lg) < f2 →
  finishes
    ((r ← invoke_protocol_step fn;
      match r with
      | inr error => mret (Some error)
      | inl (needs_message, obj) => if (needs_message : bool) then replay_loop f1 obj else mret None
      end) env)
    (('(more, obj') ← log_step fn'; if (more : bool) then log_loop f2 obj' else mret ()) lg).
Proof.
  intros IH Htr Hin Hf1 Hf2. pose proof (step_follows fn fn' env lg Htr Hin) as Hstep.
  destruct (grows_step fn' (proj1 Htr) lg) as [Hpre Hans].
  unfold mbind, act_bind, finishes.
  destruct (invoke_protocol_step fn env) as [[[[more obj]|l]|e] env'].
  - destruct Hstep as (lg' & Elg & Hin'). rewrite Elg in *. simpl in *. apply prefix_length in Hpre.
    destruct more; [apply IH; [done|lia|lia]|]. split; [done|apply Hin'].
  - destruct Hstep as (lg' & Elg & Hle). rewrite Elg in *. by right.
  - destruct (log_step fn' lg) as [[[more obj]|e'] lg']; simpl in *; [|by eapply stopped_throw].
    destruct e; simpl in *; try naive_solver. destruct Hstep as (l & Hr & [Hl|[? _]]); [|done].
    exists l. split; [done|]. left. destruct more; [|done].
    destruct (grows_loop f2 obj lg') as [Hpre' _]. by eapply prefix_lookup_Some.
Qed.

(** The wait is recorded before anything else. *)
Lemma loop_records fuel (obj : Obj) lg :
  lg_log lg ++ [wait_label (lg_timer lg)] `prefix_of` lg_log (log_loop (S fuel) obj lg).2.
Proof.
  set (lg1 := (record (wait_label (lg_timer lg)) lg).2).
  assert (grows ('(more, obj') ← log_answer (lg_timer lg) obj;
                 if (more : bool) then log_loop fuel obj' else mret ())) as Hg.
  { apply grows_bind; [apply grows_answer_step|intros [[] obj']; [apply grows_loop|auto with replay]]. }
  exact (proj1 (Hg lg1)).
Qed.

(** The environment after an operation that is replayed with an observation. *)
Definition consumed (env : SimEnv) : SimEnv :=
  let r := replay_ env in
  MkSimEnv (MkReplayState (id_map_ r) (target_io_ r) (trace_ r) (trace_offset_ r) (S (io_count_ r))
    (S (trace_consume_count_ r)) (result_ r) (active_timer_ r)) (inject_crash_ env) (crash_injected_ env).

Lemma insync_consumed env lg l a answers :
  insync env lg → length (lg_log lg) < k → lg_answers lg = a :: answers →
  insync (consumed env)
    (MkLogEnv answers (lg_log lg ++ [l]) (lg_timer lg) (lg_inject lg) (lg_injected lg)).
Proof.
  intros Hin Hlt Ha. pose proof (answer_lookup k trace env lg Hin) as Hl. rewrite Ha in Hl.
  destruct Hl as [_ Hl]. destruct Hin. split; simpl; try done; rewrite ?length_app; simpl; lia.
Qed.

(** A wait that is replayed. *)
Lemma receive_step_replayed (obj : Obj) env lg a answers :
  insync env lg → length (lg_log lg) < k → lg_answers lg = a :: answers →
  receive_step obj env =
    match a with
    | BottomValue => '(keep, obj') ← fire_active_timer obj; mret (ReplayedTimerFire keep, obj')
    | Observed v => msg ← decode_sim_message v; mret (ReplayedMessage msg, obj)
    end (consumed env).
Proof.
  intros Hin Hlt Hans. pose proof (answer_lookup k trace env lg Hin) as Ha. rewrite Hans in Ha.
  destruct Ha as [Ha _]. destruct Hin. unfold receive_step, trace_value, trace_entry, mbind, act_bind.
  simpl. rewrite is_count0, is_target0, decide_True by lia. simpl. rewrite is_offset0, is_trace0. simpl.
  rewrite Ha. destruct a; simpl; rewrite ?is_trace0, ?Ha; unfold consumed; by rewrite ?is_offset0, ?is_count0, ?is_target0, ?is_trace0.
Qed.

(** Clearing the timer that fires. *)
Lemma insync_clear env lg :
  insync env lg → insync (set_active_timer None env).2 (log_set_timer None lg).2.
Proof. by intros []. Qed.

(** The timer of the object fires, and the rest of the loop. *)
Lemma fire_finishes f1 f2 cb (obj : Obj) env lg :
  (∀ obj env lg, insync env lg → k < f1 + length (lg_log lg) → length (lg_answers lg) < f2 →
     finishes (replay_loop f1 obj env) (log_loop f2 obj lg)) →
  insync env lg → k < f1 + length (lg_log lg) → length (lg_answers lg) < f2 →
  finishes
    (('(keep, obj') ← (r ← invoke_protocol_step (run_timer cb obj);
                       match r with
                       | inr error => _ ← set_result error; throw StepBoundaryReached
                       | inl (keep_waiting, obj') => mret (keep_waiting, obj')
                       end);
      if (keep : bool) then replay_loop f1 obj' else mret None) env)
    (('(more, obj') ← log_step (run_timer cb obj);
      if (more : bool) then log_loop f2 obj' else mret ()) lg).
Proof.
  intros IH Hin Hf1 Hf2. pose proof (rp_timer k trace cb obj) as Htr.
  pose proof (continue_finishes f1 f2 _ _ env lg IH Htr Hin Hf1 Hf2) as Hc.
  unfold mbind, act_bind, finishes in *.
  destruct (invoke_protocol_step (run_timer cb obj) env) as [[[[keep obj']|l]|e] env'];
    simpl in *; [by destruct keep| |done].
  exists l. by split.
Qed.

Lemma loop_finishes f1 f2 (obj : Obj) env lg :
  insync env lg → k < f1 + length (lg_log lg) → length (lg_answers lg) < f2 →
  finishes (replay_loop f1 obj env) (log_loop f2 obj lg).
Proof.
  revert f2 obj env lg. induction f1 as [|f1 IH]; intros f2 obj env lg Hin Hf1 Hf2.
  { pose proof (is_before _ _ _ _ Hin). lia. }
  destruct f2 as [|f2]; [lia|]. pose proof (is_before _ _ _ _ Hin) as Hbefore.
  destruct (decide (length (lg_log lg) = k)) as [Heq|Hne].
  - (* captured *) pose proof (loop_records f2 obj lg) as Hrec.
    assert (lg_log (log_loop (S f2) obj lg).2 !! k = Some (wait_label (lg_timer lg))) as Hk.
    { eapply prefix_lookup_Some; [|exact Hrec]. rewrite lookup_app_r by lia.
      by replace (k - length (lg_log lg)) with 0 by lia. }
    destruct Hin. unfold finishes. simpl. unfold receive_step, mbind, act_bind. simpl.
    rewrite is_count0, is_target0, is_timer0, decide_False by lia. simpl. by left.
  - assert (length (lg_log lg) < k) as Hlt by lia. clear Hne.
    pose proof (answer_lookup k trace env lg Hin) as Ha.
    destruct (lg_answers lg) as [|a answers] eqn:Eans.
    + (* no observation left *) destruct Hin. unfold finishes. simpl.
      unfold log_wait, log_answer, receive_step, trace_entry, mbind, act_bind. simpl.
      rewrite is_count0, is_target0, decide_True by lia. simpl. unfold next_answer. simpl. rewrite Eans.
      simpl. rewrite is_trace0, is_offset0. simpl. rewrite Ha. simpl. rewrite length_app. simpl.
      split; [lia|by right].
    + pose proof (insync_consumed env lg (wait_label (lg_timer lg)) a answers Hin Hlt Eans) as Hin1.
      pose proof (receive_step_replayed obj env lg a answers Hin Hlt Eans) as Hstep.
      set (lg1 := MkLogEnv _ _ _ _ _) in Hin1.
      assert (k < f1 + length (lg_log lg1)) as Hf1' by (unfold lg1; simpl; rewrite length_app; simpl; lia).
      assert (length (lg_answers lg1) < f2) as Hf2' by (unfold lg1; simpl in *; lia).
      assert (lg_log lg1 = lg_log lg ++ [wait_label (lg_timer lg)]) as Hlog by done.
      assert (length (lg_log lg1) ≤ k) as Hle by (rewrite Hlog, length_app; simpl; lia).
      destruct a as [v|].
      * (* a message *)
        unfold finishes. simpl. unfold log_wait, log_answer, record, next_answer, mbind, act_bind. simpl.
        rewrite Hstep, Eans. unfold decode_sim_message, mbind, act_bind.
        destruct (decode_message v) as [msg|e]; simpl.
        2:{ destruct (what e); simpl; [by split; [|left]|by split]. }
        exact (continue_finishes f1 f2 _ _ (consumed env) lg1 (IH f2) (rp_receive k trace obj msg)
          Hin1 Hf1' Hf2').
      * (* the timer fires *)
        unfold finishes. simpl. unfold log_wait, log_answer, record, next_answer, mbind, act_bind. simpl.
        rewrite Hstep, Eans. unfold fire_active_timer, mbind, act_bind. simpl.
        pose proof (is_timer _ _ _ _ Hin) as Ht. rewrite Ht.
        destruct (lg_timer lg) as [[id cb]|] eqn:Etm; simpl; [|by split; [|left]].
        pose proof (fire_finishes f1 f2 cb obj _ _ (IH f2) (insync_clear _ _ Hin1) Hf1' Hf2') as Hfire.
        unfold finishes, mbind, act_bind, log_set_timer in Hfire. simpl in Hfire.
        destruct (invoke_protocol_step (run_timer cb obj) _) as [[[[keep obj']|l]|e] env']; simpl in *;
          [by destruct keep|done|done].
Qed.

(** The whole run of an object. *)
Lemma run_finishes (obj : Obj) crashes :
  finishes (run_to_boundary obj (new_env participant_to_thread k trace 0 crashes))
    (('(more, obj') ← log_step (start obj);
      if (more : bool) then log_loop (S (length trace)) obj' else mret ())
       (MkLogEnv trace [] None crashes false)).
Proof.
  assert (insync (new_env participant_to_thread k trace 0 crashes) (MkLogEnv trace [] None crashes false))
    as Hin by (split; simpl; try done; lia).
  apply (continue_finishes (S k) (S (length trace)) _ _ _ _
    (loop_finishes (S k) (S (length trace))) (rp_start k trace obj) Hin); simpl; lia.
Qed.

End loop.

(** A thread function is the list of labels of one run. *)
Lemma run_and_capture_indexes {Obj} `{Replayable Obj} (obj : Obj) trace crashes step :
  run_and_capture obj (new_env participant_to_thread step trace 0 crashes) =
  nth_label (log_run obj trace crashes) step.
Proof.
  pose proof (run_finishes step trace obj crashes) as Hf. unfold run_and_capture, nth_label, log_run.
  destruct (('(more, obj') ← log_step (start obj);
      if (more : bool) then log_loop (S (length trace)) obj' else mret ())
       (MkLogEnv trace [] None crashes false)) as [r lg].
  destruct (run_to_boundary obj _) as [[[l|]|e] env']; unfold finishes in Hf; simpl in *.
  - destruct Hf as [-> |[-> Hle]]; [done|]. by rewrite lookup_ge_None_2.
  - destruct Hf as [-> Hle]. by rewrite lookup_ge_None_2.
  - destruct e as [| |w|e]; simpl in Hf.
    + destruct Hf as [-> Hle]. by rewrite lookup_ge_None_2.
    + destruct Hf as (l & -> & [-> |[-> Hle]]); [done|]. by rewrite lookup_ge_None_2.
    + destruct Hf as [Hle [-> |[-> ->]]]; by rewrite lookup_ge_None_2.
    + destruct Hf as [-> Hle]. by rewrite lookup_ge_None_2.
Qed.
