(* ===== verification/SimulationFacts.v ===== *)
(** * SimulationFacts: the simulated protocol is a program the engine accepts

    Whatever a thread of the simulation is shown, its protocol object accesses no vector
    out of range, reads no empty optional and runs no callback of another object, and the
    replay loop ends: a thread function returns or throws ([program_catchable]), and the
    receives it returns have total matchers ([program_total]).  The thread ids of
    [make_program] are the compact range from 1 ([program_thread_ids]). *)

From stdpp Require Import base tactics numbers sets list strings.
From S2P Require Import Prelude Errors Event Program Dpor NextEvent Faults TwoPhase Bridge.
From S2P Require Import Simulation Replay.
From S2P Require Import ReplayFacts.

(** ** Safe runs *)

Section safe.
(** The callbacks the running object gives to its timers. *)
Context (own : TimerCallback → Prop).

(** At most [k] observations are left, the log has total labels, the timer is the object's. *)
Record lg_ok (k : nat) (lg : LogEnv) : Prop := {
  lo_answers : length (lg_answers lg) ≤ k;
  lo_log : Forall total_label (lg_log lg);
  lo_timer : ∀ id cb, lg_timer lg = Some (id, cb) → own cb;
}.

(** Ends of a run that are defined behaviour. *)
Definition benign (e : log_exn) : Prop :=
  match e with
  | LogProtocol e => catchable e = true
  | LogErrored l => total_label l
  | _ => True
  end.

Definition safe_run {A} (k : nat) (P : A → Prop) (o : result log_exn A * LogEnv) : Prop :=
  lg_ok k o.2 ∧ match o.1 with Ok a => P a | Throw e => benign e end.

(** From a good state, [m] ends in a good state, with a result in [P]. *)
Definition safe {A} (P : A → Prop) (m : logged A) : Prop :=
  ∀ k lg, lg_ok k lg → safe_run k P (m lg).

(** *** Combinators *)

Lemma safe_ret {A} (P : A → Prop) a : P a → safe P (mret a).
Proof. by intros Ha k lg Hlg. Qed.

Lemma safe_throw {A} (P : A → Prop) e : benign e → safe P (throw e).
Proof. by intros He k lg Hlg. Qed.

Lemma safe_run_bind {A B} k (P : A → Prop) (Q : B → Prop) (m : logged A) (f : A → logged B) lg :
  safe_run k P (m lg) → (∀ a, P a → safe Q (f a)) → safe_run k Q ((m ≫= f) lg).
Proof.
  intros [Hlg Hr] Hf. unfold mbind, act_bind. destruct (m lg) as [[a|e] lg']; [|done]. by apply Hf.
Qed.

Lemma safe_bind {A B} (P : A → Prop) (Q : B → Prop) (m : logged A) (f : A → logged B) :
  safe P m → (∀ a, P a → safe Q (f a)) → safe Q (m ≫= f).
Proof. intros Hm Hf k lg Hlg. eapply safe_run_bind; [by apply Hm|done]. Qed.

Lemma safe_for_each {A} (f : A → logged unit) l :
  (∀ a, safe (λ _, True) (f a)) → safe (λ _, True) (for_each f l).
Proof.
  intros Hf. induction l as [|a l IH]; simpl; [by apply safe_ret|].
  eapply safe_bind; [apply Hf|]. by intros.
Qed.

(** *** The environment *)

Lemma safe_record l : total_label l → safe (λ _, True) (record l).
Proof.
  intros Hl k lg [Ha Hlog Ht]. split; [|done]. split; simpl; [done| |done].
  apply Forall_app. split; [done|]. by constructor.
Qed.

Lemma safe_answer : safe (λ _, True) next_answer.
Proof.
  intros k lg [Ha Hlog Ht]. unfold next_answer. destruct (lg_answers lg) as [|a answers] eqn:E.
  - split; [|done]. split; simpl; [rewrite E; simpl; lia|done..].
  - split; [|done]. split; simpl in *; [lia|done..].
Qed.

Lemma safe_choice choices : safe (λ _, True) (log_choice choices).
Proof.
  unfold log_choice. eapply safe_bind; [by apply safe_record|]. intros _ _.
  eapply safe_bind; [apply safe_answer|]. intros [v|] _; [by apply safe_ret|by apply safe_throw].
Qed.

Lemma safe_lift {A} (r : res A) :
  (∀ e, r = Throw e → catchable e = true) → safe (λ _, True) (log_lift r).
Proof. intros Hr k lg Hlg. split; [by destruct r|]. destruct r; simpl; auto. Qed.

Lemma decode_crash_catchable v e : decode_crash_choice v = Throw e → catchable e = true.
Proof. unfold decode_crash_choice. intros Hd. by repeat (case_match; simplify_eq). Qed.

Lemma decode_vote_catchable v e : decode_vote_choice v = Throw e → catchable e = true.
Proof. unfold decode_vote_choice. intros Hd. by repeat (case_match; simplify_eq). Qed.

Lemma decode_message_what v e : decode_message v = Throw e → is_Some (what e).
Proof. unfold decode_message. intros Hd. repeat (case_match; simplify_eq); by eexists. Qed.

(** An operation that looks at the environment first. *)
Lemma safe_get {B} (Q : B → Prop) (f : LogEnv → logged B) :
  (∀ lg, safe Q (f lg)) → safe Q (log_get ≫= f).
Proof. intros Hf k lg Hlg. by apply Hf. Qed.

Lemma safe_send dest msg : safe (λ _, True) (send (E := LogEnv) (X := log_exn) dest msg).
Proof.
  simpl. apply safe_get. intros lg. apply (safe_bind (λ _, True)); [|intros _ _; by apply safe_record].
  destruct (_ && _); [|by apply safe_ret].
  eapply safe_bind with (P := λ _, True); [by intros k lg' []|]. intros _ _.
  eapply safe_bind; [apply safe_choice|]. intros v _.
  eapply safe_bind; [apply safe_lift, decode_crash_catchable|]. intros [] _;
    [by apply safe_throw|by apply safe_ret].
Qed.

Lemma safe_get_vote : safe (λ _, True) (get_vote (E := LogEnv) (X := log_exn)).
Proof.
  simpl. eapply safe_bind; [apply safe_choice|]. intros v _. apply safe_lift, decode_vote_catchable.
Qed.

Lemma safe_log_timer t : (∀ id cb, t = Some (id, cb) → own cb) → safe (λ _, True) (log_set_timer t).
Proof. intros Ht k lg []. by split. Qed.

Lemma safe_set_timer id ms cb :
  own cb → safe (λ _, True) (set_timer (E := LogEnv) (X := log_exn) id ms cb).
Proof.
  intros Hcb. simpl. apply safe_get. intros lg.
  assert (safe (λ _, True) (log_set_timer (Some (id, cb)))) as Hs
    by (apply safe_log_timer; by intros ?? [= <- <-]).
  destruct (lg_timer lg) as [[id' ?]|]; [|done]. destruct (decide _); [by apply safe_throw|done].
Qed.

Lemma safe_cancel_timer id : safe (λ _, True) (cancel_timer (E := LogEnv) (X := log_exn) id).
Proof.
  simpl. apply safe_get. intros lg. destruct (lg_timer lg) as [[id' ?]|]; [|by apply safe_ret].
  destruct (decide _); [by apply safe_log_timer|by apply safe_ret].
Qed.

Lemma safe_step {A} (P : A → Prop) (m : logged A) : safe P m → safe P (log_step m).
Proof.
  intros Hm k lg Hlg. specialize (Hm k lg Hlg). unfold log_step.
  destruct (m lg) as [[a|e] lg']; [done|]. destruct e as [| | | |e]; try done.
  destruct Hm as [Hlg' He]. simpl in He. by rewrite He.
Qed.

(** *** Objects *)

Context {Obj : Type} `{Protocol LogEnv log_exn Obj} (inv : Obj → Prop).

Definition safe_call (m : logged (bool * Obj)) : Prop := safe (λ r, inv r.2) m.

Hypothesis Hreceive : ∀ obj msg, inv obj → safe_call (receive obj msg).
Hypothesis Htimer : ∀ obj cb, inv obj → own cb → safe_call (run_timer cb obj).

(** A wait that returns has taken an observation. *)
Lemma safe_wait obj k lg :
  inv obj → lg_ok k lg →
  lg_ok k (log_wait obj lg).2 ∧
  match (log_wait obj lg).1 with
  | Ok (_, obj') => ∃ k', k = S k' ∧ lg_ok k' (log_wait obj lg).2 ∧ inv obj'
  | Throw e => benign e
  end.
Proof.
  intros Hobj Hlg. unfold log_wait, log_answer, next_answer, record, log_get, mbind, act_bind.
  cbn [fst snd lg_answers].
  destruct (safe_record (wait_label (lg_timer lg)) ltac:(unfold wait_label; destruct (lg_timer lg);
    intros v; by eexists) k lg Hlg) as [Hlg1 _].
  unfold record in Hlg1. cbn [snd] in Hlg1.
  destruct (lg_answers lg) as [|a answers] eqn:Ea; [by split|].
  destruct k as [|k]; [by apply lo_answers in Hlg1; simpl in Hlg1; lia|].
  set (lg2 := MkLogEnv answers _ _ _ _).
  assert (lg_ok k lg2) as Hlg2.
  { destruct Hlg1 as [Ha Hl Ht]. split; simpl in *; [lia|done..]. }
  assert (∀ lg' : LogEnv, lg_ok k lg' → lg_ok (S k) lg') as Hmore
    by (intros lg' []; split; [lia|done..]).
  assert (∀ m : logged (bool * Obj), safe_call m → ∀ lg', lg_ok k lg' →
    lg_ok (S k) (m lg').2 ∧ match (m lg').1 with
      | Ok (_, obj') => ∃ k', S k = S k' ∧ lg_ok k' (m lg').2 ∧ inv obj'
      | Throw e => benign e
      end) as Hcall.
  { intros m Hm lg' Hlg'. destruct (Hm k lg' Hlg') as [H1 H2]. split; [by apply Hmore|].
    destruct (m lg') as [[[b obj']|e] lg'']; [|done]. by exists k. }
  destruct a as [v|].
  - destruct (decode_message v) as [msg|e] eqn:Hd.
    + apply Hcall; [|done]. by apply safe_step, Hreceive.
    + apply decode_message_what in Hd as [w ->]. split; [by apply Hmore|done].
  - destruct (lg_timer lg) as [[id cb]|] eqn:Et; [|split; [by apply Hmore|done]].
    unfold log_set_timer. apply (Hcall (log_step (run_timer cb obj))).
    + apply safe_step, Htimer; [done|]. by eapply lo_timer.
    + destruct Hlg2. by split.
Qed.

Lemma log_loop_S fuel obj lg :
  log_loop (S fuel) obj lg =
  match log_wait obj lg with
  | (Ok (more, obj'), lg') => if (more : bool) then log_loop fuel obj' lg' else (Ok (), lg')
  | (Throw e, lg') => (Throw e, lg')
  end.
Proof.
  cbn [log_loop]. unfold mbind at 1, act_bind. by destruct (log_wait obj lg) as [[[[] obj']|e] lg'].
Qed.

(** The loop does not run out of iterations. *)
Lemma safe_loop k obj lg :
  inv obj → lg_ok k lg → safe_run k (λ _, True) (log_loop (S k) obj lg).
Proof.
  revert obj lg. induction k as [|k IH]; intros obj lg Hobj Hlg; rewrite log_loop_S;
    pose proof (safe_wait obj _ lg Hobj Hlg) as [Hw1 Hw2];
    destruct (log_wait obj lg) as [[[more obj']|e] lg']; cbn [fst snd] in *; try done.
  - by destruct Hw2 as (k' & ? & _).
  - destruct Hw2 as (k' & [= <-] & Hlg' & Hinv). destruct more; [|done].
    destruct (IH obj' lg' Hinv Hlg') as [[] H2]. split; [|done]. split; [lia|done..].
Qed.

Hypothesis Hstart : ∀ obj, safe_call (start obj).

Lemma safe_log_run obj trace crashes :
  Forall total_label (log_run obj trace crashes).2 ∧
  match (log_run obj trace crashes).1 with Ok _ => True | Throw e => benign e end.
Proof.
  unfold log_run, mbind, act_bind.
  destruct (safe_step _ _ (Hstart obj) (length trace) (MkLogEnv trace [] None crashes false))
    as [Hlg Hr]; [by split|].
  destruct (log_step (start obj) _) as [[[more obj']|e] lg]; cbn [fst snd] in *;
    [|by split; [apply Hlg|]].
  destruct more; [|split; [apply Hlg|done]].
  destruct (safe_loop (length trace) obj' lg Hr Hlg) as [Hlg' Hr'].
  destruct (log_loop (S (length trace)) obj' lg) as [r lg']. by split; [apply Hlg'|].
Qed.

(** A thread function that indexes such a run returns total labels or throws. *)
Lemma safe_nth_label obj trace crashes step :
  match nth_label (log_run obj trace crashes) step with
  | Ok (Some l) => total_label l
  | Ok None => True
  | Throw e => catchable e = true
  end.
Proof.
  destruct (safe_log_run obj trace crashes) as [Hlog Hr]. unfold nth_label.
  destruct ((log_run obj trace crashes).2 !! step) as [l|] eqn:Hl; [by eapply Forall_lookup_1|].
  by destruct ((log_run obj trace crashes).1) as [[]|[]].
Qed.

End safe.

(** ** The two kinds of threads *)

(** [safely] goes through protocol code. *)
Ltac safely :=
  repeat first
    [ apply safe_ret
    | apply safe_send
    | apply safe_get_vote
    | apply safe_cancel_timer
    | apply safe_set_timer
    | apply safe_for_each; intros
    | eapply safe_bind; [|intros] ].

Definition coordinator_owns (cb : TimerCallback) : Prop := cb ≠ OnDecisionTimeout.

Definition participant_owns (cb : TimerCallback) : Prop := cb = OnDecisionTimeout.

(** A started coordinator has a flag for every participant. *)
Record coordinator_sized (c : Coordinator) : Prop := {
  cs_votes : N.to_nat (num_participants_ c) < length (vote_seen_ c);
  cs_acks : N.to_nat (num_participants_ c) < length (ack_seen_ c);
}.

Lemma sized_note_vote c from y : coordinator_sized c → coordinator_sized (note_vote c from y).
Proof. intros []. split; simpl; by rewrite ?length_insert. Qed.

Lemma sized_note_ack c from : coordinator_sized c → coordinator_sized (note_ack c from).
Proof. intros []. split; simpl; by rewrite ?length_insert. Qed.

Abbreviation coordinator_safe := (safe_call coordinator_owns coordinator_sized).

Lemma safe_seen_at (seen : list bool) (i : ParticipantId) :
  N.to_nat i < length seen → safe coordinator_owns (λ _, True) (seen_at seen i).
Proof.
  intros Hi. unfold seen_at. destruct (lookup_lt_is_Some_2 _ _ Hi) as [b ->]. by apply safe_ret.
Qed.

Lemma safe_broadcast c d :
  coordinator_sized c → decision_ c = Some d →
  safe coordinator_owns coordinator_sized (broadcast_decision (E := LogEnv) (X := log_exn) c).
Proof.
  intros [] Hd. unfold broadcast_decision. rewrite Hd. safely; done.
Qed.

Lemma safe_decide c y d :
  coordinator_sized c →
  coordinator_safe (c' ← broadcast_decision (set_decision c y d); mret (true, c')).
Proof.
  intros []. eapply safe_bind; [by eapply safe_broadcast|]. intros c' Hc'. by apply safe_ret.
Qed.

Lemma valid_participant_le c from : is_valid_participant c from = true → (from ≤ num_participants_ c)%N.
Proof. unfold is_valid_participant. intros [_ ?%N.leb_le]%andb_true_iff. done. Qed.

Lemma safe_coordinator_receive c msg :
  coordinator_sized c → coordinator_safe (coordinator_receive c msg).
Proof.
  intros Hc. assert (∀ b, coordinator_safe (mret (b, c))) as Hret by (intros b; by apply safe_ret).
  unfold coordinator_receive. destruct (phase_ c); [| |done].
  - destruct msg as [|from vote|d|from]; try done.
    destruct (is_valid_participant c from) eqn:Hv; [|done]. apply valid_participant_le in Hv.
    eapply safe_bind; [apply safe_seen_at; destruct Hc; lia|]. intros [] _; [done|].
    unfold receive_vote. set (c1 := note_vote c from _).
    assert (coordinator_sized c1) as Hc1 by by apply sized_note_vote.
    destruct (decide (vote = No ∧ _)); [by apply safe_throw|].
    destruct (decide (_ < _)%N); [by apply safe_ret|].
    eapply safe_bind; [apply safe_cancel_timer|]. intros _ _. by apply safe_decide.
  - destruct msg as [|from vote|d|from]; try done.
    destruct (is_valid_participant c from) eqn:Hv; [|done]. apply valid_participant_le in Hv.
    eapply safe_bind; [apply safe_seen_at; destruct Hc; lia|]. intros [] _; [done|].
    unfold receive_ack. apply (sized_note_ack c from) in Hc as Hc1.
    destruct (decide _); [by apply safe_ret|].
    eapply safe_bind; [apply safe_cancel_timer|]. intros _ _. apply safe_ret. by destruct Hc1.
Qed.

Lemma safe_coordinator_timer c cb :
  coordinator_sized c → coordinator_owns cb → coordinator_safe (coordinator_timer cb c).
Proof.
  intros Hc Hcb. destruct cb; simpl; [| |done].
  - unfold on_vote_timeout. destruct (decide _); [by apply safe_ret|by apply safe_decide].
  - unfold on_ack_timeout. destruct (decide _); apply safe_ret; [done|by destruct Hc].
Qed.

Lemma safe_coordinator_start c : coordinator_safe (coordinator_start c).
Proof.
  unfold coordinator_start. safely; try done. split; simpl; rewrite length_replicate; lia.
Qed.

Abbreviation participant_safe := (safe_call participant_owns (λ _ : Participant, True)).

Lemma safe_participant_receive p msg : participant_safe (participant_receive p msg).
Proof.
  unfold participant_receive. destruct (state_ p), msg; safely; done.
Qed.

Lemma safe_participant_timer p cb : participant_owns cb → participant_safe (participant_timer cb p).
Proof.
  intros ->. simpl. unfold on_decision_timeout. destruct (decide _); by apply safe_ret.
Qed.

(** ** The program *)

(** A thread function that returns total labels or throws. *)
Definition function_ok (f : ThreadFunctionT SimValue) : Prop := ∀ trace step,
  match f trace step with
  | Ok (Some l) => total_label l
  | Ok None => True
  | Throw e => catchable e = true
  end.

Lemma coordinator_function_ok options : function_ok (make_coordinator_function options).
Proof.
  intros trace step. unfold make_coordinator_function. rewrite run_and_capture_indexes.
  apply (safe_nth_label coordinator_owns coordinator_sized).
  - intros. by apply safe_coordinator_receive.
  - intros. by apply safe_coordinator_timer.
  - apply safe_coordinator_start.
Qed.

Lemma participant_function_ok pid : function_ok (make_participant_function pid).
Proof.
  intros trace step. unfold make_participant_function. rewrite run_and_capture_indexes.
  apply (safe_nth_label participant_owns (λ _, True)).
  - intros. apply safe_participant_receive.
  - intros. by apply safe_participant_timer.
  - intros p. by apply safe_ret.
Qed.

Section program.
Context (options : Options).
Implicit Types (k : nat).

(** [make_program] after [k] participants. *)
Definition program_map k : ThreadMap (ThreadFunctionT SimValue) :=
  foldl (λ m pid, tm_assign m (participant_to_thread pid) (make_participant_function pid))
    (tm_assign tm_empty_map (participant_to_thread kCoordinator) (make_coordinator_function options))
    (N.of_nat <$> seq 1 k).

Lemma program_map_S k :
  program_map (S k) = tm_assign (program_map k) (participant_to_thread (N.of_nat (S k)))
                        (make_participant_function (N.of_nat (S k))).
Proof. unfold program_map. rewrite seq_S, fmap_app, foldl_app. done. Qed.

Lemma thread_of_nat k : (N.of_nat k < kMaxThreadId)%N → participant_to_thread (N.of_nat k) = N.of_nat (S k).
Proof.
  intros Hk. unfold kMaxThreadId in Hk. change (N.shiftl 1 20 - 1)%N with 1048575%N in Hk.
  unfold participant_to_thread. rewrite (N.mod_small _ (2 ^ 64)), N.mod_small.
  - lia.
  - change (2 ^ 32)%N with 4294967296%N. lia.
  - change (2 ^ 64)%N with 18446744073709551616%N. lia.
Qed.

(** The coordinator is thread 1, participant [i] is thread [i + 1]. *)
Lemma program_map_entries k : (N.of_nat k < kMaxThreadId)%N →
  entries_ (program_map k) =
    None :: (Some <$> (make_coordinator_function options ::
      ((λ i, make_participant_function (N.of_nat i)) <$> seq 1 k))) ∧
  size_ (program_map k) = S k.
Proof.
  induction k as [|k IH]; intros Hk; [done|].
  destruct IH as [He Hs]; [lia|]. rewrite program_map_S, thread_of_nat by done.
  unfold tm_assign. cbn [entries_ size_]. rewrite He, Hs, Nat2N.id.
  set (old := None :: _). assert (length old = S (S k)) as Hlen.
  { unfold old. simpl. by rewrite !length_fmap, length_seq. }
  assert (grow (S (S k) + 1) None old = old ++ [None]) as ->.
  { unfold grow. rewrite decide_False by lia. rewrite resize_ge by lia.
    by replace (S (S k) + 1 - length old) with 1 by lia. }
  rewrite <-Hlen. rewrite list_lookup_middle by done. rewrite insert_app_r_alt by lia.
  rewrite Nat.sub_diag. split; [|simpl; lia].
  unfold old. rewrite seq_S, !fmap_app. simpl. by rewrite fmap_app.
Qed.

Lemma assigned_all {T} (l : list T) i : assigned_from (Some <$> l) i = N.of_nat <$> seq i (length l).
Proof. revert i. induction l as [|a l IH]; intros i; simpl; [done|]. by rewrite IH. Qed.

Lemma span_of_range k i lo :
  foldl span_step (Some lo, N.of_nat i) (N.of_nat <$> seq (S i) k) = (Some lo, N.of_nat (i + k)) ∨
  (N.of_nat (S i) < lo)%N.
Proof.
  revert i. induction k as [|k IH]; intros i; [left; by rewrite Nat.add_0_r|].
  cbn [seq]. rewrite fmap_cons. cbn [foldl span_step].
  destruct (N.of_nat (S i) <? lo)%N eqn:Hlo; [by right; apply N.ltb_lt|left].
  assert ((N.of_nat i <? N.of_nat (S i))%N = true) as -> by (apply N.ltb_lt; lia).
  apply N.ltb_ge in Hlo. destruct (IH (S i)) as [->|?]; [f_equal; lia|lia].
Qed.

Context (Hfit : (num_participants options < kMaxThreadId)%N).
Abbreviation n := (N.to_nat (num_participants options)).

Lemma program_entries :
  entries_ (threads (make_program options)) =
    None :: (Some <$> (make_coordinator_function options ::
      ((λ i, make_participant_function (N.of_nat i)) <$> seq 1 n))) ∧
  size_ (threads (make_program options)) = S n.
Proof. apply (program_map_entries n). by rewrite N2Nat.id. Qed.

Lemma program_assigned :
  assigned_ids (threads (make_program options)) = N.of_nat <$> seq 1 (S n).
Proof.
  unfold assigned_ids. rewrite (proj1 program_entries). cbn [assigned_from].
  rewrite assigned_all. f_equal. by rewrite length_cons, length_fmap, length_seq.
Qed.

Lemma program_thread_ids : sorted_thread_ids (make_program options) = Ok (N.of_nat <$> seq 1 (S n)).
Proof.
  unfold sorted_thread_ids, validate_compact_thread_ids, tm_span. rewrite program_assigned.
  rewrite (proj2 program_entries). rewrite decide_False by done.
  cbn [seq]. rewrite fmap_cons. cbn [foldl span_step]. change (N.of_nat 1) with 1%N. change (0 <? 1)%N with true. cbn iota.
  pose proof (span_of_range n 1 1) as Hspan. change (N.of_nat 1) with 1%N in Hspan.
  destruct Hspan as [->|?]; [|lia]. rewrite decide_True; [done|]. right.
  split; [done|]. lia.
Qed.

Lemma program_ids_fit tid : tid ∈ N.of_nat <$> seq 1 (S n) → (tid ≤ kMaxThreadId)%N.
Proof.
  intros Htid. apply list_elem_of_fmap in Htid as (i & Heq & Hi).
  apply elem_of_seq in Hi as [_ Hi]. rewrite Heq. generalize dependent kMaxThreadId. intros; lia.
Qed.

(** What a thread of the program can be. *)
Lemma program_functions tid f : tm_at (threads (make_program options)) tid = Ok f → function_ok f.
Proof.
  unfold tm_at. rewrite (proj1 program_entries). destruct (N.to_nat tid) as [|i]; [done|].
  rewrite lookup_cons, list_lookup_fmap, lookup_cons. destruct i as [|i].
  { intros [= <-]. apply coordinator_function_ok. }
  rewrite list_lookup_fmap. destruct (seq 1 n !! i) as [j|]; [|done].
  intros [= <-]. apply participant_function_ok.
Qed.

Lemma program_total : total_program (make_program options).
Proof.
  intros tid f trace step l Hf Hl. pose proof (program_functions tid f Hf trace step) as Hok.
  by rewrite Hl in Hok.
Qed.

Lemma program_catchable : catchable_program (make_program options).
Proof.
  intros tid f trace step e Hf He. pose proof (program_functions tid f Hf trace step) as Hok.
  by rewrite He in Hok.
Qed.

End program.
