(* ===== verification/SteadyRuns.v ===== *)
(** * SteadyRuns: a run is not changed by what is observed after it

    The thread functions of the simulation are called with longer and longer traces.  A run
    of [Replay] that is given more observations begins with the operations of the shorter
    run ([log_run_prefix]), so that what the calls for the events of one thread return are
    the operations of one run. *)

From stdpp Require Import base tactics numbers list strings.
From S2P Require Import Prelude Errors Event Program TwoPhase Bridge Simulation Replay.
From S2P Require Import ReplayFacts SimulationFacts.

(** The environment with more observations to come. *)
Definition with_more (lg : LogEnv) (more : ThreadTrace SimValue) : LogEnv :=
  MkLogEnv (lg_answers lg ++ more) (lg_log lg) (lg_timer lg) (lg_inject lg) (lg_injected lg).

(** [o'] is what [o] becomes with more observations: the same, unless [o] ran out of them. *)
Definition steadily {A} (more : ThreadTrace SimValue) (o o' : result log_exn A * LogEnv) : Prop :=
  match o.1 with
  | Throw LogExhausted => lg_log o.2 `prefix_of` lg_log o'.2
  | _ => o' = (o.1, with_more o.2 more)
  end.

Definition steady {A} (m : logged A) : Prop :=
  grows m ∧ ∀ lg more, steadily more (m lg) (m (with_more lg more)).

(** ** Combinators *)

Lemma steady_ret {A} (a : A) : steady (mret a).
Proof. by split. Qed.

Lemma steady_throw {A} e : steady (throw (A := A) e).
Proof. split; [apply grows_throw|]. intros lg more. unfold steadily. destruct e; simpl; done || reflexivity. Qed.

Lemma steadily_bind {A B} more (m : logged A) (f f' : A → logged B) lg lg' :
  steadily more (m lg) (m lg') → (∀ a, grows (f' a)) →
  (∀ a lg1, m lg = (Ok a, lg1) → steadily more (f a lg1) (f' a (with_more lg1 more))) →
  steadily more ((m ≫= f) lg) ((m ≫= f') lg').
Proof.
  intros Hm Hg Hf. unfold mbind, act_bind, steadily in *. destruct (m lg) as [[a|e] lg1]; cbn [fst snd] in Hm.
  - rewrite Hm. by apply Hf.
  - assert (lg_log (m lg').2 `prefix_of` lg_log (match m lg' with (Ok a, s) => f' a s | (Throw e, s) => (Throw e, s) end).2)
      as Hpre by (destruct (m lg') as [[a|e'] lg2]; [apply Hg|done]).
    destruct e; cbn [fst snd] in *; by rewrite Hm.
Qed.

Lemma steady_bind {A B} (m : logged A) (f : A → logged B) :
  steady m → (∀ a, steady (f a)) → steady (m ≫= f).
Proof.
  intros [Hg Hm] Hf. split; [apply grows_bind; [done|apply Hf]|]. intros lg more.
  apply steadily_bind; [done|apply Hf|]. intros a lg1 _. apply Hf.
Qed.

(** An operation that looks at the environment, but not at the observations. *)
Lemma steady_get {B} (f : LogEnv → logged B) :
  (∀ lg, steady (f lg)) → (∀ lg more, f (with_more lg more) = f lg) → steady (log_get ≫= f).
Proof.
  intros Hf Hmore. split; [intros lg; apply (proj1 (Hf lg))|]. intros lg more.
  unfold mbind, act_bind, log_get. rewrite Hmore. apply Hf.
Qed.

Lemma steady_for_each {A} (f : A → logged unit) l : (∀ a, steady (f a)) → steady (for_each f l).
Proof. intros Hf. induction l as [|a l IH]; simpl; [apply steady_ret|]. by apply steady_bind. Qed.

Lemma steady_record l : steady (record l).
Proof. split; [apply grows_record|done]. Qed.

Lemma steady_log_timer t : steady (log_set_timer t).
Proof. by split. Qed.

Lemma steady_mark : steady log_mark.
Proof. by split. Qed.

Lemma steady_lift {A} (r : res A) : steady (log_lift r).
Proof. split; [apply grows_lift|]. intros lg more. by destruct r. Qed.

Lemma steady_answer : steady next_answer.
Proof.
  split; [apply grows_answer|]. intros lg more. unfold steadily, next_answer.
  destruct lg as [[|a answers] log timer inj injd]; simpl; [|done]. destruct more; reflexivity.
Qed.

Lemma steady_step {A} (m : logged A) : steady m → steady (log_step m).
Proof.
  intros [Hg Hm]. split; [by apply grows_step|]. intros lg more. specialize (Hm lg more).
  unfold steadily, log_step in *. destruct (m lg) as [[a|e] lg1]; cbn [fst snd] in *; [by rewrite Hm|].
  destruct e as [| | | |e]; cbn [fst snd] in *; try (by rewrite Hm).
  - destruct (m (with_more lg more)) as [[a|[]] lg2]; try done. by destruct (catchable e).
  - rewrite Hm. by destruct (catchable e).
Qed.

(** ** The environment *)

Lemma steady_choice choices : steady (log_choice choices).
Proof.
  unfold log_choice. apply steady_bind; [apply steady_record|intros _].
  apply steady_bind; [apply steady_answer|intros []]; [apply steady_ret|apply steady_throw].
Qed.

Lemma steady_send dest msg : steady (send (E := LogEnv) (X := log_exn) dest msg).
Proof.
  simpl. apply steady_get; [|done]. intros lg. apply steady_bind; [|intros _; apply steady_record].
  destruct (_ && _); [|apply steady_ret]. apply steady_bind; [apply steady_mark|intros _].
  apply steady_bind; [apply steady_choice|intros v]. apply steady_bind; [apply steady_lift|intros []];
    [apply steady_throw|apply steady_ret].
Qed.

Lemma steady_get_vote : steady (get_vote (E := LogEnv) (X := log_exn)).
Proof. apply steady_bind; [apply steady_choice|intros; apply steady_lift]. Qed.

Lemma steady_set_timer id ms cb : steady (set_timer (E := LogEnv) (X := log_exn) id ms cb).
Proof.
  simpl. apply steady_get; [|done]. intros lg.
  destruct (lg_timer lg) as [[id' ?]|]; [case_decide|]; (apply steady_throw || apply steady_log_timer).
Qed.

Lemma steady_cancel_timer id : steady (cancel_timer (E := LogEnv) (X := log_exn) id).
Proof.
  simpl. apply steady_get; [|done]. intros lg.
  destruct (lg_timer lg) as [[id' ?]|]; [case_decide|]; (apply steady_log_timer || apply steady_ret).
Qed.

(** ** Objects *)

(** An object whose calls are steady. *)
Class Steady (Obj : Type) `{Protocol LogEnv log_exn Obj} : Prop := {
  st_start : ∀ obj : Obj, steady (start obj);
  st_receive : ∀ (obj : Obj) msg, steady (receive obj msg);
  st_timer : ∀ cb (obj : Obj), steady (run_timer cb obj);
}.

(** [keep_steady] goes through protocol code. *)
Ltac keep_steady :=
  repeat first
    [ apply steady_ret
    | apply steady_throw
    | apply steady_send
    | apply steady_get_vote
    | apply steady_set_timer
    | apply steady_cancel_timer
    | apply steady_for_each; intros
    | apply steady_bind; [|intros]
    | progress case_decide
    | case_match ].

#[export] Instance coordinator_steady : Steady Coordinator.
Proof.
  split; simpl.
  - intros c. unfold coordinator_start. keep_steady.
  - intros c msg. unfold coordinator_receive, receive_vote, receive_ack, seen_at, broadcast_decision.
    keep_steady.
  - intros cb c. unfold coordinator_timer, on_vote_timeout, on_ack_timeout, broadcast_decision. keep_steady.
Qed.

#[export] Instance participant_steady : Steady Participant.
Proof.
  split; simpl.
  - intros p. unfold participant_start. keep_steady.
  - intros p msg. unfold participant_receive. keep_steady.
  - intros cb p. unfold participant_timer, on_decision_timeout. keep_steady.
Qed.

Section loop.
Context {Obj : Type} `{Steady Obj}.
Implicit Types (obj : Obj) (lg : LogEnv).

Lemma steady_answer_step timer obj : steady (log_answer timer obj).
Proof.
  unfold log_answer. apply steady_bind; [apply steady_answer|intros [v|]].
  - destruct (decode_message v) as [msg|e]; [apply steady_step, st_receive|].
    destruct (what e); apply steady_throw.
  - destruct timer as [[id cb]|]; [|apply steady_throw].
    apply steady_bind; [apply steady_log_timer|intros _]. apply steady_step, st_timer.
Qed.

Lemma steady_wait obj : steady (log_wait obj).
Proof.
  apply steady_get; [|done]. intros lg. apply steady_bind; [apply steady_record|intros _].
  apply steady_answer_step.
Qed.

(** A wait that returns has taken an observation. *)
Lemma log_wait_takes obj lg r lg' :
  log_wait obj lg = (Ok r, lg') → length (lg_answers lg') < length (lg_answers lg).
Proof.
  unfold log_wait, log_get, record, mbind, act_bind. cbn [fst snd]. unfold log_answer.
  set (k := λ a : ObservedValue SimValue, match a with BottomValue => _ | Observed v => _ end).
  assert (∀ a, grows (k a)) as Hk.
  { intros [v|]; unfold k.
    - destruct (decode_message v) as [msg|e]; [apply grows_step, st_receive|]. destruct (what e); apply grows_throw.
    - destruct (lg_timer lg) as [[id cb]|]; [|apply grows_throw].
      apply grows_bind; [apply grows_timer|intros _]. apply grows_step, st_timer. }
  unfold mbind, act_bind, next_answer. destruct (lg_answers lg) as [|a answers] eqn:Ea; cbn [lg_answers]; [done|].
  intros Hrun. pose proof (proj2 (Hk a (MkLogEnv answers (lg_log lg ++ [wait_label (lg_timer lg)]) (lg_timer lg)
    (lg_inject lg) (lg_injected lg)))) as Hle. cbn [lg_log lg_timer lg_inject lg_injected] in Hrun.
  rewrite Hrun in Hle. simpl in *. lia.
Qed.

Lemma grows_log_loop fuel obj : grows (log_loop fuel obj).
Proof.
  revert obj. induction fuel as [|fuel IH]; intros obj; simpl; [apply grows_throw|].
  apply grows_bind; [apply steady_wait|intros [[] obj']; [apply IH|apply grows_ret]].
Qed.

(** The loop, with enough fuel for both. *)
Lemma steady_loop f1 f2 obj lg more :
  length (lg_answers lg) < f1 → length (lg_answers lg ++ more) < f2 →
  steadily more (log_loop f1 obj lg) (log_loop f2 obj (with_more lg more)).
Proof.
  revert f2 obj lg. induction f1 as [|f1 IH]; intros f2 obj lg Hf1 Hf2; [lia|].
  destruct f2 as [|f2]; [lia|]. cbn [log_loop]. apply steadily_bind.
  - apply steady_wait.
  - intros [[] obj']; [apply grows_log_loop|apply grows_ret].
  - intros [[] obj'] lg1 Hw%log_wait_takes; [|done]. rewrite length_app in Hf2.
    apply IH; rewrite ?length_app; lia.
Qed.

(** A run with more observations begins as the run without. *)
Lemma log_run_prefix obj trace more crashes :
  (log_run obj trace crashes).2 `prefix_of` (log_run obj (trace ++ more) crashes).2.
Proof.
  unfold log_run. set (lg := MkLogEnv trace [] None crashes false).
  change (MkLogEnv (trace ++ more) [] None crashes false) with (with_more lg more).
  set (short := ('(go, obj') ← log_step (start obj);
    if (go : bool) then log_loop (S (length trace)) obj' else mret ()) lg).
  set (long := ('(go, obj') ← log_step (start obj);
    if (go : bool) then log_loop (S (length (trace ++ more))) obj' else mret ()) (with_more lg more)).
  assert (steadily more short long) as Hs.
  { apply steadily_bind; [apply steady_step, st_start|intros [[] obj']; [apply grows_log_loop|apply grows_ret]|].
    intros [[] obj'] lg1 Hst; [|done]. pose proof (proj2 (grows_step _ (proj1 (st_start obj)) lg)) as Hle.
    rewrite Hst in Hle. simpl in Hle. apply steady_loop; rewrite ?length_app; lia. }
  unfold steadily in Hs. clearbody short long. destruct short as [r lg1], long as [r' lg2].
  cbn [fst snd] in *. destruct r as [u|[]]; try (by injection Hs as _ ->). done.
Qed.

End loop.
