(* ===== verification/Network.v ===== *)
(** * Network: the two-phase commit protocol on a network

    A coordinator and its participants on a network that may lose, duplicate, delay and
    reorder messages, with timers that may fire at any time and nodes that may crash.  The
    nodes run the code of [TwoPhase] on an environment that records what they send. *)

From stdpp Require Import base tactics numbers relations list strings.
From S2P Require Import Prelude Errors TwoPhase.

(** ** The recording environment *)

Record RecEnv := MkRecEnv {
  rec_sent : list (ParticipantId * Message);
  rec_vote : Vote;
  rec_timers : list (TimerId * TimerCallback);
}.

Definition without_timer (id : TimerId) (ts : list (TimerId * TimerCallback))
    : list (TimerId * TimerCallback) := List.filter (λ t, negb (bool_decide (t.1 = id))) ts.

#[export] Instance rec_environment : Environment RecEnv exn := {|
  send dest msg env := (Ok (), MkRecEnv (rec_sent env ++ [(dest, msg)]) (rec_vote env) (rec_timers env));
  get_vote env := (Ok (rec_vote env), env);
  set_timer id _ cb env :=
    (Ok (), MkRecEnv (rec_sent env) (rec_vote env) ((id, cb) :: without_timer id (rec_timers env)));
  cancel_timer id env :=
    (Ok (), MkRecEnv (rec_sent env) (rec_vote env) (without_timer id (rec_timers env)));
|}.

(** ** Nodes and the network *)

(** A protocol object with its timers; it is up while it needs input. *)
Record Node (Obj : Type) := MkNode {
  node_obj : Obj;
  node_timers : list (TimerId * TimerCallback);
  node_up : bool;
}.
Arguments MkNode {Obj} node_obj node_timers node_up.
Arguments node_obj {Obj} n.
Arguments node_timers {Obj} n.
Arguments node_up {Obj} n.

(** [net_messages] is every message sent so far, with its destination: the network may
    deliver any of them, any number of times.  Participant [i] is at position [i - 1]. *)
Record Net := MkNet {
  net_coordinator : Node Coordinator;
  net_participants : list (Node Participant);
  net_messages : list (ParticipantId * Message);
}.

(** A node after a call of its object, and what the call sent; an exception takes it down. *)
Definition call {Obj} (n : Node Obj) (timers : list (TimerId * TimerCallback)) (vote : Vote)
    (m : act RecEnv exn (bool * Obj)) : Node Obj * list (ParticipantId * Message) :=
  match m (MkRecEnv [] vote timers) with
  | (Ok (more, obj), env) => (MkNode obj (rec_timers env) more, rec_sent env)
  | (Throw _, env) => (MkNode (node_obj n) (rec_timers env) false, rec_sent env)
  end.

Definition coordinator_call (net : Net) (r : Node Coordinator * list (ParticipantId * Message)) : Net :=
  MkNet r.1 (net_participants net) (net_messages net ++ r.2).

Definition participant_call (net : Net) (i : nat) (r : Node Participant * list (ParticipantId * Message))
    : Net :=
  MkNet (net_coordinator net) (<[i := r.1]> (net_participants net)) (net_messages net ++ r.2).

Inductive net_step (net : Net) : Net → Prop :=
| coordinator_receives msg :
    node_up (net_coordinator net) = true → (kCoordinator, msg) ∈ net_messages net →
    net_step net (coordinator_call net
      (call (net_coordinator net) (node_timers (net_coordinator net)) Yes
         (coordinator_receive (node_obj (net_coordinator net)) msg)))
| coordinator_times_out id cb :
    node_up (net_coordinator net) = true → (id, cb) ∈ node_timers (net_coordinator net) →
    net_step net (coordinator_call net
      (call (net_coordinator net) (without_timer id (node_timers (net_coordinator net))) Yes
         (coordinator_timer cb (node_obj (net_coordinator net)))))
| coordinator_crashes :
    net_step net (coordinator_call net
      (MkNode (node_obj (net_coordinator net)) (node_timers (net_coordinator net)) false, []))
| participant_receives i n msg vote :
    net_participants net !! i = Some n → node_up n = true →
    (N.of_nat (S i), msg) ∈ net_messages net →
    net_step net (participant_call net i
      (call n (node_timers n) vote (participant_receive (node_obj n) msg)))
| participant_times_out i n id cb :
    net_participants net !! i = Some n → node_up n = true → (id, cb) ∈ node_timers n →
    net_step net (participant_call net i
      (call n (without_timer id (node_timers n)) Yes (participant_timer cb (node_obj n))))
| participant_crashes i n :
    net_participants net !! i = Some n →
    net_step net (participant_call net i (MkNode (node_obj n) (node_timers n) false, [])).

(** Every node has been started. *)
Definition net_init (n : N) (bug : bool) : Net :=
  let c := call (MkNode (new_coordinator n bug) [] true) [] Yes
             (coordinator_start (new_coordinator n bug)) in
  MkNet c.1
    ((λ i, (call (MkNode (new_participant (N.of_nat i)) [] true) [] Yes
              (participant_start (new_participant (N.of_nat i)))).1) <$> seq 1 (N.to_nat n)) c.2.

(** ** The invariant *)

Definition count_true (l : list bool) : nat := length (List.filter id l).

Lemma count_true_insert l i :
  l !! i = Some false → count_true (<[i := true]> l) = S (count_true l).
Proof.
  unfold count_true. revert i. induction l as [|b l IH]; intros [|i] Hi; simpl in *; try done.
  - by injection Hi as ->.
  - destruct b; simpl; rewrite (IH i Hi); done.
Qed.

Lemma count_true_le l : count_true l ≤ length l.
Proof. unfold count_true. induction l as [|[] l IH]; simpl in *; lia. Qed.

(** When all but the first entry are counted, all but the first are true. *)
Lemma count_true_all l : count_true l = length l → ∀ i, i < length l → l !! i = Some true.
Proof.
  unfold count_true. induction l as [|b l IH]; intros Hc i Hi; simpl in *; [lia|].
  pose proof (count_true_le l) as Hle. unfold count_true in Hle. destruct b; simpl in Hc; [|lia].
  destruct i; [done|]. apply IH; lia.
Qed.

Section coordinator.
Context (n : N).

(** What the coordinator knows, given the messages sent so far. *)
Record coordinator_ok (c : Coordinator) (msgs : list (ParticipantId * Message)) : Prop := {
  co_participants : num_participants_ c = n;
  co_length : length (vote_seen_ c) = S (N.to_nat n);
  co_ack_length : length (ack_seen_ c) = S (N.to_nat n);
  co_zero : vote_seen_ c !! 0 = Some false;
  co_count : votes_received_ c = N.of_nat (count_true (vote_seen_ c));
  co_votes : ∀ i, vote_seen_ c !! i = Some true → all_yes_ c = true →
    (kCoordinator, VoteMsg (N.of_nat i) Yes) ∈ msgs;
  co_undecided : phase_ c = CollectingVotes → decision_ c = None;
  co_commit : decision_ c = Some Commit →
    ∀ i, (1 ≤ i ≤ n)%N → (kCoordinator, VoteMsg i Yes) ∈ msgs;
  co_messages : ∀ dest d, (dest, DecisionMsg d) ∈ msgs → decision_ c = Some d;
}.

Lemma coordinator_ok_more c msgs new :
  coordinator_ok c msgs → (∀ dest d, (dest, DecisionMsg d) ∉ new) → coordinator_ok c (msgs ++ new).
Proof.
  intros [] Hnew. split; try done.
  - intros i Hi Hy. apply elem_of_app. left. by apply co_votes0.
  - intros Hd i Hi. apply elem_of_app. left. by apply co_commit0.
  - intros dest d [Hin|Hin]%elem_of_app; [by eapply co_messages0|]. by apply Hnew in Hin.
Qed.

(** *** Handlers on the recording environment *)

Lemma for_each_send (f : ParticipantId → Message) l env :
  for_each (λ pid, send pid (f pid)) l env =
  (Ok (), MkRecEnv (rec_sent env ++ ((λ pid, (pid, f pid)) <$> l)) (rec_vote env) (rec_timers env)).
Proof.
  revert env. induction l as [|pid l IH]; intros env; simpl.
  { rewrite app_nil_r. by destruct env. }
  unfold mbind, act_bind. simpl. rewrite IH. simpl. by rewrite <-app_assoc.
Qed.

Lemma broadcast_sent c d env :
  decision_ c = Some d →
  ∃ ts, broadcast_decision c env =
    (Ok (set_phase c CollectingAcks),
     MkRecEnv (rec_sent env ++ ((λ pid, (pid, DecisionMsg d)) <$> participant_ids c)) (rec_vote env) ts).
Proof.
  intros Hd. unfold broadcast_decision, mbind, act_bind. rewrite Hd.
  rewrite (for_each_send (λ _, DecisionMsg d)). simpl. by eexists.
Qed.

(** The coordinator decides [d] and sends it. *)
Lemma decided_ok c msgs y d l :
  coordinator_ok c msgs → phase_ c = CollectingVotes → (y = true → all_yes_ c = true) →
  (d = Commit → ∀ i, (1 ≤ i ≤ n)%N → (kCoordinator, VoteMsg i Yes) ∈ msgs) →
  coordinator_ok (set_phase (set_decision c y d) CollectingAcks)
    (msgs ++ ((λ pid : ParticipantId, (pid, DecisionMsg d)) <$> l)).
Proof.
  intros [] Hph Hy Hd. split; simpl; try done.
  - intros i Hi Hy'. apply elem_of_app. left. auto.
  - intros [= ->] i Hi. apply elem_of_app. left. auto.
  - intros dest d' [Hin|Hin]%elem_of_app.
    + apply co_messages0 in Hin. rewrite co_undecided0 in Hin; done.
    + by apply list_elem_of_fmap in Hin as (pid & [= -> ->] & _).
Qed.

(** A vote that counts. *)
Lemma note_vote_ok c msgs from vote :
  coordinator_ok c msgs → phase_ c = CollectingVotes → (kCoordinator, VoteMsg from vote) ∈ msgs →
  (1 ≤ from)%N → vote_seen_ c !! N.to_nat from = Some false →
  coordinator_ok (note_vote c from (if decide (vote = No) then false else all_yes_ c)) msgs.
Proof.
  intros [] Hph Hin Hpos Hseen. split; simpl; try done.
  - by rewrite length_insert.
  - rewrite list_lookup_insert_ne by lia. done.
  - rewrite co_count0, (count_true_insert _ _ Hseen). lia.
  - intros i Hi Hy. destruct (decide (vote = No)) as [|Hv]; [done|].
    destruct (decide (i = N.to_nat from)) as [->|Hne].
    + rewrite N2Nat.id. by destruct vote.
    + rewrite list_lookup_insert_ne in Hi by done. auto.
Qed.

(** When every vote has been counted and all were Yes, every participant voted Yes. *)
Lemma all_votes_in c msgs :
  coordinator_ok c msgs → (n ≤ votes_received_ c)%N → all_yes_ c = true →
  ∀ i, (1 ≤ i ≤ n)%N → (kCoordinator, VoteMsg i Yes) ∈ msgs.
Proof.
  intros [] Hall Hyes i Hi. rewrite co_count0 in Hall.
  destruct (vote_seen_ c) as [|b seen] eqn:Hs; simpl in co_length0; [lia|].
  simpl in co_zero0. injection co_zero0 as ->. simpl in *.
  assert (count_true seen = length seen) as Hc.
  { pose proof (count_true_le seen). unfold count_true in *. simpl in Hall. lia. }
  destruct (N.to_nat i) as [|j] eqn:Hj; [lia|].
  rewrite <-(N2Nat.id i), Hj. apply co_votes0; [|done]. simpl. apply count_true_all; [done|lia].
Qed.

(** A call of the coordinator keeps what it knows, and sends no votes. *)
Definition call_ok (c : Coordinator) msgs (m : act RecEnv exn (bool * Coordinator)) : Prop :=
  ∀ env, ∃ new, rec_sent (m env).2 = rec_sent env ++ new ∧
    (∀ dest pid v, (dest, VoteMsg pid v) ∉ new) ∧
    coordinator_ok (match (m env).1 with Ok (_, c') => c' | Throw _ => c end) (msgs ++ new).

Lemma call_ok_ret c msgs b c' : coordinator_ok c' msgs → call_ok c msgs (mret (b, c')).
Proof. intros Hc env. exists []. rewrite !app_nil_r. split_and!; [done|set_solver|done]. Qed.

Lemma call_ok_throw c msgs e : coordinator_ok c msgs → call_ok c msgs (throw e).
Proof. intros Hc env. exists []. rewrite !app_nil_r. split_and!; [done|set_solver|done]. Qed.

Lemma call_ok_decide c c1 msgs y d :
  coordinator_ok c1 msgs → phase_ c1 = CollectingVotes → (y = true → all_yes_ c1 = true) →
  (d = Commit → ∀ i, (1 ≤ i ≤ n)%N → (kCoordinator, VoteMsg i Yes) ∈ msgs) →
  call_ok c msgs (c2 ← broadcast_decision (set_decision c1 y d); mret (true, c2)).
Proof.
  intros Hc Hph Hy Hd env. unfold mbind, act_bind.
  destruct (broadcast_sent (set_decision c1 y d) d env eq_refl) as [ts ->]. simpl.
  eexists. split_and!; [done| |by apply decided_ok].
  intros dest pid v (q & [= ] & _)%list_elem_of_fmap.
Qed.

Lemma receive_vote_ok c msgs from vote :
  coordinator_ok c msgs → phase_ c = CollectingVotes → (kCoordinator, VoteMsg from vote) ∈ msgs →
  (1 ≤ from)%N → vote_seen_ c !! N.to_nat from = Some false →
  call_ok c msgs (receive_vote c from vote).
Proof.
  intros Hc Hph Hin Hpos Hseen. pose proof (note_vote_ok c msgs from vote Hc Hph Hin Hpos Hseen) as Hc1.
  unfold receive_vote. set (c1 := note_vote c from _) in *.
  destruct (decide (vote = No ∧ _)); [by apply call_ok_throw|].
  destruct (decide (votes_received_ c1 < num_participants_ c1)%N) as [|Hall]; [by apply call_ok_ret|].
  assert (call_ok c msgs (c2 ← broadcast_decision (set_decision c1 (all_yes_ c1)
    (if all_yes_ c1 then Commit else Abort)); mret (true, c2))) as Hdec.
  { apply call_ok_decide; [done|done|done|]. destruct (all_yes_ c1) eqn:Hy; [intros _|done].
    apply (all_votes_in c1); [done| |done]. rewrite (co_participants _ _ Hc1) in Hall. lia. }
  intros env. apply (Hdec (MkRecEnv (rec_sent env) (rec_vote env)
    (without_timer kVoteTimeoutTimerId (rec_timers env)))).
Qed.

Lemma receive_ack_ok c msgs from : coordinator_ok c msgs → phase_ c = CollectingAcks →
  call_ok c msgs (receive_ack c from).
Proof.
  intros Hc Hph. assert (∀ ph, ph ≠ CollectingVotes → coordinator_ok (set_phase (note_ack c from) ph) msgs)
    as Hc1 by (intros ph Hne; destruct Hc; split; simpl; try done; by rewrite length_insert).
  unfold receive_ack. destruct (decide _).
  - apply call_ok_ret. pose proof (Hc1 CollectingAcks ltac:(done)) as Hc2.
    destruct Hc2; split; simpl in *; try done. congruence.
  - intros env. exists []. simpl. rewrite !app_nil_r. split_and!; [done|set_solver|by apply Hc1].
Qed.

Lemma coordinator_receive_ok c msgs msg :
  coordinator_ok c msgs → (kCoordinator, msg) ∈ msgs → call_ok c msgs (coordinator_receive c msg).
Proof.
  intros Hc Hin. unfold coordinator_receive. destruct (phase_ c) eqn:Hph; [| |by apply call_ok_ret].
  - destruct msg as [|from vote|d|from]; try by apply call_ok_ret.
    destruct (is_valid_participant c from) eqn:Hvalid; [|by apply call_ok_ret].
    apply andb_true_iff in Hvalid as [Hlo%N.leb_le Hhi%N.leb_le].
    assert (∃ b, vote_seen_ c !! N.to_nat from = Some b) as [b Hb].
    { apply lookup_lt_is_Some_2. rewrite (co_length _ _ Hc). rewrite (co_participants _ _ Hc) in Hhi. lia. }
    assert (call_ok c msgs (if b then mret (true, c) else receive_vote c from vote)) as Hcall.
    { destruct b; [by apply call_ok_ret|by apply receive_vote_ok]. }
    intros env. unfold seen_at, mbind, act_bind. rewrite Hb. apply Hcall.
  - destruct msg as [|from vote|d|from]; try by apply call_ok_ret.
    destruct (is_valid_participant c from); [|by apply call_ok_ret].
    intros env. unfold seen_at, mbind, act_bind. destruct (ack_seen_ c !! N.to_nat from) as [[]|].
    + by apply (call_ok_ret c msgs true c Hc).
    + by apply receive_ack_ok.
    + by apply (call_ok_throw c msgs undefined_behavior Hc).
Qed.

Lemma coordinator_timer_ok c msgs cb : coordinator_ok c msgs → call_ok c msgs (coordinator_timer cb c).
Proof.
  intros Hc. destruct cb; simpl; [| |by apply call_ok_throw].
  - unfold on_vote_timeout. destruct (decide _) as [|Hph]; [by apply call_ok_ret|].
    apply dec_stable in Hph. by apply call_ok_decide.
  - unfold on_ack_timeout. destruct (decide _); [by apply call_ok_ret|]. apply call_ok_ret.
    destruct Hc. by split.
Qed.

(** A coordinator that has just been started knows nothing. *)
Lemma started_ok bug vote_ms ack_ms msgs :
  (∀ dest d, (dest, DecisionMsg d) ∉ msgs) →
  coordinator_ok (MkCoordinator n bug vote_ms ack_ms None CollectingVotes true 0 0
    (replicate (N.to_nat n + 1) false) (replicate (N.to_nat n + 1) false)) msgs.
Proof.
  intros Hno.
  assert (count_true (replicate (N.to_nat n + 1) false) = 0) as Hz
    by (generalize (N.to_nat n + 1); intros k; unfold count_true; by induction k).
  split; simpl; try done; rewrite ?length_replicate; try lia.
  - by rewrite Nat.add_1_r.
  - intros i [? _]%lookup_replicate. done.
  - by intros dest d ?%Hno.
Qed.

Lemma coordinator_start_ok bug :
  call_ok (new_coordinator n bug) [] (coordinator_start (new_coordinator n bug)).
Proof.
  intros env. unfold coordinator_start, mbind, act_bind. rewrite (for_each_send (λ _, Prepare)). simpl.
  eexists. split_and!; [done|by intros dest pid v (q & [= ] & _)%list_elem_of_fmap|].
  apply started_ok. by intros dest d (q & [= ] & _)%list_elem_of_fmap.
Qed.

End coordinator.

(** *** Participants and the whole network *)

Record participant_ok (i : nat) (p : Participant) (msgs : list (ParticipantId * Message)) : Prop := {
  po_id : id_ p = N.of_nat (S i);
  po_silent : state_ p = WaitPrepare → ∀ dest v, (dest, VoteMsg (id_ p) v) ∉ msgs;
  po_outcome : outcome_ p = Some Commit → ∃ dest, (dest, DecisionMsg Commit) ∈ msgs;
}.

(** A participant does not see the votes of others. *)
Lemma participant_ok_more i p msgs new :
  participant_ok i p msgs → (∀ dest v, (dest, VoteMsg (N.of_nat (S i)) v) ∉ new) →
  participant_ok i p (msgs ++ new).
Proof.
  intros [Hid Hs Ho] Hnew. split; [done| |].
  - intros Hw dest v [Hin|Hin]%elem_of_app; [by eapply Hs|]. rewrite Hid in Hin. by apply Hnew in Hin.
  - intros Hc. destruct (Ho Hc) as [dest Hin]. exists dest. apply elem_of_app. by left.
Qed.

(** What a call of participant [i] does: it decides nothing, and votes only while it has
    not voted. *)
Record participant_call_ok (i : nat) (p : Participant) (msgs : list (ParticipantId * Message))
    (m : act RecEnv exn (bool * Participant)) : Prop := {
  pc_ok : ∀ env, ∃ new, rec_sent (m env).2 = rec_sent env ++ new ∧
    participant_ok i (match (m env).1 with Ok (_, p') => p' | Throw _ => p end) (msgs ++ new) ∧
    (∀ dest d, (dest, DecisionMsg d) ∉ new) ∧
    (∀ dest pid v, (dest, VoteMsg pid v) ∈ new →
       pid = N.of_nat (S i) ∧ v = rec_vote env ∧ state_ p = WaitPrepare);
}.

Lemma participant_quiet i p msgs b p' :
  participant_ok i p' msgs → participant_call_ok i p msgs (mret (b, p')).
Proof.
  intros Hp. split. intros env. exists []. rewrite !app_nil_r. split_and!; [done|done|set_solver|set_solver].
Qed.

Lemma participant_receive_ok i p msgs dest msg :
  participant_ok i p msgs → (dest, msg) ∈ msgs → participant_call_ok i p msgs (participant_receive p msg).
Proof.
  intros Hp Hin. unfold participant_receive. destruct (state_ p) eqn:Hst; [| |by apply participant_quiet].
  - destruct msg; try by apply participant_quiet. split. intros env. unfold mbind, act_bind. simpl.
    eexists. split_and!; [done| |set_solver|].
    + destruct Hp as [Hid Hs Ho]. split; simpl; [done|done|]. intros Hc. destruct (Ho Hc) as [d' Hd'].
      exists d'. apply elem_of_app. by left.
    + intros d' pid v [= -> -> ->]%list_elem_of_singleton. split_and!; [apply Hp|done|done].
  - destruct msg as [| |d|]; try by apply participant_quiet. split. intros env. unfold mbind, act_bind. simpl.
    eexists. split_and!; [done| |set_solver|set_solver].
    destruct Hp as [Hid Hs Ho]. split; simpl; [done|done|]. intros [= ->]. exists dest. apply elem_of_app. by left.
Qed.

Lemma participant_timer_ok i p msgs cb :
  participant_ok i p msgs → participant_call_ok i p msgs (participant_timer cb p).
Proof.
  intros Hp. destruct cb; simpl;
    try (split; intros env; exists []; rewrite !app_nil_r; split_and!; [done|done|set_solver|set_solver]).
  unfold on_decision_timeout. destruct (decide _); [by apply participant_quiet|].
  apply participant_quiet. destruct Hp. by split.
Qed.

Record net_ok (n : N) (net : Net) : Prop := {
  no_coordinator : coordinator_ok n (node_obj (net_coordinator net)) (net_messages net);
  no_size : length (net_participants net) = N.to_nat n;
  no_participants : ∀ i nd, net_participants net !! i = Some nd →
    participant_ok i (node_obj nd) (net_messages net);
  no_votes : ∀ dest dest' pid v v', (dest, VoteMsg pid v) ∈ net_messages net →
    (dest', VoteMsg pid v') ∈ net_messages net → v = v';
}.

Lemma coordinator_call_ok n net ts vote m :
  net_ok n net → call_ok n (node_obj (net_coordinator net)) (net_messages net) m →
  net_ok n (coordinator_call net (call (net_coordinator net) ts vote m)).
Proof.
  intros [Hc Hsz Hp Hv] Hm. destruct (Hm (MkRecEnv [] vote ts)) as (new & Hsent & Hno & Hok).
  assert (call (net_coordinator net) ts vote m =
    (MkNode (match (m (MkRecEnv [] vote ts)).1 with Ok (_, c') => c' | Throw _ => node_obj (net_coordinator net) end)
       (rec_timers (m (MkRecEnv [] vote ts)).2)
       (match (m (MkRecEnv [] vote ts)).1 with Ok (more, _) => more | Throw _ => false end), new)) as ->.
  { unfold call. simpl in Hsent. rewrite <-Hsent. by destruct (m _) as [[[more c']|e] env']. }
  split; simpl; [done|done| |].
  - intros i nd Hi. apply participant_ok_more; [by apply Hp|]. intros dest v. apply Hno.
  - intros d d' pid v v' [H1|H1]%elem_of_app [H2|H2]%elem_of_app; [by eapply Hv|..]; by apply Hno in H1 || apply Hno in H2.
Qed.

Lemma participant_call_net_ok n net i nd ts vote m :
  net_ok n net → net_participants net !! i = Some nd →
  participant_call_ok i (node_obj nd) (net_messages net) m →
  net_ok n (participant_call net i (call nd ts vote m)).
Proof.
  intros [Hc Hsz Hp Hv] Hi [Hm]. destruct (Hm (MkRecEnv [] vote ts)) as (new & Hsent & Hok & Hnod & Hvote).
  assert (call nd ts vote m =
    (MkNode (match (m (MkRecEnv [] vote ts)).1 with Ok (_, c') => c' | Throw _ => node_obj nd end)
       (rec_timers (m (MkRecEnv [] vote ts)).2)
       (match (m (MkRecEnv [] vote ts)).1 with Ok (more, _) => more | Throw _ => false end), new)) as ->.
  { unfold call. simpl in Hsent. rewrite <-Hsent. by destruct (m _) as [[[more c']|e] env']. }
  pose proof (Hp i nd Hi) as [Hid Hsil _]. split; simpl.
  - by apply coordinator_ok_more.
  - by rewrite length_insert.
  - intros j nd'. destruct (decide (j = i)) as [->|Hne].
    + rewrite list_lookup_insert_eq by (by eapply lookup_lt_Some). by intros [= <-].
    + rewrite list_lookup_insert_ne by done. intros Hj. apply participant_ok_more; [by apply Hp|].
      intros dest v (Heq & _)%Hvote. lia.
  - intros d d' pid v v' [H1|H1]%elem_of_app [H2|H2]%elem_of_app.
    + by eapply Hv.
    + destruct (Hvote _ _ _ H2) as (-> & _ & Hw). rewrite <-Hid in H1. by apply Hsil in H1.
    + destruct (Hvote _ _ _ H1) as (-> & _ & Hw). rewrite <-Hid in H2. by apply Hsil in H2.
    + destruct (Hvote _ _ _ H1) as (_ & -> & _), (Hvote _ _ _ H2) as (_ & -> & _). done.
Qed.

Lemma net_step_ok n net net' : net_ok n net → net_step net net' → net_ok n net'.
Proof.
  intros Hok Hstep. pose proof Hok as [Hc Hsz Hp Hv]. destruct Hstep.
  - apply coordinator_call_ok; [done|]. by apply coordinator_receive_ok.
  - apply coordinator_call_ok; [done|]. by apply coordinator_timer_ok.
  - split; simpl; rewrite ?app_nil_r; done.
  - eapply participant_call_net_ok; [done|done|]. eapply participant_receive_ok; [by apply Hp|done].
  - eapply participant_call_net_ok; [done|done|]. apply participant_timer_ok. by apply Hp.
  - split; simpl; rewrite ?app_nil_r; try done; [by rewrite length_insert|].
    intros j nd. destruct (decide (j = i)) as [->|Hne].
    + rewrite list_lookup_insert_eq by (by eapply lookup_lt_Some). intros [= <-]. simpl. by eapply Hp.
    + rewrite list_lookup_insert_ne by done. apply Hp.
Qed.

Lemma net_init_ok n bug : net_ok n (net_init n bug).
Proof.
  destruct (coordinator_start_ok n bug (MkRecEnv [] Yes [])) as (new & Hsent & Hno & Hok).
  unfold net_init, call.
  destruct (coordinator_start (new_coordinator n bug) (MkRecEnv [] Yes [])) as [[[more c]|e] env] eqn:Es.
  2:{ unfold coordinator_start, mbind, act_bind in Es. by rewrite (for_each_send (λ _, Prepare)) in Es. }
  simpl in Hsent, Hok. split;
    cbn [net_coordinator net_participants net_messages node_obj fst snd]; rewrite ?Hsent;
    [done|by rewrite length_fmap, length_seq| |].
  - intros i nd Hi. rewrite list_lookup_fmap in Hi.
    destruct (seq 1 (N.to_nat n) !! i) as [j|] eqn:Hj; [|done]. injection Hi as <-.
    apply lookup_seq in Hj as [-> _]. split; simpl; [done| |done]. intros _ dest v. apply Hno.
  - intros dest dest' pid v v' H1. by apply Hno in H1.
Qed.

Lemma reachable_net_ok n bug net : rtc net_step (net_init n bug) net → net_ok n net.
Proof.
  intros Hr. assert (net_ok n (net_init n bug)) as Hok by apply net_init_ok. revert Hok.
  induction Hr; [done|]. eauto using net_step_ok.
Qed.
