(* ===== verification/SimulationLogs.v ===== *)
(** * SimulationLogs: what the simulated threads may do

    A small program logic for the runs of [Replay], and with it the logs of the two kinds
    of threads, for any number of participants and whatever they observe: a coordinator
    sends one decision only, commits only when it has observed a Yes of every participant
    ([coordinator_run]), and sends no decision unless it was told not to crash; a
    participant asks for one vote and sends the vote it was given ([participant_run]). *)

From stdpp Require Import base tactics numbers sets list strings.
From S2P Require Import Prelude Errors Event Program TwoPhase Bridge Simulation Replay.
From S2P Require Import Network.

(** ** A program logic for logged code *)

(** An error that ends a run is recorded with an error label. *)
Definition error_label (e : log_exn) : Prop :=
  match e with LogErrored l => ∃ w, l = LError w | _ => True end.

Section logic.
(** What holds of the log when a run ends with an exception. *)
Context (E : LogEnv → Prop).
Implicit Types (P : LogEnv → Prop) (lg : LogEnv).

Definition triple {A} P (m : logged A) (Q : A → LogEnv → Prop) : Prop := ∀ lg, P lg →
  match m lg with
  | (Ok a, lg') => Q a lg'
  | (Throw e, lg') => E lg' ∧ error_label e
  end.

Lemma triple_ret {A} P (a : A) (Q : A → LogEnv → Prop) : (∀ lg, P lg → Q a lg) → triple P (mret a) Q.
Proof. intros HQ lg. apply HQ. Qed.

Lemma triple_throw {A} P e (Q : A → LogEnv → Prop) :
  (∀ lg, P lg → E lg) → error_label e → triple P (throw e) Q.
Proof. intros HE He lg Hlg. split; [by apply HE|done]. Qed.

Lemma triple_bind {A B} P (m : logged A) (f : A → logged B) (R : A → LogEnv → Prop) Q :
  triple P m R → (∀ a, triple (R a) (f a) Q) → triple P (m ≫= f) Q.
Proof.
  intros Hm Hf lg Hlg. specialize (Hm lg Hlg). unfold mbind, act_bind.
  destruct (m lg) as [[a|e] lg1]; [by apply Hf|done].
Qed.

Lemma triple_conseq {A} P P' (m : logged A) (Q Q' : A → LogEnv → Prop) :
  triple P' m Q' → (∀ lg, P lg → P' lg) → (∀ a lg, Q' a lg → Q a lg) → triple P m Q.
Proof.
  intros Hm HP HQ lg Hlg. specialize (Hm lg (HP lg Hlg)). destruct (m lg) as [[a|e] lg1]; [by apply HQ|done].
Qed.

Lemma triple_get {B} P (f : LogEnv → logged B) Q :
  (∀ lg, triple (λ lg', lg' = lg ∧ P lg') (f lg) Q) → triple P (log_get ≫= f) Q.
Proof. intros Hf lg Hlg. by apply (Hf lg lg). Qed.

Lemma triple_for_each {A} P (f : A → logged unit) l :
  (∀ a, triple P (f a) (λ _, P)) → triple P (for_each f l) (λ _, P).
Proof.
  intros Hf. induction l as [|a l IH]; simpl; [by apply triple_ret|]. by eapply triple_bind.
Qed.

Lemma triple_step {A} P (m : logged A) Q : triple P m Q → triple P (log_step m) Q.
Proof.
  intros Hm lg Hlg. specialize (Hm lg Hlg). unfold log_step.
  destruct (m lg) as [[a|[| | | |e]] lg1]; try done. destruct (catchable e); [|done].
  split; [apply Hm|]. by eexists.
Qed.

(** *** Runs *)

Context {Obj : Type} `{Protocol LogEnv log_exn Obj} (T : ThreadTrace SimValue) (inv : Obj → LogEnv → Prop).
Hypothesis Hend : ∀ obj lg, inv obj lg → E lg.
Hypothesis Hanswers : ∀ obj lg o, inv obj lg → o ∈ lg_answers lg → o ∈ T.
Hypothesis Hwait : ∀ obj lg, inv obj lg → inv obj (record (wait_label (lg_timer lg)) lg).2.
Hypothesis Htake : ∀ obj lg, inv obj lg → inv obj (next_answer lg).2.
Hypothesis Hclear : ∀ obj lg, inv obj lg → inv obj (log_set_timer None lg).2.
Hypothesis Hreceive : ∀ obj v msg, Observed v ∈ T → decode_message v = Ok msg →
  triple (inv obj) (receive obj msg) (λ r, inv r.2).
Hypothesis Htimer : ∀ obj cb, triple (inv obj) (run_timer cb obj) (λ r, inv r.2).

Lemma triple_wait obj : triple (inv obj) (log_wait obj) (λ r, inv r.2).
Proof.
  intros lg Hlg. pose proof (Hwait obj lg Hlg) as Hlg1. pose proof (Htake obj _ Hlg1) as Hlg2.
  unfold log_wait, log_answer, next_answer, record, log_get, mbind, act_bind in *. cbn [fst snd lg_answers] in *.
  destruct (lg_answers lg) as [|a answers] eqn:Ea; [by split; [eapply Hend|]|].
  cbn [snd lg_log lg_timer lg_inject lg_injected] in Hlg2.
  assert (a ∈ T) as Ha by (apply (Hanswers obj lg); [done|]; rewrite Ea; by left). destruct a as [v|].
  - destruct (decode_message v) as [msg|e] eqn:Hd.
    + by apply (triple_step _ _ _ (Hreceive obj v msg Ha Hd)).
    + destruct (what e); (split; [by eapply Hend|done]).
  - destruct (lg_timer lg) as [[id cb]|]; [|split; [by eapply Hend|done]].
    apply (triple_step _ _ _ (Htimer obj cb)). by apply (Hclear obj) in Hlg2.
Qed.

Lemma triple_loop fuel obj : triple (inv obj) (log_loop fuel obj) (λ _, E).
Proof.
  revert obj. induction fuel as [|fuel IH]; intros obj; cbn [log_loop].
  - apply triple_throw; [apply Hend|done].
  - eapply triple_bind; [apply triple_wait|]. intros [[] obj']; [apply IH|].
    apply triple_ret. intros lg. apply Hend.
Qed.

(** How a run that starts well ends. *)
Lemma triple_run obj crashes :
  triple (λ lg, lg = MkLogEnv T [] None crashes false) (start obj) (λ r, inv r.2) →
  (∃ lg, lg_log lg = (log_run obj T crashes).2 ∧ E lg) ∧
  match (log_run obj T crashes).1 with Throw e => error_label e | Ok _ => True end.
Proof.
  intros Hstart.
  assert (triple (λ lg, lg = MkLogEnv T [] None crashes false)
    ('(more, obj') ← log_step (start obj);
     if (more : bool) then log_loop (S (length T)) obj' else mret ()) (λ _, E)) as Hrun.
  { eapply triple_bind; [by apply triple_step|]. intros [[] obj']; [apply triple_loop|].
    apply triple_ret. intros lg. apply Hend. }
  specialize (Hrun _ eq_refl). unfold log_run.
  destruct (('(more, obj') ← log_step (start obj);
    if (more : bool) then log_loop (S (length T)) obj' else mret ()) (MkLogEnv T [] None crashes false))
    as [[u|e] lg]; simpl; [by split; [exists lg|]|]. destruct Hrun. by split; [exists lg|].
Qed.

End logic.

(** *** Operations *)

(** The choices a log asks for. *)
Definition nd_labels (log : list (EventLabel SimValue)) : list (NondeterministicChoiceLabel SimValue) :=
  omap (λ l, match l with LNd nd => Some nd | _ => None end) log.

Lemma nd_labels_snoc log l :
  nd_labels (log ++ [l]) = nd_labels log ++ match l with LNd nd => [nd] | _ => [] end.
Proof. unfold nd_labels. rewrite omap_app. by destruct l. Qed.

(** The values a log sends. *)
Definition sends (log : list (EventLabel SimValue)) (v : SimValue) : Prop :=
  ∃ dest, LSend (MkSendLabel dest v) ∈ log.

Lemma sends_snoc log l v :
  sends (log ++ [l]) v ↔ sends log v ∨ ∃ dest, l = LSend (MkSendLabel dest v).
Proof.
  unfold sends. setoid_rewrite elem_of_app. setoid_rewrite list_elem_of_singleton. naive_solver.
Qed.

Lemma nd_labels_none log i nd : nd_labels log = [] → log !! i ≠ Some (LNd nd).
Proof.
  intros Hnil Hi%list_elem_of_lookup_2.
  assert (nd ∈ nd_labels log) as Hin by (apply list_elem_of_omap; by exists (LNd nd)).
  rewrite Hnil in Hin. by apply not_elem_of_nil in Hin.
Qed.

(** At most one position of a log with one choice is a choice. *)
Lemma nd_labels_unique log nd i j nd1 nd2 :
  nd_labels log = [nd] → log !! i = Some (LNd nd1) → log !! j = Some (LNd nd2) → i = j ∧ nd1 = nd.
Proof.
  revert i j. induction log as [|l log IH]; intros i j Hone Hi Hj; [done|].
  unfold nd_labels in Hone. simpl in Hone. fold (nd_labels log) in Hone.
  destruct i as [|i], j as [|j]; simpl in Hi, Hj; simplify_eq; simpl in *; simplify_eq.
  - done.
  - by destruct (nd_labels_none log j nd2).
  - by destruct (nd_labels_none log i nd1).
  - destruct l; simplify_eq; try (destruct (IH i j) as [-> ->]; done). by destruct (nd_labels_none log i nd1).
Qed.

(** ** The coordinator *)

Section coordinator.
Context (n : N) (inj : bool) (T : ThreadTrace SimValue).
Implicit Types (c : Coordinator) (lg : LogEnv) (d : DecisionValue).

(** The votes the thread observes. *)
Definition votes_in : list (ParticipantId * Message) :=
  omap (λ o, match o with
             | Observed v =>
                 match decode_message v with Ok (VoteMsg i w) => Some (kCoordinator, VoteMsg i w) | _ => None end
             | BottomValue => None
             end) T.

Lemma votes_in_elem dest msg :
  (dest, msg) ∈ votes_in ↔ dest = kCoordinator ∧
    ∃ v i w, msg = VoteMsg i w ∧ Observed v ∈ T ∧ decode_message v = Ok msg.
Proof.
  unfold votes_in. rewrite list_elem_of_omap. split.
  - intros ([v|] & Hv & Ho); [|done]. destruct (decode_message v) as [[]|] eqn:Hd; simplify_eq. naive_solver.
  - intros (-> & v & i & w & -> & Hv & Hd). exists (Observed v). by rewrite Hd.
Qed.

(** The thread was told not to crash. *)
Definition confirmed : Prop := ∃ w, Observed w ∈ T ∧ decode_crash_choice w = Ok false.

Definition crash_label : NondeterministicChoiceLabel SimValue :=
  MkNdLabel (MkSimValue 0) [crash_choice false; crash_choice true].

(** What the log of a coordinator that has decided [dec] holds. *)
Record coordinator_log (dec : option DecisionValue) lg : Prop := {
  cl_answers : ∀ o, o ∈ lg_answers lg → o ∈ T;
  cl_inject : lg_inject lg = inj;
  cl_sends : ∀ v, sends (lg_log lg) v → v = encode_message Prepare ∨
    ∃ d, v = encode_message (DecisionMsg d) ∧ dec = Some d ∧ (inj = true → confirmed);
  cl_choices : nd_labels (lg_log lg) = if lg_injected lg then [crash_label] else [];
  cl_injected : lg_injected lg = true → inj = true;
  cl_commit : dec = Some Commit → ∀ i, (1 ≤ i ≤ n)%N → (kCoordinator, VoteMsg i Yes) ∈ votes_in;
}.

(** Between operations, a coordinator that asked about a crash was told not to. *)
Definition running dec lg : Prop := coordinator_log dec lg ∧ (lg_injected lg = true → confirmed).

Definition coordinator_ended lg : Prop := ∃ dec, coordinator_log dec lg.

Abbreviation triple := (triple coordinator_ended).

Lemma running_ended dec lg : running dec lg → coordinator_ended lg.
Proof. intros [Hc _]. by exists dec. Qed.

(** An environment that differs in the timer, and in observations taken. *)
Lemma running_same dec lg lg' :
  running dec lg → (∀ o, o ∈ lg_answers lg' → o ∈ lg_answers lg) → lg_log lg' = lg_log lg →
  lg_inject lg' = lg_inject lg → lg_injected lg' = lg_injected lg → running dec lg'.
Proof.
  intros [[Ha Hi Hs Hc Hj Hv] Hcf] Hans Hlog Hinj Hinjd.
  split; [split|]; rewrite ?Hlog, ?Hinj, ?Hinjd; auto.
Qed.

Lemma running_decide d lg :
  running None lg → (d = Commit → ∀ i, (1 ≤ i ≤ n)%N → (kCoordinator, VoteMsg i Yes) ∈ votes_in) →
  running (Some d) lg.
Proof.
  intros [[Ha Hi Hs Hc Hj Hv] Hcf] Hd. split; [split|]; try done.
  - intros v [->|(d' & _ & ? & _)]%Hs; [by left|done].
  - intros [= ->]. by apply Hd.
Qed.

(** A label that is no choice and sends nothing new. *)
Lemma running_record dec lg l :
  running dec lg → (∀ nd, l ≠ LNd nd) →
  (∀ dest v, l = LSend (MkSendLabel dest v) → v = encode_message Prepare ∨
     ∃ d, v = encode_message (DecisionMsg d) ∧ dec = Some d ∧ (inj = true → confirmed)) →
  running dec (record l lg).2.
Proof.
  intros [[Ha Hi Hs Hc Hj Hv] Hcf] Hnd Hl. split; [split|]; simpl; try done.
  - intros v [?|(dest & ->)]%sends_snoc; [by apply Hs|by eapply Hl].
  - rewrite nd_labels_snoc, Hc. destruct l as [| |nd| |]; try (by rewrite app_nil_r). by destruct (Hnd nd).
Qed.

Lemma triple_prepare dec dest :
  triple (running dec) (send (E := LogEnv) (X := log_exn) dest Prepare) (λ _, running dec).
Proof.
  intros lg Hlg. simpl. unfold log_send, log_get, mbind, act_bind. rewrite andb_false_r. simpl.
  apply (running_record dec lg (LSend _)); [done|done|]. intros dest' v [= _ <-]. by left.
Qed.

(** Asking whether to crash. *)
Lemma triple_crash dec :
  triple (λ lg, running dec lg ∧ lg_inject lg = true ∧ lg_injected lg = false)
    (_ ← log_mark;
     choice ← log_choice [crash_choice false; crash_choice true];
     crash ← log_lift (decode_crash_choice choice);
     if (crash : bool) then throw LogCrashed else mret ()) (λ _ lg, running dec lg ∧ lg_injected lg = true).
Proof.
  intros lg ([[Ha Hi Hs Hc Hj Hv] Hcf] & Hinj & Hinjd).
  set (lg1 := MkLogEnv (lg_answers lg) (lg_log lg ++ [LNd crash_label]) (lg_timer lg) (lg_inject lg) true).
  assert (coordinator_log dec lg1) as Hlg1.
  { split; simpl; try done; [|by rewrite nd_labels_snoc, Hc, Hinjd|congruence].
    by intros v [?|(dest & ?)]%sends_snoc; [apply Hs|]. }
  assert (∀ answers, (∀ o, o ∈ answers → o ∈ lg_answers lg) → coordinator_log dec
    (MkLogEnv answers (lg_log lg1) (lg_timer lg) (lg_inject lg) true)) as Htaken.
  { intros answers Hans. destruct Hlg1. split; try done. simpl. auto. }
  unfold log_mark, log_choice, record, next_answer, mbind, act_bind. simpl.
  destruct (lg_answers lg) as [|[v|] answers] eqn:Ea; simpl.
  - split; [by exists dec|done].
  - unfold log_lift. destruct (decode_crash_choice v) as [[]|e] eqn:Hd; simpl.
    + split; [exists dec; apply Htaken; set_solver|done].
    + split; [|done]. split; [apply Htaken; set_solver|]. intros _. exists v. split; [|done].
      apply Ha. by left.
    + split; [exists dec; apply Htaken; set_solver|done].
  - split; [exists dec; apply Htaken; set_solver|done].
Qed.

Lemma triple_decision d dest :
  triple (running (Some d)) (send (E := LogEnv) (X := log_exn) dest (DecisionMsg d)) (λ _, running (Some d)).
Proof.
  apply triple_get. intros lg0.
  apply (triple_bind _ _ _ _ (λ _ lg, running (Some d) lg ∧ (inj = true → confirmed))).
  - simpl. rewrite andb_true_r. destruct (lg_inject lg0 && negb (lg_injected lg0)) eqn:Eb.
    + apply andb_true_iff in Eb as [Hinj Hno%negb_true_iff]. eapply triple_conseq; [apply triple_crash|..].
      * intros lg [-> Hlg]. by split_and!.
      * intros _ lg [[Hc Hcf] Hinjd]. split; [done|]. intros _. by apply Hcf.
    + apply triple_ret. intros lg [-> [Hc Hcf]]. split; [done|]. intros Hinj. apply Hcf.
      rewrite (cl_inject _ _ Hc), Hinj in Eb. simpl in Eb. by apply negb_false_iff.
  - intros _ lg [Hlg Hcf]. apply (running_record (Some d) lg (LSend _)); [done|done|].
    intros dest' v [= _ <-]. right. by exists d.
Qed.

Lemma triple_set_timer dec id ms cb :
  triple (running dec) (set_timer (E := LogEnv) (X := log_exn) id ms cb) (λ _, running dec).
Proof.
  intros lg Hlg. simpl. unfold log_get, mbind, act_bind.
  destruct (lg_timer lg) as [[id' cb']|]; [case_decide|]; try (by eapply running_same).
  split; [by eapply running_ended|done].
Qed.

Lemma triple_cancel_timer dec id :
  triple (running dec) (cancel_timer (E := LogEnv) (X := log_exn) id) (λ _, running dec).
Proof.
  intros lg Hlg. simpl. unfold log_get, mbind, act_bind.
  destruct (lg_timer lg) as [[id' cb']|]; [case_decide|]; (done || by eapply running_same).
Qed.

Lemma triple_broadcast c d :
  decision_ c = Some d →
  triple (running (Some d)) (broadcast_decision c) (λ c' lg, c' = set_phase c CollectingAcks ∧ running (Some d) lg).
Proof.
  intros Hd. unfold broadcast_decision. rewrite Hd.
  eapply triple_bind; [apply triple_for_each; intros; apply triple_decision|]. intros [].
  eapply triple_bind; [apply triple_set_timer|]. intros []. by apply triple_ret.
Qed.

(** A coordinator between two calls. *)
Definition coordinator_inv c lg : Prop := coordinator_ok n c votes_in ∧ running (decision_ c) lg.

Definition coordinator_post (r : bool * Coordinator) : LogEnv → Prop := coordinator_inv r.2.

Lemma triple_keep c b : triple (coordinator_inv c) (mret (b, c)) coordinator_post.
Proof. by apply triple_ret. Qed.

Lemma triple_decide c y d :
  phase_ c = CollectingVotes → (y = true → all_yes_ c = true) →
  (d = Commit → ∀ i, (1 ≤ i ≤ n)%N → (kCoordinator, VoteMsg i Yes) ∈ votes_in) →
  triple (coordinator_inv c) (c' ← broadcast_decision (set_decision c y d); mret (true, c'))
    coordinator_post.
Proof.
  intros Hph Hy Hd lg [Hc Hlg]. rewrite (co_undecided _ _ _ Hc Hph) in Hlg.
  eapply (triple_bind _ _ _ _ _ _ (triple_broadcast (set_decision c y d) d eq_refl));
    [|by apply running_decide].
  intros c'. apply triple_ret. intros lg' [-> Hlg']. split; [|done]. simpl.
  pose proof (decided_ok n c votes_in y d [] Hc Hph Hy Hd) as Hok. by rewrite app_nil_r in Hok.
Qed.

Lemma triple_receive_vote c from vote :
  phase_ c = CollectingVotes → (kCoordinator, VoteMsg from vote) ∈ votes_in → (1 ≤ from)%N →
  vote_seen_ c !! N.to_nat from = Some false →
  triple (coordinator_inv c) (receive_vote c from vote) coordinator_post.
Proof.
  intros Hph Hin Hpos Hseen lg [Hc Hlg].
  pose proof (note_vote_ok n c votes_in from vote Hc Hph Hin Hpos Hseen) as Hc1.
  unfold receive_vote. set (c1 := note_vote c from _) in *.
  assert (coordinator_inv c1 lg) as Hinv1 by (by split).
  destruct (decide (vote = No ∧ _)); [by split; [eapply running_ended|]|].
  destruct (decide (votes_received_ c1 < num_participants_ c1)%N) as [|Hall]; [done|].
  apply (triple_bind _ (coordinator_inv c1) _ _ (λ _, coordinator_inv c1)); [| |done].
  - eapply triple_conseq; [apply (triple_cancel_timer (decision_ c1))| |].
    + by intros lg' [_ ?].
    + intros [] lg' Hlg'. by split.
  - intros []. apply triple_decide; [done|done|]. destruct (all_yes_ c1) eqn:Hy; [intros _|done].
    apply (all_votes_in n c1); [done| |done]. rewrite (co_participants _ _ _ Hc1) in Hall. lia.
Qed.

Lemma triple_receive_ack c from :
  phase_ c = CollectingAcks → triple (coordinator_inv c) (receive_ack c from) coordinator_post.
Proof.
  intros Hph lg [Hc Hlg].
  assert (∀ ph, ph ≠ CollectingVotes → coordinator_ok n (set_phase (note_ack c from) ph) votes_in)
    as Hc1 by (intros ph Hne; destruct Hc; split; simpl; try done; by rewrite length_insert).
  unfold receive_ack. destruct (decide _).
  - split; [|done]. specialize (Hc1 CollectingAcks ltac:(done)). destruct Hc1; split; simpl in *; try done. congruence.
  - apply (triple_bind _ (running (decision_ c)) _ _ (λ _, running (decision_ c))); [|intros []|done].
    + apply triple_cancel_timer.
    + apply triple_ret. intros lg' Hlg'. split; [by apply Hc1|done].
Qed.

Lemma triple_coordinator_receive c v msg :
  Observed v ∈ T → decode_message v = Ok msg →
  triple (coordinator_inv c) (coordinator_receive c msg) coordinator_post.
Proof.
  intros Hv Hd. unfold coordinator_receive. destruct (phase_ c) eqn:Hph; [| |apply triple_keep].
  - destruct msg as [|from vote|d|from]; try apply triple_keep.
    destruct (is_valid_participant c from) eqn:Hvalid; [|apply triple_keep].
    apply andb_true_iff in Hvalid as [Hlo%N.leb_le _].
    intros lg Hlg. unfold seen_at, mbind, act_bind.
    destruct (vote_seen_ c !! N.to_nat from) as [[]|] eqn:Hseen; [done| |split; [by eapply running_ended, Hlg|done]].
    apply triple_receive_vote; [done| |done|done|done]. apply votes_in_elem. split; [done|]. by exists v, from, vote.
  - destruct msg as [|from vote|d|from]; try apply triple_keep.
    destruct (is_valid_participant c from); [|apply triple_keep].
    intros lg Hlg. unfold seen_at, mbind, act_bind.
    destruct (ack_seen_ c !! N.to_nat from) as [[]|]; [done| |split; [by eapply running_ended, Hlg|done]].
    by apply triple_receive_ack.
Qed.

Lemma triple_coordinator_timer c cb :
  triple (coordinator_inv c) (coordinator_timer cb c) coordinator_post.
Proof.
  destruct cb; simpl.
  - unfold on_vote_timeout. destruct (decide _) as [|Hph]; [apply triple_keep|].
    apply dec_stable in Hph. by apply triple_decide.
  - unfold on_ack_timeout. destruct (decide _) as [|Hph]; [apply triple_keep|]. apply triple_ret.
    intros lg [Hc Hlg]. split; [|done]. destruct Hc. by split.
  - apply triple_throw; [|done]. intros lg [_ Hlg]. by eapply running_ended.
Qed.

Lemma triple_coordinator_start bug :
  triple (λ lg, lg = MkLogEnv T [] None inj false) (coordinator_start (new_coordinator n bug))
    coordinator_post.
Proof.
  unfold coordinator_start.
  apply (triple_bind _ _ _ _ (λ _, running None)).
  { eapply triple_conseq; [apply triple_for_each; intros; apply (triple_prepare None)| |done].
    intros lg ->. split; [|done]. split; try done. by intros v [dest ?%not_elem_of_nil]. }
  intros _. eapply triple_bind; [apply triple_set_timer|]. intros []. apply triple_ret. intros lg Hlg.
  split; [|done]. apply started_ok. by intros dest d (_ & v & i & w & ? & _)%votes_in_elem.
Qed.

(** Every run of a coordinator. *)
Lemma coordinator_run bug :
  (∃ dec lg, lg_log lg = (log_run (new_coordinator n bug) T inj).2 ∧ coordinator_log dec lg) ∧
  match (log_run (new_coordinator n bug) T inj).1 with Throw e => error_label e | Ok _ => True end.
Proof.
  destruct (triple_run coordinator_ended T coordinator_inv) with (obj := new_coordinator n bug) (crashes := inj)
    as [(lg & Hlog & dec & Hlg) He].
  - intros c lg [_ Hlg]. by eapply running_ended.
  - intros c lg o [_ [Hlg _]]. by apply Hlg.
  - intros c lg [Hc Hlg]. split; [done|]. unfold wait_label.
    destruct (lg_timer lg); (apply running_record; [done|done|by intros dest v]).
  - intros c lg [Hc Hlg]. split; [done|]. unfold next_answer.
    destruct (lg_answers lg) as [|a answers] eqn:Ea; [done|].
    eapply running_same; [done| |done..]. simpl. rewrite Ea. set_solver.
  - intros c lg [Hc Hlg]. split; [done|]. by eapply running_same.
  - intros c v msg. apply triple_coordinator_receive.
  - apply triple_coordinator_timer.
  - apply triple_coordinator_start.
  - split; [by exists dec, lg|done].
Qed.

End coordinator.

(** ** Participants *)

Section participant.
Context (pid : ParticipantId) (T : ThreadTrace SimValue).
Implicit Types (p : Participant) (lg : LogEnv) (asked : bool).

Definition vote_label : NondeterministicChoiceLabel SimValue :=
  MkNdLabel (MkSimValue 0) [vote_choice Yes; vote_choice No].

(** The thread was given the vote [vote]. *)
Definition given (vote : Vote) : Prop := ∃ w, Observed w ∈ T ∧ decode_vote_choice w = Ok vote.

(** What the log of a participant that has asked for its vote, or not, holds. *)
Record participant_log asked lg : Prop := {
  pl_answers : ∀ o, o ∈ lg_answers lg → o ∈ T;
  pl_sends : ∀ v, sends (lg_log lg) v → v = encode_message (Ack pid) ∨
    ∃ vote, v = encode_message (VoteMsg pid vote) ∧ given vote;
  pl_choices : nd_labels (lg_log lg) = if asked then [vote_label] else [];
}.

Definition participant_ended lg : Prop := ∃ asked, participant_log asked lg.

Abbreviation triple := (triple participant_ended).

Lemma participant_log_same asked lg lg' :
  participant_log asked lg → (∀ o, o ∈ lg_answers lg' → o ∈ lg_answers lg) → lg_log lg' = lg_log lg →
  participant_log asked lg'.
Proof. intros [Ha Hs Hc] Hans Hlog. split; rewrite ?Hlog; auto. Qed.

Lemma participant_log_record asked lg l :
  participant_log asked lg → (∀ nd, l ≠ LNd nd) →
  (∀ dest v, l = LSend (MkSendLabel dest v) → v = encode_message (Ack pid) ∨
     ∃ vote, v = encode_message (VoteMsg pid vote) ∧ given vote) →
  participant_log asked (record l lg).2.
Proof.
  intros [Ha Hs Hc] Hnd Hl. split; simpl; try done.
  - intros v [?|(dest & ->)]%sends_snoc; [by apply Hs|by eapply Hl].
  - rewrite nd_labels_snoc, Hc. destruct l as [| |nd| |]; try (by rewrite app_nil_r). by destruct (Hnd nd).
Qed.

(** A message of a participant is no decision, so that no crash is injected. *)
Lemma triple_message asked dest msg :
  is_decision_msg msg = false →
  (encode_message msg = encode_message (Ack pid) ∨
     ∃ vote, encode_message msg = encode_message (VoteMsg pid vote) ∧ given vote) →
  triple (participant_log asked) (send (E := LogEnv) (X := log_exn) dest msg) (λ _, participant_log asked).
Proof.
  intros Hno Hmsg lg Hlg. simpl. unfold log_send, log_get, mbind, act_bind. rewrite Hno, andb_false_r. simpl.
  apply (participant_log_record asked lg (LSend _)); [done|done|]. by intros dest' v [= _ <-].
Qed.

Lemma triple_get_vote :
  triple (participant_log false) (get_vote (E := LogEnv) (X := log_exn))
    (λ vote lg, participant_log true lg ∧ given vote).
Proof.
  intros lg [Ha Hs Hc]. simpl. unfold log_choice, record, next_answer, mbind, act_bind. simpl.
  assert (∀ answers, (∀ o, o ∈ answers → o ∈ lg_answers lg) → participant_log true
    (MkLogEnv answers (lg_log lg ++ [LNd vote_label]) (lg_timer lg) (lg_inject lg) (lg_injected lg))) as Htaken.
  { intros answers Hans. split; simpl; [auto| |by rewrite nd_labels_snoc, Hc].
    by intros v [?|(dest & ?)]%sends_snoc; [apply Hs|]. }
  destruct (lg_answers lg) as [|[v|] answers] eqn:Ea; simpl.
  - split; [by exists true; apply Htaken|done].
  - unfold log_lift. destruct (decode_vote_choice v) as [vote|e] eqn:Hd; simpl.
    + split; [apply Htaken; set_solver|]. exists v. split; [|done]. apply Ha. by left.
    + split; [exists true; apply Htaken; set_solver|done].
  - split; [exists true; apply Htaken; set_solver|done].
Qed.

(** A participant between two calls. *)
Definition participant_inv p lg : Prop :=
  id_ p = pid ∧ participant_log (bool_decide (state_ p ≠ WaitPrepare)) lg.

Definition participant_post (r : bool * Participant) : LogEnv → Prop := participant_inv r.2.

Lemma triple_participant_receive p msg :
  triple (participant_inv p) (participant_receive p msg) participant_post.
Proof.
  assert (∀ b, triple (participant_inv p) (mret (b, p)) participant_post) as Hkeep by (intros b; by apply triple_ret).
  assert (∀ asked id ms cb, triple (participant_log asked) (set_timer (E := LogEnv) (X := log_exn) id ms cb)
    (λ _, participant_log asked)) as Hset.
  { intros asked id ms cb lg Hlg. simpl. unfold log_get, mbind, act_bind.
    destruct (lg_timer lg) as [[id' cb']|]; [case_decide|]; try (by eapply participant_log_same).
    split; [by exists asked|done]. }
  assert (∀ asked id, triple (participant_log asked) (cancel_timer (E := LogEnv) (X := log_exn) id)
    (λ _, participant_log asked)) as Hcancel.
  { intros asked id lg Hlg. simpl. unfold log_get, mbind, act_bind.
    destruct (lg_timer lg) as [[id' cb']|]; [case_decide|]; (done || by eapply participant_log_same). }
  unfold participant_receive. destruct (state_ p) eqn:Hst, msg as [|from vote|d|from]; try apply Hkeep.
  - intros lg [Hid Hlg]. rewrite Hst, bool_decide_eq_false_2 in Hlg by naive_solver.
    eapply (triple_bind _ _ _ _ _ _ triple_get_vote); [|exact Hlg]. intros vote lg1 [Hlg1 Hvote].
    eapply (triple_bind _ (participant_log true)); [|intros []|exact Hlg1].
    + apply triple_message; [done|]. right. exists vote. by rewrite Hid.
    + eapply triple_bind; [apply Hset|]. intros []. apply triple_ret. intros lg2 Hlg2. by split.
  - intros lg [Hid Hlg]. rewrite Hst, bool_decide_eq_true_2 in Hlg by done.
    eapply (triple_bind _ (participant_log true)); [apply Hcancel|intros []|exact Hlg].
    eapply triple_bind; [apply (triple_message true); [done|left; by rewrite Hid]|]. intros [].
    apply triple_ret. intros lg2 Hlg2. by split.
Qed.

Lemma triple_participant_timer p cb :
  triple (participant_inv p) (participant_timer cb p) participant_post.
Proof.
  assert (∀ lg, participant_inv p lg → participant_ended lg) as Hend by (intros lg [_ Hlg]; by eexists).
  destruct cb; simpl; try (by apply triple_throw). unfold on_decision_timeout.
  destruct (decide _) as [|Hst]; [by apply triple_ret|]. apply dec_stable in Hst. apply triple_ret.
  intros lg [Hid Hlg]. split; [done|]. rewrite Hst in Hlg. done.
Qed.

(** Every run of a participant. *)
Lemma participant_run :
  (∃ asked lg, lg_log lg = (log_run (new_participant pid) T false).2 ∧ participant_log asked lg) ∧
  match (log_run (new_participant pid) T false).1 with Throw e => error_label e | Ok _ => True end.
Proof.
  destruct (triple_run participant_ended T participant_inv) with (obj := new_participant pid) (crashes := false)
    as [(lg & Hlog & asked & Hlg) He].
  - intros p lg [_ Hlg]. by eexists.
  - intros p lg o [_ Hlg]. by apply Hlg.
  - intros p lg [Hid Hlg]. split; [done|]. unfold wait_label.
    destruct (lg_timer lg); (apply participant_log_record; [done|done|by intros dest v]).
  - intros p lg [Hid Hlg]. split; [done|]. unfold next_answer.
    destruct (lg_answers lg) as [|a answers] eqn:Ea; [done|].
    eapply participant_log_same; [done| |done]. simpl. rewrite Ea. set_solver.
  - intros p lg [Hid Hlg]. split; [done|]. by eapply participant_log_same.
  - intros p v msg _ _. apply triple_participant_receive.
  - apply triple_participant_timer.
  - apply triple_ret. intros lg ->. split; [done|]. split; try done. by intros v [dest ?%not_elem_of_nil].
  - split; [by exists asked, lg|done].
Qed.

End participant.
