(* ===== verification/SimulationSafety.v ===== *)
(** * SimulationSafety: the simulated protocol is safe in every execution

    Executions of the model checker that follow the program of the simulation, with any
    number of participants: the participants that are told a decision are told the same
    one, a commit is told only when every participant chose to vote Yes, and nothing is told
    after the coordinator chose to crash ([follows_safe]). *)

From stdpp Require Import base tactics numbers sets list strings.
From S2P Require Import Prelude Errors Event Relation ExecutionGraph StorageFacts.
From S2P Require Import ExecutionGraphFacts ExplorationFacts Queries Program Conformance Runs.
From S2P Require Import TwoPhase Bridge Simulation BridgeFacts Replay ReplayFacts.
From S2P Require Import SimulationFacts.
From S2P Require Import SteadyRuns Network SimulationLogs.

(** ** The specification *)

Section specification.
Context (es : list (Event SimValue)) (rf : ReadsFromRelation).

(** A receive of participant [pid] observes the decision [d]. *)
Definition told (pid : ParticipantId) (d : DecisionValue) : Prop :=
  ∃ a e v, es !! a = Some e ∧ thread e = participant_to_thread pid ∧ is_receive e = true ∧
    observation es rf a = Some (Observed v) ∧ decode_message v = Ok (DecisionMsg d).

(** Node [pid] makes a choice, and it is [v]. *)
Definition chose (pid : ParticipantId) (v : SimValue) : Prop :=
  ∃ a e nd, es !! a = Some e ∧ thread e = participant_to_thread pid ∧ label e = LNd nd ∧ nd_value nd = v.

(** What the protocol promises of an execution with [n] participants. *)
Record safe_execution (n : N) : Prop := {
  sx_agreement : ∀ p q d d', told p d → told q d' → d = d';
  sx_validity : ∀ p q, told p Commit → (1 ≤ q ≤ n)%N →
    chose q (vote_choice Yes) ∧ ∀ v, chose q v → v = vote_choice Yes;
  sx_silence : ∀ p d, chose kCoordinator (crash_choice true) → ¬ told p d;
}.

End specification.

(** ** Events and the runs of their threads *)

Section execution.
Context (options : Options) (Hfit : (num_participants options < kMaxThreadId)%N).
Context (es : list (Event SimValue)) (rf : ReadsFromRelation).
Hypothesis Hf : Conformance.follows (make_program options) es rf.
Implicit Types (t : ThreadId) (e : Event SimValue) (v : SimValue) (i : ParticipantId).

Abbreviation n := (num_participants options).
Abbreviation position id t := (length (thread_ids (take id es) t)).

(** The position of an event in its thread. *)
Lemma thread_position id e t :
  es !! id = Some e → thread e = t → thread_ids es t !! position id t = Some id.
Proof.
  intros He <-. destruct (thread_ids_take es id e He) as [more ->].
  by rewrite lookup_app_r, Nat.sub_diag by lia.
Qed.

(** A thread observed by then a prefix of what it observes. *)
Lemma trace_before id t :
  ∃ more, trace_of es rf t = omap (observation es rf) (thread_ids (take id es) t) ++ more.
Proof.
  destruct (thread_ids_prefix (take id es) (drop id es) t) as [more Hmore]. rewrite take_drop in Hmore.
  unfold trace_of. rewrite Hmore, omap_app. by eexists.
Qed.

(** The events of a thread are the operations of one run of its object. *)
Lemma event_logged {Obj} `{Steady Obj} (obj : Obj) crashes f id e :
  tm_at (threads (make_program options)) (thread e) = Ok f →
  (∀ trace step, f trace step = nth_label (log_run obj trace crashes) step) →
  (∀ trace, match (log_run obj trace crashes).1 with Throw x => error_label x | Ok _ => True end) →
  es !! id = Some e →
  (∃ w, label e = LError w) ∨
  ∃ l0, (log_run obj (trace_of es rf (thread e)) crashes).2 !! position id (thread e) = Some l0 ∧
    produced l0 (label e).
Proof.
  intros Hat Hfun Herr He. destruct (Hf id e He) as [(f' & l0 & Hf' & Hcall & Hl) _].
  rewrite Hat in Hf'. injection Hf' as <-. rewrite Hfun in Hcall. unfold nth_label in Hcall.
  destruct (trace_before id (thread e)) as [more Hmore].
  set (past := omap (observation es rf) (thread_ids (take id es) (thread e))) in *.
  destruct ((log_run obj past crashes).2 !! _) as [l1|] eqn:El.
  - injection Hcall as ->. right. exists l0. split; [|done]. rewrite Hmore.
    eapply prefix_lookup_Some; [exact El|apply log_run_prefix].
  - left. specialize (Herr past). destruct ((log_run obj past crashes).1) as [[]|[| |l1| |]]; try done.
    injection Hcall as ->. destruct Herr as [w ->]. exists w. by simpl in Hl.
Qed.

(** *** The threads of the program *)

Lemma coordinator_thread : participant_to_thread kCoordinator = 1%N.
Proof. done. Qed.

Lemma participant_thread i : (1 ≤ i ≤ n)%N → participant_to_thread i = (i + 1)%N.
Proof.
  intros Hi. rewrite <-(N2Nat.id i). rewrite thread_of_nat; [lia|]. rewrite N2Nat.id.
  revert Hfit. generalize kMaxThreadId. lia.
Qed.

Lemma coordinator_at :
  tm_at (threads (make_program options)) 1 = Ok (make_coordinator_function options).
Proof. unfold tm_at. by rewrite (proj1 (program_entries options Hfit)). Qed.

Lemma participant_at i :
  (1 ≤ i ≤ n)%N → tm_at (threads (make_program options)) (i + 1) = Ok (make_participant_function i).
Proof.
  intros Hi. unfold tm_at. rewrite (proj1 (program_entries options Hfit)).
  replace (N.to_nat (i + 1)) with (S (S (pred (N.to_nat i)))) by lia. simpl.
  rewrite list_lookup_fmap, list_lookup_fmap, lookup_seq_lt by lia. simpl. do 2 f_equal. lia.
Qed.

Lemma thread_kinds id e :
  es !! id = Some e → thread e = 1%N ∨ ∃ i, (1 ≤ i ≤ n)%N ∧ thread e = (i + 1)%N.
Proof.
  intros He. destruct (Hf id e He) as [(f & l0 & Hat & _) _]. unfold tm_at in Hat.
  rewrite (proj1 (program_entries options Hfit)) in Hat. destruct (N.to_nat (thread e)) as [|[|k]] eqn:Ek.
  - done.
  - left. lia.
  - right. simpl in Hat. rewrite list_lookup_fmap, list_lookup_fmap in Hat.
    destruct (seq 1 (N.to_nat n) !! k) as [j|] eqn:Ej; [|done]. apply lookup_seq in Ej as [-> Hk].
    exists (N.of_nat (S k)). split; lia.
Qed.

(** The logs of the threads. *)
Definition coordinator_operations : list (EventLabel SimValue) :=
  (log_run (new_coordinator n (bug_on_p1_no options)) (trace_of es rf 1) (inject_crash options)).2.

Definition participant_operations i : list (EventLabel SimValue) :=
  (log_run (new_participant i) (trace_of es rf (i + 1)) false).2.

Lemma coordinator_event id e :
  es !! id = Some e → thread e = 1%N →
  (∃ w, label e = LError w) ∨
  ∃ l0, coordinator_operations !! position id 1%N = Some l0 ∧ produced l0 (label e).
Proof.
  intros He Ht. rewrite <-Ht. unfold coordinator_operations. rewrite <-Ht.
  apply (event_logged (new_coordinator n (bug_on_p1_no options)) (inject_crash options)
    (make_coordinator_function options)); [rewrite Ht; apply coordinator_at| | |done].
  - intros trace step. unfold make_coordinator_function. by rewrite run_and_capture_indexes.
  - intros trace. apply coordinator_run.
Qed.

Lemma participant_event id e i :
  es !! id = Some e → (1 ≤ i ≤ n)%N → thread e = (i + 1)%N →
  (∃ w, label e = LError w) ∨
  ∃ l0, participant_operations i !! position id (i + 1)%N = Some l0 ∧ produced l0 (label e).
Proof.
  intros He Hi Ht. unfold participant_operations. rewrite <-Ht.
  apply (event_logged (new_participant i) false (make_participant_function i));
    [rewrite Ht; by apply participant_at| | |done].
  - intros trace step. unfold make_participant_function. by rewrite run_and_capture_indexes.
  - intros trace. apply participant_run.
Qed.

(** *** Messages and observations *)

(** Who sent a value. *)
Lemma sent_by id e sl :
  es !! id = Some e → label e = LSend sl →
  sends coordinator_operations (value sl) ∨
  ∃ i, (1 ≤ i ≤ n)%N ∧ sends (participant_operations i) (value sl).
Proof.
  intros He Hl. destruct (thread_kinds id e He) as [Ht|(i & Hi & Ht)].
  - left. destruct (coordinator_event id e He Ht) as [[w ?]|(l0 & Hl0 & Hp)]; [congruence|].
    rewrite Hl in Hp. apply produced_inv in Hp as ->. exists (destination sl). destruct sl.
    by eapply list_elem_of_lookup_2.
  - right. exists i. split; [done|]. destruct (participant_event id e i He Hi Ht) as [[w ?]|(l0 & Hl0 & Hp)];
      [congruence|]. rewrite Hl in Hp. apply produced_inv in Hp as ->. exists (destination sl). destruct sl.
    by eapply list_elem_of_lookup_2.
Qed.

(** The ids of the participants fit the payload. *)
Lemma id_fits i : (i ≤ n)%N → (i < 2 ^ 56)%N.
Proof. intros Hi. eapply N.le_lt_trans; [exact Hi|]. eapply N.lt_trans; [exact Hfit|]. done. Qed.

(** Where an observation comes from. *)
Lemma observed_from t v :
  Observed v ∈ trace_of es rf t →
  ∃ a e, es !! a = Some e ∧ thread e = t ∧
    ((∃ nd, label e = LNd nd ∧ nd_value nd = v) ∨
     ∃ s e' sl, es !! s = Some e' ∧ label e' = LSend sl ∧ value sl = v).
Proof.
  intros (a & Ha & Ho)%list_elem_of_omap. apply thread_ids_elem in Ha as (e & He & Ht). exists a, e.
  split_and!; [done|done|]. unfold observation in Ho. rewrite He in Ho. simpl in Ho.
  destruct (label e) as [r| |nd| |]; try done.
  - right. destruct (rf_find rf a) as [src|]; [|done]. simpl in Ho. destruct (rf_send src) as [s|]; [|done].
    destruct (es !! s) as [e'|] eqn:Hs; [|done]. simpl in Ho. unfold as_send in Ho.
    destruct (label e') as [|sl| | |] eqn:Hl; try done. simpl in Ho. injection Ho as <-. by exists s, e', sl.
  - left. injection Ho as <-. by exists nd.
Qed.

(** What nodes send are messages, and messages are no choices. *)
Lemma message_no_choice msg :
  (∀ w, decode_vote_choice (encode_message msg) ≠ Ok w) ∧ (∀ b, decode_crash_choice (encode_message msg) ≠ Ok b).
Proof.
  split; intros w; unfold decode_vote_choice, decode_crash_choice; destruct msg; cbn [encode_message];
    unfold vote_message, ack_message, decision_message, prepare_message; rewrite tag_of_make; by repeat case_decide.
Qed.

Lemma sent_message id e sl :
  es !! id = Some e → label e = LSend sl → ∃ msg, value sl = encode_message msg.
Proof.
  intros He Hl. destruct (sent_by id e sl He Hl) as [Hs|(i & _ & Hs)].
  - destruct (coordinator_run n (inject_crash options) (trace_of es rf 1) (bug_on_p1_no options))
      as [(dec & lg & Hlog & Hlg) _]. fold coordinator_operations in Hlog. rewrite <-Hlog in Hs.
    destruct (cl_sends _ _ _ _ _ Hlg _ Hs) as [->|(d & -> & _)]; by eexists.
  - destruct (participant_run i (trace_of es rf (i + 1))) as [(asked & lg & Hlog & Hlg) _].
    fold (participant_operations i) in Hlog. rewrite <-Hlog in Hs.
    destruct (pl_sends _ _ _ _ Hlg _ Hs) as [->|(vote & -> & _)]; by eexists.
Qed.

(** ** Safety *)

(** A decision that is told was sent by the coordinator. *)
Lemma told_sent p d : told es rf p d → sends coordinator_operations (encode_message (DecisionMsg d)).
Proof.
  intros (a & e & v & He & _ & Hr & Ho & Hd).
  assert (∃ s e' sl, es !! s = Some e' ∧ label e' = LSend sl ∧ value sl = v) as (s & e' & sl & He' & Hl & <-).
  { unfold observation in Ho. rewrite He in Ho. simpl in Ho. unfold is_receive in Hr.
    destruct (label e) as [r| | | |]; try done. destruct (rf_find rf a) as [src|]; [|done]. simpl in Ho.
    destruct (rf_send src) as [s|]; [|done]. destruct (es !! s) as [e'|] eqn:Hs; [|done]. simpl in Ho.
    unfold as_send in Ho. destruct (label e') as [|sl| | |] eqn:Hl; try done. simpl in Ho. injection Ho as <-.
    by exists s, e', sl. }
  destruct (sent_by s e' sl He' Hl) as [Hs|(i & _ & Hs)].
  - destruct (coordinator_run n (inject_crash options) (trace_of es rf 1) (bug_on_p1_no options))
      as [(dec & lg & Hlog & Hlg) _]. fold coordinator_operations in Hlog. pose proof Hs as Hs'. rewrite <-Hlog in Hs'.
    destruct (cl_sends _ _ _ _ _ Hlg _ Hs') as [Hv|(d' & Hv & _)]; rewrite Hv in *; rewrite decode_encode in Hd;
      simpl in Hd; [done|]. by injection Hd as ->.
  - destruct (participant_run i (trace_of es rf (i + 1))) as [(asked & lg & Hlog & Hlg) _].
    fold (participant_operations i) in Hlog. rewrite <-Hlog in Hs.
    destruct (pl_sends _ _ _ _ Hlg _ Hs) as [Hv|(vote & Hv & _)]; rewrite Hv, decode_encode in Hd; done.
Qed.

(** A node whose run asks for one choice makes one choice, among those it was offered. *)
Lemma lone_choice i t log nd0 v v' :
  participant_to_thread i = t → nd_labels log = [nd0] ∨ nd_labels log = [] → choices nd0 ≠ [] →
  (∀ id e, es !! id = Some e → thread e = t →
     (∃ w, label e = LError w) ∨ ∃ l0, log !! position id t = Some l0 ∧ produced l0 (label e)) →
  chose es i v → chose es i v' → nd_labels log = [nd0] ∧ v ∈ choices nd0 ∧ v = v'.
Proof.
  intros <- Hnd Hne Hlog (id & e & nd & He & Ht & Hl & Hv) (id' & e' & nd' & He' & Ht' & Hl' & Hv').
  destruct (Hlog id e He Ht) as [[w ?]|(l0 & Hl0 & Hp)]; [congruence|].
  destruct (Hlog id' e' He' Ht') as [[w ?]|(l1 & Hl1 & Hp')]; [congruence|].
  rewrite Hl in Hp. apply produced_inv in Hp as (nd1 & -> & Hch).
  rewrite Hl' in Hp'. apply produced_inv in Hp' as (nd1' & -> & _).
  destruct Hnd as [Hnd|Hnd]; [|by destruct (nd_labels_none _ _ _ Hnd Hl0)].
  destruct (nd_labels_unique _ _ _ _ _ _ Hnd Hl0 Hl1) as [Heq ->].
  pose proof (thread_position id e _ He Ht) as Hid. rewrite Heq, (thread_position id' e' _ He' Ht') in Hid.
  injection Hid as ->. rewrite He in He'. injection He' as <-. rewrite Hl in Hl'. injection Hl' as <-.
  split_and!; [done| |congruence]. rewrite <-Hv. naive_solver.
Qed.

(** The coordinator chooses only when crashes are injected, and once, whether to crash. *)
Lemma coordinator_choice v v' :
  chose es kCoordinator v → chose es kCoordinator v' →
  inject_crash options = true ∧ (∃ b, v = crash_choice b) ∧ v = v'.
Proof.
  intros Hv Hv'. destruct (coordinator_run n (inject_crash options) (trace_of es rf 1) (bug_on_p1_no options))
    as [(dec & lg & Hlog & Hlg) _]. fold coordinator_operations in Hlog.
  pose proof (cl_choices _ _ _ _ _ Hlg) as Hnd. rewrite Hlog in Hnd.
  destruct (lone_choice kCoordinator 1%N coordinator_operations crash_label v v') as (Hone & Hin & Heq);
    [done|destruct (lg_injected lg); auto|done|intros; by apply coordinator_event|done..|].
  split_and!; [|set_unfold in Hin; naive_solver|done]. rewrite Hone in Hnd.
  destruct (lg_injected lg) eqn:Hinj; [by eapply cl_injected|done].
Qed.

(** A participant chooses its vote, once. *)
Lemma participant_choice i v v' :
  (1 ≤ i ≤ n)%N → chose es i v → chose es i v' → (∃ vote, v = vote_choice vote) ∧ v = v'.
Proof.
  intros Hi Hv Hv'. destruct (participant_run i (trace_of es rf (i + 1))) as [(asked & lg & Hlog & Hlg) _].
  fold (participant_operations i) in Hlog. pose proof (pl_choices _ _ _ _ Hlg) as Hnd. rewrite Hlog in Hnd.
  destruct (lone_choice i (i + 1)%N (participant_operations i) vote_label v v') as (_ & Hin & Heq);
    [by apply participant_thread|destruct asked; auto|done|intros; by apply participant_event|done..|].
  split; [set_unfold in Hin; naive_solver|done].
Qed.

(** A value that is no message was chosen by the thread that observes it. *)
Lemma observed_choice i v :
  Observed v ∈ trace_of es rf (participant_to_thread i) → (∀ msg, v ≠ encode_message msg) → chose es i v.
Proof.
  intros Hv Hmsg. destruct (observed_from _ v Hv) as (a & e & He & Ht & [(nd & Hl & Hnd)|(s & e' & sl & He' & Hl & <-)]).
  - by exists a, e, nd.
  - destruct (sent_message s e' sl He' Hl) as [msg Hm]. by destruct (Hmsg msg).
Qed.

(** A participant that sent a Yes chose Yes, and nothing else. *)
Lemma voted_yes i :
  (1 ≤ i ≤ n)%N → sends (participant_operations i) (encode_message (VoteMsg i Yes)) →
  chose es i (vote_choice Yes) ∧ ∀ v, chose es i v → v = vote_choice Yes.
Proof.
  intros Hi Hs. destruct (participant_run i (trace_of es rf (i + 1))) as [(asked & lg & Hlog & Hlg) _].
  fold (participant_operations i) in Hlog. rewrite <-Hlog in Hs.
  assert (given (trace_of es rf (i + 1)) Yes) as (w & Hw & Hd).
  { destruct (pl_sends _ _ _ _ Hlg _ Hs) as [Hv|(vote & Hv & Hg)];
      apply (f_equal decode_message) in Hv; rewrite !decode_encode in Hv; [done|]. by injection Hv as <-. }
  assert (chose es i w) as Hch.
  { apply observed_choice; [by rewrite participant_thread|]. intros msg ->. by destruct (proj1 (message_no_choice msg) Yes). }
  destruct (participant_choice i w w Hi Hch Hch) as [[vote ->] _].
  assert (vote = Yes) as -> by (by destruct vote).
  split; [done|]. intros v Hv. by destruct (participant_choice i v _ Hi Hv Hch).
Qed.

(** A Yes the coordinator observes was sent by the participant it names. *)
Lemma yes_sent v i :
  (1 ≤ i ≤ n)%N → Observed v ∈ trace_of es rf 1 → decode_message v = Ok (VoteMsg i Yes) →
  sends (participant_operations i) (encode_message (VoteMsg i Yes)).
Proof.
  intros Hi Hv Hd. destruct (observed_from _ v Hv) as (a & e & He & Ht & [(nd & Hl & Hnd)|(s & e' & sl & He' & Hl & <-)]).
  { assert (chose es kCoordinator v) as Hch by (by exists a, e, nd).
    destruct (coordinator_choice v v Hch Hch) as (_ & [[] ->] & _); done. }
  destruct (sent_by s e' sl He' Hl) as [Hs|(j & Hj & Hs)].
  - destruct (coordinator_run n (inject_crash options) (trace_of es rf 1) (bug_on_p1_no options))
      as [(dec & lg & Hlog & Hlg) _]. fold coordinator_operations in Hlog. rewrite <-Hlog in Hs.
    destruct (cl_sends _ _ _ _ _ Hlg _ Hs) as [Hm|(d & Hm & _)]; rewrite Hm, decode_encode in Hd; done.
  - pose proof Hs as Hs'. destruct (participant_run j (trace_of es rf (j + 1))) as [(asked & lg & Hlog & Hlg) _].
    fold (participant_operations j) in Hlog. rewrite <-Hlog in Hs'.
    destruct (pl_sends _ _ _ _ Hlg _ Hs') as [Hm|(vote & Hm & _)]; rewrite Hm in *; rewrite decode_encode in Hd;
      simpl in Hd; [done|]. injection Hd as Hji ->. rewrite kept_payload_small in Hji by apply id_fits, Hj.
    by subst j.
Qed.

(** The executions that follow the program are safe. *)
Lemma follows_safe : safe_execution es rf n.
Proof.
  destruct (coordinator_run n (inject_crash options) (trace_of es rf 1) (bug_on_p1_no options))
    as [(dec & lg & Hlog & Hlg) _]. fold coordinator_operations in Hlog.
  assert (∀ p d, told es rf p d → dec = Some d ∧ (inject_crash options = true → confirmed (trace_of es rf 1))) as Htold.
  { intros p d Hs%told_sent. rewrite <-Hlog in Hs.
    destruct (cl_sends _ _ _ _ _ Hlg _ Hs) as [Hv|(d' & Hv & -> & Hc)]; apply (f_equal decode_message) in Hv;
      rewrite !decode_encode in Hv; [done|]. injection Hv as ->. done. }
  split.
  - intros p q d d' [H1 _]%Htold [H2 _]%Htold. congruence.
  - intros p q [-> _]%Htold Hq. apply voted_yes; [done|].
    pose proof (cl_commit _ _ _ _ _ Hlg eq_refl q Hq) as (_ & v & i & w & [= <- <-] & Hv & Hd)%votes_in_elem.
    by eapply yes_sent.
  - intros p d Hch [_ Hc]%Htold. destruct (coordinator_choice _ _ Hch Hch) as [Hinj _].
    destruct (Hc Hinj) as (w & Hw & Hd).
    assert (chose es kCoordinator w) as Hw'.
    { apply observed_choice; [done|]. intros msg ->. by destruct (proj2 (message_no_choice msg) false). }
    destruct (coordinator_choice _ _ Hch Hw') as (_ & _ & <-). done.
Qed.

End execution.
