(* ===== verification/Udp.v ===== *)
(** * Udp: the protocol over UDP sockets, [examples/two_phase_commit_timeout/udp_network.hpp]

    [UdpEnvironment]: an environment that sends datagrams, keeps timers ordered by
    deadline, and drives a protocol object from one thread with [poll].

    The operating system is a parameter: [Os] gives the answer of the n-th call of each
    system function, and the state counts the calls.  Times are nanoseconds and are not
    bounded.  A [std::multimap] iterator is a handle, fresh at every insertion; the
    containers are a list sorted by deadline and a finite map. *)

From stdpp Require Import base tactics numbers list gmap strings.
From S2P Require Import Prelude Errors TwoPhase.

(** ** The operating system *)

(** [poll] fails, perhaps because of a signal, finds nothing in time, or reports events:
    an error condition, and data to read. *)
Inductive PollAnswer :=
| PollFailed (interrupted : bool)
| PollTimeout
| PollReady (error input : bool).

Inductive RecvAnswer :=
| RecvFailed (interrupted : bool)
| RecvData (data : string).

Record Os := MkOs {
  os_clock : nat → Z;
  os_poll : nat → Z → PollAnswer;
  os_recvfrom : nat → RecvAnswer;
  os_sendto : nat → bool;
  os_coin : nat → bool;
  os_socket : bool;
  os_bind : string * N → bool;
  os_inet_pton : string → bool;
}.

Existing Class Os.

Abbreviation Address := (string * N)%type (only parsing).

(** How often each function was called, and the datagrams sent. *)
Record Calls := MkCalls {
  n_clock : nat;
  n_poll : nat;
  n_recvfrom : nat;
  n_sendto : nat;
  n_coin : nat;
  datagrams : list (Address * string);
}.

Definition no_calls : Calls := MkCalls 0 0 0 0 0 [].

(** ** The environment *)

Record ScheduleEntry := MkEntry {
  se_deadline : Z;
  se_id : TimerId;
  se_handle : nat;
}.

Record ActiveTimer := MkActiveTimer {
  schedule_it : nat;
  callback : TimerCallback;
}.

(** [run_thread_id_] is the thread of the last [run]; [this_thread] the thread that makes
    the calls. *)
Record UdpEnv := MkUdpEnv {
  my_id_ : ParticipantId;
  port_map_ : gmap N Address;
  vote_ : option Vote;
  timer_schedule_ : list ScheduleEntry;
  active_timers_ : gmap N ActiveTimer;
  next_handle : nat;
  ran_ : bool;
  run_active_ : bool;
  run_thread_id_ : nat;
  this_thread : nat;
  calls : Calls;
}.

Abbreviation udp := (act UdpEnv exn).

Definition udp_get : udp UdpEnv := λ env, (Ok env, env).

Definition with_calls (f : Calls → Calls) (env : UdpEnv) : UdpEnv :=
  MkUdpEnv (my_id_ env) (port_map_ env) (vote_ env) (timer_schedule_ env) (active_timers_ env)
    (next_handle env) (ran_ env) (run_active_ env) (run_thread_id_ env) (this_thread env) (f (calls env)).

Definition with_timers (schedule : list ScheduleEntry) (active : gmap N ActiveTimer) (next : nat)
    (env : UdpEnv) : UdpEnv :=
  MkUdpEnv (my_id_ env) (port_map_ env) (vote_ env) schedule active next (ran_ env) (run_active_ env)
    (run_thread_id_ env) (this_thread env) (calls env).

Definition with_run (ran active : bool) (tid : nat) (env : UdpEnv) : UdpEnv :=
  MkUdpEnv (my_id_ env) (port_map_ env) (vote_ env) (timer_schedule_ env) (active_timers_ env)
    (next_handle env) ran active tid (this_thread env) (calls env).

Definition modify (f : UdpEnv → UdpEnv) : udp unit := λ env, (Ok (), f env).

Section udp.
Context (os : Os).

Open Scope string_scope.

(** [std::chrono::steady_clock::now()]. *)
Definition now : udp Z := λ env,
  let c := calls env in
  (Ok (os_clock os (n_clock c)),
   with_calls (λ c, MkCalls (S (n_clock c)) (n_poll c) (n_recvfrom c) (n_sendto c) (n_coin c) (datagrams c)) env).

Definition poll (timeout : Z) : udp PollAnswer := λ env,
  let c := calls env in
  (Ok (os_poll os (n_poll c) timeout),
   with_calls (λ c, MkCalls (n_clock c) (S (n_poll c)) (n_recvfrom c) (n_sendto c) (n_coin c) (datagrams c)) env).

Definition recvfrom : udp RecvAnswer := λ env,
  let c := calls env in
  (Ok (os_recvfrom os (n_recvfrom c)),
   with_calls (λ c, MkCalls (n_clock c) (n_poll c) (S (n_recvfrom c)) (n_sendto c) (n_coin c) (datagrams c)) env).

(** Whether the datagram was sent. *)
Definition sendto (addr : Address) (data : string) : udp bool := λ env,
  let c := calls env in
  let ok := os_sendto os (n_sendto c) in
  (Ok ok,
   with_calls (λ c, MkCalls (n_clock c) (n_poll c) (n_recvfrom c) (S (n_sendto c)) (n_coin c)
                      (if ok then datagrams c ++ [(addr, data)] else datagrams c)) env).

(** [dist(rng)]. *)
Definition coin : udp bool := λ env,
  let c := calls env in
  (Ok (os_coin os (n_coin c)),
   with_calls (λ c, MkCalls (n_clock c) (n_poll c) (n_recvfrom c) (n_sendto c) (S (n_coin c)) (datagrams c)) env).

(** The constructor, called on thread [thread]. *)
Definition new_udp_environment (my_id : ParticipantId) (port_map : gmap N Address) (vote : option Vote)
    (thread : nat) : res UdpEnv :=
  if negb (os_socket os) then Throw (std_exception "socket() failed")
  else
    match port_map !! my_id with
    | None => Throw (std_exception "my_id not found in port_map")
    | Some addr =>
        if negb (os_inet_pton os addr.1) then Throw (std_exception ("invalid address: " +:+ addr.1))
        else if negb (os_bind os addr) then Throw (std_exception "bind() failed")
        else Ok (MkUdpEnv my_id port_map vote [] ∅ 0 false false 0 thread no_calls)
    end.

Definition udp_send (destination : ParticipantId) (msg : Message) : udp unit :=
  env ← udp_get;
  match port_map_ env !! destination with
  | None => throw (std_exception "unknown destination")
  | Some addr =>
      if negb (os_inet_pton os addr.1)
      then throw (std_exception ("invalid destination address: " +:+ addr.1))
      else
        sent ← sendto addr (serialize msg);
        if (sent : bool) then mret () else throw (std_exception "sendto() failed")
  end.

Definition udp_get_vote : udp Vote :=
  env ← udp_get;
  match vote_ env with
  | Some v => mret v
  | None => heads ← coin; mret (if (heads : bool) then Yes else No)
  end.

(** *** Timers *)

Definition require_run_thread (op : string) : udp unit :=
  env ← udp_get;
  if negb (run_active_ env) || negb (bool_decide (this_thread env = run_thread_id_ env)) then
    throw (std_exception ("UdpEnvironment::" +:+ op +:+ " must be called from run() thread"))
  else mret ().

(** [timer_schedule_.erase(schedule_it)]; an iterator that points to no entry is undefined
    behaviour. *)
Definition erase_entry (handle : nat) : udp unit :=
  env ← udp_get;
  if decide (handle ∈ (se_handle <$> timer_schedule_ env)) then
    modify (with_timers (List.filter (λ e, negb (bool_decide (se_handle e = handle))) (timer_schedule_ env))
              (active_timers_ env) (next_handle env))
  else throw undefined_behavior.

(** [active_timers_.erase(id)]. *)
Definition erase_active (id : TimerId) : udp unit :=
  modify (λ env, with_timers (timer_schedule_ env) (delete id (active_timers_ env)) (next_handle env) env).

(** The position of a new entry of a multimap: after the entries that are not later. *)
Fixpoint schedule_insert (e : ScheduleEntry) (schedule : list ScheduleEntry) : list ScheduleEntry :=
  match schedule with
  | [] => [e]
  | e' :: rest => if (se_deadline e' <=? se_deadline e)%Z then e' :: schedule_insert e rest else e :: schedule
  end.

(** [timer_schedule_.emplace(deadline, id)] and [active_timers_.emplace(id, ...)]. *)
Definition emplace_timer (deadline : Z) (id : TimerId) (cb : TimerCallback) : udp unit :=
  modify (λ env,
    with_timers (schedule_insert (MkEntry deadline id (next_handle env)) (timer_schedule_ env))
      (<[id := MkActiveTimer (next_handle env) cb]> (active_timers_ env)) (S (next_handle env)) env).

Definition remove_timer (id : TimerId) : udp unit :=
  env ← udp_get;
  match active_timers_ env !! id with
  | Some timer => _ ← erase_entry (schedule_it timer); erase_active id
  | None => mret ()
  end.

Definition ns_per_ms : Z := 1000000.

Definition udp_set_timer (id : TimerId) (timeout_ms : N) (cb : TimerCallback) : udp unit :=
  _ ← require_run_thread "set_timer";
  t ← now;
  _ ← remove_timer id;
  emplace_timer (t + Z.of_N timeout_ms * ns_per_ms)%Z id cb.

Definition udp_cancel_timer (id : TimerId) : udp unit :=
  _ ← require_run_thread "cancel_timer";
  remove_timer id.

#[export] Instance udp_environment : Environment UdpEnv exn := {|
  send := udp_send;
  get_vote := udp_get_vote;
  set_timer := udp_set_timer;
  cancel_timer := udp_cancel_timer;
|}.

Definition int_max : Z := 2147483647.

Definition compute_next_timeout_ms : udp Z :=
  env ← udp_get;
  match timer_schedule_ env with
  | [] => mret (-1)%Z
  | first :: _ =>
      t ← now;
      let ms := Z.quot (se_deadline first - t) ns_per_ms in
      let count := Z.max ms 0 in
      mret (if (int_max <? count)%Z then int_max else count)
  end.

(** *** The event loop *)

Context {Obj : Type} `{Protocol UdpEnv exn Obj}.

(** The [while (!timer_schedule_.empty())] loop. *)
Fixpoint dispatch_due_timers (fuel : nat) (obj : Obj) : udp (bool * Obj) :=
  match fuel with
  | O => throw nontermination
  | S fuel' =>
      env ← udp_get;
      match timer_schedule_ env with
      | [] => mret (true, obj)
      | first :: _ =>
          t ← now;
          if (t <? se_deadline first)%Z then mret (true, obj)
          else
            match active_timers_ env !! se_id first with
            | None => _ ← erase_entry (se_handle first); dispatch_due_timers fuel' obj
            | Some timer =>
                if decide (schedule_it timer ≠ se_handle first) then
                  _ ← erase_entry (se_handle first); dispatch_due_timers fuel' obj
                else
                  _ ← erase_entry (se_handle first);
                  _ ← erase_active (se_id first);
                  '(more, obj') ← run_timer (callback timer) obj;
                  if (more : bool) then dispatch_due_timers fuel' obj' else mret (false, obj')
            end
      end
  end.

(** [refresh_remaining_timeout]: the time that is left, [None] when none is. *)
Definition refresh_remaining_timeout (start_time timeout_ms remaining_ms : Z) : udp (option Z) :=
  if (timeout_ms <? 0)%Z then mret (Some remaining_ms)
  else
    t ← now;
    let elapsed := Z.quot (t - start_time) ns_per_ms in
    if (timeout_ms <=? elapsed)%Z then mret None
    else
      let remaining := (timeout_ms - elapsed)%Z in
      mret (Some (if (int_max <? remaining)%Z then int_max else remaining)).

(** The [while (true)] loop of [wait_for_message]. *)
Fixpoint wait_loop (fuel : nat) (start_time timeout_ms remaining_ms : Z) : udp (option Message) :=
  match fuel with
  | O => throw nontermination
  | S fuel' =>
      let again :=
        left_ms ← refresh_remaining_timeout start_time timeout_ms remaining_ms;
        match left_ms with
        | None => mret None
        | Some remaining => wait_loop fuel' start_time timeout_ms remaining
        end in
      answer ← poll remaining_ms;
      match answer with
      | PollFailed interrupted =>
          if (interrupted : bool) then again else throw (std_exception "poll() failed")
      | PollTimeout => mret None
      | PollReady error input =>
          if (error : bool) then throw (std_exception "socket poll error")
          else if negb input then again
          else
            received ← recvfrom;
            match received with
            | RecvFailed interrupted =>
                if (interrupted : bool) then again else throw (std_exception "recvfrom() failed")
            | RecvData data =>
                if decide (data = "") then again
                else
                  match deserialize data with
                  | Ok msg => mret (Some msg)
                  | Throw (std_exception _) => again
                  | Throw e => throw e
                  end
            end
      end
  end.

Definition wait_for_message (fuel : nat) (timeout_ms : Z) : udp (option Message) :=
  start_time ← now;
  wait_loop fuel start_time timeout_ms timeout_ms.

(** The [while (needs_message)] loop of [run]. *)
Fixpoint event_loop (fuel : nat) (obj : Obj) : udp Obj :=
  match fuel with
  | O => throw nontermination
  | S fuel' =>
      '(more, obj) ← dispatch_due_timers fuel' obj;
      if negb more then mret obj
      else
        timeout ← compute_next_timeout_ms;
        msg ← wait_for_message fuel' timeout;
        match msg with
        | None => event_loop fuel' obj
        | Some msg =>
            '(more, obj') ← receive obj msg;
            if (more : bool) then event_loop fuel' obj' else mret obj'
        end
  end.

(** [reset_timer_state(); run_active_ = false]. *)
Definition finish_run (env : UdpEnv) : UdpEnv :=
  with_run (ran_ env) false (run_thread_id_ env) (with_timers [] ∅ (next_handle env) env).

Definition run (fuel : nat) (obj : Obj) : udp Obj := λ env,
  if ran_ env then (Throw (std_exception "UdpEnvironment::run() called more than once"), env)
  else
    let '(r, env') :=
      ('(more, obj') ← start obj;
       if (more : bool) then event_loop fuel obj' else mret obj')
        (with_run true true (this_thread env) env) in
    (r, finish_run env').

Close Scope string_scope.

End udp.
