(* ===== verification/UdpFacts.v ===== *)
(** * UdpFacts: a protocol object on UDP behaves as a node of the network

    The timers of [UdpEnvironment] are kept in two containers that refer to each other;
    [env_ok] says they agree, so that no iterator dangles and no scheduled entry is
    stale.  [run] makes a sequence of calls of its object, each of which is a step a node
    of [Network] can make ([run_is_node_run]). *)

From stdpp Require Import base tactics numbers list gmap sorting strings.
From S2P Require Import Prelude Errors TwoPhase Network Udp.

(** ** Timers *)

(** [run] has been called, and the schedule and the active timers agree. *)
Record env_ok (env : UdpEnv) : Prop := {
  to_sorted : StronglySorted (λ a b, se_deadline a ≤ se_deadline b)%Z (timer_schedule_ env);
  to_handles : NoDup (se_handle <$> timer_schedule_ env);
  to_fresh : ∀ e, e ∈ timer_schedule_ env → se_handle e < next_handle env;
  to_active : ∀ id t, active_timers_ env !! id = Some t →
    ∃ e, e ∈ timer_schedule_ env ∧ se_handle e = schedule_it t ∧ se_id e = id;
  to_schedule : ∀ e, e ∈ timer_schedule_ env →
    ∃ cb, active_timers_ env !! se_id e = Some (MkActiveTimer (se_handle e) cb);
  to_ran : ran_ env = true;
}.

Abbreviation without_handle h := (List.filter (λ e, negb (bool_decide (se_handle e = h)))).

Lemma filter_sorted {A} (R : A → A → Prop) (p : A → bool) l :
  StronglySorted R l → StronglySorted R (List.filter p l).
Proof.
  induction 1 as [|a l Hs IH Ha]; simpl; [constructor|]. destruct (p a); [|done].
  constructor; [done|]. rewrite Forall_forall in *. intros x Hx%list_elem_of_In%filter_In.
  apply Ha, list_elem_of_In, Hx.
Qed.

Lemma filter_handles (p : ScheduleEntry → bool) l :
  NoDup (se_handle <$> l) → NoDup (se_handle <$> List.filter p l).
Proof.
  induction l as [|e l IH]; simpl; [done|]. intros Hnd. apply NoDup_cons in Hnd as [Hn Hd].
  destruct (p e); [|auto]. rewrite fmap_cons. apply NoDup_cons. split; [|auto].
  intros (e' & Heq & Hin)%list_elem_of_fmap. apply list_elem_of_In, filter_In in Hin as [Hin _].
  apply Hn, list_elem_of_fmap. exists e'. split; [done|]. by apply list_elem_of_In.
Qed.

Lemma schedule_insert_elem e e' l : e' ∈ schedule_insert e l ↔ e' = e ∨ e' ∈ l.
Proof.
  induction l as [|x l IH]; simpl.
  - rewrite list_elem_of_singleton, elem_of_nil. tauto.
  - destruct (_ <=? _)%Z; rewrite !elem_of_cons, ?IH; tauto.
Qed.

Lemma schedule_insert_perm e l : schedule_insert e l ≡ₚ e :: l.
Proof.
  induction l as [|x l IH]; simpl; [done|]. destruct (_ <=? _)%Z; [|done]. rewrite IH. apply Permutation_swap.
Qed.

Lemma schedule_insert_sorted e l :
  StronglySorted (λ a b, se_deadline a ≤ se_deadline b)%Z l →
  StronglySorted (λ a b, se_deadline a ≤ se_deadline b)%Z (schedule_insert e l).
Proof.
  induction 1 as [|x l Hs IH Hx]; simpl; [by repeat constructor|].
  destruct (se_deadline x <=? se_deadline e)%Z eqn:Hle.
  - constructor; [done|]. rewrite Forall_forall in *. intros y [->|Hy]%schedule_insert_elem; [lia|auto].
  - apply Z.leb_gt in Hle. constructor; [by constructor|]. constructor; [lia|].
    eapply Forall_impl; [done|]. simpl. lia.
Qed.

(** Handles identify entries, and an id has one entry. *)
Lemma handle_inj env a b :
  env_ok env → a ∈ timer_schedule_ env → b ∈ timer_schedule_ env → se_handle a = se_handle b → a = b.
Proof.
  intros [_ Hd _ _ _ _] Ha Hb Heq. apply list_elem_of_lookup in Ha as [i Hi], Hb as [j Hj].
  assert (i = j) as ->; [|congruence].
  eapply NoDup_lookup; [done|..]; rewrite list_lookup_fmap; [by rewrite Hi|by rewrite Hj, Heq].
Qed.

(** *** Operations *)

Section operations.
Context (env : UdpEnv) (Hok : env_ok env).

Lemma erase_entry_ok e : e ∈ timer_schedule_ env →
  erase_entry (se_handle e) env =
    (Ok (), with_timers (without_handle (se_handle e) (timer_schedule_ env)) (active_timers_ env)
              (next_handle env) env).
Proof.
  intros He. unfold erase_entry, udp_get, modify, mbind, act_bind. rewrite decide_True; [done|].
  apply list_elem_of_fmap. eauto.
Qed.

(** The environment without the timer [id]. *)
Definition removed (id : TimerId) : UdpEnv :=
  with_timers (List.filter (λ e, negb (bool_decide (se_id e = id))) (timer_schedule_ env))
    (delete id (active_timers_ env)) (next_handle env) env.

(** An entry's handle and its id select the same entries. *)
Lemma without_entry e : e ∈ timer_schedule_ env →
  without_handle (se_handle e) (timer_schedule_ env) =
  List.filter (λ e', negb (bool_decide (se_id e' = se_id e))) (timer_schedule_ env).
Proof.
  intros He. apply filter_ext_in. intros x Hx%list_elem_of_In. f_equal. apply bool_decide_ext. split.
  - intros Heq. by rewrite (handle_inj env x e Hok Hx He Heq).
  - intros Heq. destruct (to_schedule _ Hok x Hx) as [cb Hcb], (to_schedule _ Hok e He) as [cb' Hcb'].
    rewrite Heq in Hcb. congruence.
Qed.

Lemma no_entry id : active_timers_ env !! id = None →
  List.filter (λ e, negb (bool_decide (se_id e = id))) (timer_schedule_ env) = timer_schedule_ env.
Proof.
  intros Hid. apply List.forallb_filter_id, forallb_forall. intros e He%list_elem_of_In.
  apply negb_true_iff, bool_decide_eq_false. intros <-. destruct (to_schedule _ Hok e He). congruence.
Qed.

Lemma removed_ok id : env_ok (removed id).
Proof.
  assert (∀ e, e ∈ List.filter (λ e, negb (bool_decide (se_id e = id))) (timer_schedule_ env) ↔
    e ∈ timer_schedule_ env ∧ se_id e ≠ id) as Hf.
  { intros e. rewrite !list_elem_of_In, filter_In, negb_true_iff. by rewrite bool_decide_eq_false. }
  destruct Hok as [Hs Hd Hfr Ha Hsch Hran]. split; simpl.
  - by apply filter_sorted.
  - by apply filter_handles.
  - intros e [He _]%Hf. by apply Hfr.
  - intros id' t [Hne Ht]%lookup_delete_Some. destruct (Ha id' t Ht) as (e & He & Hh & Hid).
    exists e. split_and!; [|done|done]. apply Hf. split; [done|]. congruence.
  - intros e [He Hne]%Hf. destruct (Hsch e He) as [cb Hcb]. exists cb. by rewrite lookup_delete_ne.
  - done.
Qed.

Lemma remove_timer_ok id : remove_timer id env = (Ok (), removed id).
Proof.
  unfold remove_timer, udp_get, mbind, act_bind. destruct (active_timers_ env !! id) as [t|] eqn:Ht.
  - destruct (to_active _ Hok id t Ht) as (e & He & <- & <-). rewrite erase_entry_ok by done.
    unfold erase_active, modify, removed. by rewrite <-without_entry.
  - unfold removed. rewrite no_entry by done. rewrite delete_id by done. by destruct env.
Qed.

Lemma removed_gone id : active_timers_ (removed id) !! id = None.
Proof. simpl. by rewrite lookup_delete_eq. Qed.

End operations.

(** The environment with a new timer [id], which was not active. *)
Definition added (deadline : Z) (id : TimerId) (cb : TimerCallback) (env : UdpEnv) : UdpEnv :=
  with_timers (schedule_insert (MkEntry deadline id (next_handle env)) (timer_schedule_ env))
    (<[id := MkActiveTimer (next_handle env) cb]> (active_timers_ env)) (S (next_handle env)) env.

Lemma added_ok deadline id cb env :
  env_ok env → active_timers_ env !! id = None → env_ok (added deadline id cb env).
Proof.
  intros [Hs Hd Hfr Ha Hsch Hran] Hid. split; simpl.
  - by apply schedule_insert_sorted.
  - rewrite schedule_insert_perm, fmap_cons. apply NoDup_cons. split; [|done]. simpl.
    intros (e & Heq & He)%list_elem_of_fmap. apply Hfr in He. lia.
  - intros e [->|He]%schedule_insert_elem; simpl; [lia|]. apply Hfr in He. lia.
  - intros id' t [[<- <-]|[Hne Ht]]%lookup_insert_Some.
    + eexists. split_and!; [apply schedule_insert_elem; by left|done|done].
    + destruct (Ha id' t Ht) as (e & He & Hh & Heq). exists e. split_and!; [|done|done].
      apply schedule_insert_elem. by right.
  - intros e [->|He]%schedule_insert_elem; simpl; [exists cb; by rewrite lookup_insert_eq|].
    destruct (Hsch e He) as [cb' Hcb']. exists cb'. rewrite lookup_insert_ne; [done|]. congruence.
  - done.
Qed.

(** ** Protocol code on UDP and on the recording environment *)

(** Where a message goes, and its text. *)
Definition wire (ports : gmap N Address) (m : ParticipantId * Message) : Address * string :=
  (default (""%string, 0%N) (ports !! m.1), serialize m.2).

(** The timers of a recording environment are the active timers. *)
Definition same_timers (env : UdpEnv) (ts : list (TimerId * TimerCallback)) : Prop :=
  ∀ id cb, (id, cb) ∈ ts ↔ ∃ h, active_timers_ env !! id = Some (MkActiveTimer h cb).

Lemma without_timer_elem id ts id' cb : (id', cb) ∈ without_timer id ts ↔ (id', cb) ∈ ts ∧ id' ≠ id.
Proof.
  unfold without_timer. rewrite !list_elem_of_In, filter_In, negb_true_iff. simpl.
  by rewrite bool_decide_eq_false.
Qed.

Lemma removed_timers env id ts : same_timers env ts → same_timers (removed env id) (without_timer id ts).
Proof.
  intros Hts id' cb. rewrite without_timer_elem, (Hts id' cb). simpl. split.
  - intros [[h Hh] Hne]. exists h. by rewrite lookup_delete_ne.
  - intros [h [Hne Hh]%lookup_delete_Some]. eauto.
Qed.

Lemma added_timers env deadline id cb ts :
  same_timers env (without_timer id ts) →
  same_timers (added deadline id cb env) ((id, cb) :: without_timer id ts).
Proof.
  intros Hts id' cb'. rewrite elem_of_cons, (Hts id' cb'). simpl. split.
  - intros [[= -> ->]|[h Hh]]; [eexists; by rewrite lookup_insert_eq|].
    exists h. rewrite lookup_insert_ne; [done|]. intros <-.
    pose proof (proj2 (Hts id cb') (ex_intro _ h Hh)) as Hin. by apply without_timer_elem in Hin as [_ Hne].
  - intros [h [[<- [= _ <-]]|[Hne Hh]]%lookup_insert_Some]; [by left|eauto].
Qed.

Section mirrors.
(** The addresses of the nodes, and the datagrams sent before. *)
Context (os : Os) (ports : gmap N Address) (base : list (Address * string)).

(** The UDP environment is in its event loop; what it sent and its timers are those of the
    recording environment. *)
Record mirror (env : UdpEnv) (rc : RecEnv) : Prop := {
  mr_env_ok : env_ok env;
  mr_timers : same_timers env (rec_timers rc);
  mr_running : run_active_ env = true ∧ this_thread env = run_thread_id_ env;
  mr_ports : port_map_ env = ports;
  mr_sent : datagrams (calls env) = base ++ (wire ports <$> rec_sent rc);
}.

(** Both returned the same; or the UDP environment failed, or the protocol threw on both,
    having sent a part of what the recording environment has recorded. *)
Definition mirrored {A} (o : result exn A * UdpEnv) (o' : result exn A * RecEnv) (v : Vote) : Prop :=
  env_ok o.2 ∧
  match o.1 with
  | Ok a => ∃ rc, o' = (Ok a, rc) ∧ mirror o.2 rc ∧ rec_vote rc = v
  | Throw e => ((∃ w, e = std_exception w) ∨ o'.1 = Throw e) ∧
      ∃ part, part `prefix_of` rec_sent o'.2 ∧ datagrams (calls o.2) = base ++ (wire ports <$> part)
  end.

(** A recording environment only ever records more. *)
Definition records_more {A} (m : act RecEnv exn A) : Prop :=
  ∀ rc, rec_sent rc `prefix_of` rec_sent (m rc).2.

Definition mirrors {A} (m : udp A) (m' : act RecEnv exn A) : Prop :=
  records_more m' ∧ ∀ env rc, mirror env rc → mirrored (m env) (m' rc) (rec_vote rc).

Lemma mirrors_ret {A} (a : A) : mirrors (mret a) (mret a).
Proof. split; [intros rc0; reflexivity|]. intros env rc Hm. split; [apply Hm|]. by exists rc. Qed.

(** What has been sent when the environment throws. *)
Lemma mirror_part env env' rc rc' :
  mirror env rc → datagrams (calls env') = datagrams (calls env) → rec_sent rc `prefix_of` rec_sent rc' →
  ∃ part, part `prefix_of` rec_sent rc' ∧ datagrams (calls env') = base ++ (wire ports <$> part).
Proof. intros Hm -> Hp. exists (rec_sent rc). split; [done|apply Hm]. Qed.

Lemma mirrors_throw {A} e : mirrors (throw (A := A) e) (throw e).
Proof.
  split; [intros rc0; reflexivity|]. intros env rc Hm. split; [apply Hm|]. split; [by right|]. by eapply mirror_part.
Qed.

Lemma records_more_bind {A B} (m : act RecEnv exn A) (f : A → act RecEnv exn B) :
  records_more m → (∀ a, records_more (f a)) → records_more (m ≫= f).
Proof.
  intros Hm Hf rc. unfold mbind, act_bind. specialize (Hm rc). destruct (m rc) as [[a|e] rc1]; [|exact Hm].
  simpl in Hm. etrans; [exact Hm|apply Hf].
Qed.

Lemma mirrored_bind {A B} (m : udp A) (m' : act RecEnv exn A) (f : A → udp B) (f' : A → act RecEnv exn B)
    env rc v :
  mirrored (m env) (m' rc) v → (∀ a, mirrors (f a) (f' a)) → mirrored ((m ≫= f) env) ((m' ≫= f') rc) v.
Proof.
  intros [Hok Hm] Hf. unfold mbind, act_bind. destruct (m env) as [[a|e] env1]; simpl in *.
  - destruct Hm as (rc1 & -> & Hm1 & <-). by apply Hf.
  - split; [done|]. destruct Hm as [He (part & Hp & Hd)]. destruct (m' rc) as [[b|e'] rc1]; simpl in *.
    + split; [left; by destruct He|]. exists part. split; [|done]. etrans; [exact Hp|apply (Hf b)].
    + split; [destruct He; [by left|right; congruence]|]. by exists part.
Qed.

Lemma mirrors_bind {A B} (m : udp A) (m' : act RecEnv exn A) (f : A → udp B) (f' : A → act RecEnv exn B) :
  mirrors m m' → (∀ a, mirrors (f a) (f' a)) → mirrors (m ≫= f) (m' ≫= f').
Proof.
  intros [Hg Hm] Hf. split; [apply records_more_bind; [done|intros; apply Hf]|].
  intros env rc Hr. apply mirrored_bind; auto.
Qed.

Lemma mirrors_for_each {A} (f : A → udp unit) (f' : A → act RecEnv exn unit) l :
  (∀ a, mirrors (f a) (f' a)) → mirrors (for_each f l) (for_each f' l).
Proof.
  intros Hf. induction l as [|a l IH]; simpl; [apply mirrors_ret|]. apply mirrors_bind; [done|]. by intros [].
Qed.

Lemma mirrors_send dest msg :
  mirrors (send (E := UdpEnv) (X := exn) dest msg) (send (E := RecEnv) (X := exn) dest msg).
Proof.
  split; [intros rc; by eexists|].
  intros env rc Hm. pose proof Hm as [Hok Hts Hrun Hp Hsent]. simpl. unfold udp_send, udp_get, mbind, act_bind.
  assert (∀ env', env_ok env' → datagrams (calls env') = datagrams (calls env) → ∀ w,
    mirrored (Throw (std_exception w), env') (send (E := RecEnv) (X := exn) dest msg rc) (rec_vote rc)) as Hfail.
  { intros env' Hok' Hd w. split; [done|]. split; [left; by eexists|]. eapply mirror_part; [done|done|by eexists]. }
  destruct (port_map_ env !! dest) as [addr|] eqn:Haddr; [|by apply Hfail].
  destruct (negb _); [by apply Hfail|]. unfold sendto.
  destruct (os_sendto os (n_sendto (calls env))) eqn:Hs; simpl.
  - split; [by destruct Hok|]. eexists. split; [done|]. split; [|done]. split; simpl; try done.
    + by destruct Hok.
    + rewrite Hsent, fmap_app, app_assoc. f_equal.
      change (wire ports <$> [(dest, msg)]) with [wire ports (dest, msg)]. f_equal.
      unfold wire. cbn [fst snd]. by rewrite <-Hp, Haddr.
  - apply Hfail; [by destruct Hok|done].
Qed.

Lemma running_thread env op :
  run_active_ env = true → this_thread env = run_thread_id_ env → require_run_thread op env = (Ok (), env).
Proof.
  intros Hr Ht. unfold require_run_thread, udp_get, mbind, act_bind. rewrite Hr, bool_decide_true by done. done.
Qed.

Lemma mirrors_cancel_timer id :
  mirrors (cancel_timer (E := UdpEnv) (X := exn) id) (cancel_timer (E := RecEnv) (X := exn) id).
Proof.
  split; [intros rc0; reflexivity|]. intros env rc [Hok Hts [Hr Ht] Hp Hsent]. simpl. unfold udp_cancel_timer, mbind at 1, act_bind.
  rewrite running_thread by done. rewrite remove_timer_ok by done.
  pose proof (removed_ok env Hok id) as Hok'. split; [done|]. eexists. split; [done|]. split; [|done].
  split; simpl; try done. by apply removed_timers.
Qed.

Lemma mirrors_set_timer id ms cb :
  mirrors (set_timer (E := UdpEnv) (X := exn) id ms cb) (set_timer (E := RecEnv) (X := exn) id ms cb).
Proof.
  split; [intros rc0; reflexivity|]. intros env rc [Hok Hts [Hr Ht] Hp Hsent]. simpl. unfold udp_set_timer, mbind, act_bind.
  rewrite running_thread by done. unfold now. set (env1 := with_calls _ env).
  assert (env_ok env1) as Hok1 by (by destruct Hok).
  rewrite remove_timer_ok by done. unfold emplace_timer, modify.
  pose proof (removed_ok env1 Hok1 id) as Hok2.
  match goal with |- mirrored (_, ?e) _ _ =>
    change e with (added (os_clock os (n_clock (calls env)) + Z.of_N ms * ns_per_ms)%Z id cb (removed env1 id)) end.
  pose proof (added_ok (os_clock os (n_clock (calls env)) + Z.of_N ms * ns_per_ms)%Z id cb _ Hok2
    (removed_gone env1 id)) as Hok3.
  split; [done|]. eexists. split; [done|]. split; [|done]. split; simpl; try done.
  by apply added_timers, (removed_timers env1).
Qed.

End mirrors.

(** *** The protocol objects *)

(** An object whose calls on UDP and on a recording environment mirror each other; a call
    may ask for one vote. *)
Class Mirrored (os : Os) (Obj : Type) `{Protocol UdpEnv exn Obj} `{Protocol RecEnv exn Obj} : Prop := {
  mi_start : ∀ ports base (obj : Obj), mirrors ports base (start obj) (start obj);
  mi_receive : ∀ ports base (obj : Obj) msg env, ∃ v, ∀ rc, mirror ports base env rc → rec_vote rc = v →
    mirrored ports base (receive obj msg env) (receive obj msg rc) v;
  mi_timer : ∀ ports base cb (obj : Obj), mirrors ports base (run_timer cb obj) (run_timer cb obj);
}.

(** [mirror_code] goes through protocol code that asks for no vote. *)
Ltac mirror_code :=
  repeat first
    [ apply mirrors_ret
    | apply mirrors_throw
    | apply mirrors_send
    | apply mirrors_set_timer
    | apply mirrors_cancel_timer
    | apply mirrors_for_each; intros
    | apply mirrors_bind; [|intros]
    | progress case_decide
    | case_match ].

#[export] Instance coordinator_mirrored os : Mirrored os Coordinator.
Proof.
  split; intros ports base; simpl.
  - intros c. unfold coordinator_start. mirror_code.
  - intros c msg env. exists Yes. intros rc Hm <-. revert env rc Hm.
    apply (proj2 (A := records_more (coordinator_receive c msg))).
    change (mirrors ports base (coordinator_receive c msg) (coordinator_receive c msg)).
    unfold coordinator_receive, receive_vote, receive_ack, seen_at, broadcast_decision. mirror_code.
  - intros cb c. unfold coordinator_timer, on_vote_timeout, on_ack_timeout, broadcast_decision. mirror_code.
Qed.

(** A step that only calls the operating system. *)
Definition quiet (env env' : UdpEnv) : Prop :=
  ∃ c, env' = with_calls (λ _, c) env ∧ datagrams c = datagrams (calls env).

Lemma quiet_refl env : quiet env env.
Proof. exists (calls env). split; [by destruct env|done]. Qed.

Lemma quiet_trans env1 env2 env3 : quiet env1 env2 → quiet env2 env3 → quiet env1 env3.
Proof. intros (c & -> & Hc) (c' & -> & Hc'). exists c'. split; [done|]. simpl in *. congruence. Qed.

Lemma quiet_timers env env' : quiet env env' → env_ok env → env_ok env'.
Proof. intros (c & -> & _) []. by split. Qed.

Lemma quiet_mirror ports base env env' rc :
  quiet env env' → mirror ports base env rc → mirror ports base env' rc.
Proof.
  intros Hq Hm. pose proof (quiet_timers _ _ Hq (mr_env_ok _ _ _ _ Hm)) as Hok.
  destruct Hq as (c & -> & Hc), Hm as [_ Hts Hr Hp Hs]. split; simpl; try done. by rewrite Hc.
Qed.

Lemma quiet_now os env : quiet env (now os env).2.
Proof. by eexists. Qed.

Lemma quiet_vote os env : ∃ v env', udp_get_vote os env = (Ok v, env') ∧ quiet env env'.
Proof.
  unfold udp_get_vote, udp_get, mbind, act_bind. destruct (vote_ env) as [v|].
  - exists v, env. split; [done|apply quiet_refl].
  - eexists _, _. split; [done|]. by eexists.
Qed.

#[export] Instance participant_mirrored os : Mirrored os Participant.
Proof.
  split; intros ports base; simpl.
  - intros p. apply mirrors_ret.
  - intros p msg env. destruct (quiet_vote os env) as (v & env1 & Hv & Hq). exists v.
    intros rc Hm Hrc. unfold participant_receive.
    destruct (state_ p); [| |rewrite <-Hrc; by apply mirrors_ret].
    + destruct msg; try (rewrite <-Hrc; by apply mirrors_ret).
      eapply mirrored_bind; [|intros; mirror_code]. simpl. rewrite Hv, Hrc.
      pose proof (quiet_mirror _ _ _ _ _ Hq Hm) as Hm1. split; [apply Hm1|]. by exists rc.
    + rewrite <-Hrc. revert env rc Hm Hq Hv Hrc. intros env rc Hm _ _ _. revert env rc Hm.
      match goal with |- ∀ env rc, mirror _ _ _ _ → mirrored _ _ (?m env) (?m' rc) _ =>
        apply (proj2 (A := records_more m')); change (mirrors ports base m m') end.
      mirror_code.
  - intros cb p. unfold participant_timer, on_decision_timeout. mirror_code.
Qed.

(** ** What the protocol objects throw *)

(** Code on the recording environment that sets timers of the kinds [own] only, and throws
    standard exceptions only. *)
Definition disciplined (own : TimerCallback → Prop) {A} (m : act RecEnv exn A) (post : A → Prop) : Prop :=
  ∀ rc, (∀ t, t ∈ rec_timers rc → own t.2) →
  match m rc with
  | (Ok a, rc') => post a ∧ ∀ t, t ∈ rec_timers rc' → own t.2
  | (Throw e, _) => ∃ w, e = std_exception w
  end.

Section discipline.
Context (own : TimerCallback → Prop).

Lemma disciplined_ret {A} (a : A) (post : A → Prop) : post a → disciplined own (mret a) post.
Proof. by intros Ha rc Hrc. Qed.

Lemma disciplined_throw {A} w (post : A → Prop) : disciplined own (throw (std_exception w)) post.
Proof. intros rc Hrc. by eexists. Qed.

Lemma disciplined_bind {A B} (m : act RecEnv exn A) (f : A → act RecEnv exn B) post post' :
  disciplined own m post → (∀ a, post a → disciplined own (f a) post') → disciplined own (m ≫= f) post'.
Proof.
  intros Hm Hf rc Hrc. specialize (Hm rc Hrc). unfold mbind, act_bind. destruct (m rc) as [[a|e] rc1]; [|done].
  destruct Hm as [Ha Hrc1]. by apply Hf.
Qed.

Lemma without_timer_own id ts :
  (∀ t : TimerId * TimerCallback, t ∈ ts → own t.2) → ∀ t, t ∈ without_timer id ts → own t.2.
Proof. intros Hts [i cb] [Hin _]%without_timer_elem. by apply Hts in Hin. Qed.

Lemma disciplined_send dest msg : disciplined own (send (E := RecEnv) (X := exn) dest msg) (λ _, True).
Proof. by intros rc Hrc. Qed.

Lemma disciplined_get_vote : disciplined own (get_vote (E := RecEnv) (X := exn)) (λ _, True).
Proof. by intros rc Hrc. Qed.

Lemma disciplined_cancel id : disciplined own (cancel_timer (E := RecEnv) (X := exn) id) (λ _, True).
Proof. intros rc Hrc. split; [done|]. by apply without_timer_own. Qed.

Lemma disciplined_set_timer id ms cb :
  own cb → disciplined own (set_timer (E := RecEnv) (X := exn) id ms cb) (λ _, True).
Proof.
  intros Hcb rc Hrc. split; [done|]. simpl. intros t [->|Ht]%elem_of_cons; [done|].
  by eapply without_timer_own.
Qed.

Lemma disciplined_for_each {A} (f : A → act RecEnv exn unit) l :
  (∀ a, disciplined own (f a) (λ _, True)) → disciplined own (for_each f l) (λ _, True).
Proof.
  intros Hf. induction l as [|a l IH]; simpl; [by apply disciplined_ret|].
  by eapply disciplined_bind; [apply Hf|].
Qed.

End discipline.

(** An object whose timers are its own ([own_timer]) and which, once started, throws
    standard exceptions only. *)
Class Disciplined (Obj : Type) `{Protocol RecEnv exn Obj} := {
  own_timer : TimerCallback → Prop;
  obj_started : Obj → Prop;
  di_start : ∀ obj : Obj, disciplined own_timer (start obj) (λ r, obj_started r.2);
  di_receive : ∀ (obj : Obj) msg, obj_started obj →
    disciplined own_timer (receive obj msg) (λ r, obj_started r.2);
  di_timer : ∀ (obj : Obj) cb, obj_started obj → own_timer cb →
    disciplined own_timer (run_timer cb obj) (λ r, obj_started r.2);
}.

(** [keep_discipline] goes through protocol code. *)
Ltac keep_discipline :=
  repeat first
    [ apply disciplined_throw
    | apply disciplined_ret; done
    | apply disciplined_send
    | apply disciplined_get_vote
    | apply disciplined_cancel
    | apply disciplined_set_timer; auto; done
    | apply disciplined_for_each; intros
    | eapply disciplined_bind; [|intros] ].

Definition coordinator_started (c : Coordinator) : Prop :=
  length (vote_seen_ c) = S (N.to_nat (num_participants_ c)) ∧
  length (ack_seen_ c) = S (N.to_nat (num_participants_ c)).

Definition coordinator_own (cb : TimerCallback) : Prop := cb = OnVoteTimeout ∨ cb = OnAckTimeout.

Lemma broadcast_disciplined c d :
  decision_ c = Some d → coordinator_started c →
  disciplined coordinator_own (broadcast_decision c) coordinator_started.
Proof.
  intros Hd Hc. unfold broadcast_decision. rewrite Hd. unfold coordinator_own. keep_discipline.
Qed.

(** Votes and acknowledgements are looked up for participants only. *)
Lemma seen_disciplined c seen from :
  length seen = S (N.to_nat (num_participants_ c)) → is_valid_participant c from = true →
  disciplined coordinator_own (seen_at seen from) (λ b, seen !! N.to_nat from = Some b).
Proof.
  intros Hlen [_ Hhi%N.leb_le]%andb_true_iff. unfold seen_at.
  destruct (lookup_lt_is_Some_2 seen (N.to_nat from)) as [b ->]; [lia|]. by apply disciplined_ret.
Qed.

Lemma receive_vote_disciplined c from vote :
  coordinator_started c → disciplined coordinator_own (receive_vote c from vote) (λ r, coordinator_started r.2).
Proof.
  intros [Hv Ha]. unfold receive_vote. set (c1 := note_vote c from _).
  assert (coordinator_started c1) as Hc1 by (split; simpl; [by rewrite length_insert|done]).
  case_decide; [apply disciplined_throw|]. case_decide; [by apply disciplined_ret|].
  eapply disciplined_bind; [apply disciplined_cancel|]. intros _ _.
  eapply disciplined_bind; [by eapply broadcast_disciplined|]. intros c2 Hc2. by apply disciplined_ret.
Qed.

Lemma receive_ack_disciplined c from :
  coordinator_started c → disciplined coordinator_own (receive_ack c from) (λ r, coordinator_started r.2).
Proof.
  intros [Hv Ha]. unfold receive_ack.
  assert (coordinator_started (note_ack c from)) as Hc1 by (split; simpl; [done|by rewrite length_insert]).
  case_decide; keep_discipline.
Qed.

#[export] Instance coordinator_disciplined : Disciplined Coordinator.
Proof.
  refine {| own_timer := coordinator_own; obj_started := coordinator_started |}; simpl.
  - intros c. unfold coordinator_start, coordinator_own. keep_discipline. apply disciplined_ret.
    split; simpl; rewrite length_replicate; lia.
  - intros c msg [Hv Ha]. unfold coordinator_receive.
    destruct (phase_ c), msg; try (by apply disciplined_ret).
    + destruct (is_valid_participant c from) eqn:Hp; [|by apply disciplined_ret].
      eapply disciplined_bind; [by apply (seen_disciplined c)|]. intros [] _; [by apply disciplined_ret|].
      by apply receive_vote_disciplined.
    + destruct (is_valid_participant c from) eqn:Hp; [|by apply disciplined_ret].
      eapply disciplined_bind; [by apply (seen_disciplined c)|]. intros [] _; [by apply disciplined_ret|].
      by apply receive_ack_disciplined.
  - intros c cb Hc [-> | ->]; simpl; [unfold on_vote_timeout|unfold on_ack_timeout];
      case_decide; try (by apply disciplined_ret).
    eapply disciplined_bind; [by eapply broadcast_disciplined|]. intros c2 Hc2. by apply disciplined_ret.
Defined.

#[export] Instance participant_disciplined : Disciplined Participant.
Proof.
  refine {| own_timer := λ cb, cb = OnDecisionTimeout; obj_started := λ _, True |}; simpl.
  - intros p. by apply disciplined_ret.
  - intros p msg _. unfold participant_receive. destruct (state_ p), msg; keep_discipline.
  - intros p cb _ ->. simpl. unfold on_decision_timeout. case_decide; keep_discipline.
Defined.

(** ** Runs *)

Section runs.
Context (os : Os) (ports : gmap N Address) {Obj : Type}
  `{!Protocol UdpEnv exn Obj} `{!Protocol RecEnv exn Obj} `{!Mirrored os Obj} `{!Disciplined Obj}.

(** A call a node of the network can make, and what it sends: it receives a message read
    from a datagram, or an active timer fires. *)
Inductive node_call (nd : Node Obj) : Node Obj → list (ParticipantId * Message) → Prop :=
| node_receives n data msg v :
    os_recvfrom os n = RecvData data → deserialize data = Ok msg →
    node_call nd (call nd (node_timers nd) v (receive (node_obj nd) msg)).1
      (call nd (node_timers nd) v (receive (node_obj nd) msg)).2
| node_times_out id cb :
    (id, cb) ∈ node_timers nd →
    node_call nd (call nd (without_timer id (node_timers nd)) Yes (run_timer cb (node_obj nd))).1
      (call nd (without_timer id (node_timers nd)) Yes (run_timer cb (node_obj nd))).2.

(** The calls a node can have made: it was started, and made more calls while it was up. *)
Inductive node_run (obj : Obj) : Node Obj → list (ParticipantId * Message) → Prop :=
| node_starts :
    node_run obj (call (MkNode obj [] true) [] Yes (start obj)).1
      (call (MkNode obj [] true) [] Yes (start obj)).2
| node_goes_on nd sent nd' new :
    node_run obj nd sent → node_up nd = true → node_call nd nd' new → node_run obj nd' (sent ++ new).

Implicit Types (obj : Obj) (nd : Node Obj) (sent : list (ParticipantId * Message)).

(** The environment while the node waits. *)
Definition waiting obj (env : UdpEnv) nd sent : Prop :=
  node_run obj nd sent ∧ node_up nd = true ∧
  ∀ v, mirror ports (wire ports <$> sent) env (MkRecEnv [] v (node_timers nd)).

(** The object needs no more input. *)
Definition finished obj (env : UdpEnv) nd sent : Prop :=
  node_run obj nd sent ∧ node_up nd = false ∧ datagrams (calls env) = wire ports <$> sent.

(** How a run may fail: a standard exception, of the operating system, the environment or
    the object; or it goes on for longer than the model follows it. *)
Definition failed (e : exn) : Prop := e = nontermination ∨ ∃ w, e = std_exception w.

(** What a run that fails has sent: a part of what the start of a node sends, or what a
    node that is up has sent and a part of what one more call of it sends. *)
Definition cut_short obj (ds : list (Address * string)) : Prop :=
  (∃ part, part `prefix_of` (call (MkNode obj [] true) [] Yes (start obj)).2 ∧ ds = wire ports <$> part) ∨
  ∃ nd sent part, node_run obj nd sent ∧ node_up nd = true ∧ ds = wire ports <$> (sent ++ part) ∧
    (part = [] ∨ ∃ nd' new, node_call nd nd' new ∧ part `prefix_of` new).

(** A node that is up has been started, and its timers are its own. *)
Lemma node_run_started obj nd sent :
  node_run obj nd sent → node_up nd = true →
  obj_started (node_obj nd) ∧ ∀ t, t ∈ node_timers nd → own_timer t.2.
Proof.
  assert (∀ nd0 ts v (m : act RecEnv exn (bool * Obj)), (∀ t, t ∈ ts → own_timer t.2) →
    disciplined own_timer m (λ r, obj_started r.2) → node_up (call nd0 ts v m).1 = true →
    obj_started (node_obj (call nd0 ts v m).1) ∧ ∀ t, t ∈ node_timers (call nd0 ts v m).1 → own_timer t.2) as Hcall.
  { intros nd0 ts v m Hts Hm. specialize (Hm (MkRecEnv [] v ts) Hts). unfold call.
    by destruct (m _) as [[[more obj']|e] rc]. }
  induction 1 as [|nd sent nd' new _ IH Hup Hc]; intros Hup'.
  - apply Hcall; [by intros t ?%elem_of_nil|apply di_start|done].
  - destruct (IH Hup) as [Ho Hts]. destruct Hc as [n data msg v Hn Hd|id cb Hin].
    + apply Hcall; [done|by apply di_receive|done].
    + apply Hcall; [by apply without_timer_own|apply di_timer; [done|by apply (Hts (id, cb))]|done].
Qed.

(** What a call of the object leaves behind. *)
Definition called obj (o : result exn (bool * Obj) * UdpEnv) (r : Node Obj * list (ParticipantId * Message))
    sent : Prop :=
  env_ok o.2 ∧
  match o.1 with
  | Ok (more, obj') => node_obj r.1 = obj' ∧
      if (more : bool) then waiting obj o.2 r.1 (sent ++ r.2) else finished obj o.2 r.1 (sent ++ r.2)
  | Throw e => failed e ∧ cut_short obj (datagrams (calls o.2))
  end.

Lemma mirrored_called obj nd ts v sent (m' : act RecEnv exn (bool * Obj)) o :
  mirrored ports (wire ports <$> sent) o (m' (MkRecEnv [] v ts)) v →
  (∀ t, t ∈ ts → own_timer t.2) → disciplined own_timer m' (λ r, obj_started r.2) →
  (∀ part, part `prefix_of` (call nd ts v m').2 → cut_short obj (wire ports <$> (sent ++ part))) →
  node_run obj (call nd ts v m').1 (sent ++ (call nd ts v m').2) →
  called obj o (call nd ts v m') sent.
Proof.
  intros [Hok Hm] Hts Hdis Hcut Hrun. destruct o as [[[more obj']|e] env]; simpl in *.
  - destruct Hm as (rc & Heq & Hm & _). unfold call in *. rewrite Heq in *. split; [done|]. simpl.
    split; [done|]. destruct Hm as [? Hts' Hr Hp Hs].
    destruct more; simpl in *.
    + split; [done|]. split; [done|]. intros v'. split; simpl; try done.
      by rewrite app_nil_r, fmap_app, Hs.
    + split; [done|]. split; [done|]. by rewrite fmap_app, Hs.
  - split; [done|]. destruct Hm as [He (part & Hp & Hd)]. simpl. split.
    + right. destruct He as [Hw|He]; [done|]. specialize (Hdis (MkRecEnv [] v ts) Hts).
      destruct (m' _) as [[?|e'] rc]; simpl in He; [done|]. by injection He as ->.
    + rewrite Hd, <-fmap_app. apply Hcut. unfold call. by destruct (m' _) as [[[]|] rc].
Qed.

(** The first call. *)
Lemma start_called obj env :
  mirror ports [] env (MkRecEnv [] Yes []) →
  called obj (start obj env) (call (MkNode obj [] true) [] Yes (start obj)) [].
Proof.
  intros Hm. apply mirrored_called; [by apply mi_start|by intros t ?%elem_of_nil|apply di_start| |constructor].
  intros part Hp. left. by exists part.
Qed.

(** A call that fails has sent a part of its messages. *)
Lemma call_cut obj nd sent nd' new part :
  node_run obj nd sent → node_up nd = true → node_call nd nd' new → part `prefix_of` new →
  cut_short obj (wire ports <$> (sent ++ part)).
Proof. intros Hrun Hup Hc Hp. right. exists nd, sent, part. split_and!; eauto. Qed.

Lemma receive_called obj env nd sent n data msg :
  waiting obj env nd sent → os_recvfrom os n = RecvData data → deserialize data = Ok msg →
  ∃ v, called obj (receive (node_obj nd) msg env)
         (call nd (node_timers nd) v (receive (node_obj nd) msg)) sent.
Proof.
  intros (Hrun & Hup & Hm) Hdata Hmsg.
  destruct (mi_receive ports (wire ports <$> sent) (node_obj nd) msg env) as [v Hv]. exists v.
  destruct (node_run_started _ _ _ Hrun Hup) as [Ho Hts].
  assert (node_call nd (call nd (node_timers nd) v (receive (node_obj nd) msg)).1
    (call nd (node_timers nd) v (receive (node_obj nd) msg)).2) as Hc by by eapply node_receives.
  apply mirrored_called; [by apply Hv|done|by apply di_receive|by intros; eapply call_cut|by eapply node_goes_on].
Qed.

(** The first scheduled timer fires. *)
Lemma timer_called obj env nd sent e rest timer :
  waiting obj env nd sent → timer_schedule_ env = e :: rest → active_timers_ env !! se_id e = Some timer →
  called obj (run_timer (callback timer) (node_obj nd) (removed env (se_id e)))
    (call nd (without_timer (se_id e) (node_timers nd)) Yes (run_timer (callback timer) (node_obj nd))) sent.
Proof.
  intros (Hrun & Hup & Hm) Hs Ht. destruct (Hm Yes) as [Hok Hts Hr Hp Hsent]. simpl in Hts, Hsent.
  destruct (node_run_started _ _ _ Hrun Hup) as [Ho Hown].
  assert ((se_id e, callback timer) ∈ node_timers nd) as Hin by (apply Hts; destruct timer; eauto).
  pose proof (node_times_out nd (se_id e) (callback timer) Hin) as Hc.
  apply mirrored_called; [|by apply without_timer_own| |by intros; eapply call_cut|by eapply node_goes_on].
  - apply mi_timer. split; simpl; try done; [by apply removed_ok|by apply removed_timers].
  - apply di_timer; [done|]. by apply (Hown (se_id e, callback timer)).
Qed.

(** A run that fails between two calls. *)
Lemma waiting_cut obj env nd sent : waiting obj env nd sent → cut_short obj (datagrams (calls env)).
Proof.
  intros (Hrun & Hup & Hm). right. exists nd, sent, []. split_and!; [done|done| |by left].
  rewrite (mr_sent _ _ _ _ (Hm Yes)). simpl. by rewrite !app_nil_r.
Qed.

Lemma waiting_quiet obj env env' nd sent : quiet env env' → waiting obj env nd sent → waiting obj env' nd sent.
Proof. intros Hq (? & ? & Hm). split_and!; [done|done|]. intros v. by eapply quiet_mirror. Qed.

(** Calls of the object, one after the other. *)
Definition progressed obj (o : result exn (bool * Obj) * UdpEnv) : Prop :=
  env_ok o.2 ∧
  match o.1 with
  | Ok (more, obj') => ∃ nd sent, node_obj nd = obj' ∧
      if (more : bool) then waiting obj o.2 nd sent else finished obj o.2 nd sent
  | Throw e => failed e ∧ cut_short obj (datagrams (calls o.2))
  end.

(** The two containers agree, so that a due entry is never stale, and its timer fires. *)
Lemma dispatch_progressed fuel obj env nd sent :
  waiting obj env nd sent → progressed obj (dispatch_due_timers os fuel (node_obj nd) env).
Proof.
  revert env nd sent. induction fuel as [|fuel IH]; intros env nd sent Hw.
  { split; [apply (proj2 (proj2 Hw) Yes)|]. split; [by left|by eapply waiting_cut]. }
  assert (env_ok env) as Hok by apply (proj2 (proj2 Hw) Yes).
  simpl. unfold udp_get, mbind at 1, act_bind.
  destruct (timer_schedule_ env) as [|e rest] eqn:Hs; [split; [done|by exists nd, sent]|].
  pose proof (waiting_quiet _ _ _ _ _ (quiet_now os env) Hw) as Hw1.
  assert (env_ok (now os env).2) as Hok1 by apply (proj2 (proj2 Hw1) Yes).
  unfold mbind at 1, act_bind, now. set (env1 := with_calls _ env).
  change (waiting obj env1 nd sent) in Hw1. change (env_ok env1) in Hok1.
  destruct (_ <? _)%Z; [split; [done|by exists nd, sent]|].
  assert (e ∈ timer_schedule_ env) as He by (rewrite Hs; by left).
  destruct (to_schedule _ Hok e He) as [cb Hcb]. rewrite Hcb. rewrite decide_False by (simpl; tauto).
  unfold mbind at 1, act_bind. rewrite (erase_entry_ok env1 e He).
  rewrite (without_entry env1 Hok1 e He). unfold mbind at 1, act_bind, erase_active, modify.
  change (with_timers _ _ _ (with_timers _ _ _ env1)) with (removed env1 (se_id e)).
  pose proof (timer_called obj env1 nd sent e rest (MkActiveTimer (se_handle e) cb) Hw1 Hs Hcb) as [Hok2 Hc].
  cbn [callback] in Hc, Hok2 |- *. unfold mbind, act_bind.
  destruct (run_timer cb (node_obj nd) (removed env1 (se_id e))) as [[[more obj']|err] env2];
    cbn [fst snd] in *; [|by split].
  destruct Hc as [<- Hc]. destruct more; [by eapply IH|]. split; [done|].
  eexists _, _. by split.
Qed.

(** What waiting for a message finds. *)
Definition awaited (env : UdpEnv) (o : result exn (option Message) * UdpEnv) : Prop :=
  quiet env o.2 ∧
  match o.1 with
  | Ok None => True
  | Ok (Some msg) => ∃ n data, os_recvfrom os n = RecvData data ∧ deserialize data = Ok msg
  | Throw e => failed e
  end.

Lemma awaited_after env env1 o : quiet env env1 → awaited env1 o → awaited env o.
Proof. intros Hq [Hq1 Ho]. split; [by eapply quiet_trans|done]. Qed.

Lemma failed_std w : failed (std_exception w).
Proof. right. by eexists. Qed.

Lemma deserialize_throws data e : deserialize data = Throw e → ∃ w, e = std_exception w.
Proof.
  unfold deserialize. intros Hd. repeat (case_match; simplify_eq); by eexists.
Qed.

Lemma wait_loop_awaited fuel start_time timeout remaining env :
  awaited env (wait_loop os fuel start_time timeout remaining env).
Proof.
  revert remaining env. induction fuel as [|fuel IH]; intros remaining env; cbn [wait_loop].
  { split; [apply quiet_refl|by left]. }
  set (again := refresh_remaining_timeout os start_time timeout remaining ≫= _).
  assert (∀ env1, quiet env env1 → awaited env (again env1)) as Hagain.
  { intros env1 Hq. unfold again, refresh_remaining_timeout, mbind, act_bind.
    destruct (_ <? 0)%Z; simpl.
    - eapply awaited_after; [done|apply IH].
    - assert (quiet env (now os env1).2) as Hq1 by (eapply quiet_trans; [done|apply quiet_now]).
      unfold now in Hq1. simpl in Hq1. destruct (timeout <=? _)%Z; simpl; [by split|].
      eapply awaited_after; [exact Hq1|apply IH]. }
  clearbody again. unfold mbind, act_bind, poll, recvfrom.
  set (env1 := with_calls _ env). assert (quiet env env1) as Hq1 by by eexists.
  destruct (os_poll os _ _) as [[]| |[] []]; cbn [negb];
    try (by apply Hagain); try (split; [done|apply failed_std]); [by split|].
  set (env2 := with_calls _ env1). assert (quiet env env2) as Hq2 by by eexists.
  destruct (os_recvfrom os _) as [[]|data] eqn:Hd; [by apply Hagain|split; [done|apply failed_std]|].
  destruct (decide (data = _)); [by apply Hagain|].
  destruct (deserialize data) as [msg|e] eqn:Hmsg; [split; [done|by eexists _, data]|].
  destruct (deserialize_throws _ _ Hmsg) as [w ->]. by apply Hagain.
Qed.

Lemma wait_awaited fuel timeout env : awaited env (wait_for_message os fuel timeout env).
Proof.
  unfold wait_for_message, mbind, act_bind, now.
  match goal with |- awaited _ (wait_loop _ _ _ _ _ ?env1) => set (env2 := env1) end.
  assert (quiet env env2) as Hq by by eexists.
  eapply awaited_after; [exact Hq|apply wait_loop_awaited].
Qed.

Lemma timeout_quiet env : ∃ t env', compute_next_timeout_ms os env = (Ok t, env') ∧ quiet env env'.
Proof.
  unfold compute_next_timeout_ms, udp_get, mbind, act_bind. destruct (timer_schedule_ env).
  - eexists _, _. split; [done|apply quiet_refl].
  - eexists _, _. split; [done|]. by eexists.
Qed.

Definition ended_well obj (o : result exn Obj * UdpEnv) : Prop :=
  env_ok o.2 ∧
  match o.1 with
  | Ok obj' => ∃ nd sent, node_obj nd = obj' ∧ finished obj o.2 nd sent
  | Throw e => failed e ∧ cut_short obj (datagrams (calls o.2))
  end.

Lemma event_loop_ends fuel obj env nd sent :
  waiting obj env nd sent → ended_well obj (event_loop os fuel (node_obj nd) env).
Proof.
  revert env nd sent. induction fuel as [|fuel IH]; intros env nd sent Hw.
  { split; [apply (proj2 (proj2 Hw) Yes)|]. split; [by left|by eapply waiting_cut]. }
  simpl. unfold mbind at 1, act_bind. pose proof (dispatch_progressed fuel obj env nd sent Hw) as [Hok1 Hd].
  destruct (dispatch_due_timers os fuel (node_obj nd) env) as [[[more obj1]|e] env1]; cbn [fst snd] in *;
    [|by split].
  destruct Hd as (nd1 & sent1 & <- & Hd). destruct more; simpl; [|split; [done|by exists nd1, sent1]].
  unfold mbind at 1, act_bind. destruct (timeout_quiet env1) as (t & env2 & -> & Hq2).
  unfold mbind at 1, act_bind. pose proof (wait_awaited fuel t env2) as [Hq3 Ha].
  destruct (wait_for_message os fuel t env2) as [[[msg|]|e] env3]; cbn [fst snd] in *.
  - pose proof (waiting_quiet _ _ _ _ _ (quiet_trans _ _ _ Hq2 Hq3) Hd) as Hw3.
    destruct Ha as (n & data & Hn & Hmsg).
    destruct (receive_called obj env3 nd1 sent1 n data msg Hw3 Hn Hmsg) as (v & Hok4 & Hc).
    unfold mbind, act_bind. destruct (receive (node_obj nd1) msg env3) as [[[more obj']|e] env4];
      cbn [fst snd] in *; [|by split].
    destruct Hc as [<- Hc]. destruct more; [by eapply IH|]. split; [done|].
    eexists _, _. by split.
  - eapply IH, waiting_quiet; [|done]. by eapply quiet_trans.
  - pose proof (waiting_quiet _ _ _ _ _ (quiet_trans _ _ _ Hq2 Hq3) Hd) as Hw3.
    split; [apply (proj2 (proj2 Hw3) Yes)|]. split; [done|by eapply waiting_cut].
Qed.

(** The environment at the start of [run]. *)
Lemma new_environment_mirror my_id vote thread env :
  new_udp_environment os my_id ports vote thread = Ok env →
  ran_ env = false ∧
  mirror ports [] (with_run true true (this_thread env) env) (MkRecEnv [] Yes []).
Proof.
  unfold new_udp_environment. destruct (negb _); [done|]. destruct (ports !! my_id) as [addr|]; [|done].
  destruct (negb _); [done|]. destruct (negb _); [done|]. intros [= <-]. split; [done|].
  split; simpl; try done.
  - split; simpl.
    + apply SSorted_nil.
    + apply NoDup_nil_2.
    + by intros e ?%elem_of_nil.
    + intros id t. by rewrite lookup_empty.
    + by intros e ?%elem_of_nil.
    + done.
  - intros id cb. simpl. rewrite elem_of_nil. split; [done|]. intros [h Hh]. by rewrite lookup_empty in Hh.
Qed.

(** [run] from its first call to its last. *)
Lemma run_ends my_id vote thread env fuel obj :
  new_udp_environment os my_id ports vote thread = Ok env →
  ∃ o, ended_well obj o ∧ run os fuel obj env = (o.1, finish_run o.2).
Proof.
  intros [Hran Hm]%new_environment_mirror. unfold run. rewrite Hran.
  set (env0 := with_run true true (this_thread env) env) in *.
  pose proof (start_called obj env0 Hm) as [Hok Hc]. unfold mbind, act_bind.
  destruct (start obj env0) as [[[more obj1]|e] env1]; cbn [fst snd] in *.
  - destruct Hc as [<- Hc]. destruct more.
    + exists (event_loop os fuel (node_obj (call (MkNode obj [] true) [] Yes (start obj)).1) env1).
      split; [by eapply event_loop_ends|]. by destruct (event_loop _ _ _ _).
    + eexists (Ok _, env1). split; [|done]. split; [done|]. eexists _, _. by split.
  - by exists (Throw e, env1).
Qed.

End runs.
