(* ===== verification/TwoPhaseTheorems.v ===== *)
(** * TwoPhaseTheorems: the two-phase commit example

    The theorems on the example, with their witnesses: the protocol is safe on a network
    that loses, duplicates and reorders messages; the encodings of its messages are undone
    by their decodings; the thread functions of the simulation index one run of the
    protocol; the simulation is a program the engine accepts; and the executions the engine
    publishes of it are safe, for any number of participants. *)

From stdpp Require Import base tactics numbers relations sets list strings.
From S2P Require Import Prelude Errors Event Relation ExecutionGraph ExplorationGraph Program.
From S2P Require Import Dpor Explorer Parallel.
From S2P Require Import Queries NextEvent Conformance Faults Termination VerifyFacts PoolRule.
From S2P Require Import Samples.
From S2P Require Import TwoPhase Bridge Simulation.
From S2P Require Import BridgeFacts Replay.
From S2P Require Import ReplayFacts SimulationFacts Network SimulationSafety.

(** ** The protocol *)

(** C24: two-phase commit is safe: whatever messages are lost, delayed, duplicated or
    reordered, whatever timers fire and whatever nodes crash, every decision on the network
    is the coordinator's, and when a participant commits, the coordinator decided to
    commit, every participant voted Yes, and nobody voted No. *)
Theorem two_phase_commit_safe n bug net :
  rtc net_step (net_init n bug) net →
  (∀ dest d, (dest, DecisionMsg d) ∈ net_messages net →
     decision_ (node_obj (net_coordinator net)) = Some d) ∧
  ∀ i p, net_participants net !! i = Some p → outcome_ (node_obj p) = Some Commit →
    decision_ (node_obj (net_coordinator net)) = Some Commit ∧
    ∀ q, (1 ≤ q ≤ n)%N →
      (kCoordinator, VoteMsg q Yes) ∈ net_messages net ∧
      ∀ dest, (dest, VoteMsg q No) ∉ net_messages net.
Proof.
  intros [Hc Hsz Hp Hv]%reachable_net_ok. split; [intros; by eapply co_messages|].
  intros i p Hi Hout. destruct (po_outcome _ _ _ (Hp i p Hi) Hout) as [dest Hdec].
  pose proof (co_messages _ _ _ Hc _ _ Hdec) as Hcommit. split; [done|].
  intros q Hq. pose proof (co_commit _ _ _ Hc Hcommit q Hq) as Hyes. split; [done|].
  intros dest' Hno. by pose proof (Hv _ _ _ _ _ Hyes Hno).
Qed.

(** *** A run of the protocol *)

(** What can happen next on a network: a message of [net_messages] (by position) reaches its
    destination, a timer fires, or a node crashes. *)
Inductive net_event :=
| Deliver (message : nat) (vote : Vote)
| FireCoordinator
| FireParticipant (i : nat)
| CrashCoordinator.

(** The network after an event; unchanged when the event cannot happen. *)
Definition net_next (net : Net) (e : net_event) : Net :=
  match e with
  | Deliver m vote =>
      match net_messages net !! m with
      | Some (dest, msg) =>
          if decide (dest = kCoordinator) then
            if node_up (net_coordinator net) then
              coordinator_call net (call (net_coordinator net) (node_timers (net_coordinator net)) Yes
                (coordinator_receive (node_obj (net_coordinator net)) msg))
            else net
          else
            match net_participants net !! pred (N.to_nat dest) with
            | Some p =>
                if node_up p then
                  participant_call net (pred (N.to_nat dest))
                    (call p (node_timers p) vote (participant_receive (node_obj p) msg))
                else net
            | None => net
            end
      | None => net
      end
  | FireCoordinator =>
      match node_timers (net_coordinator net) with
      | (id, cb) :: _ =>
          if node_up (net_coordinator net) then
            coordinator_call net (call (net_coordinator net)
              (without_timer id (node_timers (net_coordinator net))) Yes
              (coordinator_timer cb (node_obj (net_coordinator net))))
          else net
      | [] => net
      end
  | FireParticipant i =>
      match net_participants net !! i with
      | Some p =>
          match node_timers p with
          | (id, cb) :: _ =>
              if node_up p then
                participant_call net i (call p (without_timer id (node_timers p)) Yes
                  (participant_timer cb (node_obj p)))
              else net
          | [] => net
          end
      | None => net
      end
  | CrashCoordinator =>
      coordinator_call net
        (MkNode (node_obj (net_coordinator net)) (node_timers (net_coordinator net)) false, [])
  end.

Lemma net_next_steps net e : rtc net_step net (net_next net e).
Proof.
  destruct e as [m vote| |i|]; simpl.
  - destruct (net_messages net !! m) as [[dest msg]|] eqn:Hm; [|done].
    apply list_elem_of_lookup_2 in Hm. destruct (decide (dest = kCoordinator)) as [->|Hne].
    + destruct (node_up _) eqn:Hup; [|done]. by apply rtc_once, coordinator_receives.
    + destruct (net_participants net !! _) as [p|] eqn:Hp; [|done]. destruct (node_up p) eqn:Hup; [|done].
      apply rtc_once, participant_receives; [done|done|].
      replace (N.of_nat (S (pred (N.to_nat dest)))) with dest by (unfold kCoordinator in Hne; lia). done.
  - destruct (node_timers _) as [|[id cb] ts] eqn:Ht; [done|]. rewrite <-Ht. destruct (node_up _) eqn:Hup; [|done].
    apply rtc_once, coordinator_times_out; [done|]. rewrite Ht. by left.
  - destruct (net_participants net !! i) as [p|] eqn:Hp; [|done].
    destruct (node_timers p) as [|[id cb] ts] eqn:Ht; [done|]. rewrite <-Ht. destruct (node_up p) eqn:Hup; [|done].
    apply rtc_once, participant_times_out; [done|done|]. rewrite Ht. by left.
  - apply rtc_once, coordinator_crashes.
Qed.

Lemma net_run_reachable net es : rtc net_step net (foldl net_next net es).
Proof.
  revert net. induction es as [|e es IH]; intros net; simpl; [done|]. etrans; [apply net_next_steps|done].
Qed.

(** Both participants vote Yes, the second gives up waiting, and the first commits. *)
Definition split_run : Net :=
  foldl net_next (net_init 2 false)
    [Deliver 0 Yes; Deliver 1 Yes; Deliver 2 Yes; Deliver 2 Yes; Deliver 3 Yes; FireParticipant 1;
     Deliver 4 Yes; Deliver 5 Yes].

Lemma two_phase_commit_safe_witness :
  decision_ (node_obj (net_coordinator split_run)) = Some Commit ∧
  (kCoordinator, VoteMsg 2 Yes) ∈ net_messages split_run.
Proof.
  destruct (two_phase_commit_safe 2 false split_run (net_run_reachable _ _)) as [_ Hsafe].
  destruct (Hsafe 0 (MkNode (MkParticipant 1 1000 ParticipantDone (Some Commit)) [] false))
    as [Hd Hv].
  - vm_compute. reflexivity.
  - reflexivity.
  - split; [exact Hd|]. apply (Hv 2%N). by split.
Defined.

(** The outcomes of two participants can differ: the timeout of a participant aborts on
    its own. *)
Example outcomes_can_differ :
  (λ p, outcome_ (node_obj p)) <$> net_participants split_run = [Some Commit; Some Abort].
Proof. vm_compute. reflexivity. Qed.

(** ** Encodings *)

(** C33: a message packed in a value of the model checker is unpacked to the same message with
    its participant id modulo 2^56, hence to the same message exactly when its id is below
    2^56; a vote choice and a crash choice are unpacked to themselves, and none of the
    three kinds of values is taken for another. *)
Theorem packing_roundtrip msg vote crash :
  decode_message (encode_message msg) = Ok (kept_ids_of msg) ∧
  (kept_ids_of msg = msg ↔
     match msg with VoteMsg from _ | Ack from => (from < 2 ^ 56)%N | _ => True end) ∧
  decode_vote_choice (vote_choice vote) = Ok vote ∧
  decode_crash_choice (crash_choice crash) = Ok crash ∧
  (∀ v, (∃ m, decode_message v = Ok m) → ∃ e, decode_vote_choice v = Throw e) ∧
  (∀ v, (∃ m, decode_message v = Ok m) → ∃ e, decode_crash_choice v = Throw e) ∧
  (∀ v, (∃ w, decode_vote_choice v = Ok w) → ∃ e, decode_crash_choice v = Throw e).
Proof.
  destruct (decode_choices vote crash) as [Hvote Hcrash].
  split_and!; [apply decode_encode|apply kept_ids_exact|done|done|..];
    intros v [m Hm]; revert Hm; unfold decode_message, decode_vote_choice, decode_crash_choice;
    destruct (tag_of v) as [[]|]; try done; intros _; by eexists.
Qed.

(** C34: the text format of the messages is exact: every message whose participant id is a
    [size_t] is read back from the text written for it. *)
Theorem text_roundtrip msg :
  match msg with VoteMsg from _ | Ack from => (from ≤ size_t_max)%N | _ => True end →
  deserialize (serialize msg) = Ok msg.
Proof. apply deserialize_serialize. Qed.

Lemma text_roundtrip_witness :
  deserialize (serialize (VoteMsg 18446744073709551615 No)) = Ok (VoteMsg 18446744073709551615 No).
Proof. apply text_roundtrip. vm_compute. discriminate. Defined.

(** ** The simulation *)

(** C25: a thread function, which builds a new protocol object at every call and replays it up
    to one operation, is the list of operations of one run of that object: at step [k] it
    returns the label of the [k]-th operation, the error the run ended with, or nothing
    when the run has returned or crashed, and it throws exactly when the run fails. *)
Theorem replay_is_indexing options pid trace step :
  make_coordinator_function options trace step =
    nth_label (log_run (new_coordinator (num_participants options) (bug_on_p1_no options)) trace
                 (inject_crash options)) step ∧
  make_participant_function pid trace step = nth_label (log_run (new_participant pid) trace false) step.
Proof.
  split; [unfold make_coordinator_function|unfold make_participant_function];
    by rewrite run_and_capture_indexes.
Qed.

(** C32: the simulation of any number of participants below the largest thread id is a
    program the engine accepts: its threads are 1 to [n + 1], and whatever a thread has
    observed, its function returns or throws (no undefined behaviour and no endless
    replay) and the receives it returns have total matchers. *)
Theorem simulation_is_accepted options :
  (num_participants options < kMaxThreadId)%N →
  sorted_thread_ids (make_program options) =
    Ok (N.of_nat <$> seq 1 (S (N.to_nat (num_participants options)))) ∧
  (∀ tid, tid ∈ N.of_nat <$> seq 1 (S (N.to_nat (num_participants options))) → (tid ≤ kMaxThreadId)%N) ∧
  total_program (make_program options) ∧ catchable_program (make_program options).
Proof.
  intros Hfit. split_and!.
  - by apply program_thread_ids.
  - by apply program_ids_fit.
  - by apply program_total.
  - by apply program_catchable.
Qed.

Lemma simulation_is_accepted_witness :
  sorted_thread_ids (make_program (MkSimOptions 2 false true)) = Ok [1; 2; 3]%N.
Proof. apply (simulation_is_accepted (MkSimOptions 2 false true)). reflexivity. Defined.

(** ** Exploring the simulation *)

(** C31: every execution of the simulated protocol that the model checker publishes is safe,
    for any number of participants that fits, every depth and event bound, communication
    model, fault injection and observer, sequentially and on every interleaving of the
    workers: all decisions observed by participants are the same; if one is told to commit,
    every participant chose to vote Yes and made no other choice; and when the coordinator
    chose to crash before its first decision, no participant is told any. *)
Theorem simulated_executions_safe options depth bound model stop :
  (num_participants options < kMaxThreadId)%N →
  let config := recording_config (make_program options) depth bound model stop in
  let safe e :=
    safe_execution (events (te_graph e)) (reads_from (te_graph e)) (num_participants options) in
  (∀ clock fuel r log, verify sim_value_lt clock config [] fuel = Ok (r, log) → Forall safe log) ∧
  ∀ clock workers hc inside r log,
    verify_parallel sim_value_lt clock config workers hc inside [] (Ok (r, log)) → Forall safe log.
Proof.
  intros Hfit config safe. pose proof (program_total options Hfit) as Htotal.
  assert (∀ log g kind a log', Forall safe log → follows_graph (make_program options) g →
    notify_terminal_execution config log g kind = Ok (a, log') → Forall safe log') as Hkeep.
  { intros log g kind a log' Hlog Hf [= _ <-]. apply Forall_app. split; [done|].
    constructor; [|constructor]. by apply follows_safe. }
  split.
  - intros clock fuel r log Hrun. eapply (verify_rule sim_value_lt clock config (λ _ log, Forall safe log)); [..|done].
    + intros r1 o1 s o2 HI [= <-]. done.
    + intros tids r1 log1 g kind d a o2 _ Hlog _ _ Hf Hn. by eapply Hkeep.
    + done.
    + apply Forall_nil_2.
  - intros clock workers hc inside r log Hrun.
    apply (verify_parallel_rule sim_value_lt clock config workers hc inside (λ log _ _, Forall safe log))
      in Hrun as [Hlog _]; [done|..|done|apply Forall_nil_2].
    + intros o c b s o' HJ [= <-]. done.
    + intros tids o c b g kind d a o' _ Hlog _ Hf Hn. by eapply Hkeep.
Qed.

(** *** One participant and a coordinator that may crash *)

Definition one_participant : Options := MkSimOptions 1 false true.

Definition one_participant_run : VerifyResult * list (TerminalExecution SimValue) :=
  match verify sim_value_lt (λ _, 0%Z)
    (recording_config (make_program one_participant) 1000 0 Async (λ _ _, Continue)) [] 1000 with
  | Ok r => r
  | Throw _ => (new_result, [])
  end.

Lemma one_participant_run_Ok :
  verify sim_value_lt (λ _, 0%Z)
    (recording_config (make_program one_participant) 1000 0 Async (λ _ _, Continue)) [] 1000 =
  Ok one_participant_run.
Proof. vm_compute. reflexivity. Qed.

(** The event of an execution at which a participant is told a decision. *)
Definition told_at (pid : ParticipantId) (d : DecisionValue) (g : ExplorationGraph SimValue)
    (a : EventId) : bool :=
  match events g !! a, observation (events g) (reads_from g) a with
  | Some e, Some (Observed v) =>
      bool_decide (thread e = participant_to_thread pid) && is_receive e &&
      match decode_message v with Ok msg => bool_decide (msg = DecisionMsg d) | Throw _ => false end
  | _, _ => false
  end.

Lemma told_at_told pid d g a : told_at pid d g a = true → told (events g) (reads_from g) pid d.
Proof.
  unfold told_at. destruct (events g !! a) as [e|] eqn:He; [|done].
  destruct (observation _ _ a) as [[v|]|] eqn:Ho; try done. destruct (decode_message v) as [msg|] eqn:Hd.
  - intros [[Ht%bool_decide_eq_true Hr]%andb_true_iff ->%bool_decide_eq_true]%andb_true_iff. by exists a, e, v.
  - by rewrite andb_false_r.
Qed.

(** Some executions of the log commit, and in each of them the participant chose Yes. *)
Lemma simulated_executions_safe_witness :
  ∃ k e a, snd one_participant_run !! k = Some e ∧ told_at 1 Commit (te_graph e) a = true ∧
    chose (events (te_graph e)) 1 (vote_choice Yes).
Proof.
  destruct (simulated_executions_safe one_participant 1000 0 Async (λ _ _, Continue)) as [Hseq _];
    [reflexivity|].
  pose proof one_participant_run_Ok as Hrun.
  assert (∃ k a, option_map (λ e, told_at 1 Commit (te_graph e) a) (snd one_participant_run !! k) = Some true)
    as (k & a & Hka) by (exists 0, 8; vm_compute; reflexivity).
  specialize (Hseq (λ _, 0%Z) 1000 (fst one_participant_run) (snd one_participant_run)).
  generalize dependent one_participant_run. intros [r log] Hseq Hrun Hka. simpl in *.
  destruct (log !! k) as [e|] eqn:Hk; [|discriminate Hka]. injection Hka as Hka.
  exists k, e, a. split_and!; [exact Hk|exact Hka|].
  eapply Forall_lookup_1 in Hk; [|exact (Hseq Hrun)].
  apply (sx_validity _ _ _ Hk 1 1%N (told_at_told 1 Commit _ a Hka)). split; reflexivity || discriminate.
Defined.
