(* ===== verification/UdpTheorems.v ===== *)
(** * UdpTheorems: the protocol over UDP sockets

    The theorem on [UdpEnvironment], with its witness: what runs over sockets is a node of
    the network of [Network]. *)

From stdpp Require Import base tactics numbers list gmap strings.
From S2P Require Import Prelude Errors TwoPhase Network Udp UdpFacts.

(** C30: whatever the operating system answers, a run of a protocol object over UDP (the
    coordinator and the participants are instances) makes a sequence of calls that a node
    of the network can make: messages read from datagrams, and timers that are active when
    they fire.  When it returns, the object needs no more input and the datagrams sent are
    the texts of the node's messages at the addresses of their destinations.  When it
    throws, it throws a standard exception (or outlasts the fuel) and never meets undefined
    behaviour such as a dangling timer iterator or a timer of another kind of object; the
    datagrams sent are then those of a node that is up and of a part of one more call of it
    (or of a part of its start).  Either way the timers are cleared and a second run is
    refused. *)
Theorem udp_run_is_node_run (os : Os) {Obj} `{!Protocol UdpEnv exn Obj} `{!Protocol RecEnv exn Obj}
    `{!Mirrored os Obj} `{!Disciplined Obj} my_id ports vote thread env fuel (obj : Obj) r env' :
  new_udp_environment os my_id ports vote thread = Ok env →
  run os fuel obj env = (r, env') →
  match r with
  | Ok obj' => ∃ nd sent, node_run os obj nd sent ∧ node_obj nd = obj' ∧ node_up nd = false ∧
      datagrams (calls env') = wire ports <$> sent
  | Throw e => (e = nontermination ∨ ∃ w, e = std_exception w) ∧
      cut_short os ports obj (datagrams (calls env'))
  end ∧
  timer_schedule_ env' = [] ∧ active_timers_ env' = ∅ ∧ run_active_ env' = false ∧
  ∀ fuel' (obj' : Obj),
    run os fuel' obj' env' = (Throw (std_exception "UdpEnvironment::run() called more than once"), env').
Proof.
  intros Hnew Hrun. destruct (run_ends os ports my_id vote thread env fuel obj Hnew)
    as ([r1 env1] & [Hok He] & Heq). rewrite Heq in Hrun. injection Hrun as <- <-. cbn [fst snd] in *.
  split.
  - destruct r1 as [obj'|e]; [|done]. destruct He as (nd & sent & <- & Hfin & Hup & Hs).
    exists nd, sent. by split_and!.
  - split_and!; [done..|]. intros fuel' obj'.
    unfold run. simpl. by rewrite (to_ran _ Hok).
Qed.

(** ** Witness *)

(** Participant 1 gets a malformed datagram, a request to prepare and a decision. *)
Definition udp_sample_os : Os :=
  MkOs (λ n, Z.of_nat n) (λ _ _, PollReady false true)
    (λ n, RecvData (nth n ["noise"; "PREPARE"; "DECISION COMMIT"]%string "PREPARE"%string))
    (λ _, true) (λ _, true) true (λ _, true) (λ _, true).

#[local] Existing Instance udp_sample_os.

Definition sample_ports : gmap N Address :=
  {[ 0%N := ("127.0.0.1"%string, 7000%N); 1%N := ("127.0.0.1"%string, 7001%N) ]}.

Definition udp_sample_env : UdpEnv := MkUdpEnv 1 sample_ports (Some Yes) [] ∅ 0 false false 0 0 no_calls.

Definition udp_sample_run : result exn Participant * UdpEnv := run udp_sample_os 20 (new_participant 1) udp_sample_env.

Lemma udp_run_is_node_run_witness :
  (∃ nd sent, node_run udp_sample_os (new_participant 1) nd sent ∧
     node_obj nd = MkParticipant 1 1000 ParticipantDone (Some Commit) ∧ node_up nd = false ∧
     datagrams (calls (snd udp_sample_run)) = wire sample_ports <$> sent) ∧
  active_timers_ (snd udp_sample_run) = ∅.
Proof.
  destruct (udp_run_is_node_run udp_sample_os 1 sample_ports (Some Yes) 0 udp_sample_env 20 (new_participant 1)
    (Ok (MkParticipant 1 1000 ParticipantDone (Some Commit))) (snd udp_sample_run)) as (Hrun & _ & Ht & _).
  - vm_compute. reflexivity.
  - vm_compute. reflexivity.
  - split; [exact Hrun|exact Ht].
Defined.

(** What the participant sent. *)
Example sample_datagrams :
  datagrams (calls (snd udp_sample_run)) =
  [(("127.0.0.1", 7000%N), "VOTE 1 YES"); (("127.0.0.1", 7000%N), "ACK 1")]%string.
Proof. vm_compute. reflexivity. Qed.
