(* ===== verification/EntryTheorems.v ===== *)
(** * EntryTheorems: the internal entry points

    The theorems on [EntryPoints], with their witness: the loop over backward revisits is a
    loop over the receives, and an exploration started from a graph gives the graph back. *)

From stdpp Require Import base tactics numbers relations sets list strings.
From S2P Require Import Prelude Errors Event Relation ExecutionGraph ExplorationGraph Porf.
From S2P Require Import Consistency Program Masked Dpor Revisit Explorer Observers EntryPoints.
From S2P Require Import StorageFacts ExecutionGraphFacts ExplorationFacts Queries.
From S2P Require Import ConsistencyFacts.
From S2P Require Import SoundFacts RevisitFacts NextEvent Conformance Totality EngineFacts.
From S2P Require Import Termination.
From S2P Require Import VerifyFacts EntryFacts.
From S2P Require Import Samples GraphTheorems CheckerTheorems StepTheorems.

Section entry.
Context {V : Type} `{EqDecision V} (value_lt : V → V → bool).

(** C38: [for_each_backward_revisit_child] on a sound graph is a loop over the receives of the
    send's destination, in order: each receive has a definite backward revisit, none or a
    graph that satisfies the invariant, independent of the other receives, and the
    callbacks are called with the revisits that exist until one of them says stop. *)
Theorem revisit_children_enumerated {S} bound model (g : ExplorationGraph V) send_id e send
    (should_stop : S → bool) (emit : ExplorationGraph V → S → res (bool * S)) (s : S) :
  Sound bound model g → events g !! send_id = Some e → as_send e = Some send →
  ∃ revisited,
    Forall2 (λ recv o, revisit_of value_lt model g send_id recv = Ok o)
      (receive_ids (events g) (destination send)) revisited ∧
    (∀ c, Some c ∈ revisited → Good bound c) ∧
    for_each_backward_revisit_child value_lt should_stop emit g send_id model s =
      emit_each should_stop emit (omap id revisited) s.
Proof.
  intros Hs He Hsend. pose proof (lookup_lt_Some _ _ _ He) as Hlt.
  destruct (revisit_of_each value_lt bound model g send_id (receive_ids (events g) (destination send)))
    as [os Hos]; [done|done| |].
  { intros r Hr. by eapply ids_where_bound. }
  exists os. split_and!; [done| |].
  - intros c (i & Hi)%list_elem_of_lookup. destruct (Forall2_lookup_r _ _ _ _ _ Hos Hi) as (recv & _ & Hr).
    apply bind_Ok_inv in Hr as (r & Hr & [= Hc]).
    by destruct (next_backward_revisit_child_spec value_lt bound model g send_id [recv] 0 r c Hs Hlt Hr Hc)
      as (_ & _ & _ & [Hg _]).
  - unfold for_each_backward_revisit_child.
    rewrite (receives_in_destination_eq g send_id e send) by (done || apply Hs). cbn [mbind result_bind].
    rewrite (revisit_loop value_lt model g send_id e send He Hsend should_stop emit _ os) by (done || lia).
    by rewrite drop_0.
Qed.

Context {O : Type} (clock : nat → Z) (config : DporConfig V O).

(** An exploration from a graph gives the graph back as it was. *)
Lemma visit_gives_back md (g : ExplorationGraph V) result o depth tids fuel g' r o' :
  total_program (program config) → sorted_thread_ids (program config) = Ok tids →
  Good (max_thread_events config) g →
  (md = Visit → Sound (max_thread_events config) (communication_model config) g) →
  visit_on value_lt clock config md g result o depth tids fuel = Ok (g', r, o') → same_execution g g'.
Proof.
  intros Htotal Htids Hg Hs Hrun. apply bind_Ok_inv in Hrun as (m & Hm & [= <- <- <-]).
  eapply (run_ok (H := sequential_executor config clock (clock 0)) value_lt config tids (λ _, True)
    (λ _, True)) in Hm as (_ & _ & _ & Hsame); try done.
Qed.

End entry.

(** An observer made of a callable that returns nothing never cuts the exploration short. *)
Theorem watching_explores_all {V O : Type} `{EqDecision V} (value_lt : V → V → bool) (clock : nat → Z)
    (config : DporConfig V O) (fn : ObserverFunction V O) o fuel r o' :
  total_program (program config) → watches fn = true → on_terminal_execution config = Some (assign fn) →
  verify value_lt clock config o fuel = Ok (r, o') → all_explored r = true.
Proof.
  intros Htotal Hw Hobs Hrun.
  apply (verify_rule value_lt clock config (λ r _, all_explored r = true)) in Hrun; try done.
  intros tids r1 o1 g kind depth a o2 _ Hr _ _ _ Hn. unfold notify_terminal_execution in Hn. rewrite Hobs in Hn.
  destruct (assign fn o1 _) as [[a' o3]|e] eqn:Ea; simpl in Hn; [|by destruct e].
  injection Hn as -> ->. apply watches_continue in Ea as ->; [|done].
  unfold after_publication. by rewrite decide_False by done.
Qed.

(** The send 2 of [rival] has one backward revisit, of the receive 1. *)
Lemma revisit_children_enumerated_witness :
  ∃ c, for_each_backward_revisit_child Nat.ltb (λ _, false) (λ c cs, Ok (true, cs ++ [c])) rival 2 Async []
       = Ok [c].
Proof.
  assert (∃ e send, events rival !! 2 = Some e ∧ as_send e = Some send ∧
    receive_ids (events rival) (destination send) = [1]) as (e & send & He & Hsend & Hids).
  { vm_compute. eexists _, _. by split_and!. }
  destruct (revisit_children_enumerated Nat.ltb 0 Async rival 2 e send (λ _, false)
    (λ c cs, Ok (true, cs ++ [c])) [] rival_Sound He Hsend) as (os & Hos & _ & ->).
  rewrite Hids in Hos. apply Forall2_cons_inv_l in Hos as (o & os' & Ho & Hnil & ->).
  apply Forall2_nil_inv_l in Hnil as ->.
  assert (is_Some (ok_or None (revisit_of Nat.ltb Async rival 2 1))) as [c Hc]
    by (vm_compute; eexists; reflexivity).
  rewrite Ho in Hc. cbn [ok_or] in Hc. exists c. rewrite Hc. reflexivity.
Defined.
