(* ===== verification/BenchmarkTheorems.v ===== *)
(** * BenchmarkTheorems: the benchmark harness

    The command line says what the options are, a benchmark run always explores
    everything it can, and the exit code tells whether the iterations and the two
    explorers agree. *)

From Stdlib Require Import Ascii.
From stdpp Require Import base tactics numbers pretty sets list strings.
From S2P Require Import Prelude Errors Event ExecutionGraph ExplorationGraph Program Dpor.
From S2P Require Import Explorer Parallel SoundFacts NextEvent Conformance EngineFacts.
From S2P Require Import VerifyFacts PoolRule TwoPhase Benchmark BridgeFacts.

(** ** The command line *)

Open Scope string_scope.

Lemma stoull_pretty n : (n ≤ size_t_max)%N → stoull (pretty n) = Some n.
Proof.
  intros Hn. unfold stoull. rewrite <-(string_app_empty (pretty n)).
  change (read_size_t (Some (pretty n +:+ ""))) with (read_size_t (Some (String " "%char (pretty n +:+ "")))).
  by rewrite read_number.
Qed.

Lemma pretty_no_minus (n : N) : starts_with_minus (pretty n) = false.
Proof.
  destruct (pretty_number n) as (Hne & Hd & _). destruct (pretty n) as [|c s]; [done|].
  simpl in Hd. apply andb_true_iff in Hd as [Hd _]. unfold is_digit in Hd.
  apply andb_true_iff in Hd as [Hd%N.leb_le _]. simpl. apply bool_decide_eq_false_2. lia.
Qed.

Lemma parse_nonnegative_pretty n flag :
  (n ≤ size_t_max)%N → parse_nonnegative_int (pretty n) flag = Ok n.
Proof. intros Hn. unfold parse_nonnegative_int. by rewrite pretty_no_minus, stoull_pretty. Qed.

Lemma parse_positive_pretty n flag :
  (n ≤ size_t_max)%N → n ≠ 0%N → parse_positive_int (pretty n) flag = Ok n.
Proof.
  intros Hn H0. unfold parse_positive_int. rewrite pretty_no_minus, stoull_pretty by done.
  by rewrite decide_False.
Qed.

(** The arguments that say [o]; [--max-workers] cannot say 0. *)
Definition mode_name (m : Mode) : string :=
  match m with ModeDpor => "dpor" | ModeOracle => "oracle" | ModeBoth => "both" end.

Definition parallel_args (p : ParallelVerifyOptions) : list string :=
  (if decide (opt_max_workers p = 0) then [] else ["--max-workers"; pretty (N.of_nat (opt_max_workers p))]) ++
  ["--max-queued-tasks"; pretty (N.of_nat (opt_max_queued_tasks p));
   "--spawn-depth-cutoff"; pretty (N.of_nat (spawn_depth_cutoff p));
   "--split-poll-interval-steps"; pretty (N.of_nat (opt_split_poll_interval_steps p));
   "--progress-counter-flush-interval"; pretty (N.of_nat (opt_progress_counter_flush_interval p));
   "--progress-poll-interval-steps"; pretty (N.of_nat (opt_progress_poll_interval_steps p))].

Definition to_args (o : Options) : list string :=
  ["--mode"; mode_name (bo_mode o); "--participants"; pretty (bo_participants o);
   "--iterations"; pretty (N.of_nat (bo_iterations o));
   "--progress-interval-ms"; pretty (Z.to_N (bo_progress_report_interval o))] ++
  (if bo_inject_crash o then [] else ["--no-crash"]) ++
  (if decide (bo_communication_model o = FifoP2P) then ["--fifo"] else []) ++
  (if bo_parallel o then parallel_args (bo_parallel_options o) else []).

(** Options that a command line can say. *)
Record expressible (o : Options) : Prop := {
  ex_participants : (0 < bo_participants o ≤ size_t_max)%N;
  ex_iterations : (0 < N.of_nat (bo_iterations o) ≤ size_t_max)%N;
  ex_interval : (0 ≤ bo_progress_report_interval o < 2 ^ 63)%Z;
  ex_sequential : bo_parallel o = false → bo_parallel_options o = default_options;
  ex_sync : opt_sync_steps (bo_parallel_options o) = 512;
  ex_numbers : Forall (λ n, N.of_nat n ≤ size_t_max)%N
    [opt_max_workers (bo_parallel_options o); opt_max_queued_tasks (bo_parallel_options o);
     spawn_depth_cutoff (bo_parallel_options o); opt_split_poll_interval_steps (bo_parallel_options o);
     opt_progress_counter_flush_interval (bo_parallel_options o);
     opt_progress_poll_interval_steps (bo_parallel_options o)];
}.

(** One option with a value. *)
Lemma parse_from_value o arg value rest o' :
  arg ∉ ["--help"; "-h"; "--no-crash"; "--fifo"; "--parallel"] → parse_value o arg value = Ok o' →
  parse_from o (arg :: value :: rest) = parse_from o' rest.
Proof.
  intros Harg Hv. cbn [parse_from]. rewrite decide_False by set_solver. rewrite !decide_False by set_solver.
  by rewrite Hv.
Qed.

(** [say] peels one printed option off the command line. *)
Ltac say := erewrite parse_from_value;
  [|set_solver
   |unfold parse_value; repeat first [rewrite decide_True by done | rewrite decide_False by done];
    rewrite ?parse_positive_pretty, ?parse_nonnegative_pretty by lia; cbn [mbind result_bind]; reflexivity].

Lemma parallel_args_parse o p :
  opt_sync_steps p = 512 → bo_parallel_options o = default_options →
  Forall (λ n, N.of_nat n ≤ size_t_max)%N
    [opt_max_workers p; opt_max_queued_tasks p; spawn_depth_cutoff p; opt_split_poll_interval_steps p;
     opt_progress_counter_flush_interval p; opt_progress_poll_interval_steps p] →
  parse_from o (parallel_args p) = Ok (inl (set_parallel o p)).
Proof.
  destruct p as [w q c s sp f pp]. cbn [opt_sync_steps opt_max_workers opt_max_queued_tasks spawn_depth_cutoff
    opt_split_poll_interval_steps opt_progress_counter_flush_interval opt_progress_poll_interval_steps].
  intros -> Hdef. rewrite !Forall_cons. intros (Hw & Hq & Hc & Hsp & Hf & Hpp & _).
  unfold parallel_args. cbn [opt_max_workers opt_max_queued_tasks spawn_depth_cutoff
    opt_split_poll_interval_steps opt_progress_counter_flush_interval opt_progress_poll_interval_steps].
  assert (∀ o', bo_parallel_options o' = MkOptions w 0 0 512 1 1024 64 →
    set_parallel o' (MkOptions w q c 512 sp f pp) = set_parallel o (MkOptions w q c 512 sp f pp) →
    parse_from o' ["--max-queued-tasks"; pretty (N.of_nat q); "--spawn-depth-cutoff"; pretty (N.of_nat c);
      "--split-poll-interval-steps"; pretty (N.of_nat sp);
      "--progress-counter-flush-interval"; pretty (N.of_nat f);
      "--progress-poll-interval-steps"; pretty (N.of_nat pp)] =
    Ok (inl (set_parallel o (MkOptions w q c 512 sp f pp)))) as Hrest.
  { intros o' Ho' <-. do 5 say. unfold set_parallel. cbn. rewrite Ho'. cbn. by rewrite !Nat2N.id. }
  case_decide as E; [subst w; by apply Hrest|]. cbn [app]. say. apply Hrest.
  - cbn. rewrite Hdef. cbn. by rewrite Nat2N.id.
  - done.
Qed.

(** C37: the command line is parsed as it is meant: the arguments that say some options,
    numbers up to 2^64 - 1 included, parse to exactly those options. *)
Theorem benchmark_options_roundtrip o : expressible o → parse_args (to_args o) = Ok (inl o).
Proof.
  intros [Hp Hi Hms Hseq Hsync Hnum]. destruct o as [md cm ps it crash par ms po].
  cbn [bo_mode bo_communication_model bo_participants bo_iterations bo_inject_crash bo_parallel
    bo_progress_report_interval bo_parallel_options] in *.
  unfold parse_args, to_args. cbn [bo_mode bo_communication_model bo_participants bo_iterations
    bo_inject_crash bo_parallel bo_progress_report_interval bo_parallel_options app].
  assert (Z.to_N ms ≤ size_t_max)%N as Hms' by (unfold size_t_max; lia).
  erewrite (parse_from_value _ _ _ _ (set_mode default_bench_options md));
    [|set_solver|by destruct md]. do 3 say. rewrite Nat2N.id.
  assert (to_milliseconds (Z.to_N ms) = ms) as ->.
  { unfold to_milliseconds. rewrite Z2N.id by lia. by rewrite decide_True by lia. }
  set (o0 := set_interval _ _).
  assert (∀ o, bo_parallel_options o = default_options → bo_parallel o = false →
    parse_from o (if par then parallel_args po else []) =
      Ok (inl (if par then set_parallel o po else o))) as Hpar.
  { intros o Ho Hno. destruct par; [by apply parallel_args_parse|done]. }
  assert (∀ o rest, parse_from o ((if decide (cm = FifoP2P) then ["--fifo"] else []) ++ rest) =
    parse_from (if decide (cm = FifoP2P) then set_fifo o else o) rest) as Hfifo.
  { intros o rest. case_decide; [|done]. reflexivity. }
  assert (∀ o rest, parse_from o ((if crash then [] else ["--no-crash"]) ++ rest) =
    parse_from (if crash then o else set_no_crash o) rest) as Hcrash by (by destruct crash).
  rewrite Hcrash, Hfifo, Hpar; [|by destruct crash, cm..]. do 2 f_equal. unfold o0.
  destruct par, crash, cm; cbn; try done; by rewrite Hseq.
Qed.

(** A number with a minus sign behind blanks is not refused: it wraps around. *)
Example blank_minus_wraps : parse_positive_int " -1" "--participants" = Ok (2 ^ 64 - 1)%N.
Proof. reflexivity. Qed.

(** So is one with trailing characters. *)
Example trailing_characters : parse_positive_int "3x" "--participants" = Ok 3%N.
Proof. reflexivity. Qed.

Close Scope string_scope.

Lemma benchmark_options_roundtrip_witness :
  parse_args (to_args (MkBenchOptions ModeDpor FifoP2P 4 2 false true 250%Z (MkOptions 8 16 0 512 1 4096 128))) =
  Ok (inl (MkBenchOptions ModeDpor FifoP2P 4 2 false true 250%Z (MkOptions 8 16 0 512 1 4096 128))).
Proof.
  apply benchmark_options_roundtrip. split; cbn; try done; try (unfold size_t_max; lia).
  repeat constructor; unfold size_t_max; lia.
Defined.

(** ** Runs of the model checker *)

Section runs.
Context {V : Type} `{EqDecision V} (value_lt : V → V → bool) (make_program : N → bool → Program V).

(** The counts add up to the terminal executions, and no paths are counted. *)
Definition counts_add_up (b : BenchmarkRunResult) : Prop :=
  run_terminal_executions b = run_full_executions b + run_blocked_executions b +
    run_error_executions b + run_depth_limit_executions b ∧ run_paths_explored b = 0.

(** A result of the model checker is accepted, and only running explorations were printed. *)
Lemma explores_accepted clock hc o printed r :
  total_program (make_program (bo_participants o) (bo_inject_crash o)) →
  explores value_lt make_program clock hc o (Ok (r, printed)) →
  (∃ b, dpor_run_result r = Ok b ∧ counts_add_up b) ∧ Forall (λ s, ps_state s = ProgressRunning) printed.
Proof.
  intros Htotal Hrun. set (config := benchmark_config make_program o) in *.
  assert (∀ o1 s o2, Forall (λ s, ps_state s = ProgressRunning) o1 → notify_progress config o1 s = Ok o2 →
    Forall (λ s, ps_state s = ProgressRunning) o2) as Hprint.
  { intros o1 s o2 Ho1 Hn. unfold notify_progress, config, benchmark_config in Hn. simpl in Hn.
    destruct (decide _); [|by injection Hn as <-]. unfold print_progress_snapshot in Hn.
    destruct (ps_state s) eqn:Es; injection Hn as <-; try done. apply Forall_app. by split; [|constructor]. }
  assert (∀ tids g kind depth, published config tids g kind depth → kind ≠ ThreadEventLimit) as Hkind.
  { intros tids g kind depth (_ & _ & _ & Hk) ->. by destruct Hk as (_ & t & _ & _ & [Hb _]). }
  assert (∀ o1 g kind a o2, notify_terminal_execution config o1 g kind = Ok (a, o2) → a = Continue ∧ o2 = o1)
    as Hnotify by (by intros o1 g kind a o2 [= <- <-]).
  remember (Ok (r, printed)) as answer eqn:Ha. destruct Hrun as [fuel answer Hmode Hrun|answer Hmode Hrun].
  - specialize (Hrun fuel (le_n _)). rewrite Ha in Hrun. apply (verify_rule value_lt clock config (λ r o1, vr_kind r = AllExplored ∧
      thread_event_limit_executions_explored r = 0 ∧
      executions_explored r = full_executions_explored r + blocked_executions_explored r +
        error_executions_explored r + depth_limit_executions_explored r ∧
      Forall (λ s, ps_state s = ProgressRunning) o1)) in Hrun as (Hk & Hl & Hsum & Hp); try done.
    + split; [|done]. eexists. split; [unfold dpor_run_result; by rewrite Hk|]. by split.
    + intros r1 o1 s o2 (? & ? & ? & ?) Hn. split_and!; eauto.
    + intros tids r1 o1 g kind depth a o2 _ (Hk & Hl & Hsum & Hp) _ Hpub _ [-> ->]%Hnotify.
      specialize (Hkind _ _ _ _ Hpub). unfold after_publication. rewrite decide_False by done.
      destruct kind; simpl; split_and!; try done; lia.
  - rewrite Ha in Hrun. apply (verify_parallel_rule value_lt clock config (bo_parallel_options o) hc false (λ o1 c b,
      b = false ∧ cn_thread_event_limit c = 0 ∧ Forall (λ s, ps_state s = ProgressRunning) o1)) in Hrun
      as ((Hk & Hl & Hp) & Hsum); try done.
    + split; [|done]. apply bool_decide_eq_false in Hk. eexists.
      split; [unfold dpor_run_result; rewrite decide_True by (by destruct (vr_kind r)); done|].
      split; [|done]. simpl. unfold total_count in Hsum. simpl in *. lia.
    + intros o1 c b s o2 (? & ? & ?) Hn. split_and!; eauto.
    + intros tids o1 c b g kind depth a o2 _ (-> & Hl & Hp) Hpub _ [-> ->]%Hnotify.
      specialize (Hkind _ _ _ _ Hpub). destruct kind; simpl; split_and!; done.
Qed.

(** A sequential exploration always answers. *)
Lemma explores_returns clock hc o :
  bo_parallel o = false → ∃ answer, explores value_lt make_program clock hc o answer.
Proof.
  intros Hseq. destruct (verify_returns value_lt clock (benchmark_config make_program o) []) as (n & Hn).
  eexists. by apply (explores_sequentially value_lt make_program clock hc o n).
Qed.

(** C35: a benchmark run of the model checker, on a program whose receive matchers do not
    throw, is never rejected as stopped: it returns counts
    that add up to the terminal executions, having printed the progress of running
    explorations only, or it throws what the model checker threw; and a sequential one has
    an outcome. *)
Theorem benchmark_run_complete clock hc o :
  total_program (make_program (bo_participants o) (bo_inject_crash o)) →
  (∀ out, run_dpor value_lt make_program clock hc o out →
    (∃ b r printed, out = Ok b ∧ counts_add_up b ∧ explores value_lt make_program clock hc o (Ok (r, printed)) ∧
      run_terminal_executions b = executions_explored r ∧ Forall (λ s, ps_state s = ProgressRunning) printed) ∨
    (∃ e, out = Throw e ∧ explores value_lt make_program clock hc o (Throw e))) ∧
  (bo_parallel o = false → ∃ out, run_dpor value_lt make_program clock hc o out).
Proof.
  intros Htotal. split.
  - intros out ([[r printed]|e] & Hex & ->); [left|right; by exists e].
    destruct (explores_accepted clock hc o printed r Htotal Hex) as [(b & Hb & Hsum) Hp].
    exists b, r, printed. cbn [mbind result_bind]. split_and!; try done.
    unfold dpor_run_result in Hb. case_decide; [by injection Hb as <-|done].
  - intros Hseq. destruct (explores_returns clock hc o Hseq) as [answer Ha]. by eexists _, answer.
Qed.

End runs.

Definition one_value : Program nat :=
  MkProgram (tm_of_list [(0%N, λ _ step, Ok (if decide (step = 0) then Some (LNd (MkNdLabel 1 [1; 2])) else None))]).

Lemma one_value_total : total_program one_value.
Proof.
  intros tid f trace step l Hf Hl. unfold tm_at, one_value in Hf. simpl in Hf.
  destruct (N.to_nat tid) as [|n]; simpl in Hf; [|done]. injection Hf as <-.
  destruct (decide (step = 0)); [by injection Hl as <-|done].
Qed.

(** One thread with one choice between two values: two executions. *)
Lemma benchmark_run_complete_witness :
  ∃ out, run_dpor Nat.ltb (λ _ _, one_value) (λ _, 0%Z) 1 default_bench_options out ∧
    ((∃ b r printed, out = Ok b ∧ counts_add_up b ∧
       explores Nat.ltb (λ _ _, one_value) (λ _, 0%Z) 1 default_bench_options (Ok (r, printed)) ∧
       run_terminal_executions b = executions_explored r ∧
       Forall (λ s, ps_state s = ProgressRunning) printed) ∨
     (∃ e, out = Throw e ∧
       explores Nat.ltb (λ _ _, one_value) (λ _, 0%Z) 1 default_bench_options (Throw e))).
Proof.
  destruct (benchmark_run_complete Nat.ltb (λ _ _, one_value) (λ _, 0%Z) 1 default_bench_options one_value_total)
    as [Hall Hex].
  destruct (Hex eq_refl) as [out Hout]. exists out. split; [exact Hout|exact (Hall out Hout)].
Defined.

(** ** Iterations and the exit code *)

Lemma check_counts_Ok front back : check_counts front back = Ok tt ↔ back = front.
Proof.
  destruct front, back. unfold check_counts. simpl. split.
  - repeat (case_decide; [done|]). intros _. f_equal; lia.
  - intros [= -> -> -> -> -> ->]. by repeat (rewrite decide_False by tauto).
Qed.

Lemma collect_one_Ok m ms run out :
  collect_one (m :: ms) run = Ok out ↔
  run.2 = Ok (counts_of m) ∧ out = m :: ms ++ [MkMeasurement (counts_of m) run.1].
Proof.
  unfold collect_one, measure_once. destruct run as [t [b|e]]; simpl; [|naive_solver].
  destruct (check_counts (counts_of m) b) as [[]|e] eqn:Ec; simpl.
  - apply check_counts_Ok in Ec as ->. naive_solver.
  - split; [done|]. intros [[= ->] _]. by rewrite (proj2 (check_counts_Ok _ _)) in Ec.
Qed.

(** The measurements keep the first one, and go through exactly when every later run has its
    counts. *)
Lemma collect_more (run : nat → Z * res BenchmarkRunResult) js m ms :
  (∃ out, foldM (λ ms i, collect_one ms (run (i + 1))) (m :: ms) js = Ok (m :: out)) ↔
    Forall (λ i, (run (i + 1)).2 = Ok (counts_of m)) js.
Proof.
  revert ms. induction js as [|j js IH]; intros ms; simpl.
  { split; [constructor|]. intros _. by eexists. }
  rewrite Forall_cons. destruct (collect_one (m :: ms) (run (j + 1))) as [out|e] eqn:Ec; simpl.
  - apply collect_one_Ok in Ec as [Hr ->]. rewrite IH. tauto.
  - split; [by intros (? & ?)|]. intros [Hr _].
    assert (collect_one (m :: ms) (run (j + 1)) = Ok (m :: ms ++ [MkMeasurement (counts_of m) (run (j + 1)).1]))
      as Hc by (by apply collect_one_Ok). congruence.
Qed.

Lemma collect_head (run : nat → Z * res BenchmarkRunResult) js m ms out :
  foldM (λ ms i, collect_one ms (run (i + 1))) (m :: ms) js = Ok out → ∃ ms', out = m :: ms'.
Proof.
  revert ms. induction js as [|j js IH]; intros ms Hrun; simpl in Hrun; [injection Hrun as <-; by eexists|].
  apply bind_Ok_inv in Hrun as (ms' & [_ ->]%collect_one_Ok & Hrun). by eapply IH.
Qed.

(** All iterations of [o] return [d]. *)
Definition agree (o : Options) (run : nat → Z * res BenchmarkRunResult) (d : BenchmarkRunResult) : Prop :=
  ∀ i, 1 ≤ i ≤ bo_iterations o → (run i).2 = Ok d.

Lemma agree_seq o run d n :
  bo_iterations o = S n →
  agree o run d ↔ (run 1).2 = Ok d ∧ Forall (λ i, (run (i + 1)).2 = Ok d) (seq 1 n).
Proof.
  intros Hn. unfold agree. rewrite Hn, Forall_forall. setoid_rewrite elem_of_seq. split.
  - intros Hall. split; [apply Hall; lia|]. intros i Hi. apply Hall. lia.
  - intros [H1 Hall] i Hi. destruct (decide (i = 1)) as [->|]; [done|].
    replace i with (i - 1 + 1) by lia. apply Hall. lia.
Qed.

(** The measurements fit in memory, and all iterations of [o] return [d]. *)
Definition measured (memory : N) (o : Options) (run : nat → Z * res BenchmarkRunResult)
    (d : BenchmarkRunResult) : Prop :=
  (N.of_nat (bo_iterations o) ≤ max_measurements)%N ∧
  (N.of_nat (bo_iterations o) * sizeof_measurement ≤ memory)%N ∧ agree o run d.

Lemma measured_reserve memory o run d :
  measured memory o run d ↔
  reserve_measurements memory (N.of_nat (bo_iterations o)) = Ok tt ∧ agree o run d.
Proof. unfold measured, reserve_measurements. repeat case_decide; split; intuition (done || lia). Qed.

(** Measuring succeeds exactly when the measurements fit and the iterations agree, and the
    first measurement has their counts. *)
Lemma collect_measurements_Ok memory o run :
  0 < bo_iterations o →
  (∀ out, collect_measurements memory o run = Ok out →
     ∃ m ms, out = m :: ms ∧ measured memory o run (counts_of m)) ∧
  (∀ d, measured memory o run d → ∃ m ms, collect_measurements memory o run = Ok (m :: ms) ∧ counts_of m = d).
Proof.
  intros Hpos. setoid_rewrite measured_reserve. unfold collect_measurements.
  destruct (reserve_measurements memory _) as [[]|e]; [|split; [done|by intros d [? _]]]. cbn [mbind result_bind].
  destruct (bo_iterations o) as [|n] eqn:Hn; [lia|]. setoid_rewrite (agree_seq o run _ n Hn).
  cbn [seq foldM]. change (0 + 1) with 1.
  destruct (run 1) as [t [b|e]]; unfold collect_one at 2 4, measure_once; cbn [fst snd mbind result_bind app hd counts_of];
    [|split; [done|intros d [_ [? _]]; done]].
  rewrite (proj2 (check_counts_Ok _ _) eq_refl). cbn [mbind result_bind].
  pose proof (collect_more run (seq 1 n) (MkMeasurement b t) []) as Hmore. split.
  - intros out Hrun. destruct (collect_head _ _ _ _ _ Hrun) as [ms ->]. exists (MkMeasurement b t), ms.
    split_and!; [done..|]. apply Hmore. by exists ms.
  - intros d (_ & [= <-] & Hall). apply Hmore in Hall as [ms Hrun]. by exists (MkMeasurement b t), ms.
Qed.

(** No command line asks for no iteration. *)
Lemma parse_value_iterations o arg value o' :
  parse_value o arg value = Ok o' → 0 < bo_iterations o → 0 < bo_iterations o'.
Proof.
  intros Hv Hpos. unfold parse_value in Hv.
  repeat case_decide; try done; try (by injection Hv as <-); apply bind_Ok_inv in Hv as (n & Hn & [= <-]); try done.
  unfold parse_positive_int in Hn. destruct (starts_with_minus value); [done|].
  destruct (stoull value); [|done]. case_decide; [done|]. injection Hn as ->. simpl. lia.
Qed.

Lemma parse_args_iterations args o : parse_args args = Ok (inl o) → 0 < bo_iterations o.
Proof.
  unfold parse_args. assert (0 < bo_iterations default_bench_options) as Hpos by (simpl; lia).
  revert Hpos. generalize default_bench_options as o0. remember (length args) as n eqn:Hlen.
  revert args Hlen. induction n as [n IH] using lt_wf_ind. intros args -> o0 Hpos Hp.
  destruct args as [|arg rest]; [by injection Hp as <-|]. cbn [parse_from] in Hp.
  case_decide; [done|]. repeat (case_decide; [by eapply (IH (length rest)) in Hp; simpl; auto with lia|]).
  destruct rest as [|value rest]; [done|]. apply bind_Ok_inv in Hp as (o' & Ho' & Hp).
  eapply (IH (length rest)) in Hp; simpl; auto with lia. by eapply parse_value_iterations.
Qed.

(** Usage is only ever printed with the exit code 0. *)
Lemma parse_from_code o args code : parse_from o args = Ok (inr code) → code = 0%Z.
Proof.
  remember (length args) as n eqn:Hlen. revert args Hlen o. induction n as [n IH] using lt_wf_ind.
  intros args -> o Hp. destruct args as [|arg rest]; [done|]. cbn [parse_from] in Hp.
  case_decide; [by injection Hp as <-|].
  repeat (case_decide; [eapply (IH (length rest)); [simpl; lia|done|done]|]).
  destruct rest as [|value rest]; [done|]. apply bind_Ok_inv in Hp as (o' & _ & Hp).
  eapply (IH (length rest)); [simpl; lia|done|done].
Qed.

(** The two explorers agree. *)
Definition same_counts (d m : BenchmarkRunResult) : Prop :=
  run_full_executions d = run_full_executions m ∧ run_blocked_executions d = run_blocked_executions m.

Lemma compare_measurements_eq d ds m ms :
  (compare_measurements (d :: ds) (m :: ms) = 0%Z ∧ same_counts (counts_of d) (counts_of m)) ∨
  (compare_measurements (d :: ds) (m :: ms) = 2%Z ∧ ¬ same_counts (counts_of d) (counts_of m)).
Proof. unfold compare_measurements, same_counts. repeat case_decide; [right|right|left]; tauto. Qed.

(** What measuring one explorer gives when it is asked for, and nothing otherwise. *)
Lemma asked_measurements memory o run (asked : Prop) `{!Decision asked} :
  0 < bo_iterations o →
  match (if decide asked then collect_measurements memory o run else Ok []) with
  | Ok [] => ¬ asked
  | Ok (m :: _) => asked ∧ ∀ d, measured memory o run d ↔ d = counts_of m
  | Throw _ => asked ∧ ∀ d, ¬ measured memory o run d
  end.
Proof.
  intros Hpos. destruct (collect_measurements_Ok memory o run Hpos) as [H1 H2]. case_decide as Ha; [|done].
  destruct (collect_measurements memory o run) as [out|e].
  - destruct (H1 out eq_refl) as (m & ms & -> & Hm). split; [done|]. intros d. split; [|by intros ->].
    intros (m' & ms' & [= <- <-] & <-)%H2. done.
  - split; [done|]. by intros d (m & ms & ? & _)%H2.
Qed.

(** C36: the exit code of the harness, on every command line.  It is 0 exactly when the
    usage was asked for, or every explorer the mode asks for could be measured (the
    measurements fit in memory, every iteration returned, and all its iterations have the
    same counts) and, with both, the two agree on the full and the blocked executions.  It
    is 2 exactly when both were asked for and measured and they disagree.  Otherwise it is
    1, or what was thrown is no [std::exception] and is not caught. *)
Theorem benchmark_exit_code memory args dpor oracle :
  let code := run_two_phase_commit_benchmark memory args dpor oracle in
  (code = Ok 0%Z ↔
    parse_args args = Ok (inr 0%Z) ∨
    ∃ o, parse_args args = Ok (inl o) ∧
      (bo_mode o ≠ ModeOracle → ∃ d, measured (memory false) o (dpor o) d) ∧
      (bo_mode o ≠ ModeDpor → ∃ m, measured (memory true) o (oracle o) m) ∧
      (bo_mode o = ModeBoth → ∀ d m, measured (memory false) o (dpor o) d → measured (memory true) o (oracle o) m →
         same_counts d m)) ∧
  (code = Ok 2%Z ↔
    ∃ o d m, parse_args args = Ok (inl o) ∧ bo_mode o = ModeBoth ∧
      measured (memory false) o (dpor o) d ∧ measured (memory true) o (oracle o) m ∧ ¬ same_counts d m) ∧
  (code = Ok 0%Z ∨ code = Ok 1%Z ∨ code = Ok 2%Z ∨ ∃ e, code = Throw e ∧ what e = None).
Proof.
  unfold run_two_phase_commit_benchmark. destruct (parse_args args) as [[o|c]|e] eqn:Hargs; cbn [mbind result_bind].
  3:{ destruct (what e) eqn:Ew; naive_solver. }
  2:{ pose proof (parse_from_code _ _ _ Hargs) as ->. naive_solver. }
  pose proof (parse_args_iterations _ _ Hargs) as Hpos.
  pose proof (asked_measurements (memory false) o (dpor o) (bo_mode o = ModeDpor ∨ bo_mode o = ModeBoth) Hpos) as Hd.
  pose proof (asked_measurements (memory true) o (oracle o) (bo_mode o = ModeOracle ∨ bo_mode o = ModeBoth) Hpos) as Hm.
  assert (∀ e c, match what e with Some _ => Ok 1%Z | None => Throw e end = Ok c → c = 1%Z) as Hthrow
    by (intros e c; destruct (what e); by intros [= <-]).
  assert (∀ e, let code := match what e with Some _ => Ok 1%Z | None => Throw e end in
    code = Ok 0%Z ∨ code = Ok 1%Z ∨ code = Ok 2%Z ∨ ∃ e, code = Throw e ∧ what e = None) as Hends
    by (intros e; simpl; destruct (what e) eqn:Ew; eauto 6).
  destruct (if decide _ then collect_measurements (memory false) _ _ else _) as [ds|e]; cbn [mbind result_bind].
  2:{ destruct Hd as [Ha Hd]. split; [|split; [|apply Hends]].
      - split; [by intros ?%Hthrow|]. intros [?|(o' & [= <-] & Hx & _)]; [done|].
        destruct Hx as [d Hx]; [destruct Ha; congruence|]. by destruct (Hd d).
      - split; [by intros ?%Hthrow|]. intros (o' & d & m & [= <-] & _ & Hx & _). by destruct (Hd d). }
  destruct (if decide _ then collect_measurements (memory true) _ _ else _) as [ms|e]; cbn [mbind result_bind].
  2:{ destruct Hm as [Ha Hm]. split; [|split; [|apply Hends]].
      - split; [by intros ?%Hthrow|]. intros [?|(o' & [= <-] & _ & Hx & _)]; [done|].
        destruct Hx as [m Hx]; [destruct Ha; congruence|]. by destruct (Hm m).
      - split; [by intros ?%Hthrow|]. intros (o' & d & m & [= <-] & _ & _ & Hx & _). by destruct (Hm m). }
  destruct ds as [|d ds], ms as [|m ms].
  - destruct (bo_mode o); naive_solver.
  - destruct Hm as [Ha Hm]. assert (bo_mode o = ModeOracle) as Hmode by (destruct (bo_mode o); naive_solver).
    split; [|split; [naive_solver|by left]]. split; [|done]. intros _. right. exists o. rewrite Hmode.
    split_and!; [done..| |done]. intros _. exists (counts_of m). by apply Hm.
  - destruct Hd as [Ha Hd]. assert (bo_mode o = ModeDpor) as Hmode by (destruct (bo_mode o); naive_solver).
    split; [|split; [naive_solver|by left]]. split; [|done]. intros _. right. exists o. rewrite Hmode.
    split_and!; [done| |done|done]. intros _. exists (counts_of d). by apply Hd.
  - destruct Hd as [Hda Hd], Hm as [Hma Hm].
    assert (bo_mode o = ModeBoth) as Hmode by (destruct (bo_mode o); naive_solver).
    destruct (compare_measurements_eq d ds m ms) as [[-> Hs]|[-> Hs]].
    + split; [|split; [|by left]].
      * split; [|done]. intros _. right. exists o. split_and!; [done|eexists; by apply Hd|eexists; by apply Hm|].
        by intros _ d' m' ->%Hd ->%Hm.
      * split; [done|]. by intros (o' & d' & m' & [= <-] & _ & ->%Hd & ->%Hm & ?).
    + split; [|split; [|by right; right; left]].
      * split; [done|]. intros [?|(o' & [= <-] & _ & _ & Hx)]; [done|]. destruct Hs.
        apply Hx; [done|by apply Hd|by apply Hm].
      * split; [|done]. intros _. exists o, (counts_of d), (counts_of m).
        split_and!; [done|done|by apply Hd|by apply Hm|done].
Qed.

(** Two iterations of each explorer that agree exit with 0, and a count that no vector can
    hold with 1. *)
Example exit_code_agree :
  run_two_phase_commit_benchmark (λ _, 1000%N) ["--iterations"%string; "2"%string]
    (λ _ i, (5%Z, Ok (MkRunResult 3 2 1 0 0 0))) (λ _ i, (9%Z, Ok (MkRunResult 3 2 1 0 0 7))) = Ok 0%Z.
Proof. reflexivity. Qed.

Example exit_code_length :
  reserve_measurements (2 ^ 64) (2 ^ 63) = Throw (std_exception "vector::reserve"%string).
Proof. reflexivity. Qed.
